(* ===== verification/_CoqProject ===== *)
-Q . S2P
Prelude.v
Host.v
Program.v
Interpreter.v
Doc.v
Canon.v
Text.v
Parse.v
ParseFacts.v
RoundTrip.v
Utf8.v
Validate.v
RecoveryDoc.v
Compile.v
RecoveryIface.v
CompilerIface.v
DocCompiler.v
DocCompilerFacts.v
CompilerTotal.v
Rules.v
RulesFacts.v
RulesRun.v
RulesCost.v
RulesDemo.v
Account.v
AccountFacts.v
AccountRuns.v
AccountSafety.v
AccountAdmin.v
AccountDemo.v
Factory.v
FactoryDemo.v
CompilerAccount.v
CompilerDemo.v
Controller.v
ControllerRuns.v
ControllerFacts.v
ControllerSafety.v
ControllerViews.v
ControllerDemo.v
ZkPrimitives.v
Merkle.v
Pool.v
PoolFacts.v
PoolRuns.v
PoolSafety.v
Prover.v
ProverFacts.v
Adapter.v
ZkCompose.v
ZkDemo.v
Smt.v
Analyze.v
AnalyzeFacts.v
AnalyzeSound.v
AnalyzeDemo.v
Conformance.v
MlDsa.v
Deploy.v
DeployFacts.v
DeployDemo.v
DeployTx.v
DeployTxFacts.v
DeployTxDemo.v
Regex.v
JsonSchema.v
Schema.v
SchemaFacts.v
SchemaSound.v
SchemaAgree.v
SchemaDemo.v
Registry.v
RegistryFacts.v
RegistryDemo.v
