(* ===== verification/Prelude.v ===== *)
(** * Perch: a verification library

    Perch is a policy system for Soroban smart accounts.  A policy document
    (JSON) names signers, rules and, optionally, a recovery configuration; a
    compiler contract lowers each rule to an OpenZeppelin context rule with a
    small constraint program attached; the account installs the rules and
    asks them about every call; the interpreter contract evaluates the
    program; a recovery controller lets guardians and zero-knowledge proofs
    replace lost or compromised credentials after a timelock, and a pool of
    Merkle trees holds the commitments those proofs are about.  This library
    models that code as Rocq functions, definition by definition, and proves
    what makes it correct.

    ** Parts and files

    - [Prelude]: outcomes of a Rust call ([result]: a value, a typed error, or
      a panic), their monad and inversion tactics, machine integers with the
      overflow checks of the release profile, byte strings, generic lemmas.
    - [Host]: the Soroban host as a class ([Host]), the environment of an
      invocation, and contract storage with entry lifetimes.
    - [Program]: [crates/perch-program] - ops, Kleene verdicts, leaf
      predicates with their fixed-size buffers, the install-time validator
      ([validate]) and the array evaluator ([eval]).
    - [Interpreter]: [crates/perch-interpreter] - [install], [enforce],
      [uninstall] over a multi-tenant store; [istep] and [reachable].
    - [Doc], [Canon], [Parse], [ParseFacts], [RoundTrip], [Utf8], [Validate],
      [RecoveryDoc]: [crates/perch-ir] - the document types, the canonical
      JSON writer, the parser from a lexed tree (the lexer is the class
      [JsonLexer]), the relation between trees and documents, UTF-8, validation
      with the strkey check, and the derivation of a recovery target.
    - [Compile]: [crates/perch-compile] - lowering, static analyses, the
      activation check and the narrowing check.
    - [Smt], [Analyze], [AnalyzeFacts], [AnalyzeSound], [AnalyzeDemo]:
      [crates/perch-analyze] - SMT-LIB's meaning of the scripts, the encoder
      character by character with the four checks and the command line, the
      meaning of an encoded rule, the soundness of the checks, two documents
      analyzed.
    - [Conformance]: [crates/perch-conformance] - the hand-written evaluation
      vectors and their runner.
    - [RecoveryIface]: [crates/perch-recovery-interface] - statements,
      credentials, replacement sets and compiled configurations with their
      encodings and hashes, the circuit projection, upgrade requests.
    - [CompilerIface], [DocCompiler], [DocCompilerFacts], [CompilerTotal],
      [CompilerAccount], [CompilerDemo]: [crates/perch-doc-compiler] - the
      wire types, [compile_doc] and [derive_target] with key canonicalization
      and the document caps, their theorems, and the proof that what the
      compiler returns is what the account can install.
    - [Rules], [RulesFacts], [RulesRun], [RulesCost], [RulesDemo]:
      [crates/perch-smart-account/src/rules.rs] - the desired rules, the cost
      meter and the executor as two instances of one interface ([Effects]),
      the in-place edit, the full replacement, and their equivalence.
    - [Account], [AccountFacts], [AccountRuns], [AccountSafety],
      [AccountAdmin], [AccountDemo]: [crates/perch-smart-account/src/lib.rs] -
      [apply_doc], [execute], the freeze gate, upgrades, [__check_auth] and
      the views, the transition system over them, and the theorems.
    - [Controller], [ControllerRuns], [ControllerFacts], [ControllerSafety],
      [ControllerViews], [ControllerDemo]: [crates/perch-recovery] - every
      entry point of the recovery controller in a state-and-error monad, the effect of each
      helper on the stored values, the transition system with its invariant,
      the theorems, and a concrete run of a recovery.
    - [ZkPrimitives], [Merkle]: [crates/perch-zk-primitives] - the hashes of
      the ZK relation and the zero table; the reference Merkle tree
      ([node_at]) with its path lemmas.
    - [Pool], [PoolFacts], [PoolRuns], [PoolSafety]: [crates/perch-zk-pool] -
      the incremental trees with rollover, enrollments and pages, an invariant
      over every run, and what the pool promises.
    - [Prover], [ProverFacts]: [crates/perch-zk-prover] - the witness tree over
      a node store ([NodeStore]), the index that follows a pool's events, the
      circuit inputs.
    - [Adapter]: [crates/perch-zk-adapter] - the checks on submitted evidence.
    - [ZkCompose], [ZkDemo]: pool, prover and adapter together, and a small
      pool evaluated.
    - [Factory], [FactoryDemo]: [crates/perch-account-factory] and the
      constructor of [crates/perch-account].
    - [Deploy], [DeployFacts], [DeployDemo]: [crates/perch-deploy] - the ScVal
      constructors, the signed digests, [compose], the publish preflight and
      [verify] over successive reads of the network.
    - [DeployTx], [DeployTxFacts], [DeployTxDemo]: the rest of that crate -
      keys, auth entries, the JSON-RPC client, the write path, [apply],
      [publish] and the command line, as runs that keep what they sent.
    - [MlDsa]: [crates/perch-mldsa-verifier] - the contract around [fips204].
    - [Text]: the lines, white space and trimming of [str] that the readers of
      several crates share.
    - [Regex], [JsonSchema], [Schema], [SchemaFacts], [SchemaSound],
      [SchemaAgree], [SchemaDemo]: [crates/perch-schema] - regular expressions
      and JSON Schema keywords with their published meaning, the schema
      literal for literal, and its two agreements with parser and compiler.
    - [Registry], [RegistryFacts], [RegistryDemo]:
      [crates/perch-registry-resolve-macro], [crates/perch-registry-resolve],
      [crates/perch-derive-id] and the infra of [crates/perch-smart-account] -
      path files, pins, both forms of the macro's input, the modules it
      generates and the tool that derives the same addresses offline.

    Interaction: [Compile] produces the programs [Program] evaluates and
    [Interpreter] stores; [Canon]'s hashes are the provenance [Compile] puts
    into programs; [DocCompiler] composes [Parse], [Validate], [RecoveryDoc]
    and [Compile], and [Account] installs its output through [Rules];
    [Controller] and [Account] call each other, compilers, adapters and pools
    by address, so the answers are the classes [Outside] and [AccountOutside],
    against which their theorems are proved; [ZkCompose] replays the events of
    [Pool] into [Prover] and feeds its inputs to [Adapter].

    ** What the theorems show

    - Programs: a validated program spells exactly one formula and evaluates
      to its three-valued meaning; evaluation is total and fails closed;
      authorization is stable under resolving unknowns.
    - Interpreter: [enforce] authorizes exactly what the installed program
      denotes, in every reachable state; programs are never swapped, tenants
      are isolated, entries stay alive.
    - Documents: the parser accepts exactly the trees of a document's
      canonical form; canonical texts are JSON by a grammar of RFC 8259 and
      parsing inverts writing them; canonical bytes are injective; validation
      decides a declarative predicate.
    - Compilation: a lowered program authorizes exactly the calls the rule's
      text allows; no rule passes with zero signatures; the compiler contract
      returns a document or a typed refusal, but for a validated address the
      host does not decode; equal document hashes mean equal
      compiled documents; a derived recovery target compiles to the hashes it
      was derived with; what compiles installs.
    - Analysis: a solver's refutation of the script for a rule is a refutation
      of every call; so the exit codes of [only-calls] and [narrows] confine
      the policy and its lowered programs, for plain string constants.  The
      evaluation vectors of the project all pass on the model.
    - Deployment: an account that verifies against a composed document holds
      exactly the document's rules and programs, and the digest the tool signs
      is the one [__check_auth] passes on.  Against any server, [apply] sends
      at most the one reviewed document at the revision it read, [publish]
      sends only what the registry said is not published, an upload before
      its hash, and polling ends.
    - Schema: the published schema accepts exactly the trees that parse to a
      document within the representable rules, and every document the chain
      compiles (with ASCII rule names) is schema-valid.
    - Resolution: which texts are path files and what they say; the macro
      reads every input to an answer; the baked address, the hop-by-hop
      derivation and the tool's output agree; an account's infra addresses
      commit to the text of the pin and path files, collisions apart.
    - Factory: a created account's address commits to its salt and signers,
      and its constructor's rule lets exactly these signers administer it.
    - Account: the delta and the full replacement of rules install exactly the
      desired rules and the delta never costs more; [__check_auth] accepts
      exactly the listed cases; an administrator rule is always in force; an
      upgrade waits out its delay; [apply] succeeds exactly under the listed
      conditions; what a completed recovery replaced stays out of every later
      document; the digest signers sign names the account.
    - Recovery data: statement and replacement encodings are injective, the
      digests of different kinds are domain separated, revocation and the
      leaf rule are exact.
    - Recovery controller: a completion rests on a quorum and proofs for that
      very attempt, after the timelock and inside the window; [Protected]
      accounts change only with the condition met for that change; a
      nullifier completes once; an authorized attempt blocks everything but
      its own completion or cancellation; accounts are isolated; epochs,
      ids, spent nullifiers and terminal attempts never go back; collecting
      attempts outlive their evidence window; the statement the views show is
      the one guardians must authorize.
    - ZK recovery: the pool's incremental roots are Merkle roots and every
      root it ever had stays known; an enrollment succeeds exactly when its
      checks pass; anyone enrolled can rebuild a path to a known root from the
      pool's events, and evidence built on it is accepted; a path to a known
      root starts at an enrolled leaf or exhibits a collision.
    - Divergences between documentation and code found on the way are stated
      as lemmas too ([Compile.CompileDemo], [Validate], [AnalyzeDemo],
      [SchemaDemo], [RegistryDemo]).

    ** Parameters and bounds

    SHA-256, strkey decoding, XDR, symbols and host values are fields of
    [Host]; laws used about them (symbols, distinct XDR, collision freedom) are
    separate classes or hypotheses of the theorems that need them, each with a
    concrete instance.  The hex crate is [HexCodec], the JSON lexer [JsonLexer]
    (it reads the compact JSON texts the grammar [Parse.json] derives), the
    compiler's libraries and the verifiers it calls [CompilerLibs] and
    [Verifiers], OpenZeppelin's rule store [OZ], Poseidon2 [Poseidon2], the
    vendored proof verifier [ProofSystem], z3 [Z3], the host's deployer
    [Deployer], the [fips204] crate [MlDsa65], the deployment tool's libraries,
    network and server [DeployLibs], [TxLibs], [Network] and [RpcServer], a
    crate's files and strkey reader [Build], the derivation of deployed
    addresses and the registry contract [Resolution].  Loops over lists are
    structural recursions, so no fuel is needed; the decimal printer's fuel is
    the bit length of its argument and the reference JSON reader's the length
    of the text, both proved enough; the macro's field loop has its input's
    length, the polling loop the turns that fit its deadline, and the schema's
    references are followed to depth 16, more than the document type nests.
    The pool's functions take the tree depth, as the source's do; the theorems
    hold for every depth up to 32, the length of the zero table.  Storage
    entries carry the last ledger they are live at; an archived persistent
    entry keeps its value (it is restored when touched), an expired temporary
    entry is gone.  An invocation that fails keeps no write.  The controller's
    and the account's transition systems let the rest of the chain change
    arbitrarily between calls and do not assume ledgers to increase.

    ** Not modelled

    The vendored UltraHonk verifier, running the proving binaries, the content
    registry (composed of library traits) and the deployable wrappers around
    third-party contracts have no logic of the repository's own to state.  The
    testnet tool, the test kit, the JSON form of the evaluation vectors, the
    schema's printer, circuits, client packages and tests are outside the
    scope; error display texts are not modelled. *)

From Stdlib Require Export Ascii String.
From stdpp Require Export base numbers list gmap strings.

(** ** Outcomes

    A Rust call of this code base ends in one of three ways: it returns
    [Ok], it returns a typed error, or it panics (an arithmetic overflow under
    [overflow-checks], a host trap, an out-of-bounds index).  A contract
    invocation that ends in [Err] or [Panic] keeps none of its writes, so a
    stateful operation returns its new state only inside [Ok]. *)

Inductive result (E A : Type) : Type :=
| Ok (a : A)
| Err (e : E)
| Panic.

Arguments Ok {E A} a.
Arguments Err {E A} e.
Arguments Panic {E A}.

Definition rbind {E A B} (c : result E A) (k : A → result E B) : result E B :=
  match c with
  | Ok a => k a
  | Err e => Err e
  | Panic => Panic
  end.

(** [Result::map_err]. *)
Definition map_err {E F A} (f : E → F) (c : result E A) : result F A :=
  match c with
  | Ok a => Ok a
  | Err e => Err (f e)
  | Panic => Panic
  end.

(** [Option::ok_or]. *)
Definition ok_or {E A} (o : option A) (e : E) : result E A :=
  match o with
  | Some a => Ok a
  | None => Err e
  end.

(** A host call that traps when it has no result. *)
Definition or_panic {E A} (o : option A) : result E A :=
  match o with
  | Some a => Ok a
  | None => Panic
  end.

(** [if cond { return Err(e) }]. *)
Definition refuse_if {E} (b : bool) (e : E) : result E unit :=
  if b then Err e else Ok tt.

(** [assert]-like host checks ([require_auth]). *)
Definition demand {E} (b : bool) : result E unit :=
  if b then Ok tt else Panic.

Definition is_ok {E A} (c : result E A) : bool :=
  match c with Ok _ => true | _ => false end.

Definition ok {E A} (c : result E A) : option A :=
  match c with Ok a => Some a | _ => None end.

Declare Scope perch_scope.
Delimit Scope perch_scope with perch.

Notation "'let*' x := c 'in' k" := (rbind c (λ x, k))
  (at level 10, x name, c at level 100, k at level 200)
  : perch_scope.
Notation "'let*' ' p := c 'in' k" := (rbind c (λ x, match x with p => k end))
  (at level 10, p pattern, c at level 100, k at level 200)
  : perch_scope.
Notation "c ';;;' k" := (rbind c (λ _, k))
  (at level 199, k at level 200, right associativity) : perch_scope.
Open Scope perch_scope.

Global Instance result_eq_dec {E A} `{EqDecision E, EqDecision A} :
  EqDecision (result E A).
Proof. solve_decision. Defined.

Global Instance Ok_inj {E A} : Inj (=) (=) (@Ok E A).
Proof. by intros x y [= ->]. Qed.

(** [iter().map(f).collect::<Result<Vec<_>, _>>()]. *)
Fixpoint mapM_result {E A B} (f : A → result E B) (l : list A)
  : result E (list B) :=
  match l with
  | [] => Ok []
  | x :: l => let* y := f x in let* ys := mapM_result f l in Ok (y :: ys)
  end.

Section result_lemmas.
Context {E : Type}.

Lemma rbind_Ok {A B} (c : result E A) (k : A → result E B) b :
  rbind c k = Ok b ↔ ∃ a, c = Ok a ∧ k a = Ok b.
Proof. destruct c; naive_solver. Qed.

Lemma rbind_ok_l {A B} (a : A) (k : A → result E B) : rbind (Ok a) k = k a.
Proof. done. Qed.

Lemma rbind_assoc {A B C} (c : result E A) (k : A → result E B)
    (h : B → result E C) :
  rbind (rbind c k) h = rbind c (λ a, rbind (k a) h).
Proof. by destruct c. Qed.

Lemma rbind_ret {A} (c : result E A) : rbind c Ok = c.
Proof. by destruct c. Qed.

Lemma rbind_ext {A B} (c : result E A) (k h : A → result E B) :
  (∀ a, c = Ok a → k a = h a) → rbind c k = rbind c h.
Proof. destruct c; naive_solver. Qed.

Lemma ok_or_Ok {A} (o : option A) (e : E) a : ok_or o e = Ok a ↔ o = Some a.
Proof. destruct o; naive_solver. Qed.

Lemma or_panic_Ok {A} (o : option A) a :
  or_panic (E:=E) o = Ok a ↔ o = Some a.
Proof. destruct o; naive_solver. Qed.

Lemma refuse_if_Ok b (e : E) u : refuse_if b e = Ok u ↔ b = false.
Proof. destruct b, u; naive_solver. Qed.

Lemma demand_Ok b u : demand (E:=E) b = Ok u ↔ b = true.
Proof. destruct b, u; naive_solver. Qed.

Lemma map_err_Ok {F A} (f : E → F) (c : result E A) a :
  map_err f c = Ok a ↔ c = Ok a.
Proof. destruct c; naive_solver. Qed.

Lemma is_ok_true {A} (c : result E A) : is_ok c = true ↔ ∃ a, c = Ok a.
Proof. destruct c; naive_solver. Qed.

Lemma ok_Some {A} (c : result E A) a : ok c = Some a ↔ c = Ok a.
Proof. destruct c; naive_solver. Qed.

Lemma mapM_result_Ok {A B} (f : A → result E B) l ys :
  mapM_result f l = Ok ys ↔ Forall2 (λ x y, f x = Ok y) l ys.
Proof.
  revert ys. induction l as [|x l IH]; intros ys; simpl.
  - split; [intros [= <-]; constructor | by inversion 1].
  - rewrite rbind_Ok. setoid_rewrite rbind_Ok. setoid_rewrite IH. split.
    + intros (y & Hy & ys' & Hys & [= <-]). by constructor.
    + inversion 1; subst. naive_solver.
Qed.

(** A collected traversal is the plain map when every element succeeds. *)
Lemma mapM_result_map {A B C} (f : B → result E C) (g : A → B) (h : A → C) l :
  Forall (λ x, f (g x) = Ok (h x)) l →
  mapM_result f (g <$> l) = Ok (h <$> l).
Proof.
  intros H. apply mapM_result_Ok.
  induction H; simpl; constructor; auto.
Qed.
End result_lemmas.

(** Turn a successful computation into the facts of each of its steps. *)
Ltac inv_result_step :=
  match goal with
  | H : rbind _ _ = Ok _ |- _ =>
      apply rbind_Ok in H; destruct H as (? & ? & H)
  | H : ok_or _ _ = Ok _ |- _ => apply ok_or_Ok in H
  | H : or_panic _ = Ok _ |- _ => apply or_panic_Ok in H
  | H : refuse_if _ _ = Ok _ |- _ => apply refuse_if_Ok in H
  | H : demand _ = Ok _ |- _ => apply demand_Ok in H
  | H : map_err _ _ = Ok _ |- _ => apply map_err_Ok in H
  | H : Ok _ = Ok _ |- _ => injection H; clear H; intros; subst
  | H : Err _ = Ok _ |- _ => discriminate H
  | H : Panic = Ok _ |- _ => discriminate H
  | x : unit |- _ => destruct x
  end.
Ltac inv_result := repeat inv_result_step.

(** ** Machine integers

    [u32] and [u64] are natural numbers below their modulus.  The release
    profile sets [overflow-checks = true], so plain [+] and [-] panic where
    they would wrap. *)

Definition U32_MAX : N := 4294967295.
Definition U64_MAX : N := 18446744073709551615.
Definition I128_MAX : Z := 170141183460469231731687303715884105727.
Definition I128_MIN : Z := -170141183460469231731687303715884105728.

Definition is_u32 (n : N) : Prop := (n ≤ U32_MAX)%N.
Definition is_u64 (n : N) : Prop := (n ≤ U64_MAX)%N.

(** Plain subtraction on an unsigned type: panics on underflow. *)
Definition u_sub {E} (a b : N) : result E N :=
  if (a <? b)%N then Panic else Ok (a - b)%N.

(** Plain addition on [u32] and [u64]. *)
Definition u32_add {E} (a b : N) : result E N :=
  if (a + b <=? U32_MAX)%N then Ok (a + b)%N else Panic.
Definition u64_add {E} (a b : N) : result E N :=
  if (a + b <=? U64_MAX)%N then Ok (a + b)%N else Panic.

(** [u32::checked_add], [saturating_add], [saturating_sub]. *)
Definition checked_add32 (a b : N) : option N :=
  if (a + b <=? U32_MAX)%N then Some (a + b)%N else None.
Definition saturating_add32 (a b : N) : N := N.min (a + b) U32_MAX.
Definition saturating_sub (a b : N) : N := (a - b)%N.

Lemma u_sub_Ok {E} a b c : u_sub (E:=E) a b = Ok c ↔ (b ≤ a ∧ c = a - b)%N.
Proof. unfold u_sub. destruct (N.ltb_spec a b); split; intros; [done|lia|..].
  - split; [lia|congruence].
  - destruct_and!. by subst.
Qed.

Lemma checked_add32_Some a b c :
  checked_add32 a b = Some c ↔ (c = a + b ∧ a + b ≤ U32_MAX)%N.
Proof.
  unfold checked_add32. destruct (N.leb_spec (a + b) U32_MAX); split;
    intros; try split; try done; try lia; try congruence.
  destruct_and!. by subst.
Qed.

Lemma u64_add_Ok {E} a b c :
  u64_add (E:=E) a b = Ok c ↔ (c = a + b ∧ a + b ≤ U64_MAX)%N.
Proof.
  unfold u64_add. destruct (N.leb_spec (a + b) U64_MAX); split;
    intros; try split; try done; try lia; try congruence.
  destruct_and!. by subst.
Qed.

(** ** Bytes and strings

    Rust's [str], Soroban's [String], [Bytes], [BytesN] and [Symbol] are all
    byte sequences here: a [string] is a list of 8-bit [ascii]s.  A Rust
    [str] is its UTF-8 encoding, so a non-ASCII character is the bytes that
    encode it. *)

Abbreviation bytes := string.

Definition slen (s : string) : N := N.of_nat (String.length s).

Lemma string_app_cons c (a b : string) :
  (String c a +:+ b = String c (a +:+ b))%string.
Proof. done. Qed.

Lemma string_app_nil_l (b : string) : ("" +:+ b = b)%string.
Proof. done. Qed.

Lemma string_app_assoc (a b c : string) :
  ((a +:+ b) +:+ c = a +:+ (b +:+ c))%string.
Proof.
  induction a as [|x a IH]; [done|]. by rewrite !string_app_cons, IH.
Qed.

Lemma string_app_nil_r (a : string) : (a +:+ "" = a)%string.
Proof. induction a as [|x a IH]; [done|]. by rewrite string_app_cons, IH. Qed.

Lemma length_string_app (a b : string) :
  String.length (a +:+ b) = String.length a + String.length b.
Proof.
  induction a as [|x a IH]; [done|]. rewrite string_app_cons. simpl.
  by rewrite IH.
Qed.

(** Fixed-width fields parse unambiguously. *)
Lemma string_app_inj_length (a b x y : string) :
  String.length a = String.length b → (a +:+ x = b +:+ y)%string →
  a = b ∧ x = y.
Proof.
  revert b. induction a as [|c a IH]; intros [|d b]; simpl; try done.
  rewrite !string_app_cons. intros [= Hl] [= <- H].
  by destruct (IH _ Hl H) as [-> ->].
Qed.

(** Byte order of strings, [a < b] as [compare a b = Lt]. *)
Lemma ascii_compare_eq a b : Ascii.compare a b = Eq → a = b.
Proof. apply Ascii.compare_eq_iff. Qed.

Lemma string_compare_cons a b s t :
  String.compare (String a s) (String b t) =
    match Ascii.compare a b with Eq => String.compare s t | c => c end.
Proof. done. Qed.

Lemma string_lt_trans a b c :
  String.compare a b = Lt → String.compare b c = Lt → String.compare a c = Lt.
Proof.
  revert b c. induction a as [|x a IH]; intros [|y b] [|z c]; try done.
  rewrite !string_compare_cons. unfold Ascii.compare.
  destruct (N.compare_spec (N_of_ascii x) (N_of_ascii y)) as [Hxy|Hxy|Hxy],
    (N.compare_spec (N_of_ascii y) (N_of_ascii z)) as [Hyz|Hyz|Hyz]; try done;
    intros H1 H2; destruct (N.compare_spec (N_of_ascii x) (N_of_ascii z)); try done; try lia.
  eauto.
Qed.

Lemma string_lt_irrefl a : String.compare a a ≠ Lt.
Proof.
  induction a as [|x a IH]; [done|]. rewrite string_compare_cons. unfold Ascii.compare.
  by rewrite N.compare_refl.
Qed.

Lemma string_leb_false a b : String.leb a b = false ↔ String.compare b a = Lt.
Proof.
  unfold String.leb. rewrite (String.compare_antisym b a).
  by destruct (String.compare a b).
Qed.

(** Membership and duplicate tests as the code runs them. *)
Definition contains `{EqDecision A} (l : list A) (x : A) : bool :=
  bool_decide (x ∈ l).

Lemma contains_true `{EqDecision A} (l : list A) x :
  contains l x = true ↔ x ∈ l.
Proof. apply bool_decide_eq_true. Qed.
Lemma contains_false `{EqDecision A} (l : list A) x :
  contains l x = false ↔ x ∉ l.
Proof. apply bool_decide_eq_false. Qed.

(** [Iterator::find]. *)
Fixpoint find_first {A} (f : A → bool) (l : list A) : option A :=
  match l with
  | [] => None
  | x :: l => if f x then Some x else find_first f l
  end.

Lemma find_first_Some {A} (f : A → bool) l x :
  find_first f l = Some x → x ∈ l ∧ f x = true.
Proof.
  induction l as [|y l IH]; simpl; [done|].
  destruct (f y) eqn:Hf; [intros [= ->]; split; [left|done]|].
  intros H. destruct (IH H). split; [by right|done].
Qed.

Lemma find_first_None {A} (f : A → bool) l :
  find_first f l = None ↔ Forall (λ x, f x = false) l.
Proof.
  induction l as [|y l IH]; simpl; [by split|].
  rewrite Forall_cons. destruct (f y); naive_solver.
Qed.

Lemma filter_Forall {A} (P : A → Prop) `{!∀ x, Decision (P x)} (l : list A) :
  Forall P l → filter P l = l.
Proof.
  induction 1; [done|]. rewrite filter_cons_True by done. by f_equal.
Qed.

Create HintDb perch.
Create Rewrite HintDb perch.
#[export] Hint Rewrite @rbind_assoc @rbind_ret @string_app_assoc
  @string_app_nil_r @string_app_cons @string_app_nil_l : perch.
#[export] Hint Resolve find_first_Some : perch.

(** ** Pairs of characters *)

Lemma two_step_ind (P : string → Prop) :
  P ""%string → (∀ c, P (String c ""%string)) → (∀ c d s, P s → P (String c (String d s))) → ∀ s, P s.
Proof.
  intros H0 H1 H2 s. enough (P s ∧ ∀ c, P (String c s)) by tauto.
  induction s as [|d s [IH1 IH2]]; [done|]. split; [apply IH2|]. intros c. by apply H2.
Qed.

(** ** Bytes from nibbles *)

Definition nibbles : list N := N.of_nat <$> seq 0 16.

Lemma nibbles_elem n : (n < 16)%N → n ∈ nibbles.
Proof.
  intros Hn. apply list_elem_of_fmap. exists (N.to_nat n). split; [by rewrite N2Nat.id|].
  apply elem_of_seq. lia.
Qed.

Lemma nibbles_byte x y : (x < 16)%N → (y < 16)%N → N.lor (N.shiftl x 4) y = (16 * x + y)%N.
Proof.
  intros Hx%nibbles_elem Hy%nibbles_elem.
  assert (forallb (λ x, forallb (λ y, (N.lor (N.shiftl x 4) y =? 16 * x + y)%N) nibbles) nibbles
    = true) as Hall by (vm_compute; reflexivity).
  rewrite forallb_forall in Hall. specialize (Hall x (proj1 (list_elem_of_In _ _) Hx)).
  rewrite forallb_forall in Hall. specialize (Hall y (proj1 (list_elem_of_In _ _) Hy)).
  by apply N.eqb_eq.
Qed.
