(* ===== verification/Host.v ===== *)
(** * The Soroban host as the contracts see it

    [soroban_sdk] is not part of this repository: its value types and host
    functions are the fields of the class [Host], so every definition that
    uses them takes the host as an argument, and what the code relies on is
    stated as a separate class of laws next to the theorem that needs it.
    [DemoHost] is one concrete host, used to evaluate the models. *)

From S2P Require Import Prelude.

Class Host : Type := {
  (** [soroban_sdk::Address]: opaque, comparable, usable as a storage key. *)
  Address : Type;
  Address_eq_dec :: EqDecision Address;
  Address_countable :: Countable Address;
  (** [Address::from_str]: traps on a string that is no strkey. *)
  address_from_str : string → option Address;
  (** [Address::to_xdr]. *)
  address_to_xdr : Address → bytes;
  (** [Symbol::new]: traps on a string that is no symbol. *)
  symbol_new : string → option string;
  (** [soroban_sdk::Val] and [T::try_from_val(env, &val).ok()]. *)
  Val : Type;
  val_address : Val → option Address;
  val_symbol : Val → option string;
  val_string : Val → option string;
  val_bytes : Val → option bytes;
  val_u32 : Val → option N;
  val_i128 : Val → option Z;
  (** [env.crypto().sha256(..).to_bytes()]. *)
  sha256 : bytes → bytes;
}.

(** ** Authorization contexts ([soroban_sdk::auth]) *)

Section context.
Context {H : Host}.

Record ContractContext : Type := {
  contract : Address;
  fn_name : string;
  args : list Val;
}.

(** The payloads of the two contract-creation variants are never read. *)
Inductive Context : Type :=
| Context_Contract (c : ContractContext)
| Context_CreateContractHostFn
| Context_CreateContractWithCtorHostFn.

(** What an invocation reads of [Env] besides storage: the ledger, the
    network, the running contract's address, the authorizations the host
    has for this invocation ([require_auth] and [require_auth_for_args] with
    a single bytes argument), and the network's bounds on entry lifetimes
    ([max_entry_ttl] and the two minima). *)
Record Env : Type := {
  sequence : N;
  network_id : bytes;
  current_contract_address : Address;
  authorized : Address → bool;
  authorized_for_args : Address → bytes → bool;
  max_ttl : N;
  min_persistent_ttl : N;
  min_temp_ttl : N;
}.

(** [Address::require_auth] and [Address::require_auth_for_args]: the host
    traps when the authorization is missing. *)
Definition require_auth {E} (e : Env) (a : Address) : result E unit :=
  demand (authorized e a).
Definition require_auth_for_args {E} (e : Env) (a : Address) (arg : bytes)
  : result E unit := demand (authorized_for_args e a arg).

(** OpenZeppelin's [Signer], [ContextRuleType] and the fields of
    [ContextRule] this repository reads. *)
Inductive Signer : Type :=
| Signer_Delegated (a : Address)
| Signer_External (verifier : Address) (key : bytes).

Global Instance Signer_eq_dec : EqDecision Signer.
Proof. solve_decision. Defined.

Inductive ContextRuleType : Type :=
| ContextRuleType_Default
| ContextRuleType_CallContract (a : Address)
| ContextRuleType_CreateContract (wasm_hash : bytes).

Global Instance ContextRuleType_eq_dec : EqDecision ContextRuleType.
Proof. solve_decision. Defined.

Global Instance Signer_countable : Countable Signer.
Proof.
  apply (inj_countable'
    (λ s, match s with
          | Signer_Delegated a => inl a
          | Signer_External v k => inr (v, k)
          end)
    (λ x, match x with
          | inl a => Signer_Delegated a
          | inr (v, k) => Signer_External v k
          end)).
  by intros [].
Defined.

Record ContextRule : Type := {
  rule_id : N;
  context_type : ContextRuleType;
  rule_signers : list Signer;
  rule_valid_until : option N;
  rule_policies : list Address;
  rule_policy_ids : list N;
}.
End context.

(** ** Contract storage

    A ledger entry carries the last ledger at which it is live.  Writing an
    existing live entry keeps its lifetime, creating one gives it the
    network's minimum.  [extend_ttl(key, threshold, extend_to)] traps on a
    missing key; otherwise it raises the lifetime to [extend_to] ledgers from
    now if no more than [threshold] are left, and never lowers it; past the
    network's maximum a persistent entry is clamped and a temporary one
    traps.  A persistent entry past its lifetime is
    archived and restored with its value when a transaction touches it; a
    temporary one is gone. *)

Record entry (A : Type) : Type := { value : A; live_until : N }.
Arguments value {A}.
Arguments live_until {A}.
Arguments Build_entry {A}.

Section storage.
Context {H : Host} {K A : Type} `{Countable K}.
Implicit Types m : gmap K (entry A).

Definition is_live (e : Env) (x : entry A) : bool := (sequence e <=? live_until x)%N.

Definition extended (e : Env) (threshold extend_to : N) (x : entry A) : entry A :=
  let new := (sequence e + N.min extend_to (max_ttl e - 1))%N in
  if (live_until x <? new)%N && (live_until x - sequence e <=? threshold)%N
  then Build_entry (value x) new else x.

(** [env.storage().persistent()]. *)
Definition persistent_get m (k : K) : option A := value <$> m !! k.
Definition persistent_has m (k : K) : bool := bool_decide (is_Some (m !! k)).
Definition persistent_set (e : Env) m (k : K) (v : A) : gmap K (entry A) :=
  <[k := Build_entry v
      match m !! k with
      | Some x => live_until x
      | None => sequence e + min_persistent_ttl e - 1
      end]> m.
Definition persistent_extend_ttl {E} (e : Env) m (k : K) (threshold extend_to : N)
  : result E (gmap K (entry A)) :=
  match m !! k with
  | Some x => Ok (<[k := extended e threshold extend_to x]> m)
  | None => Panic
  end.

(** [env.storage().temporary()]. *)
Definition temporary_lookup (e : Env) m (k : K) : option (entry A) :=
  match m !! k with
  | Some x => if is_live e x then Some x else None
  | None => None
  end.
Definition temporary_get (e : Env) m (k : K) : option A :=
  value <$> temporary_lookup e m k.
Definition temporary_has (e : Env) m (k : K) : bool :=
  bool_decide (is_Some (temporary_lookup e m k)).
Definition temporary_set (e : Env) m (k : K) (v : A) : gmap K (entry A) :=
  <[k := Build_entry v
      match temporary_lookup e m k with
      | Some x => live_until x
      | None => sequence e + min_temp_ttl e - 1
      end]> m.
Definition temporary_extend_ttl {E} (e : Env) m (k : K) (threshold extend_to : N)
  : result E (gmap K (entry A)) :=
  match temporary_lookup e m k with
  | Some x => demand (extend_to <=? max_ttl e - 1)%N ;;;
              Ok (<[k := extended e threshold extend_to x]> m)
  | None => Panic
  end.

(** [env.storage().max_ttl()]: how far past the current ledger an entry's
    lifetime may reach. *)
Definition storage_max_ttl (e : Env) : N := (max_ttl e - 1)%N.

Lemma value_extended e t n x : value (extended e t n x) = value x.
Proof. unfold extended. by case_match. Qed.

Lemma live_until_extended e t n x : (live_until x ≤ live_until (extended e t n x))%N.
Proof.
  unfold extended. destruct (N.ltb_spec (live_until x)
    (sequence e + N.min n (max_ttl e - 1))); simpl; [case_match; simpl; lia|lia].
Qed.

(** After an extension more than [threshold] ledgers are left, or all that
    was asked for. *)
Lemma extended_enough e t n x :
  (t ≤ n)%N → (n < max_ttl e)%N →
  (sequence e + t ≤ live_until (extended e t n x))%N.
Proof.
  intros Htn Hn. unfold extended. rewrite N.min_l by lia.
  destruct (N.ltb_spec (live_until x) (sequence e + n)); simpl; [|lia].
  destruct (N.leb_spec (live_until x - sequence e) t); simpl; lia.
Qed.

Lemma persistent_get_set e m k v j :
  persistent_get (persistent_set e m k v) j =
    if decide (j = k) then Some v else persistent_get m j.
Proof.
  unfold persistent_get, persistent_set. destruct (decide (j = k)) as [->|].
  - by rewrite lookup_insert_eq.
  - by rewrite lookup_insert_ne.
Qed.

Lemma persistent_has_get m k :
  persistent_has m k = true ↔ is_Some (persistent_get m k).
Proof.
  unfold persistent_has, persistent_get. rewrite bool_decide_eq_true.
  by rewrite fmap_is_Some.
Qed.

Lemma persistent_extend_ttl_Ok {E} e m k t n m' :
  persistent_extend_ttl (E:=E) e m k t n = Ok m' →
  is_Some (m !! k) ∧ ∀ j, persistent_get m' j = persistent_get m j.
Proof.
  unfold persistent_extend_ttl, persistent_get.
  destruct (m !! k) as [x|] eqn:Hx; [|done]. intros [= <-]. split; [eauto|].
  intros j. destruct (decide (j = k)) as [->|].
  - rewrite lookup_insert_eq, Hx. simpl. by rewrite value_extended.
  - by rewrite lookup_insert_ne.
Qed.
End storage.

(** ** A concrete host

    Addresses are their strkeys, values are tagged data, and the digest is a
    32-byte rolling checksum.  Only used to run the models. *)

Inductive demo_val : Type :=
| DVAddress (s : string)
| DVSymbol (s : string)
| DVString (s : string)
| DVBytes (s : string)
| DVU32 (n : N)
| DVI128 (z : Z).

Fixpoint demo_mix (s : string) (acc : N) : N :=
  match s with
  | EmptyString => acc
  | String c s => demo_mix s ((acc * 257 + N_of_ascii c + 1) mod (2 ^ 255 - 19))
  end.

Fixpoint demo_digest (n : nat) (acc : N) : string :=
  match n with
  | O => EmptyString
  | S n => String (ascii_of_N (acc mod 256)) (demo_digest n (acc / 256))
  end.

(** The XDR of an address: a contract's is 8 header bytes and its id, any
    other demo address is an account's 12 header bytes and its key. *)
Definition demo_xdr (s : string) : bytes :=
  let payload := demo_digest 32 (demo_mix s 0) in
  let b n := ascii_of_N n in
  let word n := String (b 0%N) (String (b 0%N) (String (b 0%N)
                  (String (b n) EmptyString))) in
  match s with
  | String "C" _ => word 18%N +:+ word 1%N +:+ payload
  | _ => word 18%N +:+ word 0%N +:+ word 0%N +:+ payload
  end.

Definition DemoHost : Host := {|
  Address := string;
  address_from_str s := if String.eqb s "" then None else Some s;
  address_to_xdr := demo_xdr;
  symbol_new s := Some s;
  Val := demo_val;
  val_address v := match v with DVAddress s => Some s | _ => None end;
  val_symbol v := match v with DVSymbol s => Some s | _ => None end;
  val_string v := match v with DVString s => Some s | _ => None end;
  val_bytes v := match v with DVBytes s => Some s | _ => None end;
  val_u32 v := match v with DVU32 n => Some n | _ => None end;
  val_i128 v := match v with DVI128 z => Some z | _ => None end;
  sha256 s := demo_digest 32 (demo_mix s 0);
|}.
