(* ===== verification/Program.v ===== *)
(** * perch-program: constraint programs and their evaluation

    Models [crates/perch-program/src/lib.rs] (verdicts, limits),
    [leaf.rs] (the leaf predicates, with their fixed string buffers) and
    [rpn.rs] (ops, the install-time validator, the evaluator with its fixed
    128-slot verdict array and stack pointer).

    The evaluator is compared with two reference semantics: a machine over a
    list stack, and the denotation of the formula a program spells.  A
    validated program spells exactly one formula and evaluates to its
    denotation; every program, valid or not, evaluates to some verdict. *)

From S2P Require Import Prelude Host.

(** ** Limits and verdicts (lib.rs) *)

Definition PROGRAM_VERSION : N := 1.
Definition MAX_PROGRAM_LEN : N := 256.
Definition MAX_STACK_DEPTH : N := 128.

Inductive ValidationError : Type :=
| UnknownVersion
| Empty
| TooLarge
| ArityMismatch
| StackUnderflow
| StackOverflow
| NotSingleResult.

Inductive Verdict : Type :=
| VFalse
| VUnknown
| VTrue.

Global Instance Verdict_eq_dec : EqDecision Verdict.
Proof. solve_decision. Defined.
Global Instance ValidationError_eq_dec : EqDecision ValidationError.
Proof. solve_decision. Defined.

(** The derived [Ord]: declaration order, [False < Unknown < True]. *)
Definition verdict_rank (v : Verdict) : N :=
  match v with VFalse => 0 | VUnknown => 1 | VTrue => 2 end.

(** [Ord::min] returns the first argument on a tie, [Ord::max] the second. *)
Definition verdict_min (a b : Verdict) : Verdict :=
  if (verdict_rank b <? verdict_rank a)%N then b else a.
Definition verdict_max (a b : Verdict) : Verdict :=
  if (verdict_rank b <? verdict_rank a)%N then a else b.

Definition verdict_and (self other : Verdict) : Verdict := verdict_min self other.
Definition verdict_or (self other : Verdict) : Verdict := verdict_max self other.
Definition allows (self : Verdict) : bool := bool_decide (self = VTrue).
Definition verdict_from_bool (b : bool) : Verdict := if b then VTrue else VFalse.
Definition verdict_not (self : Verdict) : Verdict :=
  match self with
  | VFalse => VTrue
  | VUnknown => VUnknown
  | VTrue => VFalse
  end.

(** The evaluator's fixed array of verdicts. *)
Abbreviation vstack := (list Verdict).

(** ** Leaf predicates (leaf.rs) *)

Section leaf.
Context {H : Host}.

Record EvalInputs : Type := {
  context : Context;
  signer_count : N;
  self_addr : Address;
}.

Definition MAX_STR_ARG_LEN : nat := 256.

(** [arg::<T>]: argument [i] of a contract-call context, decoded. *)
Definition arg {T} (try_from_val : Val → option T) (ctx : Context) (i : N)
  : option T :=
  match ctx with
  | Context_Contract c =>
      match args c !! N.to_nat i with
      | Some v => try_from_val v
      | None => None
      end
  | _ => None
  end.

Definition min_signers (inputs : EvalInputs) (n : N) : Verdict :=
  verdict_from_bool (n <=? signer_count inputs)%N.

Definition fn_in (inputs : EvalInputs) (fns : list string) : Verdict :=
  match context inputs with
  | Context_Contract c =>
      verdict_from_bool (existsb (λ f, String.eqb f (fn_name c)) fns)
  | _ => VUnknown
  end.

Definition arg_addr_eq (inputs : EvalInputs) (i : N) (want : Address)
  : Verdict :=
  match arg val_address (context inputs) i with
  | Some a => verdict_from_bool (bool_decide (a = want))
  | None => VUnknown
  end.

Definition arg_addr_is_self (inputs : EvalInputs) (i : N) : Verdict :=
  match arg val_address (context inputs) i with
  | Some a => verdict_from_bool (bool_decide (a = self_addr inputs))
  | None => VUnknown
  end.

Definition arg_sym_eq (inputs : EvalInputs) (i : N) (want : string) : Verdict :=
  match arg val_symbol (context inputs) i with
  | Some s => verdict_from_bool (String.eqb s want)
  | None => VUnknown
  end.

Definition arg_u32_eq (inputs : EvalInputs) (i want : N) : Verdict :=
  match arg val_u32 (context inputs) i with
  | Some n => verdict_from_bool (n =? want)%N
  | None => VUnknown
  end.

Definition arg_i128_eq (inputs : EvalInputs) (i : N) (want : Z) : Verdict :=
  match arg val_i128 (context inputs) i with
  | Some n => verdict_from_bool (n =? want)%Z
  | None => VUnknown
  end.

Definition arg_bytes_eq (inputs : EvalInputs) (i : N) (want : bytes) : Verdict :=
  match arg val_bytes (context inputs) i with
  | Some b => verdict_from_bool (String.eqb b want)
  | None => VUnknown
  end.

(** A [[u8; MAX_STR_ARG_LEN]] buffer. *)
Abbreviation buffer := (list ascii).
Definition zero_buf : buffer := replicate MAX_STR_ARG_LEN "000"%char.

(** [copy_into_slice(&mut buf[..n])] of a string of [n] bytes: the rest of
    the buffer keeps what it held. *)
Definition copy_into (s : list ascii) (buf : buffer) : buffer :=
  s ++ drop (length s) buf.

Definition str_bytes (s : string) (buf : buffer) : option (nat * buffer) :=
  let n := String.length s in
  if MAX_STR_ARG_LEN <? n then None
  else Some (n, copy_into (String.list_ascii_of_string s) buf).

(** [str_head]: the first [n] bytes, or [false] (here [None]) when the
    string is shorter. *)
Definition str_head (s : string) (n : nat) (buf : buffer) : option buffer :=
  if String.length s <? n then None
  else Some (copy_into (take n (String.list_ascii_of_string s)) buf).

Definition buf_eq (a : buffer) (an : nat) (b : buffer) (bn : nat) : bool :=
  (an =? bn) && bool_decide (take an a = take bn b).

(** The candidate loop of [arg_str_in]; [cand] is reused, so it still holds
    the tail of an earlier, longer candidate. *)
Fixpoint str_in_loop (set : list string) (cand sbuf : buffer) (sn : nat)
  : Verdict :=
  match set with
  | [] => VFalse
  | want :: set =>
      match str_bytes want cand with
      | Some (cn, cand) =>
          if buf_eq cand cn sbuf sn then VTrue
          else str_in_loop set cand sbuf sn
      | None => str_in_loop set cand sbuf sn
      end
  end.

Definition arg_str_in (inputs : EvalInputs) (i : N) (set : list string)
  : Verdict :=
  match arg val_string (context inputs) i with
  | None => VUnknown
  | Some s =>
      match str_bytes s zero_buf with
      | None => VUnknown
      | Some (sn, sbuf) => str_in_loop set zero_buf sbuf sn
      end
  end.

Definition arg_str_prefix (inputs : EvalInputs) (i : N) (pfx : string)
  : Verdict :=
  match arg val_string (context inputs) i with
  | None => VUnknown
  | Some s =>
      match str_bytes pfx zero_buf with
      | None => VUnknown
      | Some (pn, pbuf) =>
          match str_head s pn zero_buf with
          | None => VFalse
          | Some sbuf =>
              verdict_from_bool (bool_decide (take pn sbuf = take pn pbuf))
          end
      end
  end.

Definition arg_count (inputs : EvalInputs) (n : N) : Verdict :=
  match context inputs with
  | Context_Contract c =>
      verdict_from_bool (N.of_nat (length (args c)) =? n)%N
  | _ => VUnknown
  end.

Definition ledger_before (e : Env) (n : N) : Verdict :=
  verdict_from_bool (sequence e <? n)%N.

Definition ledger_at_or_after (e : Env) (n : N) : Verdict :=
  verdict_from_bool (n <=? sequence e)%N.

(** ** Programs (rpn.rs) *)

Inductive Op : Type :=
| Op_All (n : N)
| Op_Any (n : N)
| Op_Not
| Op_MinSigners (n : N)
| Op_FnIn (fns : list string)
| Op_ArgAddrEq (i : N) (a : Address)
| Op_ArgAddrIsSelf (i : N)
| Op_ArgSymEq (i : N) (s : string)
| Op_ArgStrIn (i : N) (set : list string)
| Op_ArgStrPrefix (i : N) (pfx : string)
| Op_ArgBytesEq (i : N) (b : bytes)
| Op_ArgI128Eq (i : N) (z : Z)
| Op_ArgU32Eq (i : N) (n : N)
| Op_ArgCount (n : N)
| Op_LedgerBefore (n : N)
| Op_LedgerAtOrAfter (n : N).

Global Instance Op_eq_dec : EqDecision Op.
Proof. solve_decision. Defined.

Record RpnProgram : Type := {
  version : N;
  ops : list Op;
}.
Global Instance RpnProgram_eq_dec : EqDecision RpnProgram.
Proof. solve_decision. Defined.

Record InstallParams : Type := {
  program : RpnProgram;
  doc_hash : bytes;
}.
Global Instance InstallParams_eq_dec : EqDecision InstallParams.
Proof. solve_decision. Defined.

Definition pops (op : Op) : result ValidationError N :=
  match op with
  | Op_All n | Op_Any n => if (n =? 0)%N then Err ArityMismatch else Ok n
  | Op_Not => Ok 1%N
  | _ => Ok 0%N
  end.

(** The depth simulation of [validate]: [depth - pops + 1], op by op. *)
Fixpoint validate_loop (l : list Op) (depth : N) : result ValidationError N :=
  match l with
  | [] => Ok depth
  | op :: l =>
      let* p := pops op in
      if (depth <? p)%N then Err StackUnderflow
      else
        let* d := u_sub depth p in
        let* d := u32_add d 1 in
        if (MAX_STACK_DEPTH <? d)%N then Err StackOverflow
        else validate_loop l d
  end.

Definition validate (p : RpnProgram) : result ValidationError unit :=
  if negb (version p =? PROGRAM_VERSION)%N then Err UnknownVersion
  else
    let len := N.of_nat (length (ops p)) in
    if (len =? 0)%N then Err Empty
    else if (MAX_PROGRAM_LEN <? len)%N then Err TooLarge
    else
      let* depth := validate_loop (ops p) 0 in
      if (depth =? 1)%N then Ok tt else Err NotSingleResult.

(** *** Evaluation

    [stack] is the fixed array, [sp] the stack pointer.  An index outside
    the array panics; [no_panic] below shows it never happens. *)

Definition stack_get (stack : vstack) (i : N) : result Empty_set Verdict :=
  or_panic (stack !! N.to_nat i).
Definition stack_set (stack : vstack) (i : N) (v : Verdict)
  : result Empty_set vstack :=
  if N.to_nat i <? length stack then Ok (<[N.to_nat i := v]> stack) else Panic.

(** [while k > 0 { sp -= 1; v = f(v, stack[sp]); k -= 1; }] *)
Fixpoint pop_fold (f : Verdict → Verdict → Verdict) (k : nat)
    (stack : vstack) (sp : N) (v : Verdict) : result Empty_set (Verdict * N) :=
  match k with
  | O => Ok (v, sp)
  | S k =>
      let* sp := u_sub sp 1 in
      let* x := stack_get stack sp in
      pop_fold f k stack sp (f v x)
  end.

(** The [match op] of [eval]: the verdict to push and the new [sp], or
    [None] for an early [return Verdict::Unknown]. *)
Definition eval_op (e : Env) (inputs : EvalInputs) (op : Op)
    (stack : vstack) (sp : N) : result Empty_set (option (Verdict * N)) :=
  let leaf v := Ok (Some (v, sp)) in
  match op with
  | Op_All n =>
      if (n =? 0)%N || (sp <? n)%N then Ok None
      else let* r := pop_fold verdict_and (N.to_nat n) stack sp VTrue in
           Ok (Some r)
  | Op_Any n =>
      if (n =? 0)%N || (sp <? n)%N then Ok None
      else let* r := pop_fold verdict_or (N.to_nat n) stack sp VFalse in
           Ok (Some r)
  | Op_Not =>
      if (sp =? 0)%N then Ok None
      else
        let* sp := u_sub sp 1 in
        let* x := stack_get stack sp in
        Ok (Some (verdict_not x, sp))
  | Op_MinSigners n => leaf (min_signers inputs n)
  | Op_FnIn fns => leaf (fn_in inputs fns)
  | Op_ArgAddrEq i a => leaf (arg_addr_eq inputs i a)
  | Op_ArgAddrIsSelf i => leaf (arg_addr_is_self inputs i)
  | Op_ArgSymEq i s => leaf (arg_sym_eq inputs i s)
  | Op_ArgStrIn i set => leaf (arg_str_in inputs i set)
  | Op_ArgStrPrefix i pfx => leaf (arg_str_prefix inputs i pfx)
  | Op_ArgBytesEq i want => leaf (arg_bytes_eq inputs i want)
  | Op_ArgI128Eq i want => leaf (arg_i128_eq inputs i want)
  | Op_ArgU32Eq i n => leaf (arg_u32_eq inputs i n)
  | Op_ArgCount n => leaf (arg_count inputs n)
  | Op_LedgerBefore n => leaf (ledger_before e n)
  | Op_LedgerAtOrAfter n => leaf (ledger_at_or_after e n)
  end.

Fixpoint eval_loop (e : Env) (inputs : EvalInputs) (l : list Op)
    (stack : vstack) (sp : N) : result Empty_set Verdict :=
  match l with
  | [] => if (sp =? 1)%N then stack_get stack 0 else Ok VUnknown
  | op :: l =>
      if (MAX_STACK_DEPTH <? sp)%N then Ok VUnknown
      else
        let* r := eval_op e inputs op stack sp in
        match r with
        | None => Ok VUnknown
        | Some (v, sp) =>
            if (MAX_STACK_DEPTH <=? sp)%N then Ok VUnknown
            else
              let* stack := stack_set stack sp v in
              let* sp := u32_add sp 1 in
              eval_loop e inputs l stack sp
        end
  end.

Definition eval (e : Env) (p : RpnProgram) (inputs : EvalInputs)
  : result Empty_set Verdict :=
  eval_loop e inputs (ops p)
    (replicate (N.to_nat MAX_STACK_DEPTH) VUnknown) 0.
End leaf.

(** ** Reference semantics

    A program spells a formula in postfix order.  [denote] is the formula's
    meaning under a valuation of its leaves; it knows nothing of arrays,
    stack pointers or capacity. *)

Section reference.
Context {H : Host}.

Inductive formula : Type :=
| FLeaf (op : Op)
| FNot (f : formula)
| FAll (fs : list formula)
| FAny (fs : list formula).

Definition all_of (vs : list Verdict) : Verdict := foldr verdict_and VTrue vs.
Definition any_of (vs : list Verdict) : Verdict := foldr verdict_or VFalse vs.

Fixpoint denote (leaf : Op → Verdict) (f : formula) : Verdict :=
  match f with
  | FLeaf op => leaf op
  | FNot f => verdict_not (denote leaf f)
  | FAll fs => all_of (map (denote leaf) fs)
  | FAny fs => any_of (map (denote leaf) fs)
  end.

Fixpoint flatten (f : formula) : list Op :=
  match f with
  | FLeaf op => [op]
  | FNot f => flatten f ++ [Op_Not]
  | FAll fs => concat (map flatten fs) ++ [Op_All (N.of_nat (length fs))]
  | FAny fs => concat (map flatten fs) ++ [Op_Any (N.of_nat (length fs))]
  end.

(** The leaf valuation the evaluator uses. *)
Definition leaf_verdict (e : Env) (inputs : EvalInputs) (op : Op) : Verdict :=
  match op with
  | Op_MinSigners n => min_signers inputs n
  | Op_FnIn fns => fn_in inputs fns
  | Op_ArgAddrEq i a => arg_addr_eq inputs i a
  | Op_ArgAddrIsSelf i => arg_addr_is_self inputs i
  | Op_ArgSymEq i s => arg_sym_eq inputs i s
  | Op_ArgStrIn i set => arg_str_in inputs i set
  | Op_ArgStrPrefix i pfx => arg_str_prefix inputs i pfx
  | Op_ArgBytesEq i want => arg_bytes_eq inputs i want
  | Op_ArgI128Eq i want => arg_i128_eq inputs i want
  | Op_ArgU32Eq i n => arg_u32_eq inputs i n
  | Op_ArgCount n => arg_count inputs n
  | Op_LedgerBefore n => ledger_before e n
  | Op_LedgerAtOrAfter n => ledger_at_or_after e n
  | Op_All _ | Op_Any _ | Op_Not => VUnknown
  end.

(** Composite ops; every other op is a leaf. *)
Inductive op_class : Type := CAll (n : N) | CAny (n : N) | CNot | CLeaf.
Definition classify (op : Op) : op_class :=
  match op with
  | Op_All n => CAll n
  | Op_Any n => CAny n
  | Op_Not => CNot
  | _ => CLeaf
  end.

(** A well-formed formula has only leaf ops at its leaves and no empty
    composite. *)
Fixpoint wf_formula (f : formula) : Prop :=
  match f with
  | FLeaf op => classify op = CLeaf
  | FNot f => wf_formula f
  | FAll fs | FAny fs =>
      fs ≠ [] ∧ foldr (λ g P, wf_formula g ∧ P) True fs
  end.

Fixpoint formula_size (f : formula) : nat :=
  match f with
  | FLeaf _ => 1
  | FNot f => S (formula_size f)
  | FAll fs | FAny fs => S (sum_list_with formula_size fs)
  end.

(** The same postfix machine over any values: a stack with its top first,
    refused early exactly where [eval] returns [Unknown]. *)
Section machine.
Context {V : Type} (leafV : Op → V) (notV : V → V) (allV anyV : list V → V).

(** Pop [n], push [f] of what was popped (top first). *)
Definition pop_push (n : N) (f : list V → V) (st : list V) : option (list V) :=
  if (n =? 0)%N || (N.of_nat (length st) <? n)%N then None
  else Some (f (take (N.to_nat n) st) :: drop (N.to_nat n) st).

Definition machine_step (op : Op) (st : list V) : option (list V) :=
  match classify op with
  | CAll n => pop_push n allV st
  | CAny n => pop_push n anyV st
  | CNot => match st with [] => None | v :: st => Some (notV v :: st) end
  | CLeaf => Some (leafV op :: st)
  end.

Fixpoint machine_run (l : list Op) (st : list V) : option (list V) :=
  match l with
  | [] => Some st
  | op :: l =>
      match machine_step op st with
      | None => None
      | Some st =>
          if (MAX_STACK_DEPTH <? N.of_nat (length st))%N then None
          else machine_run l st
      end
  end.

Definition machine_result (o : option (list V)) : option V :=
  match o with Some [v] => Some v | _ => None end.
End machine.

Definition verdict_machine (leaf : Op → Verdict) :=
  machine_run leaf verdict_not
    (λ vs, fold_left verdict_and vs VTrue)
    (λ vs, fold_left verdict_or vs VFalse).

Definition formula_machine :=
  machine_run FLeaf FNot (λ fs, FAll (rev fs)) (λ fs, FAny (rev fs)).
End reference.

(** ** Verdict algebra *)

Lemma verdict_and_comm a b : verdict_and a b = verdict_and b a.
Proof. by destruct a, b. Qed.
Lemma verdict_and_assoc a b c :
  verdict_and a (verdict_and b c) = verdict_and (verdict_and a b) c.
Proof. by destruct a, b, c. Qed.
Lemma verdict_or_comm a b : verdict_or a b = verdict_or b a.
Proof. by destruct a, b. Qed.
Lemma verdict_or_assoc a b c :
  verdict_or a (verdict_or b c) = verdict_or (verdict_or a b) c.
Proof. by destruct a, b, c. Qed.
Lemma verdict_de_morgan a b :
  verdict_not (verdict_and a b) = verdict_or (verdict_not a) (verdict_not b).
Proof. by destruct a, b. Qed.
Lemma verdict_not_not a : verdict_not (verdict_not a) = a.
Proof. by destruct a. Qed.

Lemma verdict_and_true a b : verdict_and a b = VTrue ↔ a = VTrue ∧ b = VTrue.
Proof. destruct a, b; naive_solver. Qed.
Lemma verdict_or_true a b : verdict_or a b = VTrue ↔ a = VTrue ∨ b = VTrue.
Proof. destruct a, b; naive_solver. Qed.
Lemma verdict_from_bool_true b : verdict_from_bool b = VTrue ↔ b = true.
Proof. by destruct b. Qed.

Lemma fold_left_foldr_comm (f : Verdict → Verdict → Verdict) (u : Verdict) vs :
  (∀ a b, f a b = f b a) → (∀ a b c, f a (f b c) = f (f a b) c) →
  fold_left f vs u = foldr f u vs.
Proof.
  intros Hc Ha. revert u. induction vs as [|v vs IH]; intros u; simpl; [done|].
  rewrite IH, (Hc u v). clear IH. induction vs as [|w vs IH]; simpl; [done|].
  rewrite IH, !Ha. f_equal. apply Hc.
Qed.

Lemma foldr_comm_rev (f : Verdict → Verdict → Verdict) (u : Verdict) vs :
  (∀ a b, f a b = f b a) → (∀ a b c, f a (f b c) = f (f a b) c) →
  foldr f u (rev vs) = foldr f u vs.
Proof.
  intros Hc Ha. rewrite fold_left_rev_right.
  rewrite <- (fold_left_foldr_comm f u vs Hc Ha).
  revert u. induction vs as [|v vs IH]; intros u; simpl; [done|].
  by rewrite IH, Hc.
Qed.

Lemma all_of_fold vs : fold_left verdict_and vs VTrue = all_of (rev vs).
Proof.
  unfold all_of. rewrite foldr_comm_rev by auto using verdict_and_comm, verdict_and_assoc.
  apply fold_left_foldr_comm; auto using verdict_and_comm, verdict_and_assoc.
Qed.
Lemma any_of_fold vs : fold_left verdict_or vs VFalse = any_of (rev vs).
Proof.
  unfold any_of. rewrite foldr_comm_rev by auto using verdict_or_comm, verdict_or_assoc.
  apply fold_left_foldr_comm; auto using verdict_or_comm, verdict_or_assoc.
Qed.

Lemma all_of_true vs : all_of vs = VTrue ↔ Forall (λ v, v = VTrue) vs.
Proof.
  induction vs as [|v vs IH]; simpl; [by split|].
  unfold all_of in *; simpl. by rewrite verdict_and_true, IH, Forall_cons.
Qed.


(** ** The array evaluator implements the list machine *)

Section eval_facts.
Context {H : Host}.
Implicit Types (st : list Verdict) (stack : vstack).

(** The first [length st] slots of the array are the stack, bottom first. *)
Definition repr st stack : Prop :=
  length stack = N.to_nat MAX_STACK_DEPTH ∧ take (length st) stack = rev st.

Lemma repr_length st stack :
  repr st stack → length st ≤ N.to_nat MAX_STACK_DEPTH.
Proof.
  intros [Hl Ht]. apply (f_equal length) in Ht.
  rewrite length_take, length_rev in Ht. lia.
Qed.

Lemma repr_cons v st stack :
  repr (v :: st) stack → stack !! length st = Some v ∧ repr st stack.
Proof.
  intros Hr. pose proof (repr_length _ _ Hr) as Hn. destruct Hr as [Hl Ht].
  simpl in *.
  destruct (lookup_lt_is_Some_2 stack (length st)) as [w Hw]; [lia|].
  rewrite (take_S_r _ _ _ Hw) in Ht.
  apply app_inj_tail in Ht as [Ht ->]. by repeat split.
Qed.

Lemma repr_drop k st stack : repr st stack → repr (drop k st) stack.
Proof.
  revert st. induction k as [|k IH]; intros [|v st] Hr; simpl; try done.
  apply IH, (repr_cons v st stack Hr).
Qed.

Lemma repr_push v st stack :
  repr st stack → length st < N.to_nat MAX_STACK_DEPTH →
  repr (v :: st) (<[length st := v]> stack).
Proof.
  intros [Hl Ht] Hn. split; [by rewrite length_insert|]. simpl.
  rewrite (take_S_r _ _ v) by (apply list_lookup_insert_eq; lia).
  by rewrite take_insert_ge, Ht by lia.
Qed.

Lemma pop_fold_spec f k st stack v :
  repr st stack → k ≤ length st →
  pop_fold f k stack (N.of_nat (length st)) v =
    Ok (fold_left f (take k st) v, N.of_nat (length st - k)).
Proof.
  revert st v. induction k as [|k IH]; intros st v Hr Hk; simpl.
  - by rewrite Nat.sub_0_r.
  - destruct st as [|x st]; simpl in *; [lia|].
    destruct (repr_cons _ _ _ Hr) as [Hx Hr'].
    unfold u_sub. destruct (N.ltb_spec (N.of_nat (S (length st))) 1); [lia|].
    simpl. replace (N.of_nat (S (length st)) - 1)%N with (N.of_nat (length st)) by lia.
    unfold stack_get. rewrite Nat2N.id, Hx. simpl. rewrite IH by (done || lia).
    done.
Qed.

Definition verdict_step (leaf : Op → Verdict) : Op → list Verdict → option (list Verdict) :=
  machine_step leaf verdict_not
    (λ vs, fold_left verdict_and vs VTrue)
    (λ vs, fold_left verdict_or vs VFalse).

Lemma eval_op_spec e inputs op st stack :
  repr st stack →
  eval_op e inputs op stack (N.of_nat (length st)) =
    match verdict_step (leaf_verdict e inputs) op st with
    | Some (v :: st') => Ok (Some (v, N.of_nat (length st')))
    | _ => Ok None
    end.
Proof.
  intros Hr. destruct op; simpl; try done.
  1, 2: unfold verdict_step, machine_step, pop_push; simpl;
    destruct (N.eqb_spec n 0), (N.ltb_spec (N.of_nat (length st)) n); simpl; try done;
    rewrite pop_fold_spec by (done || lia); simpl;
    by rewrite length_drop.
  unfold verdict_step, machine_step. simpl. destruct st as [|v st]; [done|].
  destruct (repr_cons _ _ _ Hr) as [Hx _].
  cbn [length]. rewrite (proj2 (N.eqb_neq _ 0)) by lia.
  unfold u_sub. destruct (N.ltb_spec (N.of_nat (S (length st))) 1); [lia|]. simpl.
  replace (N.of_nat (S (length st)) - 1)%N with (N.of_nat (length st)) by lia.
  unfold stack_get. by rewrite Nat2N.id, Hx.
Qed.

(** Every step drops some of the stack and pushes one value. *)
Lemma machine_step_shape {V} (lf : Op → V) nt al an op (st st' : list V) :
  machine_step lf nt al an op st = Some st' →
  ∃ v k, st' = v :: drop k st.
Proof.
  unfold machine_step, pop_push. destruct (classify op); intros Hs.
  - destruct (_ || _); simplify_eq; eauto.
  - destruct (_ || _); simplify_eq; eauto.
  - destruct st; simplify_eq. eexists _, 1%nat. done.
  - simplify_eq. by exists (lf op), 0%nat.
Qed.

Lemma eval_loop_spec e inputs l st stack :
  repr st stack →
  eval_loop e inputs l stack (N.of_nat (length st)) =
    Ok (default VUnknown
          (machine_result (verdict_machine (leaf_verdict e inputs) l st))).
Proof.
  revert st stack. induction l as [|op l IH]; intros st stack Hr; simpl.
  { destruct (N.eqb_spec (N.of_nat (length st)) 1) as [He|He].
    - destruct st as [|v [|]]; simpl in *; try lia.
      destruct (repr_cons _ _ _ Hr) as [Hx _]. unfold stack_get.
      change (N.to_nat 0) with (length (@nil Verdict)). by rewrite Hx.
    - by destruct st as [|v [|]]. }
  pose proof (repr_length _ _ Hr) as Hn.
  destruct (N.ltb_spec MAX_STACK_DEPTH (N.of_nat (length st))); [lia|].
  rewrite (eval_op_spec _ _ _ _ _ Hr). unfold verdict_machine, verdict_step. simpl.
  destruct (machine_step _ _ _ _ op st) as [st'|] eqn:Hs; [|done].
  apply machine_step_shape in Hs as (v & k & ->). simpl.
  pose proof (repr_drop k _ _ Hr) as Hd.
  destruct (N.leb_spec MAX_STACK_DEPTH (N.of_nat (length (drop k st))));
    destruct (N.ltb_spec MAX_STACK_DEPTH (N.of_nat (S (length (drop k st)))));
    try lia; [done|].
  unfold stack_set, u32_add. rewrite Nat2N.id.
  destruct (Nat.ltb_spec (length (drop k st)) (length stack)) as [|Hbad];
    [|destruct Hr; lia].
  simpl.
  destruct (N.leb_spec (N.of_nat (length (drop k st)) + 1) U32_MAX) as [|Hbad];
    [|unfold MAX_STACK_DEPTH, U32_MAX in *; lia].
  simpl.
  replace (N.of_nat (length (drop k st)) + 1)%N
    with (N.of_nat (length (v :: drop k st))) by (simpl; lia).
  apply IH, repr_push; [done|lia].
Qed.

Lemma eval_spec e p inputs :
  eval e p inputs =
    Ok (default VUnknown
          (machine_result (verdict_machine (leaf_verdict e inputs) (ops p) []))).
Proof.
  unfold eval. apply (eval_loop_spec e inputs (ops p) []).
  split; [by rewrite length_replicate|done].
Qed.
End eval_facts.

(** ** The validator bounds the machine *)

Section validate_facts.
Context {H : Host}.

Lemma pops_classify op :
  pops op = match classify op with
            | CAll n | CAny n => if (n =? 0)%N then Err ArityMismatch else Ok n
            | CNot => Ok 1%N
            | CLeaf => Ok 0%N
            end.
Proof. by destruct op. Qed.

Lemma validate_loop_step op l d :
  (d ≤ MAX_STACK_DEPTH)%N → ∀ d',
  validate_loop (op :: l) d = Ok d' ↔
  ∃ p, pops op = Ok p ∧ (p ≤ d)%N ∧ (d - p + 1 ≤ MAX_STACK_DEPTH)%N ∧
       validate_loop l (d - p + 1) = Ok d'.
Proof.
  intros Hd d'. simpl. destruct (pops op) as [p| |]; simpl; [|naive_solver..].
  unfold u_sub, u32_add, MAX_STACK_DEPTH, U32_MAX in *.
  destruct (N.ltb_spec d p); [naive_solver lia|]. simpl.
  destruct (N.leb_spec (d - p + 1) 4294967295); [|lia]. simpl.
  destruct (N.ltb_spec 128 (d - p + 1)); naive_solver lia.
Qed.

Section any_machine.
Context {V : Type} (lf : Op → V) (nt : V → V) (al an : list V → V).
Implicit Types st : list V.

(** One validator step is the change of stack height of one machine step. *)
Lemma machine_step_pops op st st' :
  machine_step lf nt al an op st = Some st' ↔
  ∃ p, pops op = Ok p ∧ (p ≤ N.of_nat (length st))%N ∧
       st' = match classify op with
             | CAll _ => al (take (N.to_nat p) st)
             | CAny _ => an (take (N.to_nat p) st)
             | CNot => match st with v :: _ => nt v | [] => lf op end
             | CLeaf => lf op
             end :: drop (N.to_nat p) st.
Proof.
  rewrite pops_classify. unfold machine_step, pop_push.
  destruct (classify op) as [n|n| |].
  1, 2: destruct (N.eqb_spec n 0), (N.ltb_spec (N.of_nat (length st)) n); simpl;
    (split; [intros [= <-]; eauto 6 with lia | intros (? & [= <-] & ? & ->)]);
    try done; lia.
  - destruct st as [|v st]; simpl.
    + split; [done|]. intros (? & [= <-] & ? & ?). lia.
    + split; [intros [= <-]; exists 1%N; repeat split; lia|].
      by intros (? & [= <-] & ? & ->).
  - split; [intros [= <-]; exists 0%N; repeat split; lia|].
    by intros (? & [= <-] & ? & ->).
Qed.

Lemma validate_loop_machine l st :
  (N.of_nat (length st) ≤ MAX_STACK_DEPTH)%N → ∀ d',
  validate_loop l (N.of_nat (length st)) = Ok d' ↔
  ∃ st', machine_run lf nt al an l st = Some st' ∧ N.of_nat (length st') = d'.
Proof.
  revert st. induction l as [|op l IH]; intros st Hd d'.
  { simpl. naive_solver. }
  rewrite validate_loop_step by done. simpl.
  destruct (machine_step lf nt al an op st) as [st1|] eqn:Hs.
  - apply machine_step_pops in Hs as (p & Hp & Hle & ->).
    rewrite Hp. cbn [length]. rewrite length_drop.
    replace (N.of_nat (S (length st - N.to_nat p)))
      with (N.of_nat (length st) - p + 1)%N by lia.
    destruct (N.ltb_spec MAX_STACK_DEPTH (N.of_nat (length st) - p + 1)).
    + split; [|naive_solver]. intros (? & [= <-] & ? & ? & ?). lia.
    + replace (N.of_nat (length st) - p + 1)%N with
        (N.of_nat (length (match classify op with
             | CAll _ => al (take (N.to_nat p) st)
             | CAny _ => an (take (N.to_nat p) st)
             | CNot => match st with v :: _ => nt v | [] => lf op end
             | CLeaf => lf op
             end :: drop (N.to_nat p) st)))
        by (cbn [length]; rewrite length_drop; lia).
      rewrite <- IH by (cbn [length]; rewrite length_drop; lia).
      cbn [length]. rewrite length_drop.
      replace (N.of_nat (S (length st - N.to_nat p)))
        with (N.of_nat (length st) - p + 1)%N by lia.
      split; [intros (? & [= <-] & ? & ? & ?); done|eauto 6].
  - split; [|naive_solver]. intros (p & Hp & Hle & _).
    exfalso. apply eq_None_not_Some in Hs. apply Hs.
    eexists. apply machine_step_pops. eauto.
Qed.
End any_machine.

(** A validated program runs to a single value on every machine. *)
Lemma validate_machine {V} (lf : Op → V) nt al an p :
  validate p = Ok tt ↔
  version p = PROGRAM_VERSION ∧
  (0 < N.of_nat (length (ops p)) ≤ MAX_PROGRAM_LEN)%N ∧
  ∃ v, machine_run lf nt al an (ops p) [] = Some [v].
Proof.
  unfold validate.
  destruct (N.eqb_spec (version p) PROGRAM_VERSION); simpl; [|naive_solver].
  destruct (N.eqb_spec (N.of_nat (length (ops p))) 0); [naive_solver lia|].
  destruct (N.ltb_spec MAX_PROGRAM_LEN (N.of_nat (length (ops p))));
    [naive_solver lia|].
  rewrite rbind_Ok. setoid_rewrite (validate_loop_machine lf nt al an _ []);
    [|by unfold MAX_STACK_DEPTH].
  split.
  - intros (d & (st & Hst & <-) & Hd).
    destruct (N.eqb_spec (N.of_nat (length st)) 1); [|done].
    destruct st as [|v [|]]; simpl in *; try lia. eauto with lia.
  - intros (_ & _ & v & Hv). exists 1%N. split; [|done]. eauto.
Qed.
End validate_facts.

(** ** Programs and formulas *)

Section formula_facts.
Context {H : Host}.

Lemma formula_rec_ind (P : formula → Prop) :
  (∀ op, P (FLeaf op)) → (∀ f, P f → P (FNot f)) →
  (∀ fs, Forall P fs → P (FAll fs)) → (∀ fs, Forall P fs → P (FAny fs)) →
  ∀ f, P f.
Proof.
  intros Hl Hn Ha Ho. fix IH 1. intros [op|f|fs|fs].
  - apply Hl.
  - apply Hn, IH.
  - apply Ha. induction fs; constructor; [apply IH|done].
  - apply Ho. induction fs; constructor; [apply IH|done].
Qed.

(** The stack height a formula's spelling needs: each operand of a composite
    is evaluated on top of the ones before it. *)
Fixpoint needs {A} (nd : A → nat) (fs : list A) : nat :=
  match fs with
  | [] => 0
  | f :: fs => Nat.max (nd f) (S (needs nd fs))
  end.
Fixpoint need (f : formula) : nat :=
  match f with
  | FLeaf _ => 1
  | FNot f => need f
  | FAll fs | FAny fs => Nat.max 1 (needs need fs)
  end.

Lemma need_pos f : 0 < need f.
Proof. induction f using formula_rec_ind; simpl; lia. Qed.

Lemma wf_formulas fs :
  foldr (λ g P, wf_formula g ∧ P) True fs ↔ Forall wf_formula fs.
Proof.
  induction fs as [|f fs IH]; simpl; [by split|]. by rewrite IH, Forall_cons.
Qed.

(** Machines over different values run in lock step along a homomorphism. *)
Lemma machine_run_map {V W} (h : V → W) lf nt al an lf' nt' al' an' l st :
  (∀ op, h (lf op) = lf' op) → (∀ v, h (nt v) = nt' (h v)) →
  (∀ vs, h (al vs) = al' (map h vs)) → (∀ vs, h (an vs) = an' (map h vs)) →
  machine_run lf' nt' al' an' l (map h st) =
    option_map (map h) (machine_run lf nt al an l st).
Proof.
  intros Hl Hn Ha Ho. revert st. induction l as [|op l IH]; intros st; simpl.
  { done. }
  assert (machine_step lf' nt' al' an' op (map h st) =
          option_map (map h) (machine_step lf nt al an op st)) as ->.
  { unfold machine_step, pop_push. destruct (classify op).
    - rewrite length_map. case_match; [done|]; simpl.
      by rewrite Ha, firstn_map, skipn_map.
    - rewrite length_map. case_match; [done|]; simpl.
      by rewrite Ho, firstn_map, skipn_map.
    - destruct st; simpl; by rewrite ?Hn.
    - simpl. by rewrite Hl. }
  destruct (machine_step lf nt al an op st) as [st'|]; simpl; [|done].
  rewrite length_map. case_match; [done|]. apply IH.
Qed.

(** Under any leaf valuation, running a program over verdicts is running it
    over formulas and taking the denotation of what is left. *)
Lemma verdict_machine_denote leaf l :
  verdict_machine leaf l [] =
    option_map (map (denote leaf)) (formula_machine l []).
Proof.
  apply (machine_run_map (denote leaf) _ _ _ _ _ _ _ _ l []); try done;
    intros vs; simpl; rewrite ?all_of_fold, ?any_of_fold; by rewrite map_rev.
Qed.

Definition spelled (st : list formula) : list Op := concat (map flatten (rev st)).

Lemma spelled_app a b : spelled (a ++ b) = spelled b ++ spelled a.
Proof. unfold spelled. by rewrite rev_app_distr, map_app, concat_app. Qed.

Lemma spelled_split k st : spelled st = spelled (drop k st) ++ spelled (take k st).
Proof. by rewrite <- spelled_app, take_drop. Qed.

Lemma spelled_cons f st : spelled (f :: st) = spelled st ++ flatten f.
Proof.
  change (f :: st) with ([f] ++ st). rewrite spelled_app. unfold spelled at 2.
  simpl. by rewrite app_nil_r.
Qed.

(** The formulas on the stack always spell, in order, the ops read so far. *)
Lemma formula_machine_spelled l st st' :
  Forall wf_formula st → formula_machine l st = Some st' →
  Forall wf_formula st' ∧ spelled st' = spelled st ++ l.
Proof.
  unfold formula_machine. revert st. induction l as [|op l IH]; intros st Hwf.
  { intros [= <-]. by rewrite app_nil_r. }
  simpl. destruct (machine_step _ _ _ _ op st) as [st1|] eqn:Hs; [|done].
  case_match; [done|]. intros Hr.
  enough (Forall wf_formula st1 ∧ spelled st1 = spelled st ++ [op]) as [Hw1 Hs1].
  { destruct (IH _ Hw1 Hr) as [? ->]. split; [done|]. by rewrite Hs1, <- app_assoc. }
  clear IH Hr. unfold machine_step, pop_push in Hs.
  destruct op; simpl in Hs; simplify_eq;
    try (split; [by repeat constructor | by rewrite spelled_cons]).
  1, 2: destruct (N.eqb_spec n 0), (N.ltb_spec (N.of_nat (length st)) n);
      simplify_eq/=; split;
      [ constructor; [split|by apply Forall_drop];
        [ intros Hnil; apply (f_equal length) in Hnil;
          rewrite length_rev, length_take in Hnil; simpl in Hnil; lia
        | by apply wf_formulas, Forall_rev, Forall_take ]
      | rewrite (spelled_split (N.to_nat n) st), spelled_cons, <- app_assoc;
        simpl; unfold spelled; rewrite length_rev, length_take; do 4 f_equal; lia ].
  destruct st as [|f st]; simplify_eq/=. apply Forall_cons in Hwf as [? ?].
  split; [by constructor|]. rewrite !spelled_cons. simpl. by rewrite !app_assoc.
Qed.

Lemma formula_machine_flattens fs l st :
  Forall (λ f, ∀ l st, wf_formula f →
    formula_machine (flatten f ++ l) st =
      if bool_decide (length st + need f ≤ N.to_nat MAX_STACK_DEPTH)
      then formula_machine l (f :: st) else None) fs →
  Forall wf_formula fs → length st ≤ N.to_nat MAX_STACK_DEPTH →
  formula_machine (concat (map flatten fs) ++ l) st =
    if bool_decide (length st + needs need fs ≤ N.to_nat MAX_STACK_DEPTH)
    then formula_machine l (rev fs ++ st) else None.
Proof.
  revert st. induction fs as [|f fs IH]; intros st HP Hwf Hst; simpl.
  { by rewrite bool_decide_eq_true_2 by lia. }
  apply Forall_cons in HP as [Hf HP]. apply Forall_cons in Hwf as [Hw Hwf].
  pose proof (need_pos f).
  rewrite <- app_assoc, Hf by done. case_bool_decide.
  - rewrite IH by (done || simpl; lia). simpl. rewrite <- app_assoc. simpl.
    repeat case_bool_decide; done || lia.
  - rewrite bool_decide_eq_false_2 by lia. done.
Qed.

Lemma formula_machine_composite n f fs l st :
  fs ≠ [] → n = N.of_nat (length fs) → length st < N.to_nat MAX_STACK_DEPTH →
  match pop_push n f (rev fs ++ st) with
  | Some st' => if (MAX_STACK_DEPTH <? N.of_nat (length st'))%N then None
                else formula_machine l st'
  | None => None
  end = formula_machine l (f (rev fs) :: st).
Proof.
  intros Hne -> Hst. assert (length fs ≠ 0) by (by destruct fs).
  unfold pop_push. rewrite length_app, length_rev.
  destruct (N.eqb_spec (N.of_nat (length fs)) 0); [lia|].
  destruct (N.ltb_spec (N.of_nat (length fs + length st)) (N.of_nat (length fs)));
    [lia|]. simpl.
  rewrite take_app_length', drop_app_length' by (rewrite length_rev; lia).
  destruct (N.ltb_spec MAX_STACK_DEPTH (N.of_nat (S (length st)))); [lia|done].
Qed.

Lemma composite_flatten k mk (con : list formula → formula) fs l st :
  (∀ fs, k (rev fs) = con fs) →
  (∀ n l st, formula_machine (mk n :: l) st =
     match pop_push n k st with
     | Some st' => if (MAX_STACK_DEPTH <? N.of_nat (length st'))%N then None
                   else formula_machine l st'
     | None => None
     end) →
  Forall (λ f, ∀ l st, wf_formula f →
    formula_machine (flatten f ++ l) st =
      if bool_decide (length st + need f ≤ N.to_nat MAX_STACK_DEPTH)
      then formula_machine l (f :: st) else None) fs →
  fs ≠ [] ∧ foldr (λ g P, wf_formula g ∧ P) True fs →
  formula_machine ((concat (map flatten fs) ++ [mk (N.of_nat (length fs))]) ++ l) st =
    if bool_decide (length st + Nat.max 1 (needs need fs) ≤ N.to_nat MAX_STACK_DEPTH)
    then formula_machine l (con fs :: st) else None.
Proof.
  intros Hk Hstep HP [Hne Hwf%wf_formulas]. rewrite <- app_assoc.
  destruct (decide (length st ≤ N.to_nat MAX_STACK_DEPTH)) as [Hst|Hst].
  - rewrite formula_machine_flattens by done.
    assert (0 < needs need fs) by (destruct fs; simpl in *; done || lia).
    replace (Nat.max 1 (needs need fs)) with (needs need fs) by lia.
    case_bool_decide as Hroom; [|done]. cbn [app]. rewrite Hstep.
    rewrite formula_machine_composite by (done || lia).
    by rewrite Hk.
  - rewrite bool_decide_eq_false_2 by lia.
    destruct fs as [|g fs]; [done|]. simpl. apply Forall_cons in HP as [HP _].
    apply Forall_cons in Hwf as [Hw _]. rewrite <- app_assoc, HP by done.
    by rewrite bool_decide_eq_false_2 by lia.
Qed.

(** Reading the spelling of [f] pushes [f] when the stack has room for it,
    and is refused otherwise. *)
Lemma formula_machine_flatten f l st :
  wf_formula f →
  formula_machine (flatten f ++ l) st =
    if bool_decide (length st + need f ≤ N.to_nat MAX_STACK_DEPTH)
    then formula_machine l (f :: st) else None.
Proof.
  revert l st. induction f as [op|f IH|fs IH|fs IH] using formula_rec_ind;
    intros l st Hwf; simpl in *.
  - unfold formula_machine. simpl. unfold machine_step. rewrite Hwf. simpl.
    case_bool_decide; case_match eqn:Hc; try done;
      [apply N.ltb_lt in Hc|apply N.ltb_ge in Hc]; lia.
  - rewrite <- app_assoc, IH by done. case_bool_decide; [|done].
    pose proof (need_pos f).
    unfold formula_machine. simpl.
    destruct (N.ltb_spec MAX_STACK_DEPTH (N.of_nat (S (length st)))); [lia|done].
  - apply (composite_flatten (λ x, FAll (rev x)) Op_All FAll); try done.
    intros; by rewrite rev_involutive.
  - apply (composite_flatten (λ x, FAny (rev x)) Op_Any FAny); try done.
    intros; by rewrite rev_involutive.
Qed.
End formula_facts.

(** ** What the validator and the evaluator promise *)

Section promises.
Context {H : Host}.

Lemma formula_machine_nil f : wf_formula f →
  formula_machine (flatten f) [] =
    if bool_decide (need f ≤ N.to_nat MAX_STACK_DEPTH) then Some [f] else None.
Proof.
  intros Hwf. rewrite <- (app_nil_r (flatten f)).
  by rewrite formula_machine_flatten.
Qed.

Lemma formula_machine_single l f :
  formula_machine l [] = Some [f] ↔
  wf_formula f ∧ flatten f = l ∧ need f ≤ N.to_nat MAX_STACK_DEPTH.
Proof.
  split.
  - intros Hr. destruct (formula_machine_spelled l [] [f]) as [Hwf Hsp]; [done..|].
    apply Forall_cons in Hwf as [Hwf _]. rewrite spelled_cons in Hsp. simpl in Hsp.
    subst l. split; [done|]. split; [done|].
    rewrite formula_machine_nil in Hr by done. by case_bool_decide.
  - intros (Hwf & <- & Hn). rewrite formula_machine_nil by done.
    by rewrite bool_decide_eq_true_2.
Qed.

Lemma validate_formula p :
  validate p = Ok tt ↔
  version p = PROGRAM_VERSION ∧
  (N.of_nat (length (ops p)) ≤ MAX_PROGRAM_LEN)%N ∧
  ∃ f, wf_formula f ∧ flatten f = ops p ∧ need f ≤ N.to_nat MAX_STACK_DEPTH.
Proof.
  rewrite (validate_machine FLeaf FNot (λ fs, FAll (rev fs)) (λ fs, FAny (rev fs))).
  setoid_rewrite formula_machine_single. split; [naive_solver|].
  intros (Hv & Hlen & f & Hf). split; [done|]. split; [|by exists f].
  split; [|done]. destruct Hf as (_ & <- & _). destruct f; simpl; rewrite ?length_app; simpl; lia.
Qed.

Lemma eval_formula f e p inputs :
  wf_formula f → flatten f = ops p → need f ≤ N.to_nat MAX_STACK_DEPTH →
  eval e p inputs = Ok (denote (leaf_verdict e inputs) f).
Proof.
  intros Hwf Hf Hn. rewrite eval_spec, verdict_machine_denote.
  by rewrite (proj2 (formula_machine_single (ops p) f)).
Qed.

(** In a validated program, any well-formed formula it spells is the one. *)
Lemma validated_need g p :
  validate p = Ok tt → wf_formula g → flatten g = ops p →
  need g ≤ N.to_nat MAX_STACK_DEPTH.
Proof.
  intros (_ & _ & f & Hwf & Hf & Hn)%validate_formula Hwg Hg.
  pose proof (formula_machine_nil g Hwg) as Hr.
  rewrite Hg, (proj2 (formula_machine_single (ops p) f)) in Hr by done.
  by case_bool_decide.
Qed.

Lemma eval_validated g e p inputs :
  validate p = Ok tt → wf_formula g → flatten g = ops p →
  eval e p inputs = Ok (denote (leaf_verdict e inputs) g).
Proof. intros Hv Hwg Hg. apply eval_formula; [done..|]. by eapply validated_need. Qed.

Lemma eval_cases e p inputs :
  ∃ v, eval e p inputs = Ok v ∧
    (v = VUnknown ∨ ∃ f, wf_formula f ∧ flatten f = ops p ∧
       need f ≤ N.to_nat MAX_STACK_DEPTH ∧ denote (leaf_verdict e inputs) f = v).
Proof.
  rewrite eval_spec, verdict_machine_denote.
  destruct (formula_machine (ops p) []) as [[|f [|]]|] eqn:Hr; simpl; eauto.
  apply formula_machine_single in Hr as (? & ? & ?). eauto 10.
Qed.

(** The Kleene information order: [Unknown] may become anything. *)
Definition refines (a b : Verdict) : Prop := a = VUnknown ∨ a = b.

Lemma refines_not a b : refines a b → refines (verdict_not a) (verdict_not b).
Proof. destruct a, b; unfold refines; naive_solver. Qed.
Lemma refines_and a b c d :
  refines a b → refines c d → refines (verdict_and a c) (verdict_and b d).
Proof. destruct a, b, c, d; unfold refines; naive_solver. Qed.
Lemma refines_or a b c d :
  refines a b → refines c d → refines (verdict_or a c) (verdict_or b d).
Proof. destruct a, b, c, d; unfold refines; naive_solver. Qed.

Lemma denote_refines leaf leaf' f :
  (∀ op, op ∈ flatten f → refines (leaf op) (leaf' op)) →
  refines (denote leaf f) (denote leaf' f).
Proof.
  induction f as [op|f IH|fs IH|fs IH] using formula_rec_ind; intros Hl; simpl in *.
  - apply Hl. by left.
  - apply refines_not, IH. intros op ?. apply Hl. set_solver.
  - assert (∀ op, op ∈ concat (map flatten fs) → refines (leaf op) (leaf' op))
      as Hl' by (intros op ?; apply Hl; set_solver). clear Hl.
    induction IH as [|g fs Hg _ IH]; simpl; [by right|].
    apply refines_and; [apply Hg|apply IH]; intros op ?; apply Hl'; set_solver.
  - assert (∀ op, op ∈ concat (map flatten fs) → refines (leaf op) (leaf' op))
      as Hl' by (intros op ?; apply Hl; set_solver). clear Hl.
    induction IH as [|g fs Hg _ IH]; simpl; [by right|].
    apply refines_or; [apply Hg|apply IH]; intros op ?; apply Hl'; set_solver.
Qed.

(** *** String leaves *)

Lemma length_list_ascii s : length (String.list_ascii_of_string s) = String.length s.
Proof. induction s; simpl; congruence. Qed.

Lemma list_ascii_inj s t :
  String.list_ascii_of_string s = String.list_ascii_of_string t ↔ s = t.
Proof.
  split; [|by intros ->]. intros Heq.
  rewrite <- (String.string_of_list_ascii_of_string s),
    <- (String.string_of_list_ascii_of_string t). by rewrite Heq.
Qed.

Lemma take_copy_into s buf : take (length s) (copy_into s buf) = s.
Proof. unfold copy_into. by rewrite take_app_length. Qed.

Lemma str_bytes_Some s buf n buf' :
  str_bytes s buf = Some (n, buf') →
  n = String.length s ∧ String.length s ≤ MAX_STR_ARG_LEN ∧
  take n buf' = String.list_ascii_of_string s.
Proof.
  unfold str_bytes. destruct (Nat.ltb_spec MAX_STR_ARG_LEN (String.length s));
    [done|]. intros [= <- <-]. split_and!; [done|lia|].
  by rewrite <- length_list_ascii, take_copy_into.
Qed.

(** The stale tail a longer candidate leaves in the buffer is never read. *)
Lemma str_in_loop_spec set cand sbuf s :
  String.length s ≤ MAX_STR_ARG_LEN →
  take (String.length s) sbuf = String.list_ascii_of_string s →
  str_in_loop set cand sbuf (String.length s) = verdict_from_bool (contains set s).
Proof.
  intros Hs Htake. revert cand. induction set as [|w set IH]; intros cand; simpl.
  { done. }
  assert (∀ b : bool, b = bool_decide (w = s) →
    (if b then VTrue else verdict_from_bool (contains set s)) =
    verdict_from_bool (contains (w :: set) s)) as Hstep.
  { intros b ->. unfold contains. repeat case_bool_decide; set_solver. }
  destruct (str_bytes w cand) as [[cn cand']|] eqn:Hw.
  - apply str_bytes_Some in Hw as (-> & _ & Hw). rewrite IH. apply Hstep.
    unfold buf_eq. rewrite Hw, Htake.
    destruct (Nat.eqb_spec (String.length w) (String.length s)) as [Heq|Hne]; simpl.
    + apply bool_decide_ext, list_ascii_inj.
    + symmetry. apply bool_decide_eq_false_2. by intros ->.
  - rewrite IH. apply (Hstep false). unfold str_bytes in Hw.
    destruct (Nat.ltb_spec MAX_STR_ARG_LEN (String.length w)); [|done].
    rewrite bool_decide_eq_false_2; [done|]. intros ->. lia.
Qed.

Lemma prefix_take pfx s :
  String.prefix pfx s =
    (String.length pfx <=? String.length s) &&
    bool_decide (take (String.length pfx) (String.list_ascii_of_string s) =
                 String.list_ascii_of_string pfx).
Proof.
  revert s. induction pfx as [|c pfx IH]; intros [|d s]; simpl; try done.
  destruct (ascii_dec c d) as [->|Hne]; rewrite ?IH.
  - f_equal. apply bool_decide_ext. split; [by intros ->|by intros [= ->]].
  - rewrite bool_decide_eq_false_2 by congruence. by rewrite andb_false_r.
Qed.

Lemma arg_str_in_spec inputs i set s :
  arg val_string (context inputs) i = Some s →
  arg_str_in inputs i set =
    if (MAX_STR_ARG_LEN <? String.length s)%nat then VUnknown
    else verdict_from_bool (contains set s).
Proof.
  intros Ha. unfold arg_str_in. rewrite Ha.
  destruct (str_bytes s zero_buf) as [[sn sbuf]|] eqn:Hs.
  - apply str_bytes_Some in Hs as (-> & Hle & Htake).
    rewrite (proj2 (Nat.ltb_ge _ _)) by done. by apply str_in_loop_spec.
  - unfold str_bytes in Hs. by destruct (Nat.ltb _ _).
Qed.

Lemma arg_str_prefix_spec inputs i pfx s :
  arg val_string (context inputs) i = Some s →
  arg_str_prefix inputs i pfx =
    if (MAX_STR_ARG_LEN <? String.length pfx)%nat then VUnknown
    else verdict_from_bool (String.prefix pfx s).
Proof.
  intros Ha. unfold arg_str_prefix. rewrite Ha, prefix_take.
  destruct (str_bytes pfx zero_buf) as [[pn pbuf]|] eqn:Hp.
  - apply str_bytes_Some in Hp as (-> & Hle & Htake).
    rewrite (proj2 (Nat.ltb_ge _ _)) by done. unfold str_head.
    destruct (Nat.ltb_spec (String.length s) (String.length pfx)) as [|Hlen].
    + by rewrite (proj2 (Nat.leb_gt _ _)) by lia.
    + rewrite (proj2 (Nat.leb_le _ _)) by lia. simpl. rewrite Htake.
      set (h := take _ (String.list_ascii_of_string s)).
      replace (take (String.length pfx) (copy_into h zero_buf)) with h; [done|].
      rewrite <- (take_copy_into h zero_buf) at 1. f_equal. unfold h.
      rewrite length_take, length_list_ascii. lia.
  - unfold str_bytes in Hp. by destruct (Nat.ltb _ _).
Qed.

(** C1: The evaluator refines the denotational semantics.  A program the
    install-time validator accepts spells exactly one well-formed formula in
    postfix order, and evaluating it (fixed array, stack pointer, popping
    folds) returns that formula's three-valued denotation, on every ledger,
    call context and signer count. *)
Theorem validated_program_denotes p :
  validate p = Ok tt →
  ∃ f, wf_formula f ∧ flatten f = ops p ∧
    (∀ g, wf_formula g → flatten g = ops p → g = f) ∧
    ∀ e inputs, eval e p inputs = Ok (denote (leaf_verdict e inputs) f).
Proof.
  intros (_ & _ & f & Hwf & Hf & Hn)%validate_formula. exists f.
  split_and!; [done..| |intros; by apply eval_formula].
  intros g Hwg Hg. pose proof (formula_machine_nil g Hwg) as Hr.
  rewrite Hg, (proj2 (formula_machine_single (ops p) f)) in Hr by done.
  case_bool_decide; congruence.
Qed.

(** The validator accepts exactly the programs of the supported version
    with at most 256 ops that spell a well-formed formula whose evaluation
    needs at most 128 stack slots. *)
Theorem validate_accepts_exactly p :
  validate p = Ok tt ↔
  version p = PROGRAM_VERSION ∧
  (N.of_nat (length (ops p)) ≤ MAX_PROGRAM_LEN)%N ∧
  ∃ f, wf_formula f ∧ flatten f = ops p ∧ need f ≤ N.to_nat MAX_STACK_DEPTH.
Proof. apply validate_formula. Qed.

(** C29: Evaluation is total and fails closed on any program, validated or
    not: it never indexes outside its array, never underflows its stack
    pointer, and the verdict it returns is [Unknown] unless the program
    spells a well-formed formula with that very denotation. *)
Theorem eval_total_fail_closed e p inputs :
  ∃ v, eval e p inputs = Ok v ∧
    (v = VUnknown ∨ ∃ f, wf_formula f ∧ flatten f = ops p ∧
       denote (leaf_verdict e inputs) f = v).
Proof.
  destruct (eval_cases e p inputs) as (v & Hv & [->|(f & ? & ? & _ & ?)]); eauto 10.
Qed.

(** Verdicts are monotone in information.  If a program authorizes while
    some leaves are [Unknown] (an argument did not decode, the context is
    not a contract call), it authorizes under every way of resolving those
    leaves: an undecodable argument never turns a denial into an
    authorization, under any nesting of [Not], [All] and [Any]. *)
Theorem eval_unknown_never_authorizes e e' p inputs inputs' :
  (∀ op, op ∈ ops p →
     refines (leaf_verdict e inputs op) (leaf_verdict e' inputs' op)) →
  eval e p inputs = Ok VTrue → eval e' p inputs' = Ok VTrue.
Proof.
  intros Hl Ht. destruct (eval_cases e p inputs) as (v & Hv & Hcase).
  rewrite Hv in Ht. injection Ht as ->.
  destruct Hcase as [|(f & Hwf & Hf & Hn & Hd)]; [done|].
  rewrite (eval_formula f) by done. f_equal. rewrite <- Hf in Hl.
  destruct (denote_refines _ _ f Hl) as [Hu|Heq]; congruence.
Qed.

(** The string leaves mean what they say.  A decoded string of at most
    256 bytes is matched by [arg_str_in] iff it is a member of the set, and
    by [arg_str_prefix] iff the (at most 256-byte) prefix is a prefix of it,
    although the candidate buffer is reused and keeps stale bytes; longer
    input gives [Unknown], as does an argument that is no string. *)
Theorem string_leaves_spec inputs i set pfx :
  match arg val_string (context inputs) i with
  | None => arg_str_in inputs i set = VUnknown ∧
            arg_str_prefix inputs i pfx = VUnknown
  | Some s =>
      arg_str_in inputs i set =
        (if (MAX_STR_ARG_LEN <? String.length s)%nat then VUnknown
         else verdict_from_bool (contains set s)) ∧
      arg_str_prefix inputs i pfx =
        (if (MAX_STR_ARG_LEN <? String.length pfx)%nat then VUnknown
         else verdict_from_bool (String.prefix pfx s))
  end.
Proof.
  destruct (arg val_string (context inputs) i) as [s|] eqn:Ha.
  - by rewrite (arg_str_in_spec _ _ _ _ Ha), (arg_str_prefix_spec _ _ _ _ Ha).
  - unfold arg_str_in, arg_str_prefix. by rewrite Ha.
Qed.
End promises.

(** ** Witnesses on the concrete host *)

Module ProgramDemo.
#[local] Existing Instance DemoHost.

(** [fn ∈ {approve} ∧ ¬ (arg 2 starts with x)]. *)
Definition demo_program : RpnProgram := {|
  version := 1;
  ops := [Op_FnIn ["approve"%string]; Op_ArgStrPrefix 2 "x"; Op_Not; Op_All 2];
|}.

Definition demo_env : Env := {|
  sequence := 100; network_id := ""; current_contract_address := "CACC"%string;
  authorized := λ _, true; authorized_for_args := λ _ _, true; max_ttl := 3110400;
  min_persistent_ttl := 120960; min_temp_ttl := 17280;
|}.

Definition demo_inputs (a2 : demo_val) : EvalInputs := {|
  context := Context_Contract {|
    contract := "CREG"%string; fn_name := "approve";
    args := [DVAddress "GA"; DVU32 7; a2] |};
  signer_count := 1; self_addr := "CACC"%string;
|}.

Lemma validated_program_denotes_witness :
  validate demo_program = Ok tt ∧
  ∃ f, wf_formula f ∧ flatten f = ops demo_program ∧
    (∀ g, wf_formula g → flatten g = ops demo_program → g = f) ∧
    ∀ e inputs, eval e demo_program inputs = Ok (denote (leaf_verdict e inputs) f).
Proof.
  split; [reflexivity|]. apply (validated_program_denotes demo_program). reflexivity.
Defined.

(** [fn ∈ {approve} ∨ arg 2 starts with x], with an argument 2 that is no
    string, then with one that is. *)
Definition demo_any : RpnProgram := {|
  version := 1;
  ops := [Op_FnIn ["approve"%string]; Op_ArgStrPrefix 2 "x"; Op_Any 2];
|}.

Lemma eval_unknown_never_authorizes_witness :
  leaf_verdict demo_env (demo_inputs (DVU32 3)) (Op_ArgStrPrefix 2 "x") = VUnknown ∧
  eval demo_env demo_any (demo_inputs (DVString "y")) = Ok VTrue.
Proof.
  split; [reflexivity|].
  apply (eval_unknown_never_authorizes demo_env demo_env demo_any
           (demo_inputs (DVU32 3)) (demo_inputs (DVString "y"))).
  - intros op Hop.
    apply elem_of_cons in Hop as [->|Hop]; [right; reflexivity|].
    apply elem_of_cons in Hop as [->|Hop]; [left; reflexivity|].
    apply elem_of_cons in Hop as [->|Hop]; [right; reflexivity|].
    by apply elem_of_nil in Hop.
  - reflexivity.
Defined.
End ProgramDemo.
