(* ===== verification/Interpreter.v ===== *)
(** * perch-interpreter: the policy contract

    Models [crates/perch-interpreter/src/lib.rs].  One instance serves every
    account: its state maps [(smart_account, context_rule_id)] to the install
    params stored there.  [install], [enforce] and [uninstall] are the whole
    entry points, their storage lifetimes included; [istep] is the contract's
    step relation and [reachable] the states a sequence of calls can produce
    on successive ledgers. *)

From S2P Require Import Prelude Host Program.

Section interpreter.
Context {H : Host}.

Definition DAY_IN_LEDGERS : N := 17280.
Definition EXTEND_AMOUNT : N := 30 * DAY_IN_LEDGERS.
Definition TTL_THRESHOLD : N := EXTEND_AMOUNT - DAY_IN_LEDGERS.

Inductive Error : Type :=
| Denied
| NotInstalled
| AlreadyInstalled
| InvalidProgram.

Abbreviation DataKey := (Address * N)%type.
Abbreviation istate := (gmap DataKey (entry InstallParams)).

Definition program_version : N := PROGRAM_VERSION.

Definition get_program (st : istate) (smart_account : Address)
    (context_rule_id : N) : option InstallParams :=
  persistent_get st (smart_account, context_rule_id).

Definition enforce (e : Env) (st : istate) (ctx : Context)
    (authenticated_signers : list Signer) (context_rule : ContextRule)
    (smart_account : Address) : result Error istate :=
  require_auth e smart_account ;;;
  refuse_if (bool_decide (authenticated_signers = [])) Denied ;;;
  let key := (smart_account, rule_id context_rule) in
  let* params := ok_or (persistent_get st key) NotInstalled in
  let* st := persistent_extend_ttl e st key TTL_THRESHOLD EXTEND_AMOUNT in
  let inputs := {| context := ctx;
                   signer_count := N.of_nat (length authenticated_signers);
                   self_addr := smart_account |} in
  match eval e (program params) inputs with
  | Ok v => refuse_if (negb (bool_decide (v = VTrue))) Denied ;;; Ok st
  | _ => Panic
  end.

Definition install (e : Env) (st : istate) (install_params : InstallParams)
    (context_rule : ContextRule) (smart_account : Address)
  : result Error istate :=
  require_auth e smart_account ;;;
  let key := (smart_account, rule_id context_rule) in
  refuse_if (persistent_has st key) AlreadyInstalled ;;;
  refuse_if (negb (is_ok (validate (program install_params)))) InvalidProgram ;;;
  let st := persistent_set e st key install_params in
  persistent_extend_ttl e st key TTL_THRESHOLD EXTEND_AMOUNT.

Definition uninstall (e : Env) (st : istate) (context_rule : ContextRule)
    (smart_account : Address) : result Error istate :=
  require_auth e smart_account ;;;
  let key := (smart_account, rule_id context_rule) in
  refuse_if (negb (persistent_has st key)) NotInstalled ;;;
  Ok (delete key st).

(** A call the contract accepts, labelled with the account it is made for and
    the rule it names. *)
Inductive istep (e : Env) (st : istate) : Address → N → istate → Prop :=
| step_enforce ctx signers rule a st' :
    enforce e st ctx signers rule a = Ok st' → istep e st a (rule_id rule) st'
| step_install params rule a st' :
    install e st params rule a = Ok st' → istep e st a (rule_id rule) st'
| step_uninstall rule a st' :
    uninstall e st rule a = Ok st' → istep e st a (rule_id rule) st'.

Inductive reachable : istate → Prop :=
| reachable_init : reachable ∅
| reachable_step e st a r st' :
    reachable st → istep e st a r st' → reachable st'.

(** ** What each entry point does to the stored params *)

Lemma enforce_Ok e st ctx signers rule a st' :
  enforce e st ctx signers rule a = Ok st' ↔
  authorized e a = true ∧ signers ≠ [] ∧
  ∃ params, get_program st a (rule_id rule) = Some params ∧
    persistent_extend_ttl (E:=Error) e st (a, rule_id rule) TTL_THRESHOLD EXTEND_AMOUNT
      = Ok st' ∧
    eval e (program params)
      {| context := ctx; signer_count := N.of_nat (length signers);
         self_addr := a |} = Ok VTrue.
Proof.
  unfold enforce, require_auth, get_program. split.
  - intros Hr. inv_result.
    apply bool_decide_eq_false in H1. destruct (eval _ _ _) as [v|e'|] eqn:Hv; [|done..].
    inv_result. destruct (decide (v = VTrue)) as [->|];
      [|by rewrite bool_decide_eq_false_2 in * by done].
    eauto 10.
  - intros (-> & Hs & params & Hp & Hx & Hv). simpl.
    rewrite bool_decide_eq_false_2 by done. simpl.
    by rewrite Hp; simpl; rewrite Hx; simpl; rewrite Hv.
Qed.

Lemma install_Ok e st params rule a st' :
  install e st params rule a = Ok st' →
  authorized e a = true ∧ get_program st a (rule_id rule) = None ∧
  validate (program params) = Ok tt ∧
  ∀ b r, get_program st' b r =
    if decide ((b, r) = (a, rule_id rule)) then Some params else get_program st b r.
Proof.
  unfold install, require_auth, get_program. intros Hr. inv_result.
  apply persistent_extend_ttl_Ok in Hr as [_ Hget].
  split; [done|]. split; [|split].
  - apply eq_None_not_Some. intros Hs%persistent_has_get. congruence.
  - match goal with Hv : negb _ = false |- _ =>
      apply negb_false_iff, is_ok_true in Hv as [[] Hv] end. done.
  - intros b r. by rewrite Hget, persistent_get_set.
Qed.

Lemma uninstall_Ok e st rule a st' :
  uninstall e st rule a = Ok st' ↔
  authorized e a = true ∧ is_Some (get_program st a (rule_id rule)) ∧
  st' = delete (a, rule_id rule) st.
Proof.
  unfold uninstall, require_auth, get_program. split.
  - intros Hr. inv_result.
    match goal with Hv : negb _ = false |- _ =>
      apply negb_false_iff, persistent_has_get in Hv end. done.
  - intros (-> & Hs & ->). apply persistent_has_get in Hs. simpl. by rewrite Hs.
Qed.

(** Every step needs the account's authorization and touches one key. *)
Lemma istep_frame e st a r st' :
  istep e st a r st' →
  authorized e a = true ∧
  ∀ b s, (b, s) ≠ (a, r) → get_program st' b s = get_program st b s.
Proof.
  destruct 1 as [ctx signers rule a st' Hs|params rule a st' Hs|rule a st' Hs].
  - apply enforce_Ok in Hs as (Ha & _ & params & _ & Hx & _). split; [done|].
    intros b s _. apply persistent_extend_ttl_Ok in Hx as [_ Hx]. apply Hx.
  - apply install_Ok in Hs as (Ha & _ & _ & Hget). split; [done|].
    intros b s Hne. rewrite Hget. by case_decide.
  - apply uninstall_Ok in Hs as (Ha & _ & ->). split; [done|].
    intros b s Hne. unfold get_program, persistent_get. by rewrite lookup_delete_ne.
Qed.

(** At the key it touches, a step keeps the params, stores valid ones where
    there were none, or removes them. *)
Lemma istep_at e st a r st' :
  istep e st a r st' →
  get_program st' a r = get_program st a r ∨
  (get_program st a r = None ∧
     ∃ p, get_program st' a r = Some p ∧ validate (program p) = Ok tt) ∨
  (is_Some (get_program st a r) ∧ get_program st' a r = None).
Proof.
  destruct 1 as [ctx signers rule a st' Hs|params rule a st' Hs|rule a st' Hs].
  - apply enforce_Ok in Hs as (_ & _ & params & _ & Hx & _). left.
    apply persistent_extend_ttl_Ok in Hx as [_ Hx]. apply Hx.
  - apply install_Ok in Hs as (_ & Hn & Hv & Hget). right; left. split; [done|].
    exists params. rewrite Hget. by rewrite decide_True.
  - apply uninstall_Ok in Hs as (_ & Hs & ->). right; right. split; [done|].
    unfold get_program, persistent_get. by rewrite lookup_delete_eq.
Qed.

Lemma reachable_valid st a r p :
  reachable st → get_program st a r = Some p → validate (program p) = Ok tt.
Proof.
  intros Hr. revert a r p. induction Hr as [|e st a r st' _ IH Hs]; intros b s p Hp.
  { done. }
  destruct (decide ((b, s) = (a, r))) as [[= -> ->]|Hne].
  - destruct (istep_at _ _ _ _ _ Hs) as [Heq|[(_ & q & Hq & Hv)|[_ Hn]]].
    + rewrite Heq in Hp. eauto.
    + congruence.
    + congruence.
  - destruct (istep_frame _ _ _ _ _ Hs) as [_ Hf]. rewrite Hf in Hp by done. eauto.
Qed.

(** ** The policy's guarantees *)

(** C2: A call is authorized exactly when it should be.  In every reachable
    state, [enforce] succeeds iff the account itself authorized the call, at
    least one signer authenticated, and a program is installed for this
    account and rule whose formula denotes [True] on this call with the
    number of authenticated signers; otherwise it ends in an error.  A
    missing program denies. *)
Theorem enforce_authorizes_iff e st ctx signers rule a :
  reachable st →
  (∃ st', enforce e st ctx signers rule a = Ok st') ↔
  authorized e a = true ∧ signers ≠ [] ∧
  ∃ params f, get_program st a (rule_id rule) = Some params ∧
    wf_formula f ∧ flatten f = ops (program params) ∧
    denote (leaf_verdict e {| context := ctx;
                              signer_count := N.of_nat (length signers);
                              self_addr := a |}) f = VTrue.
Proof.
  intros Hr. setoid_rewrite enforce_Ok. split.
  - intros (st' & Ha & Hs & params & Hp & _ & Hv). split_and!; [done..|].
    destruct (eval_cases e (program params) {| context := ctx;
      signer_count := N.of_nat (length signers); self_addr := a |})
      as (v & Hv' & Hc). rewrite Hv in Hv'. injection Hv' as <-.
    destruct Hc as [|(f & ? & ? & _ & ?)]; [done|]. eauto 10.
  - intros (Ha & Hs & params & f & Hp & Hwf & Hf & Hd).
    pose proof (reachable_valid _ _ _ _ Hr Hp) as Hv.
    unfold get_program, persistent_get in Hp.
    apply fmap_Some in Hp as (x & Hx & ->).
    unfold persistent_extend_ttl, get_program, persistent_get. rewrite Hx.
    eexists. split_and!; [done..|]. eexists. split_and!; [done..|].
    by rewrite (eval_validated f), Hd by done.
Qed.

(** C4: Tenant isolation.  A call the interpreter accepts carries the
    authorization of the account it names, and changes the stored program of
    no other account and of no other rule. *)
Theorem interpreter_tenant_isolation e st a r st' :
  istep e st a r st' →
  authorized e a = true ∧
  ∀ b s, (b, s) ≠ (a, r) → get_program st' b s = get_program st b s.
Proof. apply istep_frame. Qed.

(** C3: Stored policies are never swapped.  Every stored program passed
    structural validation, and a step from a state that has a program for a
    rule either keeps exactly those params or removes them; a different
    program can only follow an [uninstall] the account authorized. *)
Theorem interpreter_never_swaps e st a r st' b s p :
  reachable st → istep e st a r st' → get_program st b s = Some p →
  validate (program p) = Ok tt ∧
  (get_program st' b s = Some p ∨
   get_program st' b s = None ∧ (b, s) = (a, r) ∧ authorized e b = true).
Proof.
  intros Hr Hs Hp. split; [by eapply reachable_valid|].
  destruct (istep_frame _ _ _ _ _ Hs) as [Ha Hf].
  destruct (decide ((b, s) = (a, r))) as [[= -> ->]|Hne].
  - destruct (istep_at _ _ _ _ _ Hs) as [Heq|[(Hn & _)|[_ Hn]]].
    + left. congruence.
    + congruence.
    + by right.
  - left. by rewrite Hf.
Qed.

(** A policy in use stays live.  After an accepted [install] or
    [enforce], the stored program has at least 29 days of ledgers left, on a
    network whose maximum entry lifetime exceeds 30 days. *)
Theorem interpreter_keeps_live e st a r st' x :
  (EXTEND_AMOUNT < max_ttl e)%N → istep e st a r st' → st' !! (a, r) = Some x →
  (sequence e + TTL_THRESHOLD ≤ live_until x)%N.
Proof.
  intros Hmax Hs Hx.
  assert (∀ m, persistent_extend_ttl (E:=Error) e m (a, r) TTL_THRESHOLD EXTEND_AMOUNT
                 = Ok st' → (sequence e + TTL_THRESHOLD ≤ live_until x)%N) as Hext.
  { unfold persistent_extend_ttl. intros m. destruct (m !! (a, r)); [|done].
    intros [= <-]. rewrite lookup_insert_eq in Hx. injection Hx as <-.
    by apply extended_enough. }
  destruct Hs as [ctx signers rule a st' Hs|params rule a st' Hs|rule a st' Hs].
  - apply enforce_Ok in Hs as (_ & _ & params & _ & Hm & _). eauto.
  - unfold install in Hs. inv_result. eauto.
  - apply uninstall_Ok in Hs as (_ & _ & ->). by rewrite lookup_delete_eq in Hx.
Qed.
End interpreter.

(** ** Witnesses *)

Module InterpreterDemo.
#[local] Existing Instance DemoHost.
Import ProgramDemo.

Definition demo_rule : ContextRule := {|
  rule_id := 4; context_type := ContextRuleType_CallContract "CREG"%string;
  rule_signers := []; rule_valid_until := None;
  rule_policies := []; rule_policy_ids := [] |}.
Definition demo_params : InstallParams :=
  {| program := demo_program; doc_hash := "h" |}.
Definition demo_ctx : Context := context (demo_inputs (DVString "y")).

(** The state after installing [demo_params] for account [CACC]. *)
Definition demo_state : gmap (string * N) (entry InstallParams) :=
  match install demo_env ∅ demo_params demo_rule "CACC"%string with
  | Ok st => st | _ => ∅ end.

Lemma demo_install : istep demo_env ∅ "CACC"%string 4 demo_state.
Proof. apply (step_install demo_env ∅ demo_params demo_rule). reflexivity. Qed.

Lemma demo_reachable : reachable demo_state.
Proof. eapply reachable_step; [apply reachable_init|apply demo_install]. Qed.

Lemma enforce_authorizes_iff_witness :
  ∃ params f, get_program demo_state "CACC"%string 4 = Some params ∧
    wf_formula f ∧ flatten f = ops (program params) ∧
    denote (leaf_verdict demo_env {| context := demo_ctx; signer_count := 1;
                                     self_addr := "CACC"%string |}) f = VTrue.
Proof.
  apply (enforce_authorizes_iff demo_env demo_state demo_ctx
           [Signer_Delegated (H:=DemoHost) "GA"%string] demo_rule "CACC"%string demo_reachable).
  eexists. reflexivity.
Defined.

Lemma interpreter_tenant_isolation_witness :
  get_program demo_state "COTHER"%string 4 = get_program ∅ "COTHER"%string 4.
Proof.
  apply (interpreter_tenant_isolation demo_env ∅ "CACC"%string 4 demo_state demo_install).
  discriminate.
Defined.

Lemma interpreter_never_swaps_witness :
  get_program (delete ("CACC"%string, 4%N) demo_state) "CACC"%string 4 = Some demo_params ∨
  get_program (delete ("CACC"%string, 4%N) demo_state) "CACC"%string 4 = None ∧
    ("CACC"%string, 4%N) = ("CACC"%string, 4%N) ∧ authorized demo_env "CACC"%string = true.
Proof.
  apply (interpreter_never_swaps demo_env demo_state "CACC"%string 4 _ "CACC"%string 4
           demo_params demo_reachable).
  - apply (step_uninstall demo_env demo_state demo_rule). reflexivity.
  - reflexivity.
Defined.

Lemma interpreter_keeps_live_witness :
  ∃ x, demo_state !! ("CACC"%string, 4%N) = Some x ∧ (100 + TTL_THRESHOLD ≤ live_until x)%N.
Proof.
  eexists. split; [reflexivity|].
  apply (interpreter_keeps_live demo_env ∅ "CACC"%string 4 demo_state);
    [reflexivity|apply demo_install|reflexivity].
Defined.
End InterpreterDemo.
