(* ===== verification/Doc.v ===== *)
(** * perch-ir: the policy document types

    Models [crates/perch-ir/src/doc.rs].  The types are plain data; numbers
    are Rust [u32]s, strings are Rust [String]s.  That a value lies in those
    ranges is the predicate [cv_ok] of the canonical form, see [Canon]. *)

From S2P Require Import Prelude.

Inductive SignerMethod : Type :=
| External (verifier key : string)
| Delegated (address : string).

Record SignerDecl : Type := {
  signer_id : string;
  signer_method : SignerMethod;
}.

Inductive Scope : Type :=
| Scope_Contract (address : string)
| Scope_SelfAdmin.

(** [Principals::All], [Threshold] and [SelfAuthenticating] with the fields of
    their payload structs. *)
Inductive Principals : Type :=
| Principals_All (signers : list string)
| Principals_Threshold (signers : list string) (m : N)
| Principals_SelfAuthenticating (policy install_param_hex ack : string).

Inductive ArgPred : Type :=
| IsSelf
| AddressEq (address : string)
| StringIn (values : list string)
| StringPrefix (prefix : string)
| U32Eq (value : N).

Record ArgConstraint : Type := {
  arg_index : N;
  arg_pred : ArgPred;
}.

Record CapConstraint : Type := {
  cap_token : option string;
  cap_limit : string;
  cap_period_ledgers : N;
}.

Record Rule : Type := {
  rule_name : string;
  rule_scope : Scope;
  rule_principals : Principals;
  rule_functions : option (list string);
  rule_args : option (list ArgConstraint);
  rule_not_after_ledger : option N;
  rule_cap : option CapConstraint;
}.

Inductive RecoveryProfile : Type := Loss | Protected.

Record GuardianSet : Type := {
  guardians : list string;
  quorum : N;
}.

Record ZkFactor : Type := {
  adapter : string;
  circuit_id : string;
  pool : string;
  enrollment_id : string;
  commitment : string;
}.

Inductive RecoveryMode : Type :=
| GuardianOnly (g : GuardianSet)
| ZkOnly (z : ZkFactor)
| Combined (g : GuardianSet) (z : ZkFactor).

(** [BaselineCommitment { doc_hash }]. *)
Record BaselineCommitment : Type := {
  baseline_doc_hash : string;
}.

Record RecoveryConfig : Type := {
  profile : RecoveryProfile;
  mode : RecoveryMode;
  controller : string;
  baseline : option BaselineCommitment;
  replaceable : list string;
  delay_ledgers : N;
  expiry_ledgers : N;
  max_cancels : N;
}.

Record PolicyDoc : Type := {
  doc_version : N;
  doc_network : option string;
  doc_signers : list SignerDecl;
  doc_rules : list Rule;
  doc_recovery : option RecoveryConfig;
}.

Global Instance SignerMethod_eq_dec : EqDecision SignerMethod.
Proof. solve_decision. Defined.
Global Instance SignerDecl_eq_dec : EqDecision SignerDecl.
Proof. solve_decision. Defined.
Global Instance Scope_eq_dec : EqDecision Scope.
Proof. solve_decision. Defined.
Global Instance Principals_eq_dec : EqDecision Principals.
Proof. solve_decision. Defined.
Global Instance ArgPred_eq_dec : EqDecision ArgPred.
Proof. solve_decision. Defined.
Global Instance ArgConstraint_eq_dec : EqDecision ArgConstraint.
Proof. solve_decision. Defined.
Global Instance CapConstraint_eq_dec : EqDecision CapConstraint.
Proof. solve_decision. Defined.
Global Instance Rule_eq_dec : EqDecision Rule.
Proof. solve_decision. Defined.
Global Instance RecoveryProfile_eq_dec : EqDecision RecoveryProfile.
Proof. solve_decision. Defined.
Global Instance GuardianSet_eq_dec : EqDecision GuardianSet.
Proof. solve_decision. Defined.
Global Instance ZkFactor_eq_dec : EqDecision ZkFactor.
Proof. solve_decision. Defined.
Global Instance RecoveryMode_eq_dec : EqDecision RecoveryMode.
Proof. solve_decision. Defined.
Global Instance BaselineCommitment_eq_dec : EqDecision BaselineCommitment.
Proof. solve_decision. Defined.
Global Instance RecoveryConfig_eq_dec : EqDecision RecoveryConfig.
Proof. solve_decision. Defined.
Global Instance PolicyDoc_eq_dec : EqDecision PolicyDoc.
Proof. solve_decision. Defined.
