(* ===== verification/Canon.v ===== *)
(** * perch-ir: the canonical form of a policy document

    Models [crates/perch-ir/src/canon.rs]: the canonical value tree [Cv], the
    traversal of each document type into it, and the RFC 8785 text a tree is
    written as.  A document's identity is the SHA-256 of that text, so the
    facts that matter, proved in [RoundTrip], are that the text determines
    the document. *)

From S2P Require Import Prelude Doc.
#[local] Open Scope string_scope.

Definition CANON_VERSION : N := 1.

Inductive Cv : Type :=
| Str (s : string)
| U32 (n : N)
| Arr (items : list Cv)
| Obj (entries : list (string * Cv)).

(** ** Document to canonical value *)

Definition strs (l : list string) : Cv := Arr (map Str l).

(** [if let Some(x) = .. { o.push((k, ..)) }]. *)
Definition push_opt {A} (k : string) (f : A → Cv) (o : option A) : list (string * Cv) :=
  match o with Some x => [(k, f x)] | None => [] end.

Definition signer_to_cv (s : SignerDecl) : Cv :=
  match signer_method s with
  | External verifier key =>
      Obj [("id", Str (signer_id s)); ("verifier", Str verifier); ("key", Str key)]
  | Delegated address => Obj [("id", Str (signer_id s)); ("address", Str address)]
  end.

Definition scope_to_cv (scope : Scope) : Cv :=
  match scope with
  | Scope_Contract address => Obj [("type", Str "contract"); ("address", Str address)]
  | Scope_SelfAdmin => Obj [("type", Str "self-admin")]
  end.

Definition principals_to_cv (p : Principals) : Cv :=
  match p with
  | Principals_All signers => Obj [("type", Str "all"); ("signers", strs signers)]
  | Principals_Threshold signers m =>
      Obj [("type", Str "threshold"); ("signers", strs signers); ("m", U32 m)]
  | Principals_SelfAuthenticating policy install_param_hex ack =>
      Obj [("type", Str "self-authenticating"); ("policy", Str policy);
           ("install-param-hex", Str install_param_hex); ("ack", Str ack)]
  end.

Definition pred_to_cv (pred : ArgPred) : Cv :=
  match pred with
  | IsSelf => Obj [("type", Str "is-self")]
  | AddressEq address => Obj [("type", Str "address-eq"); ("address", Str address)]
  | StringIn values => Obj [("type", Str "string-in"); ("values", strs values)]
  | StringPrefix pfx => Obj [("type", Str "string-prefix"); ("prefix", Str pfx)]
  | U32Eq value => Obj [("type", Str "u32-eq"); ("value", U32 value)]
  end.

Definition arg_constraint_to_cv (a : ArgConstraint) : Cv :=
  Obj [("index", U32 (arg_index a)); ("pred", pred_to_cv (arg_pred a))].

Definition cap_to_cv (cap : CapConstraint) : Cv :=
  Obj (push_opt "token" Str (cap_token cap) ++
       [("limit", Str (cap_limit cap)); ("period-ledgers", U32 (cap_period_ledgers cap))]).

Definition rule_to_cv (r : Rule) : Cv :=
  Obj ([("name", Str (rule_name r)); ("scope", scope_to_cv (rule_scope r));
        ("principals", principals_to_cv (rule_principals r))] ++
       push_opt "functions" strs (rule_functions r) ++
       push_opt "args" (λ args, Arr (map arg_constraint_to_cv args)) (rule_args r) ++
       push_opt "not-after-ledger" U32 (rule_not_after_ledger r) ++
       push_opt "cap" cap_to_cv (rule_cap r)).

Definition push_guardian_fields (g : GuardianSet) : list (string * Cv) :=
  [("guardians", strs (guardians g)); ("quorum", U32 (quorum g))].

Definition push_zk_fields (z : ZkFactor) : list (string * Cv) :=
  [("adapter", Str (adapter z)); ("circuit-id", Str (circuit_id z));
   ("pool", Str (pool z)); ("enrollment-id", Str (enrollment_id z));
   ("commitment", Str (commitment z))].

Definition recovery_mode_to_cv (m : RecoveryMode) : Cv :=
  match m with
  | GuardianOnly g => Obj (("type", Str "guardian-only") :: push_guardian_fields g)
  | ZkOnly z => Obj (("type", Str "zk-only") :: push_zk_fields z)
  | Combined g z =>
      Obj (("type", Str "combined") :: push_guardian_fields g ++ push_zk_fields z)
  end.

Definition recovery_profile_str (p : RecoveryProfile) : string :=
  match p with Loss => "loss" | Protected => "protected" end.

Definition recovery_to_cv (r : RecoveryConfig) : Cv :=
  Obj ([("profile", Str (recovery_profile_str (profile r)));
        ("mode", recovery_mode_to_cv (mode r)); ("controller", Str (controller r))] ++
       push_opt "baseline" (λ b, Obj [("doc-hash", Str (baseline_doc_hash b))]) (baseline r) ++
       [("replaceable", strs (replaceable r)); ("delay-ledgers", U32 (delay_ledgers r));
        ("expiry-ledgers", U32 (expiry_ledgers r)); ("max-cancels", U32 (max_cancels r))]).

Definition doc_to_cv (doc : PolicyDoc) : Cv :=
  Obj ([("version", U32 (doc_version doc))] ++
       push_opt "network" Str (doc_network doc) ++
       [("signers", Arr (map signer_to_cv (doc_signers doc)));
        ("rules", Arr (map rule_to_cv (doc_rules doc)))] ++
       push_opt "recovery" recovery_to_cv (doc_recovery doc)).

(** ** Canonical value to bytes *)

(** [u32::to_string]: decimal digits, most significant first. *)
Definition digit (d : N) : ascii := ascii_of_N (48 + d).
Fixpoint dec_loop (fuel : nat) (n : N) (acc : string) : string :=
  match fuel with
  | O => acc
  | S fuel =>
      let acc := String (digit (n mod 10)) acc in
      if (n / 10 =? 0)%N then acc else dec_loop fuel (n / 10) acc
  end.
Definition u_to_string (n : N) : string := dec_loop (S (N.size_nat n)) n "".

Definition chr (n : N) : ascii := ascii_of_N n.
Definition hex_digit (n : N) : ascii :=
  if (n <? 10)%N then chr (48 + n) else chr (87 + n).

(** The escape of one byte.  Every byte of a multi-byte UTF-8 sequence is at
    least 0x80 and stands for itself, as its character does. *)
Definition escape (c : ascii) : string :=
  let b := N_of_ascii c in
  if (b =? 34)%N then String (chr 92) (String (chr 34) "")
  else if (b =? 92)%N then String (chr 92) (String (chr 92) "")
  else if (b =? 8)%N then String (chr 92) "b"
  else if (b =? 9)%N then String (chr 92) "t"
  else if (b =? 10)%N then String (chr 92) "n"
  else if (b =? 12)%N then String (chr 92) "f"
  else if (b =? 13)%N then String (chr 92) "r"
  else if (b <? 32)%N then
    String (chr 92) ("u00" +:+ String (hex_digit (N.land (N.shiftr b 4) 15))
                                 (String (hex_digit (N.land b 15)) ""))
  else String c "".

Fixpoint escape_all (s : string) : string :=
  match s with
  | EmptyString => ""
  | String c s => escape c +:+ escape_all s
  end.

Definition quote : ascii := chr 34.
Definition write_json_string (s : string) : string :=
  String quote (escape_all s +:+ String quote "").

(** The stable sort of members by key.  All keys are ASCII field names, whose
    UTF-16 order is their byte order. *)
Fixpoint insert_member {A} (x : string * A) (l : list (string * A)) : list (string * A) :=
  match l with
  | [] => [x]
  | y :: l => if String.leb x.1 y.1 then x :: y :: l else y :: insert_member x l
  end.
Definition sort_members {A} (l : list (string * A)) : list (string * A) :=
  foldr insert_member [] l.

(** Comma-separated items. *)
Fixpoint commas (l : list string) : string :=
  match l with
  | [] => ""
  | [x] => x
  | x :: l => x +:+ "," +:+ commas l
  end.

(** Sorting looks at the keys only, so the members can be sorted with their
    values already written. *)
Fixpoint write_value (value : Cv) : string :=
  match value with
  | Str s => write_json_string s
  | U32 u => u_to_string u
  | Arr items => "[" +:+ commas (map write_value items) +:+ "]"
  | Obj entries =>
      "{" +:+ commas (map (λ kv, write_json_string kv.1 +:+ ":" +:+ kv.2)
                (sort_members (map (λ kv, (kv.1, write_value kv.2)) entries))) +:+ "}"
  end.

Definition canonical_json (doc : PolicyDoc) : string := write_value (doc_to_cv doc).
Definition recovery_canonical_json (r : RecoveryConfig) : string :=
  write_value (recovery_to_cv r).
Definition RULE_HASH_DOMAIN : string := "perch/rule".
Definition rule_canonical_json (rule : Rule) : string := write_value (rule_to_cv rule).

(** The bytes that [doc_hash] and [rule_hash] digest; the digest itself is
    the [sha2] crate's or the host's. *)
Definition doc_hash (sha : bytes → bytes) (doc : PolicyDoc) : bytes :=
  sha (canonical_json doc).
Definition rule_hash (sha : bytes → bytes) (rule : Rule) : bytes :=
  sha (RULE_HASH_DOMAIN +:+ rule_canonical_json rule).

(** ** Rust ranges

    A document is a Rust value: its numbers are [u32]s and its strings valid
    UTF-8. *)

Definition cont (c : ascii) : bool := let b := N_of_ascii c in (128 <=? b)%N && (b <=? 191)%N.
Definition between (lo : N) (c : ascii) (hi : N) : bool :=
  let b := N_of_ascii c in (lo <=? b)%N && (b <=? hi)%N.
Fixpoint utf8_valid (s : string) : bool :=
  match s with
  | EmptyString => true
  | String a r =>
      if between 0 a 127 then utf8_valid r
      else match r with
      | EmptyString => false
      | String b r =>
          if between 194 a 223 && cont b then utf8_valid r
          else match r with
          | EmptyString => false
          | String c r =>
              if ((between 224 a 224 && between 160 b 191) ||
                  (between 225 a 236 && cont b) ||
                  (between 237 a 237 && between 128 b 159) ||
                  (between 238 a 239 && cont b)) && cont c then utf8_valid r
              else match r with
              | EmptyString => false
              | String d r =>
                  ((between 240 a 240 && between 144 b 191) ||
                   (between 241 a 243 && cont b) ||
                   (between 244 a 244 && between 128 b 143)) && cont c && cont d &&
                  utf8_valid r
              end
          end
      end
  end.

Fixpoint cv_ok (v : Cv) : bool :=
  match v with
  | Str s => utf8_valid s
  | U32 n => (n <=? U32_MAX)%N
  | Arr items => forallb cv_ok items
  | Obj entries => forallb (λ kv, cv_ok kv.2) entries
  end.

Fixpoint cv_depth (v : Cv) : nat :=
  match v with
  | Str _ | U32 _ => 0
  | Arr items => S (foldr (λ v d, Nat.max (cv_depth v) d) 0 items)
  | Obj entries => S (foldr (λ kv d, Nat.max (cv_depth kv.2) d) 0 entries)
  end.
