(* ===== verification/Text.v ===== *)
(** * Rust text helpers

    The [str] methods of Rust's standard library that several tools use:
    [lines] and [trim], on texts as UTF-8 bytes. *)

From S2P Require Import Prelude Canon.
#[local] Open Scope string_scope.
#[local] Open Scope list_scope.

(** [str::lines]: each line without its newline or carriage return and
    newline, a last line without a newline as it is. *)
Fixpoint strip_cr (s : string) : string :=
  match s with
  | EmptyString => ""
  | String c EmptyString => if Ascii.eqb c (chr 13) then "" else s
  | String c s => String c (strip_cr s)
  end.
Fixpoint lines_from (line s : string) : list string :=
  match s with
  | EmptyString => if String.eqb line "" then [] else [line]
  | String c s =>
      if Ascii.eqb c (chr 10) then strip_cr line :: lines_from "" s
      else lines_from (line +:+ String c "") s
  end.
Definition lines (s : string) : list string := lines_from "" s.

(** [str::trim]: the Unicode white space, as UTF-8. *)
Definition white_space : list (list N) :=
  [[9]; [10]; [11]; [12]; [13]; [32]; [194; 133]; [194; 160]; [225; 154; 128];
   [226; 128; 128]; [226; 128; 129]; [226; 128; 130]; [226; 128; 131]; [226; 128; 132];
   [226; 128; 133]; [226; 128; 134]; [226; 128; 135]; [226; 128; 136]; [226; 128; 137];
   [226; 128; 138]; [226; 128; 168]; [226; 128; 169]; [226; 128; 175]; [226; 129; 159];
   [227; 128; 128]]%N.
Fixpoint skip_any (seqs : list (list N)) (l : list N) : option (list N) :=
  match seqs with
  | [] => None
  | s :: seqs => if bool_decide (take (length s) l = s) then Some (drop (length s) l)
                 else skip_any seqs l
  end.
Fixpoint skip_all (fuel : nat) (seqs : list (list N)) (l : list N) : list N :=
  match fuel with
  | O => l
  | S fuel => match skip_any seqs l with Some l => skip_all fuel seqs l | None => l end
  end.
Definition trim (s : string) : string :=
  let l := map N_of_ascii (list_ascii_of_string s) in
  let l := skip_all (length l) white_space l in
  let l := skip_all (length l) (map (@rev N) white_space) (rev l) in
  string_of_list_ascii (map ascii_of_N (rev l)).

(** ** Texts of visible ASCII characters are their own trimming *)

Definition plain_code (n : N) : bool := (33 <=? n)%N && (n <=? 126)%N.

Lemma skip_any_None seqs n l :
  Forall (λ s, ∀ t, take (length s) (n :: t) ≠ s) seqs → skip_any seqs (n :: l) = None.
Proof.
  induction 1 as [|s seqs Hs _ IH]; [done|]. cbn [skip_any].
  by rewrite bool_decide_eq_false_2.
Qed.

Lemma skip_plain seqs n l :
  plain_code n = true → Forall (λ s, ∃ m r, s = m :: r ∧ plain_code m = false) seqs →
  skip_any seqs (n :: l) = None.
Proof.
  intros Hn Hs. apply skip_any_None. eapply Forall_impl; [exact Hs|].
  intros s (m & r & -> & Hm) t. simpl. intros [= -> _]. congruence.
Qed.

Lemma skip_all_plain fuel seqs l :
  forallb plain_code l = true → Forall (λ s, ∃ m r, s = m :: r ∧ plain_code m = false) seqs →
  skip_all fuel seqs l = l.
Proof.
  intros Hl Hs. destruct fuel as [|fuel]; [done|]. cbn [skip_all].
  assert (skip_any seqs l = None) as ->; [|done].
  destruct l as [|n l]; [|simpl in Hl; apply andb_true_iff in Hl as [Hn _]; by apply skip_plain].
  induction Hs as [|s seqs (m & r & -> & _) _ IH]; [done|]. cbn [skip_any].
  by rewrite bool_decide_eq_false_2.
Qed.

Lemma trim_plain s :
  forallb plain_code (map N_of_ascii (list_ascii_of_string s)) = true → trim s = s.
Proof.
  intros Hs. unfold trim. set (l := map N_of_ascii (list_ascii_of_string s)) in *.
  assert (Forall (λ q : list N, ∃ m r, q = m :: r ∧ plain_code m = false) white_space) as Hw.
  { repeat (constructor; [by eexists _, _|]). constructor. }
  assert (Forall (λ q : list N, ∃ m r, q = m :: r ∧ plain_code m = false)
    (map (@rev N) white_space)) as Hr.
  { repeat (constructor; [by eexists _, _|]). constructor. }
  rewrite (skip_all_plain (length l) white_space l Hs Hw), (skip_all_plain _ _ (rev l)); [|..|done].
  - rewrite rev_involutive. unfold l. rewrite map_map.
    rewrite (map_ext _ id) by (intros; apply ascii_N_embedding).
    rewrite map_id. apply string_of_list_ascii_of_string.
  - rewrite forallb_forall in *. intros x Hx. apply Hs. by apply in_rev.
Qed.
