(* ===== verification/Parse.v ===== *)
(** * perch-ir: fail-closed document parsing

    Models [crates/perch-ir/src/parse.rs].  The JSON lexer ([hifijson]) is
    third-party code: its value tree is the type [Value], the lexer itself is
    the field [exactly_one] of the class [JsonLexer].  Its one law is that of a
    JSON reader: the compact texts of RFC 8259 that the grammar [json] derives
    are read as their trees.  Everything after the lexer, the walk that turns a
    tree into a document or an error, is translated here. *)

From S2P Require Import Prelude Doc Canon.
#[local] Open Scope string_scope.

(** [hifijson::value::Value]: a number is its text and whether it is an
    integer; an object keeps every member in source order. *)
Inductive Value : Type :=
| Null
| Bool (b : bool)
| Number (digits : string) (is_int : bool)
| JString (s : string)
| Array (items : list Value)
| Object (members : list (string * Value)).

Definition MAX_DEPTH : nat := 64.

Inductive ParseError : Type :=
| Json (msg : string)
| UnsupportedVersion (v : N).

Abbreviation parsed := (result ParseError).
Abbreviation Members := (list (string * Value)).

Definition json_err {A} (msg : string) : parsed A := Err (Json msg).

(** The tree of a canonical text. *)
Fixpoint value_of (v : Cv) : Value :=
  match v with
  | Str s => JString s
  | U32 n => Number (u_to_string n) true
  | Arr items => Array (map value_of items)
  | Obj entries => Object (sort_members (map (λ kv, (kv.1, value_of kv.2)) entries))
  end.

(** ** JSON texts

    The part of RFC 8259 the law of the lexer speaks of: no white space
    between tokens, numbers without sign, fraction and exponent, [\u] escapes
    of ASCII characters.  [json d t v] derives the tree [v] from the text [t]
    with at most [d] nested arrays and objects. *)

Definition hex_value (c : ascii) : option N :=
  let n := N_of_ascii c in
  if between 48 c 57 then Some (n - 48)%N
  else if between 65 c 70 then Some (n - 55)%N
  else if between 97 c 102 then Some (n - 87)%N
  else None.

(** The escapes of one letter. *)
Definition short_escape (c : ascii) : option ascii :=
  match N_of_ascii c with
  | 34 => Some (chr 34) | 92 => Some (chr 92) | 47 => Some (chr 47)
  | 98 => Some (chr 8) | 102 => Some (chr 12) | 110 => Some (chr 10)
  | 114 => Some (chr 13) | 116 => Some (chr 9)
  | _ => None
  end%N.

(** The characters between the quotes, and the string they stand for. *)
Inductive json_chars : string → string → Prop :=
| chars_nil : json_chars "" ""
| chars_plain c t s :
    (32 ≤ N_of_ascii c)%N → c ≠ chr 34 → c ≠ chr 92 → json_chars t s →
    json_chars (String c t) (String c s)
| chars_escape e c t s :
    short_escape e = Some c → json_chars t s →
    json_chars (String (chr 92) (String e t)) (String c s)
| chars_unicode h l x y t s :
    hex_value h = Some x → hex_value l = Some y → (x < 8)%N → json_chars t s →
    json_chars (String (chr 92) ("u00" +:+ String h (String l t)))
      (String (chr (16 * x + y)) s).

Definition json_quoted (t : string) : string := String (chr 34) (t +:+ String (chr 34) "").

Fixpoint decimal (s : string) : bool :=
  match s with EmptyString => true | String c s => between 48 c 57 && decimal s end.

(** An integer: [0], or digits that start with another. *)
Definition json_integer (n : string) : Prop :=
  n ≠ "" ∧ decimal n = true ∧ ∀ t, n = String "0" t → t = "".

Inductive json : nat → string → Value → Prop :=
| json_null d : json d "null" Null
| json_true d : json d "true" (Bool true)
| json_false d : json d "false" (Bool false)
| json_int d n : json_integer n → json d n (Number n true)
| json_str d t s : json_chars t s → json d (json_quoted t) (JString s)
| json_nil d : json (S d) "[]" (Array [])
| json_array d t l : json_items d t l → json (S d) ("[" +:+ t +:+ "]") (Array l)
| json_empty d : json (S d) "{}" (Object [])
| json_object d t ms : json_members d t ms → json (S d) ("{" +:+ t +:+ "}") (Object ms)
with json_items : nat → string → list Value → Prop :=
| items_last d t v : json d t v → json_items d t [v]
| items_more d t v t' l :
    json d t v → json_items d t' l → json_items d (t +:+ "," +:+ t') (v :: l)
with json_members : nat → string → Members → Prop :=
| members_last d k key t v :
    json_chars k key → json d t v →
    json_members d (json_quoted k +:+ ":" +:+ t) [(key, v)]
| members_more d k key t v t' ms :
    json_chars k key → json d t v → json_members d t' ms →
    json_members d (json_quoted k +:+ ":" +:+ t +:+ "," +:+ t') ((key, v) :: ms).

Scheme json_min := Minimality for json Sort Prop
with json_items_min := Minimality for json_items Sort Prop
with json_members_min := Minimality for json_members Sort Prop.
Combined Scheme json_mutual from json_min, json_items_min, json_members_min.

(** The strings of a tree are valid UTF-8. *)
Fixpoint value_ok (v : Value) : bool :=
  match v with
  | JString s => utf8_valid s
  | Array items => forallb value_ok items
  | Object members => forallb (λ kv, value_ok kv.2) members
  | _ => true
  end.

(** [exactly_one] on a whole text, [None] where it reports an error.  It is a
    JSON reader: it reads the texts above, when they and their strings are
    valid UTF-8 as every [&str] is. *)
Class JsonLexer : Type := {
  exactly_one : nat → string → option Value;
  exactly_one_json depth text v :
    json depth text v → utf8_valid text = true → value_ok v = true →
    exactly_one depth text = Some v;
}.

(** [str::parse::<u32>] and [str::parse::<u64>]: an optional [+], then digits
    with an overflow check at each. *)
Definition digit_value (c : ascii) : option N :=
  let b := N_of_ascii c in
  if (48 <=? b)%N && (b <=? 57)%N then Some (b - 48)%N else None.
Fixpoint parse_digits (bound acc : N) (s : string) : option N :=
  match s with
  | EmptyString => Some acc
  | String c s =>
      match digit_value c with
      | None => None
      | Some d =>
          if (acc * 10 + d <=? bound)%N then parse_digits bound (acc * 10 + d) s
          else None
      end
  end.
Definition parse_uint (bound : N) (s : string) : option N :=
  match s with
  | EmptyString => None
  | String c r =>
      if Ascii.eqb c "+" then
        match r with EmptyString => None | _ => parse_digits bound 0 r end
      else parse_digits bound 0 s
  end.

(** ** Value-tree helpers *)

Fixpoint field_loop (obj : Members) (name : string) (found : option Value)
  : parsed (option Value) :=
  match obj with
  | [] => Ok found
  | (k, v) :: obj =>
      if String.eqb k name then
        match found with
        | Some _ => json_err ("duplicate field `" +:+ name +:+ "`")
        | None => field_loop obj name (Some v)
        end
      else field_loop obj name found
  end.
Definition field (obj : Members) (name : string) : parsed (option Value) :=
  field_loop obj name None.

Definition req_field (obj : Members) (name : string) : parsed Value :=
  let* o := field obj name in
  ok_or o (Json ("missing field `" +:+ name +:+ "`")).

Definition opt_field (obj : Members) (name : string) : parsed (option Value) :=
  let* o := field obj name in
  match o with
  | None => Ok None
  | Some Null => json_err ("field `" +:+ name +:+ "` must not be null")
  | Some v => Ok (Some v)
  end.

Fixpoint deny_unknown (obj : Members) (known : list string) : parsed unit :=
  match obj with
  | [] => Ok tt
  | (k, _) :: obj =>
      if contains known k then deny_unknown obj known
      else json_err ("unknown field `" +:+ k +:+ "`")
  end.

Definition as_object (v : Value) (ctx : string) : parsed Members :=
  match v with Object o => Ok o | _ => json_err ("expected object for " +:+ ctx) end.
Definition as_array (v : Value) (ctx : string) : parsed (list Value) :=
  match v with Array a => Ok a | _ => json_err ("expected array for " +:+ ctx) end.
Definition as_str (ctx : string) (v : Value) : parsed string :=
  match v with JString s => Ok s | _ => json_err ("expected string for " +:+ ctx) end.
Definition as_u32 (ctx : string) (v : Value) : parsed N :=
  match v with
  | Number n true => ok_or (parse_uint U32_MAX n) (Json ("expected u32 for " +:+ ctx))
  | _ => json_err ("expected u32 for " +:+ ctx)
  end.

Definition tag (obj : Members) (ctx : string) : parsed string :=
  let* v := req_field obj "type" in as_str ctx v.

(** [match opt_field(..)? { Some(v) => Some(f(v)?), None => None }]. *)
Definition opt_with {A} (f : Value → parsed A) (obj : Members) (name : string)
  : parsed (option A) :=
  let* o := opt_field obj name in
  match o with
  | Some v => let* x := f v in Ok (Some x)
  | None => Ok None
  end.

(** [as_array(v, ctx)?.iter().map(f).collect()]. *)
Definition array_of {A} (f : Value → parsed A) (ctx : string) (v : Value)
  : parsed (list A) :=
  let* l := as_array v ctx in mapM_result f l.

(** ** Document walk *)

Definition scope_from_value (v : Value) : parsed Scope :=
  let* obj := as_object v "scope" in
  let* t := tag obj "scope type" in
  if String.eqb t "contract" then
    deny_unknown obj ["type"; "address"] ;;;
    let* a := req_field obj "address" in
    let* address := as_str "contract address" a in
    Ok (Scope_Contract address)
  else if String.eqb t "self-admin" then
    deny_unknown obj ["type"] ;;;
    Ok Scope_SelfAdmin
  else json_err ("unknown variant `" +:+ t +:+ "` for scope type").

Definition principals_from_value (v : Value) : parsed Principals :=
  let* obj := as_object v "principals" in
  let* t := tag obj "principals type" in
  if String.eqb t "all" then
    deny_unknown obj ["type"; "signers"] ;;;
    let* s := req_field obj "signers" in
    let* signers := array_of (as_str "signer id") "signers" s in
    Ok (Principals_All signers)
  else if String.eqb t "threshold" then
    deny_unknown obj ["type"; "signers"; "m"] ;;;
    let* s := req_field obj "signers" in
    let* signers := array_of (as_str "signer id") "signers" s in
    let* m := req_field obj "m" in
    let* m := as_u32 "threshold m" m in
    Ok (Principals_Threshold signers m)
  else if String.eqb t "self-authenticating" then
    deny_unknown obj ["type"; "policy"; "install-param-hex"; "ack"] ;;;
    let* p := req_field obj "policy" in
    let* policy := as_str "policy" p in
    let* i := req_field obj "install-param-hex" in
    let* install_param_hex := as_str "install-param-hex" i in
    let* a := req_field obj "ack" in
    let* ack := as_str "ack" a in
    Ok (Principals_SelfAuthenticating policy install_param_hex ack)
  else json_err ("unknown variant `" +:+ t +:+ "` for principals type").

Definition pred_from_value (v : Value) : parsed ArgPred :=
  let* obj := as_object v "predicate" in
  let* t := tag obj "predicate type" in
  if String.eqb t "is-self" then
    deny_unknown obj ["type"] ;;;
    Ok IsSelf
  else if String.eqb t "address-eq" then
    deny_unknown obj ["type"; "address"] ;;;
    let* a := req_field obj "address" in
    let* address := as_str "address" a in
    Ok (AddressEq address)
  else if String.eqb t "string-in" then
    deny_unknown obj ["type"; "values"] ;;;
    let* vs := req_field obj "values" in
    let* values := array_of (as_str "value") "values" vs in
    Ok (StringIn values)
  else if String.eqb t "string-prefix" then
    deny_unknown obj ["type"; "prefix"] ;;;
    let* p := req_field obj "prefix" in
    let* pfx := as_str "prefix" p in
    Ok (StringPrefix pfx)
  else if String.eqb t "u32-eq" then
    deny_unknown obj ["type"; "value"] ;;;
    let* x := req_field obj "value" in
    let* value := as_u32 "value" x in
    Ok (U32Eq value)
  else json_err ("unknown variant `" +:+ t +:+ "` for predicate type").

Definition arg_constraint_from_value (v : Value) : parsed ArgConstraint :=
  let* obj := as_object v "arg constraint" in
  deny_unknown obj ["index"; "pred"] ;;;
  let* i := req_field obj "index" in
  let* index := as_u32 "arg index" i in
  let* p := req_field obj "pred" in
  let* pred := pred_from_value p in
  Ok {| arg_index := index; arg_pred := pred |}.

Definition cap_from_value (v : Value) : parsed CapConstraint :=
  let* obj := as_object v "cap" in
  deny_unknown obj ["token"; "limit"; "period-ledgers"] ;;;
  let* token := opt_with (as_str "cap token") obj "token" in
  let* l := req_field obj "limit" in
  let* limit := as_str "cap limit" l in
  let* p := req_field obj "period-ledgers" in
  let* period_ledgers := as_u32 "period-ledgers" p in
  Ok {| cap_token := token; cap_limit := limit; cap_period_ledgers := period_ledgers |}.

Definition signer_from_value (v : Value) : parsed SignerDecl :=
  let* obj := as_object v "signer" in
  let* addr := field obj "address" in
  let* method :=
    match addr with
    | Some _ =>
        deny_unknown obj ["id"; "address"] ;;;
        let* a := req_field obj "address" in
        let* address := as_str "address" a in
        Ok (Delegated address)
    | None =>
        deny_unknown obj ["id"; "verifier"; "key"] ;;;
        let* v := req_field obj "verifier" in
        let* verifier := as_str "verifier" v in
        let* k := req_field obj "key" in
        let* key := as_str "key" k in
        Ok (External verifier key)
    end in
  let* i := req_field obj "id" in
  let* id := as_str "signer id" i in
  Ok {| signer_id := id; signer_method := method |}.

Definition rule_from_value (v : Value) : parsed Rule :=
  let* obj := as_object v "rule" in
  deny_unknown obj ["name"; "scope"; "principals"; "functions"; "args";
                    "not-after-ledger"; "cap"] ;;;
  let* n := req_field obj "name" in
  let* name := as_str "rule name" n in
  let* s := req_field obj "scope" in
  let* scope := scope_from_value s in
  let* p := req_field obj "principals" in
  let* principals := principals_from_value p in
  let* functions := opt_with (array_of (as_str "function") "functions") obj "functions" in
  let* args := opt_with (array_of arg_constraint_from_value "args") obj "args" in
  let* not_after_ledger := opt_with (as_u32 "not-after-ledger") obj "not-after-ledger" in
  let* cap := opt_with cap_from_value obj "cap" in
  Ok {| rule_name := name; rule_scope := scope; rule_principals := principals;
        rule_functions := functions; rule_args := args;
        rule_not_after_ledger := not_after_ledger; rule_cap := cap |}.

Definition recovery_profile_from_value (v : Value) : parsed RecoveryProfile :=
  let* s := as_str "recovery profile" v in
  if String.eqb s "loss" then Ok Loss
  else if String.eqb s "protected" then Ok Protected
  else json_err ("unknown value `" +:+ s +:+ "` for recovery profile").

Definition guardian_set_from_fields (obj : Members) : parsed GuardianSet :=
  let* g := req_field obj "guardians" in
  let* gs := array_of (as_str "guardian address") "guardians" g in
  let* q := req_field obj "quorum" in
  let* quorum := as_u32 "guardian quorum" q in
  Ok {| guardians := gs; quorum := quorum |}.

Definition zk_factor_from_fields (obj : Members) : parsed ZkFactor :=
  let* a := req_field obj "adapter" in
  let* adapter := as_str "zk adapter" a in
  let* c := req_field obj "circuit-id" in
  let* circuit_id := as_str "zk circuit-id" c in
  let* p := req_field obj "pool" in
  let* pool := as_str "zk pool" p in
  let* i := req_field obj "enrollment-id" in
  let* enrollment_id := as_str "zk enrollment-id" i in
  let* m := req_field obj "commitment" in
  let* commitment := as_str "zk commitment" m in
  Ok {| adapter := adapter; circuit_id := circuit_id; pool := pool;
        enrollment_id := enrollment_id; commitment := commitment |}.

Definition recovery_mode_from_value (v : Value) : parsed RecoveryMode :=
  let* obj := as_object v "recovery mode" in
  let* t := tag obj "recovery mode type" in
  if String.eqb t "guardian-only" then
    deny_unknown obj ["type"; "guardians"; "quorum"] ;;;
    let* g := guardian_set_from_fields obj in
    Ok (GuardianOnly g)
  else if String.eqb t "zk-only" then
    deny_unknown obj ["type"; "adapter"; "circuit-id"; "pool"; "enrollment-id";
                      "commitment"] ;;;
    let* z := zk_factor_from_fields obj in
    Ok (ZkOnly z)
  else if String.eqb t "combined" then
    deny_unknown obj ["type"; "guardians"; "quorum"; "adapter"; "circuit-id"; "pool";
                      "enrollment-id"; "commitment"] ;;;
    let* g := guardian_set_from_fields obj in
    let* z := zk_factor_from_fields obj in
    Ok (Combined g z)
  else json_err ("unknown variant `" +:+ t +:+ "` for recovery mode type").

Definition baseline_commitment_from_value (v : Value) : parsed BaselineCommitment :=
  let* obj := as_object v "recovery baseline" in
  deny_unknown obj ["doc-hash"] ;;;
  let* h := req_field obj "doc-hash" in
  let* doc_hash := as_str "baseline doc-hash" h in
  Ok {| baseline_doc_hash := doc_hash |}.

Definition recovery_from_value (v : Value) : parsed RecoveryConfig :=
  let* obj := as_object v "recovery" in
  deny_unknown obj ["profile"; "mode"; "controller"; "baseline"; "replaceable";
                    "delay-ledgers"; "expiry-ledgers"; "max-cancels"] ;;;
  let* p := req_field obj "profile" in
  let* profile := recovery_profile_from_value p in
  let* m := req_field obj "mode" in
  let* mode := recovery_mode_from_value m in
  let* c := req_field obj "controller" in
  let* controller := as_str "recovery controller" c in
  let* baseline := opt_with baseline_commitment_from_value obj "baseline" in
  let* r := req_field obj "replaceable" in
  let* replaceable := array_of (as_str "replaceable signer id") "recovery replaceable" r in
  let* d := req_field obj "delay-ledgers" in
  let* delay_ledgers := as_u32 "recovery delay-ledgers" d in
  let* x := req_field obj "expiry-ledgers" in
  let* expiry_ledgers := as_u32 "recovery expiry-ledgers" x in
  let* mc := req_field obj "max-cancels" in
  let* max_cancels := as_u32 "recovery max-cancels" mc in
  Ok {| profile := profile; mode := mode; controller := controller; baseline := baseline;
        replaceable := replaceable; delay_ledgers := delay_ledgers;
        expiry_ledgers := expiry_ledgers; max_cancels := max_cancels |}.

Definition doc_from_value (v : Value) : parsed PolicyDoc :=
  let* obj := as_object v "document" in
  deny_unknown obj ["version"; "network"; "signers"; "rules"; "recovery"] ;;;
  let* ver := req_field obj "version" in
  let* version := as_u32 "version" ver in
  let* network := opt_with (as_str "network") obj "network" in
  let* s := req_field obj "signers" in
  let* signers := array_of signer_from_value "signers" s in
  let* r := req_field obj "rules" in
  let* rules := array_of rule_from_value "rules" r in
  let* recovery := opt_with recovery_from_value obj "recovery" in
  Ok {| doc_version := version; doc_network := network; doc_signers := signers;
        doc_rules := rules; doc_recovery := recovery |}.

(** The early version check: the first integer [version] that parses as a
    [u64] other than 1. *)
Fixpoint version_check (entries : Members) : parsed unit :=
  match entries with
  | [] => Ok tt
  | (k, v) :: entries =>
      let bad :=
        if String.eqb k "version" then
          match v with
          | Number n true =>
              match parse_uint U64_MAX n with
              | Some ver => if (ver =? 1)%N then None else Some ver
              | None => None
              end
          | _ => None
          end
        else None in
      match bad with
      | Some ver => Err (UnsupportedVersion ver)
      | None => version_check entries
      end
  end.

(** [from_json] once the lexer has produced a value. *)
Definition from_value (value : Value) : parsed PolicyDoc :=
  match value with
  | Object entries => version_check entries
  | _ => Ok tt
  end ;;;
  doc_from_value value.

Definition from_json `{JsonLexer} (input : string) : parsed PolicyDoc :=
  match exactly_one MAX_DEPTH input with
  | Some value => from_value value
  | None => json_err "invalid JSON"
  end.
