(* ===== verification/ParseFacts.v ===== *)
(** * The parser is the inverse of the canonicalizer

    [same v c] says that a JSON tree [v] and a canonical value [c] hold the
    same data: members in any order, numbers in any spelling that parses to
    the same [u32], nothing else.  Each [T_from_value] of [Parse] accepts a
    tree [v] with result [x] exactly when [same v (T_to_cv x)]: that is the
    class [Codec], whose instances are proved bottom-up, one per type. *)

From S2P Require Import Prelude Doc Canon Parse.
#[local] Open Scope string_scope.
#[local] Open Scope list_scope.

Inductive same : Value → Cv → Prop :=
| same_str s : same (JString s) (Str s)
| same_num d n : parse_uint U32_MAX d = Some n → same (Number d true) (U32 n)
| same_arr vs cs : Forall2 same vs cs → same (Array vs) (Arr cs)
| same_obj ms ms' es :
    ms ≡ₚ ms' → Forall2 (λ m e, m.1 = e.1 ∧ same m.2 e.2) ms' es →
    same (Object ms) (Obj es).

Class Codec {A} (f : Value → parsed A) (g : A → Cv) : Prop :=
  codec v x : f v = Ok x ↔ same v (g x).

(** ** Members *)

Lemma field_loop_found ms k v o :
  field_loop ms k (Some v) = Ok o ↔ o = Some v ∧ k ∉ ms.*1.
Proof.
  induction ms as [|[j w] ms IH]; simpl.
  - split; [intros [= <-]; split; [done|set_solver]|]. by intros [-> _].
  - destruct (String.eqb_spec j k) as [->|Hne].
    + split; [done|]. set_solver.
    + rewrite IH. set_solver.
Qed.

Lemma field_None ms k : field ms k = Ok None ↔ k ∉ ms.*1.
Proof.
  unfold field. induction ms as [|[j w] ms IH]; simpl; [set_solver|].
  destruct (String.eqb_spec j k) as [->|Hne].
  - rewrite field_loop_found. set_solver.
  - rewrite IH. set_solver.
Qed.

Lemma field_Some ms k v :
  field ms k = Ok (Some v) ↔
  ∃ a b, ms = a ++ (k, v) :: b ∧ k ∉ a.*1 ∧ k ∉ b.*1.
Proof.
  unfold field. induction ms as [|[j w] ms IH]; simpl.
  - split; [done|]. intros ([|] & ? & ? & _); done.
  - destruct (String.eqb_spec j k) as [->|Hne].
    + rewrite field_loop_found. split.
      * intros [[= ->] Hk]. exists [], ms. set_solver.
      * intros ([|[j' w'] a] & b & Heq & Ha & Hb); simplify_eq/=; set_solver.
    + rewrite IH. split.
      * intros (a & b & -> & Ha & Hb). exists ((j, w) :: a), b. set_solver.
      * intros ([|[j' w'] a] & b & Heq & Ha & Hb); simplify_eq/=.
        exists a, b. set_solver.
Qed.

Lemma field_remove a k v b j :
  j ≠ k → field (a ++ (k, v) :: b) j = field (a ++ b) j.
Proof.
  unfold field. intros Hne. generalize (@None Value).
  induction a as [|[i w] a IH]; intros o; simpl.
  - by destruct (String.eqb_spec k j); subst.
  - destruct (String.eqb i j); [destruct o|]; done.
Qed.

Lemma field_NoDup ms k v :
  NoDup (ms.*1) → (k, v) ∈ ms → field ms k = Ok (Some v).
Proof.
  intros Hnd (a & b & ->)%list_elem_of_split. apply field_Some. exists a, b.
  rewrite fmap_app in Hnd. simpl in Hnd.
  apply NoDup_app in Hnd as (_ & Ha & Hb). apply NoDup_cons in Hb as [Hb _].
  set_solver.
Qed.

Lemma deny_unknown_Ok ms known u :
  deny_unknown ms known = Ok u ↔ ∀ k, k ∈ ms.*1 → k ∈ known.
Proof.
  destruct u. induction ms as [|[j w] ms IH]; simpl; [set_solver|].
  destruct (contains known j) eqn:Hc.
  - apply contains_true in Hc. rewrite IH. set_solver.
  - apply contains_false in Hc. set_solver.
Qed.

(** ** Objects by their fields *)

(** What the parser learns of field [k]: absent, or a value with the data of
    the canonical one. *)
Definition entry (ms : Members) (k : string) (oc : option Cv) : Prop :=
  ∃ o, field ms k = Ok o ∧
    match o, oc with
    | Some v, Some c => same v c
    | None, None => True
    | _, _ => False
    end.

(** An object's fields in the order they are pushed, optional ones included. *)
Definition present (fs : list (string * option Cv)) : list (string * Cv) :=
  omap (λ f, match f.2 with Some c => Some (f.1, c) | None => None end) fs.

Lemma elem_of_present fs k c : (k, c) ∈ present fs ↔ (k, Some c) ∈ fs.
Proof.
  unfold present. rewrite list_elem_of_omap. split.
  - intros ([j [d|]] & Hin & Heq); naive_solver.
  - intros Hin. by exists (k, Some c).
Qed.

Lemma NoDup_present fs : NoDup (fs.*1) → NoDup ((present fs).*1).
Proof.
  induction fs as [|[k [c|]] fs IH]; simpl; rewrite ?NoDup_cons; [constructor|..].
  - intros [Hk Hnd]. split; [|auto]. intros ([j d] & Hj & Hin)%list_elem_of_fmap.
    simpl in *. subst. apply elem_of_present in Hin.
    apply Hk, list_elem_of_fmap. by exists (j, Some d).
  - intros [_ Hnd]. auto.
Qed.

Lemma same_members_keys ms es :
  Forall2 (λ m e : string * _, m.1 = e.1 ∧ same m.2 e.2) ms es → ms.*1 = es.*1.
Proof. induction 1; simpl; [done|]. f_equal; naive_solver. Qed.

Lemma same_members_elem ms es k c :
  Forall2 (λ m e : string * _, m.1 = e.1 ∧ same m.2 e.2) ms es → (k, c) ∈ es →
  ∃ v, (k, v) ∈ ms ∧ same v c.
Proof.
  induction 1 as [|[j v] [i d] ms es [? ?] _ IH]; simpl in *; [set_solver|].
  intros [Heq|Hin]%elem_of_cons; [|destruct (IH Hin) as (w & ? & ?); set_solver].
  simplify_eq. exists v. set_solver.
Qed.

Lemma same_object_fields ms fs :
  NoDup (fs.*1) → same (Object ms) (Obj (present fs)) →
  (∀ k, k ∈ ms.*1 → k ∈ fs.*1) ∧ Forall (λ f, entry ms f.1 f.2) fs.
Proof.
  intros Hnd Hs. inversion Hs as [| | |? ms' ? Hp Hf]; subst.
  pose proof (same_members_keys _ _ Hf) as Hkeys.
  assert (NoDup (ms.*1)) as Hms.
  { rewrite Hp, Hkeys. by apply NoDup_present. }
  split.
  - intros k. rewrite Hp, Hkeys. intros ([j c] & -> & Hin)%list_elem_of_fmap.
    apply elem_of_present in Hin. apply list_elem_of_fmap. by exists (j, Some c).
  - apply Forall_forall. intros [k [c|]] Hin; unfold entry; simpl.
    + apply elem_of_present in Hin as Hin'.
      destruct (same_members_elem _ _ _ _ Hf Hin') as (v & Hv & Hsame).
      exists (Some v). split; [|done]. apply field_NoDup; [done|]. by rewrite Hp.
    + exists None. split; [|done]. apply field_None. rewrite Hp, Hkeys.
      intros ([j c] & Hj & Hin')%list_elem_of_fmap. simpl in *. subst.
      apply elem_of_present in Hin'.
      apply list_elem_of_lookup in Hin as [i Hi].
      apply list_elem_of_lookup in Hin' as [i' Hi'].
      assert (i = i') as <-; [|congruence].
      apply (NoDup_lookup _ i i' j Hnd); by rewrite list_lookup_fmap, ?Hi, ?Hi'.
Qed.

Lemma fields_same_object ms fs :
  NoDup (fs.*1) → (∀ k, k ∈ ms.*1 → k ∈ fs.*1) →
  Forall (λ f, entry ms f.1 f.2) fs → same (Object ms) (Obj (present fs)).
Proof.
  intros Hnd Hsub Hf.
  enough (∃ ms', ms ≡ₚ ms' ∧
    Forall2 (λ m e : string * _, m.1 = e.1 ∧ same m.2 e.2) ms' (present fs))
    as (ms' & ? & ?) by by econstructor.
  revert ms Hsub Hf. induction fs as [|[k oc] fs IH]; intros ms Hsub Hf; simpl in *.
  - exists []. destruct ms as [|[j v] ms]; [done|]. set_solver.
  - apply NoDup_cons in Hnd as [Hk Hnd]. apply Forall_cons in Hf as [Hkf Hf].
    destruct Hkf as (o & Ho & Hm). simpl in *. destruct o as [v|], oc as [c|]; try done.
    + apply field_Some in Ho as (a & b & -> & Ha & Hb).
      destruct (IH Hnd (a ++ b)) as (ms' & Hp & Hall).
      * intros j Hj. assert (j ∈ k :: fs.*1) as Hj'.
        { apply Hsub. rewrite fmap_app in *. simpl. set_solver. }
        apply elem_of_cons in Hj' as [->|]; [|done].
        rewrite fmap_app in Hj. set_solver.
      * apply Forall_forall. intros [j od] Hin.
        rewrite Forall_forall in Hf. destruct (Hf _ Hin) as (o & Ho & ?).
        exists o. split; [|done]. rewrite <- Ho. symmetry. apply field_remove.
        simpl. intros ->. apply Hk, list_elem_of_fmap. by exists (k, od).
      * exists ((k, v) :: ms'). split; [by rewrite <- Hp, Permutation_middle|].
        by constructor.
    + apply field_None in Ho. apply IH; [done| |done]. set_solver.
Qed.

(** The form every object codec uses: [known] is the parser's list of
    accepted keys, [fs] the fields in the order they are written. *)
Definition keys_agree (known : list string) (fs : list string) : bool :=
  forallb (contains known) fs && forallb (contains fs) known && bool_decide (NoDup fs).

Lemma same_object ms fs known :
  keys_agree known (fs.*1) = true →
  same (Object ms) (Obj (present fs)) ↔
  deny_unknown ms known = Ok tt ∧ Forall (λ f, entry ms f.1 f.2) fs.
Proof.
  unfold keys_agree. intros [[H1 H2]%andb_true_iff Hnd]%andb_true_iff.
  apply bool_decide_eq_true in Hnd. rewrite forallb_forall in H1, H2.
  assert (∀ k, k ∈ known ↔ k ∈ fs.*1) as Hk.
  { intros k. split; intros Hin%list_elem_of_In; apply contains_true; auto. }
  rewrite deny_unknown_Ok. setoid_rewrite Hk. split.
  - by apply same_object_fields.
  - intros [? ?]. by apply fields_same_object.
Qed.

(** ** One field at a time *)

Section steps.
Context {A B : Type} (f : Value → parsed A) (g : A → Cv) `{!Codec f g}.

Lemma req_step ms k (K : A → parsed B) y :
  (let* v := req_field ms k in let* x := f v in K x) = Ok y ↔
  ∃ x, entry ms k (Some (g x)) ∧ K x = Ok y.
Proof.
  unfold req_field, entry. rewrite rbind_assoc.
  destruct (field ms k) as [[v|]| |]; simpl.
  - rewrite rbind_Ok. setoid_rewrite codec. split.
    + intros (x & Hx & Hy). exists x. split; [by exists (Some v)|done].
    + intros (x & ([w|] & [= <-] & Hs) & Hy). eauto.
  - split; [done|]. by intros (x & ([w|] & ? & ?) & _).
  - split; [done|]. intros (x & (o & ? & _) & _). done.
  - split; [done|]. intros (x & (o & ? & _) & _). done.
Qed.

Lemma opt_step ms k (K : option A → parsed B) y :
  (let* o := opt_with f ms k in K o) = Ok y ↔
  ∃ o, entry ms k (g <$> o) ∧ K o = Ok y.
Proof.
  unfold opt_with, opt_field, entry. rewrite !rbind_assoc.
  destruct (field ms k) as [[v|]| |]; simpl.
  - assert (v ≠ Null ∨ v = Null) as [Hv| ->] by (destruct v; naive_solver).
    + transitivity (∃ x, f v = Ok x ∧ K (Some x) = Ok y).
      { destruct v; simpl; try done; rewrite rbind_assoc, rbind_Ok; done. }
      setoid_rewrite codec. split.
      * intros (x & Hx & Hy). exists (Some x). split; [by exists (Some v)|done].
      * intros ([x|] & ([w|] & [= <-] & Hs) & Hy); simpl in *; by eauto.
    + simpl. split; [done|]. intros ([x|] & (o & [= <-] & Hs) & _); simpl in Hs; [|done].
      inversion Hs.
  - split; [intros Hy; exists None; split; [by exists None|done]|].
    by intros ([x|] & ([w|] & ? & ?) & Hy).
  - split; [done|]. intros (x & (o & ? & _) & _). done.
  - split; [done|]. intros (x & (o & ? & _) & _). done.
Qed.
End steps.

(** ** Codecs of the leaves *)

Global Instance as_str_codec ctx : Codec (as_str ctx) Str.
Proof.
  intros v x. split.
  - destruct v; simpl; try done. intros [= ->]. constructor.
  - by inversion 1.
Qed.

Global Instance as_u32_codec ctx : Codec (as_u32 ctx) U32.
Proof.
  intros v x. split.
  - destruct v as [| |d []| | |]; simpl; try done. intros H. inv_result.
    by constructor.
  - inversion 1; subst. simpl. by match goal with H : parse_uint _ _ = _ |- _ => rewrite H end.
Qed.

Global Instance array_codec {A} (f : Value → parsed A) g ctx `{!Codec f g} :
  Codec (array_of f ctx) (λ l, Arr (map g l)).
Proof.
  intros v l. unfold array_of. split.
  - destruct v; simpl; try done. rewrite mapM_result_Ok. intros Hf. constructor.
    induction Hf as [|v x vs xs Hx _ IH]; simpl; constructor; [by apply codec|done].
  - inversion 1 as [| |vs cs Hf| ]; subst. simpl. rewrite mapM_result_Ok.
    revert vs Hf H. induction l as [|x l IH]; intros vs Hf _; simpl in Hf.
    + by apply Forall2_nil_inv_r in Hf as ->.
    + apply Forall2_cons_inv_r in Hf as (v & vs' & Hv & Hf & ->).
      constructor; [by apply codec|]. apply IH; [done|by constructor].
Qed.

Global Instance strs_codec c1 c2 : Codec (array_of (as_str c1) c2) strs.
Proof. apply array_codec, _. Qed.

(** ** Codecs of the objects *)

Lemma tag_step {B} ms ctx (K : string → parsed B) y :
  (let* t := tag ms ctx in K t) = Ok y ↔
  ∃ t, entry ms "type" (Some (Str t)) ∧ K t = Ok y.
Proof. unfold tag. rewrite rbind_assoc. apply (req_step (as_str ctx) Str). Qed.

Lemma deny_step {B} ms known (K : unit → parsed B) y :
  rbind (deny_unknown ms known) K = Ok y ↔ deny_unknown ms known = Ok tt ∧ K tt = Ok y.
Proof. rewrite rbind_Ok. split; [intros ([] & ?)|]; eauto. Qed.

Lemma guardian_step {B} ms (K : GuardianSet → parsed B) y :
  rbind (guardian_set_from_fields ms) K = Ok y ↔
  ∃ g, entry ms "guardians" (Some (strs (guardians g))) ∧
       entry ms "quorum" (Some (U32 (quorum g))) ∧ K g = Ok y.
Proof.
  rewrite rbind_Ok. unfold guardian_set_from_fields. setoid_rewrite (req_step _ _).
  setoid_rewrite (req_step _ _). split.
  - intros (g & (l & El & q & Eq & [= <-]) & Hy). by exists {| guardians := l; quorum := q |}.
  - intros ([l q] & El & Eq & Hy). eauto 10.
Qed.

Lemma zk_step {B} ms (K : ZkFactor → parsed B) y :
  rbind (zk_factor_from_fields ms) K = Ok y ↔
  ∃ z, entry ms "adapter" (Some (Str (adapter z))) ∧
       entry ms "circuit-id" (Some (Str (circuit_id z))) ∧
       entry ms "pool" (Some (Str (pool z))) ∧
       entry ms "enrollment-id" (Some (Str (enrollment_id z))) ∧
       entry ms "commitment" (Some (Str (commitment z))) ∧ K z = Ok y.
Proof.
  rewrite rbind_Ok. unfold zk_factor_from_fields. do 5 setoid_rewrite (req_step _ _).
  split.
  - intros (z & (a & Ea & c & Ec & p & Ep & i & Ei & m & Em & [= <-]) & Hy).
    by exists {| adapter := a; circuit_id := c; pool := p; enrollment_id := i;
                 commitment := m |}.
  - intros ([a c p i m] & Ea & Ec & Ep & Ei & Em & Hy). eexists. split; [|exact Hy].
    exists a; split; [exact Ea|]. exists c; split; [exact Ec|].
    exists p; split; [exact Ep|]. exists i; split; [exact Ei|].
    exists m; split; [exact Em|]. done.
Qed.

(** Read the facts off an accepted object, and replay them. *)
Ltac codec_in H :=
  lazymatch type of H with
  | Ok _ = Ok _ => injection H as <-
  | rbind (deny_unknown _ _) _ = Ok _ =>
      let D := fresh "D" in apply deny_step in H as [D H]; codec_in H
  | rbind (tag _ _) _ = Ok _ =>
      let t := fresh "t" in let E := fresh "E" in
      apply tag_step in H as (t & E & H); codec_in H
  | rbind (opt_with _ _ _) _ = Ok _ =>
      let o := fresh "o" in let E := fresh "E" in
      apply (opt_step _ _) in H as (o & E & H); codec_in H
  | rbind (req_field _ _) _ = Ok _ =>
      let x := fresh "x" in let E := fresh "E" in
      apply (req_step _ _) in H as (x & E & H); codec_in H
  | (if String.eqb ?t ?s then _ else _) = Ok _ =>
      destruct (String.eqb_spec t s) as [->|_]; [codec_in H|codec_in H]
  | rbind (guardian_set_from_fields _) _ = Ok _ =>
      let g := fresh "g" in let E := fresh "E" in let E' := fresh "E" in
      apply guardian_step in H as (g & E & E' & H); codec_in H
  | rbind (zk_factor_from_fields _) _ = Ok _ =>
      let z := fresh "z" in
      apply zk_step in H as (z & ? & ? & ? & ? & ? & H); codec_in H
  | json_err _ = Ok _ => discriminate H
  | _ => idtac
  end.
Ltac codec_out :=
  lazymatch goal with
  | |- Ok _ = Ok _ => reflexivity
  | |- rbind (deny_unknown _ _) _ = Ok _ =>
      apply deny_step; split; [eassumption|cbn beta; codec_out]
  | |- rbind (tag _ _) _ = Ok _ =>
      apply tag_step; eexists; split; [eassumption|cbn beta; codec_out]
  | |- rbind (opt_with _ _ _) _ = Ok _ =>
      apply (opt_step _ _); eexists; split; [eassumption|cbn beta; codec_out]
  | |- rbind (req_field _ _) _ = Ok _ =>
      apply (req_step _ _); eexists; split; [eassumption|cbn beta; codec_out]
  | |- rbind (guardian_set_from_fields _) _ = Ok _ =>
      apply guardian_step; eexists;
      do 2 (split; [eassumption|]); cbn beta; codec_out
  | |- rbind (zk_factor_from_fields _) _ = Ok _ =>
      apply zk_step; eexists;
      do 5 (split; [eassumption|]); cbn beta; codec_out
  | |- (if String.eqb ?s ?t then _ else _) = Ok _ =>
      change (String.eqb s t) with true || change (String.eqb s t) with false;
      cbn beta iota; codec_out
  end.
(** Every parser of an object starts with [as_object]. *)
Ltac codec_object :=
  intros v x; destruct v as [| | | | |ms];
  [ (split; [discriminate|let Hs := fresh in
      intros Hs; exfalso; destruct x;
      repeat match goal with m : SignerMethod |- _ => destruct m end; inversion Hs]) ..
  | cbv beta iota delta [as_object]; cbn [rbind] ].
Ltac forall_inv :=
  repeat match goal with
  | H : Forall _ (_ :: _) |- _ => apply Forall_cons in H as [? H]; cbn in *
  | H : Forall _ [] |- _ => clear H
  end.
Ltac fields_present x :=
  destruct x; repeat match goal with o : option _ |- _ => destruct o end; reflexivity.
(** [same_iff] is the instance of [same_object] for the type. *)
Ltac codec_solve x same_iff fields known :=
  split;
  [ let Hx := fresh "Hx" in intros Hx; codec_in Hx;
    apply same_iff; (split; [assumption|]);
    repeat (apply Forall_cons_2; [assumption|]); apply Forall_nil_2
  | let Hs := fresh "Hs" in let D := fresh "D" in
    intros Hs; destruct x; apply same_iff in Hs as [D Hs];
    unfold known in D; unfold fields in Hs; cbn in D, Hs; forall_inv; codec_out ].

Definition scope_fields (x : Scope) : list (string * option Cv) :=
  match x with
  | Scope_Contract a => [("type", Some (Str "contract")); ("address", Some (Str a))]
  | Scope_SelfAdmin => [("type", Some (Str "self-admin"))]
  end.
Definition scope_known (x : Scope) : list string :=
  match x with Scope_Contract _ => ["type"; "address"] | Scope_SelfAdmin => ["type"] end.
Lemma scope_same ms x :
  same (Object ms) (scope_to_cv x) ↔
  deny_unknown ms (scope_known x) = Ok tt ∧
  Forall (λ f, entry ms f.1 f.2) (scope_fields x).
Proof.
  rewrite <- (same_object ms (scope_fields x)) by by destruct x.
  by fields_present x.
Qed.
Global Instance scope_codec : Codec scope_from_value scope_to_cv.
Proof.
  codec_object. unfold scope_from_value. cbn [as_object rbind].
  codec_solve x scope_same scope_fields scope_known.
Qed.

Definition principals_fields (x : Principals) : list (string * option Cv) :=
  match x with
  | Principals_All l => [("type", Some (Str "all")); ("signers", Some (strs l))]
  | Principals_Threshold l m =>
      [("type", Some (Str "threshold")); ("signers", Some (strs l)); ("m", Some (U32 m))]
  | Principals_SelfAuthenticating p i a =>
      [("type", Some (Str "self-authenticating")); ("policy", Some (Str p));
       ("install-param-hex", Some (Str i)); ("ack", Some (Str a))]
  end.
Definition principals_known (x : Principals) : list string :=
  match x with
  | Principals_All _ => ["type"; "signers"]
  | Principals_Threshold _ _ => ["type"; "signers"; "m"]
  | Principals_SelfAuthenticating _ _ _ => ["type"; "policy"; "install-param-hex"; "ack"]
  end.
Lemma principals_same ms x :
  same (Object ms) (principals_to_cv x) ↔
  deny_unknown ms (principals_known x) = Ok tt ∧
  Forall (λ f, entry ms f.1 f.2) (principals_fields x).
Proof.
  rewrite <- (same_object ms (principals_fields x)) by by destruct x.
  by fields_present x.
Qed.
Global Instance principals_codec : Codec principals_from_value principals_to_cv.
Proof.
  codec_object. unfold principals_from_value. cbn [as_object rbind].
  codec_solve x principals_same principals_fields principals_known.
Qed.

Definition pred_fields (x : ArgPred) : list (string * option Cv) :=
  match x with
  | IsSelf => [("type", Some (Str "is-self"))]
  | AddressEq a => [("type", Some (Str "address-eq")); ("address", Some (Str a))]
  | StringIn l => [("type", Some (Str "string-in")); ("values", Some (strs l))]
  | StringPrefix p => [("type", Some (Str "string-prefix")); ("prefix", Some (Str p))]
  | U32Eq n => [("type", Some (Str "u32-eq")); ("value", Some (U32 n))]
  end.
Definition pred_known (x : ArgPred) : list string :=
  match x with
  | IsSelf => ["type"]
  | AddressEq _ => ["type"; "address"]
  | StringIn _ => ["type"; "values"]
  | StringPrefix _ => ["type"; "prefix"]
  | U32Eq _ => ["type"; "value"]
  end.
Lemma pred_same ms x :
  same (Object ms) (pred_to_cv x) ↔
  deny_unknown ms (pred_known x) = Ok tt ∧
  Forall (λ f, entry ms f.1 f.2) (pred_fields x).
Proof.
  rewrite <- (same_object ms (pred_fields x)) by by destruct x.
  by fields_present x.
Qed.
Global Instance pred_codec : Codec pred_from_value pred_to_cv.
Proof.
  codec_object. unfold pred_from_value. cbn [as_object rbind].
  codec_solve x pred_same pred_fields pred_known.
Qed.

Definition arg_constraint_fields (x : ArgConstraint) : list (string * option Cv) :=
  [("index", Some (U32 (arg_index x))); ("pred", Some (pred_to_cv (arg_pred x)))].
Definition arg_constraint_known (x : ArgConstraint) : list string :=
  ["index"; "pred"].
Lemma arg_constraint_same ms x :
  same (Object ms) (arg_constraint_to_cv x) ↔
  deny_unknown ms (arg_constraint_known x) = Ok tt ∧
  Forall (λ f, entry ms f.1 f.2) (arg_constraint_fields x).
Proof.
  rewrite <- (same_object ms (arg_constraint_fields x)) by by destruct x.
  by fields_present x.
Qed.
Global Instance arg_constraint_codec : Codec arg_constraint_from_value arg_constraint_to_cv.
Proof.
  codec_object. unfold arg_constraint_from_value. cbn [as_object rbind].
  codec_solve x arg_constraint_same arg_constraint_fields arg_constraint_known.
Qed.

Definition cap_fields (x : CapConstraint) : list (string * option Cv) :=
  [("token", Str <$> cap_token x); ("limit", Some (Str (cap_limit x)));
   ("period-ledgers", Some (U32 (cap_period_ledgers x)))].
Definition cap_known (x : CapConstraint) : list string :=
  ["token"; "limit"; "period-ledgers"].
Lemma cap_same ms x :
  same (Object ms) (cap_to_cv x) ↔
  deny_unknown ms (cap_known x) = Ok tt ∧
  Forall (λ f, entry ms f.1 f.2) (cap_fields x).
Proof.
  rewrite <- (same_object ms (cap_fields x)) by by destruct x.
  by fields_present x.
Qed.
Global Instance cap_codec : Codec cap_from_value cap_to_cv.
Proof.
  codec_object. unfold cap_from_value. cbn [as_object rbind].
  codec_solve x cap_same cap_fields cap_known.
Qed.

Definition rule_fields (x : Rule) : list (string * option Cv) :=
  [("name", Some (Str (rule_name x))); ("scope", Some (scope_to_cv (rule_scope x)));
   ("principals", Some (principals_to_cv (rule_principals x)));
   ("functions", strs <$> rule_functions x);
   ("args", (λ args, Arr (map arg_constraint_to_cv args)) <$> rule_args x);
   ("not-after-ledger", U32 <$> rule_not_after_ledger x);
   ("cap", cap_to_cv <$> rule_cap x)].
Definition rule_known (x : Rule) : list string :=
  ["name"; "scope"; "principals"; "functions"; "args"; "not-after-ledger"; "cap"].
Lemma rule_same ms x :
  same (Object ms) (rule_to_cv x) ↔
  deny_unknown ms (rule_known x) = Ok tt ∧
  Forall (λ f, entry ms f.1 f.2) (rule_fields x).
Proof.
  rewrite <- (same_object ms (rule_fields x)) by by destruct x.
  by fields_present x.
Qed.
Global Instance rule_codec : Codec rule_from_value rule_to_cv.
Proof.
  codec_object. unfold rule_from_value. cbn [as_object rbind].
  codec_solve x rule_same rule_fields rule_known.
Qed.

Global Instance recovery_profile_codec :
  Codec recovery_profile_from_value (λ p, Str (recovery_profile_str p)).
Proof.
  intros v x. unfold recovery_profile_from_value. split.
  - destruct v as [| | |s| |]; try done. cbn [as_str rbind]. intros Hx. codec_in Hx;
      constructor.
  - inversion 1; subst. by destruct x.
Qed.

Definition recovery_mode_fields (x : RecoveryMode) : list (string * option Cv) :=
  match x with
  | GuardianOnly g =>
      [("type", Some (Str "guardian-only")); ("guardians", Some (strs (guardians g))); ("quorum", Some (U32 (quorum g)))]
  | ZkOnly z =>
      [("type", Some (Str "zk-only")); ("adapter", Some (Str (adapter z))); ("circuit-id", Some (Str (circuit_id z)));
       ("pool", Some (Str (pool z))); ("enrollment-id", Some (Str (enrollment_id z)));
       ("commitment", Some (Str (commitment z)))]
  | Combined g z =>
      [("type", Some (Str "combined")); ("guardians", Some (strs (guardians g))); ("quorum", Some (U32 (quorum g)));
       ("adapter", Some (Str (adapter z))); ("circuit-id", Some (Str (circuit_id z)));
       ("pool", Some (Str (pool z))); ("enrollment-id", Some (Str (enrollment_id z)));
       ("commitment", Some (Str (commitment z)))]
  end.
Definition recovery_mode_known (x : RecoveryMode) : list string :=
  match x with
  | GuardianOnly _ => ["type"; "guardians"; "quorum"]
  | ZkOnly _ => ["type"; "adapter"; "circuit-id"; "pool"; "enrollment-id"; "commitment"]
  | Combined _ _ => ["type"; "guardians"; "quorum"; "adapter"; "circuit-id"; "pool";
                     "enrollment-id"; "commitment"]
  end.
Lemma recovery_mode_same ms x :
  same (Object ms) (recovery_mode_to_cv x) ↔
  deny_unknown ms (recovery_mode_known x) = Ok tt ∧
  Forall (λ f, entry ms f.1 f.2) (recovery_mode_fields x).
Proof.
  rewrite <- (same_object ms (recovery_mode_fields x)) by by destruct x.
  by fields_present x.
Qed.
Global Instance recovery_mode_codec : Codec recovery_mode_from_value recovery_mode_to_cv.
Proof.
  codec_object. unfold recovery_mode_from_value. cbn [as_object rbind].
  codec_solve x recovery_mode_same recovery_mode_fields recovery_mode_known.
Qed.

Definition baseline_to_cv (b : BaselineCommitment) : Cv :=
  Obj [("doc-hash", Str (baseline_doc_hash b))].

Definition baseline_fields (x : BaselineCommitment) : list (string * option Cv) :=
  [("doc-hash", Some (Str (baseline_doc_hash x)))].
Definition baseline_known (x : BaselineCommitment) : list string :=
  ["doc-hash"].
Lemma baseline_same ms x :
  same (Object ms) (baseline_to_cv x) ↔
  deny_unknown ms (baseline_known x) = Ok tt ∧
  Forall (λ f, entry ms f.1 f.2) (baseline_fields x).
Proof.
  rewrite <- (same_object ms (baseline_fields x)) by by destruct x.
  by fields_present x.
Qed.
Global Instance baseline_codec : Codec baseline_commitment_from_value baseline_to_cv.
Proof.
  codec_object. unfold baseline_commitment_from_value. cbn [as_object rbind].
  codec_solve x baseline_same baseline_fields baseline_known.
Qed.

Definition recovery_fields (x : RecoveryConfig) : list (string * option Cv) :=
  [("profile", Some (Str (recovery_profile_str (profile x))));
   ("mode", Some (recovery_mode_to_cv (mode x))); ("controller", Some (Str (controller x)));
   ("baseline", baseline_to_cv <$> baseline x);
   ("replaceable", Some (strs (replaceable x)));
   ("delay-ledgers", Some (U32 (delay_ledgers x)));
   ("expiry-ledgers", Some (U32 (expiry_ledgers x)));
   ("max-cancels", Some (U32 (max_cancels x)))].
Definition recovery_known (x : RecoveryConfig) : list string :=
  ["profile"; "mode"; "controller"; "baseline"; "replaceable"; "delay-ledgers";
   "expiry-ledgers"; "max-cancels"].
Lemma recovery_same ms x :
  same (Object ms) (recovery_to_cv x) ↔
  deny_unknown ms (recovery_known x) = Ok tt ∧
  Forall (λ f, entry ms f.1 f.2) (recovery_fields x).
Proof.
  rewrite <- (same_object ms (recovery_fields x)) by by destruct x.
  by fields_present x.
Qed.
Global Instance recovery_codec : Codec recovery_from_value recovery_to_cv.
Proof.
  codec_object. unfold recovery_from_value. cbn [as_object rbind].
  codec_solve x recovery_same recovery_fields recovery_known.
Qed.

Definition signer_fields (x : SignerDecl) : list (string * option Cv) :=
  match signer_method x with
  | External v k =>
      [("id", Some (Str (signer_id x))); ("verifier", Some (Str v)); ("key", Some (Str k))]
  | Delegated a => [("id", Some (Str (signer_id x))); ("address", Some (Str a))]
  end.
Definition signer_known (x : SignerDecl) : list string :=
  match signer_method x with
  | External _ _ => ["id"; "verifier"; "key"]
  | Delegated _ => ["id"; "address"]
  end.
Lemma signer_same ms x :
  same (Object ms) (signer_to_cv x) ↔
  deny_unknown ms (signer_known x) = Ok tt ∧
  Forall (λ f, entry ms f.1 f.2) (signer_fields x).
Proof.
  rewrite <- (same_object ms (signer_fields x)) by by destruct x as [? []].
  by destruct x as [? []].
Qed.

(** The shape of a signer is read off its [address] field first. *)
Global Instance signer_codec : Codec signer_from_value signer_to_cv.
Proof.
  codec_object. unfold signer_from_value. cbn [as_object rbind]. split.
  - intros Hx. apply rbind_Ok in Hx as (addr & _ & Hx).
    apply rbind_Ok in Hx as (m & Hm & Hx). codec_in Hx.
    destruct addr; codec_in Hm; apply signer_same; (split; [assumption|]);
      repeat (apply Forall_cons_2; [assumption|]); apply Forall_nil_2.
  - destruct x as [id [v k|a]]; intros [D Hs]%signer_same; cbn in D, Hs; forall_inv.
    + rewrite (proj2 (field_None ms "address")).
      2: { rewrite deny_unknown_Ok in D. intros Hin%D. set_solver. }
      cbn [rbind]. apply rbind_Ok. exists (External v k). split; codec_out.
    + match goal with E : entry ms "address" _ |- _ =>
        destruct E as ([w|] & Hw & Hsame); [|done] end.
      rewrite Hw. cbn [rbind]. apply rbind_Ok. exists (Delegated a).
      assert (entry ms "address" (Some (Str a))) by (exists (Some w); done).
      split; codec_out.
Qed.

Definition doc_fields (x : PolicyDoc) : list (string * option Cv) :=
  [("version", Some (U32 (doc_version x))); ("network", Str <$> doc_network x);
   ("signers", Some (Arr (map signer_to_cv (doc_signers x))));
   ("rules", Some (Arr (map rule_to_cv (doc_rules x))));
   ("recovery", recovery_to_cv <$> doc_recovery x)].
Definition doc_known (x : PolicyDoc) : list string :=
  ["version"; "network"; "signers"; "rules"; "recovery"].
Lemma doc_same ms x :
  same (Object ms) (doc_to_cv x) ↔
  deny_unknown ms (doc_known x) = Ok tt ∧
  Forall (λ f, entry ms f.1 f.2) (doc_fields x).
Proof.
  rewrite <- (same_object ms (doc_fields x)) by by destruct x.
  by fields_present x.
Qed.
Global Instance doc_codec : Codec doc_from_value doc_to_cv.
Proof.
  codec_object. unfold doc_from_value. cbn [as_object rbind].
  codec_solve x doc_same doc_fields doc_known.
Qed.
