(* ===== verification/RoundTrip.v ===== *)
(** * Canonical texts are uniquely readable

    A reader of JSON, proved to read every text of the grammar [json], so
    that the law of the class [JsonLexer] can be met; and the proof that the
    canonical text of a document is JSON for its tree.  Together they give
    unique readability: the canonical bytes determine the canonical value,
    hence the document.  The theorems of this file are those a reviewer of a
    document hash relies on. *)

From S2P Require Import Prelude Doc Canon Parse ParseFacts.
#[local] Open Scope string_scope.
#[local] Open Scope list_scope.
#[local] Open Scope nat_scope.

(** ** Decimal numbers *)

Lemma digit_value_digit d : (d < 10)%N → digit_value (digit d) = Some d.
Proof.
  intros Hd. unfold digit_value, digit. rewrite N_ascii_embedding by lia.
  destruct (N.leb_spec 48 (48 + d)), (N.leb_spec (48 + d) 57); simpl; [f_equal|..]; lia.
Qed.

Lemma parse_dec_loop bound fuel n acc :
  (n < 10 ^ N.of_nat fuel)%N → (n ≤ bound)%N →
  parse_digits bound 0 (dec_loop fuel n acc) = parse_digits bound n acc.
Proof.
  revert n acc. induction fuel as [|fuel IH]; intros n acc Hf Hb.
  { simpl in *. assert (n = 0)%N as -> by lia. done. }
  pose proof (N.mod_lt n 10 ltac:(lia)) as Hmod.
  pose proof (N.div_mod n 10 ltac:(lia)) as Hdm.
  assert (∀ a, (a * 10 + n mod 10 = n)%N →
    parse_digits bound a (String (digit (n mod 10)) acc) = parse_digits bound n acc) as Hlast.
  { intros a Ha. simpl. rewrite digit_value_digit by done. rewrite Ha.
    by rewrite (proj2 (N.leb_le n bound)). }
  simpl. destruct (N.eqb_spec (n / 10) 0) as [Hz|Hz].
  - apply Hlast. lia.
  - rewrite IH.
    + apply Hlast. lia.
    + apply N.Div0.div_lt_upper_bound.
      rewrite Nat2N.inj_succ, N.pow_succ_r' in Hf. lia.
    + transitivity n; [apply N.Div0.div_le_upper_bound; lia|done].
Qed.

Lemma size_fuel n : (n < 10 ^ N.of_nat (S (N.size_nat n)))%N.
Proof.
  eapply N.lt_le_trans; [apply N.size_gt|].
  assert (N.size n = N.of_nat (N.size_nat n)) as ->.
  { destruct n as [|p]; [done|]. simpl. induction p; simpl; lia. }
  rewrite Nat2N.inj_succ, N.pow_succ_r'.
  pose proof (N.pow_le_mono_l 2 10 (N.of_nat (N.size_nat n)) ltac:(lia)). lia.
Qed.

Definition is_digit (c : ascii) : bool := bool_decide (is_Some (digit_value c)).

Lemma is_digit_digit d : (d < 10)%N → is_digit (digit d) = true.
Proof.
  intros. unfold is_digit. rewrite digit_value_digit by done.
  by rewrite bool_decide_eq_true_2.
Qed.

Fixpoint all_digits (s : string) : bool :=
  match s with EmptyString => true | String c s => is_digit c && all_digits s end.

Lemma dec_loop_digits fuel n acc :
  all_digits acc = true → all_digits (dec_loop fuel n acc) = true.
Proof.
  revert n acc. induction fuel as [|fuel IH]; intros n acc Ha; [done|].
  pose proof (N.mod_lt n 10 ltac:(lia)) as Hmod. cbn [dec_loop].
  assert (all_digits (String (digit (n mod 10)) acc) = true) as Hd.
  { simpl. by rewrite is_digit_digit. }
  destruct (_ =? 0)%N; auto.
Qed.

Lemma dec_loop_cons fuel n acc c r :
  acc = String c r → ∃ c' r', dec_loop fuel n acc = String c' r'.
Proof.
  revert n acc c r. induction fuel as [|fuel IH]; intros n acc c r ->; [by eauto|].
  cbn [dec_loop]. destruct (_ =? 0)%N; eauto.
Qed.

Lemma u_to_string_spec n :
  all_digits (u_to_string n) = true ∧ ∃ c r, u_to_string n = String c r ∧ is_digit c = true.
Proof.
  assert (all_digits (u_to_string n) = true) as Hd by by apply dec_loop_digits.
  split; [done|].
  assert (∃ c r, u_to_string n = String c r) as (c & r & Hc).
  { unfold u_to_string. cbn [dec_loop]. destruct (_ =? 0)%N; [by eauto|].
    by eapply dec_loop_cons. }
  exists c, r. split; [done|]. rewrite Hc in Hd. simpl in Hd. by apply andb_true_iff in Hd as [? _].
Qed.

Lemma parse_u_to_string bound n :
  (n ≤ bound)%N → parse_uint bound (u_to_string n) = Some n.
Proof.
  intros Hn. destruct (u_to_string_spec n) as (_ & c & r & Hc & Hd).
  assert (parse_digits bound 0 (u_to_string n) = Some n) as Hp.
  { unfold u_to_string. rewrite parse_dec_loop; [done|apply size_fuel|done]. }
  unfold parse_uint. rewrite Hc in *.
  destruct (Ascii.eqb_spec c "+"%char) as [->|]; done.
Qed.

(** ** The data of a canonical tree *)

Lemma Cv_nested_ind (P : Cv → Prop) :
  (∀ s, P (Str s)) → (∀ n, P (U32 n)) → (∀ l, Forall P l → P (Arr l)) →
  (∀ es, Forall (λ e, P e.2) es → P (Obj es)) → ∀ v, P v.
Proof.
  intros Hs Hn Ha Ho. fix IH 1. intros [s|n|l|es].
  - apply Hs.
  - apply Hn.
  - apply Ha. induction l; constructor; [apply IH|done].
  - apply Ho. induction es as [|[k v] es IHes]; constructor; [apply IH|done].
Qed.

Lemma insert_member_perm {A} x (l : list (string * A)) : insert_member x l ≡ₚ x :: l.
Proof.
  induction l as [|y l IH]; simpl; [done|]. destruct (String.leb _ _); [done|].
  rewrite IH. apply Permutation_swap.
Qed.
Lemma sort_members_perm {A} (l : list (string * A)) : sort_members l ≡ₚ l.
Proof. induction l as [|x l IH]; simpl; [done|]. by rewrite insert_member_perm, IH. Qed.

Lemma sort_members_map {A B} (f : A → B) (l : list (string * A)) :
  sort_members (map (λ kv, (kv.1, f kv.2)) l) = map (λ kv, (kv.1, f kv.2)) (sort_members l).
Proof.
  induction l as [|x l IH]; simpl; [done|]. rewrite IH. generalize (sort_members l).
  intros l'. induction l' as [|y l' IH']; simpl; [done|].
  destruct (String.leb _ _); simpl; [done|]. by rewrite IH'.
Qed.

(** The numbers of the tree are [u32]s. *)
Fixpoint nums_ok (v : Cv) : bool :=
  match v with
  | Str _ => true
  | U32 n => (n <=? U32_MAX)%N
  | Arr items => forallb nums_ok items
  | Obj entries => forallb (λ kv, nums_ok kv.2) entries
  end.

Lemma cv_ok_nums v : cv_ok v = true → nums_ok v = true.
Proof.
  induction v as [|n|l IH|es IH] using Cv_nested_ind; simpl; try done.
  all: rewrite !forallb_forall; intros Hok x Hx; rewrite Forall_forall in IH;
    apply IH; [by apply list_elem_of_In|auto].
Qed.

Lemma value_of_same v : nums_ok v = true → same (value_of v) v.
Proof.
  induction v as [s|n|l IH|es IH] using Cv_nested_ind; simpl; intros Hok.
  - constructor.
  - constructor. apply parse_u_to_string. by apply N.leb_le.
  - constructor. induction IH as [|v l Hv _ IH]; simpl in *; constructor;
      apply andb_true_iff in Hok as [? ?]; auto.
  - econstructor; [apply sort_members_perm|].
    induction IH as [|v l Hv _ IH]; simpl in *; constructor;
      apply andb_true_iff in Hok as [? ?]; auto.
Qed.

(** ** A reader of JSON texts

    It reads every text the grammar [json] derives, so the law of [JsonLexer]
    can be met. *)

(** One character of a string literal; [None] is the closing quote. *)
Definition read_char (s : string) : option (option ascii * string) :=
  match s with
  | EmptyString => None
  | String c r =>
      let b := N_of_ascii c in
      if (b =? 34)%N then Some (None, r)
      else if (b =? 92)%N then
        match r with
        | EmptyString => None
        | String e r =>
            match short_escape e, r with
            | Some c, _ => Some (Some c, r)
            | None, String _ (String _ (String h (String l r))) =>
                match hex_value h, hex_value l with
                | Some x, Some y => Some (Some (chr (16 * x + y)), r)
                | _, _ => None
                end
            | None, _ => None
            end
        end
      else Some (Some c, r)
  end.

Fixpoint read_chars (fuel : nat) (s : string) : option (string * string) :=
  match fuel with
  | O => None
  | S fuel =>
      match read_char s with
      | None => None
      | Some (None, r) => Some ("", r)
      | Some (Some c, r) =>
          match read_chars fuel r with
          | Some (t, r) => Some (String c t, r)
          | None => None
          end
      end
  end.
Definition read_string (s : string) : option (string * string) :=
  read_chars (S (String.length s)) s.

Fixpoint read_digits (s : string) : string * string :=
  match s with
  | EmptyString => ("", "")
  | String c r =>
      if is_digit c then let '(d, r) := read_digits r in (String c d, r)
      else ("", s)
  end.

(** The remainder when [s] starts with [c], or with [lit]. *)
Definition after (c : ascii) (s : string) : option string :=
  match s with
  | String d r => if Ascii.eqb c d then Some r else None
  | EmptyString => None
  end.

Fixpoint after_all (lit s : string) : option string :=
  match lit with
  | EmptyString => Some s
  | String c lit => match after c s with Some r => after_all lit r | None => None end
  end.

(** The three literals. *)
Definition read_literal (s : string) : option (Value * string) :=
  match after_all "null" s, after_all "true" s, after_all "false" s with
  | Some r, _, _ => Some (Null, r)
  | _, Some r, _ => Some (Bool true, r)
  | _, _, Some r => Some (Bool false, r)
  | _, _, _ => None
  end.

Fixpoint read_value (fuel : nat) (s : string) : option (Value * string) :=
  match fuel with
  | O => None
  | S fuel =>
      match s with
      | EmptyString => None
      | String c r =>
          if Ascii.eqb c quote then
            match read_string r with
            | Some (t, r) => Some (JString t, r)
            | None => None
            end
          else if Ascii.eqb c "[" then
            match after "]" r with
            | Some r => Some (Array [], r)
            | None => match read_items fuel r with
                      | Some (vs, r) => Some (Array vs, r)
                      | None => None
                      end
            end
          else if Ascii.eqb c "{" then
            match after "}" r with
            | Some r => Some (Object [], r)
            | None => match read_members fuel r with
                      | Some (ms, r) => Some (Object ms, r)
                      | None => None
                      end
            end
          else if is_digit c then
            let '(d, r) := read_digits s in Some (Number d true, r)
          else read_literal s
      end
  end
with read_items (fuel : nat) (s : string) : option (list Value * string) :=
  match fuel with
  | O => None
  | S fuel =>
      match read_value fuel s with
      | None => None
      | Some (v, r) =>
          match after "]" r with
          | Some r => Some ([v], r)
          | None =>
              match after "," r with
              | None => None
              | Some r => match read_items fuel r with
                          | Some (vs, r) => Some (v :: vs, r)
                          | None => None
                          end
              end
          end
      end
  end
with read_members (fuel : nat) (s : string) : option (Members * string) :=
  match fuel with
  | O => None
  | S fuel =>
      match after quote s with
      | None => None
      | Some r =>
          match read_string r with
          | None => None
          | Some (k, r) =>
              match after ":" r with
              | None => None
              | Some r =>
                  match read_value fuel r with
                  | None => None
                  | Some (v, r) =>
                      match after "}" r with
                      | Some r => Some ([(k, v)], r)
                      | None =>
                          match after "," r with
                          | None => None
                          | Some r => match read_members fuel r with
                                      | Some (ms, r) => Some ((k, v) :: ms, r)
                                      | None => None
                                      end
                          end
                      end
                  end
              end
          end
      end
  end.

Lemma read_chars_json t s :
  json_chars t s → ∀ fuel r, String.length t < fuel →
  read_chars fuel (t +:+ String quote r) = Some (s, r).
Proof.
  induction 1 as [|c t s Hc Hq Hb _ IH|e c t s He _ IH|h l x y t s Hh Hl Hx _ IH];
    intros [|fuel] r Hf; simpl in Hf; try lia.
  - done.
  - rewrite string_app_cons. cbn [read_chars]. unfold read_char.
    destruct (N.eqb_spec (N_of_ascii c) 34) as [E|].
    { destruct Hq. by rewrite <- (ascii_N_embedding c), E. }
    destruct (N.eqb_spec (N_of_ascii c) 92) as [E|].
    { destruct Hb. by rewrite <- (ascii_N_embedding c), E. }
    by rewrite IH by lia.
  - rewrite !string_app_cons. cbn [read_chars]. unfold read_char.
    change (N_of_ascii (chr 92) =? 34)%N with false. change (N_of_ascii (chr 92) =? 92)%N with true.
    cbn iota. rewrite He. by rewrite IH by lia.
  - change ("u00" +:+ String h (String l t))
      with (String "u" (String "0" (String "0" (String h (String l t))))).
    rewrite !string_app_cons. cbn [read_chars]. unfold read_char.
    change (N_of_ascii (chr 92) =? 34)%N with false. change (N_of_ascii (chr 92) =? 92)%N with true.
    cbn iota. change (short_escape "u") with (@None ascii). cbn iota.
    rewrite Hh, Hl. by rewrite IH by lia.
Qed.

Lemma read_string_json t s r :
  json_chars t s → read_string (t +:+ String quote r) = Some (s, r).
Proof. intros Ht. apply read_chars_json; [done|]. rewrite length_string_app. lia. Qed.

Lemma json_quoted_app t r : json_quoted t +:+ r = String quote (t +:+ String quote r).
Proof. unfold json_quoted. by rewrite string_app_cons, string_app_assoc. Qed.

(** Text that cannot continue a number. *)
Definition ends_number (r : string) : Prop :=
  match r with EmptyString => True | String c _ => is_digit c = false end.

Lemma read_digits_all d r :
  all_digits d = true → ends_number r → read_digits (d +:+ r) = (d, r).
Proof.
  induction d as [|c d IH]; intros Hd Hr.
  - rewrite string_app_nil_l. destruct r as [|c r]; simpl in *; [done|]. by rewrite Hr.
  - simpl in Hd. apply andb_true_iff in Hd as [Hc Hd]. rewrite string_app_cons. simpl.
    by rewrite Hc, IH.
Qed.

(** The shape of a canonical text's first byte. *)
Lemma write_value_head v :
  ∃ c r, write_value v = String c r ∧
    match v with
    | Str _ => c = quote
    | U32 _ => is_digit c = true
    | Arr _ => c = "["%char
    | Obj _ => c = "{"%char
    end.
Proof.
  destruct v; simpl.
  - eexists _, _. by split.
  - destruct (u_to_string_spec n) as (_ & c & r & -> & Hc). eauto.
  - eexists _, _. by split.
  - eexists _, _. by split.
Qed.

Lemma decimal_digits n : decimal n = true → all_digits n = true.
Proof.
  induction n as [|c n IH]; [done|]. simpl. intros [Hc Hn]%andb_true_iff. rewrite IH by done.
  unfold is_digit, digit_value. unfold between in Hc. rewrite Hc. done.
Qed.

Lemma digit_not c : is_digit c = true →
  Ascii.eqb c quote = false ∧ Ascii.eqb c "[" = false ∧ Ascii.eqb c "{" = false ∧
  Ascii.eqb "]" c = false ∧ Ascii.eqb "}" c = false.
Proof. destruct c as [[] [] [] [] [] [] [] []]; vm_compute; intros; done. Qed.

Lemma after_same c r : after c (String c r) = Some r.
Proof. unfold after. by rewrite Ascii.eqb_refl. Qed.
Lemma after_ne c d r : Ascii.eqb c d = false → after c (String d r) = None.
Proof. unfold after. by intros ->. Qed.

(** ** The reader reads what the grammar derives *)

(** How a value's text starts. *)
Lemma json_head d t v :
  json d t v → ∃ c r, t = String c r ∧ Ascii.eqb "]" c = false ∧ Ascii.eqb "}" c = false.
Proof.
  intros Hj. destruct Hj as [d|d|d|d n (Hne & Hd & _)|d t s Ht|d|d t l Hl|d|d t ms Hms].
  4: { destruct n as [|c n]; [done|]. exists c, n. split; [done|].
       apply decimal_digits in Hd. simpl in Hd. apply andb_true_iff in Hd as [Hc _].
       by destruct (digit_not c Hc) as (_ & _ & _ & ? & ?). }
  all: by eexists _, _.
Qed.

Lemma items_after d t l r : json_items d t l → after "]" (t +:+ r) = None.
Proof.
  destruct 1 as [d t v (c & u & -> & Hc & _)%json_head|d t v t' l (c & u & -> & Hc & _)%json_head];
    rewrite !string_app_cons; by apply after_ne.
Qed.
Lemma members_after d t ms r : json_members d t ms → after "}" (t +:+ r) = None.
Proof. by destruct 1. Qed.

Definition reads (t : string) (v : Value) : Prop := ∀ fuel r,
  String.length t ≤ fuel → ends_number r → read_value fuel (t +:+ r) = Some (v, r).

Lemma read_int n : json_integer n → reads n (Number n true).
Proof.
  intros (Hne & Hd%decimal_digits & _) [|fuel] r Hf Hr; destruct n as [|c n]; simpl in Hf; try done;
    [lia|].
  pose proof (read_digits_all _ _ Hd Hr) as Hrd. simpl in Hd. apply andb_true_iff in Hd as [Hc Hd].
  rewrite string_app_cons in *. cbn [read_value].
  destruct (digit_not c Hc) as (-> & -> & -> & _). by rewrite Hc, Hrd.
Qed.

Lemma json_reads :
  (∀ d t v, json d t v → reads t v) ∧
  (∀ d t l, json_items d t l → ∀ fuel r, String.length t < fuel →
     read_items fuel (t +:+ "]" +:+ r) = Some (l, r)) ∧
  (∀ d t ms, json_members d t ms → ∀ fuel r, String.length t < fuel →
     read_members fuel (t +:+ "}" +:+ r) = Some (ms, r)).
Proof.
  apply json_mutual; unfold reads.
  1-3: intros d [|fuel] r Hf Hr; simpl in Hf; [lia|]; rewrite !string_app_cons; reflexivity.
  - intros d n Hn. by apply read_int.
  - intros d t s Ht [|fuel] r Hf Hr; [simpl in Hf; lia|]. rewrite json_quoted_app.
    cbn [read_value]. change (Ascii.eqb quote quote) with true. cbn iota.
    by rewrite (read_string_json t s).
  - intros d [|fuel] r Hf Hr; [simpl in Hf; lia|]. reflexivity.
  - intros d t l Hl IH [|fuel] r Hf Hr; [simpl in Hf; lia|]. rewrite !string_app_assoc.
    rewrite string_app_cons, string_app_nil_l. cbn [read_value].
    change (Ascii.eqb "[" quote) with false. change (Ascii.eqb "[" "[") with true. cbn iota.
    rewrite (items_after _ _ _ _ Hl). rewrite IH; [done|].
    rewrite !length_string_app in Hf. simpl in Hf. lia.
  - intros d [|fuel] r Hf Hr; [simpl in Hf; lia|]. reflexivity.
  - intros d t l Hl IH [|fuel] r Hf Hr; [simpl in Hf; lia|]. rewrite !string_app_assoc.
    rewrite string_app_cons, string_app_nil_l. cbn [read_value].
    change (Ascii.eqb "{" quote) with false. change (Ascii.eqb "{" "[") with false.
    change (Ascii.eqb "{" "{") with true. cbn iota.
    rewrite (members_after _ _ _ _ Hl). rewrite IH; [done|].
    rewrite !length_string_app in Hf. simpl in Hf. lia.
  - intros d t v _ IH [|fuel] r Hf; [lia|]. cbn [read_items]. rewrite IH by (done || lia). done.
  - intros d t v t' l _ IH _ IHl [|fuel] r Hf; [lia|]. rewrite !length_string_app in Hf.
    simpl in Hf. rewrite !string_app_assoc. cbn [read_items].
    rewrite IH by (done || lia). rewrite string_app_cons, string_app_nil_l.
    rewrite after_ne, after_same by done. by rewrite IHl by lia.
  - intros d k key t v Hk _ IH [|fuel] r Hf; [lia|]. rewrite !length_string_app in Hf.
    rewrite !string_app_assoc, json_quoted_app. cbn [read_members].
    rewrite after_same, (read_string_json k key) by done.
    rewrite string_app_cons, string_app_nil_l, after_same.
    by rewrite IH by (done || lia).
  - intros d k key t v t' ms Hk _ IH _ IHm [|fuel] r Hf; [lia|]. rewrite !length_string_app in Hf.
    simpl in Hf. rewrite !string_app_assoc, json_quoted_app. cbn [read_members].
    rewrite after_same, (read_string_json k key) by done.
    rewrite string_app_cons, string_app_nil_l, after_same.
    rewrite IH by (done || lia). rewrite string_app_cons, string_app_nil_l.
    rewrite after_ne, after_same by done. by rewrite IHm by lia.
Qed.

(** A whole text, with nothing after the value. *)
Definition read_json (s : string) : option Value :=
  match read_value (String.length s) s with
  | Some (v, EmptyString) => Some v
  | _ => None
  end.

Lemma read_json_json d t v : json d t v → read_json t = Some v.
Proof.
  intros Hj. unfold read_json. rewrite <- (string_app_nil_r t) at 2.
  by rewrite (proj1 json_reads d t v Hj).
Qed.

(** The reader meets the law of [JsonLexer]. *)
Definition canonical_lexer : JsonLexer := {|
  exactly_one _ s := read_json s;
  exactly_one_json d t v Hj _ _ := read_json_json d t v Hj;
|}.

(** ** The writer writes JSON *)

Lemma escape_json c t s : json_chars t s → json_chars (escape c +:+ t) (String c s).
Proof.
  intros Ht. destruct c as [[] [] [] [] [] [] [] []];
    match goal with |- json_chars (escape ?c +:+ t) _ =>
      let e := eval vm_compute in (escape c) in change (escape c) with e end;
    rewrite ?string_app_cons, string_app_nil_l;
    first [apply chars_plain; [vm_compute; discriminate|discriminate|discriminate|done]
          |apply chars_escape; [reflexivity|done]
          |match goal with
           |- json_chars (String _ (String _ (String _ (String _ (String ?h (String ?l t)))))) _ =>
             exact (chars_unicode h l _ _ t s eq_refl eq_refl eq_refl Ht) end].
Qed.

Lemma escape_all_json s : json_chars (escape_all s) s.
Proof. induction s as [|c s IH]; [constructor|]. by apply escape_json. Qed.

Lemma dec_loop_leading fuel n acc :
  n ≠ 0%N → (n < 10 ^ N.of_nat fuel)%N →
  ∃ k r, (1 ≤ k < 10)%N ∧ dec_loop fuel n acc = String (digit k) r.
Proof.
  revert n acc. induction fuel as [|fuel IH]; intros n acc Hn Hf; [simpl in Hf; lia|].
  cbn [dec_loop]. pose proof (N.mod_lt n 10 ltac:(lia)). pose proof (N.div_mod n 10 ltac:(lia)).
  destruct (N.eqb_spec (n / 10) 0) as [Hz|Hz].
  - exists (n mod 10)%N, acc. split; [|done]. lia.
  - apply IH; [done|]. apply N.Div0.div_lt_upper_bound.
    rewrite Nat2N.inj_succ, N.pow_succ_r' in Hf. lia.
Qed.

Lemma digits_decimal s : all_digits s = true → decimal s = true.
Proof.
  induction s as [|c s IH]; [done|]. simpl. intros [Hc Hs]%andb_true_iff. rewrite IH by done.
  unfold is_digit, digit_value in Hc. unfold between. by destruct (_ && _)%bool.
Qed.

Lemma u_to_string_json n : json_integer (u_to_string n).
Proof.
  destruct (u_to_string_spec n) as (Hd%digits_decimal & c & r & Hc & _). split_and!; [|done|].
  - by rewrite Hc.
  - intros t Ht. destruct (decide (n = 0%N)) as [->|Hn]; [by injection Ht|]. exfalso.
    destruct (dec_loop_leading (S (N.size_nat n)) n "" Hn (size_fuel n)) as (k & u & Hk & E).
    unfold u_to_string in Ht. rewrite E in Ht. injection Ht as Hk0 _.
    apply (f_equal N_of_ascii) in Hk0. unfold digit in Hk0.
    rewrite N_ascii_embedding in Hk0 by lia. change (N_of_ascii "0") with 48%N in Hk0. lia.
Qed.

Lemma commas_json d f (l : list Cv) v :
  (∀ x, x ∈ v :: l → json d (f x) (value_of x)) →
  json_items d (commas (map f (v :: l))) (map value_of (v :: l)).
Proof.
  revert v. induction l as [|w l IH]; intros v Hf.
  - apply items_last, Hf. left.
  - change (commas (map f (v :: w :: l))) with (f v +:+ "," +:+ commas (map f (w :: l))).
    apply items_more; [apply Hf; left|]. apply IH. intros x Hx. apply Hf. by right.
Qed.

Lemma members_json d (es : list (string * Cv)) e :
  (∀ x, x ∈ e :: es → json d (write_value x.2) (value_of x.2)) →
  json_members d
    (commas (map (λ kv, write_json_string kv.1 +:+ ":" +:+ kv.2)
       (map (λ kv, (kv.1, write_value kv.2)) (e :: es))))
    (map (λ kv, (kv.1, value_of kv.2)) (e :: es)).
Proof.
  revert e. induction es as [|e' es IH]; intros [k v] Hf.
  - apply members_last; [apply escape_all_json|]. apply (Hf (k, v)). left.
  - cbn [map fst snd].
    change (commas (?x :: ?y :: ?l)) with (x +:+ "," +:+ commas (y :: l)).
    rewrite !string_app_assoc. apply members_more; [apply escape_all_json|apply (Hf (k, v)); left|].
    apply (IH e'). intros x Hx. apply Hf. by right.
Qed.

Lemma foldr_max_elem {A} (f : A → nat) x l :
  x ∈ l → f x ≤ foldr (λ y d, Nat.max (f y) d) 0 l.
Proof. induction 1; simpl; lia. Qed.

(** The text of a canonical value is JSON for its tree. *)
Lemma write_value_json v : ∀ d, cv_depth v ≤ d → json d (write_value v) (value_of v).
Proof.
  induction v as [s|n|l IH|es IH] using Cv_nested_ind; intros d Hd.
  - apply json_str, escape_all_json.
  - apply json_int, u_to_string_json.
  - cbn [cv_depth] in Hd. destruct d as [|d]; [lia|]. cbn [write_value value_of].
    destruct l as [|v l]; [apply json_nil|]. apply json_array, commas_json.
    intros x Hx. rewrite Forall_forall in IH. apply IH; [done|].
    pose proof (foldr_max_elem cv_depth x _ Hx). lia.
  - cbn [cv_depth] in Hd. destruct d as [|d]; [lia|]. cbn [write_value value_of].
    rewrite !sort_members_map.
    assert (Hes : ∀ x, x ∈ sort_members es → json d (write_value x.2) (value_of x.2)).
    { intros x Hx. rewrite sort_members_perm in Hx. rewrite Forall_forall in IH.
      apply IH; [done|]. pose proof (foldr_max_elem (λ kv, cv_depth kv.2) x es Hx). simpl in *. lia. }
    destruct (sort_members es) as [|e es']; [apply json_empty|].
    by apply json_object, members_json.
Qed.

Lemma read_json_write v : read_json (write_value v) = Some (value_of v).
Proof. by eapply read_json_json, write_value_json. Qed.

(** Unique readability, for any type with a codec. *)
Lemma codec_write_inj {A} (f : Value → parsed A) (g : A → Cv) `{!Codec f g} x y :
  nums_ok (g x) = true → nums_ok (g y) = true →
  write_value (g x) = write_value (g y) → x = y.
Proof.
  intros Hx Hy Heq. apply (f_equal read_json) in Heq. rewrite !read_json_write in Heq.
  injection Heq as Heq.
  apply value_of_same, (codec (f:=f)) in Hx. apply value_of_same, (codec (f:=f)) in Hy.
  congruence.
Qed.

(** ** Depth of a document *)

Lemma cv_depth_arr n l :
  Forall (λ v, cv_depth v ≤ n) l → cv_depth (Arr l) ≤ S n.
Proof. simpl. intros Hf. apply le_n_S. induction Hf; simpl; lia. Qed.
Lemma cv_depth_obj n es :
  Forall (λ e : string * Cv, cv_depth e.2 ≤ n) es → cv_depth (Obj es) ≤ S n.
Proof. simpl. intros Hf. apply le_n_S. induction Hf; simpl; lia. Qed.
Lemma cv_depth_map {A} (g : A → Cv) n l :
  (∀ x, cv_depth (g x) ≤ n) → cv_depth (Arr (map g l)) ≤ S n.
Proof. intros Hg. apply cv_depth_arr. induction l; simpl; constructor; auto. Qed.
Lemma cv_depth_strs l : cv_depth (strs l) ≤ 1.
Proof. by apply cv_depth_map. Qed.

Ltac solve_depth :=
  repeat match goal with
  | |- Forall _ (_ ++ _) => apply Forall_app_2
  | |- Forall _ (push_opt _ _ ?o) => destruct o; cbn [push_opt]
  | |- Forall _ (_ :: _) => apply Forall_cons_2; cbn [snd]
  | |- Forall _ [] => apply Forall_nil_2
  end.

Lemma pred_depth p : cv_depth (pred_to_cv p) ≤ 2.
Proof.
  destruct p; apply cv_depth_obj; solve_depth; simpl; try lia; apply cv_depth_strs.
Qed.
Lemma arg_constraint_depth a : cv_depth (arg_constraint_to_cv a) ≤ 3.
Proof. apply cv_depth_obj; solve_depth; [simpl; lia|apply pred_depth]. Qed.
Lemma rule_depth r : cv_depth (rule_to_cv r) ≤ 5.
Proof.
  apply cv_depth_obj. solve_depth; try (simpl; lia).
  - destruct (rule_scope r); simpl; lia.
  - etransitivity; [|exact (le_S _ _ (le_S _ _ (le_n 2)))].
    destruct (rule_principals r); apply cv_depth_obj; solve_depth; simpl; try lia;
      apply cv_depth_strs.
  - etransitivity; [apply cv_depth_strs|lia].
  - apply cv_depth_map, arg_constraint_depth.
  - etransitivity; [apply (cv_depth_obj 0)|lia]. unfold cap_to_cv. solve_depth; done.
Qed.
Lemma recovery_depth r : cv_depth (recovery_to_cv r) ≤ 3.
Proof.
  apply cv_depth_obj. solve_depth; try (simpl; lia).
  - destruct (mode r); apply cv_depth_obj; unfold push_guardian_fields, push_zk_fields;
      solve_depth; simpl; try lia; apply cv_depth_strs.
  - etransitivity; [apply cv_depth_strs|lia].
Qed.
Lemma doc_depth d : cv_depth (doc_to_cv d) ≤ 7.
Proof.
  apply cv_depth_obj. solve_depth; try (simpl; lia).
  - etransitivity; [apply (cv_depth_map _ 1)|lia].
    intros [? []]; simpl; lia.
  - apply cv_depth_map, rule_depth.
  - etransitivity; [apply recovery_depth|lia].
Qed.

(** ** The early version check *)

Lemma parse_digits_weaken b b' acc s n :
  (b ≤ b')%N → parse_digits b acc s = Some n → parse_digits b' acc s = Some n.
Proof.
  intros Hb. revert acc. induction s as [|c s IH]; intros acc; simpl; [done|].
  destruct (digit_value c) as [d|]; [|done].
  destruct (N.leb_spec (acc * 10 + d) b); [|done].
  rewrite (proj2 (N.leb_le _ b')) by lia. apply IH.
Qed.
Lemma parse_uint_weaken b b' s n :
  (b ≤ b')%N → parse_uint b s = Some n → parse_uint b' s = Some n.
Proof.
  intros Hb. unfold parse_uint. destruct s as [|c r]; [done|].
  destruct (Ascii.eqb c "+"); [destruct r; [done|]|]; by apply parse_digits_weaken.
Qed.

Definition bad_version (kv : string * Value) (ver : N) : Prop :=
  kv.1 = "version" ∧ ver ≠ 1%N ∧
  ∃ d, kv.2 = Number d true ∧ parse_uint U64_MAX d = Some ver.

Lemma version_check_cases ms :
  (version_check ms = Ok tt ∧ ∀ kv ver, kv ∈ ms → ¬ bad_version kv ver) ∨
  ∃ kv ver, kv ∈ ms ∧ bad_version kv ver ∧ version_check ms = Err (UnsupportedVersion ver).
Proof.
  induction ms as [|[k v] ms IH]; simpl; [left; split; [done|set_solver]|].
  assert ((∃ ver, bad_version (k, v) ver ∧
     (if String.eqb k "version" then
        match v with
        | Number n true => match parse_uint U64_MAX n with
            | Some ver => if (ver =? 1)%N then None else Some ver
            | None => None end
        | _ => None end else None) = Some ver) ∨
    ((∀ ver, ¬ bad_version (k, v) ver) ∧
     (if String.eqb k "version" then
        match v with
        | Number n true => match parse_uint U64_MAX n with
            | Some ver => if (ver =? 1)%N then None else Some ver
            | None => None end
        | _ => None end else None) = None)) as [(ver & Hb & ->)|[Hb ->]].
  { unfold bad_version; simpl. destruct (String.eqb_spec k "version"); [|naive_solver].
    destruct v as [| |n []| | |]; try naive_solver.
    destruct (parse_uint U64_MAX n) as [ver|] eqn:Hp; [|naive_solver].
    destruct (N.eqb_spec ver 1); [right|left]; naive_solver. }
  - right. exists (k, v), ver. set_solver.
  - destruct IH as [[-> IH]|(kv & ver & ? & ? & ->)].
    + left. split; [done|]. intros kv ver [->|Hin]%elem_of_cons; [done|eauto].
    + right. exists kv, ver. set_solver.
Qed.

(** An accepted document's version is the one the early check looked at. *)
Lemma doc_version_entry ms d :
  doc_from_value (Object ms) = Ok d →
  ∃ n, ("version", Number n true) ∈ ms ∧ parse_uint U64_MAX n = Some (doc_version d) ∧
    ∀ v, ("version", v) ∈ ms → v = Number n true.
Proof.
  intros Hd. apply (codec (f:=doc_from_value)) in Hd.
  apply doc_same in Hd as [_ Hf]. unfold doc_fields in Hf.
  apply Forall_cons in Hf as [([v|] & Hv & Hs) _]; [|done]. cbn [fst snd] in *.
  inversion Hs as [|n ? Hn| |]; subst. apply field_Some in Hv as (a & b & -> & Ha & Hb).
  exists n. split; [set_solver|]. split.
  { by eapply parse_uint_weaken, Hn. }
  intros w [Hw|[Hw|Hw]%elem_of_cons]%elem_of_app; [|congruence|].
  - exfalso. apply Ha, list_elem_of_fmap. by exists ("version", w).
  - exfalso. apply Hb, list_elem_of_fmap. by exists ("version", w).
Qed.

Lemma from_value_iff v d :
  from_value v = Ok d ↔ same v (doc_to_cv d) ∧ doc_version d = 1%N.
Proof.
  rewrite <- (codec (f:=doc_from_value)). unfold from_value.
  destruct v as [| | | | |ms]; [naive_solver..|].
  destruct (version_check_cases ms) as [[-> Hok]|(kv & ver & Hin & Hb & ->)]; simpl.
  - split; [|naive_solver]. intros Hd. split; [done|].
    destruct (doc_version_entry _ _ Hd) as (n & Hn & Hp & _).
    destruct (decide (doc_version d = 1%N)) as [|Hne]; [done|].
    exfalso. apply (Hok _ (doc_version d) Hn). unfold bad_version. naive_solver.
  - split; [done|]. intros [Hd Hv].
    destruct (doc_version_entry _ _ Hd) as (n & _ & Hp & Huniq).
    destruct kv as [k w], Hb as (Hk & Hne & m & Hw & Hm). simpl in *. subst.
    apply Huniq in Hin. congruence.
Qed.

(** ** What a document hash stands for *)

(** C30: The parser is exactly the inverse of the canonicalizer.  A JSON tree
    is accepted with result [d] iff it holds the data of [d]'s canonical form
    and nothing else (members in any order, no unknown, duplicate, missing or
    null member at any level, numbers as [u32]s) and its version is 1.  So
    two texts a reviewer may see that parse to the same document differ only
    in member order and in how numbers and strings are spelled. *)
Theorem from_value_exact v d :
  from_value v = Ok d ↔ same v (doc_to_cv d) ∧ doc_version d = 1%N.
Proof. apply from_value_iff. Qed.

(** Canonical bytes are injective.  Documents, rules and recovery
    configurations with [u32] numbers that have the same canonical JSON are
    equal, so a hash identifies its document up to hash collisions; and a
    rule's hash preimage is never a document's. *)
Theorem canonical_bytes_injective :
  (∀ d d', nums_ok (doc_to_cv d) = true → nums_ok (doc_to_cv d') = true →
     canonical_json d = canonical_json d' → d = d') ∧
  (∀ r r', nums_ok (rule_to_cv r) = true → nums_ok (rule_to_cv r') = true →
     RULE_HASH_DOMAIN +:+ rule_canonical_json r =
     RULE_HASH_DOMAIN +:+ rule_canonical_json r' → r = r') ∧
  (∀ c c', nums_ok (recovery_to_cv c) = true → nums_ok (recovery_to_cv c') = true →
     recovery_canonical_json c = recovery_canonical_json c' → c = c') ∧
  (∀ d r, canonical_json d ≠ RULE_HASH_DOMAIN +:+ rule_canonical_json r).
Proof.
  split_and!.
  - intros d d'. apply (codec_write_inj doc_from_value doc_to_cv).
  - intros r r' Hr Hr' Heq. apply string_app_inj_length in Heq as [_ Heq]; [|done].
    by eapply (codec_write_inj rule_from_value rule_to_cv).
  - intros c c'. apply (codec_write_inj recovery_from_value recovery_to_cv).
  - intros d r. unfold canonical_json.
    destruct (write_value_head (doc_to_cv d)) as (c & t & -> & ->). done.
Qed.

(** The version check comes first.  A document with any integer
    [version] other than 1 is refused with [UnsupportedVersion], whatever
    else is in it. *)
Theorem unsupported_version_first ms n ver :
  ("version", Number n true) ∈ ms → parse_uint U64_MAX n = Some ver → ver ≠ 1%N →
  ∃ ver', ver' ≠ 1%N ∧ from_value (Object ms) = Err (UnsupportedVersion ver').
Proof.
  intros Hin Hp Hne. unfold from_value.
  destruct (version_check_cases ms) as [[_ Hok]|(kv & ver' & _ & (_ & ? & _) & ->)].
  - exfalso. eapply (Hok _ ver Hin). unfold bad_version. naive_solver.
  - eauto.
Qed.

(** ** Witnesses *)

Module RoundTripDemo.
Definition demo_strkey : string := "CA" +:+ "LICE".
Definition demo_doc : PolicyDoc := {|
  doc_version := 1; doc_network := Some "testnet";
  doc_signers := [{| signer_id := "alice"; signer_method := Delegated demo_strkey |};
                  {| signer_id := "bob"; signer_method := External "CV" "00ff" |}];
  doc_rules := [{| rule_name := "pay"; rule_scope := Scope_Contract "CT";
                   rule_principals := Principals_Threshold ["alice"; "bob"] 1;
                   rule_functions := Some ["transfer"];
                   rule_args := Some [{| arg_index := 0; arg_pred := IsSelf |}];
                   rule_not_after_ledger := Some 500%N;
                   rule_cap := Some {| cap_token := None; cap_limit := "100";
                                       cap_period_ledgers := 10 |} |}];
  doc_recovery := None |}.

Lemma unsupported_version_first_witness :
  ∃ ver', ver' ≠ 1%N ∧
    from_value (Object [("unknown", Null); ("version", Number "2" true)]) =
      Err (UnsupportedVersion ver').
Proof.
  apply (unsupported_version_first _ "2" 2); [set_solver|reflexivity|lia].
Defined.

Lemma canonical_bytes_injective_witness :
  canonical_json demo_doc ≠
  canonical_json {| doc_version := 1; doc_network := None;
                    doc_signers := doc_signers demo_doc; doc_rules := doc_rules demo_doc;
                    doc_recovery := None |}.
Proof.
  intros Heq. apply (proj1 canonical_bytes_injective) in Heq; [|reflexivity..].
  discriminate.
Defined.
End RoundTripDemo.
