(* ===== verification/Utf8.v ===== *)
(** * UTF-8 and Rust values

    [utf8] is the shape of valid UTF-8 by rules, and [utf8_valid] decides it.
    Canonical texts of documents with valid strings are valid UTF-8, so every
    JSON lexer reads them back: the print-parse round trip.  A document parsed
    from a lexer that returns valid strings is a Rust value: its strings are
    valid UTF-8 and its numbers are [u32]s. *)

From S2P Require Import Prelude Doc Canon Parse ParseFacts RoundTrip.
#[local] Open Scope string_scope.
#[local] Open Scope list_scope.

(** The second byte of a three- and of a four-byte sequence. *)
Definition second_of_3 (a b : ascii) : bool :=
  (between 224 a 224 && between 160 b 191) || (between 225 a 236 && cont b)
  || (between 237 a 237 && between 128 b 159) || (between 238 a 239 && cont b).
Definition second_of_4 (a b : ascii) : bool :=
  (between 240 a 240 && between 144 b 191) || (between 241 a 243 && cont b)
  || (between 244 a 244 && between 128 b 143).

Inductive utf8 : string → Prop :=
| utf8_nil : utf8 ""
| utf8_1 a r : between 0 a 127 = true → utf8 r → utf8 (String a r)
| utf8_2 a b r : between 194 a 223 = true → cont b = true → utf8 r →
    utf8 (String a (String b r))
| utf8_3 a b c r : second_of_3 a b = true → cont c = true → utf8 r →
    utf8 (String a (String b (String c r)))
| utf8_4 a b c d r : second_of_4 a b = true → cont c = true → cont d = true → utf8 r →
    utf8 (String a (String b (String c (String d r)))).

Lemma between_true lo c hi : between lo c hi = true ↔ (lo ≤ N_of_ascii c ≤ hi)%N.
Proof. unfold between. rewrite andb_true_iff, !N.leb_le. done. Qed.
Lemma cont_true c : cont c = true ↔ (128 ≤ N_of_ascii c ≤ 191)%N.
Proof. unfold cont. rewrite andb_true_iff, !N.leb_le. done. Qed.

Lemma second_of_3_lead a b : second_of_3 a b = true → (224 ≤ N_of_ascii a ≤ 239)%N ∧ cont b = true.
Proof.
  unfold second_of_3. rewrite !orb_true_iff, !andb_true_iff, !between_true, cont_true. lia.
Qed.
Lemma second_of_4_lead a b : second_of_4 a b = true → (240 ≤ N_of_ascii a ≤ 244)%N ∧ cont b = true.
Proof.
  unfold second_of_4. rewrite !orb_true_iff, !andb_true_iff, !between_true, cont_true. lia.
Qed.

Lemma between_false lo c hi : (N_of_ascii c < lo ∨ hi < N_of_ascii c)%N → between lo c hi = false.
Proof. intros Hc. apply not_true_iff_false. rewrite between_true. lia. Qed.

Lemma utf8_valid_complete s : utf8 s → utf8_valid s = true.
Proof.
  induction 1 as [|a r Ha _ IH|a b r Ha Hb _ IH|a b c r Hab Hc _ IH|a b c d r Hab Hc Hd _ IH].
  - done.
  - simpl. by rewrite Ha.
  - simpl. pose proof (proj1 (between_true _ _ _) Ha). rewrite (between_false 0), Ha, Hb by lia. done.
  - pose proof (second_of_3_lead a b Hab) as [? ?]. simpl.
    rewrite (between_false 0), (between_false 194) by lia. simpl.
    fold (second_of_3 a b). by rewrite Hab, Hc.
  - pose proof (second_of_4_lead a b Hab) as [? ?]. simpl.
    rewrite (between_false 0), (between_false 194) by lia. simpl.
    fold (second_of_3 a b). destruct (second_of_3 a b) eqn:H3.
    { pose proof (second_of_3_lead a b H3). lia. }
    simpl. fold (second_of_4 a b). by rewrite Hab, Hc, Hd.
Qed.

Lemma utf8_valid_sound n : ∀ s, (String.length s ≤ n)%nat → utf8_valid s = true → utf8 s.
Proof.
  induction n as [|n IH]; intros [|a r] Hn Hv; try apply utf8_nil; simpl in Hn; [lia|].
  simpl in Hv. destruct (between 0 a 127) eqn:Ha; [apply utf8_1; [done|apply IH; [lia|done]]|].
  destruct r as [|b r]; [done|]. simpl in Hn.
  destruct (between 194 a 223 && cont b) eqn:Hb.
  { apply andb_true_iff in Hb as [? ?]. apply utf8_2; try done. apply IH; [lia|done]. }
  destruct r as [|c r]; [done|]. simpl in Hn. fold (second_of_3 a b) in Hv.
  destruct (second_of_3 a b && cont c) eqn:Hc.
  { apply andb_true_iff in Hc as [? ?]. apply utf8_3; try done. apply IH; [lia|done]. }
  destruct r as [|d r]; [done|]. simpl in Hn. fold (second_of_4 a b) in Hv.
  rewrite !andb_true_iff in Hv. destruct Hv as (((? & ?) & ?) & ?).
  apply utf8_4; try done. apply IH; [lia|done].
Qed.

Lemma utf8_valid_iff s : utf8_valid s = true ↔ utf8 s.
Proof. split; [by apply (utf8_valid_sound (String.length s))|apply utf8_valid_complete]. Qed.

Lemma utf8_app s t : utf8 s → utf8 t → utf8 (s +:+ t).
Proof. induction 1; simpl; intros; [done|by constructor; auto..]. Qed.

(** ** Canonical texts *)

Lemma high_escape c : (128 ≤ N_of_ascii c)%N → escape c = String c "".
Proof.
  intros Hc. unfold escape.
  repeat match goal with
  | |- context [(N_of_ascii c =? ?n)%N] =>
      destruct (N.eqb_spec (N_of_ascii c) n); [lia|]
  | |- context [(N_of_ascii c <? ?n)%N] =>
      destruct (N.ltb_spec (N_of_ascii c) n); [lia|]
  end. done.
Qed.

Lemma N_of_chr n : (n < 256)%N → N_of_ascii (chr n) = n.
Proof. apply N_ascii_embedding. Qed.

Lemma hex_digit_ascii n : (n < 16)%N → between 0 (hex_digit n) 127 = true.
Proof.
  intros Hn. rewrite between_true. unfold hex_digit.
  destruct (N.ltb_spec n 10); rewrite N_of_chr; lia.
Qed.

Lemma land_15 n : (N.land n 15 < 16)%N.
Proof. change 15%N with (N.ones 4). rewrite N.land_ones. by apply N.mod_lt. Qed.

Lemma low_escape c : between 0 c 127 = true → utf8 (escape c).
Proof.
  intros Hc. unfold escape.
  repeat (case_match; [repeat (apply utf8_1; [reflexivity|]); apply utf8_nil|]).
  case_match; [|apply utf8_1; [done|apply utf8_nil]].
  apply utf8_1; [reflexivity|]. simpl. repeat (apply utf8_1; [reflexivity|]).
  repeat (apply utf8_1; [apply hex_digit_ascii, land_15|]). apply utf8_nil.
Qed.

Lemma utf8_escape s : utf8 s → utf8 (escape_all s).
Proof.
  induction 1 as [|a r Ha _ IH|a b r Ha Hb _ IH|a b c r Hab Hc _ IH|a b c d r Hab Hc Hd _ IH];
    simpl.
  - constructor.
  - apply utf8_app; [by apply low_escape|done].
  - pose proof (proj1 (between_true _ _ _) Ha). pose proof (proj1 (cont_true _) Hb).
    rewrite !high_escape by lia. simpl. by apply utf8_2.
  - pose proof (second_of_3_lead a b Hab) as [? Hb%cont_true]. pose proof (proj1 (cont_true _) Hc).
    rewrite !high_escape by lia. simpl. by apply utf8_3.
  - pose proof (second_of_4_lead a b Hab) as [? Hb%cont_true]. pose proof (proj1 (cont_true _) Hc).
    pose proof (proj1 (cont_true _) Hd). rewrite !high_escape by lia. simpl. by apply utf8_4.
Qed.

Lemma utf8_json_string s : utf8 s → utf8 (write_json_string s).
Proof.
  intros Hs. unfold write_json_string. apply utf8_1; [reflexivity|].
  apply utf8_app; [by apply utf8_escape|]. apply utf8_1; [reflexivity|constructor].
Qed.

Lemma utf8_dec fuel : ∀ n acc, utf8 acc → utf8 (dec_loop fuel n acc).
Proof.
  induction fuel as [|fuel IH]; intros n acc Hacc; simpl; [done|].
  assert (utf8 (String (digit (n mod 10)) acc)).
  { apply utf8_1; [|done]. rewrite between_true. unfold digit.
    pose proof (N.mod_lt n 10 ltac:(lia)) as Hk. revert Hk. generalize (n mod 10)%N. intros k Hk.
    rewrite N_ascii_embedding by lia. lia. }
  case_match; auto.
Qed.

Lemma utf8_commas l : Forall utf8 l → utf8 (commas l).
Proof.
  induction 1 as [|x l Hx Hl IH]; simpl; [constructor|]. destruct l; [done|].
  apply utf8_app; [done|]. apply utf8_1; [reflexivity|]. done.
Qed.

(** Every object key of the tree is valid too. *)
Fixpoint keys_ok (v : Cv) : bool :=
  match v with
  | Str _ | U32 _ => true
  | Arr items => forallb keys_ok items
  | Obj entries => forallb (λ kv, utf8_valid kv.1 && keys_ok kv.2) entries
  end.

Lemma utf8_write_value v : cv_ok v = true → keys_ok v = true → utf8 (write_value v).
Proof.
  induction v as [s|n|l IH|es IH] using Cv_nested_ind; cbn [cv_ok keys_ok write_value].
  - intros Hs _. by apply utf8_json_string, utf8_valid_iff.
  - intros _ _. apply utf8_dec. constructor.
  - rewrite !forallb_forall. intros Hok Hk. apply utf8_1; [reflexivity|].
    apply utf8_app; [|apply utf8_1; [reflexivity|constructor]]. apply utf8_commas, Forall_forall.
    intros x (v & <- & Hv%list_elem_of_In)%list_elem_of_In%in_map_iff.
    rewrite Forall_forall in IH. apply IH; [done|apply Hok|apply Hk]; by apply list_elem_of_In.
  - rewrite !forallb_forall. intros Hok Hk. apply utf8_1; [reflexivity|].
    apply utf8_app; [|apply utf8_1; [reflexivity|constructor]]. apply utf8_commas, Forall_forall.
    intros x (kv & <- & Hin)%list_elem_of_In%in_map_iff.
    apply list_elem_of_In in Hin. rewrite sort_members_perm in Hin.
    apply list_elem_of_In, in_map_iff in Hin as (kc & <- & Hin). simpl.
    pose proof (Hk kc Hin) as [? ?]%andb_true_iff. rewrite Forall_forall in IH.
    apply utf8_app; [by apply utf8_json_string, utf8_valid_iff|]. apply utf8_1; [reflexivity|].
    apply IH; [by apply list_elem_of_In|by apply Hok|done].
Qed.

(** ** Documents *)

Lemma forallb_map_all {A B} (f : A → B) (p : B → bool) l :
  (∀ x, p (f x) = true) → forallb p (map f l) = true.
Proof. intros Hp. induction l; simpl; [done|]. by rewrite Hp. Qed.

Lemma forallb_push_opt {A} (p : string * Cv → bool) k (f : A → Cv) o :
  (∀ x, p (k, f x) = true) → forallb p (push_opt k f o) = true.
Proof. intros Hp. destruct o; simpl; [|done]. by rewrite Hp. Qed.

Ltac keys :=
  cbn [keys_ok]; rewrite ?forallb_app;
  repeat (rewrite forallb_push_opt; [|intros]); simpl;
  repeat (rewrite forallb_map_all; [|intros]); try reflexivity.

Lemma signer_keys s : keys_ok (signer_to_cv s) = true.
Proof. unfold signer_to_cv. destruct (signer_method s); reflexivity. Qed.
Lemma strs_keys l : keys_ok (strs l) = true.
Proof. unfold strs. keys. Qed.
Lemma principals_keys p : keys_ok (principals_to_cv p) = true.
Proof. destruct p; cbn [principals_to_cv keys_ok forallb snd]; rewrite ?strs_keys; reflexivity. Qed.
Lemma pred_keys p : keys_ok (pred_to_cv p) = true.
Proof. destruct p; cbn [pred_to_cv keys_ok forallb snd]; rewrite ?strs_keys; reflexivity. Qed.
Lemma arg_keys a : keys_ok (arg_constraint_to_cv a) = true.
Proof. cbn [arg_constraint_to_cv keys_ok forallb snd]. rewrite pred_keys. reflexivity. Qed.
Lemma cap_keys c : keys_ok (cap_to_cv c) = true.
Proof. unfold cap_to_cv. keys. Qed.
Lemma scope_keys s : keys_ok (scope_to_cv s) = true.
Proof. destruct s; reflexivity. Qed.
Lemma rule_keys r : keys_ok (rule_to_cv r) = true.
Proof.
  unfold rule_to_cv. cbn [keys_ok]. rewrite !forallb_app. cbn [forallb fst snd].
  rewrite scope_keys, principals_keys.
  rewrite !forallb_push_opt; [reflexivity|intros x; cbn [fst snd]..].
  - by rewrite cap_keys.
  - reflexivity.
  - cbn [keys_ok]. by rewrite (forallb_map_all arg_constraint_to_cv keys_ok) by apply arg_keys.
  - by rewrite strs_keys.
Qed.
Lemma mode_keys m : keys_ok (recovery_mode_to_cv m) = true.
Proof.
  destruct m; cbn [recovery_mode_to_cv keys_ok]; unfold push_guardian_fields, push_zk_fields;
    cbn [forallb app fst snd]; rewrite ?strs_keys; reflexivity.
Qed.
Lemma recovery_keys r : keys_ok (recovery_to_cv r) = true.
Proof.
  unfold recovery_to_cv. cbn [keys_ok]. rewrite !forallb_app. cbn [forallb fst snd].
  rewrite mode_keys, strs_keys, forallb_push_opt; [reflexivity|]. intros b. reflexivity.
Qed.
Lemma doc_keys d : keys_ok (doc_to_cv d) = true.
Proof.
  unfold doc_to_cv. cbn [keys_ok]. rewrite !forallb_app. cbn [forallb fst snd].
  rewrite !forallb_push_opt; [|intros x; cbn [fst snd]; by rewrite ?recovery_keys..].
  cbn [keys_ok]. rewrite (forallb_map_all signer_to_cv keys_ok) by apply signer_keys.
  rewrite (forallb_map_all rule_to_cv keys_ok) by apply rule_keys. reflexivity.
Qed.

(** The canonical text of a Rust value is valid UTF-8. *)
Lemma utf8_canonical d : cv_ok (doc_to_cv d) = true → utf8_valid (canonical_json d) = true.
Proof. intros Hd. apply utf8_valid_iff, utf8_write_value; [done|apply doc_keys]. Qed.

(** ** The round trip *)

Lemma value_of_ok v : cv_ok v = true → value_ok (value_of v) = true.
Proof.
  induction v as [s|n|l IH|es IH] using Cv_nested_ind; cbn [cv_ok value_of value_ok]; try done.
  - rewrite !forallb_forall, Forall_forall in *. intros Hok x (c & <- & Hc)%in_map_iff.
    apply IH; [by apply list_elem_of_In|auto].
  - rewrite !forallb_forall, Forall_forall in *. intros Hok x Hx%list_elem_of_In.
    rewrite sort_members_perm in Hx. apply list_elem_of_In, in_map_iff in Hx as (kc & <- & Hc).
    simpl. apply IH; [by apply list_elem_of_In|auto].
Qed.

Lemma from_json_canonical `{JsonLexer} d :
  cv_ok (doc_to_cv d) = true → doc_version d = 1%N →
  from_json (canonical_json d) = Ok d.
Proof.
  intros Hok Hv. unfold from_json.
  rewrite (exactly_one_json _ _ (value_of (doc_to_cv d))).
  - apply from_value_iff. split; [|done]. by apply value_of_same, cv_ok_nums.
  - apply write_value_json. etransitivity; [apply doc_depth|]. unfold MAX_DEPTH. lia.
  - by apply utf8_canonical.
  - by apply value_of_ok.
Qed.

(** C31: Print-parse round trip.  The canonical text of a version-1 document
    whose strings are valid UTF-8 and whose numbers are [u32]s is JSON by the
    grammar, at most seven levels deep, and valid UTF-8; and every lexer that
    reads the grammar's texts reads it so that parsing gives the document
    back. *)
Theorem from_json_canonical_json `{JsonLexer} d :
  cv_ok (doc_to_cv d) = true → doc_version d = 1%N →
  json 7 (canonical_json d) (value_of (doc_to_cv d)) ∧
  utf8_valid (canonical_json d) = true ∧
  from_json (canonical_json d) = Ok d.
Proof.
  intros Hok Hv. split_and!; [apply write_value_json, doc_depth|by apply utf8_canonical|].
  by apply from_json_canonical.
Qed.

(** ** Parsed documents *)

(** A lexer returns valid strings: a Rust [String] is valid UTF-8. *)
Class LexerStrings `{JsonLexer} : Prop :=
  exactly_one_ok depth s v : exactly_one depth s = Some v → value_ok v = true.

Lemma parse_uint_bound bound s n : parse_uint bound s = Some n → (n ≤ bound)%N.
Proof.
  assert (Hd : ∀ t acc k, (acc ≤ bound)%N → parse_digits bound acc t = Some k → (k ≤ bound)%N).
  { induction t as [|c t IH]; intros acc k Hacc; cbn [parse_digits]; [intros [= <-]; done|].
    destruct (digit_value c); [|done]. destruct (N.leb_spec (acc * 10 + n0) bound); [|done].
    intros. by eapply IH. }
  unfold parse_uint. intros Hp.
  repeat (case_match; try done); eapply Hd; try exact Hp; lia.
Qed.

Lemma same_cv_ok c : ∀ v, same v c → value_ok v = true → cv_ok c = true.
Proof.
  induction c as [s|n|l IH|es IH] using Cv_nested_ind; intros v Hs Hv;
    inversion Hs as [?|??|?? Hf|??? Hperm Hf]; subst.
  - done.
  - cbn [cv_ok]. apply N.leb_le. by eapply parse_uint_bound.
  - cbn [cv_ok value_ok] in *. rewrite forallb_forall in *. intros c Hc%list_elem_of_In.
    apply list_elem_of_lookup in Hc as [i Hc].
    destruct (Forall2_lookup_r _ _ _ _ _ Hf Hc) as (x & Hx & Hxc).
    rewrite Forall_forall in IH. eapply IH; [by eapply list_elem_of_lookup_2|exact Hxc|].
    apply Hv, list_elem_of_In. by eapply list_elem_of_lookup_2.
  - cbn [cv_ok value_ok] in *. rewrite forallb_forall in *. intros c Hc%list_elem_of_In.
    apply list_elem_of_lookup in Hc as [i Hc].
    destruct (Forall2_lookup_r _ _ _ _ _ Hf Hc) as (x & Hx & _ & Hxc).
    rewrite Forall_forall in IH. eapply IH; [by eapply list_elem_of_lookup_2|exact Hxc|].
    apply Hv, list_elem_of_In. rewrite Hperm. by eapply list_elem_of_lookup_2.
Qed.

(** A parsed document is a Rust value of version 1. *)
Lemma from_json_ok `{!JsonLexer, !LexerStrings} s d :
  from_json s = Ok d → cv_ok (doc_to_cv d) = true ∧ doc_version d = 1%N.
Proof.
  unfold from_json. destruct (exactly_one MAX_DEPTH s) as [v|] eqn:Hv; [|done].
  intros [Hs Hver]%from_value_iff. split; [|done].
  eapply same_cv_ok; [exact Hs|by eapply exactly_one_ok].
Qed.

(** ** A witness *)

Module Utf8Demo.
#[local] Existing Instance canonical_lexer.
Import RoundTripDemo.

(** A document with a name that needs escapes, and one in two-byte UTF-8. *)
Definition escaped_doc : PolicyDoc := {|
  doc_version := 1; doc_network := Some (String (chr 195) (String (chr 169) "t"));
  doc_signers := doc_signers demo_doc;
  doc_rules := [{| rule_name := String (chr 34) (String (chr 92) (String (chr 1) (String (chr 10) "x")));
                   rule_scope := Scope_SelfAdmin; rule_principals := Principals_All ["alice"];
                   rule_functions := None; rule_args := None; rule_not_after_ledger := Some 0%N;
                   rule_cap := None |}];
  doc_recovery := None |}.

Lemma from_json_canonical_json_witness :
  json 7 (canonical_json escaped_doc) (value_of (doc_to_cv escaped_doc)) ∧
  utf8_valid (canonical_json escaped_doc) = true ∧
  from_json (canonical_json escaped_doc) = Ok escaped_doc.
Proof. apply from_json_canonical_json; reflexivity. Defined.
End Utf8Demo.
