(* ===== verification/Validate.v ===== *)
(** * perch-ir: semantic validation of documents

    Models [crates/perch-ir/src/validate.rs]: the strkey check with its inline
    base32 decoding and CRC16, and [validate], which collects every violation
    in order.  The [hex] crate is a parameter, the class [HexCodec].

    [validate_Ok] states what an accepted document satisfies, as a
    declarative predicate free of loops and error lists. *)

From S2P Require Import Prelude Doc.
#[local] Open Scope string_scope.
#[local] Open Scope list_scope.
#[local] Open Scope nat_scope.

(** [hex::decode]. *)
Class HexCodec : Type := { hex_decode : string → option bytes }.

Definition ACK_SENTINEL : string :=
  "this-policy-authenticates-or-anyone-can-fire-this-rule".
Definition MAX_SIGNER_KEY_LEN : nat := 256.
Definition MAX_STRING_PRED_LEN : nat := 256.

Inductive ValidationError : Type :=
| UnsupportedVersion (version : N)
| EmptySignerId (position : nat)
| DuplicateSignerId (id : string)
| DuplicateSignerKey (id first_id : string)
| InvalidSignerKeyHex (id : string)
| SignerKeyLength (id : string) (len : nat)
| InvalidVerifierAddress (id address : string)
| InvalidDelegatedAddress (id address : string)
| EmptyRuleName (position : nat)
| DuplicateRuleName (name : string)
| InvalidContractAddress (rule address : string)
| EmptyPrincipalSigners (rule : string)
| DuplicatePrincipalSigner (rule id : string)
| UnknownSignerRef (rule id : string)
| InvalidThreshold (rule : string) (m : N) (n : nat)
| WrongAckSentinel (rule : string)
| InvalidPolicyAddress (rule address : string)
| InvalidInstallParamHex (rule : string)
| EmptyFunctions (rule : string)
| EmptyFunctionName (rule : string)
| DuplicateFunction (rule name : string)
| InvalidFunctionName (rule name : string)
| EmptyArgs (rule : string)
| DuplicateArgIndex (rule : string) (index : N)
| EmptyStringInValues (rule : string) (index : N)
| DuplicateStringInValue (rule : string) (index : N) (value : string)
| StringPredicateTooLong (rule : string) (index : N) (len : nat)
| InvalidArgAddress (rule : string) (index : N) (address : string)
| ZeroNotAfterLedger (rule : string)
| InvalidCapLimit (rule limit : string)
| ZeroCapPeriod (rule : string)
| InvalidCapToken (rule address : string)
| CapWithoutToken (rule : string)
| CapTokenMismatch (rule token scope : string)
| RuleScopedToRecoveryContract (rule address : string)
| EmptyRecoveryReplaceable
| DuplicateRecoveryReplaceable (id : string)
| UnknownRecoveryReplaceableRef (id : string)
| ZeroRecoveryDelayLedgers
| ZeroRecoveryExpiryLedgers
| ZeroRecoveryMaxCancels
| InvalidRecoveryController (address : string)
| InvalidBaselineDocHash (doc_hash : string)
| EmptyGuardianSet
| DuplicateGuardian (address : string)
| InvalidGuardianAddress (address : string)
| InvalidGuardianQuorum (quorum : N) (n : nat)
| InvalidRecoveryAdapter (address : string)
| InvalidCircuitId (circuit_id : string)
| InvalidEnrollmentId (enrollment_id : string)
| InvalidCommitment (commitment : string)
| InvalidRecoveryPool (address : string).

(** ** Strkeys *)

Fixpoint all_bytes (f : N → bool) (s : string) : bool :=
  match s with
  | EmptyString => true
  | String c s => f (N_of_ascii c) && all_bytes f s
  end.
Definition in_range (lo hi b : N) : bool := (lo <=? b)%N && (b <=? hi)%N.

Definition base32_value (b : N) : option N :=
  if in_range 65 90 b then Some (b - 65)%N
  else if in_range 50 55 b then Some (b - 50 + 26)%N
  else None.

(** The decoding loop: [buf] is a [u32] (bits shifted out are lost), [bits]
    the bits not yet emitted, [data] the bytes so far. *)
Fixpoint base32_loop (s : string) (buf bits : N) (data : list N) : option (list N) :=
  match s with
  | EmptyString => Some data
  | String c s =>
      match base32_value (N_of_ascii c) with
      | None => None
      | Some v =>
          let buf := N.lor (N.land (N.shiftl buf 5) U32_MAX) v in
          let bits := (bits + 5)%N in
          if (8 <=? bits)%N then
            let bits := (bits - 8)%N in
            if 35 <=? length data then None
            else base32_loop s buf bits (data ++ [N.land (N.shiftr buf bits) 255])
          else base32_loop s buf bits data
      end
  end.

(** CRC16-XModem on [u16]. *)
Definition crc_shift (crc : N) : N :=
  let shifted := N.land (N.shiftl crc 1) 65535 in
  if negb (N.land crc 32768 =? 0)%N then N.lxor shifted 4129 else shifted.
Definition crc_byte (crc b : N) : N :=
  Nat.iter 8 crc_shift (N.lxor crc (N.land (N.shiftl b 8) 65535)).
Definition crc16 (data : list N) : N := fold_left crc_byte data 0%N.

Definition strkey_checksum_ok (s : string) : bool :=
  if negb (String.length s =? 56) then false
  else match base32_loop s 0 0 [] with
  | None => false
  | Some data =>
      if negb (length data =? 35) then false
      else
        let want := (nth 33 data 0 + 256 * nth 34 data 0)%N in
        (crc16 (take 33 data) =? want)%N
  end.

Definition is_strkey_shape (s : string) (leads : list N) : bool :=
  (String.length s =? 56) &&
  match s with String c _ => contains leads (N_of_ascii c) | EmptyString => false end &&
  all_bytes (λ b, in_range 65 90 b || in_range 50 55 b) s &&
  strkey_checksum_ok s.

Definition is_contract_address_shape (s : string) : bool := is_strkey_shape s [67%N].
Definition is_address_shape (s : string) : bool := is_strkey_shape s [67; 71]%N.

Definition is_valid_symbol (s : string) : bool :=
  (1 <=? String.length s) && (String.length s <=? 32) &&
  all_bytes (λ b, in_range 97 122 b || in_range 65 90 b || in_range 48 57 b || (b =? 95)%N) s.

Definition is_sha256_hex (s : string) : bool :=
  (String.length s =? 64) && all_bytes (λ b, in_range 48 57 b || in_range 97 102 b) s.

Definition BN254_SCALAR_MODULUS_HEX : string :=
  "30644e72e131a029b85045b68181585d2833e84879b9709143e1f593f0000001".

(** [str::parse::<i128>]. *)
Definition digit_of (c : ascii) : option Z :=
  let b := N_of_ascii c in if in_range 48 57 b then Some (Z.of_N b - 48)%Z else None.
Fixpoint parse_i128_loop (neg : bool) (acc : Z) (s : string) : option Z :=
  match s with
  | EmptyString => Some acc
  | String c s =>
      match digit_of c with
      | None => None
      | Some d =>
          let acc := if neg then (acc * 10 - d)%Z else (acc * 10 + d)%Z in
          if (I128_MIN <=? acc)%Z && (acc <=? I128_MAX)%Z then parse_i128_loop neg acc s
          else None
      end
  end.
Definition parse_i128 (s : string) : option Z :=
  match s with
  | EmptyString => None
  | String c r =>
      if Ascii.eqb c "-" then
        match r with EmptyString => None | _ => parse_i128_loop true 0 r end
      else if Ascii.eqb c "+" then
        match r with EmptyString => None | _ => parse_i128_loop false 0 r end
      else parse_i128_loop false 0 s
  end.

(** ** Collecting violations *)

Section validate.
Context `{HexCodec}.
Abbreviation errors := (list ValidationError).

(** [if cond { errors.push(e) }]. *)
Definition push_if (b : bool) (e : ValidationError) : errors := if b then [e] else [].

(** A loop over [l] with a [BTreeSet] of the keys seen so far: [body fresh x]
    are the errors of one turn, [key x] what the turn inserts. *)
Fixpoint seen_loop {A K} `{EqDecision K} (key : A → option K)
    (body : bool → A → errors) (seen : list K) (l : list A) : errors :=
  match l with
  | [] => []
  | x :: l =>
      match key x with
      | Some k => body (negb (contains seen k)) x ++ seen_loop key body (k :: seen) l
      | None => body true x ++ seen_loop key body seen l
      end
  end.

(** The signer loop, with the ids, the key material and the delegated
    addresses seen so far. *)
Fixpoint signers_loop (position : nat) (ids : list string)
    (seen_key_material : gmap (string * bytes) string)
    (seen_delegated : gmap string string) (l : list SignerDecl) : errors :=
  match l with
  | [] => []
  | signer :: l =>
      let id := signer_id signer in
      let ids_errors :=
        if String.eqb id "" then [EmptySignerId position]
        else push_if (contains ids id) (DuplicateSignerId id) in
      let ids := if String.eqb id "" then ids else id :: ids in
      match signer_method signer with
      | External verifier key =>
          let '(errs, km) :=
            match hex_decode key with
            | None => ([InvalidSignerKeyHex id], seen_key_material)
            | Some decoded =>
                let len := String.length decoded in
                let len_errors :=
                  push_if ((len =? 0) || (MAX_SIGNER_KEY_LEN <? len))
                    (SignerKeyLength id len) in
                match seen_key_material !! (verifier, decoded) with
                | Some first =>
                    (len_errors ++ [DuplicateSignerKey id first], seen_key_material)
                | None => (len_errors, <[(verifier, decoded) := id]> seen_key_material)
                end
            end in
          ids_errors ++ errs ++
          push_if (negb (is_contract_address_shape verifier))
            (InvalidVerifierAddress id verifier) ++
          signers_loop (S position) ids km seen_delegated l
      | Delegated address =>
          let '(errs, del) :=
            match seen_delegated !! address with
            | Some first => ([DuplicateSignerKey id first], seen_delegated)
            | None => ([], <[address := id]> seen_delegated)
            end in
          ids_errors ++
          push_if (negb (is_address_shape address)) (InvalidDelegatedAddress id address) ++
          errs ++ signers_loop (S position) ids seen_key_material del l
      end
  end.

Definition validate_principal_signers (rule : string) (signers declared : list string)
  : errors :=
  push_if (bool_decide (signers = [])) (EmptyPrincipalSigners rule) ++
  seen_loop Some
    (λ fresh id, push_if (negb fresh) (DuplicatePrincipalSigner rule id) ++
                 push_if (negb (contains declared id)) (UnknownSignerRef rule id))
    [] signers.

Definition validate_principals (rule : string) (p : Principals) (declared : list string)
  : errors :=
  match p with
  | Principals_All signers => validate_principal_signers rule signers declared
  | Principals_Threshold signers m =>
      validate_principal_signers rule signers declared ++
      push_if ((m =? 0)%N || (length signers <? N.to_nat m))
        (InvalidThreshold rule m (length signers))
  | Principals_SelfAuthenticating policy install_param_hex ack =>
      push_if (negb (String.eqb ack ACK_SENTINEL)) (WrongAckSentinel rule) ++
      push_if (negb (is_contract_address_shape policy)) (InvalidPolicyAddress rule policy) ++
      push_if (bool_decide (hex_decode install_param_hex = None))
        (InvalidInstallParamHex rule)
  end.

Definition validate_functions (rule : string) (functions : list string) : errors :=
  push_if (bool_decide (functions = [])) (EmptyFunctions rule) ++
  seen_loop Some
    (λ fresh func,
       (if String.eqb func "" then [EmptyFunctionName rule]
        else push_if (negb (is_valid_symbol func)) (InvalidFunctionName rule func)) ++
       push_if (negb fresh) (DuplicateFunction rule func))
    [] functions.

Definition validate_pred (rule : string) (index : N) (pred : ArgPred) : errors :=
  match pred with
  | StringIn values =>
      push_if (bool_decide (values = [])) (EmptyStringInValues rule index) ++
      seen_loop Some
        (λ fresh value, push_if (negb fresh) (DuplicateStringInValue rule index value))
        [] values
  | StringPrefix pfx =>
      push_if (MAX_STRING_PRED_LEN <? String.length pfx)
        (StringPredicateTooLong rule index (String.length pfx))
  | AddressEq address =>
      push_if (negb (is_address_shape address)) (InvalidArgAddress rule index address)
  | IsSelf | U32Eq _ => []
  end.

Definition validate_args (rule : string) (args : list ArgConstraint) : errors :=
  push_if (bool_decide (args = [])) (EmptyArgs rule) ++
  seen_loop (λ c, Some (arg_index c))
    (λ fresh c, push_if (negb fresh) (DuplicateArgIndex rule (arg_index c)) ++
                validate_pred rule (arg_index c) (arg_pred c))
    [] args.

Definition validate_cap (rule : string) (scope : Scope) (cap : CapConstraint) : errors :=
  push_if (match parse_i128 (cap_limit cap) with
           | Some v => (v <=? 0)%Z
           | None => true
           end) (InvalidCapLimit rule (cap_limit cap)) ++
  push_if (cap_period_ledgers cap =? 0)%N (ZeroCapPeriod rule) ++
  match scope with
  | Scope_Contract address =>
      match cap_token cap with
      | Some token =>
          if negb (is_contract_address_shape token) then [InvalidCapToken rule token]
          else push_if (negb (String.eqb token address))
                 (CapTokenMismatch rule token address)
      | None => []
      end
  | Scope_SelfAdmin => [CapWithoutToken rule]
  end.

Definition validate_rule (rule : Rule) (declared : list string) : errors :=
  let name := rule_name rule in
  match rule_scope rule with
  | Scope_Contract address =>
      push_if (negb (is_contract_address_shape address))
        (InvalidContractAddress name address)
  | Scope_SelfAdmin => []
  end ++
  validate_principals name (rule_principals rule) declared ++
  match rule_functions rule with
  | Some functions => validate_functions name functions
  | None => []
  end ++
  match rule_args rule with
  | Some args => validate_args name args
  | None => []
  end ++
  push_if (bool_decide (rule_not_after_ledger rule = Some 0%N)) (ZeroNotAfterLedger name) ++
  match rule_cap rule with
  | Some cap => validate_cap name (rule_scope rule) cap
  | None => []
  end.

Definition zk_factor (m : RecoveryMode) : option ZkFactor :=
  match m with
  | GuardianOnly _ => None
  | ZkOnly z | Combined _ z => Some z
  end.

Definition validate_rules_avoid_zk_contracts (doc : PolicyDoc) (r : RecoveryConfig) : errors :=
  match zk_factor (mode r) with
  | None => []
  | Some zk =>
      concat (map (λ rule,
        match rule_scope rule with
        | Scope_Contract address =>
            push_if (String.eqb address (adapter zk) || String.eqb address (pool zk))
              (RuleScopedToRecoveryContract (rule_name rule) address)
        | Scope_SelfAdmin => []
        end) (doc_rules doc))
  end.

Definition validate_guardian_set (g : GuardianSet) : errors :=
  push_if (bool_decide (guardians g = [])) EmptyGuardianSet ++
  seen_loop Some
    (λ fresh addr, push_if (negb fresh) (DuplicateGuardian addr) ++
                   push_if (negb (is_address_shape addr)) (InvalidGuardianAddress addr))
    [] (guardians g) ++
  push_if ((quorum g =? 0)%N || (length (guardians g) <? N.to_nat (quorum g)))
    (InvalidGuardianQuorum (quorum g) (length (guardians g))).

Definition validate_zk_factor (z : ZkFactor) : errors :=
  push_if (negb (is_contract_address_shape (adapter z))) (InvalidRecoveryAdapter (adapter z)) ++
  push_if (negb (is_sha256_hex (circuit_id z))) (InvalidCircuitId (circuit_id z)) ++
  push_if (negb (is_contract_address_shape (pool z))) (InvalidRecoveryPool (pool z)) ++
  push_if (negb (is_sha256_hex (enrollment_id z))) (InvalidEnrollmentId (enrollment_id z)) ++
  push_if (negb (is_sha256_hex (commitment z)) ||
           String.leb BN254_SCALAR_MODULUS_HEX (commitment z))
    (InvalidCommitment (commitment z)).

Definition validate_recovery (r : RecoveryConfig) (declared : list string) : errors :=
  push_if (bool_decide (replaceable r = [])) EmptyRecoveryReplaceable ++
  seen_loop Some
    (λ fresh id, push_if (negb fresh) (DuplicateRecoveryReplaceable id) ++
                 push_if (negb (contains declared id)) (UnknownRecoveryReplaceableRef id))
    [] (replaceable r) ++
  push_if (delay_ledgers r =? 0)%N ZeroRecoveryDelayLedgers ++
  push_if (expiry_ledgers r =? 0)%N ZeroRecoveryExpiryLedgers ++
  push_if (max_cancels r =? 0)%N ZeroRecoveryMaxCancels ++
  push_if (negb (is_contract_address_shape (controller r)))
    (InvalidRecoveryController (controller r)) ++
  match baseline r with
  | Some b => push_if (negb (is_sha256_hex (baseline_doc_hash b)))
                (InvalidBaselineDocHash (baseline_doc_hash b))
  | None => []
  end ++
  match mode r with
  | GuardianOnly g => validate_guardian_set g
  | ZkOnly z => validate_zk_factor z
  | Combined g z => validate_guardian_set g ++ validate_zk_factor z
  end.

(** The rule loop: an empty name is reported and not remembered. *)
Definition validate_rules (rules : list Rule) (declared : list string) : errors :=
  seen_loop (λ pr : nat * Rule,
      if String.eqb (rule_name pr.2) "" then None else Some (rule_name pr.2))
    (λ fresh pr,
       (if String.eqb (rule_name pr.2) "" then [EmptyRuleName pr.1]
        else push_if (negb fresh) (DuplicateRuleName (rule_name pr.2))) ++
       validate_rule pr.2 declared)
    [] (imap pair rules).

Definition declared_ids (doc : PolicyDoc) : list string := signer_id <$> doc_signers doc.

Definition violations (doc : PolicyDoc) : errors :=
  push_if (negb (doc_version doc =? 1)%N) (UnsupportedVersion (doc_version doc)) ++
  signers_loop 0 [] ∅ ∅ (doc_signers doc) ++
  validate_rules (doc_rules doc) (declared_ids doc) ++
  match doc_recovery doc with
  | Some r => validate_recovery r (declared_ids doc) ++
              validate_rules_avoid_zk_contracts doc r
  | None => []
  end.

Definition validate (doc : PolicyDoc) : result errors unit :=
  let errors := violations doc in
  if bool_decide (errors = []) then Ok tt else Err errors.
End validate.

(** ** What validation accepts *)

Section wellformed.
Context `{HexCodec}.

(** The physical identity behind a signer: verifier and key bytes, or the
    delegate's address. *)
Definition identity (s : SignerDecl) : option ((string * bytes) + string) :=
  match signer_method s with
  | External verifier key => (λ d, inl (verifier, d)) <$> hex_decode key
  | Delegated address => Some (inr address)
  end.

Definition wf_signer (s : SignerDecl) : Prop :=
  signer_id s ≠ "" ∧
  match signer_method s with
  | External verifier key =>
      is_contract_address_shape verifier = true ∧
      ∃ d, hex_decode key = Some d ∧ 1 ≤ String.length d ≤ MAX_SIGNER_KEY_LEN
  | Delegated address => is_address_shape address = true
  end.

Definition wf_refs (signers declared : list string) : Prop :=
  signers ≠ [] ∧ NoDup signers ∧ Forall (.∈ declared) signers.

Definition wf_principals (p : Principals) (declared : list string) : Prop :=
  match p with
  | Principals_All signers => wf_refs signers declared
  | Principals_Threshold signers m =>
      wf_refs signers declared ∧ (1 ≤ m ≤ N.of_nat (length signers))%N
  | Principals_SelfAuthenticating policy param ack =>
      ack = ACK_SENTINEL ∧ is_contract_address_shape policy = true ∧
      is_Some (hex_decode param)
  end.

Definition wf_pred (p : ArgPred) : Prop :=
  match p with
  | StringIn values => values ≠ [] ∧ NoDup values
  | StringPrefix pfx => String.length pfx ≤ MAX_STRING_PRED_LEN
  | AddressEq address => is_address_shape address = true
  | IsSelf | U32Eq _ => True
  end.

(** The cap is denominated in the rule's scope contract. *)
Definition wf_cap (scope : Scope) (cap : CapConstraint) : Prop :=
  (∃ v, parse_i128 (cap_limit cap) = Some v ∧ (0 < v)%Z) ∧
  cap_period_ledgers cap ≠ 0%N ∧
  ∃ address, scope = Scope_Contract address ∧
    (cap_token cap = None ∨ cap_token cap = Some address).

Definition wf_rule (declared : list string) (r : Rule) : Prop :=
  (∀ address, rule_scope r = Scope_Contract address →
     is_contract_address_shape address = true) ∧
  wf_principals (rule_principals r) declared ∧
  (∀ fns, rule_functions r = Some fns →
     fns ≠ [] ∧ NoDup fns ∧ Forall (λ f, is_valid_symbol f = true) fns) ∧
  (∀ args, rule_args r = Some args →
     args ≠ [] ∧ NoDup (arg_index <$> args) ∧ Forall (λ a, wf_pred (arg_pred a)) args) ∧
  rule_not_after_ledger r ≠ Some 0%N ∧
  (∀ cap, rule_cap r = Some cap → wf_cap (rule_scope r) cap).

Definition wf_guardian_set (g : GuardianSet) : Prop :=
  guardians g ≠ [] ∧ NoDup (guardians g) ∧
  Forall (λ a, is_address_shape a = true) (guardians g) ∧
  (1 ≤ quorum g ≤ N.of_nat (length (guardians g)))%N.

Definition wf_zk_factor (z : ZkFactor) : Prop :=
  is_contract_address_shape (adapter z) = true ∧ is_sha256_hex (circuit_id z) = true ∧
  is_contract_address_shape (pool z) = true ∧ is_sha256_hex (enrollment_id z) = true ∧
  is_sha256_hex (commitment z) = true ∧
  String.leb BN254_SCALAR_MODULUS_HEX (commitment z) = false.

Definition wf_mode (m : RecoveryMode) : Prop :=
  match m with
  | GuardianOnly g => wf_guardian_set g
  | ZkOnly z => wf_zk_factor z
  | Combined g z => wf_guardian_set g ∧ wf_zk_factor z
  end.

Definition wf_recovery (declared : list string) (r : RecoveryConfig) : Prop :=
  wf_refs (replaceable r) declared ∧
  delay_ledgers r ≠ 0%N ∧ expiry_ledgers r ≠ 0%N ∧ max_cancels r ≠ 0%N ∧
  is_contract_address_shape (controller r) = true ∧
  (∀ b, baseline r = Some b → is_sha256_hex (baseline_doc_hash b) = true) ∧
  wf_mode (mode r).

(** No rule is scoped to the document's own ZK contracts. *)
Definition avoids_zk (r : RecoveryConfig) (rule : Rule) : Prop :=
  ∀ zk address, zk_factor (mode r) = Some zk → rule_scope rule = Scope_Contract address →
    address ≠ adapter zk ∧ address ≠ pool zk.

Definition wf_doc (d : PolicyDoc) : Prop :=
  doc_version d = 1%N ∧
  Forall wf_signer (doc_signers d) ∧ NoDup (declared_ids d) ∧
  NoDup (omap identity (doc_signers d)) ∧
  Forall (λ r, rule_name r ≠ "" ∧ wf_rule (declared_ids d) r) (doc_rules d) ∧
  NoDup (rule_name <$> doc_rules d) ∧
  ∀ r, doc_recovery d = Some r →
    wf_recovery (declared_ids d) r ∧ Forall (avoids_zk r) (doc_rules d).

(** *** The loops, emptied *)

Lemma push_if_nil b e : push_if b e = [] ↔ b = false.
Proof. by destruct b. Qed.

Lemma seen_loop_nil {A K} `{EqDecision K} (key : A → option K) body seen l :
  (∀ x, is_Some (key x) → body false x ≠ []) →
  seen_loop key body seen l = [] ↔
  Forall (λ x, body true x = []) l ∧ NoDup (omap key l) ∧
  ∀ k, k ∈ omap key l → k ∉ seen.
Proof.
  intros Hb. revert seen. induction l as [|x l IH]; intros seen; simpl.
  { split; [|done]. intros _. split_and!; [constructor..|set_solver]. }
  rewrite Forall_cons. destruct (key x) as [k|] eqn:Hk; simpl.
  - rewrite app_nil, IH, NoDup_cons.
    destruct (contains seen k) eqn:Hc; simpl.
    + apply contains_true in Hc. split; [intros [? _]|set_solver].
      exfalso. eapply Hb; [|done]. rewrite Hk. eauto.
    + apply contains_false in Hc. set_solver.
  - rewrite app_nil, IH. set_solver.
Qed.

Lemma omap_Some {A} (l : list A) : omap Some l = l.
Proof. induction l as [|x l IH]; [done|]. change (x :: omap Some l = x :: l). by rewrite IH. Qed.

Lemma seen_loop_Some_nil {A} `{EqDecision A} (body : bool → A → list ValidationError) l :
  (∀ x, body false x ≠ []) →
  seen_loop Some body [] l = [] ↔ NoDup l ∧ Forall (λ x, body true x = []) l.
Proof.
  intros Hb. rewrite seen_loop_nil by auto. rewrite omap_Some. set_solver.
Qed.

Lemma wf_refs_nil (e : ValidationError) (dup unk : string → ValidationError) l declared :
  push_if (bool_decide (l = [])) e ++
  seen_loop Some (λ fresh id, push_if (negb fresh) (dup id) ++
                    push_if (negb (contains declared id)) (unk id)) [] l = [] ↔
  wf_refs l declared.
Proof.
  rewrite app_nil, push_if_nil, bool_decide_eq_false, seen_loop_Some_nil by done.
  unfold wf_refs. by setoid_rewrite push_if_nil; setoid_rewrite negb_false_iff;
    setoid_rewrite contains_true.
Qed.

Lemma threshold_nil (m : N) (n : nat) :
  (m =? 0)%N || (n <? N.to_nat m) = false ↔ (1 ≤ m ≤ N.of_nat n)%N.
Proof. rewrite orb_false_iff, N.eqb_neq, Nat.ltb_ge. lia. Qed.

Lemma validate_principals_nil rule p declared :
  validate_principals rule p declared = [] ↔ wf_principals p declared.
Proof.
  destruct p; simpl.
  - apply wf_refs_nil.
  - rewrite app_nil, push_if_nil, threshold_nil. unfold validate_principal_signers.
    by rewrite wf_refs_nil.
  - rewrite !app_nil, !push_if_nil, !negb_false_iff, String.eqb_eq, bool_decide_eq_false.
    by rewrite <- not_eq_None_Some.
Qed.

Lemma valid_symbol_not_empty f :
  is_valid_symbol f = true → f ≠ "".
Proof. by destruct f. Qed.

Lemma validate_functions_nil rule fns :
  validate_functions rule fns = [] ↔
  fns ≠ [] ∧ NoDup fns ∧ Forall (λ f, is_valid_symbol f = true) fns.
Proof.
  unfold validate_functions.
  rewrite app_nil, push_if_nil, bool_decide_eq_false, seen_loop_Some_nil.
  - apply and_iff_compat_l, and_iff_compat_l, Forall_iff. intros f. simpl. rewrite app_nil_r.
    destruct (String.eqb_spec f "") as [->|Hf]; [done|].
    by rewrite push_if_nil, negb_false_iff.
  - intros f. rewrite app_nil. by intros [_ ?].
Qed.

Lemma validate_pred_nil rule i p : validate_pred rule i p = [] ↔ wf_pred p.
Proof.
  destruct p; simpl; rewrite ?app_nil, ?push_if_nil, ?bool_decide_eq_false,
    ?negb_false_iff, ?Nat.ltb_ge; try done.
  rewrite seen_loop_Some_nil by done. f_equiv. split; [by intros [? _]|].
  intros. split; [done|]. by apply Forall_true.
Qed.

Lemma validate_args_nil rule args :
  validate_args rule args = [] ↔
  args ≠ [] ∧ NoDup (arg_index <$> args) ∧ Forall (λ a, wf_pred (arg_pred a)) args.
Proof.
  unfold validate_args.
  rewrite app_nil, push_if_nil, bool_decide_eq_false, seen_loop_nil by done.
  assert (omap (λ c, Some (arg_index c)) args = arg_index <$> args) as ->.
  { induction args as [|a l IH]; [done|]. simpl. by f_equal. }
  simpl. setoid_rewrite validate_pred_nil. set_solver.
Qed.

Lemma validate_cap_nil rule scope cap :
  validate_cap rule scope cap = [] ↔
  wf_cap scope cap ∧
  (∀ a, scope = Scope_Contract a → cap_token cap = Some a → is_contract_address_shape a = true).
Proof.
  unfold validate_cap, wf_cap. rewrite !app_nil, !push_if_nil, N.eqb_neq.
  assert (match parse_i128 (cap_limit cap) with
          | Some v => (v <=? 0)%Z | None => true end = false ↔
          ∃ v, parse_i128 (cap_limit cap) = Some v ∧ (0 < v)%Z) as ->.
  { destruct (parse_i128 _) as [v|]; [rewrite Z.leb_gt|]; naive_solver. }
  destruct scope as [a|], (cap_token cap) as [t|]; simpl; try naive_solver.
  destruct (is_contract_address_shape t) eqn:Ht; simpl.
  - rewrite push_if_nil, negb_false_iff, String.eqb_eq. naive_solver.
  - naive_solver congruence.
Qed.

Lemma validate_rule_nil r declared :
  validate_rule r declared = [] ↔ wf_rule declared r.
Proof.
  unfold validate_rule, wf_rule. rewrite !app_nil, validate_principals_nil.
  rewrite push_if_nil, bool_decide_eq_false.
  assert (match rule_functions r with
          | Some functions => validate_functions (rule_name r) functions | None => [] end = [] ↔
    ∀ fns, rule_functions r = Some fns →
      fns ≠ [] ∧ NoDup fns ∧ Forall (λ f, is_valid_symbol f = true) fns) as ->.
  { destruct (rule_functions r); [rewrite validate_functions_nil|]; naive_solver. }
  assert (match rule_args r with
          | Some args => validate_args (rule_name r) args | None => [] end = [] ↔
    ∀ args, rule_args r = Some args →
      args ≠ [] ∧ NoDup (arg_index <$> args) ∧ Forall (λ a, wf_pred (arg_pred a)) args) as ->.
  { destruct (rule_args r); [rewrite validate_args_nil|]; naive_solver. }
  destruct (rule_scope r) as [a|]; rewrite ?push_if_nil, ?negb_false_iff;
    destruct (rule_cap r) as [cap|]; rewrite ?validate_cap_nil; naive_solver.
Qed.

Lemma imap_snd {A} (l : list A) : (imap pair l).*2 = l.
Proof.
  rewrite fmap_imap. rewrite <- (list_fmap_id l) at 2. apply (imap_const id).
Qed.

(** With no empty name, every turn of the rule loop inserts its name. *)
Lemma omap_names (l : list (nat * Rule)) :
  Forall (λ r, rule_name r ≠ "") (l.*2) →
  omap (λ pr : nat * Rule,
    if String.eqb (rule_name pr.2) "" then None else Some (rule_name pr.2)) l =
  rule_name <$> l.*2.
Proof.
  induction l as [|[i r] l IH]; [done|]. intros [Hr Hl]%Forall_cons. simpl in *.
  destruct (String.eqb_spec (rule_name r) ""); [done|]. f_equal. by apply IH.
Qed.

Lemma and_iff_and_l (P Q R : Prop) : (P → Q ↔ R) → P ∧ Q ↔ P ∧ R.
Proof. tauto. Qed.

Lemma validate_guardian_set_nil g : validate_guardian_set g = [] ↔ wf_guardian_set g.
Proof.
  unfold validate_guardian_set, wf_guardian_set.
  rewrite !app_nil, !push_if_nil, bool_decide_eq_false, threshold_nil.
  rewrite seen_loop_Some_nil by done. simpl.
  setoid_rewrite push_if_nil. setoid_rewrite negb_false_iff. tauto.
Qed.

Lemma validate_zk_factor_nil z : validate_zk_factor z = [] ↔ wf_zk_factor z.
Proof.
  unfold validate_zk_factor, wf_zk_factor.
  by rewrite !app_nil, !push_if_nil, orb_false_iff, !negb_false_iff.
Qed.

Lemma validate_recovery_nil r declared :
  validate_recovery r declared = [] ↔ wf_recovery declared r.
Proof.
  unfold validate_recovery, wf_recovery.
  rewrite (app_assoc (push_if _ EmptyRecoveryReplaceable)), app_nil, wf_refs_nil.
  rewrite !app_nil, !push_if_nil, !N.eqb_neq, negb_false_iff.
  assert (match baseline r with
          | Some b => push_if (negb (is_sha256_hex (baseline_doc_hash b)))
                        (InvalidBaselineDocHash (baseline_doc_hash b))
          | None => [] end = [] ↔
    ∀ b, baseline r = Some b → is_sha256_hex (baseline_doc_hash b) = true) as ->.
  { destruct (baseline r); [rewrite push_if_nil, negb_false_iff|]; naive_solver. }
  unfold wf_mode. destruct (mode r); rewrite ?app_nil, ?validate_guardian_set_nil,
    ?validate_zk_factor_nil; tauto.
Qed.

Lemma concat_map_nil {A B} (f : A → list B) l :
  concat (map f l) = [] ↔ Forall (λ x, f x = []) l.
Proof.
  induction l as [|x l IH]; simpl; [by split|]. by rewrite app_nil, IH, Forall_cons.
Qed.

Lemma validate_rules_avoid_zk_nil d r :
  validate_rules_avoid_zk_contracts d r = [] ↔ Forall (avoids_zk r) (doc_rules d).
Proof.
  unfold validate_rules_avoid_zk_contracts, avoids_zk.
  destruct (zk_factor (mode r)) as [zk|].
  - rewrite concat_map_nil. apply Forall_iff. intros rule.
    destruct (rule_scope rule) as [a|]; [|naive_solver].
    rewrite push_if_nil, orb_false_iff, !String.eqb_neq.
    split; [intros [? ?] ? ? [= <-] [= <-]; done|]. intros Hz. by apply Hz.
  - split; [|done]. intros _. by apply Forall_true.
Qed.

Lemma validate_rules_nil rules declared :
  validate_rules rules declared = [] ↔
  Forall (λ r, rule_name r ≠ "" ∧ wf_rule declared r) rules ∧
  NoDup (rule_name <$> rules).
Proof.
  unfold validate_rules. rewrite seen_loop_nil.
  2: { intros [i r] [k Hk]. simpl in *. by destruct (String.eqb _ _). }
  assert (Forall (λ x : nat * Rule,
      (if String.eqb (rule_name x.2) "" then [EmptyRuleName x.1]
       else push_if (negb true) (DuplicateRuleName (rule_name x.2))) ++
      validate_rule x.2 declared = []) (imap pair rules) ↔
    Forall (λ r, rule_name r ≠ "" ∧ wf_rule declared r) rules) as ->.
  { rewrite <- (imap_snd rules) at 2. rewrite Forall_fmap. apply Forall_iff.
    intros [i r]. simpl. rewrite app_nil, validate_rule_nil.
    destruct (String.eqb_spec (rule_name r) ""); naive_solver. }
  apply and_iff_and_l. intros Hf.
  rewrite omap_names, imap_snd; [split; [by intros [? _]|intros; split; [done|set_solver]]|].
  rewrite imap_snd. eapply Forall_impl; [exact Hf|]. by intros r [? _].
Qed.

(** What the two maps of the signer loop have not seen. *)
Definition unseen (km : gmap (string * bytes) string) (del : gmap string string)
    (k : (string * bytes) + string) : Prop :=
  match k with inl x => km !! x = None | inr a => del !! a = None end.

Lemma unseen_insert_l km del x i k :
  unseen (<[x := i]> km) del k ↔ k ≠ inl x ∧ unseen km del k.
Proof.
  destruct k as [y|a]; simpl; [rewrite lookup_insert_None|]; naive_solver.
Qed.
Lemma unseen_insert_r km del a i k :
  unseen km (<[a := i]> del) k ↔ k ≠ inr a ∧ unseen km del k.
Proof.
  destruct k as [y|b]; simpl; [|rewrite lookup_insert_None]; naive_solver.
Qed.

Lemma all_cons {A} (P : A → Prop) x (l : list A) :
  (∀ y, y ∈ x :: l → P y) ↔ P x ∧ ∀ y, y ∈ l → P y.
Proof. rewrite <- !Forall_forall. apply Forall_cons. Qed.
Lemma all_and_ne {A} (P Q : A → Prop) x (l : list A) :
  (∀ y, Q y ↔ y ≠ x ∧ P y) → (∀ y, y ∈ l → Q y) ↔ x ∉ l ∧ ∀ y, y ∈ l → P y.
Proof.
  intros HQ. setoid_rewrite HQ. split.
  - intros Hl. split; [|naive_solver]. intros Hx%Hl. naive_solver.
  - intros [Hx Hl] y Hy. split; [by intros ->|auto].
Qed.

Lemma signers_loop_nil pos ids km del l :
  signers_loop pos ids km del l = [] ↔
  Forall wf_signer l ∧ NoDup (signer_id <$> l) ∧ NoDup (omap identity l) ∧
  (∀ i, i ∈ signer_id <$> l → i ∉ ids) ∧
  (∀ k, k ∈ omap identity l → unseen km del k).
Proof.
  revert pos ids km del. induction l as [|s l IH]; intros pos ids km del.
  { simpl. split; [|done]. intros _. split_and!; try constructor; set_solver. }
  cbn [signers_loop]. rewrite Forall_cons, fmap_cons, NoDup_cons, all_cons.
  unfold wf_signer at 1.
  destruct (String.eqb_spec (signer_id s) "") as [He|He].
  { split; [|tauto]. destruct (signer_method s); repeat case_match; done. }
  change (omap identity (s :: l)) with
    (match identity s with Some k => k :: omap identity l | None => omap identity l end).
  destruct (signer_method s) as [v k|a] eqn:Hm.
  - assert (identity s = (λ d, inl (v, d)) <$> hex_decode k) as ->
      by (unfold identity; by rewrite Hm).
    destruct (hex_decode k) as [dk|] eqn:Hk; simpl.
    2: { split; [intros [_ Hx]%app_nil; discriminate Hx|].
         intros (((_ & _ & d & ? & _) & _) & _). done. }
    rewrite (all_cons (unseen km del)), NoDup_cons. destruct (km !! (v, dk)) as [f|] eqn:Hkm.
    { rewrite !app_nil. split; [intros (_ & [_ ?] & _); done|].
      intros (_ & _ & _ & _ & Hbad & _). simpl in Hbad. congruence. }
    rewrite !app_nil, !push_if_nil, contains_false, negb_false_iff, IH.
    rewrite orb_false_iff, Nat.eqb_neq, Nat.ltb_ge.
    rewrite (all_and_ne _ _ _ _ (unseen_insert_l km del (v, dk) (signer_id s))).
    rewrite (all_and_ne (.∉ ids) (.∉ signer_id s :: ids) (signer_id s)) by set_solver.
    assert ((∃ d, Some dk = Some d ∧ 1 ≤ String.length d ≤ MAX_SIGNER_KEY_LEN) ↔
      String.length dk ≠ 0 ∧ String.length dk ≤ MAX_SIGNER_KEY_LEN) as ->.
    { split; [intros (d & [= <-] & ?); lia|]. intros. exists dk. split; [done|lia]. }
    simpl. tauto.
  - assert (identity s = Some (inr a)) as -> by (unfold identity; by rewrite Hm).
    rewrite (all_cons (unseen km del)), NoDup_cons. simpl. destruct (del !! a) as [f|] eqn:Hdel.
    { rewrite !app_nil. split; [by intros (_ & _ & ? & _)|]. intuition congruence. }
    rewrite !app_nil, !push_if_nil, contains_false, negb_false_iff, IH.
    rewrite (all_and_ne _ _ _ _ (unseen_insert_r km del a (signer_id s))).
    rewrite (all_and_ne (.∉ ids) (.∉ signer_id s :: ids) (signer_id s)) by set_solver.
    tauto.
Qed.

Lemma violations_nil d : violations d = [] ↔ wf_doc d.
Proof.
  unfold violations, wf_doc. rewrite !app_nil, push_if_nil, negb_false_iff, N.eqb_eq.
  rewrite signers_loop_nil, validate_rules_nil.
  assert (match doc_recovery d with
          | Some r => validate_recovery r (declared_ids d) ++ validate_rules_avoid_zk_contracts d r
          | None => [] end = [] ↔
    ∀ r, doc_recovery d = Some r →
      wf_recovery (declared_ids d) r ∧ Forall (avoids_zk r) (doc_rules d)) as ->.
  { destruct (doc_recovery d) as [r|]; [|naive_solver].
    rewrite app_nil, validate_recovery_nil, validate_rules_avoid_zk_nil.
    split; [intros ? ? [= <-]; done|]. intros Hr. by apply Hr. }
  assert ((∀ i, i ∈ signer_id <$> doc_signers d → i ∉ []) ∧
    (∀ k, k ∈ omap identity (doc_signers d) → unseen ∅ ∅ k)); [|tauto].
  split; [set_solver|]. by intros [] _; apply lookup_empty.
Qed.

Lemma validate_Ok d : validate d = Ok tt ↔ wf_doc d.
Proof.
  rewrite <- violations_nil. unfold validate.
  destruct (decide (violations d = [])) as [->|Hne]; [done|].
  by rewrite bool_decide_eq_false_2.
Qed.

(** C33: Validation accepts exactly the well-formed documents.  [wf_doc] says
    it without loops: version 1; distinct, non-empty signer ids and rule
    names; no physical key or address behind two signers; every referenced
    signer declared, no quorum of zero or above its signer count; valid
    addresses, symbols and predicates; caps positive and denominated in the
    rule's own scope; recovery parameters non-zero with a satisfiable
    condition, and no rule scoped to the recovery's ZK contracts.  A refused
    document comes with a non-empty list of violations. *)
Theorem validate_exact d :
  (validate d = Ok tt ↔ wf_doc d) ∧
  (∀ errs, validate d = Err errs → errs ≠ []) ∧ validate d ≠ Panic.
Proof.
  split; [apply validate_Ok|]. unfold validate. case_bool_decide; naive_solver.
Qed.
End wellformed.

(** The strkey check does not look at the low three bits of the version
    byte.  There is a 56-character string with a valid checksum that passes
    [is_contract_address_shape] although its version byte is 17 and not the
    16 of a contract address, so a document holding it validates and
    decoding the address later traps. *)
Theorem strkey_version_byte_unchecked :
  ∃ s data, is_contract_address_shape s = true ∧
    base32_loop s 0 0 [] = Some data ∧ head data = Some 17%N.
Proof.
  exists "CEAACAQDAQCQMBYIBEFAWDANBYHRAEISCMKBKFQXDAMRUGY4DUPB72YD".
  eexists. split; [vm_compute; reflexivity|]. split; [vm_compute; reflexivity|]. done.
Qed.

(** ** A concrete hex decoder, for evaluating the model *)

Definition nibble (c : ascii) : option N :=
  let b := N_of_ascii c in
  if in_range 48 57 b then Some (b - 48)%N
  else if in_range 97 102 b then Some (b - 87)%N
  else if in_range 65 70 b then Some (b - 55)%N
  else None.
Fixpoint demo_hex_decode (s : string) : option bytes :=
  match s with
  | EmptyString => Some ""
  | String a (String b s) =>
      match nibble a, nibble b, demo_hex_decode s with
      | Some x, Some y, Some r => Some (String (ascii_of_N (16 * x + y)) r)
      | _, _, _ => None
      end
  | _ => None
  end.
Definition DemoHex : HexCodec := {| hex_decode := demo_hex_decode |}.
