(* ===== verification/RecoveryDoc.v ===== *)
(** * perch-ir: recovery target derivation

    Models [crates/perch-ir/src/recovery.rs].  [derive_target] builds the
    document a recovery installs from a source document and a declared
    replacement set; [derive_target_exact] says which documents it can
    produce. *)

From S2P Require Import Prelude Doc Validate.
#[local] Open Scope string_scope.
#[local] Open Scope list_scope.

Inductive DeriveAction : Type := LostKey | Compromise.

Record Replacement : Type := {
  repl_signer_id : string;
  repl_method : SignerMethod;
}.

Record ZkRotation : Type := {
  rot_enrollment_id : string;
  rot_commitment : string;
}.

Inductive DeriveError : Type :=
| NotEnrolled
| NotCanonical
| EmptyReplacements
| NotReplaceable (id : string)
| UndeclaredSigner (id : string)
| KindMismatch (id : string)
| ZkEnrollmentMismatch.

(** [windows(2).any(|w| w[0] >= w[1])] on signer ids, by bytes. *)
Fixpoint not_ascending (l : list Replacement) : bool :=
  match l with
  | a :: (b :: _) as l =>
      String.leb (repl_signer_id b) (repl_signer_id a) || not_ascending l
  | _ => false
  end.

Definition same_kind (a b : SignerMethod) : bool :=
  match a, b with
  | External va _, External vb _ => String.eqb va vb
  | Delegated _, Delegated _ => true
  | _, _ => false
  end.

(** [iter_mut().find(|s| s.id == id)] and the assignment to its method: the
    declaration found, and the list with that declaration updated. *)
Fixpoint replace_method (id : string) (m : SignerMethod) (l : list SignerDecl)
  : option (SignerMethod * list SignerDecl) :=
  match l with
  | [] => None
  | s :: l =>
      if String.eqb (signer_id s) id then
        Some (signer_method s, {| signer_id := signer_id s; signer_method := m |} :: l)
      else
        match replace_method id m l with
        | Some (old, l) => Some (old, s :: l)
        | None => None
        end
  end.

Fixpoint apply_replacements (replaceable : list string) (rs : list Replacement)
    (signers : list SignerDecl) : result DeriveError (list SignerDecl) :=
  match rs with
  | [] => Ok signers
  | r :: rs =>
      let id := repl_signer_id r in
      refuse_if (negb (contains replaceable id)) (NotReplaceable id) ;;;
      let* ' (old, signers') :=
        ok_or (replace_method id (repl_method r) signers) (UndeclaredSigner id) in
      refuse_if (negb (same_kind old (repl_method r))) (KindMismatch id) ;;;
      apply_replacements replaceable rs signers'
  end.

Definition rotate_factor (rot : ZkRotation) (z : ZkFactor) : ZkFactor := {|
  adapter := adapter z; circuit_id := circuit_id z; pool := pool z;
  enrollment_id := rot_enrollment_id rot; commitment := rot_commitment rot |}.

Definition rotate_mode (m : RecoveryMode) (zk : option ZkRotation)
  : result DeriveError RecoveryMode :=
  match m, zk with
  | GuardianOnly g, None => Ok (GuardianOnly g)
  | ZkOnly z, Some rot => Ok (ZkOnly (rotate_factor rot z))
  | Combined g z, Some rot => Ok (Combined g (rotate_factor rot z))
  | _, _ => Err ZkEnrollmentMismatch
  end.

Definition with_mode (r : RecoveryConfig) (m : RecoveryMode) : RecoveryConfig := {|
  profile := profile r; mode := m; controller := controller r; baseline := baseline r;
  replaceable := replaceable r; delay_ledgers := delay_ledgers r;
  expiry_ledgers := expiry_ledgers r; max_cancels := max_cancels r |}.

Definition derive_target (source current : PolicyDoc) (action : DeriveAction)
    (replacements : list Replacement) (zk : option ZkRotation)
  : result DeriveError PolicyDoc :=
  let* recovery := ok_or (doc_recovery current) NotEnrolled in
  refuse_if (not_ascending replacements) NotCanonical ;;;
  refuse_if (match action, replacements with LostKey, [] => true | _, _ => false end)
    EmptyReplacements ;;;
  let* signers := apply_replacements (replaceable recovery) replacements (doc_signers source) in
  let* m := rotate_mode (mode recovery) zk in
  Ok {| doc_version := doc_version source; doc_network := doc_network source;
        doc_signers := signers; doc_rules := doc_rules source;
        doc_recovery := Some (with_mode recovery m) |}.

(** ** What the derivation produces *)

(** The declaration the target has in place of [s]. *)
Definition expected (rs : list Replacement) (s : SignerDecl) : SignerDecl :=
  match find_first (λ r, String.eqb (repl_signer_id r) (signer_id s)) rs with
  | Some r => {| signer_id := signer_id s; signer_method := repl_method r |}
  | None => s
  end.

(** A replacement the source and the configuration admit. *)
Definition admissible (replaceable : list string) (signers : list SignerDecl)
    (r : Replacement) : Prop :=
  repl_signer_id r ∈ replaceable ∧
  ∃ s, s ∈ signers ∧ signer_id s = repl_signer_id r ∧
       same_kind (signer_method s) (repl_method r) = true.

Lemma expected_cons r rs s :
  expected (r :: rs) s =
    if String.eqb (repl_signer_id r) (signer_id s)
    then {| signer_id := signer_id s; signer_method := repl_method r |}
    else expected rs s.
Proof. unfold expected. simpl. by destruct (String.eqb _ _). Qed.

Lemma expected_id rs s : signer_id (expected rs s) = signer_id s.
Proof. unfold expected. by case_match. Qed.

Lemma expected_other rs s :
  signer_id s ∉ repl_signer_id <$> rs → expected rs s = s.
Proof.
  intros Hs. unfold expected. destruct (find_first _ rs) as [r|] eqn:Hf; [|done].
  apply find_first_Some in Hf as [Hr He%String.eqb_eq]. exfalso.
  apply Hs, list_elem_of_fmap. eauto.
Qed.

(** In a list with distinct ids, updating the first match updates the only
    one. *)
Lemma replace_method_spec r l :
  NoDup (signer_id <$> l) →
  match replace_method (repl_signer_id r) (repl_method r) l with
  | Some (old, l') =>
      {| signer_id := repl_signer_id r; signer_method := old |} ∈ l ∧
      l' = map (expected [r]) l
  | None => repl_signer_id r ∉ signer_id <$> l
  end.
Proof.
  induction l as [|s l IH]; simpl; [set_solver|]. intros [Hs Hnd]%NoDup_cons.
  rewrite expected_cons. unfold expected at 1. simpl.
  destruct (String.eqb_spec (signer_id s) (repl_signer_id r)) as [He|Hne].
  - rewrite He, String.eqb_refl. 
    split; [apply elem_of_cons; left; destruct s; simpl in *; by subst|].
    f_equal. symmetry. rewrite <- (map_id l) at 2. apply map_ext_in.
    intros t Ht%list_elem_of_In. rewrite expected_other; [done|].
    rewrite list_fmap_singleton, list_elem_of_singleton, <- He. intros Heq. apply Hs.
    rewrite <- Heq. by apply list_elem_of_fmap_2.
  - rewrite (proj2 (String.eqb_neq _ _)) by done.
    destruct (replace_method _ _ l) as [[old l']|].
    + destruct (IH Hnd) as [Hin ->]. split; [by right|done].
    + set_solver.
Qed.

Lemma fmap_id_expected rs l : signer_id <$> map (expected rs) l = signer_id <$> l.
Proof. induction l as [|s l IH]; simpl; [done|]. rewrite expected_id. by f_equal. Qed.

Lemma admissible_expected repl r rs l q :
  NoDup (repl_signer_id <$> r :: rs) → q ∈ rs →
  admissible repl (map (expected [r]) l) q ↔ admissible repl l q.
Proof.
  intros [Hr _]%NoDup_cons Hq.
  assert (repl_signer_id q ≠ repl_signer_id r) as Hne.
  { intros Heq. apply Hr. rewrite <- Heq. by apply list_elem_of_fmap_2. }
  assert (∀ s, signer_id s = repl_signer_id q → expected [r] s = s) as Hsame.
  { intros s Hs. apply expected_other. rewrite list_fmap_singleton.
    rewrite list_elem_of_singleton. congruence. }
  unfold admissible. apply and_iff_compat_l. split.
  - intros (t & Ht & Hid & Hk). apply list_elem_of_In, in_map_iff in Ht as (s & <- & Hs).
    rewrite expected_id in Hid. rewrite Hsame in Hk by done.
    exists s. by rewrite list_elem_of_In.
  - intros (s & Hs & Hid & Hk). exists s. split; [|done].
    apply list_elem_of_In, in_map_iff. exists s. by rewrite Hsame, <- list_elem_of_In.
Qed.

Lemma apply_replacements_Ok repl rs l l' :
  NoDup (signer_id <$> l) → NoDup (repl_signer_id <$> rs) →
  apply_replacements repl rs l = Ok l' ↔
  Forall (admissible repl l) rs ∧ l' = map (expected rs) l.
Proof.
  revert l. induction rs as [|r rs IH]; intros l Hl Hrs; simpl.
  { rewrite (map_ext (expected []) id), map_id by done. naive_solver. }
  pose proof (replace_method_spec r l Hl) as Hspec.
  rewrite Forall_cons. unfold admissible at 1.
  destruct (contains repl (repl_signer_id r)) eqn:Hc; simpl.
  2: { apply contains_false in Hc. naive_solver. }
  apply contains_true in Hc.
  destruct (replace_method _ _ l) as [[old l1]|]; simpl.
  2: { split; [done|]. intros [[[_ (s & Hs & Hid & _)] _] _]. exfalso.
       apply Hspec. rewrite <- Hid. by apply list_elem_of_fmap_2. }
  destruct Hspec as [Hin ->].
  assert ((∃ s, s ∈ l ∧ signer_id s = repl_signer_id r ∧
             same_kind (signer_method s) (repl_method r) = true) ↔
          same_kind old (repl_method r) = true) as ->.
  { split; [|eauto]. intros (s & Hs & Hid & Hk).
    assert (s = {| signer_id := repl_signer_id r; signer_method := old |}) as ->; [|done].
    apply list_elem_of_lookup in Hs as [i Hi]. apply list_elem_of_lookup in Hin as [j Hj].
    assert (i = j) as <-; [|congruence]. apply (NoDup_lookup _ i j (repl_signer_id r) Hl);
      rewrite list_lookup_fmap, ?Hi, ?Hj; simpl; congruence. }
  destruct (same_kind old (repl_method r)); simpl; [|naive_solver].
  pose proof (NoDup_cons_1_2 _ _ Hrs) as Hrs'.
  rewrite IH by (rewrite ?fmap_id_expected; done).
  assert (Forall (admissible repl (map (expected [r]) l)) rs ↔
          Forall (admissible repl l) rs) as ->.
  { rewrite !Forall_forall. split; intros Hf q Hq; apply (admissible_expected _ r rs l q Hrs Hq);
      auto. }
  rewrite map_map.
  assert (map (λ x, expected rs (expected [r] x)) l = map (expected (r :: rs)) l) as ->;
    [|naive_solver].
  apply map_ext. intros s. rewrite !expected_cons.
  destruct (String.eqb_spec (repl_signer_id r) (signer_id s)) as [He|]; [|done].
  apply NoDup_cons in Hrs as [Hr _]. rewrite expected_other; [done|]. simpl. by rewrite <- He.
Qed.

(** Strictly ascending ids are distinct. *)
Lemma ascending_above r rs :
  not_ascending (r :: rs) = false →
  Forall (λ q, String.compare (repl_signer_id r) (repl_signer_id q) = Lt) rs ∧
  not_ascending rs = false.
Proof.
  revert r. induction rs as [|q rs IH]; intros r; [done|]. cbn [not_ascending].
  intros [Hlt%string_leb_false Hrest]%orb_false_iff. split; [|done].
  destruct (IH q Hrest) as [Hall _]. constructor; [done|].
  eapply Forall_impl; [exact Hall|]. intros p. by apply string_lt_trans.
Qed.

Lemma ascending_NoDup rs : not_ascending rs = false → NoDup (repl_signer_id <$> rs).
Proof.
  induction rs as [|r rs IH]; [constructor|]. intros [Hall Hrs]%ascending_above.
  apply NoDup_cons. split; [|by apply IH].
  intros (q & Hq & Hin)%list_elem_of_fmap. rewrite Forall_forall in Hall.
  apply (string_lt_irrefl (repl_signer_id r)). rewrite Hq at 2. by apply Hall.
Qed.

(** A recovery target is fully determined.  The derivation succeeds
    exactly when the current document enrolls recovery, the replacements are
    in strictly ascending id order (and not empty for a lost key), each names
    a replaceable signer declared in the source and keeps its kind and
    verifier, and the ZK rotation matches the enrolled mode.  The target is
    then the source with exactly those signers' methods replaced, the
    source's rules untouched, and the current recovery member with only its
    ZK enrollment rotated. *)
Theorem derive_target_exact source current action rs zk target :
  NoDup (declared_ids source) →
  derive_target source current action rs zk = Ok target ↔
  ∃ rec m, doc_recovery current = Some rec ∧ not_ascending rs = false ∧
    (action = LostKey → rs ≠ []) ∧
    Forall (admissible (replaceable rec) (doc_signers source)) rs ∧
    rotate_mode (mode rec) zk = Ok m ∧
    target = {| doc_version := doc_version source; doc_network := doc_network source;
                doc_signers := map (expected rs) (doc_signers source);
                doc_rules := doc_rules source;
                doc_recovery := Some (with_mode rec m) |}.
Proof.
  intros Hnd. unfold derive_target.
  destruct (doc_recovery current) as [rec|]; simpl; [|naive_solver].
  destruct (not_ascending rs) eqn:Hasc; simpl; [naive_solver|].
  pose proof (ascending_NoDup _ Hasc) as Hrs. split.
  - intros Ht. inv_result. apply apply_replacements_Ok in H0 as [Hadm ->]; [|done..].
    exists rec, x1. split_and!; try done. intros -> ->. done.
  - intros (rec' & m & [= <-] & _ & Hne & Hadm & Hm & ->).
    rewrite (proj2 (apply_replacements_Ok _ _ _ _ Hnd Hrs) (conj Hadm eq_refl)), Hm. simpl.
    destruct action, rs; done || naive_solver.
Qed.

(** ** Witness *)

Module RecoveryDocDemo.
Definition demo_recovery : RecoveryConfig := {|
  profile := Loss; mode := GuardianOnly {| guardians := ["GA"]; quorum := 1 |};
  controller := "CC"; baseline := None; replaceable := ["alice"];
  delay_ledgers := 100; expiry_ledgers := 1000; max_cancels := 3 |}.
Definition demo_source : PolicyDoc := {|
  doc_version := 1; doc_network := None;
  doc_signers := [{| signer_id := "alice"; signer_method := Delegated "GOLD" |};
                  {| signer_id := "bob"; signer_method := Delegated "GBOB" |}];
  doc_rules := []; doc_recovery := Some demo_recovery |}.
Definition demo_target : PolicyDoc := {|
  doc_version := 1; doc_network := None;
  doc_signers := [{| signer_id := "alice"; signer_method := Delegated "GNEW" |};
                  {| signer_id := "bob"; signer_method := Delegated "GBOB" |}];
  doc_rules := []; doc_recovery := Some demo_recovery |}.

Lemma derive_target_exact_witness :
  ∃ rec m, doc_recovery demo_source = Some rec ∧
    rotate_mode (mode rec) None = Ok m ∧
    demo_target = {| doc_version := 1; doc_network := None;
      doc_signers := map (expected [{| repl_signer_id := "alice";
                                       repl_method := Delegated "GNEW" |}])
                       (doc_signers demo_source);
      doc_rules := []; doc_recovery := Some (with_mode rec m) |}.
Proof.
  destruct (proj1 (derive_target_exact demo_source demo_source LostKey
    [{| repl_signer_id := "alice"; repl_method := Delegated "GNEW" |}] None demo_target
    ltac:(by apply (bool_decide_unpack _))) eq_refl)
    as (rec & m & Hrec & _ & _ & _ & Hm & Ht).
  exists rec, m. split; [exact Hrec|]. split; [exact Hm|exact Ht].
Defined.
End RecoveryDocDemo.
