(* ===== verification/Compile.v ===== *)
(** * perch-compile: lowering documents to plans

    Models [crates/perch-compile/src/lib.rs] ([compile], [lower_rule],
    [build_program]), [analysis.rs] (reachable calls, bounds, liveness),
    [activation.rs] (plan verification) and [attenuation.rs] (narrowing).

    The facts proved here tie the lowered program back to the rule's text:
    what a rule means ([rule_allows]) is stated on the document types alone,
    and the interpreter program a rule lowers to evaluates to [True] exactly
    on the calls the rule allows. *)

From S2P Require Import Prelude Doc Canon Parse ParseFacts RoundTrip.
From S2P Require Import Host Program Validate.
#[local] Open Scope list_scope.
#[local] Open Scope nat_scope.

Inductive ScopeSpec : Type :=
| ScopeSpec_Contract (address : string)
| ScopeSpec_SelfAdmin.
Global Instance ScopeSpec_eq_dec : EqDecision ScopeSpec.
Proof. solve_decision. Defined.

Inductive SignerSpec : Type :=
| SignerSpec_External (verifier key_hex : string)
| SignerSpec_Delegated (address : string).

Record CapSpec : Type := {
  spec_token : option string;
  spec_limit : Z;
  spec_period_ledgers : N;
}.

Inductive LowerError : Type :=
| LowerUnknownSignerRef (rule id : string)
| Unsupported (rule reason : string)
| LowerInvalidProgram (rule : string) (err : Program.ValidationError)
| InvalidCap (rule : string).

Section compile.
Context {H : Host}.

Record LoweredRule : Type := {
  lr_name : string;
  lr_scope : ScopeSpec;
  lr_signers : list SignerSpec;
  lr_valid_until : option N;
  lr_install : option InstallParams;
  lr_cap : option CapSpec;
}.

Record Plan : Type := {
  plan_rules : list LoweredRule;
  plan_interpreter_wasm_hash : option bytes;
}.

Definition rule_hash_onchain (rule : Rule) : bytes :=
  sha256 (RULE_HASH_DOMAIN +:+ rule_canonical_json rule).
Definition doc_hash_onchain (doc : PolicyDoc) : bytes := sha256 (canonical_json doc).

(** ** Lowering (lib.rs) *)

(** [Address::from_str] and [Symbol::new] trap on malformed input. *)
Definition lower_arg_pred (index : N) (pred : ArgPred) : result LowerError Op :=
  match pred with
  | IsSelf => Ok (Op_ArgAddrIsSelf index)
  | AddressEq address =>
      let* a := or_panic (address_from_str address) in Ok (Op_ArgAddrEq index a)
  | U32Eq value => Ok (Op_ArgU32Eq index value)
  | StringIn values => Ok (Op_ArgStrIn index values)
  | StringPrefix pfx => Ok (Op_ArgStrPrefix index pfx)
  end.

Definition build_program (rule : Rule) (min_signers : N) : result LowerError RpnProgram :=
  let* fn_op :=
    match rule_functions rule with
    | Some funcs =>
        let* syms := mapM_result (λ f, or_panic (symbol_new f)) funcs in
        Ok [Op_FnIn syms]
    | None => Ok []
    end in
  let* arg_ops :=
    match rule_args rule with
    | Some args => mapM_result (λ c, lower_arg_pred (arg_index c) (arg_pred c)) args
    | None => Ok []
    end in
  let leaves := [Op_MinSigners (N.max min_signers 1)] ++ fn_op ++ arg_ops in
  let program := {|
    version := PROGRAM_VERSION;
    ops := leaves ++ [Op_All (N.of_nat (length leaves))] |} in
  match Program.validate program with
  | Ok _ => Ok program
  | Err err => Err (LowerInvalidProgram (rule_name rule) err)
  | Panic => Panic
  end.

Definition lower_method (m : SignerMethod) : SignerSpec :=
  match m with
  | External verifier key => SignerSpec_External verifier key
  | Delegated address => SignerSpec_Delegated address
  end.

(** [len() as u32]. *)
Definition len_u32 {A} (l : list A) : N := (N.of_nat (length l) mod 2 ^ 32)%N.

Definition lower_scope (s : Scope) : ScopeSpec :=
  match s with
  | Scope_Contract address => ScopeSpec_Contract address
  | Scope_SelfAdmin => ScopeSpec_SelfAdmin
  end.

Definition lower_signers (doc : PolicyDoc) (rule : Rule) (ids : list string)
  : result LowerError (list SignerSpec) :=
  mapM_result (λ id,
    let* decl := ok_or (find_first (λ s, String.eqb (signer_id s) id) (doc_signers doc))
                   (LowerUnknownSignerRef (rule_name rule) id) in
    Ok (lower_method (signer_method decl))) ids.

Definition lower_cap (rule : Rule) : result LowerError (option CapSpec) :=
  match rule_cap rule with
  | None => Ok None
  | Some c =>
      let* limit := ok_or (parse_i128 (cap_limit c)) (InvalidCap (rule_name rule)) in
      Ok (Some {| spec_token := cap_token c; spec_limit := limit;
                  spec_period_ledgers := cap_period_ledgers c |})
  end.

Definition is_none {A} (o : option A) : bool := match o with None => true | _ => false end.

Definition lower_rule (doc : PolicyDoc) (rule : Rule) : result LowerError LoweredRule :=
  let* ' (signer_ids, min_signers) :=
    match rule_principals rule with
    | Principals_All signers => Ok (signers, len_u32 signers)
    | Principals_Threshold signers m => Ok (signers, m)
    | Principals_SelfAuthenticating _ _ _ =>
        Err (Unsupported (rule_name rule)
          "self-authenticating rules need a policy-call op not in program v1")
    end in
  let* signers := lower_signers doc rule signer_ids in
  let* cap := lower_cap rule in
  let constraint_free :=
    match rule_principals rule with Principals_All _ => true | _ => false end &&
    is_none (rule_functions rule) && is_none (rule_args rule) && is_none cap in
  let* install :=
    if constraint_free then Ok None
    else
      let* program := build_program rule min_signers in
      Ok (Some {| program := program; Program.doc_hash := rule_hash_onchain rule |}) in
  let* valid_until :=
    match rule_not_after_ledger rule with
    | None => Ok None
    | Some x => let* y := u_sub x 1 in Ok (Some y)
    end in
  Ok {| lr_name := rule_name rule; lr_scope := lower_scope (rule_scope rule);
        lr_signers := signers; lr_valid_until := valid_until;
        lr_install := install; lr_cap := cap |}.

Definition compile (doc : PolicyDoc) (interpreter_wasm_hash : bytes)
  : result LowerError Plan :=
  let* rules := mapM_result (lower_rule doc) (doc_rules doc) in
  Ok {| plan_rules := rules;
        plan_interpreter_wasm_hash :=
          if existsb (λ r, negb (is_none (lr_install r))) rules
          then Some interpreter_wasm_hash else None |}.

(** ** Analysis (analysis.rs) *)

Inductive FnSet : Type :=
| FnSet_Any
| FnSet_Only (fns : list string).

Record ReachableScope : Type := {
  rs_rule : string;
  rs_scope : ScopeSpec;
  rs_functions : FnSet;
}.

(** [for s in set { if !fns.contains(s) { fns.push(s) } }]. *)
Fixpoint push_new (fns set : list string) : list string :=
  match set with
  | [] => fns
  | s :: set => push_new (if contains fns s then fns else fns ++ [s]) set
  end.
Fixpoint fnin_loop (l : list Op) (fns : list string) (saw_fnin : bool) : list string * bool :=
  match l with
  | [] => (fns, saw_fnin)
  | Op_FnIn set :: l => fnin_loop l (push_new fns set) true
  | _ :: l => fnin_loop l fns saw_fnin
  end.

Definition lowered_functions (rule : LoweredRule) : FnSet :=
  match lr_install rule with
  | None => FnSet_Any
  | Some install =>
      let '(fns, saw_fnin) := fnin_loop (ops (program install)) [] false in
      if saw_fnin then FnSet_Only fns else FnSet_Any
  end.

Definition reachable_calls (plan : Plan) : list ReachableScope :=
  map (λ rule, {| rs_rule := lr_name rule; rs_scope := lr_scope rule;
                  rs_functions := lowered_functions rule |}) (plan_rules plan).

Record ProgramBounds : Type := {
  pb_ops : N;
  max_stack_depth : N;
}.
Definition fits (b : ProgramBounds) (max_ops : N) : bool := (pb_ops b <=? max_ops)%N.

Fixpoint bounds_loop (l : list Op) (depth max_depth : N) : N :=
  match l with
  | [] => max_depth
  | op :: l =>
      let p := match op with Op_All n | Op_Any n => n | Op_Not => 1%N | _ => 0%N end in
      let depth := saturating_add32 (saturating_sub depth p) 1 in
      bounds_loop l depth (N.max max_depth depth)
  end.
Definition program_bounds (p : RpnProgram) : ProgramBounds := {|
  pb_ops := N.of_nat (length (ops p));
  max_stack_depth := bounds_loop (ops p) 0 0;
|}.

Abbreviation interval := (Verdict * Verdict)%type.

Definition leaf_interval (op : Op) : interval :=
  match op with
  | Op_MinSigners 0 => (VTrue, VTrue)
  | Op_LedgerBefore 0 => (VFalse, VFalse)
  | _ => (VFalse, VTrue)
  end.

(** [n] pops, folding lower and upper ends with [f]. *)
Definition fold_intervals (f : Verdict → Verdict → Verdict) (u : Verdict)
    (popped : list interval) : interval :=
  fold_left (λ acc x, (f acc.1 x.1, f acc.2 x.2)) popped (u, u).

Fixpoint interval_loop (l : list Op) (stack : list interval) : option (list interval) :=
  match l with
  | [] => Some stack
  | op :: l =>
      let composite n f u :=
        if (n =? 0)%N || (N.of_nat (length stack) <? n)%N then None
        else interval_loop l (fold_intervals f u (take (N.to_nat n) stack)
                              :: drop (N.to_nat n) stack) in
      match op with
      | Op_All n => composite n verdict_min VTrue
      | Op_Any n => composite n verdict_max VFalse
      | Op_Not =>
          match stack with
          | [] => None
          | (lo, hi) :: stack => interval_loop l ((verdict_not hi, verdict_not lo) :: stack)
          end
      | leaf => interval_loop l (leaf_interval leaf :: stack)
      end
  end.

Definition max_verdict (p : RpnProgram) : Verdict :=
  match interval_loop (ops p) [] with
  | Some [(_, hi)] => hi
  | _ => VUnknown
  end.
Definition can_ever_authorize (p : RpnProgram) : bool := bool_decide (max_verdict p = VTrue).

(** ** Activation (activation.rs) *)

Inductive ActivationError : Type := DocHashMismatch (rule : string).

Fixpoint verify_rules (doc : PolicyDoc) (l : list LoweredRule) : result ActivationError unit :=
  match l with
  | [] => Ok tt
  | lowered :: l =>
      let ok :=
        match lr_install lowered with
        | None => true
        | Some install =>
            match find_first (λ r, String.eqb (rule_name r) (lr_name lowered)) (doc_rules doc) with
            | Some r => String.eqb (rule_hash_onchain r) (Program.doc_hash install)
            | None => false
            end
        end in
      if ok then verify_rules doc l else Err (DocHashMismatch (lr_name lowered))
  end.
Definition verify_plan_matches_doc (doc : PolicyDoc) (plan : Plan)
  : result ActivationError unit := verify_rules doc (plan_rules plan).

(** ** Attenuation (attenuation.rs) *)

Inductive AttenuationError : Type :=
| NotANarrowing (rule : string)
| AttenuationCompile (e : LowerError).

Record Attenuation : Type := {
  parent_hash : bytes;
  child_hash : bytes;
}.

Definition fn_covers (parent child : FnSet) : bool :=
  match parent, child with
  | FnSet_Any, _ => true
  | FnSet_Only _, FnSet_Any => false
  | FnSet_Only p, FnSet_Only c => forallb (contains p) c
  end.

Fixpoint narrowing_loop (parent_reach child_reach : list ReachableScope)
  : result AttenuationError unit :=
  match child_reach with
  | [] => Ok tt
  | cs :: child_reach =>
      let covered :=
        existsb (λ ps, bool_decide (rs_scope ps = rs_scope cs) &&
                       fn_covers (rs_functions ps) (rs_functions cs)) parent_reach in
      if covered then narrowing_loop parent_reach child_reach
      else Err (NotANarrowing (rs_rule cs))
  end.
Definition is_narrowing (parent child : Plan) : result AttenuationError unit :=
  narrowing_loop (reachable_calls parent) (reachable_calls child).

Definition attenuate (parent child : PolicyDoc) (interpreter_wasm_hash : bytes)
  : result AttenuationError Attenuation :=
  let* parent_plan := map_err AttenuationCompile (compile parent interpreter_wasm_hash) in
  let* child_plan := map_err AttenuationCompile (compile child interpreter_wasm_hash) in
  is_narrowing parent_plan child_plan ;;;
  Ok {| parent_hash := doc_hash_onchain parent; child_hash := doc_hash_onchain child |}.
End compile.

(** ** What a rule means *)

Section meaning.
Context {H : Host}.

(** [Symbol::new] makes the symbol with the characters it is given. *)
Class SymbolLaw : Prop :=
  symbol_new_same s t : symbol_new s = Some t → t = s.

Definition arg_holds (inputs : EvalInputs) (c : ArgConstraint) : Prop :=
  let i := arg_index c in
  match arg_pred c with
  | IsSelf => arg val_address (context inputs) i = Some (self_addr inputs)
  | AddressEq address =>
      ∃ a, address_from_str address = Some a ∧ arg val_address (context inputs) i = Some a
  | U32Eq n => arg val_u32 (context inputs) i = Some n
  | StringIn values =>
      ∃ s, arg val_string (context inputs) i = Some s ∧ s ∈ values ∧
           String.length s ≤ MAX_STR_ARG_LEN
  | StringPrefix pfx =>
      ∃ s, arg val_string (context inputs) i = Some s ∧ String.prefix pfx s = true ∧
           String.length pfx ≤ MAX_STR_ARG_LEN
  end.

(** How many signers a rule asks for. *)
Definition signer_floor (p : Principals) : N :=
  match p with
  | Principals_All signers => N.max (len_u32 signers) 1
  | Principals_Threshold _ m => N.max m 1
  | Principals_SelfAuthenticating _ _ _ => 1
  end.

(** The calls a rule allows, read off the document. *)
Definition rule_allows (rule : Rule) (inputs : EvalInputs) : Prop :=
  (signer_floor (rule_principals rule) ≤ signer_count inputs)%N ∧
  (∀ fns, rule_functions rule = Some fns →
     ∃ c, context inputs = Context_Contract c ∧ fn_name c ∈ fns) ∧
  (∀ args, rule_args rule = Some args → Forall (arg_holds inputs) args).

(** ** Programs that are one conjunction of leaves *)

Lemma flatten_leaves leaves :
  flatten (FAll (map FLeaf leaves)) = leaves ++ [Op_All (N.of_nat (length leaves))].
Proof.
  simpl. rewrite map_map, length_map. f_equal.
  induction leaves as [|op l IH]; simpl; [done|]. f_equal. exact IH.
Qed.

Lemma wf_leaves leaves :
  leaves ≠ [] → Forall (λ op, classify op = CLeaf) leaves →
  wf_formula (FAll (map FLeaf leaves)).
Proof.
  intros Hne Hl. simpl. split; [by destruct leaves|]. apply wf_formulas.
  clear Hne. induction Hl; simpl; constructor; done.
Qed.

Lemma eval_leaves e leaves p inputs :
  Program.validate p = Ok tt → ops p = leaves ++ [Op_All (N.of_nat (length leaves))] →
  leaves ≠ [] → Forall (λ op, classify op = CLeaf) leaves →
  eval e p inputs = Ok VTrue ↔
  Forall (λ op, leaf_verdict e inputs op = VTrue) leaves.
Proof.
  intros Hv Hops Hne Hl.
  rewrite (eval_validated (FAll (map FLeaf leaves)));
    [|done|by apply wf_leaves|by rewrite flatten_leaves].
  cbn [denote]. rewrite map_map.
  change (map (λ x, denote (leaf_verdict e inputs) (FLeaf x)) leaves)
    with (map (leaf_verdict e inputs) leaves).
  rewrite <- (Forall_fmap (leaf_verdict e inputs) (λ v, v = VTrue)).
  change (leaf_verdict e inputs <$> leaves) with (map (leaf_verdict e inputs) leaves).
  rewrite <- all_of_true. split; [by intros [= ?]|by intros ->].
Qed.

(** ** Each op means its predicate *)

Lemma verdict_from_bool_decide (P : Prop) `{Decision P} :
  verdict_from_bool (bool_decide P) = VTrue ↔ P.
Proof. rewrite verdict_from_bool_true. apply bool_decide_eq_true. Qed.

Lemma lower_arg_pred_leaf i p op : lower_arg_pred i p = Ok op → classify op = CLeaf.
Proof. destruct p; simpl; intros; inv_result; done. Qed.

Lemma lower_arg_pred_Ok e inputs c op :
  lower_arg_pred (arg_index c) (arg_pred c) = Ok op →
  leaf_verdict e inputs op = VTrue ↔ arg_holds inputs c.
Proof.
  unfold arg_holds. intros Hop. destruct (arg_pred c) as [|a|vs|pfx|n]; simpl in Hop; inv_result.
  - simpl. unfold arg_addr_is_self.
    destruct (arg val_address _ _) as [x|]; [|naive_solver].
    rewrite verdict_from_bool_decide. naive_solver.
  - simpl. unfold arg_addr_eq.
    destruct (arg val_address _ _) as [y|]; [|naive_solver].
    rewrite verdict_from_bool_decide. naive_solver.
  - cbn [leaf_verdict].
    destruct (arg val_string (context inputs) (arg_index c)) as [s|] eqn:Ha.
    + rewrite (arg_str_in_spec _ _ _ _ Ha).
      destruct (Nat.ltb_spec MAX_STR_ARG_LEN (String.length s));
        rewrite ?verdict_from_bool_true, ?contains_true; naive_solver lia.
    + unfold arg_str_in. rewrite Ha. naive_solver.
  - cbn [leaf_verdict].
    destruct (arg val_string (context inputs) (arg_index c)) as [s|] eqn:Ha.
    + rewrite (arg_str_prefix_spec _ _ _ _ Ha).
      destruct (Nat.ltb_spec MAX_STR_ARG_LEN (String.length pfx));
        rewrite ?verdict_from_bool_true; naive_solver lia.
    + unfold arg_str_prefix. rewrite Ha. naive_solver.
  - simpl. unfold arg_u32_eq.
    destruct (arg val_u32 _ _) as [x|]; [|naive_solver].
    rewrite verdict_from_bool_true, N.eqb_eq. naive_solver.
Qed.

Lemma fn_in_true inputs fns :
  fn_in inputs fns = VTrue ↔
  ∃ c, context inputs = Context_Contract c ∧ fn_name c ∈ fns.
Proof.
  unfold fn_in. destruct (context inputs) as [c| |]; [|naive_solver..].
  rewrite verdict_from_bool_true, existsb_exists. setoid_rewrite String.eqb_eq.
  setoid_rewrite <- list_elem_of_In. naive_solver.
Qed.

Lemma symbols_same `{!SymbolLaw} fns syms :
  mapM_result (E:=LowerError) (λ f, or_panic (symbol_new f)) fns = Ok syms → syms = fns.
Proof.
  rewrite mapM_result_Ok. induction 1 as [|f s fns syms Hs _ IH]; [done|].
  apply or_panic_Ok, symbol_new_same in Hs. by subst.
Qed.

(** The leaves of a built program, and what they mean together. *)
Lemma build_program_Ok `{!SymbolLaw} rule m p :
  build_program rule m = Ok p →
  Program.validate p = Ok tt ∧
  ∃ leaves, ops p = leaves ++ [Op_All (N.of_nat (length leaves))] ∧ leaves ≠ [] ∧
    Forall (λ op, classify op = CLeaf) leaves ∧
    (∀ e inputs, Forall (λ op, leaf_verdict e inputs op = VTrue) leaves ↔
      (N.max m 1 ≤ signer_count inputs)%N ∧
      (∀ fns, rule_functions rule = Some fns →
         ∃ c, context inputs = Context_Contract c ∧ fn_name c ∈ fns) ∧
      (∀ args, rule_args rule = Some args → Forall (arg_holds inputs) args)) ∧
    omap (λ op, match op with Op_FnIn l => Some l | _ => None end) leaves =
      match rule_functions rule with Some fns => [fns] | None => [] end.
Proof.
  unfold build_program. intros Hb. apply rbind_Ok in Hb as (fn_op & Hfn & Hb).
  apply rbind_Ok in Hb as (arg_ops & Harg & Hb).
  match type of Hb with match Program.validate ?q with _ => _ end = _ =>
    destruct (Program.validate q) as [[]| |] eqn:Hv; [|done..] end.
  injection Hb as <-. split; [done|]. clear Hv.
  exists ([Op_MinSigners (N.max m 1)] ++ fn_op ++ arg_ops). split; [done|]. split; [done|].
  assert (Forall (λ op, classify op = CLeaf) fn_op ∧
    (∀ e inputs, Forall (λ op, leaf_verdict e inputs op = VTrue) fn_op ↔
      ∀ fns, rule_functions rule = Some fns →
        ∃ c, context inputs = Context_Contract c ∧ fn_name c ∈ fns) ∧
    omap (λ op, match op with Op_FnIn l => Some l | _ => None end) fn_op =
      match rule_functions rule with Some fns => [fns] | None => [] end)
    as (Hl1 & Hm1 & Ho1).
  { destruct (rule_functions rule) as [fns|].
    - apply rbind_Ok in Hfn as (syms & Hs & [= <-]). apply symbols_same in Hs as ->. split; [by repeat constructor|]. split; [|done].
      intros e inputs. rewrite Forall_singleton. simpl. rewrite fn_in_true. naive_solver.
    - injection Hfn as <-. split; [constructor|]. split; [|done]. intros. split; [done|]. intros _. constructor. }
  assert (Forall (λ op, classify op = CLeaf) arg_ops ∧
    (∀ e inputs, Forall (λ op, leaf_verdict e inputs op = VTrue) arg_ops ↔
      ∀ args, rule_args rule = Some args → Forall (arg_holds inputs) args) ∧
    omap (λ op, match op with Op_FnIn l => Some l | _ => None end) arg_ops = [])
    as (Hl2 & Hm2 & Ho2).
  { destruct (rule_args rule) as [args|].
    - apply mapM_result_Ok in Harg. split_and!.
      + induction Harg as [|c op ? ? Hc _ IH]; [constructor|]. constructor; [|done].
        by eapply lower_arg_pred_leaf.
      + intros e inputs. transitivity (Forall (arg_holds inputs) args); [|naive_solver].
        induction Harg as [|c op ? ? Hc _ IH]; [split; constructor|].
        rewrite !Forall_cons, IH.
        by rewrite (lower_arg_pred_Ok e inputs c op Hc).
      + induction Harg as [|c op ? ? Hc _ IH]; [done|]. simpl.
        destruct (arg_pred c); simpl in Hc; inv_result; done.
    - injection Harg as <-. split; [constructor|]. split; [|done]. intros. split; [done|]. intros _. constructor. }
  split; [by repeat (constructor || apply Forall_app_2)|]. split.
  - intros e inputs. rewrite !Forall_app, Forall_singleton, Hm1, Hm2. simpl.
    unfold min_signers. by rewrite verdict_from_bool_true, N.leb_le.
  - by rewrite !omap_app, Ho1, Ho2, app_nil_r.
Qed.
End meaning.

(** ** What lowering a rule produces *)

Section lowering.
Context {H : Host}.

(** A rule that rides the account's native all-signers check. *)
Definition constraint_free (rule : Rule) : Prop :=
  (∃ signers, rule_principals rule = Principals_All signers) ∧
  rule_functions rule = None ∧ rule_args rule = None ∧ rule_cap rule = None.

Definition principal_ids (p : Principals) : list string :=
  match p with
  | Principals_All signers | Principals_Threshold signers _ => signers
  | Principals_SelfAuthenticating _ _ _ => []
  end.

Lemma is_none_true {A} (o : option A) : is_none o = true ↔ o = None.
Proof. by destruct o. Qed.

Lemma lower_cap_None rule c : lower_cap rule = Ok c → (c = None ↔ rule_cap rule = None).
Proof. unfold lower_cap. destruct (rule_cap rule); intros; inv_result; naive_solver. Qed.

Lemma lower_rule_Ok doc rule lr :
  lower_rule doc rule = Ok lr →
  lr_name lr = rule_name rule ∧ lr_scope lr = lower_scope (rule_scope rule) ∧
  lower_signers doc rule (principal_ids (rule_principals rule)) = Ok (lr_signers lr) ∧
  lower_cap rule = Ok (lr_cap lr) ∧
  match lr_install lr with
  | None => constraint_free rule
  | Some params =>
      ¬ constraint_free rule ∧ Program.doc_hash params = rule_hash_onchain rule ∧
      ∃ m, N.max m 1 = signer_floor (rule_principals rule) ∧
           build_program rule m = Ok (program params)
  end ∧
  match rule_not_after_ledger rule with
  | None => lr_valid_until lr = None
  | Some x => x ≠ 0%N ∧ lr_valid_until lr = Some (x - 1)%N
  end.
Proof.
  unfold lower_rule. intros Hl.
  apply rbind_Ok in Hl as ([ids m] & Hids & Hl).
  apply rbind_Ok in Hl as (signers & Hsig & Hl).
  apply rbind_Ok in Hl as (cap & Hcap & Hl).
  apply rbind_Ok in Hl as (install & Hins & Hl).
  apply rbind_Ok in Hl as (vu & Hvu & [= <-]). simpl.
  assert (ids = principal_ids (rule_principals rule) ∧
          N.max m 1 = signer_floor (rule_principals rule)) as [-> Hm].
  { destruct (rule_principals rule); by simplify_eq/=. }
  split_and!; try done.
  - pose proof (lower_cap_None _ _ Hcap) as Hnone.
    match type of Hins with (if ?b then _ else _) = _ => destruct b eqn:Hb end.
    + injection Hins as <-. rewrite !andb_true_iff, !is_none_true in Hb.
      destruct Hb as (((Hp & Hf) & Ha) & Hc). split_and!; [|done|done|by apply Hnone].
      destruct (rule_principals rule); eauto || done.
    + apply rbind_Ok in Hins as (p & Hp & [= <-]). split_and!; [|done|by exists m].
      intros ((s & Hs) & Hf & Ha & Hc). apply Hnone in Hc as ->.
      rewrite Hs, Hf, Ha in Hb. done.
  - destruct (rule_not_after_ledger rule) as [x|]; [|by simplify_eq].
    apply rbind_Ok in Hvu as (y & Hy & [= <-]). apply u_sub_Ok in Hy as [? ->].
    split; [lia|done].
Qed.

Lemma lower_signers_Ok doc rule ids specs :
  lower_signers doc rule ids = Ok specs ↔
  Forall2 (λ id spec, ∃ decl,
    find_first (λ s, String.eqb (signer_id s) id) (doc_signers doc) = Some decl ∧
    spec = lower_method (signer_method decl)) ids specs.
Proof.
  unfold lower_signers. rewrite mapM_result_Ok. split; intros Hf;
    (eapply Forall2_impl; [exact Hf|]); intros id spec Hs; simpl in *.
  - inv_result. eauto.
  - destruct Hs as (decl & -> & ->). done.
Qed.

Lemma lowered_meaning `{!SymbolLaw} doc rule lr params e inputs :
  lower_rule doc rule = Ok lr → lr_install lr = Some params →
  eval e (program params) inputs = Ok VTrue ↔ rule_allows rule inputs.
Proof.
  intros (_ & _ & _ & _ & Hi & _)%lower_rule_Ok Hp. rewrite Hp in Hi.
  destruct Hi as (_ & _ & m & Hm & Hb).
  destruct (build_program_Ok _ _ _ Hb) as (Hv & leaves & Hops & Hne & Hl & Hmean & _).
  rewrite (eval_leaves e leaves) by done. rewrite Hmean, Hm. done.
Qed.

(** C32: Lowering preserves meaning.  When a rule lowers to an interpreter
    attachment, its program evaluates to [True] on a call exactly when the
    rule, read off the document, allows the call: enough authenticated
    signers (N of an N-of-N rule, M of an M-of-N one, never zero), a listed
    function, and every argument constraint satisfied. *)
Theorem lowered_program_meaning `{!SymbolLaw} doc rule lr params e inputs :
  lower_rule doc rule = Ok lr → lr_install lr = Some params →
  eval e (program params) inputs = Ok VTrue ↔ rule_allows rule inputs.
Proof. apply lowered_meaning. Qed.

(** The lowering invariants.  Every lowered rule of a validated rule
    fails a zero-signature authorization: with a program attached, no call
    with no authenticated signer evaluates to [True]; without one, its
    signer list is the non-empty list of all its principals, which the
    account checks natively (INV-1).  A rule is policy-free exactly when it
    is an unconstrained N-of-N rule (INV-2), a capped rule always carries
    the interpreter, and the inclusive [valid_until] is live exactly on the
    ledgers before [not-after-ledger]. *)
Theorem lowering_invariants `{!SymbolLaw} `{HexCodec} doc declared rule lr :
  wf_rule declared rule → lower_rule doc rule = Ok lr →
  (∀ params e inputs, lr_install lr = Some params → signer_count inputs = 0%N →
     eval e (program params) inputs ≠ Ok VTrue) ∧
  (lr_install lr = None →
     lr_signers lr ≠ [] ∧ length (lr_signers lr) = length (principal_ids (rule_principals rule))) ∧
  (lr_install lr = None ↔ constraint_free rule) ∧
  (lr_cap lr ≠ None → lr_install lr ≠ None) ∧
  (∀ seq, match lr_valid_until lr with None => True | Some v => (seq ≤ v)%N end ↔
          match rule_not_after_ledger rule with None => True | Some x => (seq < x)%N end).
Proof.
  intros Hwf (_ & _ & Hsig & Hcap & Hi & Hvu)%lower_rule_Ok.
  assert (lr_install lr = None ↔ constraint_free rule) as Hiff.
  { destruct (lr_install lr) as [params|]; naive_solver. }
  split_and!; [| |done| |].
  - intros params e inputs Hp Hz. rewrite Hp in Hi. destruct Hi as (_ & _ & m & Hm & Hb).
    destruct (build_program_Ok _ _ _ Hb) as (Hv & leaves & Hops & Hne & Hl & Hmean & _).
    rewrite (eval_leaves e leaves) by done. rewrite Hmean. intros [Hle _]. lia.
  - intros [(s & Hs) _]%Hiff. apply lower_signers_Ok, Forall2_length in Hsig as Hlen.
    split; [|done]. destruct Hwf as (_ & Hp & _). rewrite Hs in *. simpl in *.
    destruct Hp as [Hne _]. destruct s, (lr_signers lr); simpl in *; done || lia.
  - intros Hc Hn. apply Hiff in Hn as (_ & _ & _ & Hrc).
    by apply (lower_cap_None _ _ Hcap) in Hrc.
  - intros seq. destruct (rule_not_after_ledger rule) as [x|].
    + destruct Hvu as [Hx ->]. lia.
    + by rewrite Hvu.
Qed.
End lowering.

(** ** Compiling a validated document succeeds *)

Section totality.
Context {H : Host} `{HexCodec}.

Lemma needs_leaves (l : list Op) : needs need (map FLeaf l) = length l.
Proof. induction l as [|op l IH]; simpl; [done|]. rewrite IH. lia. Qed.

Lemma leaves_validate leaves :
  leaves ≠ [] → Forall (λ op, classify op = CLeaf) leaves →
  length leaves ≤ N.to_nat MAX_STACK_DEPTH →
  Program.validate {| version := PROGRAM_VERSION;
                      ops := leaves ++ [Op_All (N.of_nat (length leaves))] |} = Ok tt.
Proof.
  intros Hne Hl Hlen. apply validate_formula. simpl. split; [done|].
  unfold MAX_STACK_DEPTH, MAX_PROGRAM_LEN in *. split.
  { rewrite length_app. simpl. lia. }
  exists (FAll (map FLeaf leaves)). split; [by apply wf_leaves|].
  split; [apply flatten_leaves|]. cbn [need]. rewrite needs_leaves.
  destruct leaves; simpl in *; done || lia.
Qed.

(** What the lowering of a valid rule needs of the host: valid symbols are
    made, and the rule's address constants decode. *)
Definition host_accepts (rule : Rule) : Prop :=
  (∀ s, is_valid_symbol s = true → symbol_new s = Some s) ∧
  ∀ args c a, rule_args rule = Some args → c ∈ args → arg_pred c = AddressEq a →
    is_Some (address_from_str a).

(** A rule small enough for one conjunction on a 128-slot stack. *)
Definition fits_stack (rule : Rule) : Prop :=
  match rule_args rule with Some args => length args ≤ 126 | None => True end.

Lemma mapM_result_total {E A B} (f : A → result E B) l :
  (∀ x, x ∈ l → ∃ y, f x = Ok y) → ∃ ys, mapM_result f l = Ok ys ∧ length ys = length l.
Proof.
  induction l as [|x l IH]; intros Hf; simpl; [by exists []|].
  destruct (Hf x) as [y Hy]; [set_solver|]. destruct IH as (ys & Hys & Hlen); [set_solver|].
  rewrite Hy; simpl. rewrite Hys; simpl. exists (y :: ys). simpl. by rewrite Hlen.
Qed.

Lemma build_program_total declared rule m :
  wf_rule declared rule → host_accepts rule → fits_stack rule →
  ∃ p, build_program rule m = Ok p.
Proof.
  intros (_ & _ & Hfns & _) [Hsym Haddr] Hfit. unfold build_program.
  assert (∃ fn_op, match rule_functions rule with
    | Some funcs => let* syms := mapM_result (λ f, or_panic (symbol_new f)) funcs in
                    Ok [Op_FnIn syms]
    | None => Ok [] end = Ok (E:=LowerError) fn_op ∧ length fn_op ≤ 1 ∧
    Forall (λ op, classify op = CLeaf) fn_op) as (fn_op & -> & Hl1 & Hc1).
  { destruct (rule_functions rule) as [fns|]; [|eexists; split; [done|]; split; [simpl; lia|constructor]].
    destruct (mapM_result_total (E:=LowerError) (λ f, or_panic (symbol_new f)) fns)
      as (syms & -> & _).
    - intros f Hf. destruct (Hfns fns eq_refl) as (_ & _ & Hall).
      rewrite Forall_forall in Hall. rewrite Hsym by auto. by exists f.
    - eexists. split; [done|]. split; [done|by repeat constructor]. }
  assert (∃ arg_ops, match rule_args rule with
    | Some args => mapM_result (λ c, lower_arg_pred (arg_index c) (arg_pred c)) args
    | None => Ok [] end = Ok arg_ops ∧ length arg_ops ≤ 126 ∧
    Forall (λ op, classify op = CLeaf) arg_ops) as (arg_ops & -> & Hl2 & Hc2).
  { unfold fits_stack in Hfit. destruct (rule_args rule) as [args|];
      [|eexists; split; [done|]; split; [simpl; lia|constructor]].
    destruct (mapM_result_total (λ c, lower_arg_pred (arg_index c) (arg_pred c)) args)
      as (arg_ops & Hops & Hlen).
    - intros c Hc. destruct (arg_pred c) eqn:Hp; simpl; eauto.
      destruct (Haddr args c address eq_refl Hc Hp) as [x ->]. simpl. eauto.
    - exists arg_ops. split_and!; [done|lia|]. apply mapM_result_Ok in Hops.
      clear -Hops. induction Hops as [|c op ? ? Hc _ IH]; [constructor|].
      constructor; [by eapply lower_arg_pred_leaf|done]. }
  cbn [rbind]. rewrite leaves_validate; [eauto|done| |].
  - by repeat (constructor || apply Forall_app_2).
  - rewrite !length_app. simpl. unfold MAX_STACK_DEPTH. lia.
Qed.

Definition not_self_authenticating (rule : Rule) : Prop :=
  match rule_principals rule with Principals_SelfAuthenticating _ _ _ => False | _ => True end.

Lemma find_signer d id :
  id ∈ declared_ids d →
  ∃ decl, find_first (λ s, String.eqb (signer_id s) id) (doc_signers d) = Some decl.
Proof.
  intros (s & -> & Hs)%list_elem_of_fmap.
  destruct (find_first _ (doc_signers d)) as [decl|] eqn:Hf; [eauto|].
  rewrite find_first_None, Forall_forall in Hf. specialize (Hf s Hs). simpl in Hf.
  by rewrite String.eqb_refl in Hf.
Qed.

Lemma lower_rule_total d rule :
  wf_rule (declared_ids d) rule → not_self_authenticating rule →
  host_accepts rule → fits_stack rule → ∃ lr, lower_rule d rule = Ok lr.
Proof.
  intros Hwf Hnsa Hhost Hfit. pose proof Hwf as (_ & Hp & _ & _ & Hnal & Hcap).
  unfold lower_rule, not_self_authenticating in *.
  assert (∃ ids m, match rule_principals rule with
    | Principals_All signers => Ok (signers, len_u32 signers)
    | Principals_Threshold signers m => Ok (signers, m)
    | Principals_SelfAuthenticating _ _ _ => Err (Unsupported (rule_name rule)
          "self-authenticating rules need a policy-call op not in program v1")
    end = Ok (ids, m) ∧ Forall (.∈ declared_ids d) ids) as (ids & m & -> & Hids).
  { unfold wf_principals, wf_refs in Hp. destruct (rule_principals rule); naive_solver. }
  cbn [rbind].
  assert (∃ specs, lower_signers d rule ids = Ok specs) as [specs ->].
  { unfold lower_signers.
    match goal with |- ∃ _, mapM_result ?f ?l = _ =>
      destruct (mapM_result_total f l) as (specs & Hs & _); [|exists specs; exact Hs] end.
    intros id Hid. rewrite Forall_forall in Hids.
    destruct (find_signer d id (Hids id Hid)) as [decl ->]. simpl. eauto. }
  cbn [rbind].
  assert (∃ cap, lower_cap rule = Ok cap) as [cap ->].
  { unfold lower_cap. destruct (rule_cap rule) as [c|]; [|eauto].
    destruct (Hcap c eq_refl) as ((v & -> & _) & _). simpl. eauto. }
  cbn [rbind].
  destruct (build_program_total (declared_ids d) rule m Hwf Hhost Hfit) as [p Hb].
  rewrite Hb. cbn [rbind].
  assert (∃ vu, match rule_not_after_ledger rule with
    | None => Ok None | Some x => let* y := u_sub x 1 in Ok (Some y) end
    = Ok (E:=LowerError) vu) as [vu ->].
  { destruct (rule_not_after_ledger rule) as [x|]; [|eauto].
    unfold u_sub. destruct (N.ltb_spec x 1); [|simpl; eauto].
    exfalso. apply Hnal. f_equal. lia. }
  match goal with |- context [if ?b then Ok None else _] => destruct b end;
    cbn [rbind]; eauto.
Qed.

Lemma find_rule d rule :
  NoDup (rule_name <$> doc_rules d) → rule ∈ doc_rules d →
  find_first (λ r, String.eqb (rule_name r) (rule_name rule)) (doc_rules d) = Some rule.
Proof.
  intros Hnd Hin. induction (doc_rules d) as [|r l IH]; [set_solver|]. simpl.
  apply NoDup_cons in Hnd as [Hr Hnd].
  destruct (String.eqb_spec (rule_name r) (rule_name rule)) as [He|Hne].
  - apply elem_of_cons in Hin as [->|Hin]; [done|].
    exfalso. apply Hr. rewrite He. by apply list_elem_of_fmap_2.
  - apply elem_of_cons in Hin as [->|Hin]; [done|auto].
Qed.

Lemma verify_rules_Ok doc l :
  verify_rules doc l = Ok tt ↔
  Forall (λ lr, ∀ install, lr_install lr = Some install → ∃ r,
    find_first (λ r, String.eqb (rule_name r) (lr_name lr)) (doc_rules doc) = Some r ∧
    Program.doc_hash install = rule_hash_onchain r) l.
Proof.
  induction l as [|lr l IH]; simpl; [by split|]. rewrite Forall_cons, <- IH.
  destruct (lr_install lr) as [install|]; [|naive_solver].
  destruct (find_first _ _) as [r|]; [|naive_solver].
  destruct (String.eqb_spec (rule_hash_onchain r) (Program.doc_hash install)); [naive_solver|].
  split; [done|]. intros [Hx _]. destruct (Hx install eq_refl) as (r' & [= <-] & Hr'). congruence.
Qed.

Lemma compile_verifies d h plan :
  NoDup (rule_name <$> doc_rules d) → compile d h = Ok plan →
  verify_plan_matches_doc d plan = Ok tt.
Proof.
  intros Hnd Hc. unfold compile in Hc. apply rbind_Ok in Hc as (lrs & Hl & [= <-]).
  unfold verify_plan_matches_doc. simpl. apply verify_rules_Ok.
  apply mapM_result_Ok in Hl. apply Forall_forall. intros lr Hin install Hi.
  apply list_elem_of_lookup in Hin as [i Hlr].
  destruct (Forall2_lookup_r _ _ _ _ _ Hl Hlr) as (rule & Hrule & Hlow).
  apply lower_rule_Ok in Hlow as (Hn & _ & _ & _ & Hins & _). rewrite Hi in Hins.
  destruct Hins as (_ & Hh & _). exists rule. rewrite Hn.
  split; [|done]. apply find_rule; [done|]. by eapply list_elem_of_lookup_2.
Qed.

Lemma nums_ok_rule d r :
  nums_ok (doc_to_cv d) = true → r ∈ doc_rules d → nums_ok (rule_to_cv r) = true.
Proof.
  intros Hd Hr. unfold doc_to_cv in Hd. cbn [nums_ok] in Hd.
  rewrite forallb_forall in Hd.
  assert (nums_ok (Arr (map rule_to_cv (doc_rules d))) = true) as Hrules.
  { apply (Hd ("rules"%string, _)), list_elem_of_In. set_solver. }
  cbn [nums_ok] in Hrules. rewrite forallb_forall in Hrules.
  apply Hrules, in_map_iff. exists r. by rewrite <- list_elem_of_In.
Qed.

(** Compilation of a validated document is total.  Without
    self-authenticating rules and with at most 126 argument constraints per
    rule, on a host that makes the valid symbols and decodes the address
    constants, every rule lowers (no unresolved signer, no bad cap, no
    refused program, no underflow of [not-after-ledger - 1], no trap), and
    the resulting plan passes the activation check against the document. *)
Theorem compile_total d h :
  wf_doc d →
  Forall (λ r, not_self_authenticating r ∧ host_accepts r ∧ fits_stack r) (doc_rules d) →
  ∃ plan, compile d h = Ok plan ∧ length (plan_rules plan) = length (doc_rules d) ∧
    verify_plan_matches_doc d plan = Ok tt.
Proof.
  intros (_ & _ & _ & _ & Hrules & Hnd & _) Hok.
  destruct (mapM_result_total (lower_rule d) (doc_rules d)) as (lrs & Hl & Hlen).
  { intros rule Hin. rewrite Forall_forall in Hrules, Hok.
    destruct (Hrules _ Hin), (Hok _ Hin) as (? & ? & ?). by apply lower_rule_total. }
  eexists. split; [unfold compile; rewrite Hl; reflexivity|]. split; [done|].
  eapply (compile_verifies d h); [done|]. unfold compile. rewrite Hl. reflexivity.
Qed.

(** The activation check binds programs to the reviewed text.  If a plan
    is accepted for a document, every attached program carries the hash of
    the document's own rule of that name; so a program that records the hash
    of some rule [r'] records the hash of that very rule of the document, or
    the two rules' hash preimages are an explicit SHA-256 collision. *)
Theorem activation_binds_rules d plan lr install r' :
  verify_plan_matches_doc d plan = Ok tt → lr ∈ plan_rules plan →
  lr_install lr = Some install → Program.doc_hash install = rule_hash_onchain r' →
  nums_ok (rule_to_cv r') = true → nums_ok (doc_to_cv d) = true →
  ∃ r, r ∈ doc_rules d ∧ rule_name r = lr_name lr ∧
    (r = r' ∨
     RULE_HASH_DOMAIN +:+ rule_canonical_json r ≠ RULE_HASH_DOMAIN +:+ rule_canonical_json r' ∧
     sha256 (RULE_HASH_DOMAIN +:+ rule_canonical_json r) =
     sha256 (RULE_HASH_DOMAIN +:+ rule_canonical_json r')).
Proof.
  intros Hv Hlr Hi Hh Hr' Hd. apply verify_rules_Ok in Hv. rewrite Forall_forall in Hv.
  destruct (Hv lr Hlr install Hi) as (r & [Hr Hn%String.eqb_eq]%find_first_Some & Hhash).
  exists r. split_and!; [done..|].
  destruct (decide (rule_canonical_json r = rule_canonical_json r')) as [Heq|Hne].
  - left. apply (codec_write_inj rule_from_value rule_to_cv r r'); [|done..].
    by apply (nums_ok_rule d).
  - right. split; [intros Heq; by apply string_app_inj_length in Heq as [_ ?]|].
    change (rule_hash_onchain r = rule_hash_onchain r'). congruence.
Qed.
End totality.

(** ** Static analysis is sound *)

Section analysis_facts.
Context {H : Host}.

Definition verdict_le (a b : Verdict) : Prop := (verdict_rank a ≤ verdict_rank b)%N.
(** A verdict between the ends of an interval. *)
Definition within (v : Verdict) (i : Verdict * Verdict) : Prop :=
  verdict_le i.1 v ∧ verdict_le v i.2.

Lemma within_fold_acc (f : Verdict → Verdict → Verdict) vs iv v acc :
  (∀ a b c d, verdict_le a b → verdict_le c d → verdict_le (f a c) (f b d)) →
  Forall2 within vs iv → within v acc →
  within (fold_left f vs v) (fold_left (λ acc x, (f acc.1 x.1, f acc.2 x.2)) iv acc).
Proof.
  intros Hmono Hf. revert v acc.
  induction Hf as [|w i vs iv [Hw1 Hw2] _ IH]; intros v acc [H1 H2]; simpl; [done|].
  apply IH. split; by apply Hmono.
Qed.
Lemma within_fold f u vs iv :
  (∀ a b c d, verdict_le a b → verdict_le c d → verdict_le (f a c) (f b d)) →
  Forall2 within vs iv → within (fold_left f vs u) (fold_intervals f u iv).
Proof. intros Hmono Hf. apply within_fold_acc; [done..|]. split; unfold verdict_le; simpl; lia. Qed.

Lemma verdict_and_mono a b c d :
  verdict_le a b → verdict_le c d → verdict_le (verdict_and a c) (verdict_and b d).
Proof. destruct a, b, c, d; unfold verdict_le; simpl; lia. Qed.
Lemma verdict_or_mono a b c d :
  verdict_le a b → verdict_le c d → verdict_le (verdict_or a c) (verdict_or b d).
Proof. destruct a, b, c, d; unfold verdict_le; simpl; lia. Qed.

Lemma within_leaf e inputs op :
  classify op = CLeaf → within (leaf_verdict e inputs op) (leaf_interval op).
Proof.
  assert (∀ v, within v (VFalse, VTrue)) as Hfree.
  { intros []; split; unfold verdict_le; simpl; lia. }
  destruct op as [| | |[]| | | | | | | | | | |[]|]; try done; intros _; simpl; try apply Hfree.
  - unfold min_signers. split; unfold verdict_le; simpl;
      destruct (N.leb_spec 0 (signer_count inputs)); simpl; lia.
  - unfold ledger_before. split; unfold verdict_le; simpl;
      destruct (N.ltb_spec (sequence e) 0); simpl; lia.
Qed.

(** Whatever the machine computes, the intervals contain it. *)
Lemma interval_loop_within e inputs l st iv st' :
  Forall2 within st iv →
  verdict_machine (leaf_verdict e inputs) l st = Some st' →
  ∃ iv', interval_loop l iv = Some iv' ∧ Forall2 within st' iv'.
Proof.
  unfold verdict_machine. revert st iv. induction l as [|op l IH]; intros st iv Hw.
  { intros [= <-]. by exists iv. }
  cbn [machine_run]. destruct (machine_step _ _ _ _ op st) as [st1|] eqn:Hs; [|done].
  case_match; [done|]. intros Hr.
  pose proof (Forall2_length _ _ _ Hw) as Hlen.
  assert (∀ n f u, (∀ a b c d, verdict_le a b → verdict_le c d → verdict_le (f a c) (f b d)) →
    pop_push n (λ vs, fold_left f vs u) st = Some st1 →
    ∃ iv', (if (n =? 0)%N || (N.of_nat (length iv) <? n)%N then None
            else interval_loop l (fold_intervals f u (take (N.to_nat n) iv)
                                  :: drop (N.to_nat n) iv)) = Some iv' ∧
           Forall2 within st' iv') as Hcomp.
  { intros n f u Hmono. unfold pop_push. rewrite Hlen. case_match; [done|].
    intros [= <-]. eapply IH; [|exact Hr].
    constructor; [apply within_fold; [done|by apply Forall2_take]|by apply Forall2_drop]. }
  unfold machine_step in Hs. destruct op; cbn [classify] in Hs;
    try (injection Hs as <-; cbn [interval_loop]; refine (IH _ _ _ Hr); constructor; [|exact Hw];
         match goal with |- within _ (leaf_interval ?o) =>
           exact (within_leaf e inputs o eq_refl) end).
  - apply Hcomp; [apply verdict_and_mono|done].
  - apply Hcomp; [apply verdict_or_mono|done].
  - destruct st as [|v st]; [done|]. destruct iv as [|[lo hi] iv]; [done|].
    simplify_eq. apply Forall2_cons in Hw as [[Hlo Hhi] Hw]. cbn [interval_loop].
    eapply IH; [|exact Hr]. constructor; [|exact Hw].
    destruct lo, v, hi; unfold within, verdict_le in *; simpl in *; lia.
Qed.

(** The liveness analysis is sound.  If [can_ever_authorize] says no, the
    program evaluates to [True] on no ledger, context and signer count. *)
Theorem dead_programs_never_authorize p e inputs :
  can_ever_authorize p = false → eval e p inputs ≠ Ok VTrue.
Proof.
  unfold can_ever_authorize. intros Hdead%bool_decide_eq_false Ht. apply Hdead.
  rewrite eval_spec in Ht. injection Ht as Ht.
  destruct (verdict_machine (leaf_verdict e inputs) (ops p) []) as [[|v [|]]|] eqn:Hr;
    simpl in Ht; try done. subst v.
  destruct (interval_loop_within e inputs (ops p) [] [] [VTrue]) as (iv & His & Hw);
    [constructor|done|].
  unfold max_verdict. rewrite His.
  apply Forall2_cons_inv_l in Hw as ([lo hi] & iv' & [_ Hhi] & Hw & ->).
  apply Forall2_nil_inv_l in Hw as ->. simpl in *. by destruct hi.
Qed.

Lemma bounds_loop_le l d d' mx :
  validate_loop l d = Ok d' → (d ≤ MAX_STACK_DEPTH)%N → (mx ≤ MAX_STACK_DEPTH)%N →
  (bounds_loop l d mx ≤ MAX_STACK_DEPTH)%N.
Proof.
  revert d mx. induction l as [|op l IH]; intros d mx Hv Hd Hmx; [done|].
  apply (validate_loop_step op l d Hd) in Hv as (p & Hp & Hle & Hroom & Hrest).
  cbn [bounds_loop]. rewrite pops_classify in Hp.
  assert (match op with Op_All n | Op_Any n => n | Op_Not => 1%N | _ => 0%N end = p) as ->.
  { destruct op; simpl in Hp; try (injection Hp as <-; done);
      destruct (n =? 0)%N; simplify_eq; done. }
  unfold saturating_add32, saturating_sub.
  rewrite N.min_l by (unfold MAX_STACK_DEPTH, U32_MAX in *; lia).
  apply IH; [done|lia..].
Qed.

(** The reported bounds are real bounds.  For a program the validator
    accepts, the analysis reports at most 256 ops and a peak stack depth of
    at most 128, without saturating. *)
Theorem validated_program_bounds p :
  Program.validate p = Ok tt →
  (pb_ops (program_bounds p) ≤ MAX_PROGRAM_LEN)%N ∧
  (max_stack_depth (program_bounds p) ≤ MAX_STACK_DEPTH)%N ∧
  fits (program_bounds p) MAX_PROGRAM_LEN = true.
Proof.
  intros Hv. assert (N.of_nat (length (ops p)) ≤ MAX_PROGRAM_LEN)%N as Hlen
    by by apply validate_formula in Hv as (_ & ? & _).
  unfold Program.validate in Hv. repeat (case_match; [done|]). inv_result.
  split; [done|]. split; [|by apply N.leb_le].
  simpl. eapply bounds_loop_le; [eassumption|unfold MAX_STACK_DEPTH; lia..].
Qed.

(** ** Reachable functions and narrowing *)

Lemma elem_of_push_new fns set f : f ∈ push_new fns set ↔ f ∈ fns ∨ f ∈ set.
Proof.
  revert fns. induction set as [|s set IH]; intros fns; simpl; [set_solver|].
  rewrite IH. destruct (contains fns s) eqn:Hc; [apply contains_true in Hc|]; set_solver.
Qed.

Abbreviation fn_sets := (omap (λ op, match op with Op_FnIn l => Some l | _ => None end)).

Lemma fnin_loop_spec l fns saw :
  let '(out, seen) := fnin_loop l fns saw in
  (∀ f, f ∈ out ↔ f ∈ fns ∨ f ∈ concat (fn_sets l)) ∧
  seen = saw || negb (bool_decide (fn_sets l = [])).
Proof.
  revert fns saw. induction l as [|op l IH]; intros fns saw; simpl.
  { split; [set_solver|]. by rewrite orb_false_r. }
  destruct op; try apply IH. specialize (IH (push_new fns fns0) true).
  destruct (fnin_loop l _ true) as [out seen]. destruct IH as [Hout ->]. split.
  - intros f. rewrite Hout, elem_of_push_new. set_solver.
  - simpl. by rewrite orb_true_r.
Qed.

Definition fnset_allows (s : FnSet) (f : string) : Prop :=
  match s with FnSet_Any => True | FnSet_Only fns => f ∈ fns end.

(** The functions the analysis reports are the rule's own list. *)
Lemma lowered_functions_spec `{!SymbolLaw} doc rule lr f :
  lower_rule doc rule = Ok lr →
  fnset_allows (lowered_functions lr) f ↔
  match rule_functions rule with Some fns => f ∈ fns | None => True end.
Proof.
  intros (_ & _ & _ & _ & Hi & _)%lower_rule_Ok. unfold lowered_functions.
  destruct (lr_install lr) as [params|].
  2: { destruct Hi as (_ & -> & _). done. }
  destruct Hi as (_ & _ & m & _ & Hb).
  destruct (build_program_Ok _ _ _ Hb) as (_ & leaves & Hops & _ & _ & _ & Hfn).
  pose proof (fnin_loop_spec (ops (program params)) [] false) as Hl.
  destruct (fnin_loop _ [] false) as [out seen]. destruct Hl as [Hout ->].
  rewrite Hops, omap_app, Hfn in *. simpl in *.
  destruct (rule_functions rule) as [fns|]; simpl in *; [|done].
  rewrite Hout. set_solver.
Qed.

Definition can_call (lr : LoweredRule) (f : string) : Prop :=
  lr_install lr = None ∨
  ∃ params e inputs c, lr_install lr = Some params ∧
    context inputs = Context_Contract c ∧ fn_name c = f ∧
    eval e (program params) inputs = Ok VTrue.

Lemma narrowing_loop_Ok pr cr :
  narrowing_loop pr cr = Ok tt ↔
  Forall (λ cs, ∃ ps, ps ∈ pr ∧ rs_scope ps = rs_scope cs ∧
    fn_covers (rs_functions ps) (rs_functions cs) = true) cr.
Proof.
  induction cr as [|cs cr IH]; simpl; [by split|]. rewrite Forall_cons, <- IH.
  destruct (existsb _ pr) eqn:He.
  - apply existsb_exists in He as (ps & Hin%list_elem_of_In & [Hs Hc]%andb_true_iff).
    apply bool_decide_eq_true in Hs. naive_solver.
  - split; [done|]. intros [(ps & Hin & Hs & Hc) _]. exfalso.
    assert (existsb (λ ps, bool_decide (rs_scope ps = rs_scope cs) &&
      fn_covers (rs_functions ps) (rs_functions cs)) pr = true); [|congruence].
    apply existsb_exists. exists ps. rewrite <- list_elem_of_In, Hc.
    by rewrite bool_decide_eq_true_2.
Qed.

Lemma fn_covers_allows p c f :
  fn_covers p c = true → fnset_allows c f → fnset_allows p f.
Proof.
  destruct p as [|p], c as [|c]; simpl; try done. rewrite forallb_forall.
  intros Hall Hf%list_elem_of_In. by apply contains_true, Hall.
Qed.

Lemma compile_rules d h plan lr :
  compile d h = Ok plan → lr ∈ plan_rules plan →
  ∃ rule, rule ∈ doc_rules d ∧ lower_rule d rule = Ok lr.
Proof.
  unfold compile. intros Hc Hin. apply rbind_Ok in Hc as (lrs & Hl & [= <-]).
  apply mapM_result_Ok in Hl. simpl in Hin. apply list_elem_of_lookup in Hin as [i Hi].
  destruct (Forall2_lookup_r _ _ _ _ _ Hl Hi) as (rule & Hrule & Hlow).
  exists rule. split; [by eapply list_elem_of_lookup_2|done].
Qed.

Lemma can_call_allowed `{!SymbolLaw} doc rule lr f :
  lower_rule doc rule = Ok lr → can_call lr f → fnset_allows (lowered_functions lr) f.
Proof.
  intros Hl Hcall. apply (lowered_functions_spec doc rule lr f Hl).
  apply lower_rule_Ok in Hl as (_ & _ & _ & _ & Hi & _).
  destruct Hcall as [Hn|(params & e & inputs & c & Hp & Hctx & Hf & Hev)].
  - rewrite Hn in Hi. by destruct Hi as (_ & -> & _).
  - rewrite Hp in Hi. destruct Hi as (_ & _ & m & _ & Hb).
    destruct (build_program_Ok _ _ _ Hb) as (Hv & leaves & Hops & Hne & Hlv & Hm & _).
    apply (eval_leaves e leaves (program params) inputs Hv Hops Hne Hlv), Hm in Hev.
    destruct Hev as (_ & Hfn & _).
    destruct (rule_functions rule) as [fns|]; [|done].
    destruct (Hfn fns eq_refl) as (c' & Hc' & Hin). congruence.
Qed.

(** Narrowing never adds a function.  If the check accepts a child
    document compiled against a parent, every function a child rule can
    authorize on a scope is one the parent's analysis reports for a rule
    with the same scope. *)
Theorem narrowing_covers_functions `{!SymbolLaw} parent child h pplan cplan lr f :
  compile parent h = Ok pplan → compile child h = Ok cplan →
  is_narrowing pplan cplan = Ok tt → lr ∈ plan_rules cplan → can_call lr f →
  ∃ plr, plr ∈ plan_rules pplan ∧ lr_scope plr = lr_scope lr ∧
    fnset_allows (lowered_functions plr) f.
Proof.
  intros Hp Hc Hn Hlr Hcall.
  destruct (compile_rules child h cplan lr Hc Hlr) as (rule & _ & Hlow).
  pose proof (can_call_allowed child rule lr f Hlow Hcall) as Hf.
  apply narrowing_loop_Ok in Hn. rewrite Forall_forall in Hn.
  destruct (Hn {| rs_rule := lr_name lr; rs_scope := lr_scope lr;
                  rs_functions := lowered_functions lr |}) as (ps & Hin & Hs & Hcov).
  { unfold reachable_calls. apply list_elem_of_In, in_map_iff. exists lr.
    by rewrite <- list_elem_of_In. }
  unfold reachable_calls in Hin. apply list_elem_of_In, in_map_iff in Hin as (plr & <- & Hplr).
  exists plr. rewrite list_elem_of_In. split_and!; [done..|]. by eapply fn_covers_allows.
Qed.
End analysis_facts.

(** ** Concrete documents *)

Module CompileDemo.
#[local] Existing Instance DemoHost.
#[local] Existing Instance DemoHex.
Import ProgramDemo.
#[local] Open Scope string_scope.

#[local] Instance demo_symbol_law : SymbolLaw.
Proof. intros s t [= <-]. done. Qed.

Definition token : string := "CAAQCAIBAEAQCAIBAEAQCAIBAEAQCAIBAEAQCAIBAEAQCAIBAEAQC526".
Definition alice_key : string := "GAAQCAIBAEAQCAIBAEAQCAIBAEAQCAIBAEAQCAIBAEAQCAIBAEAQDZ7H".
Definition bob_key : string := "GABAEAQCAIBAEAQCAIBAEAQCAIBAEAQCAIBAEAQCAIBAEAQCAIBAEJXA".

(** Calls to [transfer] on the token, by one of alice and bob, with the
    account itself as the sender. *)
Definition pay_rule (args : option (list ArgConstraint)) : Rule := {|
  rule_name := "pay"; rule_scope := Scope_Contract token;
  rule_principals := Principals_Threshold ["alice"; "bob"] 1;
  rule_functions := Some ["transfer"]; rule_args := args;
  rule_not_after_ledger := Some 500%N; rule_cap := None |}.
Definition pay_doc (args : option (list ArgConstraint)) : PolicyDoc := {|
  doc_version := 1; doc_network := None;
  doc_signers := [{| signer_id := "alice"; signer_method := Delegated alice_key |};
                  {| signer_id := "bob"; signer_method := Delegated bob_key |}];
  doc_rules := [pay_rule args]; doc_recovery := None |}.
Definition from_self : option (list ArgConstraint) :=
  Some [{| arg_index := 0; arg_pred := IsSelf |}].

Definition pay_call (from : string) : EvalInputs := {|
  context := Context_Contract {|
    contract := token; fn_name := "transfer"; args := [DVAddress from] |};
  signer_count := 1; self_addr := "CACC" |}.

Definition lowered (args : option (list ArgConstraint)) : LoweredRule :=
  match lower_rule (pay_doc args) (pay_rule args) with
  | Ok lr => lr
  | _ => {| lr_name := ""; lr_scope := ScopeSpec_SelfAdmin; lr_signers := [];
            lr_valid_until := None; lr_install := None; lr_cap := None |}
  end.
Definition params (args : option (list ArgConstraint)) : InstallParams :=
  match lr_install (lowered args) with
  | Some p => p
  | None => {| program := demo_program; Program.doc_hash := "" |}
  end.
Definition plan (args : option (list ArgConstraint)) : Plan := {|
  plan_rules := [lowered args]; plan_interpreter_wasm_hash := Some "w" |}.

Lemma pay_wf args : validate (pay_doc args) = Ok tt → wf_doc (pay_doc args).
Proof. apply validate_Ok. Qed.

Lemma pay_doc_wf : wf_doc (pay_doc from_self).
Proof. apply pay_wf. vm_compute. reflexivity. Qed.

Lemma lowered_program_meaning_witness : rule_allows (pay_rule from_self) (pay_call "CACC").
Proof.
  apply (lowered_program_meaning (pay_doc from_self)
           (pay_rule from_self) (lowered from_self) (params from_self) demo_env).
  - reflexivity.
  - reflexivity.
  - reflexivity.
Defined.

Lemma lowering_invariants_witness :
  eval demo_env (program (params from_self))
    {| context := context (pay_call "CACC"); signer_count := 0; self_addr := "CACC" |} ≠
  Ok VTrue.
Proof.
  apply (proj1 (lowering_invariants (pay_doc from_self)
    (declared_ids (pay_doc from_self)) (pay_rule from_self) (lowered from_self)
    (proj2 (Forall_inv (proj1 (proj2 (proj2 (proj2 (proj2 pay_doc_wf)))))))
    ltac:(reflexivity))).
  - reflexivity.
  - reflexivity.
Defined.

Lemma compile_total_witness :
  ∃ plan, compile (pay_doc from_self) "w" = Ok plan ∧
    length (plan_rules plan) = length (doc_rules (pay_doc from_self)) ∧
    verify_plan_matches_doc (pay_doc from_self) plan = Ok tt.
Proof.
  apply compile_total; [exact pay_doc_wf|].
  apply Forall_singleton. split; [exact I|]. split.
  - split; [reflexivity|]. intros args c a [= <-] Hc.
    apply list_elem_of_singleton in Hc as ->. discriminate.
  - unfold fits_stack. simpl. lia.
Defined.

Lemma activation_binds_rules_witness :
  ∃ r, r ∈ doc_rules (pay_doc from_self) ∧ rule_name r = "pay" ∧
    (r = pay_rule from_self ∨
     RULE_HASH_DOMAIN +:+ rule_canonical_json r ≠
       RULE_HASH_DOMAIN +:+ rule_canonical_json (pay_rule from_self) ∧
     sha256 (RULE_HASH_DOMAIN +:+ rule_canonical_json r) =
     sha256 (RULE_HASH_DOMAIN +:+ rule_canonical_json (pay_rule from_self))).
Proof.
  apply (activation_binds_rules (pay_doc from_self) (plan from_self) (lowered from_self)
           (params from_self) (pay_rule from_self));
    [vm_compute; reflexivity|left|reflexivity|vm_compute; reflexivity..].
Defined.

(** [MinSigners(1) ∧ LedgerBefore(0)]: dead. *)
Definition dead_program : RpnProgram := {|
  version := 1; ops := [Op_MinSigners 1; Op_LedgerBefore 0; Op_All 2] |}.

Lemma dead_programs_never_authorize_witness :
  eval demo_env dead_program (pay_call "CACC") ≠ Ok VTrue.
Proof. apply dead_programs_never_authorize. reflexivity. Defined.

Lemma validated_program_bounds_witness :
  (max_stack_depth (program_bounds dead_program) ≤ MAX_STACK_DEPTH)%N.
Proof. apply validated_program_bounds. reflexivity. Defined.

Lemma narrowing_covers_functions_witness :
  ∃ plr, plr ∈ plan_rules (plan None) ∧ lr_scope plr = lr_scope (lowered from_self) ∧
    fnset_allows (lowered_functions plr) "transfer".
Proof.
  apply (narrowing_covers_functions (pay_doc None)
           (pay_doc from_self) "w" (plan None) (plan from_self) (lowered from_self));
    [reflexivity..|left|].
  right. exists (params from_self), demo_env, (pay_call "CACC"). eexists.
  split; [reflexivity|]. split; [reflexivity|]. split; [reflexivity|].
  reflexivity.
Defined.

(** The narrowing check does not look at arguments.  A child document
    that drops the parent's only argument constraint is accepted as a
    narrowing, yet it authorizes a call on the same scope that the parent
    denies. *)
Theorem narrowing_ignores_arguments :
  ∃ parent child pplan cplan lr params plr pparams call,
    validate parent = Ok tt ∧ validate child = Ok tt ∧
    compile parent "w" = Ok pplan ∧ compile child "w" = Ok cplan ∧
    is_narrowing pplan cplan = Ok tt ∧
    plan_rules cplan = [lr] ∧ lr_install lr = Some params ∧
    plan_rules pplan = [plr] ∧ lr_install plr = Some pparams ∧
    eval demo_env (program params) call = Ok VTrue ∧
    eval demo_env (program pparams) call = Ok VFalse.
Proof.
  exists (pay_doc from_self), (pay_doc None), (plan from_self), (plan None),
    (lowered None), (params None), (lowered from_self), (params from_self), (pay_call "CEVE").
  repeat split; reflexivity.
Qed.

(** The reachable-call report is not an upper bound for programs the
    compiler did not build.  A validated program with a function list under
    a disjunction is reported as reaching only the listed function, yet it
    authorizes another one. *)
Theorem reachable_calls_not_upper_bound :
  ∃ p lr call c,
    Program.validate p = Ok tt ∧
    lr_install lr = Some {| program := p; Program.doc_hash := "" |} ∧
    lowered_functions lr = FnSet_Only ["publish"] ∧
    context call = Context_Contract c ∧ fn_name c = "transfer" ∧
    eval demo_env p call = Ok VTrue.
Proof.
  exists {| version := 1; ops := [Op_FnIn ["publish"]; Op_MinSigners 1; Op_Any 2] |}.
  eexists {| lr_name := "r"; lr_scope := ScopeSpec_SelfAdmin; lr_signers := [];
             lr_valid_until := None; lr_install := Some _; lr_cap := None |}.
  exists (pay_call "CACC"). eexists.
  repeat split; reflexivity.
Qed.
End CompileDemo.
