(* ===== verification/RecoveryIface.v ===== *)
(** * perch-recovery-interface: statements, credentials, configurations

    Models [crates/perch-recovery-interface/src]: the fixed-width address
    payloads ([encode.rs]), the recovery statement and its canonical encoding
    ([statement.rs]), credentials, replacement sets and revocations
    ([credential.rs]), the compiled configuration ([config.rs]), fragment
    hashes ([fragment.rs]), the circuit projection ([zk.rs]), the account-side
    constants and upgrade readiness ([account.rs]) and the controller's
    vocabulary ([controller.rs]).  The theorems show that the encodings are
    injective, that no two kinds of digest share a preimage, and that the
    pure decision functions decide what they are documented to decide. *)

From S2P Require Import Prelude Host.
#[local] Open Scope string_scope.
#[local] Open Scope list_scope.

(** ** Fixed-width big-endian integers *)

(** [to_be_bytes] of an [n]-byte unsigned integer. *)
Fixpoint be_bytes (n : nat) (x : N) : bytes :=
  match n with
  | O => EmptyString
  | S n => String (ascii_of_N (x / 256 ^ N.of_nat n mod 256)) (be_bytes n x)
  end.

Definition be32 : N → bytes := be_bytes 4.
Definition be64 : N → bytes := be_bytes 8.

(** [out.push_back(b)]. *)
Definition byte (b : N) : bytes := String (ascii_of_N b) EmptyString.

(** [[0u8; n]]. *)
Definition zeros (n : nat) : bytes := be_bytes n 0.

Lemma length_be_bytes n x : String.length (be_bytes n x) = n.
Proof. induction n; simpl; auto. Qed.

Lemma be_bytes_mod n x : be_bytes n x = be_bytes n (x mod 256 ^ N.of_nat n).
Proof.
  revert x. cut (∀ m x, (n ≤ m)%nat → be_bytes n x = be_bytes n (x mod 256 ^ N.of_nat m)).
  { intros Hc x. by apply Hc. }
  intros m x. induction n as [|n IH]; intros Hnm; [done|].
  cbn [be_bytes]. rewrite IH by lia. do 2 f_equal.
  replace (N.of_nat m) with (N.of_nat n + 1 + (N.of_nat m - N.of_nat n - 1))%N by lia.
  rewrite !N.pow_add_r, N.pow_1_r.
  set (p := (256 ^ N.of_nat n)%N). set (q := (256 ^ (_ - _ - _))%N).
  assert (p ≠ 0 ∧ q ≠ 0)%N as [Hp Hq] by (split; apply N.pow_nonzero; lia).
  rewrite <-N.mul_assoc, (N.Div0.mod_mul_r x p (256 * q)), (N.mul_comm p (_ mod _)).
  rewrite N.div_add, (N.div_small (x mod p)) by (done || by apply N.mod_lt).
  rewrite N.add_0_l, (N.Div0.mod_mul_r _ 256 q), (N.mul_comm 256), N.Div0.mod_add.
  by rewrite N.Div0.mod_mod.
Qed.

Lemma be_bytes_inj n x y :
  (x < 256 ^ N.of_nat n)%N → (y < 256 ^ N.of_nat n)%N →
  be_bytes n x = be_bytes n y → x = y.
Proof.
  revert x y.
  induction n as [|n IH]; intros x y Hx Hy H; [simpl in *; lia|].
  cbn [be_bytes] in H. injection H as Hd Hr.
  rewrite Nat2N.inj_succ, N.pow_succ_r' in Hx, Hy.
  set (p := (256 ^ N.of_nat n)%N) in *.
  assert (p ≠ 0)%N as Hp by (apply N.pow_nonzero; lia).
  apply (f_equal N_of_ascii) in Hd.
  rewrite !N_ascii_embedding in Hd by (apply N.mod_lt; lia).
  rewrite !N.mod_small in Hd by (apply N.Div0.div_lt_upper_bound; lia).
  rewrite (be_bytes_mod n x), (be_bytes_mod n y) in Hr. fold p in Hr.
  apply IH in Hr; [|by apply N.mod_lt..].
  by rewrite (N.div_mod x p), (N.div_mod y p), Hd, Hr.
Qed.

Lemma be32_inj x y : is_u32 x → is_u32 y → be32 x = be32 y → x = y.
Proof. intros Hx Hy. apply be_bytes_inj; unfold is_u32, U32_MAX in *; simpl; lia. Qed.
Lemma be64_inj x y : is_u64 x → is_u64 y → be64 x = be64 y → x = y.
Proof. intros Hx Hy. apply be_bytes_inj; unfold is_u64, U64_MAX in *; simpl; lia. Qed.

(** ** [encode.rs] *)

Section encode.
Context {H : Host}.

Inductive AddressKind : Type := AddressKind_Account | AddressKind_Contract.

Definition kind_tag (k : AddressKind) : N :=
  match k with AddressKind_Account => 0 | AddressKind_Contract => 1 end.

(** The XDR headers [ScVal::Address] with [ScAddressType::Contract], and with
    [ScAddressType::Account] and [PublicKeyType::Ed25519]. *)
Definition CONTRACT_HEADER : bytes := be32 18 +:+ be32 1.
Definition ACCOUNT_HEADER : bytes := be32 18 +:+ be32 0 +:+ be32 0.

Definition address_payload (addr : Address) : option (AddressKind * bytes) :=
  let xdr := address_to_xdr addr in
  let with_header kind header :=
    let n := String.length header in
    if String.eqb (substring 0 n xdr) header
    then Some (kind, substring n 32 xdr) else None in
  match String.length xdr with
  | 40%nat => with_header AddressKind_Contract CONTRACT_HEADER
  | 44%nat => with_header AddressKind_Account ACCOUNT_HEADER
  | _ => None
  end.

Definition contract_id (addr : Address) : option bytes :=
  match address_payload addr with
  | Some (AddressKind_Contract, id) => Some id
  | _ => None
  end.

Definition tagged_address (addr : Address) : option bytes :=
  match address_payload addr with
  | Some (kind, payload) => Some (byte (kind_tag kind) +:+ payload)
  | None => None
  end.
End encode.

(** Distinct addresses have distinct XDR. *)
Class XdrLaw `{H : Host} : Prop :=
  address_to_xdr_inj : ∀ a b : Address, address_to_xdr a = address_to_xdr b → a = b.

Section encode_facts.
Context {H : Host}.

Lemma length_substring n m s :
  (n + m ≤ String.length s)%nat → String.length (substring n m s) = m.
Proof.
  revert n m. induction s as [|c s IH]; intros [|n] [|m] Hl; simpl in *; try lia; auto.
  - rewrite IH; lia.
  - apply (IH n 0). lia.
  - apply IH. lia.
Qed.

Lemma substring_split n m s :
  (n + m = String.length s)%nat → substring 0 n s +:+ substring n m s = s.
Proof.
  revert n m. induction s as [|c s IH]; intros [|n] m Hl; simpl in *; try done.
  - destruct m; [done|lia].
  - subst m. rewrite string_app_nil_l. f_equal. clear.
    induction s as [|c s IH]; simpl; [done|]. by rewrite IH.
  - rewrite string_app_cons. f_equal. apply IH. lia.
Qed.

Lemma address_payload_Some addr kind p :
  address_payload addr = Some (kind, p) →
  String.length p = 32%nat ∧
  address_to_xdr addr =
    (match kind with AddressKind_Contract => CONTRACT_HEADER
                   | AddressKind_Account => ACCOUNT_HEADER end) +:+ p.
Proof.
  unfold address_payload. set (x := address_to_xdr addr).
  assert (Hh : ∀ h, (String.length h + 32 = String.length x)%nat →
    String.eqb (substring 0 (String.length h) x) h = true →
    String.length (substring (String.length h) 32 x) = 32%nat ∧
    x = h +:+ substring (String.length h) 32 x).
  { intros h Hl He%String.eqb_eq. split; [apply length_substring; lia|].
    rewrite <-He at 1. by rewrite substring_split. }
  assert (Hlen : ∀ h k, String.length x = (String.length h + 32)%nat →
    (if String.eqb (substring 0 (String.length h) x) h
     then Some (k, substring (String.length h) 32 x) else None) = Some (kind, p) →
    kind = k ∧ String.length p = 32%nat ∧ x = h +:+ p).
  { intros h k Hl. destruct (String.eqb _ h) eqn:He; [|done]. intros [= <- <-].
    destruct (Hh h); auto. }
  destruct (decide (String.length x = 40%nat)) as [E|N40].
  { rewrite E at 1. intros Hx. by apply (Hlen CONTRACT_HEADER) in Hx as (-> & ? & ?). }
  destruct (decide (String.length x = 44%nat)) as [E|N44].
  { rewrite E at 1. intros Hx. by apply (Hlen ACCOUNT_HEADER) in Hx as (-> & ? & ?). }
  intros Hx. exfalso. revert N40 N44 Hx. generalize (String.length x) as n. intros n ??.
  do 45 (destruct n as [|n]; [done|]). done.
Qed.

Lemma contract_id_Some addr id :
  contract_id addr = Some id ↔ address_payload addr = Some (AddressKind_Contract, id).
Proof.
  unfold contract_id. destruct (address_payload addr) as [[[] p]|]; naive_solver.
Qed.

Lemma length_contract_id addr id : contract_id addr = Some id → String.length id = 32%nat.
Proof. intros [Hl _]%contract_id_Some%address_payload_Some. done. Qed.

Lemma length_tagged_address addr t :
  tagged_address addr = Some t → String.length t = 33%nat.
Proof.
  unfold tagged_address. destruct (address_payload addr) as [[k p]|] eqn:Hp; [|done].
  apply address_payload_Some in Hp as [Hl _]. intros [= <-].
  rewrite length_string_app, Hl. done.
Qed.

Context `{!XdrLaw}.

Lemma contract_id_inj a b id :
  contract_id a = Some id → contract_id b = Some id → a = b.
Proof.
  intros [_ Ha]%contract_id_Some%address_payload_Some
    [_ Hb]%contract_id_Some%address_payload_Some.
  apply address_to_xdr_inj. congruence.
Qed.

Lemma tagged_address_inj a b t :
  tagged_address a = Some t → tagged_address b = Some t → a = b.
Proof.
  unfold tagged_address.
  destruct (address_payload a) as [[ka pa]|] eqn:Ha; [|done].
  destruct (address_payload b) as [[kb pb]|] eqn:Hb; [|done].
  apply address_payload_Some in Ha as [_ Ha], Hb as [_ Hb].
  intros [= <-] [= Ht Hp]. change (pb = pa) in Hp. apply address_to_xdr_inj.
  rewrite Ha, Hb, Hp. by destruct ka, kb.
Qed.
End encode_facts.

(** ** [statement.rs] *)

Definition STATEMENT_DOMAIN : bytes := "perch/recovery/statement".
Definition STATEMENT_VERSION : N := 2.
Definition STATEMENT_PREFIX_LEN : nat := 174.

Inductive RecoveryAction : Type :=
| Action_LostKey
| Action_Compromise
| Action_Cancel
| Action_Reconfigure
| Action_Upgrade.

Global Instance RecoveryAction_eq_dec : EqDecision RecoveryAction.
Proof. solve_decision. Defined.

(** The wire codes ([#[repr(u32)]]). *)
Definition action_code (a : RecoveryAction) : N :=
  match a with
  | Action_LostKey => 1
  | Action_Compromise => 2
  | Action_Cancel => 3
  | Action_Reconfigure => 4
  | Action_Upgrade => 5
  end.

Inductive StatementError : Type :=
| AccountNotContract
| ControllerNotContract
| UnsupportedAddress
| ReplacementsNotCanonical
| EmptyReplacements
| StatementEvidenceExpired
| EvidenceWindowTooLong.

Record ConfigBinding : Type := {
  cb_epoch : N;
  cb_config_hash : bytes;
}.

Record StatementTiming : Type := {
  st_delay_ledgers : N;
  st_expiry_ledgers : N;
  valid_until_ledger : N;
}.

Record AttemptSubject : Type := {
  as_attempt_id : N;
  as_source_doc_hash : bytes;
  as_target_doc_hash : bytes;
  as_replacements_hash : bytes;
}.

Record CancelSubject : Type := {
  cs_attempt_id : N;
  attempt_statement : bytes;
}.

Inductive ConfigChange : Type :=
| ConfigChange_Remove
| ConfigChange_Set (config_hash : bytes).

Record UpgradeSubject : Type := {
  us_request_id : N;
  us_wasm_hash : bytes;
}.

Inductive StatementSubject : Type :=
| Subject_LostKey (s : AttemptSubject)
| Subject_Compromise (s : AttemptSubject)
| Subject_Cancel (s : CancelSubject)
| Subject_Reconfigure (c : ConfigChange)
| Subject_Upgrade (s : UpgradeSubject).

Section statement.
Context {H : Host}.

Record RecoveryStatement : Type := {
  rs_network_id : bytes;
  rs_account : Address;
  rs_controller : Address;
  rs_config : ConfigBinding;
  rs_timing : StatementTiming;
  rs_subject : StatementSubject;
}.

(** [RecoveryStatement::action]: derived from the subject. *)
Definition subject_action (s : StatementSubject) : RecoveryAction :=
  match s with
  | Subject_LostKey _ => Action_LostKey
  | Subject_Compromise _ => Action_Compromise
  | Subject_Cancel _ => Action_Cancel
  | Subject_Reconfigure _ => Action_Reconfigure
  | Subject_Upgrade _ => Action_Upgrade
  end.
Definition statement_action (s : RecoveryStatement) : RecoveryAction :=
  subject_action (rs_subject s).

Definition encode_subject (s : StatementSubject) : bytes :=
  match s with
  | Subject_LostKey s | Subject_Compromise s =>
      be64 (as_attempt_id s) +:+ as_source_doc_hash s +:+ as_target_doc_hash s +:+
      as_replacements_hash s
  | Subject_Cancel s => be64 (cs_attempt_id s) +:+ attempt_statement s
  | Subject_Reconfigure ConfigChange_Remove => byte 0 +:+ zeros 32
  | Subject_Reconfigure (ConfigChange_Set h) => byte 1 +:+ h
  | Subject_Upgrade s => be64 (us_request_id s) +:+ us_wasm_hash s
  end.

(** [RecoveryStatement::encode]. *)
Definition statement_encode (s : RecoveryStatement) : result StatementError bytes :=
  let* account := ok_or (contract_id (rs_account s)) AccountNotContract in
  let* controller := ok_or (contract_id (rs_controller s)) ControllerNotContract in
  Ok (STATEMENT_DOMAIN +:+ byte STATEMENT_VERSION +:+
      byte (action_code (statement_action s)) +:+
      rs_network_id s +:+ account +:+ controller +:+
      be64 (cb_epoch (rs_config s)) +:+ cb_config_hash (rs_config s) +:+
      be32 (st_delay_ledgers (rs_timing s)) +:+
      be32 (st_expiry_ledgers (rs_timing s)) +:+
      be32 (valid_until_ledger (rs_timing s)) +:+
      encode_subject (rs_subject s)).

(** [RecoveryStatement::digest]. *)
Definition statement_digest (s : RecoveryStatement) : result StatementError bytes :=
  let* b := statement_encode s in Ok (sha256 b).

(** [RecoveryStatement::check_fresh]. *)
Definition statement_check_fresh (s : RecoveryStatement) (now : N)
  : result StatementError unit :=
  let until := valid_until_ledger (rs_timing s) in
  refuse_if (until <? now)%N StatementEvidenceExpired ;;;
  let provider_chosen := match statement_action s with
                         | Action_Reconfigure | Action_Upgrade => true
                         | _ => false
                         end in
  if provider_chosen then
    let* left := u_sub until now in
    refuse_if (st_expiry_ledgers (rs_timing s) <? left)%N EvidenceWindowTooLong
  else Ok tt.

(** The widths the Rust types carry: [BytesN<32>], [u64], [u32]. *)
Definition hash32 (b : bytes) : Prop := String.length b = 32%nat.

Definition wf_subject (s : StatementSubject) : Prop :=
  match s with
  | Subject_LostKey s | Subject_Compromise s =>
      is_u64 (as_attempt_id s) ∧ hash32 (as_source_doc_hash s) ∧
      hash32 (as_target_doc_hash s) ∧ hash32 (as_replacements_hash s)
  | Subject_Cancel s => is_u64 (cs_attempt_id s) ∧ hash32 (attempt_statement s)
  | Subject_Reconfigure ConfigChange_Remove => True
  | Subject_Reconfigure (ConfigChange_Set h) => hash32 h
  | Subject_Upgrade s => is_u64 (us_request_id s) ∧ hash32 (us_wasm_hash s)
  end.

Definition wf_statement (s : RecoveryStatement) : Prop :=
  hash32 (rs_network_id s) ∧
  is_u64 (cb_epoch (rs_config s)) ∧ hash32 (cb_config_hash (rs_config s)) ∧
  is_u32 (st_delay_ledgers (rs_timing s)) ∧ is_u32 (st_expiry_ledgers (rs_timing s)) ∧
  is_u32 (valid_until_ledger (rs_timing s)) ∧ wf_subject (rs_subject s).

(** Peel equal-length fields off two equal concatenations. *)
Ltac peel H Hx :=
  apply string_app_inj_length in H as [Hx H];
  [|by rewrite ?length_be_bytes; unfold hash32 in *; try congruence].

Lemma encode_subject_inj s t :
  wf_subject s → wf_subject t →
  subject_action s = subject_action t →
  encode_subject s = encode_subject t → s = t.
Proof.
  intros Ws Wt Ha He.
  destruct s as [s|s|s|s|s], t as [t|t|t|t|t]; try discriminate Ha; simpl in *.
  1,2: destruct Ws as (?&?&?&?), Wt as (?&?&?&?); peel He P1; peel He P2; peel He P3;
    apply be64_inj in P1; [|done..]; destruct s, t; simpl in *; congruence.
  - destruct Ws, Wt. peel He P1. apply be64_inj in P1; [|done..].
    destruct s, t; simpl in *; congruence.
  - destruct s, t; simpl in *; try done. injection He as He. do 2 f_equal. exact He.
  - destruct Ws, Wt. peel He P1. apply be64_inj in P1; [|done..].
    destruct s, t; simpl in *; congruence.
Qed.

Lemma action_code_inj a b : byte (action_code a) = byte (action_code b) → a = b.
Proof. by destruct a, b. Qed.

Lemma statement_encode_Ok s b :
  statement_encode s = Ok b ↔
  ∃ account controller, contract_id (rs_account s) = Some account ∧
    contract_id (rs_controller s) = Some controller ∧
    b = STATEMENT_DOMAIN +:+ byte STATEMENT_VERSION +:+
        byte (action_code (statement_action s)) +:+
        rs_network_id s +:+ account +:+ controller +:+
        be64 (cb_epoch (rs_config s)) +:+ cb_config_hash (rs_config s) +:+
        be32 (st_delay_ledgers (rs_timing s)) +:+
        be32 (st_expiry_ledgers (rs_timing s)) +:+
        be32 (valid_until_ledger (rs_timing s)) +:+
        encode_subject (rs_subject s).
Proof.
  unfold statement_encode. rewrite rbind_Ok. setoid_rewrite rbind_Ok.
  setoid_rewrite ok_or_Ok. split.
  - intros (x & Hx & y & Hy & [= <-]). eauto 10.
  - intros (x & y & Hx & Hy & ->). eauto 10.
Qed.

(** The canonical encoding of a recovery statement is injective on
    well-formed statements: two statements with the same bytes name the same
    network, account, controller, configuration, timing and subject, so
    evidence for one statement is evidence for no other. *)
Theorem statement_encode_injective `{!XdrLaw} s t b :
  wf_statement s → wf_statement t →
  statement_encode s = Ok b → statement_encode t = Ok b → s = t.
Proof.
  intros (Ns & Es & Cs & Ds & Xs & Vs & Ss) (Nt & Et & Ct & Dt & Xt & Vt & St).
  rewrite !statement_encode_Ok.
  intros (ia & ic & Ha & Hc & ->) (ia' & ic' & Ha' & Hc' & He).
  pose proof (length_contract_id _ _ Ha). pose proof (length_contract_id _ _ Ha').
  pose proof (length_contract_id _ _ Hc). pose proof (length_contract_id _ _ Hc').
  peel He P1; peel He P2; peel He P3; peel He P4; peel He P5; peel He P6; peel He P7;
    peel He P8; peel He P9; peel He P10; peel He P11.
  apply action_code_inj in P3. subst ia' ic'.
  apply (contract_id_inj _ _ _ Ha) in Ha'. apply (contract_id_inj _ _ _ Hc) in Hc'.
  apply be64_inj in P7; [|done..]. apply be32_inj in P9, P10, P11; [|done..].
  apply encode_subject_inj in He; [|done..].
  destruct s as [? ? ? [] [] ?], t as [? ? ? [] [] ?]; simpl in *; congruence.
Qed.

(** Freshness.  Evidence is accepted at ledger [now] exactly when [now] is
    at most its bound and, for the two actions whose bound the provider
    chooses, the bound reaches no more than the enrolled expiry past [now];
    the subtraction in the check never underflows. *)
Lemma check_fresh_exact s now :
  statement_check_fresh s now =
    if (valid_until_ledger (rs_timing s) <? now)%N then Err StatementEvidenceExpired
    else if match statement_action s with
            | Action_Reconfigure | Action_Upgrade =>
                (now + st_expiry_ledgers (rs_timing s) <? valid_until_ledger (rs_timing s))%N
            | _ => false
            end
    then Err EvidenceWindowTooLong else Ok tt.
Proof.
  unfold statement_check_fresh. destruct (N.ltb_spec (valid_until_ledger (rs_timing s)) now);
    [done|]. cbn [refuse_if rbind].
  unfold u_sub. destruct (N.ltb_spec (valid_until_ledger (rs_timing s)) now); [lia|].
  unfold refuse_if.
  destruct (statement_action s); cbn [rbind]; try done;
    destruct (N.ltb_spec (st_expiry_ledgers (rs_timing s)) (valid_until_ledger (rs_timing s) - now)),
      (N.ltb_spec (now + st_expiry_ledgers (rs_timing s)) (valid_until_ledger (rs_timing s)));
    done || lia.
Qed.
End statement.

(** ** [credential.rs] *)

Definition CREDENTIAL_DOMAIN : bytes := "perch/recovery/credential".
Definition REPLACEMENTS_DOMAIN : bytes := "perch/recovery/replacements".

(** Byte-lexicographic [a < b], a proper prefix first. *)
Fixpoint bytes_lt (a b : bytes) : bool :=
  match a, b with
  | String x a, String y b =>
      if Ascii.eqb x y then bytes_lt a b else (N_of_ascii x <? N_of_ascii y)%N
  | EmptyString, String _ _ => true
  | _, EmptyString => false
  end.

Record ZkEnrollment : Type := {
  ze_id : bytes;
  ze_commitment : bytes;
}.

(** [revocations] and [replaced_credentials_leave] over fingerprints. *)
Definition push_new (out : list bytes) (f : bytes) : list bytes :=
  if contains out f then out else out ++ [f].

Definition revocations (replaced current target : list bytes) : list bytes :=
  let out := fold_left push_new replaced [] in
  fold_left (λ out f, if negb (contains target f) && negb (contains out f)
                      then out ++ [f] else out) current out.

Definition replaced_credentials_leave (replaced target : list bytes) : bool :=
  forallb (λ f, negb (contains target f)) replaced.

Section credential.
Context {H : Host}.

Inductive Credential : Type :=
| Credential_Delegated (a : Address)
| Credential_External (verifier : Address) (key : bytes).

Global Instance Credential_eq_dec : EqDecision Credential.
Proof. solve_decision. Defined.

(** [Credential::encode] and [Credential::fingerprint]. *)
Definition credential_encode (c : Credential) : result StatementError bytes :=
  match c with
  | Credential_Delegated addr =>
      let* a := ok_or (tagged_address addr) UnsupportedAddress in
      Ok (byte 1 +:+ a)
  | Credential_External verifier key =>
      let* v := ok_or (tagged_address verifier) UnsupportedAddress in
      Ok (byte 2 +:+ v +:+ be32 (slen key) +:+ key)
  end.

Definition credential_fingerprint (c : Credential) : result StatementError bytes :=
  let* b := credential_encode c in Ok (sha256 (CREDENTIAL_DOMAIN +:+ b)).

Record Replacement : Type := {
  rp_signer_id : string;
  rp_credential : Credential;
}.

Record ReplacementSet : Type := {
  rset_signers : list Replacement;
  rset_zk_enrollment : list ZkEnrollment;
}.

(** The loop of [ReplacementSet::encode]: [prev] is the previous id. *)
Fixpoint encode_signers (prev : option bytes) (l : list Replacement)
  : result StatementError bytes :=
  match l with
  | [] => Ok EmptyString
  | r :: l =>
      let id := rp_signer_id r in
      refuse_if (match prev with Some p => negb (bytes_lt p id) | None => false end)
        ReplacementsNotCanonical ;;;
      let* c := credential_encode (rp_credential r) in
      let* rest := encode_signers (Some id) l in
      Ok (be32 (slen id) +:+ id +:+ c +:+ rest)
  end.

(** [ReplacementSet::encode] and [ReplacementSet::hash]. *)
Definition replacements_encode (s : ReplacementSet) : result StatementError bytes :=
  let* signers := encode_signers None (rset_signers s) in
  let* zk := match rset_zk_enrollment s with
             | [] => Ok (byte 0)
             | [z] => Ok (byte 1 +:+ ze_id z +:+ ze_commitment z)
             | _ => Err ReplacementsNotCanonical
             end in
  Ok (be32 (N.of_nat (length (rset_signers s))) +:+ signers +:+ zk).

Definition replacements_hash (s : ReplacementSet) : result StatementError bytes :=
  let* b := replacements_encode s in Ok (sha256 (REPLACEMENTS_DOMAIN +:+ b)).

(** The widths the host types carry: lengths are [u32], digests 32 bytes. *)
Definition wf_credential (c : Credential) : Prop :=
  match c with
  | Credential_Delegated _ => True
  | Credential_External _ key => is_u32 (slen key)
  end.
Definition wf_replacement (r : Replacement) : Prop :=
  is_u32 (slen (rp_signer_id r)) ∧ wf_credential (rp_credential r).
Definition wf_replacements (s : ReplacementSet) : Prop :=
  is_u32 (N.of_nat (length (rset_signers s))) ∧
  Forall wf_replacement (rset_signers s) ∧
  Forall (λ z, hash32 (ze_id z) ∧ hash32 (ze_commitment z)) (rset_zk_enrollment s).

Lemma slen_prefix (a b x y : bytes) :
  is_u32 (slen a) → is_u32 (slen b) →
  be32 (slen a) +:+ a +:+ x = be32 (slen b) +:+ b +:+ y → a = b ∧ x = y.
Proof.
  intros Ha Hb He.
  apply string_app_inj_length in He as [Hl He]; [|done].
  apply be32_inj in Hl; [|done..]. apply string_app_inj_length in He; [done|].
  unfold slen in Hl. lia.
Qed.

(** A credential's encoding is followed unambiguously by what comes next. *)
Lemma credential_encode_prefix_free `{!XdrLaw} c d b b' x y :
  wf_credential c → wf_credential d →
  credential_encode c = Ok b → credential_encode d = Ok b' →
  b +:+ x = b' +:+ y → c = d ∧ x = y.
Proof.
  assert (Htag : ∀ a a' t t' x y, tagged_address a = Some t → tagged_address a' = Some t' →
    t +:+ x = t' +:+ y → a = a' ∧ x = y).
  { intros a a' t t' x' y' Ht Ht' He. apply string_app_inj_length in He as [-> ->].
    - split; [by eapply tagged_address_inj|done].
    - by rewrite (length_tagged_address _ _ Ht), (length_tagged_address _ _ Ht'). }
  intros Wc Wd Hc Hd He. destruct c as [a|v k], d as [a'|v' k']; simpl in *; inv_result;
    rewrite ?string_app_assoc in He; injection He as He; try done.
  - by destruct (Htag a a' _ _ x y ltac:(eassumption) ltac:(eassumption) He) as [-> ->].
  - destruct (Htag v v' _ _ _ _ ltac:(eassumption) ltac:(eassumption) He) as [-> He'].
    by apply slen_prefix in He' as [-> ->].
Qed.

Lemma encode_signers_prefix_free `{!XdrLaw} p q l k b b' x y :
  Forall wf_replacement l → Forall wf_replacement k → length l = length k →
  encode_signers p l = Ok b → encode_signers q k = Ok b' →
  b +:+ x = b' +:+ y → l = k ∧ x = y.
Proof.
  revert p q k b b'. induction l as [|r l IH]; intros p q [|s k] b b' Wl Wk Hl Hb Hb' He;
    try discriminate Hl.
  { simpl in *. by inv_result. }
  apply Forall_cons in Wl as [[Wi Wc] Wl], Wk as [[Wi' Wc'] Wk]. simpl in Hb, Hb'.
  apply rbind_Ok in Hb as (_ & _ & Hb), Hb' as (_ & _ & Hb').
  apply rbind_Ok in Hb as (c & Hc & Hb), Hb' as (c' & Hc' & Hb').
  apply rbind_Ok in Hb as (t & Ht & [= <-]), Hb' as (t' & Ht' & [= <-]).
  rewrite !string_app_assoc in He. apply slen_prefix in He as [Hid He]; [|done..].
  apply (credential_encode_prefix_free _ _ _ _ _ _ Wc Wc' Hc Hc') in He as [Hcr He].
  apply (IH _ _ _ _ _ Wl Wk ltac:(simpl in Hl; lia) Ht Ht') in He as [-> ->].
  split; [f_equal; destruct r, s; simpl in *; congruence|done].
Qed.

(** The encoding of a replacement set is injective: two well-formed sets
    with the same bytes declare the same credentials for the same signer ids
    and the same ZK enrollment, id and commitment. *)
Theorem replacements_encode_injective `{!XdrLaw} s t b :
  wf_replacements s → wf_replacements t →
  replacements_encode s = Ok b → replacements_encode t = Ok b → s = t.
Proof.
  intros (Ls & Ws & Zs) (Lt & Wt & Zt) Hs Ht.
  apply rbind_Ok in Hs as (e & He & Hs), Ht as (e' & He' & Ht).
  apply rbind_Ok in Hs as (z & Hz & Hs), Ht as (z' & Hz' & Hb).
  apply (inj Ok) in Hs, Hb. subst b.
  apply string_app_inj_length in Hb as [Hn Hb]; [|done].
  apply be32_inj in Hn; [|done..].
  destruct (encode_signers_prefix_free _ _ _ _ _ _ _ _ Wt Ws ltac:(lia) He' He Hb)
    as [Hl Hzz]. subst z'.
  destruct s as [ls [|[i c] [|? ?]]], t as [lt [|[i' c'] [|? ?]]]; simpl in *;
    try discriminate; apply (inj Ok) in Hz, Hz'; subst z; try discriminate Hz'.
  - by f_equal.
  - apply Forall_singleton in Zs as [Zi Zc], Zt as [Zi' Zc']. simpl in *.
    injection Hz' as Hz. change (i' +:+ c' = i +:+ c) in Hz. apply string_app_inj_length in Hz as [Hi Hc];
      [|unfold hash32 in *; congruence]. congruence.
Qed.

(** A set that has an encoding lists its signer ids in strictly ascending
    byte order, so each id at most once. *)
Lemma bytes_lt_compare a b : bytes_lt a b = true ↔ String.compare a b = Lt.
Proof.
  revert b. induction a as [|x a IH]; intros [|y b]; simpl; try done.
  unfold Ascii.compare. destruct (Ascii.eqb_spec x y) as [->|Hne].
  - rewrite N.compare_refl. apply IH.
  - destruct (N.compare_spec (N_of_ascii x) (N_of_ascii y)) as [E|E|E].
    + apply (f_equal ascii_of_N) in E. rewrite !ascii_N_embedding in E. done.
    + rewrite (proj2 (N.ltb_lt _ _) E). done.
    + rewrite (proj2 (N.ltb_ge _ _)) by lia. done.
Qed.

Lemma encode_signers_ascending p l b :
  encode_signers (Some p) l = Ok b →
  Forall (λ r, String.compare p (rp_signer_id r) = Lt) l ∧ NoDup (rp_signer_id <$> l).
Proof.
  revert p b. induction l as [|r l IH]; intros p b Hb; [by repeat constructor|].
  simpl in Hb. apply rbind_Ok in Hb as (u & Hlt & Hb).
  apply refuse_if_Ok, negb_false_iff, bytes_lt_compare in Hlt.
  apply rbind_Ok in Hb as (c & _ & Hb). apply rbind_Ok in Hb as (t & Ht & _).
  destruct (IH _ _ Ht) as [Hall Hnd]. split.
  - constructor; [done|]. eapply Forall_impl; [exact Hall|]. intros s Hs.
    by eapply string_lt_trans.
  - rewrite fmap_cons. constructor; [|done]. rewrite list_elem_of_fmap. intros (s & Hs & Hin).
    rewrite Forall_forall in Hall. specialize (Hall _ Hin). rewrite Hs in Hall.
    by apply string_lt_irrefl in Hall.
Qed.

Lemma replacements_ids_distinct s b :
  replacements_encode s = Ok b → NoDup (rp_signer_id <$> rset_signers s).
Proof.
  intros Hs. apply rbind_Ok in Hs as (e & He & _).
  destruct (rset_signers s) as [|r l]; [constructor|]. simpl in He.
  apply rbind_Ok in He as (c & _ & He). apply rbind_Ok in He as (t & Ht & _).
  destruct (encode_signers_ascending _ _ _ Ht) as [Hall Hnd].
  rewrite fmap_cons. constructor; [|done]. rewrite list_elem_of_fmap. intros (s' & Hs & Hin).
  rewrite Forall_forall in Hall. specialize (Hall _ Hin). rewrite Hs in Hall.
  by apply string_lt_irrefl in Hall.
Qed.
End credential.

(** ** Revocation *)

Lemma push_new_spec l out :
  NoDup out → NoDup (fold_left push_new l out) ∧
  ∀ f, f ∈ fold_left push_new l out ↔ f ∈ out ∨ f ∈ l.
Proof.
  revert out. induction l as [|g l IH]; intros out Hnd; simpl; [set_solver|].
  unfold push_new at 2 4. destruct (contains out g) eqn:Hc.
  - apply contains_true in Hc. destruct (IH out Hnd) as [? Hin]. split; [done|].
    intros f. rewrite Hin. set_solver.
  - apply contains_false in Hc. destruct (IH (out ++ [g])) as [? Hin].
    { apply NoDup_app. split_and!; [done| |repeat constructor; set_solver]. set_solver. }
    split; [done|]. intros f. rewrite Hin. set_solver.
Qed.

Lemma revocations_spec replaced current target :
  NoDup (revocations replaced current target) ∧
  (∀ f, f ∈ revocations replaced current target ↔
    f ∈ replaced ∨ f ∈ current ∧ f ∉ target) ∧
  (replaced_credentials_leave replaced target = true ↔
    ∀ f, f ∈ revocations replaced current target → f ∉ target).
Proof.
  unfold revocations.
  destruct (push_new_spec replaced []) as [Hnd Hin]; [constructor|].
  set (out0 := fold_left push_new replaced []) in *.
  assert (Hcur : ∀ l out, NoDup out →
    let out' := fold_left (λ out f, if negb (contains target f) && negb (contains out f)
                      then out ++ [f] else out) l out in
    NoDup out' ∧ ∀ f, f ∈ out' ↔ f ∈ out ∨ f ∈ l ∧ f ∉ target).
  { induction l as [|g l IH]; intros out Ho; simpl; [set_solver|].
    destruct (contains target g) eqn:Ht; simpl.
    { apply contains_true in Ht. destruct (IH out Ho) as [? Hf]. split; [done|].
      intros f. rewrite Hf. set_solver. }
    apply contains_false in Ht. destruct (contains out g) eqn:Hc; simpl.
    { apply contains_true in Hc. destruct (IH out Ho) as [? Hf]. split; [done|].
      intros f. rewrite Hf. set_solver. }
    apply contains_false in Hc. destruct (IH (out ++ [g])) as [? Hf].
    { apply NoDup_app. split_and!; [done| |repeat constructor; set_solver]. set_solver. }
    split; [done|]. intros f. rewrite Hf. set_solver. }
  destruct (Hcur current out0 Hnd) as [Hnd' Hin'].
  assert (Hmem : ∀ f, f ∈ fold_left (λ out f, if negb (contains target f) && negb (contains out f)
                      then out ++ [f] else out) current out0 ↔
            f ∈ replaced ∨ f ∈ current ∧ f ∉ target).
  { intros f. rewrite Hin', Hin. set_solver. }
  split; [done|]. split; [done|].
  unfold replaced_credentials_leave. rewrite forallb_forall. setoid_rewrite Hmem.
  split.
  - intros Hl f [Hf|[_ ?]]; [|done]. specialize (Hl f).
    rewrite <-list_elem_of_In, negb_true_iff, contains_false in Hl. auto.
  - intros Hl f Hf%list_elem_of_In. rewrite negb_true_iff, contains_false. auto.
Qed.

(** A completion revokes exactly the replaced source credentials together
    with every credential of the current document that the target does not
    keep, each once; and when the replaced credentials leave the account, no
    revoked credential is one the target installs. *)
Theorem revocations_exact replaced current target :
  NoDup (revocations replaced current target) ∧
  (∀ f, f ∈ revocations replaced current target ↔
    f ∈ replaced ∨ f ∈ current ∧ f ∉ target) ∧
  (replaced_credentials_leave replaced target = true ↔
    ∀ f, f ∈ revocations replaced current target → f ∉ target).
Proof. apply revocations_spec. Qed.

(** ** [fragment.rs] and the hashes of [config.rs] *)

Definition CONFIG_DOMAIN : bytes := "perch/recovery/config".
Definition RULE_DOMAIN : bytes := "perch/rule".

Section hashes.
Context {H : Host}.

Definition config_hash (canonical_recovery_json : bytes) : bytes :=
  sha256 (CONFIG_DOMAIN +:+ canonical_recovery_json).
Definition rule_hash (canonical_rule_json : bytes) : bytes :=
  sha256 (RULE_DOMAIN +:+ canonical_rule_json).
End hashes.

(** The kinds of digest the recovery stack computes with a tag, and the
    canonical document, whose hash has no tag and whose text opens with a
    brace. *)
Inductive digest_kind : Type :=
| Digest_Statement | Digest_Credential | Digest_Replacements | Digest_Config
| Digest_Rule | Digest_Document.

Definition digest_tag (k : digest_kind) : bytes :=
  match k with
  | Digest_Statement => STATEMENT_DOMAIN
  | Digest_Credential => CREDENTIAL_DOMAIN
  | Digest_Replacements => REPLACEMENTS_DOMAIN
  | Digest_Config => CONFIG_DOMAIN
  | Digest_Rule => RULE_DOMAIN
  | Digest_Document => "{"
  end.

Lemma digest_tags_prefix_free j k x y :
  digest_tag j +:+ x = digest_tag k +:+ y → j = k.
Proof. destruct j, k; try reflexivity; intros E; simpl in E; discriminate E. Qed.

(** Domain separation.  Whatever follows the tags, two digests of different
    kinds (statement, credential fingerprint, replacement set, recovery
    configuration, rule, whole document) never have the same preimage, so
    under a collision-free hash no digest of one kind is ever a digest of
    another. *)
Theorem digests_domain_separated `{Host}
    (collision_free : ∀ x y : bytes, sha256 x = sha256 y → x = y) :
  (∀ s c d, statement_digest s = Ok d → credential_fingerprint c ≠ Ok d) ∧
  (∀ s r d, statement_digest s = Ok d → replacements_hash r ≠ Ok d) ∧
  (∀ s j d, statement_digest s = Ok d → config_hash j ≠ d ∧ rule_hash j ≠ d) ∧
  (∀ s body d, statement_digest s = Ok d → sha256 ("{" +:+ body) ≠ d) ∧
  (∀ c r d, credential_fingerprint c = Ok d → replacements_hash r ≠ Ok d) ∧
  (∀ c j d, credential_fingerprint c = Ok d → config_hash j ≠ d ∧ rule_hash j ≠ d) ∧
  (∀ r j d, replacements_hash r = Ok d → config_hash j ≠ d ∧ rule_hash j ≠ d) ∧
  (∀ j k, config_hash j ≠ rule_hash k) ∧
  (∀ j body, config_hash j ≠ sha256 ("{" +:+ body) ∧ rule_hash j ≠ sha256 ("{" +:+ body)).
Proof.
  assert (Hsep : ∀ j k x y, j ≠ k →
    sha256 (digest_tag j +:+ x) ≠ sha256 (digest_tag k +:+ y)).
  { intros j k x y Hjk E%collision_free%digest_tags_prefix_free. done. }
  assert (Hs : ∀ s d, statement_digest s = Ok d →
    ∃ x, d = sha256 (digest_tag Digest_Statement +:+ x)).
  { intros s d Hd. apply rbind_Ok in Hd as (b & Hb & [= <-]).
    apply statement_encode_Ok in Hb as (? & ? & _ & _ & ->). eauto. }
  assert (Hc : ∀ c d, credential_fingerprint c = Ok d →
    ∃ x, d = sha256 (digest_tag Digest_Credential +:+ x)).
  { intros c d Hd. apply rbind_Ok in Hd as (b & Hb & [= <-]). eauto. }
  assert (Hr : ∀ r d, replacements_hash r = Ok d →
    ∃ x, d = sha256 (digest_tag Digest_Replacements +:+ x)).
  { intros r d Hd. apply rbind_Ok in Hd as (b & Hb & [= <-]). eauto. }
  unfold config_hash, rule_hash.
  change "{" with (digest_tag Digest_Document).
  change CONFIG_DOMAIN with (digest_tag Digest_Config).
  change RULE_DOMAIN with (digest_tag Digest_Rule).
  repeat match goal with
  | |- _ ∧ _ => split
  | |- ∀ _, _ => intro
  | |- _ ≠ _ => intro
  end;
  repeat match goal with
  | E : statement_digest _ = Ok _ |- _ => apply Hs in E as [? E]
  | E : credential_fingerprint _ = Ok _ |- _ => apply Hc in E as [? E]
  | E : replacements_hash _ = Ok _ |- _ => apply Hr in E as [? E]
  end; subst; eapply Hsep; try eassumption; try (symmetry; eassumption); done.
Qed.

(** ** [zk.rs] *)

Definition of_bytes (l : list N) : bytes :=
  string_of_list_ascii (ascii_of_N <$> l).

Definition BN254_SCALAR_MODULUS : bytes := of_bytes [
  0x30; 0x64; 0x4e; 0x72; 0xe1; 0x31; 0xa0; 0x29; 0xb8; 0x50; 0x45; 0xb6; 0x81; 0x81; 0x58; 0x5d;
  0x28; 0x33; 0xe8; 0x48; 0x79; 0xb9; 0x70; 0x91; 0x43; 0xe1; 0xf5; 0x93; 0xf0; 0x00; 0x00; 0x01]%N.

Definition DOM_AUTH : bytes := of_bytes [
  0x04; 0xe4; 0xc9; 0x9c; 0x74; 0x77; 0x37; 0x9c; 0x7e; 0x47; 0xc9; 0x38; 0x01; 0x70; 0xe3; 0xfb;
  0x1e; 0x7c; 0x56; 0x5a; 0xfe; 0x67; 0xdd; 0x56; 0x21; 0x6d; 0xf9; 0x98; 0x61; 0xf1; 0xfb; 0x3c]%N.

Definition PUBLIC_INPUTS_LEN : nat := 96.

(** The [zip] loop of [is_canonical_field]: the first differing byte
    decides. *)
Fixpoint below_modulus (x m : bytes) : bool :=
  match x, m with
  | String a x, String b m =>
      if Ascii.eqb a b then below_modulus x m else (N_of_ascii a <? N_of_ascii b)%N
  | _, _ => false
  end.
Definition is_canonical_field (x : bytes) : bool := below_modulus x BN254_SCALAR_MODULUS.

Definition split_hi_lo (x : bytes) : bytes * bytes :=
  (zeros 16 +:+ substring 0 16 x, zeros 16 +:+ substring 16 16 x).

Record ZkStatementFields : Type := {
  account_hi : bytes; account_lo : bytes;
  enrollment_hi : bytes; enrollment_lo : bytes;
  digest_hi : bytes; digest_lo : bytes;
}.

Definition auth_preimage (f : ZkStatementFields) : list bytes :=
  [DOM_AUTH; account_hi f; account_lo f; enrollment_hi f; enrollment_lo f;
   digest_hi f; digest_lo f].

Definition public_inputs (root nullifier statement_hash : bytes) : bytes :=
  root +:+ nullifier +:+ statement_hash.

Section zk.
Context {H : Host}.

Definition zk_statement_fields (s : RecoveryStatement) (enrollment_id : bytes)
  : result StatementError ZkStatementFields :=
  let* account := ok_or (contract_id (rs_account s)) AccountNotContract in
  let* digest := statement_digest s in
  let ' (account_hi, account_lo) := split_hi_lo account in
  let ' (enrollment_hi, enrollment_lo) := split_hi_lo enrollment_id in
  let ' (digest_hi, digest_lo) := split_hi_lo digest in
  Ok {| account_hi := account_hi; account_lo := account_lo;
        enrollment_hi := enrollment_hi; enrollment_lo := enrollment_lo;
        digest_hi := digest_hi; digest_lo := digest_lo |}.

Record ZkBinding : Type := {
  zb_pool : Address;
  zb_enrollment_id : bytes;
  zb_circuit_id : bytes;
}.

Record ZkEvidence : Type := {
  tree_id : N;
  root : bytes;
  nullifier : bytes;
  proof : bytes;
}.
End zk.

(** The number a big-endian byte string denotes. *)
Definition be_value (s : bytes) : N :=
  foldl (λ acc c, acc * 256 + N_of_ascii c)%N 0%N (list_ascii_of_string s).

Definition SCALAR_MODULUS : N :=
  21888242871839275222246405745257275088548364400416034343698204186575808495617.

Lemma be_value_cons c s :
  be_value (String c s) = (N_of_ascii c * 256 ^ slen s + be_value s)%N.
Proof.
  unfold be_value, slen. cbn [list_ascii_of_string foldl].
  assert (Hg : ∀ acc, foldl (λ acc c, acc * 256 + N_of_ascii c)%N acc (list_ascii_of_string s) =
    (acc * 256 ^ N.of_nat (String.length s) +
     foldl (λ acc c, acc * 256 + N_of_ascii c)%N 0%N (list_ascii_of_string s))%N).
  { induction s as [|d s IH]; intros acc; [simpl; lia|].
    cbn [list_ascii_of_string foldl String.length].
    rewrite IH, (IH (0 * 256 + _)%N), Nat2N.inj_succ, N.pow_succ_r'. lia. }
  apply Hg.
Qed.

Lemma be_value_bound s : (be_value s < 256 ^ slen s)%N.
Proof.
  induction s as [|c s IH]; [done|]. rewrite be_value_cons. unfold slen in *.
  cbn [String.length]. rewrite Nat2N.inj_succ, N.pow_succ_r'.
  pose proof (N_ascii_bounded c). nia.
Qed.

Lemma below_modulus_spec x m :
  String.length x = String.length m →
  below_modulus x m = true ↔ (be_value x < be_value m)%N.
Proof.
  revert m. induction x as [|a x IH]; intros [|b m] Hl; try discriminate Hl.
  { done. }
  simpl in Hl. rewrite !be_value_cons. cbn [below_modulus].
  assert (slen x = slen m) as Hs by (unfold slen; lia).
  pose proof (be_value_bound x) as Bx. pose proof (be_value_bound m) as Bm.
  rewrite Hs in *. destruct (Ascii.eqb_spec a b) as [->|Hne].
  - rewrite IH by lia. lia.
  - assert (N_of_ascii a ≠ N_of_ascii b) as Hn.
    { intros E%(f_equal ascii_of_N). by rewrite !ascii_N_embedding in E. }
    rewrite N.ltb_lt. split; intros; nia.
Qed.

(** The byte loop accepts exactly the canonical field elements: a 32-byte
    big-endian string is accepted if and only if the number it denotes is
    below the BN254 scalar modulus, so no accepted value has a second accepted
    representation. *)
Theorem is_canonical_field_exact x :
  hash32 x → is_canonical_field x = true ↔ (be_value x < SCALAR_MODULUS)%N.
Proof.
  intros Hx. unfold is_canonical_field. rewrite below_modulus_spec.
  - replace (be_value BN254_SCALAR_MODULUS) with SCALAR_MODULUS; [done|].
    symmetry. vm_compute. reflexivity.
  - rewrite Hx. reflexivity.
Qed.

(** The two halves determine the value, and each is below the modulus. *)
Lemma split_hi_lo_inj x y :
  hash32 x → hash32 y → split_hi_lo x = split_hi_lo y → x = y.
Proof.
  intros Hx Hy [Hh Hl]%pair_eq.
  apply string_app_inj_length in Hh as [_ Hh], Hl as [_ Hl]; [|done..].
  rewrite <-(substring_split 16 16 x), <-(substring_split 16 16 y) by (rewrite ?Hx, ?Hy; done).
  by rewrite Hh, Hl.
Qed.

(** ** [config.rs] *)

Inductive RecoveryProfile : Type := Profile_Loss | Profile_Protected.

Global Instance RecoveryProfile_eq_dec : EqDecision RecoveryProfile.
Proof. solve_decision. Defined.

Section config.
Context {H : Host}.

Record CompiledGuardianSet : Type := {
  guardians : list Address;
  quorum : N;
}.

Record CompiledZkFactor : Type := {
  zf_adapter : Address;
  zf_circuit_id : bytes;
  zf_pool : Address;
  zf_enrollment_id : bytes;
  zf_commitment : bytes;
}.

Global Instance CompiledZkFactor_eq_dec : EqDecision CompiledZkFactor.
Proof. solve_decision. Defined.

(** [CompiledZkFactor::binding]. *)
Definition factor_binding (z : CompiledZkFactor) : ZkBinding := {|
  zb_pool := zf_pool z; zb_enrollment_id := zf_enrollment_id z;
  zb_circuit_id := zf_circuit_id z |}.

Inductive CompiledRecoveryMode : Type :=
| Mode_GuardianOnly (g : CompiledGuardianSet)
| Mode_ZkOnly (z : CompiledZkFactor)
| Mode_Combined (g : CompiledGuardianSet) (z : CompiledZkFactor).

Record CompiledRecoveryConfig : Type := {
  cf_config_hash : bytes;
  cf_profile : RecoveryProfile;
  cf_mode : CompiledRecoveryMode;
  cf_controller : Address;
  cf_baseline : option bytes;
  cf_replaceable : list string;
  cf_delay_ledgers : N;
  cf_expiry_ledgers : N;
  cf_max_cancels : N;
}.

(** [CompiledRecoveryConfig::guardians], [zk], [binding] and [timing]. *)
Definition config_guardians (c : CompiledRecoveryConfig) : option CompiledGuardianSet :=
  match cf_mode c with
  | Mode_GuardianOnly g | Mode_Combined g _ => Some g
  | Mode_ZkOnly _ => None
  end.
Definition config_zk (c : CompiledRecoveryConfig) : option CompiledZkFactor :=
  match cf_mode c with
  | Mode_ZkOnly z | Mode_Combined _ z => Some z
  | Mode_GuardianOnly _ => None
  end.
Definition config_binding (c : CompiledRecoveryConfig) (epoch : N) : ConfigBinding := {|
  cb_epoch := epoch; cb_config_hash := cf_config_hash c |}.
Definition config_timing (c : CompiledRecoveryConfig) (valid_until : N) : StatementTiming := {|
  st_delay_ledgers := cf_delay_ledgers c; st_expiry_ledgers := cf_expiry_ledgers c;
  valid_until_ledger := valid_until |}.

Definition zk_factor_transition_ok (old new : option CompiledZkFactor) : bool :=
  match old, new with
  | Some a, Some b =>
      bool_decide (a = b) || negb (bool_decide (zf_enrollment_id a = zf_enrollment_id b))
  | _, _ => true
  end.

Definition leaf_to_insert (old new : option CompiledZkFactor) : option CompiledZkFactor :=
  match new with
  | None => None
  | Some n =>
      match old with
      | Some o => if bool_decide (zf_enrollment_id o = zf_enrollment_id n) then None else Some n
      | None => Some n
      end
  end.

(** Across a change of configuration the transition check and the leaf
    rule agree: an accepted change inserts the new factor's leaf unless the
    new factor is the old one or absent, and the leaf it inserts is always
    under an enrollment id the old factor did not have.  So every accepted
    factor has its own leaf, and a factor kept in place keeps its leaf. *)
Theorem accepted_factor_has_its_leaf old new :
  zk_factor_transition_ok old new = true →
  leaf_to_insert old new = (if bool_decide (old = new) then None else new) ∧
  ∀ o n, old = Some o → leaf_to_insert old new = Some n →
    zf_enrollment_id o ≠ zf_enrollment_id n.
Proof.
  unfold zk_factor_transition_ok, leaf_to_insert. intros Hok. split.
  - destruct old as [o|], new as [n|]; [|by case_bool_decide..].
    destruct (decide (o = n)) as [->|Hne].
    { by rewrite !bool_decide_true. }
    rewrite (bool_decide_false (Some o = Some n)) by congruence.
    rewrite (bool_decide_false (o = n)) in Hok by done. simpl in Hok.
    apply negb_true_iff in Hok. by rewrite Hok.
  - intros o n -> Hn. destruct new as [n'|]; [|done].
    case_bool_decide; [done|]. by injection Hn as ->.
Qed.
End config.

(** ** [account.rs] *)

Definition LEDGERS_PER_DAY_NOMINAL : N := 17280.
Definition ACCOUNT_UPGRADE_DELAY_LEDGERS : N := 7 * LEDGERS_PER_DAY_NOMINAL.

Record UpgradeRequest : Type := {
  ur_request_id : N;
  ur_wasm_hash : bytes;
  ur_generation : N;
  ur_controller_epoch : option N;
  ur_executable_at : N;
}.

Inductive UpgradeReadiness : Type := Upgrade_Ready | Upgrade_NotYet | Upgrade_Stale.

Definition UpgradeRequest_schedule (request_id : N) (wasm_hash : bytes) (generation : N)
    (controller_epoch : option N) (now : N) : option UpgradeRequest :=
  match checked_add32 now ACCOUNT_UPGRADE_DELAY_LEDGERS with
  | Some at_ => Some {| ur_request_id := request_id; ur_wasm_hash := wasm_hash;
                        ur_generation := generation;
                        ur_controller_epoch := controller_epoch;
                        ur_executable_at := at_ |}
  | None => None
  end.

Definition readiness (r : UpgradeRequest) (now generation : N) : UpgradeReadiness :=
  if negb (generation =? ur_generation r)%N then Upgrade_Stale
  else if (now <? ur_executable_at r)%N then Upgrade_NotYet
  else Upgrade_Ready.

Definition RESERVED_INVOKER_ONLY_FNS : list string :=
  ["install"; "uninstall"; "enforce"; "rcv_sync"; "rcv_cancel"; "rcv_upgrade";
   "rcv_insert"; "rcv_gate"].

(** [is_reserved_invoker_only]: [Symbol::new] of each name against the
    function name; every reserved name is a valid symbol. *)
Definition is_reserved_invoker_only `{Host} (fn_name : string) : bool :=
  existsb (λ name, bool_decide (symbol_new name = Some fn_name)) RESERVED_INVOKER_ONLY_FNS.

Definition is_frozen (now frozen_until : N) : bool := (now <? frozen_until)%N.

(** ** [controller.rs] *)

Inductive RecoveryError : Type :=
| NotEnrolled
| AttemptAuthorized
| NoSuchAttempt
| AttemptNotLive
| AttemptNotCollecting
| NotExecutableYet
| WrongTarget
| NotAGuardian
| AlreadyCounted
| ModeHasNoGuardians
| ModeHasNoZk
| ZkEvidenceRejected
| NullifierSpent
| EvidenceExpired
| InvalidStatement
| ConditionNotMet
| MaxCancelsReached
| OwnerCancelRefused
| InvalidReplacements
| CredentialRevoked
| EnrollmentIdReused
| NoBaseline
| BaselineNotPublished
| BaselineMismatch
| ZkWiringMismatch
| ZkFactorChangedInPlace
| InvalidConfiguration
| StaleUpgrade
| LedgerOverflow
| MalformedContextRule
| ReplacedCredentialRetained.

Section controller_iface.
Context {H : Host}.

Record Completion : Type := {
  cp_attempt_id : N;
  cp_replaced : list Credential;
}.

Inductive SyncOutcome : Type :=
| Sync_Unchanged
| Sync_Enrolled
| Sync_Reconfigured
| Sync_Removed
| Sync_Completed (c : Completion).

Definition bumps_generation (o : SyncOutcome) : bool :=
  match o with Sync_Unchanged => false | _ => true end.
End controller_iface.

Inductive UpgradeStep : Type :=
| Step_Schedule (s : UpgradeSubject) (approval_valid_until : N)
| Step_Execute (recorded_epoch : N).

(** ** A host where the encodings can be evaluated

    Addresses are their own XDR and the digest is the identity, so the XDR of
    distinct addresses is distinct and no two inputs share a digest. *)
Module IfaceDemo.
Definition PlainHost : Host := {|
  Address := string;
  address_from_str s := Some s;
  address_to_xdr s := s;
  symbol_new s := Some s;
  Val := unit;
  val_address _ := None; val_symbol _ := None; val_string _ := None; val_bytes _ := None;
  val_u32 _ := None; val_i128 _ := None;
  sha256 s := s;
|}.
#[local] Existing Instance PlainHost.

Global Instance plain_xdr_law : XdrLaw (H := PlainHost).
Proof. by intros a b. Qed.

Definition plain_address (n : N) : @Address PlainHost := CONTRACT_HEADER +:+ be_bytes 32 n.

Definition demo_statement : RecoveryStatement := {|
  rs_network_id := zeros 32; rs_account := plain_address 1; rs_controller := plain_address 2;
  rs_config := {| cb_epoch := 3; cb_config_hash := zeros 32 |};
  rs_timing := {| st_delay_ledgers := 10; st_expiry_ledgers := 20; valid_until_ledger := 30 |};
  rs_subject := Subject_Reconfigure ConfigChange_Remove |}.
Definition demo_bytes : bytes := match statement_encode demo_statement with Ok b => b | _ => "" end.

Lemma demo_statement_wf : wf_statement demo_statement.
Proof. repeat split; unfold is_u64, U64_MAX, is_u32, U32_MAX; simpl; lia || reflexivity. Qed.

Lemma statement_encode_injective_witness :
  String.length demo_bytes = 207 ∧
  ∀ t, wf_statement t → statement_encode t = Ok demo_bytes → demo_statement = t.
Proof.
  split; [vm_compute; reflexivity|]. intros t Wt Ht.
  exact (statement_encode_injective demo_statement t demo_bytes demo_statement_wf Wt eq_refl Ht).
Defined.

Definition demo_set : ReplacementSet := {|
  rset_signers := [{| rp_signer_id := "admin";
                      rp_credential := Credential_External (plain_address 4) "key" |}];
  rset_zk_enrollment := [] |}.
Definition demo_set_bytes : bytes :=
  match replacements_encode demo_set with Ok b => b | _ => "" end.

Lemma demo_set_wf : wf_replacements demo_set.
Proof.
  unfold wf_replacements, is_u32, U32_MAX. simpl. split; [lia|]. split; [|constructor].
  constructor; [|constructor]. split; unfold wf_credential, is_u32, U32_MAX, slen; simpl; lia.
Qed.

Lemma replacements_encode_injective_witness :
  String.length demo_set_bytes = 55 ∧
  ∀ t, wf_replacements t → replacements_encode t = Ok demo_set_bytes → demo_set = t.
Proof.
  split; [vm_compute; reflexivity|]. intros t Wt Ht.
  exact (replacements_encode_injective demo_set t demo_set_bytes demo_set_wf Wt eq_refl Ht).
Defined.

Lemma digests_domain_separated_witness :
  config_hash "{}" ≠ demo_bytes ∧ rule_hash "{}" ≠ demo_bytes.
Proof.
  destruct (digests_domain_separated (H := PlainHost) (λ x y E, E)) as (_ & _ & Hs & _).
  exact (Hs demo_statement "{}" demo_bytes eq_refl).
Defined.

Lemma is_canonical_field_exact_witness :
  is_canonical_field (be_bytes 32 5) = true ↔ (be_value (be_bytes 32 5) < SCALAR_MODULUS)%N.
Proof. exact (is_canonical_field_exact (be_bytes 32 5) eq_refl). Defined.

Definition demo_factor : CompiledZkFactor := {|
  zf_adapter := plain_address 5; zf_circuit_id := zeros 32; zf_pool := plain_address 6;
  zf_enrollment_id := zeros 32; zf_commitment := zeros 32 |}.

Lemma accepted_factor_has_its_leaf_witness :
  leaf_to_insert None (Some demo_factor) = Some demo_factor.
Proof.
  destruct (accepted_factor_has_its_leaf None (Some demo_factor) eq_refl) as [Hl _].
  rewrite Hl. reflexivity.
Defined.
End IfaceDemo.
