(* ===== verification/CompilerIface.v ===== *)
(** * perch-doc-compiler: the types its callers see

    The wire types of [crates/perch-doc-compiler/src/lib.rs] and
    [admin_survives], the check every applied document and every recovery
    target must pass.  The account and the recovery controller reach a
    compiler only through its address, so what a call returns is part of the
    world they run in ([Controller.Outside]). *)

From S2P Require Import Prelude Host Program RecoveryIface.

Inductive DocCompilerError : Type :=
| DocNotUtf8
| DocParse
| DocInvalid
| WrongNetwork
| DocCompile
| DocTooLarge
| KeyNotCanonicalizable
| Doc_NotEnrolled
| ReplacementRefused
| Doc_ZkEnrollmentMismatch
| Doc_AdminLockout.

Section compiler_iface.
Context {H : Host}.

Inductive RuleScope : Type :=
| RuleScope_SelfAdmin
| RuleScope_Contract (a : Address).

Record CompiledCap : Type := {
  spending_limit : Z;
  period_ledgers : N;
}.

Record CompiledRule : Type := {
  cr_name : string;
  cr_scope : RuleScope;
  cr_signers : list Signer;
  cr_valid_until : option N;
  cr_install : list InstallParams;
  cr_cap : list CompiledCap;
}.

Record CompiledDoc : Type := {
  cd_doc_hash : bytes;
  cd_canonical : bytes;
  cd_fingerprints : list bytes;
  cd_rules : list CompiledRule;
  cd_recovery : list CompiledRecoveryConfig;
}.

Record DerivedTarget : Type := {
  dt_canonical : bytes;
  dt_doc_hash : bytes;
  dt_config_hash : bytes;
  dt_fingerprints : list bytes;
  dt_replaced : list Credential;
}.

Definition is_empty {A} (l : list A) : bool :=
  match l with [] => true | _ => false end.

Definition admin_survives (rules : list CompiledRule) : bool :=
  existsb (λ r, match cr_scope r with RuleScope_SelfAdmin => true | _ => false end
                && match cr_valid_until r with None => true | Some _ => false end
                && negb (is_empty (cr_signers r))
                && is_empty (cr_install r)
                && is_empty (cr_cap r)) rules.
End compiler_iface.
