(* ===== verification/DocCompiler.v ===== *)
(** * perch-doc-compiler: from document bytes to compiled rules

    Models the deployable half of [crates/perch-doc-compiler/src/lib.rs]:
    [compile_doc] and [derive_target] with every check on the way, and the
    test-only compilers.  The contract keeps no state: each entry point is a
    function of the invocation's environment, the bytes, and what the
    verifiers' [batch_canonicalize_key] answers ([Verifiers]). *)

From S2P Require Import Prelude Host Program Doc Canon Parse Utf8 Validate RecoveryDoc Compile RecoveryIface CompilerIface.
#[local] Open Scope string_scope.
#[local] Open Scope list_scope.

(** ** What the compiler links and calls *)

(** The [hex] crate's encoder, [Address::to_string], and the limits of
    OpenZeppelin's context rules. *)
Class CompilerLibs `{H : Host} : Type := {
  hex_encode : bytes → string;
  address_to_string : Address → string;
  MAX_NAME_SIZE : N;
  MAX_SIGNERS : N;
}.

(** The verifiers named by a document; [None] is a failed call. *)
Class Verifiers `{H : Host} : Type :=
  batch_canonicalize_key : Address → list bytes → option (list bytes).

(** ** [String::from_utf8_lossy]: each maximal invalid part becomes U+FFFD *)

Definition replacement_char : string := String (chr 239) (String (chr 191) (String (chr 189) "")).

Fixpoint from_utf8_lossy (s : string) : string :=
  match s with
  | EmptyString => ""
  | String a r =>
      if between 0 a 127 then String a (from_utf8_lossy r) else
      match r with
      | EmptyString => replacement_char
      | String b r2 =>
          if between 194 a 223 && cont b then String a (String b (from_utf8_lossy r2)) else
          if second_of_3 a b then
            match r2 with
            | EmptyString => replacement_char
            | String c r3 =>
                if cont c then String a (String b (String c (from_utf8_lossy r3)))
                else replacement_char +:+ from_utf8_lossy r2
            end
          else if second_of_4 a b then
            match r2 with
            | EmptyString => replacement_char
            | String c r3 =>
                if cont c then
                  match r3 with
                  | EmptyString => replacement_char
                  | String d r4 =>
                      if cont d
                      then String a (String b (String c (String d (from_utf8_lossy r4))))
                      else replacement_char +:+ from_utf8_lossy r3
                  end
                else replacement_char +:+ from_utf8_lossy r2
            end
          else replacement_char +:+ from_utf8_lossy r
      end
  end.

(** ** Limits and capabilities *)

Definition MAX_DOC_SIGNERS : N := 8.
Definition MAX_DOC_RULES : N := 11.
Definition MAX_DOC_CANONICAL_BYTES : N := 8192.

Record FlatDocLimits : Type := {
  max_signers : N;
  max_rules : N;
  max_canonical_bytes : N;
  max_rule_name_bytes : N;
}.
Inductive DocLimits : Type := DocLimits_V1 (l : FlatDocLimits).

Record CompilerCapabilities : Type := {
  canon_version : N;
  rule_hash_tag : string;
  config_hash_tag : string;
}.

Definition compiler_capabilities : CompilerCapabilities := {|
  canon_version := CANON_VERSION; rule_hash_tag := RULE_DOMAIN; config_hash_tag := CONFIG_DOMAIN |}.

(** ** Hex *)

Definition nib (c : ascii) : result DocCompilerError N :=
  let b := N_of_ascii c in
  if between 48 c 57 then Ok (b - 48)%N
  else if between 97 c 102 then Ok (b - 97 + 10)%N
  else if between 65 c 70 then Ok (b - 65 + 10)%N
  else Err DocInvalid.

(** The loop over pairs; an odd byte would index past the end. *)
Fixpoint hex_pairs (s : string) : result DocCompilerError bytes :=
  match s with
  | EmptyString => Ok ""
  | String a (String b s) =>
      let* x := nib a in
      let* y := nib b in
      let* rest := hex_pairs s in
      Ok (String (ascii_of_N (N.lor (N.shiftl x 4) y)) rest)
  | String _ EmptyString => Panic
  end.

Definition hex_bytes (s : string) : result DocCompilerError bytes :=
  refuse_if (Nat.odd (String.length s)) DocInvalid ;;;
  hex_pairs s.

Definition hex_bytes_32 (s : string) : result DocCompilerError bytes :=
  refuse_if (negb (String.length s =? 64)%nat) DocInvalid ;;;
  hex_pairs s.

(** ** To the wire types *)

Section compiler.
Context {H : Host} {HC : HexCodec} {JL : JsonLexer} {CL : CompilerLibs} {VF : Verifiers}.

Definition MAX_RULE_NAME_BYTES : N := MAX_NAME_SIZE.

Definition doc_limits : FlatDocLimits := {|
  max_signers := MAX_DOC_SIGNERS; max_rules := MAX_DOC_RULES;
  max_canonical_bytes := MAX_DOC_CANONICAL_BYTES; max_rule_name_bytes := MAX_RULE_NAME_BYTES |}.
Definition limits : DocLimits := DocLimits_V1 doc_limits.

(** [Address::from_str] traps on a malformed strkey. *)
Definition to_address (s : string) : result DocCompilerError Address :=
  or_panic (address_from_str s).

Definition to_compiled_signer (s : SignerSpec) : result DocCompilerError Signer :=
  match s with
  | SignerSpec_Delegated address =>
      let* a := to_address address in Ok (Signer_Delegated a)
  | SignerSpec_External verifier key_hex =>
      let* v := to_address verifier in
      let* k := hex_bytes key_hex in
      Ok (Signer_External v k)
  end.

Definition to_compiled (rule : LoweredRule) : result DocCompilerError CompiledRule :=
  let* scope :=
    match lr_scope rule with
    | ScopeSpec_SelfAdmin => Ok RuleScope_SelfAdmin
    | ScopeSpec_Contract addr => let* a := to_address addr in Ok (RuleScope_Contract a)
    end in
  let* signers := mapM_result to_compiled_signer (lr_signers rule) in
  Ok {| cr_name := lr_name rule; cr_scope := scope; cr_signers := signers;
        cr_valid_until := lr_valid_until rule;
        cr_install := match lr_install rule with Some p => [p] | None => [] end;
        cr_cap := match lr_cap rule with
                  | Some c => [{| spending_limit := spec_limit c;
                                  period_ledgers := spec_period_ledgers c |}]
                  | None => []
                  end |}.

Definition to_compiled_guardian_set (g : Doc.GuardianSet)
  : result DocCompilerError CompiledGuardianSet :=
  let* addrs := mapM_result to_address (Doc.guardians g) in
  Ok {| RecoveryIface.guardians := addrs; RecoveryIface.quorum := Doc.quorum g |}.

Definition to_compiled_zk (z : ZkFactor) : result DocCompilerError CompiledZkFactor :=
  let* a := to_address (adapter z) in
  let* c := hex_bytes_32 (circuit_id z) in
  let* p := to_address (pool z) in
  let* i := hex_bytes_32 (enrollment_id z) in
  let* m := hex_bytes_32 (commitment z) in
  Ok {| zf_adapter := a; zf_circuit_id := c; zf_pool := p; zf_enrollment_id := i;
        zf_commitment := m |}.

Definition to_compiled_mode (m : RecoveryMode) : result DocCompilerError CompiledRecoveryMode :=
  match m with
  | GuardianOnly g => let* g := to_compiled_guardian_set g in Ok (Mode_GuardianOnly g)
  | ZkOnly z => let* z := to_compiled_zk z in Ok (Mode_ZkOnly z)
  | Combined g z =>
      let* g := to_compiled_guardian_set g in
      let* z := to_compiled_zk z in
      Ok (Mode_Combined g z)
  end.

Definition to_compiled_recovery (r : RecoveryConfig)
  : result DocCompilerError CompiledRecoveryConfig :=
  let profile := match profile r with
                 | Loss => Profile_Loss
                 | Protected => Profile_Protected
                 end in
  let* mode := to_compiled_mode (mode r) in
  let* baseline := match baseline r with
                   | Some b => let* h := hex_bytes_32 (baseline_doc_hash b) in Ok (Some h)
                   | None => Ok None
                   end in
  let* c := to_address (controller r) in
  Ok {| cf_config_hash := config_hash (recovery_canonical_json r); cf_profile := profile;
        cf_mode := mode; cf_controller := c; cf_baseline := baseline;
        cf_replaceable := replaceable r; cf_delay_ledgers := delay_ledgers r;
        cf_expiry_ledgers := expiry_ledgers r; cf_max_cancels := max_cancels r |}.

(** ** Credentials *)

(** The first loop of [canonical_credentials]: the keys of each verifier, and
    every signer's slot in its batch. *)
Fixpoint batch_keys (signers : list SignerDecl) (batches : gmap Address (list bytes))
  : result DocCompilerError (gmap Address (list bytes) * list (Address * option nat)) :=
  match signers with
  | [] => Ok (batches, [])
  | s :: signers =>
      match signer_method s with
      | Delegated address =>
          let* a := to_address address in
          let* ' (batches, slots) := batch_keys signers batches in
          Ok (batches, (a, None) :: slots)
      | External verifier key =>
          let* v := to_address verifier in
          let batch := default [] (batches !! v) in
          let* k := hex_bytes key in
          let* ' (batches, slots) := batch_keys signers (<[v := batch ++ [k]]> batches) in
          Ok (batches, (v, Some (length batch)) :: slots)
      end
  end.

(** One verifier's batch: the answer has a key per declared key, each equal to
    the declared one. *)
Definition canonical_batch (vb : Address * list bytes)
  : result DocCompilerError (Address * list bytes) :=
  let '(verifier, batch) := vb in
  let* keys := ok_or (batch_canonicalize_key verifier batch) KeyNotCanonicalizable in
  refuse_if (negb (length keys =? length batch)%nat) KeyNotCanonicalizable ;;;
  refuse_if (negb (bool_decide (batch = keys))) KeyNotCanonicalizable ;;;
  Ok (verifier, keys).

Definition slot_credential (canonical : gmap Address (list bytes)) (s : Address * option nat)
  : result DocCompilerError Credential :=
  match s with
  | (address, None) => Ok (Credential_Delegated address)
  | (address, Some i) =>
      let* key := ok_or (keys ← canonical !! address; keys !! i) KeyNotCanonicalizable in
      Ok (Credential_External address key)
  end.

Definition canonical_credentials (signers : list SignerDecl)
  : result DocCompilerError (list Credential) :=
  let* ' (batches, slots) := batch_keys signers ∅ in
  let* canonical := mapM_result canonical_batch (map_to_list batches) in
  mapM_result (slot_credential (list_to_map canonical)) slots.

Definition fingerprints (credentials : list Credential) : result DocCompilerError (list bytes) :=
  mapM_result (λ c, map_err (λ _, DocInvalid) (credential_fingerprint c)) credentials.

(** ** Compiling *)

Definition parse (doc_json : bytes) : result DocCompilerError PolicyDoc :=
  refuse_if (negb (utf8_valid doc_json)) DocNotUtf8 ;;;
  map_err (λ _, DocParse) (from_json doc_json).

Definition too_large (doc : PolicyDoc) : bool :=
  (MAX_DOC_SIGNERS <? N.of_nat (length (doc_signers doc)))%N
  || (MAX_DOC_RULES <? N.of_nat (length (doc_rules doc)))%N
  || existsb (λ r, MAX_RULE_NAME_BYTES <? slen (rule_name r))%N (doc_rules doc).

Definition compile_parsed (e : Env) (doc : PolicyDoc) : result DocCompilerError CompiledDoc :=
  map_err (λ _, DocInvalid) (Validate.validate doc) ;;;
  let* net := ok_or (doc_network doc) WrongNetwork in
  refuse_if (negb (String.eqb (sha256 net) (network_id e))) WrongNetwork ;;;
  refuse_if (too_large doc) DocTooLarge ;;;
  let* plan := map_err (λ _, DocCompile) (compile doc (zeros 32)) in
  let* rules := mapM_result to_compiled (plan_rules plan) in
  let canonical := canonical_json doc in
  refuse_if (MAX_DOC_CANONICAL_BYTES <? slen canonical)%N DocTooLarge ;;;
  let* recovery := match doc_recovery doc with
                   | Some r => let* c := to_compiled_recovery r in Ok [c]
                   | None => Ok []
                   end in
  let* credentials := canonical_credentials (doc_signers doc) in
  let* fs := fingerprints credentials in
  Ok {| cd_doc_hash := sha256 canonical; cd_canonical := canonical; cd_fingerprints := fs;
        cd_rules := rules; cd_recovery := recovery |}.

Definition compile_doc (e : Env) (doc_json : bytes) : result DocCompilerError CompiledDoc :=
  let* doc := parse doc_json in compile_parsed e doc.

(** ** Deriving a recovery target *)

Definition to_std_string (s : bytes) : string := from_utf8_lossy s.

Definition to_signer_method (c : Credential) : SignerMethod :=
  match c with
  | Credential_Delegated address => Delegated (to_std_string (address_to_string address))
  | Credential_External verifier key =>
      External (to_std_string (address_to_string verifier)) (hex_encode key)
  end.

Definition declared_replacement (r : RecoveryIface.Replacement) : RecoveryDoc.Replacement := {|
  repl_signer_id := to_std_string (rp_signer_id r);
  repl_method := to_signer_method (rp_credential r) |}.

Definition derive_error (err : DeriveError) : DocCompilerError :=
  match err with
  | RecoveryDoc.NotEnrolled => Doc_NotEnrolled
  | RecoveryDoc.ZkEnrollmentMismatch => Doc_ZkEnrollmentMismatch
  | _ => ReplacementRefused
  end.

Definition zk_rotation (l : list ZkEnrollment) : result DocCompilerError (option ZkRotation) :=
  match l with
  | [] => Ok None
  | [z] => Ok (Some {| rot_enrollment_id := hex_encode (ze_id z);
                       rot_commitment := hex_encode (ze_commitment z) |})
  | _ => Err Doc_ZkEnrollmentMismatch
  end.

Definition derive_target (e : Env) (source_json current_json : bytes) (action : RecoveryAction)
    (replacements : ReplacementSet) : result DocCompilerError DerivedTarget :=
  let* action :=
    match action with
    | Action_LostKey => Ok LostKey
    | Action_Compromise => Ok Compromise
    | _ => Err ReplacementRefused
    end in
  let* source := parse source_json in
  let* current := parse current_json in
  let declared := declared_replacement <$> rset_signers replacements in
  let* rotation := zk_rotation (rset_zk_enrollment replacements) in
  let* target := map_err derive_error
    (RecoveryDoc.derive_target source current action declared rotation) in
  let* compiled := compile_parsed e target in
  refuse_if (negb (admin_survives (cd_rules compiled))) Doc_AdminLockout ;;;
  let replaced_slots :=
    filter (λ s, existsb (λ r, String.eqb (repl_signer_id r) (signer_id s)) declared = true)
      (doc_signers source) in
  let* c := ok_or (cf_config_hash <$> head (cd_recovery compiled)) Doc_NotEnrolled in
  let* replaced := canonical_credentials replaced_slots in
  Ok {| dt_canonical := cd_canonical compiled; dt_doc_hash := cd_doc_hash compiled;
        dt_config_hash := c; dt_fingerprints := cd_fingerprints compiled;
        dt_replaced := replaced |}.

(** ** The test-only compilers: another document identity, and one that does
    not name the bytes it comes with *)

Definition stand_in_identity (canonical : bytes) : bytes := sha256 ("perch/doc/test-v2" +:+ canonical).

Definition with_doc_hash (h : bytes) (t : DerivedTarget) : DerivedTarget := {|
  dt_canonical := dt_canonical t; dt_doc_hash := h; dt_config_hash := dt_config_hash t;
  dt_fingerprints := dt_fingerprints t; dt_replaced := dt_replaced t |}.

Definition stand_in_compile_doc (e : Env) (doc_json : bytes)
  : result DocCompilerError CompiledDoc :=
  let* c := compile_doc e doc_json in
  Ok {| cd_doc_hash := stand_in_identity (cd_canonical c); cd_canonical := cd_canonical c;
        cd_fingerprints := cd_fingerprints c; cd_rules := cd_rules c;
        cd_recovery := cd_recovery c |}.

Definition stand_in_derive_target (e : Env) (source_json current_json : bytes)
    (action : RecoveryAction) (replacements : ReplacementSet)
  : result DocCompilerError DerivedTarget :=
  let* t := derive_target e source_json current_json action replacements in
  Ok (with_doc_hash (stand_in_identity (dt_canonical t)) t).

Definition inconsistent_derive_target (e : Env) (source_json current_json : bytes)
    (action : RecoveryAction) (replacements : ReplacementSet)
  : result DocCompilerError DerivedTarget :=
  let* t := derive_target e source_json current_json action replacements in
  Ok (with_doc_hash (sha256 ("perch/test/bad-pair" +:+ dt_canonical t)) t).
End compiler.
