(* ===== verification/DocCompilerFacts.v ===== *)
(** * perch-doc-compiler: what a compiled document satisfies

    A compiled document is determined by its hash; the bytes a derived target
    carries compile to exactly that target; and the rules a document compiles
    to are rules OpenZeppelin and the policies install. *)

From S2P Require Import Prelude Host Program Doc Canon Parse ParseFacts RoundTrip Utf8 Validate RecoveryDoc Compile RecoveryIface CompilerIface DocCompiler.
#[local] Open Scope string_scope.
#[local] Open Scope list_scope.

(** ** Lossy decoding *)

Lemma utf8_replacement s : utf8 s → utf8 (replacement_char +:+ s).
Proof. intros. by apply utf8_3. Qed.

Lemma lossy_utf8 n : ∀ s, (String.length s ≤ n)%nat → utf8 (from_utf8_lossy s).
Proof.
  induction n as [|n IH]; intros [|a r] Hn; try apply utf8_nil; simpl in Hn; [lia|].
  cbn [from_utf8_lossy]. destruct (between 0 a 127) eqn:Ha; [apply utf8_1; [done|apply IH; lia]|].
  destruct r as [|b r]; [apply (utf8_replacement ""); constructor|]. simpl in Hn.
  destruct (between 194 a 223 && cont b) eqn:Hb.
  { apply andb_true_iff in Hb as [? ?]. apply utf8_2; try done. apply IH. lia. }
  destruct (second_of_3 a b) eqn:H3.
  { destruct r as [|c r]; [apply (utf8_replacement ""); constructor|]. simpl in Hn.
    destruct (cont c) eqn:Hc; [apply utf8_3; try done; apply IH; lia|].
    apply utf8_replacement, IH. simpl. lia. }
  destruct (second_of_4 a b) eqn:H4; [|apply utf8_replacement, IH; simpl; lia].
  destruct r as [|c r]; [apply (utf8_replacement ""); constructor|]. simpl in Hn.
  destruct (cont c) eqn:Hc; [|apply utf8_replacement, IH; simpl; lia].
  destruct r as [|d r]; [apply (utf8_replacement ""); constructor|]. simpl in Hn.
  destruct (cont d) eqn:Hd; [apply utf8_4; try done; apply IH; lia|].
  apply utf8_replacement, IH. simpl. lia.
Qed.

Lemma to_std_string_utf8 s : utf8_valid (to_std_string s) = true.
Proof. apply utf8_valid_iff, (lossy_utf8 (String.length s)). done. Qed.

(** Valid UTF-8 decodes to itself. *)
Lemma to_std_string_id s : utf8_valid s = true → to_std_string s = s.
Proof.
  rewrite utf8_valid_iff. unfold to_std_string.
  induction 1 as [|a r Ha _ IH|a b r Ha Hb _ IH|a b c r Hab Hc _ IH|a b c d r Hab Hc Hd _ IH];
    cbn [from_utf8_lossy].
  - done.
  - by rewrite Ha, IH.
  - pose proof (proj1 (between_true _ _ _) Ha). rewrite (between_false 0), Ha, Hb by lia.
    simpl. by rewrite IH.
  - pose proof (second_of_3_lead a b Hab) as [? _].
    rewrite (between_false 0), (between_false 194) by lia. cbn [andb]. by rewrite Hab, Hc, IH.
  - pose proof (second_of_4_lead a b Hab) as [? _].
    rewrite (between_false 0), (between_false 194) by lia. cbn [andb].
    destruct (second_of_3 a b) eqn:H3; [pose proof (second_of_3_lead a b H3); lia|].
    by rewrite Hab, Hc, Hd, IH.
Qed.

Section facts.
Context {H : Host} {HC : HexCodec} {JL : JsonLexer} {CL : CompilerLibs} {VF : Verifiers}.

(** ** A successful compilation, step by step *)

Lemma compile_parsed_Ok e doc c :
  compile_parsed e doc = Ok c ↔
  ∃ net plan creds,
    wf_doc doc ∧ doc_network doc = Some net ∧ sha256 net = network_id e ∧
    too_large doc = false ∧ compile doc (zeros 32) = Ok plan ∧
    Forall2 (λ lr r, to_compiled lr = Ok r) (plan_rules plan) (cd_rules c) ∧
    (slen (canonical_json doc) ≤ MAX_DOC_CANONICAL_BYTES)%N ∧
    match doc_recovery doc with
    | Some r => ∃ rc, to_compiled_recovery r = Ok rc ∧ cd_recovery c = [rc]
    | None => cd_recovery c = []
    end ∧
    canonical_credentials (doc_signers doc) = Ok creds ∧
    Forall2 (λ k f, credential_fingerprint k = Ok f) creds (cd_fingerprints c) ∧
    cd_canonical c = canonical_json doc ∧ cd_doc_hash c = sha256 (canonical_json doc).
Proof.
  unfold compile_parsed. rewrite rbind_Ok. split.
  - intros (u & Hv%map_err_Ok & E). destruct u. apply validate_Ok in Hv.
    apply rbind_Ok in E as (net & Hn%ok_or_Ok & E).
    apply rbind_Ok in E as (u & Hid%refuse_if_Ok & E).
    apply rbind_Ok in E as (u' & Hl%refuse_if_Ok & E).
    apply rbind_Ok in E as (plan & Hp%map_err_Ok & E).
    apply rbind_Ok in E as (rules & Hr%mapM_result_Ok & E).
    apply rbind_Ok in E as (u'' & Hc%refuse_if_Ok & E).
    apply rbind_Ok in E as (rec & Hrec & E).
    apply rbind_Ok in E as (creds & Hcr & E). apply rbind_Ok in E as (fs & Hfs & [= <-]).
    exists net, plan, creds. apply negb_false_iff, String.eqb_eq in Hid. apply N.ltb_ge in Hc.
    unfold fingerprints in Hfs. apply mapM_result_Ok in Hfs. simpl. split_and!; try done.
    + destruct (doc_recovery doc) as [r|]; [|by injection Hrec].
      apply rbind_Ok in Hrec as (rc & Hrc & [= <-]). by exists rc.
    + eapply Forall2_impl; [exact Hfs|]. intros k f Hk. by apply map_err_Ok in Hk.
  - intros (net & plan & creds & Hv & Hn & Hid & Hl & Hp & Hr & Hc & Hrec & Hcr & Hfs & Hca & Hh).
    exists tt. split; [by apply map_err_Ok, validate_Ok|]. rewrite Hn. simpl.
    rewrite Hid, String.eqb_refl, Hl. simpl. rewrite Hp. simpl.
    apply mapM_result_Ok in Hr. rewrite Hr. simpl.
    destruct (N.ltb_spec MAX_DOC_CANONICAL_BYTES (slen (canonical_json doc))); [lia|]. simpl.
    rewrite Hcr. simpl.
    assert (fingerprints creds = Ok (cd_fingerprints c)) as Hf.
    { apply mapM_result_Ok. eapply Forall2_impl; [exact Hfs|]. intros k f Hk. by apply map_err_Ok. }
    destruct (doc_recovery doc) as [r|].
    + destruct Hrec as (rc & -> & Hrec). simpl. rewrite Hf. simpl. rewrite <- Hh, <- Hca, <- Hrec.
      by destruct c.
    + simpl. rewrite Hf. simpl. rewrite <- Hh, <- Hca, <- Hrec. by destruct c.
Qed.

Lemma parse_Ok j doc :
  parse j = Ok doc ↔ utf8_valid j = true ∧ from_json j = Ok doc.
Proof.
  unfold parse. rewrite rbind_Ok. setoid_rewrite refuse_if_Ok. setoid_rewrite map_err_Ok.
  rewrite <- negb_false_iff. naive_solver.
Qed.

Lemma compile_doc_Ok e j c :
  compile_doc e j = Ok c ↔ ∃ doc, parse j = Ok doc ∧ compile_parsed e doc = Ok c.
Proof. apply rbind_Ok. Qed.

(** The environment matters only through the network. *)
Lemma compile_parsed_network e e' doc :
  network_id e = network_id e' → compile_parsed e doc = compile_parsed e' doc.
Proof. intros He. unfold compile_parsed. by rewrite He. Qed.

(** ** The hash determines the document *)

Lemma compile_doc_determined `{!LexerStrings}
    (collision_free : ∀ x y : bytes, sha256 x = sha256 y → x = y) e e' j j' c c' :
  network_id e = network_id e' →
  compile_doc e j = Ok c → compile_doc e' j' = Ok c' → cd_doc_hash c = cd_doc_hash c' → c = c'.
Proof.
  intros He (doc & [_ Hj]%parse_Ok & Hc)%compile_doc_Ok (doc' & [_ Hj']%parse_Ok & Hc')%compile_doc_Ok.
  apply from_json_ok in Hj as [Hok%cv_ok_nums _], Hj' as [Hok'%cv_ok_nums _].
  pose proof (proj1 (compile_parsed_Ok _ _ _) Hc) as (? & ? & ? & _ & _ & _ & _ & _ & _ & _ & _ & _ & _ & _ & ->).
  pose proof (proj1 (compile_parsed_Ok _ _ _) Hc') as (? & ? & ? & _ & _ & _ & _ & _ & _ & _ & _ & _ & _ & _ & ->).
  intros Hh%collision_free. apply (codec_write_inj doc_from_value doc_to_cv) in Hh as <-; [|done..].
  rewrite (compile_parsed_network e e' doc He), Hc' in Hc. by injection Hc.
Qed.

(** ** Derived targets are Rust values *)

Definition method_ok (m : SignerMethod) : bool :=
  match m with
  | External verifier key => utf8_valid verifier && utf8_valid key
  | Delegated address => utf8_valid address
  end.

Lemma signer_cv_ok s :
  cv_ok (signer_to_cv s) = utf8_valid (signer_id s) && method_ok (signer_method s).
Proof.
  unfold signer_to_cv. destruct (signer_method s); simpl; by rewrite !andb_true_r.
Qed.

Lemma push_opt_cv_ok {A} k (f : A → Cv) o :
  forallb (λ kv, cv_ok kv.2) (push_opt k f o) = true ↔ ∀ x, o = Some x → cv_ok (f x) = true.
Proof. destruct o; simpl; rewrite ?andb_true_r; naive_solver. Qed.

Lemma doc_cv_ok d :
  cv_ok (doc_to_cv d) = true ↔
  (doc_version d ≤ U32_MAX)%N ∧ (∀ n, doc_network d = Some n → utf8_valid n = true) ∧
  (∀ s, s ∈ doc_signers d → utf8_valid (signer_id s) = true ∧ method_ok (signer_method s) = true) ∧
  (∀ r, r ∈ doc_rules d → cv_ok (rule_to_cv r) = true) ∧
  ∀ r, doc_recovery d = Some r → cv_ok (recovery_to_cv r) = true.
Proof.
  unfold doc_to_cv. cbn [cv_ok]. rewrite !forallb_app, !andb_true_iff, !push_opt_cv_ok.
  cbn [forallb snd cv_ok]. rewrite !andb_true_iff, !forallb_forall, N.leb_le.
  assert (Hm : ∀ {A} (f : A → Cv) l, (∀ x, In x (map f l) → cv_ok x = true) ↔
    ∀ y, y ∈ l → cv_ok (f y) = true).
  { intros A f l. split.
    - intros Hl y Hy. apply Hl, in_map, list_elem_of_In, Hy.
    - intros Hl x (y & <- & Hy)%in_map_iff. by apply Hl, list_elem_of_In. }
  rewrite !Hm. setoid_rewrite signer_cv_ok. setoid_rewrite andb_true_iff. naive_solver.
Qed.

Lemma replace_method_all (P : SignerDecl → Prop) id m l old l' :
  replace_method id m l = Some (old, l') →
  (∀ s, s ∈ l → P s) → (∀ i m', P {| signer_id := i; signer_method := m' |} →
    P {| signer_id := i; signer_method := m |}) →
  ∀ s, s ∈ l' → P s.
Proof.
  revert l'. induction l as [|s l IH]; intros l' E Hl Hm; [done|]. cbn [replace_method] in E.
  destruct (String.eqb (signer_id s) id).
  - injection E as <- <-. intros x [->|Hx]%elem_of_cons; [|apply Hl; by right].
    apply (Hm _ (signer_method s)). destruct s. apply Hl. left.
  - destruct (replace_method id m l) as [[o l1]|]; [|done]. injection E as <- <-.
    intros x [->|Hx]%elem_of_cons; [apply Hl; left|]. eapply IH; [done| |done|done].
    intros y Hy. apply Hl. by right.
Qed.

Lemma apply_replacements_ok rp rs l l' :
  apply_replacements rp rs l = Ok l' →
  (∀ r, r ∈ rs → method_ok (repl_method r) = true) →
  (∀ s, s ∈ l → utf8_valid (signer_id s) = true ∧ method_ok (signer_method s) = true) →
  ∀ s, s ∈ l' → utf8_valid (signer_id s) = true ∧ method_ok (signer_method s) = true.
Proof.
  revert l. induction rs as [|r rs IH]; intros l E Hr Hl; cbn [apply_replacements] in E.
  - by injection E as <-.
  - apply rbind_Ok in E as (? & _ & E). apply rbind_Ok in E as ([old l1] & E1%ok_or_Ok & E).
    apply rbind_Ok in E as (? & _ & E). eapply IH; [exact E| |].
    + intros q Hq. apply Hr. by right.
    + eapply replace_method_all; [exact E1|exact Hl|]. simpl. intros i m' [? _]. split; [done|].
      apply Hr. left.
Qed.

Definition rotation_ok (rot : option ZkRotation) : Prop :=
  ∀ z, rot = Some z → utf8_valid (rot_enrollment_id z) = true ∧ utf8_valid (rot_commitment z) = true.

Lemma rotated_cv_ok r rot m :
  rotate_mode (mode r) rot = Ok m → rotation_ok rot →
  cv_ok (recovery_to_cv r) = true → cv_ok (recovery_to_cv (with_mode r m)) = true.
Proof.
  intros Hm Hrot. unfold recovery_to_cv. cbn [cv_ok]. rewrite !forallb_app, !andb_true_iff.
  intros (Hh & Hb & Ht). split_and!; [|done..]. cbn [forallb snd with_mode profile mode controller] in *.
  rewrite !andb_true_iff in *. destruct Hh as (Hp & Hmode & Hc & _). split_and!; try done.
  destruct (mode r) as [g|z|g z], rot as [q|]; try discriminate Hm; injection Hm as <-.
  - done.
  - destruct (Hrot q eq_refl) as [H1 H2]. revert Hmode. simpl. rewrite H1, H2.
    rewrite !andb_true_iff. naive_solver.
  - destruct (Hrot q eq_refl) as [H1 H2]. revert Hmode. simpl. rewrite H1, H2.
    rewrite !andb_true_iff. naive_solver.
Qed.

(** The [hex] crate writes ASCII digits. *)
Class HexEncode : Prop := hex_encode_utf8 b : utf8_valid (hex_encode b) = true.
Context {HE : HexEncode} {LS : LexerStrings}.

Lemma declared_ok r : method_ok (repl_method (declared_replacement r)) = true.
Proof.
  unfold declared_replacement, to_signer_method. simpl.
  destruct (rp_credential r); simpl; by rewrite ?to_std_string_utf8, ?hex_encode_utf8.
Qed.

Lemma zk_rotation_ok l rot : zk_rotation l = Ok rot → rotation_ok rot.
Proof.
  unfold zk_rotation. destruct l as [|z [|]]; intros [= <-] q Hq; [done|].
  injection Hq as <-. simpl. by rewrite !hex_encode_utf8.
Qed.

Lemma derived_cv_ok source current action rs rot target :
  RecoveryDoc.derive_target source current action rs rot = Ok target →
  (∀ r, r ∈ rs → method_ok (repl_method r) = true) → rotation_ok rot →
  cv_ok (doc_to_cv source) = true → cv_ok (doc_to_cv current) = true →
  cv_ok (doc_to_cv target) = true.
Proof.
  unfold RecoveryDoc.derive_target. rewrite !doc_cv_ok.
  intros (rec & Hrec%ok_or_Ok & E)%rbind_Ok Hrs Hrot (Hv & Hn & Hs & Hru & _) (_ & _ & _ & _ & Hcr).
  apply rbind_Ok in E as (? & _ & E). apply rbind_Ok in E as (? & _ & E).
  apply rbind_Ok in E as (signers & Hsg & E). apply rbind_Ok in E as (m & Hm & [= <-]). simpl.
  split_and!; try done.
  - by eapply apply_replacements_ok.
  - intros r [= <-]. eapply rotated_cv_ok; eauto.
Qed.

(** The bytes of a target compile to the target. *)
Lemma derive_target_Ok e sj cj action rs t :
  derive_target e sj cj action rs = Ok t →
  ∃ act source current rot target compiled,
    parse sj = Ok source ∧ parse cj = Ok current ∧
    RecoveryDoc.derive_target source current act (declared_replacement <$> rset_signers rs) rot
      = Ok target ∧ zk_rotation (rset_zk_enrollment rs) = Ok rot ∧
    match action with
    | Action_LostKey => act = LostKey
    | Action_Compromise => act = Compromise
    | _ => False
    end ∧
    compile_parsed e target = Ok compiled ∧ admin_survives (cd_rules compiled) = true ∧
    (∃ r, head (cd_recovery compiled) = Some r ∧ cf_config_hash r = dt_config_hash t) ∧
    canonical_credentials
      (filter (λ s, existsb (λ r, String.eqb (repl_signer_id r) (signer_id s))
                      (declared_replacement <$> rset_signers rs) = true) (doc_signers source))
      = Ok (dt_replaced t) ∧
    dt_canonical t = cd_canonical compiled ∧ dt_doc_hash t = cd_doc_hash compiled ∧
    dt_fingerprints t = cd_fingerprints compiled.
Proof.
  unfold derive_target. intros (act & Hact & E)%rbind_Ok.
  apply rbind_Ok in E as (source & Hs & E). apply rbind_Ok in E as (current & Hc & E).
  apply rbind_Ok in E as (rot & Hrot & E). apply rbind_Ok in E as (target & Ht%map_err_Ok & E).
  apply rbind_Ok in E as (compiled & Hcp & E). apply rbind_Ok in E as (? & Ha%refuse_if_Ok & E).
  apply rbind_Ok in E as (h & Hh%ok_or_Ok & E). apply rbind_Ok in E as (replaced & Hrp & [= <-]).
  exists act, source, current, rot, target, compiled. apply negb_false_iff in Ha.
  apply fmap_Some in Hh as (r & Hr & ->). simpl. split_and!; eauto.
  by destruct action; simplify_eq.
Qed.

Lemma compile_canonical e doc c :
  compile_parsed e doc = Ok c → cv_ok (doc_to_cv doc) = true →
  compile_doc e (cd_canonical c) = Ok c.
Proof.
  intros Hc Hok. apply compile_doc_Ok. exists doc. split; [|done].
  pose proof (proj1 (compile_parsed_Ok _ _ _) Hc)
    as (? & ? & ? & Hwf & _ & _ & _ & _ & _ & _ & _ & _ & _ & -> & _).
  apply parse_Ok. split; [by apply utf8_canonical|]. apply from_json_canonical; [done|].
  apply Hwf.
Qed.

Lemma derived_target_compiled e sj cj action rs t :
  derive_target e sj cj action rs = Ok t →
  ∃ c, compile_doc e (dt_canonical t) = Ok c ∧ cd_canonical c = dt_canonical t ∧
    cd_doc_hash c = dt_doc_hash t ∧ cd_fingerprints c = dt_fingerprints t ∧
    admin_survives (cd_rules c) = true ∧
    ∃ r, head (cd_recovery c) = Some r ∧ cf_config_hash r = dt_config_hash t.
Proof.
  intros (act & source & current & rot & target & c & [_ Hs]%parse_Ok & [_ Hc]%parse_Ok & Ht & Hrot
    & _ & Hcp & Ha & Hr & _ & Hcan & Hh & Hf)%derive_target_Ok.
  exists c. rewrite Hcan, Hh, Hf. split_and!; try done. eapply compile_canonical; [done|].
  apply from_json_ok in Hs as [Hs _], Hc as [Hc _]. eapply derived_cv_ok; [exact Ht| | |done|done].
  - intros r (q & -> & _)%list_elem_of_fmap. apply declared_ok.
  - by eapply zk_rotation_ok.
Qed.
End facts.

Section claims.
Context {H : Host} {HC : HexCodec} {JL : JsonLexer} {CL : CompilerLibs} {VF : Verifiers}.
Context {LS : LexerStrings}.

(** A document's hash is its identity: under a collision-free hash, whatever
    bytes two documents were submitted as, if they compile on one network to
    the same [doc_hash] then everything compiled is the same: canonical bytes,
    fingerprints, rules and recovery configuration. *)
Theorem hash_identifies_document
    (collision_free : ∀ x y : bytes, sha256 x = sha256 y → x = y) e e' j j' c c' :
  network_id e = network_id e' →
  compile_doc e j = Ok c → compile_doc e' j' = Ok c' → cd_doc_hash c = cd_doc_hash c' → c = c'.
Proof. by apply compile_doc_determined. Qed.

(** C19: A derived target is what an account will apply: when [derive_target]
    returns, the canonical bytes it returns parse, validate and compile, to
    the [doc_hash], [config_hash] and fingerprints it returned, and keep an
    administrator, so a completion that submits those bytes is not refused for
    any of them. *)
Theorem derived_target_applies {HE : HexEncode} e sj cj action rs t :
  derive_target e sj cj action rs = Ok t →
  ∃ c, compile_doc e (dt_canonical t) = Ok c ∧ cd_canonical c = dt_canonical t ∧
    cd_doc_hash c = dt_doc_hash t ∧ cd_fingerprints c = dt_fingerprints t ∧
    admin_survives (cd_rules c) = true ∧
    ∃ r, head (cd_recovery c) = Some r ∧ cf_config_hash r = dt_config_hash t.
Proof. apply derived_target_compiled. Qed.
End claims.
