(* ===== verification/CompilerTotal.v ===== *)
(** * perch-doc-compiler: no document traps it

    Every refusal of the compiler is a typed error: on any parsed document it
    returns a compiled document or a [DocCompilerError], unless the document
    holds an address that passed validation and that the host does not decode.
    Every other trap of the code (symbols, hex digits by index, stack and
    ledger arithmetic) is shown out of reach of a validated document. *)

From S2P Require Import Prelude Host Program Doc Canon Parse Validate Compile RecoveryIface CompilerIface DocCompiler.
#[local] Open Scope list_scope.

(** ** Computations that do not trap *)

Definition safe {E A} (c : result E A) : Prop := c ≠ Panic.

Section safe.
Context {E : Type}.

Lemma safe_bind {A B} (c : result E A) (k : A → result E B) :
  safe c → (∀ a, c = Ok a → safe (k a)) → safe (rbind c k).
Proof. unfold safe. destruct c; simpl; auto. Qed.
Lemma safe_Ok {A} (a : A) : safe (E:=E) (Ok a).
Proof. done. Qed.
Lemma safe_Err {A} (e : E) : safe (A:=A) (Err e).
Proof. done. Qed.
Lemma safe_ok_or {A} (o : option A) (e : E) : safe (ok_or o e).
Proof. by destruct o. Qed.
Lemma safe_refuse b (e : E) : safe (refuse_if b e).
Proof. by destruct b. Qed.
Lemma safe_map_err {F A} (f : E → F) (c : result E A) : safe c → safe (map_err f c).
Proof. by destruct c. Qed.
Lemma safe_or_panic {A} (o : option A) : is_Some o → safe (E:=E) (or_panic o).
Proof. by intros [x ->]. Qed.
Lemma safe_mapM {A B} (f : A → result E B) l :
  (∀ x, x ∈ l → safe (f x)) → safe (mapM_result f l).
Proof.
  induction l as [|x l IH]; intros Hf; simpl; [done|]. apply safe_bind; [apply Hf; left|].
  intros y _. apply safe_bind; [apply IH; intros z Hz; apply Hf; by right|done].
Qed.
End safe.

#[export] Hint Resolve safe_Ok safe_Err safe_ok_or safe_refuse safe_map_err : safe.
Ltac safely := repeat (first [progress eauto with safe | apply safe_bind; [|intros]]).

(** ** Programs and rules *)

(** A Soroban symbol: up to 32 letters, digits and underscores. *)
Definition symbol_alphabet : list ascii :=
  list_ascii_of_string "abcdefghijklmnopqrstuvwxyzABCDEFGHIJKLMNOPQRSTUVWXYZ0123456789_".

Class SymbolText `{H : Host} : Prop :=
  makes_symbols s : (1 ≤ String.length s ≤ 32)%nat →
    Forall (.∈ symbol_alphabet) (list_ascii_of_string s) → is_Some (symbol_new s).

Lemma symbol_byte c :
  let b := N_of_ascii c in
  (in_range 97 122 b || in_range 65 90 b || in_range 48 57 b || (b =? 95)%N) = true →
  c ∈ symbol_alphabet.
Proof.
  intros b Hb. apply (bool_decide_unpack _). subst b. revert Hb.
  destruct c as [[] [] [] [] [] [] [] []]; vm_compute; done.
Qed.

Lemma valid_symbol_text s :
  is_valid_symbol s = true →
  (1 ≤ String.length s ≤ 32)%nat ∧ Forall (.∈ symbol_alphabet) (list_ascii_of_string s).
Proof.
  unfold is_valid_symbol. rewrite !andb_true_iff, !Nat.leb_le. intros [[Hl Hu] Ha].
  split; [done|]. clear Hl Hu. induction s as [|c s IH]; [constructor|].
  cbn [all_bytes] in Ha. apply andb_true_iff in Ha as [Hc Ha].
  constructor; [by apply symbol_byte|by apply IH].
Qed.

(** ** The addresses of a document *)

Definition signer_address (s : SignerDecl) : string :=
  match signer_method s with External verifier _ => verifier | Delegated address => address end.
Definition pred_addresses (c : ArgConstraint) : list string :=
  match arg_pred c with AddressEq a => [a] | _ => [] end.
Definition rule_addresses (r : Rule) : list string :=
  match rule_scope r with Scope_Contract a => [a] | Scope_SelfAdmin => [] end ++
  (default [] (rule_args r) ≫= pred_addresses).
Definition zk_addresses (z : ZkFactor) : list string := [adapter z; pool z].
Definition recovery_addresses (r : RecoveryConfig) : list string :=
  controller r ::
  match mode r with
  | GuardianOnly g => Doc.guardians g
  | ZkOnly z => zk_addresses z
  | Combined g z => Doc.guardians g ++ zk_addresses z
  end.
Definition doc_addresses (d : PolicyDoc) : list string :=
  (signer_address <$> doc_signers d) ++ (doc_rules d ≫= rule_addresses) ++
  match doc_recovery d with Some r => recovery_addresses r | None => [] end.

Lemma contract_is_address s : is_contract_address_shape s = true → is_address_shape s = true.
Proof.
  unfold is_contract_address_shape, is_address_shape, is_strkey_shape.
  rewrite !andb_true_iff. intros [[[? Hc] ?] ?]. split_and!; [done| |done..].
  destruct s; [done|]. rewrite contains_true in *. set_solver.
Qed.

Section documents.
Context {H : Host} {HC : HexCodec} {CL : CompilerLibs} {VF : Verifiers} {SY : SymbolText}.

(** Validation checks the shape of every address. *)
Lemma doc_addresses_shaped d s :
  wf_doc d → s ∈ doc_addresses d → is_address_shape s = true.
Proof.
  intros (_ & Hws & _ & _ & Hwr & _ & Hrec) Hs. rewrite Forall_forall in Hws. rewrite Forall_forall in Hwr.
  unfold doc_addresses in Hs. rewrite !elem_of_app in Hs. destruct Hs as [Hs|[Hs|Hs]].
  - apply list_elem_of_fmap in Hs as (d' & -> & Hd). destruct (Hws d' Hd) as [_ Hm].
    unfold signer_address. destruct (signer_method d'); [by apply contract_is_address, Hm|done].
  - apply list_elem_of_bind in Hs as (r & Hs & Hr). destruct (Hwr r Hr) as (_ & Hsc & _ & _ & Ha & _).
    unfold rule_addresses in Hs. apply elem_of_app in Hs as [Hs|Hs].
    + destruct (rule_scope r) as [a|]; [|by apply elem_of_nil in Hs].
      apply list_elem_of_singleton in Hs as ->. by apply contract_is_address, Hsc.
    + apply list_elem_of_bind in Hs as (c & Hs & Hc).
      destruct (rule_args r) as [args|]; [|by apply elem_of_nil in Hc].
      destruct (Ha args eq_refl) as (_ & _ & Hp). rewrite Forall_forall in Hp.
      specialize (Hp c Hc). unfold pred_addresses in Hs.
      destruct (arg_pred c); try (by apply elem_of_nil in Hs).
      by apply list_elem_of_singleton in Hs as ->.
  - destruct (doc_recovery d) as [r|]; [|by apply elem_of_nil in Hs].
    destruct (Hrec r eq_refl) as [(_ & _ & _ & _ & Hc & _ & Hm) _].
    unfold recovery_addresses in Hs. apply elem_of_cons in Hs as [->|Hs];
      [by apply contract_is_address|].
    assert (Hg : ∀ g, wf_guardian_set g → s ∈ Doc.guardians g → is_address_shape s = true).
    { intros g (_ & _ & Hg & _) Hin. rewrite Forall_forall in Hg. by apply Hg. }
    assert (Hz : ∀ z, wf_zk_factor z → s ∈ zk_addresses z → is_address_shape s = true).
    { intros z (Hza & _ & Hzp & _) Hin. unfold zk_addresses in Hin.
      repeat (apply elem_of_cons in Hin as [->|Hin]; [by apply contract_is_address|]).
      by apply elem_of_nil in Hin. }
    destruct (mode r) as [g|z|g z]; simpl in Hm; [exact (Hg g Hm Hs)|exact (Hz z Hm Hs)|].
    destruct Hm as [Hmg Hmz].
    apply elem_of_app in Hs as [Hs|Hs]; [exact (Hg g Hmg Hs)|exact (Hz z Hmz Hs)].
Qed.

Definition decodes (l : list string) : Prop := ∀ s, s ∈ l → is_Some (address_from_str s).

Lemma pops_safe op : safe (pops op).
Proof. unfold pops. destruct op; try case_match; safely. Qed.

Lemma validate_loop_safe l : ∀ depth,
  (depth ≤ MAX_STACK_DEPTH)%N → safe (validate_loop l depth).
Proof.
  induction l as [|op l IH]; intros depth Hd; cbn [validate_loop]; [done|].
  apply safe_bind; [apply pops_safe|]. intros p _.
  destruct (N.ltb_spec depth p); [done|]. unfold u_sub. destruct (N.ltb_spec depth p); [lia|].
  cbn [rbind]. unfold MAX_STACK_DEPTH in *. apply safe_bind.
  - unfold u32_add, U32_MAX.
    match goal with |- context [if ?b then _ else _] => destruct b eqn:Hb end; [done|].
    apply N.leb_gt in Hb. lia.
  - intros d _. destruct (N.ltb_spec 128 d); [done|]. by apply IH.
Qed.

Lemma program_validate_safe p : safe (Program.validate p).
Proof.
  unfold Program.validate. repeat (case_match; try done). apply safe_bind.
  - apply validate_loop_safe. unfold MAX_STACK_DEPTH. lia.
  - intros d _. by case_match.
Qed.

Lemma build_program_safe declared rule m :
  wf_rule declared rule → decodes (rule_addresses rule) → safe (build_program rule m).
Proof.
  intros (_ & _ & Hf & _) Hd. unfold build_program. apply safe_bind.
  { destruct (rule_functions rule) as [fs|]; [|done]. destruct (Hf fs eq_refl) as (_ & _ & Hs).
    rewrite Forall_forall in Hs. apply safe_bind; [|done].
    apply safe_mapM. intros f Hin. destruct (valid_symbol_text f (Hs f Hin)).
    by apply safe_or_panic, makes_symbols. }
  intros fn_op _. apply safe_bind.
  { destruct (rule_args rule) as [args|] eqn:Hargs; [|done].
    apply safe_mapM. intros c Hc. destruct (arg_pred c) eqn:Hp; cbn [lower_arg_pred]; try done.
    apply safe_bind; [|done]. apply safe_or_panic, Hd. unfold rule_addresses. rewrite Hargs.
    apply elem_of_app. right. apply list_elem_of_bind. exists c. split; [|done].
    unfold pred_addresses. rewrite Hp. left. }
  intros arg_ops _. cbv zeta.
  match goal with |- context [Program.validate ?p] => pose proof (program_validate_safe p) end.
  by destruct (Program.validate _).
Qed.

Lemma lower_rule_safe doc rule :
  wf_rule (declared_ids doc) rule → decodes (rule_addresses rule) → safe (lower_rule doc rule).
Proof.
  intros Hwf Hd. unfold lower_rule. apply safe_bind; [by destruct (rule_principals rule)|].
  intros [ids m] _. apply safe_bind.
  { apply safe_mapM. intros id _. apply safe_bind; [apply safe_ok_or|done]. }
  intros specs _. apply safe_bind.
  { unfold lower_cap. destruct (rule_cap rule); [|done]. apply safe_bind; [apply safe_ok_or|done]. }
  intros cap _. apply safe_bind.
  { case_match; [done|]. apply safe_bind; [by eapply build_program_safe|done]. }
  intros install _. apply safe_bind; [|done].
  destruct Hwf as (_ & _ & _ & _ & Hn & _).
  destruct (rule_not_after_ledger rule) as [x|]; [|done]. unfold u_sub.
  destruct (N.ltb_spec x 1); [|done]. destruct Hn. f_equal. lia.
Qed.

Lemma decodes_rule doc rule :
  decodes (doc_addresses doc) → rule ∈ doc_rules doc → decodes (rule_addresses rule).
Proof.
  intros Hd Hr s Hs. apply Hd. unfold doc_addresses. rewrite !elem_of_app. right; left.
  apply list_elem_of_bind. eauto.
Qed.
Lemma decodes_signer doc s :
  decodes (doc_addresses doc) → s ∈ doc_signers doc → is_Some (address_from_str (signer_address s)).
Proof.
  intros Hd Hs. apply Hd. unfold doc_addresses. rewrite !elem_of_app. left.
  by apply list_elem_of_fmap_2.
Qed.

Lemma compile_safe doc : wf_doc doc → decodes (doc_addresses doc) → safe (compile doc (zeros 32)).
Proof.
  intros (_ & _ & _ & _ & Hr & _) Hd. unfold compile. apply safe_bind; [|done].
  apply safe_mapM. intros r Hin. rewrite Forall_forall in Hr.
  apply lower_rule_safe; [apply Hr, Hin|by eapply decodes_rule].
Qed.

(** ** The wire types *)

Lemma hex_pairs_safe n : ∀ s, (String.length s ≤ n)%nat → Nat.odd (String.length s) = false →
  safe (hex_pairs s).
Proof.
  induction n as [|n IH]; intros [|a [|b s]] Hn Ho; try done; cbn [hex_pairs String.length] in *; [lia|].
  unfold nib. repeat (apply safe_bind; [by repeat case_match|intros ? _]).
  apply safe_bind; [|done]. apply IH; [lia|done].
Qed.

Lemma hex_bytes_safe s : safe (hex_bytes s).
Proof.
  unfold hex_bytes. apply safe_bind; [apply safe_refuse|]. intros u Hu%refuse_if_Ok.
  by apply (hex_pairs_safe (String.length s)).
Qed.
Lemma hex_bytes_32_safe s : safe (hex_bytes_32 s).
Proof.
  unfold hex_bytes_32. apply safe_bind; [apply safe_refuse|].
  intros u Hu%refuse_if_Ok%negb_false_iff%Nat.eqb_eq.
  apply (hex_pairs_safe (String.length s)); [done|]. by rewrite Hu.
Qed.

Lemma signer_safe s :
  is_Some (address_from_str (signer_address s)) →
  safe (to_compiled_signer (lower_method (signer_method s))).
Proof.
  unfold signer_address. destruct (signer_method s) as [v k|a]; simpl; intros Ha.
  - apply safe_bind; [by apply safe_or_panic|]. intros ? _.
    apply safe_bind; [apply hex_bytes_safe|done].
  - apply safe_bind; [by apply safe_or_panic|done].
Qed.

Lemma to_compiled_safe doc rule lr :
  decodes (doc_addresses doc) → rule ∈ doc_rules doc → lower_rule doc rule = Ok lr →
  safe (to_compiled lr).
Proof.
  intros Hd Hrule. unfold lower_rule. intros ([ids m] & _ & E)%rbind_Ok.
  apply rbind_Ok in E as (specs & Hspecs%mapM_result_Ok & E). apply rbind_Ok in E as (cap & _ & E).
  apply rbind_Ok in E as (install & _ & E). apply rbind_Ok in E as (until & _ & [= <-]).
  unfold to_compiled. cbn [lr_scope lr_signers]. apply safe_bind.
  { pose proof (decodes_rule doc rule Hd Hrule) as Hr. unfold rule_addresses in Hr.
    destruct (rule_scope rule) as [a|]; simpl in *; [|done].
    apply safe_bind; [apply safe_or_panic, Hr; left|done]. }
  intros scope _. apply safe_bind; [|done]. apply safe_mapM. intros spec Hs.
  apply list_elem_of_lookup in Hs as [i Hs].
  destruct (Forall2_lookup_r _ _ _ _ _ Hspecs Hs) as (id & _ & Hid).
  apply rbind_Ok in Hid as (decl & Hf%ok_or_Ok & [= <-]).
  apply find_first_Some in Hf as [Hin _]. by eapply signer_safe, decodes_signer.
Qed.

Lemma guardians_safe g : decodes (Doc.guardians g) → safe (to_compiled_guardian_set g).
Proof.
  intros Hg. apply safe_bind; [|done]. apply safe_mapM. intros a Ha. by apply safe_or_panic, Hg.
Qed.
Lemma zk_safe z : decodes (zk_addresses z) → safe (to_compiled_zk z).
Proof.
  intros Hz. unfold to_compiled_zk.
  apply safe_bind; [apply safe_or_panic, Hz; left|]. intros ? _.
  apply safe_bind; [apply hex_bytes_32_safe|]. intros ? _.
  apply safe_bind; [apply safe_or_panic, Hz; right; left|]. intros ? _.
  do 2 (apply safe_bind; [apply hex_bytes_32_safe|]; intros ? _). done.
Qed.
Lemma recovery_safe r : decodes (recovery_addresses r) → safe (to_compiled_recovery r).
Proof.
  unfold recovery_addresses, to_compiled_recovery. intros Hr.
  assert (Hc : is_Some (address_from_str (controller r))) by (apply Hr; left).
  apply safe_bind.
  { destruct (mode r) as [g|z|g z]; cbn [to_compiled_mode].
    - apply safe_bind; [|done]. apply guardians_safe. intros s Hs. apply Hr. by right.
    - apply safe_bind; [|done]. apply zk_safe. intros s Hs. apply Hr. by right.
    - apply safe_bind; [apply guardians_safe; intros s Hs; apply Hr; set_solver|]. intros ? _.
      apply safe_bind; [|done]. apply zk_safe. intros s Hs. apply Hr. set_solver. }
  intros m _. apply safe_bind.
  { destruct (baseline r); [|done]. apply safe_bind; [apply hex_bytes_32_safe|done]. }
  intros b _. apply safe_bind; [by apply safe_or_panic|done].
Qed.

Lemma batch_keys_safe l :
  (∀ s, s ∈ l → is_Some (address_from_str (signer_address s))) → ∀ m, safe (batch_keys l m).
Proof.
  induction l as [|s l IH]; intros Hw m; cbn [batch_keys]; [done|].
  pose proof (Hw s ltac:(left)) as Hs. unfold signer_address in Hs.
  assert (Hl : ∀ t, t ∈ l → is_Some (address_from_str (signer_address t)))
    by (intros t Ht; apply Hw; by right).
  destruct (signer_method s) as [v k|a].
  - apply safe_bind; [by apply safe_or_panic|]. intros ? _. cbv zeta.
    apply safe_bind; [apply hex_bytes_safe|]. intros ? _.
    apply safe_bind; [by apply IH|]. by intros [] _.
  - apply safe_bind; [by apply safe_or_panic|]. intros ? _.
    apply safe_bind; [by apply IH|]. by intros [] _.
Qed.

Lemma credentials_safe l :
  (∀ s, s ∈ l → is_Some (address_from_str (signer_address s))) → safe (canonical_credentials l).
Proof.
  intros Hw. unfold canonical_credentials. apply safe_bind; [by apply batch_keys_safe|].
  intros [batches slots] _. apply safe_bind.
  { apply safe_mapM. intros [v b] _. unfold canonical_batch.
    apply safe_bind; [apply safe_ok_or|]. intros ? _.
    do 2 (apply safe_bind; [apply safe_refuse|]; intros ? _). done. }
  intros canonical _. apply safe_mapM. intros [a [i|]] _; cbn [slot_credential]; [|done].
  apply safe_bind; [apply safe_ok_or|done].
Qed.

Lemma fingerprint_safe c : safe (credential_fingerprint c).
Proof.
  unfold credential_fingerprint, credential_encode. apply safe_bind; [|done].
  destruct c; (apply safe_bind; [apply safe_ok_or|done]).
Qed.

(** Only a validated document whose addresses the host refuses traps. *)
Lemma compile_parsed_safe e doc :
  (wf_doc doc → decodes (doc_addresses doc)) → safe (compile_parsed e doc).
Proof.
  intros Hdec. unfold compile_parsed. apply safe_bind.
  { apply safe_map_err. unfold Validate.validate. by case_bool_decide. }
  intros u Hv%map_err_Ok. destruct u. apply validate_Ok in Hv. specialize (Hdec Hv).
  apply safe_bind; [apply safe_ok_or|]. intros net _.
  do 2 (apply safe_bind; [apply safe_refuse|]; intros ? _).
  apply safe_bind; [by apply safe_map_err, compile_safe|]. intros plan Hp%map_err_Ok.
  apply safe_bind.
  { apply safe_mapM. intros lr Hlr.
    apply rbind_Ok in Hp as (lrs & Hl%mapM_result_Ok & [= <-]). simpl in Hlr.
    apply list_elem_of_lookup in Hlr as [i Hlr].
    destruct (Forall2_lookup_r _ _ _ _ _ Hl Hlr) as (rule & Hr & Hlow).
    apply list_elem_of_lookup_2 in Hr. by eapply to_compiled_safe. }
  intros rules _. apply safe_bind; [apply safe_refuse|]. intros ? _. apply safe_bind.
  { destruct (doc_recovery doc) as [r|] eqn:Hr; [|done]. apply safe_bind; [|done].
    apply recovery_safe. intros s Hs. apply Hdec. unfold doc_addresses. rewrite Hr. set_solver. }
  intros rc _. apply safe_bind.
  { apply credentials_safe. intros s Hs. by eapply decodes_signer. }
  intros creds _.
  apply safe_bind; [|done]. apply safe_mapM. intros c _. apply safe_map_err, fingerprint_safe.
Qed.
End documents.

(** C20: No document traps the compiler but for one flaw: compiling any parsed
    document returns a compiled document or a typed refusal, or else the
    document passed validation and holds an address of a valid shape that the
    host does not decode.  Nothing is assumed of the host's addresses; of its
    symbols, that it makes those of 1 to 32 letters, digits and underscores.
    (The flaw is real: see [strkey_version_byte_unchecked].) *)
Theorem compiler_refuses_with_errors `{H : Host} {HC : HexCodec} {CL : CompilerLibs}
    {VF : Verifiers} {SY : SymbolText} e doc :
  (∃ c, compile_parsed e doc = Ok c) ∨ (∃ err, compile_parsed e doc = Err err) ∨
  (Validate.validate doc = Ok tt ∧
   ∃ s, s ∈ doc_addresses doc ∧ is_address_shape s = true ∧ address_from_str s = None).
Proof.
  destruct (compile_parsed e doc) as [c|err|] eqn:Hc; [by left; eexists|by right; left; eexists|].
  right; right.
  destruct (Validate.validate doc) as [[]|errs|] eqn:Hv.
  2-3: exfalso; eapply (compile_parsed_safe e doc); [|exact Hc];
    intros Hw%validate_Ok; congruence.
  split; [done|].
  destruct (decide (Exists (λ s, address_from_str s = None) (doc_addresses doc))) as [Hx|Hno].
  - apply Exists_exists in Hx as (s & Hs & Hn). exists s. split_and!; [done| |done].
    by eapply doc_addresses_shaped; [apply validate_Ok|].
  - exfalso. eapply (compile_parsed_safe e doc); [|exact Hc]. intros _ s Hs.
    apply not_eq_None_Some. intros Hn. apply Hno, Exists_exists. eauto.
Qed.

(** ** The trap *)

Module CompilerTotalDemo.
#[local] Open Scope string_scope.

(** A host that decodes strkeys by their version byte, as the SDK does: 16 for
    a contract, 48 for an account. *)
Definition StrictHost : Host := {|
  Address := string;
  address_from_str s :=
    match base32_loop s 0 0 [] with
    | Some (v :: _) => if (v =? 16)%N || (v =? 48)%N then Some s else None
    | _ => None
    end;
  address_to_xdr s := CONTRACT_HEADER +:+ substring 0 32 s;
  symbol_new s := Some s;
  Val := unit;
  val_address _ := None; val_symbol _ := None; val_string _ := None; val_bytes _ := None;
  val_u32 _ := None; val_i128 _ := None;
  sha256 s := s;
|}.
#[local] Existing Instance StrictHost.
#[local] Existing Instance DemoHex.
#[local] Instance StrictLibs : CompilerLibs := {|
  hex_encode b := b; address_to_string a := a; MAX_NAME_SIZE := 20; MAX_SIGNERS := 15 |}.
#[local] Instance StrictVerifiers : Verifiers := λ _ keys, Some keys.
#[local] Instance strict_symbols : SymbolText.
Proof. intros s _ _. by eexists. Qed.

Definition scoped_to (contract : string) : PolicyDoc := {|
  doc_version := 1; doc_network := Some "testnet";
  doc_signers := [{| signer_id := "owner"; signer_method := Delegated CompileDemo.alice_key |}];
  doc_rules := [{| rule_name := "pay"; rule_scope := Scope_Contract contract;
                   rule_principals := Principals_All ["owner"];
                   rule_functions := Some ["transfer"]; rule_args := None;
                   rule_not_after_ledger := None; rule_cap := None |}];
  doc_recovery := None |}.

Definition here : Env := {|
  sequence := 10; network_id := "testnet"; current_contract_address := "";
  authorized _ := true; authorized_for_args _ _ := true;
  max_ttl := 1000; min_persistent_ttl := 10; min_temp_ttl := 10 |}.

(** The version byte of this address is 17. *)
Definition wrong_version : string := "CEAACAQDAQCQMBYIBEFAWDANBYHRAEISCMKBKFQXDAMRUGY4DUPB72YD".

(** A rule for the token compiles; one for the other address traps, although
    the document validates. *)
Example token_compiles : is_ok (compile_parsed here (scoped_to CompileDemo.token)) = true.
Proof. vm_compute. reflexivity. Qed.
Lemma wrong_version_traps : compile_parsed here (scoped_to wrong_version) = Panic.
Proof. vm_compute. reflexivity. Qed.

Lemma compiler_refuses_with_errors_witness :
  Validate.validate (scoped_to wrong_version) = Ok tt ∧
  ∃ s, s ∈ doc_addresses (scoped_to wrong_version) ∧ is_address_shape s = true ∧
    address_from_str s = None.
Proof.
  destruct (compiler_refuses_with_errors here (scoped_to wrong_version)) as [[c Hc]|[[err He]|Ht]].
  - rewrite wrong_version_traps in Hc. discriminate.
  - rewrite wrong_version_traps in He. discriminate.
  - exact Ht.
Defined.
End CompilerTotalDemo.
