(* ===== verification/Rules.v ===== *)
(** * perch-smart-account: rule-set reconciliation

    Models [crates/perch-smart-account/src/rules.rs]: the records the account
    keeps of its installed context rules, the rules a compiled document asks
    for, and the reconciliation that turns one into the other through
    OpenZeppelin's quiet mutation functions, each changed rule edited in
    place or replaced, whichever the cost model prices lower.

    The trait [Effects] is a class with the source's two implementations:
    [Meter] prices the operations, [Apply] performs them.  OpenZeppelin's
    [smart_account] library and the policies it calls are not part of this
    repository: they are the class [OZ], a state and the functions the account
    calls, [None] being a trap.  The addresses an account pins at build time
    are the class [Infra], the conversions to host values [Values].

    Counters ([DeltaSummary], [Cost], [Refs]) are naturals: each is bounded by
    a few times the number of rules, signers and policies of two rule sets
    held in memory, far below the width of [u32]. *)

From S2P Require Import Prelude Host Program RecoveryIface CompilerIface.
#[local] Open Scope string_scope.
#[local] Open Scope list_scope.

(** ** What the account calls *)

(** [infra::<name>::address(e)]: derived from build-time pins. *)
Class Infra `{H : Host} : Type := {
  perch_doc_compiler : Env → Address;
  perch_interpreter : Env → Address;
  perch_spending_limit : Env → Address;
}.

(** OpenZeppelin's [SpendingLimitAccountParams]. *)
Record SpendingLimitAccountParams : Type := {
  sp_spending_limit : Z;
  sp_period_ledgers : N;
}.

(** [IntoVal] of the install parameters, and the serialization of a host
    value ([ToXdr] converts to a [Val] and serializes it). *)
Class Values `{H : Host} : Type := {
  install_into_val : InstallParams → Val;
  cap_into_val : SpendingLimitAccountParams → Val;
  hash_into_val : bytes → Val;
  val_to_xdr : Val → bytes;
}.

(** [stellar_accounts::smart_account]: its storage inside the account together
    with the state of the policies it installs. *)
Class OZ `{H : Host} : Type := {
  OzState : Type;
  MAX_POLICIES : nat;
  oz_get_context_rule : OzState → N → option ContextRule;
  reconcile_signers_no_events : Env → N → list Signer → OzState → option OzState;
  add_policy_no_events : Env → N → Address → Val → OzState → option OzState;
  remove_policy_no_events : Env → N → N → OzState → option OzState;
  update_context_rule_valid_until_no_events :
    Env → N → option N → OzState → option OzState;
  remove_context_rule_no_events : Env → N → OzState → option OzState;
  (** Returns the new rule's id. *)
  add_context_rule_no_events : Env → ContextRuleType → string → option N →
    list Signer → gmap Address Val → OzState → option (N * OzState);
}.

(** ** The records *)

Section records.
Context {H : Host}.

Record InstalledPolicy : Type := {
  ip_policy : Address;
  ip_params : bytes;
}.

Global Instance InstalledPolicy_eq_dec : EqDecision InstalledPolicy.
Proof. solve_decision. Defined.

Record InstalledRule : Type := {
  ir_id : N;
  ir_recovery : bool;
  ir_name : string;
  ir_context_type : ContextRuleType;
  ir_valid_until : option N;
  ir_signers : list Signer;
  ir_policies : list InstalledPolicy;
}.

Global Instance InstalledRule_eq_dec : EqDecision InstalledRule.
Proof. solve_decision. Defined.

Definition same_slot (self other : InstalledRule) : bool :=
  eqb (ir_recovery self) (ir_recovery other)
  && (ir_recovery self || String.eqb (ir_name self) (ir_name other))
  && bool_decide (ir_context_type self = ir_context_type other).

Definition with_id (self : InstalledRule) (id : N) : InstalledRule := {|
  ir_id := id; ir_recovery := ir_recovery self; ir_name := ir_name self;
  ir_context_type := ir_context_type self; ir_valid_until := ir_valid_until self;
  ir_signers := ir_signers self; ir_policies := ir_policies self |}.
End records.

Record DeltaSummary : Type := {
  rules_added : N;
  rules_removed : N;
  rules_edited : N;
  signers_added : N;
  signers_removed : N;
  policies_added : N;
  policies_removed : N;
}.

Definition DeltaSummary_default : DeltaSummary := {|
  rules_added := 0; rules_removed := 0; rules_edited := 0; signers_added := 0;
  signers_removed := 0; policies_added := 0; policies_removed := 0 |}.

(** ** The rules a document asks for *)

Section desired.
Context {H : Host} {I : Infra} {V : Values} (e : Env).

Definition admin_rule (id : N) (signers : list Signer) : InstalledRule := {|
  ir_id := id; ir_recovery := false; ir_name := "admin";
  ir_context_type := ContextRuleType_CallContract (current_contract_address e);
  ir_valid_until := None; ir_signers := signers; ir_policies := [] |}.

Definition expired (valid_until : option N) : bool :=
  match valid_until with Some v => (v <? sequence e)%N | None => false end.

(** [digest(e, params.to_xdr(e))], on the converted parameters. *)
Definition params_digest (v : Val) : bytes := sha256 (val_to_xdr v).

Definition document_rule (rule : CompiledRule) : InstalledRule * list Val :=
  let context_type :=
    match cr_scope rule with
    | RuleScope_SelfAdmin => ContextRuleType_CallContract (current_contract_address e)
    | RuleScope_Contract addr => ContextRuleType_CallContract addr
    end in
  let '(policies, params) :=
    match cr_install rule with
    | install :: _ =>
        let v := install_into_val install in
        ([{| ip_policy := perch_interpreter e; ip_params := params_digest v |}], [v])
    | [] => ([], [])
    end in
  let '(policies, params) :=
    match cr_cap rule with
    | cap :: _ =>
        let v := cap_into_val {| sp_spending_limit := spending_limit cap;
                                 sp_period_ledgers := period_ledgers cap |} in
        (policies ++ [{| ip_policy := perch_spending_limit e;
                         ip_params := params_digest v |}], params ++ [v])
    | [] => (policies, params)
    end in
  ({| ir_id := 0; ir_recovery := false; ir_name := cr_name rule;
      ir_context_type := context_type; ir_valid_until := cr_valid_until rule;
      ir_signers := cr_signers rule; ir_policies := policies |}, params).

Definition recovery_rule (recovery : CompiledRecoveryConfig) : InstalledRule * list Val :=
  let v := hash_into_val (cf_config_hash recovery) in
  ({| ir_id := 0; ir_recovery := true; ir_name := "recovery";
      ir_context_type := ContextRuleType_CallContract (current_contract_address e);
      ir_valid_until := None; ir_signers := [];
      ir_policies := [{| ip_policy := cf_controller recovery;
                         ip_params := params_digest v |}] |}, [v]).

Definition desired (compiled : CompiledDoc) : list InstalledRule * list (list Val) :=
  let kept := filter (λ rp, expired (ir_valid_until rp.1) = false)
                (document_rule <$> cd_rules compiled) in
  let all := kept ++ match cd_recovery compiled with
                     | recovery :: _ => [recovery_rule recovery]
                     | [] => []
                     end in
  (all.*1, all.*2).
End desired.

(** ** Costs, plans and modes *)

Inductive Mode : Type := Mode_Cheapest | Mode_InPlace | Mode_Replace | Mode_FullReplace.

Record Cost : Type := { cost_events : N; cost_writes : N }.
Definition Cost_default : Cost := {| cost_events := 0; cost_writes := 0 |}.

(** The derived order: lexicographic in field order. *)
Definition cost_le (a b : Cost) : bool :=
  (cost_events a <? cost_events b)%N
  || ((cost_events a =? cost_events b) && (cost_writes a <=? cost_writes b))%N.

Inductive Step : Type := Step_Keep | Step_Remove | Step_Add | Step_InPlace | Step_Replace.

Section rules.
Context {H : Host} {I : Infra} {V : Values} {Oz : OZ}.

Record PlannedRule : Type := {
  pr_name : string;
  pr_recovery : bool;
  pr_context_type : ContextRuleType;
  pr_step : Step;
  pr_cost : Cost;
  pr_editable : bool;
  pr_in_place : Cost;
  pr_replace : Cost;
}.

Record Hooks : Type := { hk_interpreter : Address; hk_spending_limit : Address }.

Record Refs : Type := {
  ref_signers : gmap Signer N;
  ref_policies : gmap Address N;
}.

Definition count_in {K} `{Countable K} (k : K) (m : gmap K N) : gmap K N :=
  <[k := (default 0 (m !! k) + 1)%N]> m.

Definition Refs_of (rules : list InstalledRule) : Refs := {|
  ref_signers := fold_left (λ m r, fold_left (λ m s, count_in s m) (ir_signers r) m) rules ∅;
  ref_policies :=
    fold_left (λ m r, fold_left (λ m p, count_in (ip_policy p) m) (ir_policies r) m) rules ∅ |}.

(** The elements of [from] that [other] lacks. *)
Definition missing (from other : list Signer) : list Signer :=
  filter (λ s, s ∉ other) from.

(** ** The operations reconciliation is made of *)

Class Effects (S : Type) : Type := {
  fx_reconcile_signers : InstalledRule → list Signer → S → option S;
  fx_add_policy : InstalledRule → Address → Val → S → option S;
  fx_remove_policy : InstalledRule → Address → S → option S;
  fx_set_valid_until : InstalledRule → option N → S → option S;
  fx_remove_rule : InstalledRule → S → option S;
  fx_add_rule : InstalledRule → list Val → S → option (N * S);
}.

(** [for x in l { .. }] over a body that may trap. *)
Fixpoint each {A S} (f : A → S → option S) (l : list A) (s : S) : option S :=
  match l with
  | [] => Some s
  | x :: l => s ← f x s; each f l s
  end.

(** ** [Meter] *)

Record Meter : Type := { mt_refs : Refs; mt_cost : Cost }.

Definition Meter_new (refs : Refs) : Meter := {| mt_refs := refs; mt_cost := Cost_default |}.

Definition charge (n : N) (m : Meter) : Meter := {|
  mt_refs := mt_refs m;
  mt_cost := {| cost_events := cost_events (mt_cost m);
                cost_writes := (cost_writes (mt_cost m) + n)%N |} |}.

Definition set_signer_refs (r : gmap Signer N) (m : Meter) : Meter := {|
  mt_refs := {| ref_signers := r; ref_policies := ref_policies (mt_refs m) |};
  mt_cost := mt_cost m |}.
Definition set_policy_refs (r : gmap Address N) (m : Meter) : Meter := {|
  mt_refs := {| ref_signers := ref_signers (mt_refs m); ref_policies := r |};
  mt_cost := mt_cost m |}.

Definition register_signer (signer : Signer) (m : Meter) : Meter :=
  let n := default 0%N (ref_signers (mt_refs m) !! signer) in
  let m := charge 1 m in
  let m := if (n =? 0)%N then charge 1 m else m in
  set_signer_refs (<[signer := (n + 1)%N]> (ref_signers (mt_refs m))) m.

Definition deregister_signer (signer : Signer) (m : Meter) : Meter :=
  let n := default 0%N (ref_signers (mt_refs m) !! signer) in
  let m := charge 1 m in
  if (n <=? 1)%N
  then set_signer_refs (delete signer (ref_signers (mt_refs m))) (charge 1 m)
  else set_signer_refs (<[signer := (n - 1)%N]> (ref_signers (mt_refs m))) m.

Definition register_policy (policy : Address) (m : Meter) : Meter :=
  let n := default 0%N (ref_policies (mt_refs m) !! policy) in
  let m := charge 1 m in
  let m := if (n =? 0)%N then charge 1 m else m in
  set_policy_refs (<[policy := (n + 1)%N]> (ref_policies (mt_refs m))) m.

Definition deregister_policy (policy : Address) (m : Meter) : Meter :=
  let n := default 0%N (ref_policies (mt_refs m) !! policy) in
  let m := charge 1 m in
  if (n <=? 1)%N
  then set_policy_refs (delete policy (ref_policies (mt_refs m))) (charge 1 m)
  else set_policy_refs (<[policy := (n - 1)%N]> (ref_policies (mt_refs m))) m.

Definition hook (hooks : Hooks) (policy : Address) (m : Meter) : Meter :=
  if bool_decide (policy = hk_spending_limit hooks)
     || bool_decide (policy = hk_interpreter hooks)
  then charge 1 m else m.

Definition sweep {A} (f : A → Meter → Meter) (l : list A) (m : Meter) : Meter :=
  fold_left (λ m x, f x m) l m.

Definition Meter_effects (hooks : Hooks) : Effects Meter := {|
  fx_reconcile_signers rule signers m := Some
    (sweep register_signer (missing signers (ir_signers rule))
      (sweep deregister_signer (missing (ir_signers rule) signers) (charge 1 m)));
  fx_add_policy _ policy _ m := Some (hook hooks policy (register_policy policy (charge 1 m)));
  fx_remove_policy _ policy m := Some (deregister_policy policy (hook hooks policy (charge 1 m)));
  fx_set_valid_until _ _ m := Some (charge 1 m);
  fx_remove_rule rule m := Some
    (charge 1 (sweep deregister_signer (ir_signers rule)
      (sweep (λ p m, deregister_policy (ip_policy p) (hook hooks (ip_policy p) m))
        (ir_policies rule) m)));
  fx_add_rule rule _ m := Some (0%N,
    charge 1 (sweep (λ p m, hook hooks (ip_policy p) (register_policy (ip_policy p) m))
      (ir_policies rule) (sweep register_signer (ir_signers rule) m))) |}.

(** ** [Apply] *)

Record Apply : Type := {
  ap_oz : OzState;
  ap_sum : DeltaSummary;
  ap_rule : option ContextRule;
}.

Definition with_oz (a : Apply) (oz : OzState) : Apply :=
  {| ap_oz := oz; ap_sum := ap_sum a; ap_rule := ap_rule a |}.

(** [self.sum.<field> += n] for each field. *)
Definition tally (ra rr re sa sr pa pr : N) (a : Apply) : Apply :=
  let s := ap_sum a in
  {| ap_oz := ap_oz a; ap_rule := ap_rule a;
     ap_sum := {| rules_added := rules_added s + ra; rules_removed := rules_removed s + rr;
                  rules_edited := rules_edited s + re; signers_added := signers_added s + sa;
                  signers_removed := signers_removed s + sr;
                  policies_added := policies_added s + pa;
                  policies_removed := policies_removed s + pr |}%N |}.

(** [Apply::oz]: the rule as read before the edit's first removal. *)
Definition apply_oz (id : N) (a : Apply) : option (ContextRule * Apply) :=
  let fresh :=
    rule ← oz_get_context_rule (ap_oz a) id;
    Some (rule, {| ap_oz := ap_oz a; ap_sum := ap_sum a; ap_rule := Some rule |}) in
  match ap_rule a with
  | Some rule => if (rule_id rule =? id)%N then Some (rule, a) else fresh
  | None => fresh
  end.

Fixpoint first_index_of {A} `{EqDecision A} (l : list A) (x : A) : option nat :=
  match l with
  | [] => None
  | y :: l => if decide (y = x) then Some 0 else S <$> first_index_of l x
  end.

(** [add_rule]'s map: each policy's address to the parameter at its index. *)
Fixpoint policy_params (ps : list InstalledPolicy) (params : list Val)
    (m : gmap Address Val) : option (gmap Address Val) :=
  match ps, params with
  | [], _ => Some m
  | p :: ps, v :: params => policy_params ps params (<[ip_policy p := v]> m)
  | _ :: _, [] => None
  end.

Definition Apply_effects (e : Env) : Effects Apply := {|
  fx_reconcile_signers rule signers a :=
    oz ← reconcile_signers_no_events e (ir_id rule) signers (ap_oz a);
    Some (tally 0 0 0 (N.of_nat (length (missing signers (ir_signers rule))))
      (N.of_nat (length (missing (ir_signers rule) signers))) 0 0 (with_oz a oz));
  fx_add_policy rule policy param a :=
    oz ← add_policy_no_events e (ir_id rule) policy param (ap_oz a);
    Some (tally 0 0 0 0 0 1 0 (with_oz a oz));
  fx_remove_policy rule policy a :=
    '(oz, a) ← apply_oz (ir_id rule) a;
    i ← first_index_of (rule_policies oz) policy;
    id ← rule_policy_ids oz !! i;
    oz ← remove_policy_no_events e (ir_id rule) id (ap_oz a);
    Some (tally 0 0 0 0 0 0 1 (with_oz a oz));
  fx_set_valid_until rule valid_until a :=
    oz ← update_context_rule_valid_until_no_events e (ir_id rule) valid_until (ap_oz a);
    Some (with_oz a oz);
  fx_remove_rule rule a :=
    oz ← remove_context_rule_no_events e (ir_id rule) (ap_oz a);
    Some (tally 0 1 0 0 0 0 0 (with_oz a oz));
  fx_add_rule rule params a :=
    policies ← policy_params (ir_policies rule) params ∅;
    '(id, oz) ← add_context_rule_no_events e (ir_context_type rule) (ir_name rule)
                  (ir_valid_until rule) (ir_signers rule) policies (ap_oz a);
    Some (id, tally 1 0 0 0 0 0 0 (with_oz a oz)) |}.

(** ** Editing and replacing a rule *)

Definition unchanged (c d : InstalledRule) : bool :=
  bool_decide (ir_signers c = ir_signers d)
  && forallb (λ p, contains (ir_policies d) p) (ir_policies c)
  && forallb (λ p, contains (ir_policies c) p) (ir_policies d)
  && bool_decide (ir_valid_until c = ir_valid_until d).

(** The policies of [c] that [d] lacks or installs with other parameters. *)
Definition to_remove (c d : InstalledRule) : list Address :=
  ip_policy <$> filter (λ p, p ∉ ir_policies d) (ir_policies c).

(** The policies of [d] that [c] lacks, with the parameter at their index in
    [d]'s policies. *)
Fixpoint to_add (c : InstalledRule) (ps : list InstalledPolicy) (params : list Val) (i : nat)
    : option (list (Address * Val)) :=
  match ps with
  | [] => Some []
  | p :: ps =>
      if contains (ir_policies c) p then to_add c ps params (S i) else
      v ← params !! i;
      rest ← to_add c ps params (S i);
      Some ((ip_policy p, v) :: rest)
  end.

Definition fresh_of (c : InstalledRule) (add : list (Address * Val)) : list (Address * Val) :=
  filter (λ pv, Forall (λ q, ip_policy q ≠ pv.1) (ir_policies c)) add.

Section edit.
Context {S : Type} (fx : Effects S).

Definition edit (c d : InstalledRule) (params : list Val) (s : S) : option (bool * S) :=
  let remove_signers := missing (ir_signers c) (ir_signers d) in
  let remove_policies := to_remove c d in
  add_policies ← to_add c (ir_policies d) params 0;
  let fresh := fresh_of c add_policies in
  let kept := (length (ir_signers c) - length remove_signers)
              + (length (ir_policies c) - length remove_policies) in
  let signers_change := negb (bool_decide (ir_signers c = ir_signers d)) in
  let swap s := if signers_change then fx_reconcile_signers c (ir_signers d) s else Some s in
  let removals s := each (fx_remove_policy c) remove_policies s in
  let additions l s := each (λ pv, fx_add_policy c pv.1 pv.2) l s in
  let finish r :=
    s ← r;
    s ← (if bool_decide (ir_valid_until c = ir_valid_until d) then Some s
         else fx_set_valid_until c (ir_valid_until d) s);
    Some (true, s) in
  if negb (is_empty (ir_signers d)) then
    finish (s ← swap s; s ← removals s; additions add_policies s)
  else if negb (is_empty (ir_signers c)) || (0 <? kept)%nat then
    finish (s ← removals s; s ← additions add_policies s; swap s)
  else if negb (is_empty fresh)
          && (length (ir_policies c) + length fresh <=? MAX_POLICIES)%nat then
    finish (s ← additions fresh s; s ← removals s;
            additions (filter (λ pv, pv.1 ∉ fresh.*1) add_policies) s)
  else Some (false, s).

Definition replace (c d : InstalledRule) (params : list Val) (s : S) : option (N * S) :=
  s ← fx_remove_rule c s;
  fx_add_rule d params s.
End edit.

(** ** The run *)

Record RunState : Type := {
  rs_refs : Refs;
  rs_apply : Apply;
  rs_planned : option (list PlannedRule);
}.

Definition record_step (r : InstalledRule) (step : Step) (cost : Cost)
    (in_place : option Cost) (replaced : Cost) (p : option (list PlannedRule))
    : option (list PlannedRule) :=
  match p with
  | None => None
  | Some planned => Some (planned ++
      [{| pr_name := ir_name r; pr_recovery := ir_recovery r;
          pr_context_type := ir_context_type r; pr_step := step; pr_cost := cost;
          pr_editable := match in_place with Some _ => true | None => false end;
          pr_in_place := default Cost_default in_place; pr_replace := replaced |}])
  end.

Section run.
Context (e : Env).

Definition hooks_of : Hooks :=
  {| hk_interpreter := perch_interpreter e; hk_spending_limit := perch_spending_limit e |}.

#[local] Instance meter : Effects Meter := Meter_effects hooks_of.
#[local] Instance apply : Effects Apply := Apply_effects e.

(** The operations are performed unless this is a dry run. *)
Definition live (s : RunState) : bool :=
  match rs_planned s with None => true | Some _ => false end.

(** A record with no desired rule in its slot is removed. *)
Definition run_record (wanted : list InstalledRule) (c : InstalledRule) (s : RunState)
    : option RunState :=
  if existsb (same_slot c) wanted then Some s else
  m ← fx_remove_rule c (Meter_new (rs_refs s));
  a ← (if live s then fx_remove_rule c (rs_apply s) else Some (rs_apply s));
  Some {| rs_refs := mt_refs m; rs_apply := a;
          rs_planned := record_step c Step_Remove (mt_cost m) None Cost_default
                          (rs_planned s) |}.

Definition prefers_edit (mode : Mode) (edited replaced : Cost) : bool :=
  match mode with
  | Mode_Cheapest => cost_le edited replaced
  | Mode_InPlace => true
  | Mode_Replace | Mode_FullReplace => false
  end.

(** One desired rule, at its index in the parameters. *)
Definition run_slot (current : list InstalledRule) (params : list (list Val)) (mode : Mode)
    (i : nat) (d : InstalledRule) (s : RunState) : option (InstalledRule * RunState) :=
  p ← params !! i;
  match find_first (λ c, same_slot c d) current with
  | None =>
      '(_, m) ← fx_add_rule d p (Meter_new (rs_refs s));
      '(id, a) ← (if live s then fx_add_rule d p (rs_apply s) else Some (0%N, rs_apply s));
      Some (with_id d id,
            {| rs_refs := mt_refs m; rs_apply := a;
               rs_planned := record_step d Step_Add (mt_cost m) None Cost_default
                               (rs_planned s) |})
  | Some c =>
      if unchanged c d then
        Some (with_id d (ir_id c),
              {| rs_refs := rs_refs s; rs_apply := rs_apply s;
                 rs_planned := record_step d Step_Keep Cost_default None Cost_default
                                 (rs_planned s) |})
      else
      '(editable, edited) ← edit meter c d p (Meter_new (rs_refs s));
      '(_, replaced) ← replace meter c d p (Meter_new (rs_refs s));
      let in_place := editable && prefers_edit mode (mt_cost edited) (mt_cost replaced) in
      let offered := if editable then Some (mt_cost edited) else None in
      if in_place : bool then
        a ← (if live s
             then '(_, a) ← edit apply c d p (rs_apply s); Some (tally 0 0 1 0 0 0 0 a)
             else Some (rs_apply s));
        Some (with_id d (ir_id c),
              {| rs_refs := mt_refs edited; rs_apply := a;
                 rs_planned := record_step d Step_InPlace (mt_cost edited) offered
                                 (mt_cost replaced) (rs_planned s) |})
      else
        '(id, a) ← (if live s then replace apply c d p (rs_apply s)
                    else Some (0%N, rs_apply s));
        Some (with_id d id,
              {| rs_refs := mt_refs replaced; rs_apply := a;
                 rs_planned := record_step d Step_Replace (mt_cost replaced) offered
                                 (mt_cost replaced) (rs_planned s) |})
  end.

Fixpoint run_slots (current : list InstalledRule) (params : list (list Val)) (mode : Mode)
    (i : nat) (wanted : list InstalledRule) (s : RunState)
    : option (list InstalledRule * RunState) :=
  match wanted with
  | [] => Some ([], s)
  | d :: wanted =>
      '(r, s) ← run_slot current params mode i d s;
      '(next, s) ← run_slots current params mode (S i) wanted s;
      Some (r :: next, s)
  end.

Definition run (oz : OzState) (current wanted : list InstalledRule)
    (params : list (list Val)) (mode : Mode) (dry_run : option (list PlannedRule))
    : option (list InstalledRule * RunState) :=
  let s := {| rs_refs := Refs_of current;
              rs_apply := {| ap_oz := oz; ap_sum := DeltaSummary_default; ap_rule := None |};
              rs_planned := dry_run |} in
  s ← each (run_record wanted) current s;
  run_slots current params mode 0 wanted s.

(** The oracle: every record removed, then every desired rule added. *)
Fixpoint add_all (params : list (list Val)) (i : nat) (wanted : list InstalledRule)
    (a : Apply) : option (list InstalledRule * Apply) :=
  match wanted with
  | [] => Some ([], a)
  | d :: wanted =>
      p ← params !! i;
      '(id, a) ← fx_add_rule d p a;
      '(next, a) ← add_all params (S i) wanted a;
      Some (with_id d id :: next, a)
  end.

Definition replace_all (oz : OzState) (current wanted : list InstalledRule)
    (params : list (list Val)) : option (list InstalledRule * Apply) :=
  a ← each fx_remove_rule current
        {| ap_oz := oz; ap_sum := DeltaSummary_default; ap_rule := None |};
  add_all params 0 wanted a.

(** The new records, the summary and OpenZeppelin's new state. *)
Definition reconcile (oz : OzState) (current wanted : list InstalledRule)
    (params : list (list Val)) (mode : Mode)
    : option (list InstalledRule * DeltaSummary * OzState) :=
  match mode with
  | Mode_FullReplace =>
      '(next, a) ← replace_all oz current wanted params;
      Some (next, ap_sum a, ap_oz a)
  | _ =>
      '(next, s) ← run oz current wanted params mode None;
      Some (next, ap_sum (rs_apply s), ap_oz (rs_apply s))
  end.

Definition plan (oz : OzState) (current wanted : list InstalledRule)
    (params : list (list Val)) (mode : Mode) : option (list PlannedRule) :=
  '(_, s) ← run oz current wanted params mode (Some []);
  rs_planned s.
End run.
End rules.
