(* ===== verification/RulesFacts.v ===== *)
(** * Rule-set reconciliation: what it leaves installed

    [OzLaws] states the documented behaviour of OpenZeppelin's functions: a
    state holds a map of context rules; each quiet operation succeeds when its
    documented preconditions hold (rule found, no duplicate, per-rule limits,
    never a rule without signers and policies, no past expiry, id counters not
    exhausted, the policy accepting its parameters) and then changes exactly
    that rule.  Against these laws [run] is shown to succeed and to leave
    exactly the desired rules installed. *)

From S2P Require Import Prelude Host Program RecoveryIface CompilerIface Rules.

Section oz_rules.
Context {H : Host}.

(** A context rule as it is in force: the policies with the parameters they
    were installed with. *)
Record OzRule : Type := {
  oz_context_type : ContextRuleType;
  oz_name : string;
  oz_valid_until : option N;
  oz_signers : list Signer;
  oz_policies : gmap Address Val;
}.

Definition with_signers (l : list Signer) (r : OzRule) : OzRule := {|
  oz_context_type := oz_context_type r; oz_name := oz_name r;
  oz_valid_until := oz_valid_until r; oz_signers := l; oz_policies := oz_policies r |}.
Definition with_policies (m : gmap Address Val) (r : OzRule) : OzRule := {|
  oz_context_type := oz_context_type r; oz_name := oz_name r;
  oz_valid_until := oz_valid_until r; oz_signers := oz_signers r; oz_policies := m |}.
Definition with_valid_until (v : option N) (r : OzRule) : OzRule := {|
  oz_context_type := oz_context_type r; oz_name := oz_name r;
  oz_valid_until := v; oz_signers := oz_signers r; oz_policies := oz_policies r |}.

Definition not_past (e : Env) (v : option N) : Prop :=
  match v with Some n => (sequence e ≤ n)%N | None => True end.

(** [NoSignersAndPolicies]. *)
Definition nonempty (r : OzRule) : Prop := oz_signers r ≠ [] ∨ oz_policies r ≠ ∅.
End oz_rules.

Class OzLaws `{H : Host} {Oz : OZ} : Type := {
  rules_of : OzState → gmap N OzRule;
  policy_id : OzState → Address → N;
  (** How many more ids the internal counters can give out. *)
  ids_left : OzState → nat;
  (** The lists of signers a rule may have: at most [MAX_SIGNERS], no
      duplicate key. *)
  signers_ok : list Signer → Prop;
  name_ok : string → Prop;
  (** The policy contract accepts the parameters. *)
  installs : Address → Val → Prop;
  (** Registry ids of policies that stay referenced do not change. *)
  keeps (used : nat) (st st' : OzState) : Prop :=
    ids_left st ≤ ids_left st' + used ∧
    ∀ p, (∃ id r, rules_of st !! id = Some r ∧ is_Some (oz_policies r !! p)) →
         (∃ id r, rules_of st' !! id = Some r ∧ is_Some (oz_policies r !! p)) →
         policy_id st' p = policy_id st p;
  oz_get_ok st id r : rules_of st !! id = Some r →
    ∃ cr, oz_get_context_rule st id = Some cr ∧ rule_id cr = id ∧
      (∀ p, p ∈ rule_policies cr ↔ is_Some (oz_policies r !! p)) ∧
      rule_policy_ids cr = policy_id st <$> rule_policies cr;
  reconcile_signers_ok e st id r signers :
    rules_of st !! id = Some r → signers_ok signers →
    nonempty (with_signers signers r) → length signers ≤ ids_left st →
    ∃ st', reconcile_signers_no_events e id signers st = Some st' ∧
      rules_of st' = <[id := with_signers signers r]> (rules_of st) ∧
      keeps (length signers) st st';
  add_policy_ok e st id r p v :
    rules_of st !! id = Some r → oz_policies r !! p = None →
    size (oz_policies r) < MAX_POLICIES → installs p v → 1 ≤ ids_left st →
    ∃ st', add_policy_no_events e id p v st = Some st' ∧
      rules_of st' = <[id := with_policies (<[p := v]> (oz_policies r)) r]> (rules_of st) ∧
      keeps 1 st st';
  remove_policy_ok e st id r p :
    rules_of st !! id = Some r → is_Some (oz_policies r !! p) →
    nonempty (with_policies (delete p (oz_policies r)) r) →
    ∃ st', remove_policy_no_events e id (policy_id st p) st = Some st' ∧
      rules_of st' = <[id := with_policies (delete p (oz_policies r)) r]> (rules_of st) ∧
      keeps 0 st st';
  update_valid_until_ok e st id r v :
    rules_of st !! id = Some r → not_past e v →
    ∃ st', update_context_rule_valid_until_no_events e id v st = Some st' ∧
      rules_of st' = <[id := with_valid_until v r]> (rules_of st) ∧ keeps 0 st st';
  remove_rule_ok e st id r :
    rules_of st !! id = Some r →
    ∃ st', remove_context_rule_no_events e id st = Some st' ∧
      rules_of st' = delete id (rules_of st) ∧ keeps 0 st st';
  add_rule_ok e st ctx name v signers policies :
    name_ok name → not_past e v → signers_ok signers → size policies ≤ MAX_POLICIES →
    nonempty {| oz_context_type := ctx; oz_name := name; oz_valid_until := v;
                oz_signers := signers; oz_policies := policies |} →
    map_Forall installs policies →
    1 + length signers + size policies ≤ ids_left st →
    ∃ id st', add_context_rule_no_events e ctx name v signers policies st = Some (id, st') ∧
      rules_of st !! id = None ∧
      rules_of st' = <[id := {| oz_context_type := ctx; oz_name := name;
                                oz_valid_until := v; oz_signers := signers;
                                oz_policies := policies |}]> (rules_of st) ∧
      keeps (1 + length signers + size policies) st st';
}.

Section facts.
Context {H : Host} {I : Infra} {V : Values} {Oz : OZ} {OL : OzLaws} (e : Env).

(** ** Records and the rules they describe *)

Definition policy_map (r : InstalledRule) : gmap Address bytes :=
  list_to_map ((λ q, (ip_policy q, ip_params q)) <$> ir_policies r).

(** [o] is the rule [r] records. *)
Definition represents (o : OzRule) (r : InstalledRule) : Prop :=
  oz_context_type o = ir_context_type r ∧ oz_name o = ir_name r ∧
  oz_valid_until o = ir_valid_until r ∧ oz_signers o = ir_signers r ∧
  params_digest <$> oz_policies o = policy_map r.

(** The records describe every rule in force and nothing else. *)
Definition installed (rules : gmap N OzRule) (records : list InstalledRule) : Prop :=
  NoDup (ir_id <$> records) ∧
  (∀ r, r ∈ records → ∃ o, rules !! ir_id r = Some o ∧ represents o r) ∧
  ∀ id, is_Some (rules !! id) → id ∈ ir_id <$> records.

(** What the account guarantees of each record. *)
Definition record_ok (r : InstalledRule) : Prop :=
  NoDup (ip_policy <$> ir_policies r) ∧
  (ir_recovery r = true → ir_name r = "recovery"%string).

(** A desired rule OpenZeppelin accepts, with its parameters. *)
Definition wanted_ok (d : InstalledRule) (params : list Val) : Prop :=
  record_ok d ∧ name_ok (ir_name d) ∧ not_past e (ir_valid_until d) ∧
  signers_ok (ir_signers d) ∧ length (ir_policies d) ≤ MAX_POLICIES ∧
  (ir_signers d ≠ [] ∨ ir_policies d ≠ []) ∧
  Forall2 (λ p v, ip_params p = params_digest v ∧ installs (ip_policy p) v)
    (ir_policies d) params.

Definition weight (d : InstalledRule) : nat :=
  1 + length (ir_signers d) + length (ir_policies d).

Lemma policy_map_lookup r p h :
  NoDup (ip_policy <$> ir_policies r) →
  policy_map r !! p = Some h ↔ {| ip_policy := p; ip_params := h |} ∈ ir_policies r.
Proof.
  intros Hnd. unfold policy_map. rewrite <- elem_of_list_to_map.
  - rewrite list_elem_of_fmap. split.
    + intros ([p' h'] & [= -> ->] & Hin). done.
    + intros Hin. eexists; split; [|exact Hin]. done.
  - by rewrite <- list_fmap_compose.
Qed.

Lemma policy_map_None r p :
  policy_map r !! p = None ↔ p ∉ ip_policy <$> ir_policies r.
Proof.
  unfold policy_map. rewrite <- not_elem_of_list_to_map, <- list_fmap_compose. done.
Qed.

Lemma represents_policy_None o r p :
  represents o r → oz_policies o !! p = None ↔ p ∉ ip_policy <$> ir_policies r.
Proof.
  intros (_ & _ & _ & _ & Hp). rewrite <- policy_map_None, <- Hp, lookup_fmap.
  by destruct (oz_policies o !! p).
Qed.

Lemma represents_policy o r p :
  represents o r → is_Some (oz_policies o !! p) ↔ p ∈ ip_policy <$> ir_policies r.
Proof.
  intros Ho. pose proof (represents_policy_None o r p Ho) as HN.
  destruct (oz_policies o !! p); simpl.
  - split; [|eauto]. intros _. destruct (decide (p ∈ ip_policy <$> ir_policies r)); [done|].
    by destruct HN as [_ HN]; specialize (HN n).
  - split; [by intros []|]. intros Hin. by destruct HN as [HN _]; specialize (HN eq_refl).
Qed.

Lemma represents_size o r :
  represents o r → NoDup (ip_policy <$> ir_policies r) →
  size (oz_policies o) = length (ir_policies r).
Proof.
  intros (_ & _ & _ & _ & Hp) Hnd.
  rewrite <- (map_size_fmap params_digest), Hp. unfold policy_map.
  rewrite map_size_list_to_map; [by rewrite length_fmap|].
  by rewrite <- list_fmap_compose.
Qed.

(** A sequence of operations on rule [id] that leaves the others alone. *)
Definition evolved (id : N) (o : OzRule) (used : nat) (st st' : OzState) : Prop :=
  rules_of st' = <[id := o]> (rules_of st) ∧ ids_left st ≤ ids_left st' + used.

Lemma evolved_lookup id o k st st' : evolved id o k st st' → rules_of st' !! id = Some o.
Proof. intros [-> _]. by rewrite lookup_insert_eq. Qed.

Lemma evolved_trans id o1 o2 k1 k2 st st1 st2 :
  evolved id o1 k1 st st1 → evolved id o2 k2 st1 st2 → evolved id o2 (k1 + k2) st st2.
Proof.
  intros [E1 L1] [E2 L2]. split; [|lia]. by rewrite E2, E1, insert_insert_eq.
Qed.

Lemma evolved_refl id o st : rules_of st !! id = Some o → evolved id o 0 st st.
Proof. intros Hl. split; [by rewrite insert_id|lia]. Qed.

Lemma evolved_weaken id o k k' st st' :
  evolved id o k st st' → k ≤ k' → evolved id o k' st st'.
Proof. intros [E L] ?. split; [done|lia]. Qed.

(** ** The stages of an edit *)

#[local] Instance apply_instance : Effects Apply := Apply_effects e.

(** Neither the rule counts nor, unless the rule being edited is [read], the
    cached rule change. *)
Definition quiet (read : bool) (id : N) (a a' : Apply) : Prop :=
  rules_added (ap_sum a') = rules_added (ap_sum a) ∧
  rules_removed (ap_sum a') = rules_removed (ap_sum a) ∧
  (ap_rule a' = ap_rule a ∨ read = true ∧ ∃ cr, ap_rule a' = Some cr ∧ rule_id cr = id).

Lemma quiet_refl read id a : quiet read id a a.
Proof. unfold quiet. auto. Qed.

Lemma quiet_trans r1 r2 id a b c :
  quiet r1 id a b → quiet r2 id b c → quiet (r1 || r2) id a c.
Proof.
  intros (A1 & A2 & A3) (B1 & B2 & B3). unfold quiet. rewrite B1, B2, orb_true_iff.
  split_and!; [done..|]. destruct B3 as [->|[]]; [naive_solver|by right; auto].
Qed.

(** The result of a stage on the rule [c], which was [o] and becomes [o']. *)
Definition stage (read : bool) (c : InstalledRule) (o' : OzRule) (used : nat) (a : Apply)
    (r : option Apply) : Prop :=
  ∃ a', r = Some a' ∧ evolved (ir_id c) o' used (ap_oz a) (ap_oz a') ∧ quiet read (ir_id c) a a'.

Lemma stage_bind r1 r2 c o1 o2 k1 k2 a r f :
  stage r1 c o1 k1 a r →
  (∀ a1, evolved (ir_id c) o1 k1 (ap_oz a) (ap_oz a1) → quiet r1 (ir_id c) a a1 →
     stage r2 c o2 k2 a1 (f a1)) →
  stage (r1 || r2) c o2 (k1 + k2) a (a1 ← r; f a1).
Proof.
  intros (a1 & -> & Hev & Hq) Hf. simpl. destruct (Hf a1 Hev Hq) as (a2 & -> & Hev' & Hq').
  exists a2. split_and!; eauto using evolved_trans, quiet_trans.
Qed.

Lemma stage_weaken r c o k a x : stage r c o k a x → stage true c o k a x.
Proof.
  intros (a' & -> & Hev & A1 & A2 & A3). exists a'. split; [done|]. split; [done|].
  split_and!; [done..|]. destruct A3 as [|[_ ?]]; auto.
Qed.

Lemma stage_seq r1 r2 c o1 o2 k1 k2 a r f :
  stage r1 c o1 k1 a r →
  (∀ a1, evolved (ir_id c) o1 k1 (ap_oz a) (ap_oz a1) → quiet r1 (ir_id c) a a1 →
     stage r2 c o2 k2 a1 (f a1)) →
  stage true c o2 (k1 + k2) a (a1 ← r; f a1).
Proof. intros. by eapply stage_weaken, stage_bind. Qed.

Lemma stage_skip read c o a :
  rules_of (ap_oz a) !! ir_id c = Some o → stage read c o 0 a (Some a).
Proof. intros. exists a. split_and!; auto using evolved_refl, quiet_refl. Qed.

Lemma with_signers_id o l : oz_signers o = l → with_signers l o = o.
Proof. destruct o; simpl. by intros <-. Qed.
Lemma with_valid_until_id o v : oz_valid_until o = v → with_valid_until v o = o.
Proof. destruct o; simpl. by intros <-. Qed.
Lemma with_policies_id o m : oz_policies o = m → with_policies m o = o.
Proof. destruct o; simpl. by intros <-. Qed.

Lemma swap_stage c o l (change : bool) a :
  rules_of (ap_oz a) !! ir_id c = Some o →
  (change = false → oz_signers o = l) →
  (change = true → signers_ok l ∧ nonempty (with_signers l o) ∧
     length l ≤ ids_left (ap_oz a)) →
  stage false c (with_signers l o) (length l) a
    (if change then fx_reconcile_signers c l a else Some a).
Proof.
  intros Hl Hsame Hok. destruct change.
  - destruct (Hok eq_refl) as (Hs & Hn & Hi).
    destruct (reconcile_signers_ok e _ _ _ _ Hl Hs Hn Hi) as (st' & E & Hr & Hk & _).
    simpl. rewrite E. simpl. eexists. split; [done|]. split; [by split|].
    by split_and!; simpl; try lia; auto.
  - rewrite (with_signers_id _ _ (Hsame eq_refl)).
    destruct (stage_skip false _ _ _ Hl) as (a' & E & Hev & Hq).
    exists a'. split_and!; [done| |done]. eapply evolved_weaken; [done|lia].
Qed.

Lemma expiry_stage c o v (same : bool) a :
  rules_of (ap_oz a) !! ir_id c = Some o →
  (same = true → oz_valid_until o = v) → not_past e v →
  stage false c (with_valid_until v o) 0 a (if same then Some a else fx_set_valid_until c v a).
Proof.
  intros Hl Hsame Hp. destruct same.
  - rewrite (with_valid_until_id _ _ (Hsame eq_refl)). by apply stage_skip.
  - destruct (update_valid_until_ok e _ _ _ _ Hl Hp) as (st' & E & Hr & Hk & _).
    simpl. rewrite E. simpl. eexists. split; [done|]. split; [by split|].
    by split_and!; simpl; auto.
Qed.

Lemma additions_stage c l : ∀ o a,
  rules_of (ap_oz a) !! ir_id c = Some o →
  NoDup l.*1 → (∀ p, p ∈ l.*1 → oz_policies o !! p = None) →
  size (oz_policies o) + length l ≤ MAX_POLICIES →
  Forall (λ pv, installs pv.1 pv.2) l → length l ≤ ids_left (ap_oz a) →
  stage false c (with_policies (list_to_map l ∪ oz_policies o) o) (length l) a
    (each (λ pv, fx_add_policy c pv.1 pv.2) l a).
Proof.
  induction l as [|[p v] l IH]; intros o a Hl Hnd Hnone Hsz Hins Hids; csimpl in *.
  - rewrite with_policies_id by (by rewrite (left_id_L ∅ (∪))). by apply stage_skip.
  - apply NoDup_cons in Hnd as [Hp Hnd]. apply Forall_cons in Hins as [Hi Hins].
    destruct (add_policy_ok e _ _ _ p v Hl) as (st' & E & Hr & Hk & _);
      [apply Hnone; left|lia|done|lia|]. rewrite E. simpl.
    replace (S (length l)) with (1 + length l) by done.
    eapply (stage_bind false false _ (with_policies (<[p:=v]> (oz_policies o)) o) _ 1 _ _ (Some _)).
    { eexists. split; [done|]. split; [by split|]. split_and!; simpl; try lia; auto. }
    intros a1 Hev _.
    replace (with_policies (<[p:=v]> (list_to_map l) ∪ oz_policies o) o) with
      (with_policies (list_to_map l ∪ oz_policies (with_policies (<[p:=v]> (oz_policies o)) o))
        (with_policies (<[p:=v]> (oz_policies o)) o)).
    + apply IH; [by eapply evolved_lookup|done| | |done|].
      * intros q Hq. simpl. rewrite lookup_insert_ne by (intros ->; done).
        apply Hnone. by right.
      * simpl. rewrite map_size_insert_None by (apply Hnone; left). lia.
      * destruct Hev as [_ ?]. lia.
    + unfold with_policies. simpl. f_equal.
      rewrite <- insert_union_l, insert_union_r; [done|].
      by apply not_elem_of_list_to_map_1.
Qed.

Lemma first_index_of_elem `{EqDecision A} (l : list A) x :
  x ∈ l → ∃ i, first_index_of l x = Some i ∧ l !! i = Some x.
Proof.
  induction l as [|y l IH]; simpl; [by rewrite elem_of_nil|].
  intros Hx. destruct (decide (y = x)) as [->|]; [by exists 0|].
  apply elem_of_cons in Hx as [|Hx]; [done|].
  destruct (IH Hx) as (i & -> & Hi). by exists (S i).
Qed.

(** The cached rule, if it is the one being edited, still has the registry
    ids of the policies to remove. *)
Definition cache_ok (a : Apply) (id : N) (l : list Address) : Prop :=
  ∀ cr, ap_rule a = Some cr → rule_id cr = id →
    ∃ f, rule_policy_ids cr = f <$> rule_policies cr ∧
      ∀ p, p ∈ l → p ∈ rule_policies cr ∧ f p = policy_id (ap_oz a) p.

Lemma apply_oz_read c o a l :
  rules_of (ap_oz a) !! ir_id c = Some o → (∀ p, p ∈ l → is_Some (oz_policies o !! p)) →
  cache_ok a (ir_id c) l →
  ∃ cr a', apply_oz (ir_id c) a = Some (cr, a') ∧ ap_oz a' = ap_oz a ∧ ap_sum a' = ap_sum a ∧
    ap_rule a' = Some cr ∧ rule_id cr = ir_id c ∧ cache_ok a' (ir_id c) l.
Proof.
  intros Hl Hin Hc. unfold apply_oz.
  destruct (oz_get_ok _ _ _ Hl) as (cr & E & Hid & Hps & Hids).
  destruct (ap_rule a) as [old|] eqn:Hold;
    [destruct (N.eqb_spec (rule_id old) (ir_id c))|].
  1: by exists old, a.
  all: rewrite E; simpl; eexists _, _; do 5 (split; [done|]).
  all: intros cr' [= <-] _; exists (policy_id (ap_oz a)); split; [done|];
    intros p Hp; split; [by apply Hps, Hin|done].
Qed.

Lemma remove_policy_stage c o a p l :
  rules_of (ap_oz a) !! ir_id c = Some o → NoDup (p :: l) →
  (∀ q, q ∈ p :: l → is_Some (oz_policies o !! q)) →
  nonempty (with_policies (delete p (oz_policies o)) o) → cache_ok a (ir_id c) (p :: l) →
  ∃ a', fx_remove_policy c p a = Some a' ∧
    evolved (ir_id c) (with_policies (delete p (oz_policies o)) o) 0 (ap_oz a) (ap_oz a') ∧
    quiet true (ir_id c) a a' ∧ cache_ok a' (ir_id c) l.
Proof.
  intros Hl Hnd Hin Hne Hc.
  destruct (apply_oz_read _ _ _ _ Hl Hin Hc) as (cr & a1 & E & Hoz & Hsum & Hcr & Hid & Hc1).
  destruct (Hc1 _ Hcr Hid) as (f & Hf & Hq).
  destruct (Hq p ltac:(left)) as [Hp Hfp].
  destruct (first_index_of_elem _ _ Hp) as (i & Ei & Hi).
  rewrite Hoz in Hfp.
  destruct (remove_policy_ok e _ _ _ p Hl (Hin p ltac:(left)) Hne) as (st' & Er & Hr & Hk & Hkp).
  simpl. rewrite E. simpl. rewrite Ei. simpl.
  rewrite Hf, list_lookup_fmap, Hi. simpl. rewrite Hfp, Hoz, Er. simpl.
  eexists. split; [done|]. split; [split; simpl; [done|lia]|].
  apply NoDup_cons in Hnd as [Hpl _]. split.
  - split_and!; simpl; rewrite ?Hsum; try lia. right; split; eauto.
  - intros cr' [= Hcr'] _. simpl in Hcr'. rewrite Hcr in Hcr'. injection Hcr' as <-.
    exists f. split; [done|]. intros q Hql. simpl.
    destruct (Hq q ltac:(by right)) as [Hq1 ->]. split; [done|]. rewrite Hoz. symmetry.
    apply Hkp; exists (ir_id c).
    + exists o. split; [done|apply Hin; by right].
    + eexists. rewrite Hr, lookup_insert_eq. split; [done|]. simpl.
      rewrite lookup_delete_ne by (intros ->; done). apply Hin. by right.
Qed.

(** What is left of a policy map once the addresses [l] are removed. *)
Definition without (l : list Address) (m : gmap Address Val) : gmap Address Val :=
  filter (λ kv, kv.1 ∉ l) m.

Lemma lookup_without l m p :
  without l m !! p = if decide (p ∈ l) then None else m !! p.
Proof.
  unfold without. destruct (decide (p ∈ l)) as [Hp|Hp].
  - apply map_lookup_filter_None. right. simpl. naive_solver.
  - destruct (m !! p) as [v|] eqn:E.
    + by apply map_lookup_filter_Some.
    + apply map_lookup_filter_None. by left.
Qed.

Lemma without_cons p l m : without (p :: l) m = without l (delete p m).
Proof.
  apply map_eq. intros q. rewrite !lookup_without. destruct (decide (q = p)) as [->|Hne].
  - rewrite lookup_delete_eq, decide_True by left. by case_decide.
  - rewrite lookup_delete_ne by done.
    destruct (decide (q ∈ l)); [by rewrite decide_True by by right|].
    rewrite decide_False; [done|]. rewrite elem_of_cons. naive_solver.
Qed.

Lemma removals_stage c l : ∀ o a,
  rules_of (ap_oz a) !! ir_id c = Some o → NoDup l →
  (∀ p, p ∈ l → is_Some (oz_policies o !! p)) →
  (oz_signers o ≠ [] ∨ ∃ q, q ∉ l ∧ is_Some (oz_policies o !! q)) →
  cache_ok a (ir_id c) l →
  stage true c (with_policies (without l (oz_policies o)) o) 0 a (each (fx_remove_policy c) l a).
Proof.
  induction l as [|p l IH]; intros o a Hl Hnd Hin Hne Hc.
  - rewrite with_policies_id.
    + by apply stage_skip.
    + apply map_eq. intros q. rewrite lookup_without, decide_False; [done|apply not_elem_of_nil].
  - set (o1 := with_policies (delete p (oz_policies o)) o).
    assert (Hne1 : oz_signers o1 ≠ [] ∨ ∃ q, q ∉ l ∧ is_Some (oz_policies o1 !! q)).
    { destruct Hne as [|(q & Hq & Hs)]; [by left|right].
      apply not_elem_of_cons in Hq as [Hqp Hql]. exists q. split; [done|]. simpl.
      by rewrite lookup_delete_ne. }
    destruct (remove_policy_stage c o a p l Hl Hnd Hin) as (a1 & E & Hev & Hq & Hc1); [|done|].
    { destruct Hne1 as [|(q & _ & Hs)]; [by left|right]. intros Hm.
      fold o1 in Hm. rewrite Hm, lookup_empty in Hs. by destruct Hs. }
    replace (with_policies (without (p :: l) (oz_policies o)) o) with
      (with_policies (without l (oz_policies o1)) o1) by (by rewrite without_cons).
    destruct (IH o1 a1) as (a2 & E2 & Hev2 & Hq2); [by eapply evolved_lookup| |..|done|done|].
    { by apply NoDup_cons in Hnd as []. }
    { intros q Hql. simpl. apply NoDup_cons in Hnd as [Hp _].
      rewrite lookup_delete_ne by (intros ->; done). apply Hin. by right. }
    exists a2. split_and!; [by cbn [each]; rewrite E|..].
    + by apply (evolved_trans _ o1 _ 0 0 _ (ap_oz a1)).
    + by apply (quiet_trans true true _ _ a1).
Qed.

(** ** The policies an edit changes *)

Definition additions (c : InstalledRule) (ps : list InstalledPolicy) (params : list Val)
  : list (Address * Val) :=
  (λ qv, (ip_policy qv.1, qv.2)) <$> filter (λ qv, qv.1 ∉ ir_policies c) (zip ps params).

Lemma to_add_additions c ps : ∀ pre vs, length ps = length vs →
  to_add c ps (pre ++ vs) (length pre) = Some (additions c ps vs).
Proof.
  induction ps as [|p ps IH]; intros pre [|v vs] Hlen; try done. simpl.
  specialize (IH (pre ++ [v]) vs ltac:(simpl in *; lia)).
  rewrite <- (assoc_L (++)), length_app, Nat.add_comm in IH. simpl in IH. rewrite IH.
  unfold additions. simpl. destruct (contains (ir_policies c) p) eqn:E.
  - apply contains_true in E. rewrite filter_cons_False by (simpl; naive_solver). done.
  - apply contains_false in E. rewrite filter_cons_True by done.
    by rewrite lookup_app_r, Nat.sub_diag by done.
Qed.

Section pair.
Context (c d : InstalledRule) (params : list Val).
Hypothesis (Hc : NoDup (ip_policy <$> ir_policies c)).
Hypothesis (Hd : NoDup (ip_policy <$> ir_policies d)).
Hypothesis (Hps : Forall2 (λ p v, ip_params p = params_digest v ∧ installs (ip_policy p) v)
                    (ir_policies d) params).

Let add := additions c (ir_policies d) params.

Lemma ip_policy_inj r q q' :
  NoDup (ip_policy <$> ir_policies r) → q ∈ ir_policies r → q' ∈ ir_policies r →
  ip_policy q = ip_policy q' → q = q'.
Proof.
  intros Hnd Hq Hq' E. destruct q as [p h], q' as [p' h']; simpl in *. subst p'.
  apply (policy_map_lookup r p) in Hq, Hq'; [|done..]. congruence.
Qed.

Lemma elem_of_additions p v :
  (p, v) ∈ add → ∃ q, q ∈ ir_policies d ∧ q ∉ ir_policies c ∧ ip_policy q = p ∧
    ip_params q = params_digest v ∧ installs p v.
Proof.
  unfold add, additions. intros ([q v'] & [= -> ->] & Hin)%list_elem_of_fmap. simpl in *.
  apply list_elem_of_filter in Hin as [Hnc Hz]. simpl in Hnc.
  exists q. apply list_elem_of_lookup in Hz as [i Hz].
  apply lookup_zip_Some in Hz as [Hq Hv].
  destruct (Forall2_lookup_lr _ _ _ _ _ _ Hps Hq Hv).
  split_and!; [by eapply list_elem_of_lookup_2|done..].
Qed.

Lemma additions_complete q :
  q ∈ ir_policies d → q ∉ ir_policies c → ip_policy q ∈ add.*1.
Proof.
  intros Hq Hnc. apply list_elem_of_lookup in Hq as [i Hq].
  destruct (Forall2_lookup_l _ _ _ _ _ Hps Hq) as (v & Hv & _).
  apply list_elem_of_fmap. exists (ip_policy q, v). split; [done|].
  apply list_elem_of_fmap. exists (q, v). split; [done|]. apply list_elem_of_filter.
  split; [done|]. apply list_elem_of_lookup. exists i. by apply lookup_zip_Some.
Qed.

Lemma additions_NoDup : NoDup add.*1.
Proof.
  unfold add, additions. rewrite <- list_fmap_compose.
  assert (Hnd : NoDup (ip_policy <$> (zip (ir_policies d) params).*1)).
  { by rewrite fst_zip by (by rewrite (Forall2_length _ _ _ Hps)). }
  clear -Hnd. induction (zip (ir_policies d) params) as [|[q v] l IH]; [constructor|].
  csimpl in *. apply NoDup_cons in Hnd as [Hq Hnd].
  destruct (decide (q ∉ ir_policies c)).
  - rewrite filter_cons_True by done. csimpl. apply NoDup_cons. split; [|by apply IH].
    contradict Hq. apply list_elem_of_fmap in Hq as ([q' v'] & E & Hin).
    apply list_elem_of_filter in Hin as [_ Hin]. simpl in E. rewrite E.
    apply list_elem_of_fmap. exists q'. split; [done|].
    apply list_elem_of_fmap. by exists (q', v').
  - rewrite filter_cons_False by done. by apply IH.
Qed.

Lemma elem_of_to_remove p :
  p ∈ to_remove c d ↔ ∃ q, q ∈ ir_policies c ∧ q ∉ ir_policies d ∧ ip_policy q = p.
Proof.
  unfold to_remove. rewrite list_elem_of_fmap. setoid_rewrite list_elem_of_filter. naive_solver.
Qed.

Lemma to_remove_NoDup : NoDup (to_remove c d).
Proof.
  unfold to_remove. eapply sublist_NoDup; [exact Hc|apply fmap_sublist, sublist_filter].
Qed.

Section policies.
Context (o : OzRule).
Hypothesis (Ho : represents o c).

(** The policies once the removals and additions are done. *)
Definition edited_policies : gmap Address Val :=
  list_to_map add ∪ without (to_remove c d) (oz_policies o).

Lemma represents_record p v :
  oz_policies o !! p = Some v → {| ip_policy := p; ip_params := params_digest v |} ∈ ir_policies c.
Proof.
  intros Hl. destruct Ho as (_ & _ & _ & _ & Hp). apply policy_map_lookup; [done|].
  by rewrite <- Hp, lookup_fmap, Hl.
Qed.

Lemma kept_policy p v :
  without (to_remove c d) (oz_policies o) !! p = Some v →
  oz_policies o !! p = Some v ∧
  {| ip_policy := p; ip_params := params_digest v |} ∈ ir_policies d.
Proof.
  rewrite lookup_without. case_decide as Hr; [done|]. intros Hl. split; [done|].
  pose proof (represents_record _ _ Hl) as Hin.
  destruct (decide ({| ip_policy := p; ip_params := params_digest v |} ∈ ir_policies d)); [done|].
  destruct Hr. apply elem_of_to_remove. eauto.
Qed.

Lemma additions_fresh p :
  p ∈ add.*1 → without (to_remove c d) (oz_policies o) !! p = None.
Proof.
  intros ([p' v] & E & Hin)%list_elem_of_fmap. simpl in E. subst p'.
  destruct (elem_of_additions _ _ Hin) as (q & Hqd & Hqc & Hp & _). clear Hin.
  destruct (without (to_remove c d) (oz_policies o) !! p) as [v'|] eqn:E; [|done].
  apply kept_policy in E as [E Hd']. apply represents_record in E. destruct Hqc.
  by rewrite (ip_policy_inj d q _ Hd Hqd Hd' Hp).
Qed.

Lemma edited_policies_digest : params_digest <$> edited_policies = policy_map d.
Proof.
  apply map_eq. intros p. rewrite lookup_fmap. unfold edited_policies.
  destruct ((list_to_map add : gmap Address Val) !! p) as [v|] eqn:E.
  - erewrite lookup_union_Some_l by done. simpl. symmetry.
    apply elem_of_list_to_map_2 in E. destruct (elem_of_additions _ _ E) as (q & Hq & _ & <- & Hv & _).
    apply policy_map_lookup; [done|]. rewrite <- Hv. by destruct q.
  - rewrite lookup_union_r by done. destruct (without _ _ !! p) as [v|] eqn:Ew; simpl.
    + symmetry. apply kept_policy in Ew as [_ Ew]. by apply policy_map_lookup.
    + symmetry. apply policy_map_None. intros (q & -> & Hq)%list_elem_of_fmap.
      apply not_elem_of_list_to_map_2 in E.
      destruct (decide (q ∈ ir_policies c)) as [Hqc|Hqc]; [|by destruct E; apply additions_complete].
      rewrite lookup_without in Ew. case_decide as Hr.
      * apply elem_of_to_remove in Hr as (q' & Hq' & Hnd & Heq). destruct Hnd.
        by rewrite (ip_policy_inj c q' q).
      * apply (represents_policy_None _ _ _ Ho) in Ew. destruct Ew.
        apply list_elem_of_fmap. eauto.
Qed.

Lemma edited_policies_size :
  length add + size (without (to_remove c d) (oz_policies o)) = length (ir_policies d).
Proof.
  transitivity (size edited_policies).
  - unfold edited_policies. rewrite map_size_disj_union.
    + rewrite map_size_list_to_map by apply additions_NoDup. done.
    + apply map_disjoint_spec. intros p v v' Ha Hw. apply elem_of_list_to_map_2 in Ha.
      rewrite additions_fresh in Hw; [done|]. apply list_elem_of_fmap. by exists (p, v).
  - rewrite <- (map_size_fmap params_digest), edited_policies_digest. unfold policy_map.
    rewrite map_size_list_to_map; [by rewrite length_fmap|]. by rewrite <- list_fmap_compose.
Qed.
End policies.
End pair.

(** ** Editing in place *)

(** Whether some order of in-place operations keeps the rule valid. *)
Definition editable (c d : InstalledRule) (add : list (Address * Val)) : bool :=
  negb (is_empty (ir_signers d)) || negb (is_empty (ir_signers c))
  || (0 <? (length (ir_signers c) - length (missing (ir_signers c) (ir_signers d)))
           + (length (ir_policies c) - length (to_remove c d)))%nat
  || (negb (is_empty (fresh_of c add))
      && (length (ir_policies c) + length (fresh_of c add) <=? MAX_POLICIES)%nat).

Lemma edit_decision {S} (fx : Effects S) c d params s b s' :
  edit fx c d params s = Some (b, s') →
  ∃ add, to_add c (ir_policies d) params 0 = Some add ∧ b = editable c d add.
Proof.
  unfold edit, editable. destruct (to_add c _ params 0) as [add|] eqn:E; [|done]. simpl.
  intros HE. exists add. split; [done|].
  destruct (is_empty (ir_signers d)); simpl in *;
    [destruct (negb (is_empty (ir_signers c)) || _); simpl in *; [|
      destruct (negb (is_empty (fresh_of c add)) && _); simpl in *]|].
  4: { destruct (if negb _ then fx_reconcile_signers _ _ _ else _); [|done]. simpl in HE.
       destruct (each _ _ _); [|done]; simpl in HE. destruct (each _ _ _); [|done]; simpl in HE.
       by destruct (if bool_decide _ then Some _ else _); simplify_eq/=. }
  3: by simplify_eq.
  all: repeat (destruct (each _ _ _); [|done]; simpl in HE).
  1: destruct (if negb _ then fx_reconcile_signers _ _ _ else _); [|done]; simpl in HE.
  all: by destruct (if bool_decide _ then Some _ else _); simplify_eq/=.
Qed.

Section edit.
Context (c d : InstalledRule) (params : list Val) (o : OzRule) (a : Apply).
Hypothesis (Hc : record_ok c).
Hypothesis (Hd : wanted_ok d params).
Hypothesis (Hslot : same_slot c d = true).
Hypothesis (Ho : represents o c).
Hypothesis (Hl : rules_of (ap_oz a) !! ir_id c = Some o).
Hypothesis (Hids : weight d ≤ ids_left (ap_oz a)).
Hypothesis (Hcache : ∀ cr, ap_rule a = Some cr → rule_id cr ≠ ir_id c).

Let add := additions c (ir_policies d) params.
Let m' := edited_policies c d params o.

Lemma is_empty_false {A} (l : list A) : is_empty l = false ↔ l ≠ [].
Proof. by destruct l. Qed.

(** The rule the edit leaves. *)
Definition edited : OzRule :=
  with_valid_until (ir_valid_until d) (with_policies m' (with_signers (ir_signers d) o)).

Lemma same_slot_spec r s :
  same_slot r s = true ↔ ir_recovery r = ir_recovery s ∧
    (ir_recovery r = false → ir_name r = ir_name s) ∧ ir_context_type r = ir_context_type s.
Proof.
  unfold same_slot. rewrite !andb_true_iff, orb_true_iff, eqb_true_iff, String.eqb_eq,
    bool_decide_eq_true. destruct (ir_recovery r); naive_solver.
Qed.

Lemma same_slot_name r s :
  record_ok r → record_ok s → same_slot r s = true → ir_name r = ir_name s.
Proof.
  intros [_ Hr] [_ Hs] (Hrec & Hn & _)%same_slot_spec.
  destruct (ir_recovery r) eqn:E; [|by apply Hn].
  by rewrite Hr, Hs.
Qed.

Lemma edited_represents : represents edited d.
Proof.
  destruct Hc as [Hnc _]. destruct Hd as ([Hnd Hrec] & _ & _ & _ & _ & _ & Hps).
  destruct Ho as (Hctx & Hname & _). unfold represents, edited. simpl. split_and!.
  - rewrite Hctx. by apply same_slot_spec in Hslot as (_ & _ & ->).
  - rewrite Hname. apply (same_slot_name c d Hc); [apply Hd|done].
  - done.
  - done.
  - by apply edited_policies_digest.
Qed.

Lemma edit_additions : to_add c (ir_policies d) params 0 = Some add.
Proof.
  apply (to_add_additions c (ir_policies d) [] params).
  eapply Forall2_length, Hd.
Qed.

Lemma finish_stage o1 k r :
  oz_valid_until o1 = ir_valid_until c →
  stage true c o1 k a r → k ≤ weight d →
  edited = with_valid_until (ir_valid_until d) o1 →
  ∃ a', (s ← r;
         s ← (if bool_decide (ir_valid_until c = ir_valid_until d) then Some s
              else fx_set_valid_until c (ir_valid_until d) s);
         Some (true, s)) = Some (true, a') ∧
    evolved (ir_id c) edited (weight d) (ap_oz a) (ap_oz a') ∧ quiet true (ir_id c) a a'.
Proof.
  intros Hv Hr Hk He.
  destruct Hr as (a1 & -> & Hev & Hq). cbn [mbind option_bind].
  destruct (expiry_stage c o1 (ir_valid_until d)
    (bool_decide (ir_valid_until c = ir_valid_until d)) a1) as (a2 & E & Hev2 & Hq2).
  - by eapply evolved_lookup.
  - rewrite bool_decide_eq_true. congruence.
  - apply Hd.
  - rewrite E. exists a2. split; [done|]. rewrite He. split.
    + eapply evolved_weaken; [by eapply evolved_trans|lia].
    + by apply (quiet_trans true false _ _ a1).
Qed.

(** The hypotheses of the stages, from those of the edit. *)
Lemma edit_removable p : p ∈ to_remove c d → is_Some (oz_policies o !! p).
Proof.
  intros (q & Hq & _ & <-)%elem_of_to_remove. apply (represents_policy _ _ _ Ho).
  apply list_elem_of_fmap. eauto.
Qed.

Lemma edit_cache l a1 : quiet false (ir_id c) a a1 → cache_ok a1 (ir_id c) l.
Proof.
  intros (_ & _ & [E|[[=] _]]) cr Hcr Hid. rewrite E in Hcr. by destruct (Hcache _ Hcr).
Qed.

Lemma edit_add_sizes o1 :
  oz_policies o1 = without (to_remove c d) (oz_policies o) →
  size (oz_policies o1) + length add ≤ MAX_POLICIES ∧ length add ≤ length (ir_policies d).
Proof.
  intros ->. destruct Hc as [Hnc _]. destruct Hd as ([Hnd _] & _ & _ & _ & Hmax & _ & Hps).
  pose proof (edited_policies_size c d params Hnc Hnd Hps o Ho). fold add in H0. lia.
Qed.

Lemma edit_installs : Forall (λ pv, installs pv.1 pv.2) add.
Proof.
  apply Forall_forall. intros [p v] Hin. destruct Hd as (_ & _ & _ & _ & _ & _ & Hps).
  destruct (elem_of_additions c d params Hps _ _ Hin) as (? & _ & _ & _ & _ & ?). done.
Qed.

Lemma edit_kept :
  ir_signers c = [] →
  0 < (length (ir_signers c) - length (missing (ir_signers c) (ir_signers d)))
      + (length (ir_policies c) - length (to_remove c d)) →
  ∃ q, q ∉ to_remove c d ∧ is_Some (oz_policies o !! q).
Proof.
  intros -> Hk. simpl in Hk. unfold to_remove in Hk. rewrite length_fmap in Hk.
  destruct (decide (Exists (λ p, p ∈ ir_policies d) (ir_policies c))) as [HE|HE].
  - apply Exists_exists in HE as (q & Hq & Hqd). exists (ip_policy q). split.
    + intros (q' & Hq' & Hn & Heq)%elem_of_to_remove. destruct Hn.
      by rewrite (ip_policy_inj c q' q (proj1 Hc)).
    + apply (represents_policy _ _ _ Ho). apply list_elem_of_fmap. eauto.
  - rewrite filter_Forall in Hk; [lia|]. by apply not_Exists_Forall in HE; [|apply _].
Qed.

(** The additions, once the removals are done. *)
Lemma edit_add_stage o1 a1 :
  rules_of (ap_oz a1) !! ir_id c = Some o1 →
  oz_policies o1 = without (to_remove c d) (oz_policies o) →
  length (ir_policies d) ≤ ids_left (ap_oz a1) →
  stage false c (with_policies m' o1) (length add) a1
    (each (λ pv, fx_add_policy c pv.1 pv.2) add a1).
Proof.
  intros Hl1 Hp1 Hi1. destruct (edit_add_sizes _ Hp1) as [Hmax Hadd].
  unfold m', edited_policies. fold add. rewrite <- Hp1.
  apply additions_stage; [done| |..|done|apply edit_installs|lia].
  - by eapply additions_NoDup; apply Hd.
  - intros p Hp. rewrite Hp1. by eapply additions_fresh; [apply Hc|apply Hd|apply Hd|..].
Qed.

(** The removals, as long as something keeps the rule non-empty. *)
Lemma edit_remove_stage o1 a1 :
  rules_of (ap_oz a1) !! ir_id c = Some o1 →
  (∀ p, p ∈ to_remove c d → is_Some (oz_policies o1 !! p)) →
  (oz_signers o1 ≠ [] ∨ ∃ q, q ∉ to_remove c d ∧ is_Some (oz_policies o1 !! q)) →
  quiet false (ir_id c) a a1 →
  stage true c (with_policies (without (to_remove c d) (oz_policies o1)) o1) 0 a1
    (each (fx_remove_policy c) (to_remove c d) a1).
Proof.
  intros Hl1 Hp Hne Hq. apply removals_stage; [done| |done|done|by apply edit_cache].
  apply to_remove_NoDup, Hc.
Qed.

(** First order: the target has signers, which are swapped in first. *)
Lemma edit_signers_first :
  ir_signers d ≠ [] →
  stage true c (with_policies m' (with_signers (ir_signers d) o))
    (length (ir_signers d) + (0 + length add)) a
    (s ← (if negb (bool_decide (ir_signers c = ir_signers d))
          then fx_reconcile_signers c (ir_signers d) a else Some a);
     s ← each (fx_remove_policy c) (to_remove c d) s;
     each (λ pv, fx_add_policy c pv.1 pv.2) add s).
Proof.
  intros Hne. pose proof Hids as Hw. unfold weight in Hw.
  eapply stage_seq; [apply (swap_stage c o (ir_signers d)); [done| |]|].
  - rewrite negb_false_iff, bool_decide_eq_true. intros <-. apply Ho.
  - intros _. split_and!; [apply Hd|by left|lia].
  - intros a1 Hev Hq. eapply stage_seq.
    + apply (edit_remove_stage (with_signers (ir_signers d) o)); [by eapply evolved_lookup| |by left|done].
      apply edit_removable.
    + intros a2 Hev2 _.
      apply (edit_add_stage (with_policies (without (to_remove c d) (oz_policies o))
               (with_signers (ir_signers d) o))); [by eapply evolved_lookup|done|].
      destruct Hev, Hev2. lia.
Qed.

(** Second order: something of the rule survives its removals, and the
    signers leave last. *)
Lemma edit_signers_last :
  ir_signers d = [] →
  (ir_signers c ≠ [] ∨ ∃ q, q ∉ to_remove c d ∧ is_Some (oz_policies o !! q)) →
  stage true c (with_policies m' (with_signers (ir_signers d) o))
    (0 + (length add + length (ir_signers d))) a
    (s ← each (fx_remove_policy c) (to_remove c d) a;
     s ← each (λ pv, fx_add_policy c pv.1 pv.2) add s;
     if negb (bool_decide (ir_signers c = ir_signers d))
     then fx_reconcile_signers c (ir_signers d) s else Some s).
Proof.
  intros Hd0 Hne. pose proof Hids as Hw. unfold weight in Hw.
  assert (Hos : oz_signers o = ir_signers c) by apply Ho.
  eapply stage_seq; [apply (edit_remove_stage o)|].
  - done.
  - apply edit_removable.
  - by rewrite Hos.
  - apply quiet_refl.
  - intros a1 Hev Hq. eapply (stage_seq false false _ (with_policies m' o));
      [apply (edit_add_stage (with_policies (without (to_remove c d) (oz_policies o)) o))|].
    + by eapply evolved_lookup.
    + done.
    + destruct Hev. lia.
    + intros a2 Hev2 _.
      apply (swap_stage c (with_policies m' o) (ir_signers d)); [by eapply evolved_lookup|..].
      * rewrite negb_false_iff, bool_decide_eq_true. intros <-. apply Ho.
      * intros _. split_and!; [apply Hd| |destruct Hev, Hev2; rewrite Hd0; simpl; lia].
        right. simpl. destruct Hd as ([Hnd _] & _ & _ & _ & _ & [|Hpol] & Hps); [done|].
        intros Hm. pose proof (edited_policies_digest c d params (proj1 Hc) Hnd Hps o Ho) as E.
        fold m' in E. rewrite Hm, fmap_empty in E. unfold policy_map in E.
        destruct (ir_policies d) as [|[p h] l]; [done|]. symmetry in E.
        csimpl in E. by apply insert_non_empty in E.
Qed.

(** Third order: policies only and none survives, so new addresses are added
    first. *)
Let fresh := fresh_of c add.
Let stale := filter (λ pv, pv.1 ∉ fresh.*1) add.

Lemma fresh_spec p v :
  (p, v) ∈ fresh ↔ (p, v) ∈ add ∧ p ∉ ip_policy <$> ir_policies c.
Proof.
  unfold fresh, fresh_of. rewrite list_elem_of_filter, Forall_forall, list_elem_of_fmap. simpl.
  naive_solver.
Qed.

Lemma add_value p v v' : (p, v) ∈ add → (p, v') ∈ add → v = v'.
Proof.
  intros Hv Hv'. assert (Hnd : NoDup add.*1) by (by eapply additions_NoDup; apply Hd).
  apply (elem_of_list_to_map_1 (M:=gmap Address)) in Hv, Hv'; [|done..]. congruence.
Qed.

Lemma stale_spec p v :
  (p, v) ∈ stale ↔ (p, v) ∈ add ∧ p ∈ ip_policy <$> ir_policies c.
Proof.
  unfold stale. rewrite list_elem_of_filter, list_elem_of_fmap. simpl. split.
  - intros [Hn Ha]. split; [done|].
    destruct (decide (p ∈ ip_policy <$> ir_policies c)); [done|].
    destruct Hn. exists (p, v). by rewrite fresh_spec.
  - intros [Ha Hc']. split; [|done]. intros ([p' v'] & E & Hf). simpl in E. subst p'.
    by apply fresh_spec in Hf as [_ []].
Qed.

Lemma split_NoDup : NoDup fresh.*1 ∧ NoDup stale.*1.
Proof.
  assert (Hnd : NoDup add.*1) by (by eapply additions_NoDup; apply Hd).
  split; (eapply sublist_NoDup; [exact Hnd|apply fmap_sublist, sublist_filter]).
Qed.

(** Adding the new addresses first gives the same policies. *)
Lemma split_policies :
  list_to_map stale ∪ without (to_remove c d) (list_to_map fresh ∪ oz_policies o) = m'.
Proof.
  destruct split_NoDup as [Hnf Hns].
  assert (Hnd : NoDup add.*1) by (by eapply additions_NoDup; apply Hd).
  apply map_eq. intros p. apply option_eq. intros v. unfold m', edited_policies. fold add.
  rewrite !lookup_union_Some_raw, !lookup_without, <- !elem_of_list_to_map,
    <- !not_elem_of_list_to_map, stale_spec by done.
  assert (Hrm : p ∈ to_remove c d → p ∈ ip_policy <$> ir_policies c).
  { intros (q & Hq & _ & <-)%elem_of_to_remove. apply list_elem_of_fmap. eauto. }
  assert (Hst : p ∉ stale.*1 ↔ p ∉ add.*1 ∨ p ∉ ip_policy <$> ir_policies c).
  { split.
    - intros Hn. destruct (decide (p ∈ ip_policy <$> ir_policies c)); [left|by right].
      intros ([p' v'] & E & Ha)%list_elem_of_fmap. simpl in E. subst p'.
      destruct Hn. apply list_elem_of_fmap. exists (p, v'). by rewrite stale_spec.
    - intros Hn ([p' v'] & E & Ha)%list_elem_of_fmap. simpl in E. subst p'.
      apply stale_spec in Ha as [Ha Hc']. destruct Hn as [Hn|Hn]; [|done].
      destruct Hn. apply list_elem_of_fmap. by exists (p, v'). }
  rewrite Hst. clear Hst.
  destruct (decide (p ∈ ip_policy <$> ir_policies c)) as [Hin|Hin].
  - assert ((list_to_map fresh : gmap Address Val) !! p = None) as Hf.
    { apply not_elem_of_list_to_map_1. intros ([p' v'] & E & Ha)%list_elem_of_fmap.
      simpl in E. subst. by apply fresh_spec in Ha as []. }
    case_decide; [naive_solver|]. rewrite (lookup_union_r _ _ _ Hf). naive_solver.
  - rewrite decide_False by naive_solver. rewrite decide_False by naive_solver.
    assert (oz_policies o !! p = None) as Hn by by apply (represents_policy_None o c).
    rewrite lookup_union_Some_raw, <- elem_of_list_to_map, fresh_spec, Hn by done. naive_solver.
Qed.

Lemma split_length : length fresh + length stale = length add.
Proof.
  assert (Hnd : NoDup add.*1) by (by eapply additions_NoDup; apply Hd).
  apply NoDup_fmap_1 in Hnd. rewrite <- length_app. apply Permutation_length, NoDup_Permutation.
  - apply NoDup_app. split_and!; [by apply NoDup_filter| |by apply NoDup_filter].
    intros [p v] Hf%fresh_spec Hs%stale_spec. naive_solver.
  - done.
  - intros [p v]. rewrite elem_of_app, fresh_spec, stale_spec.
    destruct (decide (p ∈ ip_policy <$> ir_policies c)); naive_solver.
Qed.

Lemma edited_size : size m' = length (ir_policies d).
Proof.
  destruct Hc as [Hnc _]. destruct Hd as ([Hnd _] & _ & _ & _ & _ & _ & Hps).
  rewrite <- (map_size_fmap params_digest).
  unfold m'. rewrite (edited_policies_digest c d params Hnc Hnd Hps o Ho). unfold policy_map.
  rewrite map_size_list_to_map; [by rewrite length_fmap|]. by rewrite <- list_fmap_compose.
Qed.

Lemma stale_absent p :
  p ∈ stale.*1 → without (to_remove c d) (list_to_map fresh ∪ oz_policies o) !! p = None.
Proof.
  intros ([p' v] & E & Hs)%list_elem_of_fmap. simpl in E. subst p'.
  apply stale_spec in Hs as [Ha Hin].
  assert (Hw : without (to_remove c d) (oz_policies o) !! p = None).
  { eapply additions_fresh; [apply Hc|apply Hd|apply Hd|done|].
    apply list_elem_of_fmap. by exists (p, v). }
  rewrite lookup_without in Hw |- *. case_decide; [done|].
  apply lookup_union_None. split; [|done]. apply not_elem_of_list_to_map_1.
  intros ([p' v'] & E & Hf)%list_elem_of_fmap. simpl in E. subst p'.
  by apply fresh_spec in Hf as [].
Qed.

Lemma edit_fresh_first :
  fresh ≠ [] → length (ir_policies c) + length fresh ≤ MAX_POLICIES →
  stage true c (with_policies m' o) (length fresh + (0 + length stale)) a
    (s ← each (λ pv, fx_add_policy c pv.1 pv.2) fresh a;
     s ← each (fx_remove_policy c) (to_remove c d) s;
     each (λ pv, fx_add_policy c pv.1 pv.2) stale s).
Proof.
  intros Hne Hmax. pose proof Hids as Hw. unfold weight in Hw.
  destruct split_NoDup as [Hnf Hns]. pose proof split_length as Hlen.
  destruct (edit_add_sizes (with_policies (without (to_remove c d) (oz_policies o)) o) eq_refl)
    as [_ Hadd].
  assert (Hsub : ∀ l, (∀ pv, pv ∈ l → pv ∈ add) → Forall (λ pv, installs pv.1 pv.2) l).
  { intros l Hsub. apply Forall_forall. intros pv Hin.
    by apply (proj1 (Forall_forall _ _) edit_installs), Hsub. }
  eapply stage_seq; [apply (additions_stage c fresh o a Hl Hnf)|].
  - intros p ([p' v] & E & Hf)%list_elem_of_fmap. simpl in E. subst p'.
    apply (represents_policy_None o c); [done|]. by apply fresh_spec in Hf as [].
  - by rewrite (represents_size o c Ho (proj1 Hc)).
  - apply Hsub. intros [p v] Hf. by apply fresh_spec in Hf as [].
  - lia.
  - intros a1 Hev Hq. eapply stage_seq; [eapply edit_remove_stage|].
    + by eapply evolved_lookup.
    + intros p Hp. simpl. apply lookup_union_is_Some. right. by apply edit_removable.
    + right. destruct fresh as [|[p v] l] eqn:Ef; [done|]. exists p. simpl. split.
      * intros (q & Hq' & _ & <-)%elem_of_to_remove.
        assert (Hin : (ip_policy q, v) ∈ fresh_of c add) by (fold fresh; rewrite Ef; left).
        apply fresh_spec in Hin as [_ []]. apply list_elem_of_fmap. eauto.
      * apply lookup_union_is_Some. left. rewrite lookup_insert_eq. eauto.
    + done.
    + intros a2 Hev2 _. rewrite <- split_policies.
      apply (additions_stage c stale (with_policies
        (without (to_remove c d) (list_to_map fresh ∪ oz_policies o)) o)).
      * by eapply evolved_lookup.
      * done.
      * apply stale_absent.
      * simpl. etransitivity; [|apply Hd]. rewrite <- edited_size, <- split_policies.
        rewrite map_size_disj_union.
        -- rewrite map_size_list_to_map by done. lia.
        -- apply map_disjoint_spec. intros p v v' Hs%elem_of_list_to_map_2 Hw'.
           rewrite stale_absent in Hw'; [done|]. apply list_elem_of_fmap. by exists (p, v).
      * apply Hsub. intros [p v] Hs. by apply stale_spec in Hs as [].
      * destruct Hev, Hev2. lia.
Qed.

(** An in-place edit either has no valid order and does nothing, or succeeds
    and turns the rule into the target, whatever the order. *)
Lemma edit_run :
  edit (Apply_effects e) c d params a = Some (false, a) ∨
  ∃ a', edit (Apply_effects e) c d params a = Some (true, a') ∧
    evolved (ir_id c) edited (weight d) (ap_oz a) (ap_oz a') ∧ quiet true (ir_id c) a a'.
Proof.
  assert (Hov : oz_valid_until o = ir_valid_until c) by apply Ho.
  assert (Hos : oz_signers o = ir_signers c) by apply Ho.
  destruct (edit_add_sizes (with_policies (without (to_remove c d) (oz_policies o)) o) eq_refl)
    as [_ Hadd].
  unfold edit. rewrite edit_additions. cbn [mbind option_bind]. fold fresh stale.
  destruct (is_empty (ir_signers d)) eqn:Hsd; cbn [negb].
  - destruct (ir_signers d) as [|] eqn:Ed; [|done].
    destruct (negb (is_empty (ir_signers c)) || _) eqn:Hk; [right|
      destruct (negb (is_empty fresh) && _) eqn:Hf; [right|by left]].
    + rewrite <- Ed. eapply (finish_stage (with_policies m' (with_signers (ir_signers d) o)));
        [exact Hov| |unfold weight|done].
      * apply edit_signers_last; [done|]. apply orb_true_iff in Hk as [Hk|Hk].
        -- left. by apply negb_true_iff, is_empty_false in Hk.
        -- destruct (decide (ir_signers c = [])) as [Hc0|]; [right|by left].
           apply edit_kept; [done|]. apply Nat.ltb_lt in Hk. by rewrite Ed.
      * rewrite Ed. simpl. lia.
    + apply andb_true_iff in Hf as [Hf Hm]. apply negb_true_iff, is_empty_false in Hf.
      apply Nat.leb_le in Hm. apply orb_false_iff in Hk as [Hk _].
      apply negb_false_iff in Hk. assert (ir_signers c = []) by by destruct (ir_signers c).
      pose proof split_length.
      eapply (finish_stage (with_policies m' o)); [exact Hov|by apply edit_fresh_first|unfold weight; lia|].
      unfold edited. rewrite (with_signers_id o); [done|]. by rewrite Hos, Ed.
  - right. eapply (finish_stage (with_policies m' (with_signers (ir_signers d) o)));
      [exact Hov|apply edit_signers_first|unfold weight; lia|done].
    by apply is_empty_false.
Qed.
End edit.
End facts.
