(* ===== verification/RulesRun.v ===== *)
(** * Rule-set reconciliation: the whole run

    The rules in force after [reconcile] are the desired ones, once each, for
    every mode, the full replacement included; so the delta and the full
    replacement grant the same. *)

From S2P Require Import Prelude Host Program RecoveryIface CompilerIface Rules RulesFacts.

Section run_facts.
Context {H : Host} {I : Infra} {V : Values} {Oz : OZ} {OL : OzLaws} (e : Env).
#[local] Instance apply_run : Effects Apply := Apply_effects e.

Definition rules (a : Apply) : gmap N OzRule := rules_of (ap_oz a).

(** ** Removing, adding and replacing one rule *)

(** The rule counts of a summary, as the difference they make. *)
Definition counted (added removed : N) (a a' : Apply) : Prop :=
  rules_added (ap_sum a') = (rules_added (ap_sum a) + added)%N ∧
  rules_removed (ap_sum a') = (rules_removed (ap_sum a) + removed)%N.

Lemma remove_run c o a :
  rules a !! ir_id c = Some o →
  ∃ a', fx_remove_rule c a = Some a' ∧ rules a' = delete (ir_id c) (rules a) ∧
    ids_left (ap_oz a) ≤ ids_left (ap_oz a') ∧ ap_rule a' = ap_rule a ∧ counted 0 1 a a'.
Proof.
  intros Hl. destruct (remove_rule_ok e _ _ _ Hl) as (st' & E & Hr & Hk & _).
  simpl. rewrite E. simpl. eexists. split; [done|]. unfold rules, counted. simpl.
  split_and!; done || lia.
Qed.

Lemma policy_params_map ps : ∀ vs m,
  length ps = length vs → NoDup (ip_policy <$> ps) →
  (∀ p, p ∈ ip_policy <$> ps → m !! p = None) →
  policy_params ps vs m = Some (list_to_map (zip (ip_policy <$> ps) vs) ∪ m).
Proof.
  induction ps as [|q ps IH]; intros [|v vs] m Hlen Hnd Hm; try done; csimpl in *.
  - by rewrite (left_id_L ∅ (∪)).
  - apply NoDup_cons in Hnd as [Hq Hnd]. rewrite IH; [|lia|done|].
    + f_equal. rewrite <- insert_union_l, insert_union_r; [done|].
      apply not_elem_of_list_to_map_1. contradict Hq.
      apply list_elem_of_fmap in Hq as ([p v'] & E & Hin). simpl in E. rewrite E.
      apply list_elem_of_lookup in Hin as [i Hin]. apply lookup_zip_Some in Hin as [Hi _].
      by eapply list_elem_of_lookup_2.
    + intros p Hp. rewrite lookup_insert_ne by (intros <-; done). apply Hm. by right.
Qed.

Lemma wanted_policies d params :
  wanted_ok e d params →
  ∃ m, policy_params (ir_policies d) params ∅ = Some m ∧ params_digest <$> m = policy_map d ∧
    size m = length (ir_policies d) ∧ map_Forall installs m.
Proof.
  intros ([Hnd _] & _ & _ & _ & _ & _ & Hps).
  pose proof (Forall2_length _ _ _ Hps) as Hlen.
  set (l := zip (ip_policy <$> ir_policies d) params).
  assert (Hl : l.*1 = ip_policy <$> ir_policies d)
    by (apply fst_zip; rewrite length_fmap; lia).
  assert (Hnl : NoDup l.*1) by by rewrite Hl.
  assert (Hin : ∀ p v, (p, v) ∈ l → ∃ q, q ∈ ir_policies d ∧ ip_policy q = p ∧
    ip_params q = params_digest v ∧ installs p v).
  { intros p v Hin. apply list_elem_of_lookup in Hin as [i Hin].
    apply lookup_zip_Some in Hin as [Hp Hv]. apply list_lookup_fmap_Some in Hp as (q & -> & Hq).
    destruct (Forall2_lookup_lr _ _ _ _ _ _ Hps Hq Hv).
    exists q. split_and!; [by eapply list_elem_of_lookup_2|done..]. }
  exists (list_to_map l). split_and!.
  - rewrite policy_params_map; [by rewrite (right_id_L ∅ (∪))|done|done|].
    intros. apply lookup_empty.
  - apply map_eq. intros p. rewrite lookup_fmap.
    destruct ((list_to_map l : gmap Address Val) !! p) as [v|] eqn:E; simpl; symmetry.
    + apply elem_of_list_to_map_2 in E. destruct (Hin _ _ E) as (q & Hq & <- & Hv & _).
      apply policy_map_lookup; [done|]. rewrite <- Hv. by destruct q.
    + apply policy_map_None. rewrite <- Hl. by apply not_elem_of_list_to_map_2.
  - rewrite map_size_list_to_map by done. unfold l. rewrite length_zip, length_fmap. lia.
  - intros p v Hm. apply elem_of_list_to_map_2 in Hm. by destruct (Hin _ _ Hm) as (? & _ & _ & _ & ?).
Qed.

Lemma add_run d params a :
  wanted_ok e d params → weight d ≤ ids_left (ap_oz a) →
  ∃ id a' o, fx_add_rule d params a = Some (id, a') ∧ rules a !! id = None ∧
    rules a' = <[id := o]> (rules a) ∧ represents o d ∧
    ids_left (ap_oz a) ≤ ids_left (ap_oz a') + weight d ∧ ap_rule a' = ap_rule a ∧
    counted 1 0 a a'.
Proof.
  intros Hd Hw. destruct (wanted_policies _ _ Hd) as (m & E & Hm & Hs & Hi).
  pose proof Hd as (_ & Hn & Hv & Hsig & Hmax & Hne & _). unfold weight in *.
  destruct (add_rule_ok e (ap_oz a) (ir_context_type d) (ir_name d) (ir_valid_until d)
    (ir_signers d) m) as (id & st' & E2 & Hfr & Hr & Hk & _); [done..|lia| |done|lia|].
  { destruct Hne as [|Hne]; [by left|right]. simpl. intros ->. rewrite map_size_empty in Hs.
    by destruct (ir_policies d). }
  simpl. rewrite E. simpl. rewrite E2. simpl. eexists id, _, _. split; [done|].
  unfold rules, counted. simpl. split_and!; done || lia.
Qed.

Lemma replace_run c d params o a :
  rules a !! ir_id c = Some o → wanted_ok e d params → weight d ≤ ids_left (ap_oz a) →
  ∃ id a' o', replace (Apply_effects e) c d params a = Some (id, a') ∧
    delete (ir_id c) (rules a) !! id = None ∧
    rules a' = <[id := o']> (delete (ir_id c) (rules a)) ∧ represents o' d ∧
    ids_left (ap_oz a) ≤ ids_left (ap_oz a') + weight d ∧ ap_rule a' = ap_rule a ∧
    counted 1 1 a a'.
Proof.
  intros Hl Hd Hw. change (Apply_effects e) with apply_run. unfold replace.
  destruct (remove_run _ _ _ Hl) as (a1 & E1 & Hr1 & Hk1 & Hc1 & Hs1 & Hs1').
  rewrite E1. cbn [mbind option_bind].
  destruct (add_run d params a1 Hd) as (id & a2 & o' & E2 & Hf & Hr2 & Hrep & Hk2 & Hc2 & Hs2 & Hs2');
    [lia|]. rewrite Hr1 in Hf, Hr2.
  exists id, a2, o'. unfold counted. split_and!; done || congruence || lia.
Qed.

(** ** The records along the run *)

Lemma installed_perm m l l' : l ≡ₚ l' → installed m l → installed m l'.
Proof.
  intros Hp (Hnd & Hr & Hid). split_and!.
  - by rewrite <- Hp.
  - intros r. rewrite <- Hp. apply Hr.
  - intros id Hs. rewrite <- Hp. by apply Hid.
Qed.

Lemma with_id_represents o d id : represents o d → represents o (with_id d id).
Proof. done. Qed.

Lemma installed_delete m c l :
  installed m (c :: l) → installed (delete (ir_id c) m) l.
Proof.
  intros (Hnd & Hr & Hid). csimpl in *. apply NoDup_cons in Hnd as [Hc Hnd]. split_and!; [done|..].
  - intros r Hin. rewrite lookup_delete_ne; [apply Hr; by right|].
    intros E. destruct Hc. rewrite E. apply list_elem_of_fmap. eauto.
  - intros id [x Hx]. apply lookup_delete_Some in Hx as [Hne Hx].
    assert (Hin : id ∈ ir_id c :: (ir_id <$> l)) by (apply Hid; eauto).
    by apply elem_of_cons in Hin as [->|].
Qed.

Lemma installed_insert m d id o l :
  installed m l → m !! id = None → represents o d → installed (<[id := o]> m) (with_id d id :: l).
Proof.
  intros (Hnd & Hr & Hid) Hf Ho.
  assert (Hni : id ∉ ir_id <$> l).
  { intros (r & -> & Hin)%list_elem_of_fmap. destruct (Hr _ Hin) as (? & E & _). congruence. }
  split_and!; csimpl.
  - by apply NoDup_cons.
  - intros r [->|Hin]%elem_of_cons; [exists o; by rewrite lookup_insert_eq|].
    rewrite lookup_insert_ne; [by apply Hr|]. intros ->. destruct Hni.
    apply list_elem_of_fmap. eauto.
  - intros id' [x Hx]. destruct (decide (id' = id)) as [->|]; [left|right].
    rewrite lookup_insert_ne in Hx by done. apply Hid. eauto.
Qed.

Lemma installed_replace m c d o l :
  installed m (c :: l) → represents o d →
  installed (<[ir_id c := o]> m) (with_id d (ir_id c) :: l).
Proof.
  intros Hi Ho. rewrite <- insert_delete_eq. apply installed_insert; [|by rewrite lookup_delete_eq|done].
  by apply installed_delete.
Qed.

Lemma installed_lookup m c l :
  installed m (c :: l) → ∃ o, m !! ir_id c = Some o ∧ represents o c.
Proof. intros (_ & Hr & _). apply Hr. left. Qed.

(** ** Slots *)

Definition slot (r : InstalledRule) : bool * string * ContextRuleType :=
  (ir_recovery r, if ir_recovery r then "" else ir_name r, ir_context_type r)%string.

Lemma same_slot_slot r r' : same_slot r r' = true ↔ slot r = slot r'.
Proof.
  rewrite same_slot_spec. unfold slot. destruct (ir_recovery r), (ir_recovery r'); split;
    try (intros (? & Hn & ->); try done; try rewrite (Hn eq_refl); done);
    intros E; simplify_eq; split_and!; congruence.
Qed.

Lemma existsb_slot c wanted : existsb (same_slot c) wanted = true ↔ slot c ∈ slot <$> wanted.
Proof.
  rewrite existsb_exists, list_elem_of_fmap. setoid_rewrite same_slot_slot.
  split; intros (x & ? & ?); exists x; split; try done; by apply list_elem_of_In.
Qed.

(** The records whose slot one of the rules [ds] still has to take. *)
Definition waiting (current ds : list InstalledRule) : list InstalledRule :=
  filter (λ c, slot c ∈ slot <$> ds) current.

Definition total_weight (ds : list InstalledRule) : nat := sum_list (weight <$> ds).

Lemma waiting_nil current : waiting current [] = [].
Proof.
  unfold waiting. induction current; [done|].
  rewrite filter_cons_False; [done|]. apply not_elem_of_nil.
Qed.

Lemma waiting_skip current d ds :
  slot d ∉ slot <$> current → waiting current (d :: ds) = waiting current ds.
Proof.
  unfold waiting. induction current as [|c current IH]; [done|]. csimpl.
  intros [Hne Hn]%not_elem_of_cons. specialize (IH Hn).
  destruct (decide (slot c ∈ slot <$> ds)).
  - rewrite !filter_cons_True by (done || by right). by f_equal.
  - rewrite !filter_cons_False; [done..|]. apply not_elem_of_cons. split; congruence.
Qed.

Lemma waiting_take current c d ds :
  c ∈ current → slot c = slot d → NoDup (slot <$> current) → slot d ∉ slot <$> ds →
  waiting current (d :: ds) ≡ₚ c :: waiting current ds.
Proof.
  unfold waiting. induction current as [|c' current IH]; [by intros ?%elem_of_nil|].
  csimpl. intros Hin Hs [Hc' Hnd]%NoDup_cons Hd.
  destruct (decide (c' = c)) as [->|Hne].
  - rewrite filter_cons_True by (rewrite Hs; left).
    rewrite filter_cons_False by (by rewrite Hs). f_equiv.
    change (waiting current (d :: ds) ≡ₚ waiting current ds).
    rewrite waiting_skip; [done|]. by rewrite <- Hs.
  - apply elem_of_cons in Hin as [|Hin]; [done|].
    assert (slot c' ≠ slot d).
    { intros E. destruct Hc'. rewrite E, <- Hs. apply list_elem_of_fmap. eauto. }
    destruct (decide (slot c' ∈ slot <$> ds)).
    + rewrite !filter_cons_True by (done || by right). rewrite IH by done. apply perm_swap.
    + rewrite (filter_cons_False _ c'), (filter_cons_False _ c').
      * by apply IH.
      * done.
      * apply not_elem_of_cons. split; congruence.
Qed.

(** ** The two phases of a run *)

Lemma run_record_keep wanted c s :
  existsb (same_slot c) wanted = true → run_record e wanted c s = Some s.
Proof. unfold run_record. by intros ->. Qed.

Lemma run_record_remove wanted c s a :
  existsb (same_slot c) wanted = false → rs_planned s = None →
  fx_remove_rule c (rs_apply s) = Some a →
  ∃ refs, run_record e wanted c s = Some {| rs_refs := refs; rs_apply := a; rs_planned := None |}.
Proof.
  unfold run_record, live. intros -> -> E. change (apply e) with apply_run. rewrite E. by eexists.
Qed.

Lemma records_run wanted l : ∀ kept s,
  installed (rules (rs_apply s)) (kept ++ l) → rs_planned s = None →
  ∃ s', each (run_record e wanted) l s = Some s' ∧
    installed (rules (rs_apply s')) (kept ++ waiting l wanted) ∧ rs_planned s' = None ∧
    ap_rule (rs_apply s') = ap_rule (rs_apply s) ∧
    ids_left (ap_oz (rs_apply s)) ≤ ids_left (ap_oz (rs_apply s')) ∧
    rules_added (ap_sum (rs_apply s')) = rules_added (ap_sum (rs_apply s)) ∧
    (rules_removed (ap_sum (rs_apply s')) + N.of_nat (length (waiting l wanted)) =
     rules_removed (ap_sum (rs_apply s)) + N.of_nat (length l))%N.
Proof.
  induction l as [|c l IH]; intros kept s Hi Hp; cbn [each].
  - exists s. by split_and!.
  - unfold waiting. destruct (existsb (same_slot c) wanted) eqn:Ex.
    + rewrite filter_cons_True by by apply existsb_slot. fold (waiting l wanted).
      rewrite run_record_keep by done. cbn [mbind option_bind].
      destruct (IH (kept ++ [c]) s) as (s' & E & Hi' & Hp' & Hr & Hk & Ha & Hc);
        [by rewrite <- (assoc_L (++))|done|].
      exists s'. rewrite <- (assoc_L (++)) in Hi'. cbn [length app] in *. split_and!; done || lia.
    + rewrite filter_cons_False; [|by rewrite <- existsb_slot, Ex]. fold (waiting l wanted).
      assert (Hi1 : installed (rules (rs_apply s)) (c :: kept ++ l)).
      { eapply installed_perm; [|done]. by rewrite Permutation_middle. }
      destruct (installed_lookup _ _ _ Hi1) as (o & Hl & _).
      destruct (remove_run _ _ _ Hl) as (a1 & E1 & Hr1 & Hk1 & Hc1 & Hs1 & Hs1').
      destruct (run_record_remove wanted c s a1 Ex Hp E1) as (refs & ->). cbn [mbind option_bind].
      destruct (IH kept {| rs_refs := refs; rs_apply := a1; rs_planned := None |})
        as (s' & E & Hi' & Hp' & Hr & Hk & Ha & Hc); [|done|].
      { simpl. rewrite Hr1. by apply installed_delete. }
      exists s'. cbn [length rs_apply] in *. split_and!; done || lia || congruence.
Qed.

(** What holds before the rules [ds] are processed, [next] being done. *)
Definition underway (current ds next : list InstalledRule) (s : RunState) : Prop :=
  installed (rules (rs_apply s)) (waiting current ds ++ next) ∧ rs_planned s = None ∧
  total_weight ds ≤ ids_left (ap_oz (rs_apply s)) ∧
  (∀ cr, ap_rule (rs_apply s) = Some cr → rule_id cr ∉ ir_id <$> waiting current ds) ∧
  (rules_added (ap_sum (rs_apply s)) + N.of_nat (length current) =
   rules_removed (ap_sum (rs_apply s)) + N.of_nat (length (waiting current ds ++ next)))%N.

(** The pricing never fails. *)
Lemma each_total {A S} (f : A → S → option S) l s :
  (∀ x s, is_Some (f x s)) → is_Some (each f l s).
Proof.
  intros Hf. revert s. induction l as [|x l IH]; intros s; simpl; [eauto|].
  destruct (Hf x s) as [s' ->]. apply IH.
Qed.

Lemma edit_meter_total c d params m :
  wanted_ok e d params →
  ∃ m', edit (Meter_effects (hooks_of e)) c d params m =
    Some (editable c d (additions c (ir_policies d) params), m').
Proof.
  intros Hd. assert (Ht : is_Some (edit (Meter_effects (hooks_of e)) c d params m)).
  { unfold edit. rewrite (edit_additions e c d params Hd). cbn [mbind option_bind].
    repeat match goal with
    | |- is_Some (if ?b then _ else _) => destruct b
    | |- is_Some ((if ?b then _ else _) ≫= _) => destruct b
    | |- is_Some ((each ?f ?l ?s) ≫= _) =>
        let E := fresh in
        assert (E : is_Some (each f l s)) by (apply each_total; intros; simpl; eauto);
        destruct E as [? ->]; cbn [mbind option_bind]
    | |- is_Some ((_ ≫= _) ≫= _) => rewrite option_bind_assoc; unfold compose
    | _ => progress simpl
    | |- is_Some (Some _) => eauto
    end. }
  destruct Ht as [[b m'] E]. exists m'. rewrite E.
  apply edit_decision in E as (add & E & ->). rewrite (edit_additions e c d params Hd) in E.
  by injection E as <-.
Qed.

Lemma total_weight_cons d ds : total_weight (d :: ds) = weight d + total_weight ds.
Proof. done. Qed.

(** A slot's step, once its operations are known: the records, the budget,
    the cache and the counts move on together. *)
Lemma underway_next current ds d next s refs a r l :
  underway current (d :: ds) next s →
  waiting current (d :: ds) ++ next ≡ₚ l →
  installed (rules a) (waiting current ds ++ next ++ [r]) →
  ids_left (ap_oz (rs_apply s)) ≤ ids_left (ap_oz a) + weight d →
  (∀ cr, ap_rule a = Some cr → rule_id cr ∉ ir_id <$> waiting current ds) →
  (rules_added (ap_sum a) + rules_removed (ap_sum (rs_apply s)) + N.of_nat (length l) =
   rules_removed (ap_sum a) + rules_added (ap_sum (rs_apply s)) +
   N.of_nat (length (waiting current ds ++ next ++ [r])))%N →
  underway current ds (next ++ [r]) {| rs_refs := refs; rs_apply := a; rs_planned := None |}.
Proof.
  intros (_ & Hp & Hw & _ & Hcnt) Hl Hi Hk Hc Hn. rewrite total_weight_cons in Hw.
  rewrite Hl in Hcnt. split_and!; simpl; [done|done|lia|done|lia].
Qed.

Section slot_step.
Context (current ds next : list InstalledRule) (d : InstalledRule) (p : list Val) (s : RunState).
Hypothesis (Hslots : NoDup (slot <$> current)).
Hypothesis (Hrec : Forall record_ok current).
Hypothesis (Hnew : slot d ∉ slot <$> ds).
Hypothesis (Hd : wanted_ok e d p).
Hypothesis (Hu : underway current (d :: ds) next s).

Lemma budget : weight d ≤ ids_left (ap_oz (rs_apply s)).
Proof. destruct Hu as (_ & _ & Hw & _). rewrite total_weight_cons in Hw. lia. Qed.

(** The step on a slot no record has. *)
Lemma slot_add :
  slot d ∉ slot <$> current →
  ∃ id a, fx_add_rule d p (rs_apply s) = Some (id, a) ∧ ∀ refs,
    underway current ds (next ++ [with_id d id])
      {| rs_refs := refs; rs_apply := a; rs_planned := None |}.
Proof.
  intros Hno. pose proof Hu as (Hi & Hp & _ & Hc & _).
  destruct (add_run d p _ Hd budget) as (id & a & o & E & Hf & Hr & Ho & Hk & Hca & Hs1 & Hs2).
  exists id, a. split; [done|]. intros refs.
  pose proof (waiting_skip current d ds Hno) as Hw.
  eapply (underway_next _ _ d next s refs a _ (waiting current ds ++ next)); [done|by rewrite Hw|..].
  - rewrite Hr, (assoc_L (++)).
    eapply installed_perm; [|apply (installed_insert _ d id o); [|done|done]].
    + apply Permutation_cons_append.
    + by rewrite <- Hw.
  - done.
  - rewrite Hca, <- Hw. done.
  - rewrite !length_app. simpl. lia.
Qed.

Context (c : InstalledRule).
Hypothesis (Hc : c ∈ current).
Hypothesis (Hsame : slot c = slot d).

Lemma slot_waiting : waiting current (d :: ds) ++ next ≡ₚ c :: waiting current ds ++ next.
Proof. by rewrite (waiting_take current c d ds). Qed.

Lemma slot_rule :
  ∃ o, rules (rs_apply s) !! ir_id c = Some o ∧ represents o c ∧
    installed (rules (rs_apply s)) (c :: waiting current ds ++ next).
Proof.
  destruct Hu as (Hi & _).
  assert (Hi' : installed (rules (rs_apply s)) (c :: waiting current ds ++ next))
    by (eapply installed_perm; [apply slot_waiting|done]).
  destruct (installed_lookup _ _ _ Hi') as (o & ? & ?). eauto.
Qed.

Lemma waiting_perm : waiting current (d :: ds) ≡ₚ c :: waiting current ds.
Proof. by apply waiting_take. Qed.

Lemma cache_rest cr : ap_rule (rs_apply s) = Some cr →
  rule_id cr ≠ ir_id c ∧ rule_id cr ∉ ir_id <$> waiting current ds.
Proof.
  destruct Hu as (_ & _ & _ & Hcr & _). intros E. specialize (Hcr cr E).
  rewrite waiting_perm in Hcr. by apply not_elem_of_cons in Hcr.
Qed.

(** The step on an unchanged rule. *)
Lemma unchanged_represents o : represents o c → unchanged c d = true → represents o d.
Proof.
  unfold unchanged. rewrite !andb_true_iff, !bool_decide_eq_true, !forallb_forall.
  setoid_rewrite contains_true. setoid_rewrite <- list_elem_of_In.
  intros (Hctx & Hn & Hv & Hs & Hm) [[[E1 E2] E3] E4].
  assert (Hco : record_ok c) by (by eapply Forall_forall in Hrec).
  assert (Hdo : record_ok d) by apply Hd.
  split_and!; try congruence.
  - rewrite Hctx. by injection Hsame.
  - rewrite Hn. by apply same_slot_name, same_slot_slot.
  - rewrite Hm. apply map_eq. intros q. apply option_eq. intros h.
    rewrite !policy_map_lookup by (apply Hco || apply Hdo). naive_solver.
Qed.

Lemma slot_keep :
  unchanged c d = true →
  underway current ds (next ++ [with_id d (ir_id c)])
    {| rs_refs := rs_refs s; rs_apply := rs_apply s; rs_planned := None |}.
Proof.
  intros Hun. destruct slot_rule as (o & Hl & Ho & Hi).
  eapply (underway_next _ _ d next s); [done|apply slot_waiting|..].
  - rewrite <- (insert_id _ _ _ Hl).
    eapply installed_perm; [|apply (installed_replace _ c d o); [done|]].
    + rewrite (assoc_L (++)). apply Permutation_cons_append.
    + by apply unchanged_represents.
  - lia.
  - intros cr E. by apply cache_rest.
  - cbn [length]. rewrite !length_app. simpl. lia.
Qed.

(** The step that edits in place. *)
Lemma slot_edit :
  editable c d (additions c (ir_policies d) p) = true →
  ∃ a, edit (Apply_effects e) c d p (rs_apply s) = Some (true, a) ∧ ∀ refs,
    underway current ds (next ++ [with_id d (ir_id c)])
      {| rs_refs := refs; rs_apply := tally 0 0 1 0 0 0 0 a; rs_planned := None |}.
Proof.
  intros Hed. destruct slot_rule as (o & Hl & Ho & Hi).
  assert (Hco : record_ok c) by (by eapply Forall_forall in Hrec).
  assert (Hss : same_slot c d = true) by (by apply same_slot_slot).
  destruct (edit_run e c d p o (rs_apply s) Hco Hd Ho Hl budget) as [E|(a & E & Hev & Hq)].
  { intros cr Hcr. by apply cache_rest. }
  { apply edit_decision in E as (add & Ea & Ef). rewrite (edit_additions e c d p Hd) in Ea.
    injection Ea as <-. congruence. }
  exists a. split; [done|]. intros refs. destruct Hev as [Hev Hk]. destruct Hq as (Q1 & Q2 & Q3).
  eapply (underway_next _ _ d next s); [done|apply slot_waiting|..].
  - unfold rules. simpl. rewrite Hev.
    eapply installed_perm; [|apply (installed_replace _ c d (edited c d p o)); [done|]].
    + rewrite (assoc_L (++)). apply Permutation_cons_append.
    + by eapply edited_represents.
  - done.
  - simpl. intros cr Hcr. destruct Q3 as [Q3|(_ & cr' & Q3 & Q4)].
    + rewrite Q3 in Hcr. by apply cache_rest.
    + assert (cr' = cr) as -> by congruence. rewrite Q4.
      destruct Hi as (Hnd & _). csimpl in Hnd. apply NoDup_cons in Hnd as [Hnd _].
      contradict Hnd. rewrite fmap_app. apply elem_of_app. by left.
  - simpl. rewrite !length_app. simpl. lia.
Qed.

(** The step that replaces the rule. *)
Lemma slot_replace :
  ∃ id a, replace (Apply_effects e) c d p (rs_apply s) = Some (id, a) ∧ ∀ refs,
    underway current ds (next ++ [with_id d id])
      {| rs_refs := refs; rs_apply := a; rs_planned := None |}.
Proof.
  destruct slot_rule as (o & Hl & Ho & Hi).
  destruct (replace_run c d p o _ Hl Hd budget) as
    (id & a & o' & E & Hf & Hr & Ho' & Hk & Hca & Hs1 & Hs2).
  exists id, a. split; [done|]. intros refs.
  eapply (underway_next _ _ d next s); [done|apply slot_waiting|..].
  - rewrite Hr, (assoc_L (++)).
    eapply installed_perm; [|apply (installed_insert _ d id o'); [|done|done]].
    + apply Permutation_cons_append.
    + by apply installed_delete.
  - done.
  - rewrite Hca. intros cr Hcr. by apply cache_rest.
  - cbn [length]. rewrite !length_app. simpl. lia.
Qed.
End slot_step.

Lemma find_slot current d :
  match find_first (λ c, same_slot c d) current with
  | Some c => c ∈ current ∧ slot c = slot d
  | None => slot d ∉ slot <$> current
  end.
Proof.
  destruct (find_first _ current) as [c|] eqn:E.
  - apply find_first_Some in E as [? ?]. by rewrite <- same_slot_slot.
  - apply find_first_None in E. intros (c & Hs & Hin)%list_elem_of_fmap.
    eapply Forall_forall in E; [|done]. simpl in E.
    apply eq_sym, same_slot_slot in Hs. congruence.
Qed.

Lemma replace_meter_total c d p m :
  ∃ x m', replace (Meter_effects (hooks_of e)) c d p m = Some (x, m').
Proof. by eexists _, _. Qed.

Lemma run_slot_ok current params mode i d p ds next s :
  NoDup (slot <$> current) → Forall record_ok current → slot d ∉ slot <$> ds →
  params !! i = Some p → wanted_ok e d p → underway current (d :: ds) next s →
  ∃ r s', run_slot e current params mode i d s = Some (r, s') ∧ r = with_id d (ir_id r) ∧
    underway current ds (next ++ [r]) s'.
Proof.
  intros Hslots Hrec Hnew Hp Hd Hu. pose proof Hu as (_ & Hnone & _).
  unfold run_slot. rewrite Hp. cbn [mbind option_bind].
  pose proof (find_slot current d) as Hfind.
  destruct (find_first (λ c, same_slot c d) current) as [c|].
  - destruct Hfind as [Hin Hs]. destruct (unchanged c d) eqn:Hun.
    { eexists _, _. split; [done|]. rewrite Hnone. split; [done|]. by eapply slot_keep. }
    destruct (edit_meter_total c d p (Meter_new (rs_refs s)) Hd) as (m1 & E1).
    change (meter e) with (Meter_effects (hooks_of e)). rewrite E1.
    destruct (replace_meter_total c d p (Meter_new (rs_refs s))) as (x & m2 & E2). rewrite E2.
    cbn [mbind option_bind]. unfold live. rewrite Hnone. change (apply e) with (Apply_effects e).
    destruct (editable c d (additions c (ir_policies d) p) && _) eqn:Hip.
    + apply andb_true_iff in Hip as [Hed _].
      destruct (slot_edit current ds next d p s Hslots Hrec Hnew Hd Hu c Hin Hs Hed) as (a & E & Hu').
      rewrite E. eexists _, _. split; [done|]. by split.
    + destruct (slot_replace current ds next d p s Hslots Hnew Hd Hu c Hin Hs) as (id & a & E & Hu').
      rewrite E. eexists _, _. split; [done|]. by split.
  - destruct (slot_add current ds next d p s Hd Hu Hfind) as (id & a & E & Hu').
    change (meter e) with (Meter_effects (hooks_of e)).
    cbn [mbind option_bind fx_add_rule Meter_effects].
    unfold live. rewrite Hnone. change (apply e) with apply_run. rewrite E.
    eexists _, _. split; [done|]. by split.
Qed.

Lemma run_slots_ok current params mode ds : ∀ i next s,
  NoDup (slot <$> current) → Forall record_ok current → NoDup (slot <$> ds) →
  (∀ j d, ds !! j = Some d → ∃ p, params !! (i + j) = Some p ∧ wanted_ok e d p) →
  underway current ds next s →
  ∃ next' s', run_slots e current params mode i ds s = Some (next', s') ∧
    Forall2 (λ d r, r = with_id d (ir_id r)) ds next' ∧ underway current [] (next ++ next') s'.
Proof.
  induction ds as [|d ds IH]; intros i next s Hslots Hrec Hnd Hps Hu; cbn [run_slots].
  - exists [], s. rewrite (right_id_L [] (++)). by split_and!.
  - csimpl in Hnd. apply NoDup_cons in Hnd as [Hnew Hnd].
    destruct (Hps 0 d eq_refl) as (p & Hp & Hd). rewrite Nat.add_0_r in Hp.
    destruct (run_slot_ok current params mode i d p ds next s) as (r & s1 & E & Hr & Hu1); [done..|].
    rewrite E. cbn [mbind option_bind].
    destruct (IH (S i) (next ++ [r]) s1) as (next' & s' & E' & Hf & Hu'); [done..| |done|].
    { intros j d' Hj. destruct (Hps (S j) d' Hj) as (p' & Hp' & ?). exists p'.
      by rewrite Nat.add_succ_r in Hp'. }
    rewrite E'. exists (r :: next'), s'. split; [done|]. split; [by constructor|].
    by rewrite <- (assoc_L (++)) in Hu'.
Qed.

(** ** The full replacement *)

Lemma remove_all_run l : ∀ kept a,
  installed (rules a) (l ++ kept) →
  ∃ a', each fx_remove_rule l a = Some a' ∧ installed (rules a') kept ∧
    ids_left (ap_oz a) ≤ ids_left (ap_oz a') ∧ counted 0 (N.of_nat (length l)) a a'.
Proof.
  induction l as [|c l IH]; intros kept a Hi; cbn [each].
  - exists a. unfold counted. simpl. split_and!; done || lia.
  - destruct (installed_lookup _ _ _ Hi) as (o & Hl & _).
    destruct (remove_run _ _ _ Hl) as (a1 & E1 & Hr1 & Hk1 & Hc1 & Hs1 & Hs1').
    rewrite E1. cbn [mbind option_bind].
    destruct (IH kept a1) as (a' & E & Hi' & Hk & Hs & Hs').
    { rewrite Hr1. by apply installed_delete. }
    exists a'. unfold counted. cbn [length]. split_and!; done || lia.
Qed.

Lemma add_all_run params ds : ∀ i next a,
  (∀ j d, ds !! j = Some d → ∃ p, params !! (i + j) = Some p ∧ wanted_ok e d p) →
  installed (rules a) next → total_weight ds ≤ ids_left (ap_oz a) →
  ∃ next' a', add_all e params i ds a = Some (next', a') ∧
    Forall2 (λ d r, r = with_id d (ir_id r)) ds next' ∧ installed (rules a') (next ++ next') ∧
    counted (N.of_nat (length ds)) 0 a a'.
Proof.
  induction ds as [|d ds IH]; intros i next a Hps Hi Hw; cbn [add_all].
  - exists [], a. rewrite (right_id_L [] (++)). unfold counted. simpl.
    split_and!; done || lia.
  - destruct (Hps 0 d eq_refl) as (p & Hp & Hd). rewrite Nat.add_0_r in Hp.
    rewrite Hp. cbn [mbind option_bind]. rewrite total_weight_cons in Hw.
    destruct (add_run d p a Hd) as (id & a1 & o & E & Hf & Hr & Ho & Hk & Hca & Hs1 & Hs2); [lia|].
    change (apply e) with apply_run. rewrite E. cbn [mbind option_bind].
    destruct (IH (S i) (next ++ [with_id d id]) a1) as (next' & a' & E' & Hf2 & Hi' & Hs' & Hs2').
    { intros j d' Hj. destruct (Hps (S j) d' Hj) as (p' & Hp' & ?). exists p'.
      by rewrite Nat.add_succ_r in Hp'. }
    { rewrite Hr. eapply installed_perm; [apply Permutation_cons_append|].
      by apply installed_insert. }
    { lia. }
    rewrite E'. exists (with_id d id :: next'), a'. unfold counted. cbn [length].
    split; [done|]. split; [by constructor|]. rewrite <- (assoc_L (++)) in Hi'.
    split_and!; done || lia.
Qed.

(** ** Reconciliation *)

(** The hypotheses under which a rule set is reconciled. *)
Definition reconcilable (oz : OzState) (current wanted : list InstalledRule)
    (params : list (list Val)) : Prop :=
  installed (rules_of oz) current ∧ Forall record_ok current ∧ NoDup (slot <$> current) ∧
  NoDup (slot <$> wanted) ∧ Forall2 (wanted_ok e) wanted params ∧
  total_weight wanted ≤ ids_left oz.

Lemma reconcile_run oz current wanted params mode :
  reconcilable oz current wanted params →
  ∃ next sum oz', reconcile e oz current wanted params mode = Some (next, sum, oz') ∧
    Forall2 (λ d r, r = with_id d (ir_id r)) wanted next ∧ installed (rules_of oz') next ∧
    (rules_added sum + N.of_nat (length current) =
     rules_removed sum + N.of_nat (length next))%N.
Proof.
  intros (Hi & Hrec & Hslots & Hnd & Hd & Hw).
  assert (Hps : ∀ j d, wanted !! j = Some d → ∃ p, params !! (0 + j) = Some p ∧ wanted_ok e d p).
  { intros j d Hj. by apply (Forall2_lookup_l _ _ _ _ _ Hd Hj). }
  assert (Hrun : ∃ next s, run e oz current wanted params mode None = Some (next, s) ∧
    Forall2 (λ d r, r = with_id d (ir_id r)) wanted next ∧ underway current [] next s).
  { unfold run.
    destruct (records_run wanted current [] {| rs_refs := Refs_of current;
      rs_apply := {| ap_oz := oz; ap_sum := DeltaSummary_default; ap_rule := None |};
      rs_planned := None |}) as (s1 & E1 & Hi1 & Hp1 & Hc1 & Hk1 & Ha1 & Hr1); [done..|].
    simpl in Hc1, Hk1, Ha1, Hr1.
    rewrite E1. cbn [mbind option_bind]. apply (run_slots_ok _ _ _ _ 0 [] s1); [done..|].
    split_and!; [by rewrite (right_id_L [] (++))|done|lia|by rewrite Hc1|].
    rewrite (right_id_L [] (++)). lia. }
  destruct mode; [..|unfold reconcile, replace_all].
  1-3: destruct Hrun as (next & s & E & Hf & Hi' & _ & _ & _ & Hn);
    rewrite waiting_nil in Hi', Hn; unfold reconcile; rewrite E; by eexists _, _, _.
  destruct (remove_all_run current [] {| ap_oz := oz; ap_sum := DeltaSummary_default;
    ap_rule := None |}) as (a1 & E1 & Hi1 & Hk1 & Hs1 & Hs1').
  { by rewrite (right_id_L [] (++)). }
  simpl in Hk1, Hs1, Hs1'. change (apply e) with apply_run. rewrite E1. cbn [mbind option_bind].
  destruct (add_all_run params wanted 0 [] a1 Hps Hi1) as (next & a & E & Hf & Hi' & Hs & Hs'); [lia|].
  rewrite E. cbn [mbind option_bind]. pose proof (Forall2_length _ _ _ Hf).
  eexists _, _, _. split; [done|]. split_and!; [done|done|lia].
Qed.

(** Two rules that grant the same: everything but the id, with parameters
    compared by digest. *)
Definition same_rule (o o' : OzRule) : Prop :=
  oz_context_type o = oz_context_type o' ∧ oz_name o = oz_name o' ∧
  oz_valid_until o = oz_valid_until o' ∧ oz_signers o = oz_signers o' ∧
  params_digest <$> oz_policies o = params_digest <$> oz_policies o'.

Lemma represents_same o o' r : represents o r → represents o' r → same_rule o o'.
Proof. intros (? & ? & ? & ? & ?) (? & ? & ? & ? & ?). split_and!; congruence. Qed.

(** What two rule sets with records for the same list of rules share. *)
Definition same_rules (rules rules' : gmap N OzRule) (l l' : list InstalledRule) : Prop :=
  Forall2 (λ r r', ∃ o o', rules !! ir_id r = Some o ∧ rules' !! ir_id r' = Some o' ∧
             same_rule o o') l l' ∧
  (∀ id, is_Some (rules !! id) → id ∈ ir_id <$> l) ∧
  (∀ id, is_Some (rules' !! id) → id ∈ ir_id <$> l').

Lemma installed_same m m' wanted l l' :
  Forall2 (λ d r, r = with_id d (ir_id r)) wanted l →
  Forall2 (λ d r, r = with_id d (ir_id r)) wanted l' →
  installed m l → installed m' l' → same_rules m m' l l'.
Proof.
  intros Hl Hl' (_ & Hr & Hid) (_ & Hr' & Hid'). split_and!; [|done|done].
  apply Forall2_same_length_lookup. split.
  { by rewrite <- (Forall2_length _ _ _ Hl), <- (Forall2_length _ _ _ Hl'). }
  intros i r r' Hi Hi'.
  destruct (Forall2_lookup_r _ _ _ _ _ Hl Hi) as (d & Hd & E).
  pose proof (Forall2_lookup_lr _ _ _ _ _ _ Hl' Hd Hi') as E'. simpl in E'.
  destruct (Hr r) as (o & Ho & Hrep); [by eapply list_elem_of_lookup_2|].
  destruct (Hr' r') as (o' & Ho' & Hrep'); [by eapply list_elem_of_lookup_2|].
  exists o, o'. split_and!; [done..|]. rewrite E in Hrep. rewrite E' in Hrep'.
  by apply (represents_same o o' d).
Qed.

(** ** Applying the same rules again *)

Lemma run_slots_untouched current params mode ds : ∀ i s,
  rs_planned s = None →
  (∀ j d, ds !! j = Some d → is_Some (params !! (i + j)) ∧
     ∃ c, find_first (λ c, same_slot c d) current = Some c ∧ unchanged c d = true) →
  ∃ next, run_slots e current params mode i ds s = Some (next, s) ∧
    Forall2 (λ d r, ∃ c, find_first (λ c, same_slot c d) current = Some c ∧
               r = with_id d (ir_id c)) ds next.
Proof.
  induction ds as [|d ds IH]; intros i s Hp Hds; cbn [run_slots]; [by exists []|].
  destruct (Hds 0 d eq_refl) as ([p Hpi] & c & Hc & Hun). rewrite Nat.add_0_r in Hpi.
  unfold run_slot. rewrite Hpi. cbn [mbind option_bind]. rewrite Hc, Hun, Hp.
  cbn [mbind option_bind record_step].
  destruct (IH (S i) s Hp) as (next & E & Hf).
  { intros j d' Hj. destruct (Hds (S j) d' Hj) as (? & ?). by rewrite Nat.add_succ_r in *. }
  destruct s as [refs a pl]; simpl in *. subst pl. rewrite E.
  eexists. split; [done|]. constructor; eauto.
Qed.

Lemma each_id {A S} (f : A → S → option S) l s :
  (∀ x, x ∈ l → f x s = Some s) → each f l s = Some s.
Proof.
  induction l as [|x l IH]; intros Hf; simpl; [done|].
  rewrite Hf by left. cbn [mbind option_bind]. apply IH. intros y Hy. apply Hf. by right.
Qed.

Lemma unchanged_with_id d id : unchanged (with_id d id) d = true.
Proof.
  unfold unchanged. simpl. rewrite !bool_decide_true by done. rewrite !andb_true_r. simpl.
  rewrite andb_diag. apply forallb_forall. intros p Hp. apply contains_true.
  by apply list_elem_of_In.
Qed.

Lemma find_with_id (wanted next : list InstalledRule) i d r :
  NoDup (slot <$> wanted) → Forall2 (λ d r, r = with_id d (ir_id r)) wanted next →
  wanted !! i = Some d → next !! i = Some r →
  find_first (λ c, same_slot c d) next = Some r.
Proof.
  intros Hnd Hf. revert i. induction Hf as [|d' r' wanted next Hr Hf IH]; [done|].
  csimpl in Hnd. apply NoDup_cons in Hnd as [Hd' Hnd]. intros [|i] Hd Hi; simplify_eq/=.
  - replace (same_slot r d) with true; [done|]. symmetry. apply same_slot_slot.
    by rewrite Hr.
  - destruct (same_slot r' d) eqn:E; [|by apply (IH Hnd i)].
    apply same_slot_slot in E. destruct Hd'. apply list_elem_of_fmap. exists d.
    split; [by rewrite <- E, Hr|by eapply list_elem_of_lookup_2].
Qed.

Lemma reconcile_again oz current wanted params mode :
  NoDup (slot <$> wanted) → length params = length wanted →
  Forall2 (λ d r, r = with_id d (ir_id r)) wanted current → mode ≠ Mode_FullReplace →
  reconcile e oz current wanted params mode = Some (current, DeltaSummary_default, oz).
Proof.
  intros Hnd Hlen Hf Hm.
  assert (Hrun : run e oz current wanted params mode None =
    Some (current, {| rs_refs := Refs_of current;
      rs_apply := {| ap_oz := oz; ap_sum := DeltaSummary_default; ap_rule := None |};
      rs_planned := None |})).
  { unfold run. rewrite each_id.
    - cbn [mbind option_bind].
      edestruct (run_slots_untouched current params mode wanted 0) as (next & E & Hn).
      3: { rewrite E. do 2 f_equal. apply list_eq_same_length with (length wanted).
           - by rewrite <- (Forall2_length _ _ _ Hf).
           - by rewrite <- (Forall2_length _ _ _ Hn).
           - intros i r r' _ Hi Hi'.
             destruct (Forall2_lookup_r _ _ _ _ _ Hn Hi) as (d & Hd & c & Hc & ->).
             pose proof (Forall2_lookup_lr _ _ _ _ _ _ Hf Hd Hi') as Hr'. simpl in Hr'.
             rewrite (find_with_id wanted current i d r') in Hc by done. injection Hc as <-. done. }
      1: done.
      intros j d Hj. split.
      + apply lookup_lt_is_Some. rewrite Hlen. by eapply lookup_lt_Some.
      + destruct (Forall2_lookup_l _ _ _ _ _ Hf Hj) as (r & Hr & E).
        exists r. split; [by eapply find_with_id|]. rewrite E. apply unchanged_with_id.
    - intros c Hc. apply run_record_keep, existsb_slot.
      apply list_elem_of_lookup in Hc as [i Hc].
      destruct (Forall2_lookup_r _ _ _ _ _ Hf Hc) as (d & Hd & ->).
      apply list_elem_of_fmap. exists d. split; [done|by eapply list_elem_of_lookup_2]. }
  unfold reconcile. destruct mode; try done; by rewrite Hrun.
Qed.
End run_facts.

(** C13: Reconciliation never fails and is exact: from records that describe
    every rule in force, for desired rules OpenZeppelin accepts one by one,
    every mode succeeds (each in-place order stays inside the per-rule limits
    and never empties a rule), the new records are the desired rules in order
    with their ids, they describe every rule in force again, and the summary
    counts the difference. *)
Theorem reconcile_installs_desired {H : Host} {I : Infra} {V : Values} {Oz : OZ} {OL : OzLaws}
    (e : Env) oz current wanted params mode :
  reconcilable e oz current wanted params →
  ∃ next sum oz', reconcile e oz current wanted params mode = Some (next, sum, oz') ∧
    Forall2 (λ d r, r = with_id d (ir_id r)) wanted next ∧ installed (rules_of oz') next ∧
    (rules_added sum + N.of_nat (length current) =
     rules_removed sum + N.of_nat (length next))%N.
Proof. apply reconcile_run. Qed.

(** The delta is equivalent to the full replacement: from the same state
    both succeed, and the rule sets they leave in force correspond one to one,
    in the document's order, with the same scope, name, expiry, signers and
    policy parameters; neither leaves any other rule. *)
Theorem delta_equals_full_replace {H : Host} {I : Infra} {V : Values} {Oz : OZ} {OL : OzLaws}
    (e : Env) oz current wanted params :
  reconcilable e oz current wanted params →
  ∃ next sum oz1 next' sum' oz2,
    reconcile e oz current wanted params Mode_Cheapest = Some (next, sum, oz1) ∧
    reconcile e oz current wanted params Mode_FullReplace = Some (next', sum', oz2) ∧
    same_rules (rules_of oz1) (rules_of oz2) next next'.
Proof.
  intros Hr. destruct (reconcile_run e _ _ _ _ Mode_Cheapest Hr) as (n & s & o & E & Hf & Hi & _).
  destruct (reconcile_run e _ _ _ _ Mode_FullReplace Hr) as (n' & s' & o' & E' & Hf' & Hi' & _).
  exists n, s, o, n', s', o'. split_and!; [done..|]. by eapply installed_same.
Qed.

(** Applying the same rules again touches nothing: no rule, no record and
    no OpenZeppelin state changes, and the summary is empty. *)
Theorem reapply_touches_nothing {H : Host} {I : Infra} {V : Values} {Oz : OZ} {OL : OzLaws}
    (e : Env) oz current wanted params mode next sum oz' :
  reconcilable e oz current wanted params →
  reconcile e oz current wanted params mode = Some (next, sum, oz') →
  reconcile e oz' next wanted params Mode_Cheapest = Some (next, DeltaSummary_default, oz').
Proof.
  intros Hr E. destruct (reconcile_run e _ _ _ _ mode Hr) as (n & s & o & E' & Hf & _).
  rewrite E in E'. simplify_eq. destruct Hr as (_ & _ & _ & Hnd & Hd & _).
  apply reconcile_again; [done| |done|done]. by rewrite (Forall2_length _ _ _ Hd).
Qed.
