(* ===== verification/RulesCost.v ===== *)
(** * Rule-set reconciliation: what it costs

    The price of a run, as the cost model prices it, never exceeds the price
    of removing every installed rule and adding every desired one.

    Registry counts are multisets of keys.  Registering or releasing a list of
    keys costs its length plus the number of keys that enter or leave the
    registry, so a whole path's price telescopes; a key leaves at most once
    along a delta, because the rules it was registered for are removed or
    replaced once each. *)

From stdpp Require Import gmultiset.
From S2P Require Import Prelude Host Program RecoveryIface CompilerIface Rules RulesFacts RulesRun.
#[local] Open Scope N_scope.

(** ** One registry *)

Section registry.
Context {K : Type} `{Countable K}.
Implicit Types (m : gmap K N) (X : gmultiset K) (l : list K).

Definition bag (l : list K) : gmultiset K := list_to_set_disj l.
Definition counts m X : Prop := ∀ k, default 0 (m !! k) = N.of_nat (multiplicity k X).
Definition spread X : N := N.of_nat (size (dom X)).

Definition reg (k : K) m : gmap K N := <[k := default 0 (m !! k) + 1]> m.
Definition reg_cost (k : K) m : N := if (default 0 (m !! k) =? 0)%N then 2 else 1.
Definition dereg (k : K) m : gmap K N :=
  if (default 0 (m !! k) <=? 1)%N then delete k m else <[k := default 0 (m !! k) - 1]> m.
Definition dereg_cost (k : K) m : N := if (default 0 (m !! k) <=? 1)%N then 2 else 1.

Lemma reg_counts k m X : counts m X → counts (reg k m) (X ⊎ {[+ k +]}).
Proof.
  intros Hc j. unfold reg. rewrite multiplicity_disj_union. destruct (decide (j = k)) as [->|Hne].
  - rewrite lookup_insert_eq, multiplicity_singleton_eq. simpl. rewrite Hc. lia.
  - rewrite lookup_insert_ne by done. rewrite multiplicity_singleton_ne by done.
    rewrite Hc. lia.
Qed.

Lemma dereg_counts k m X : k ∈ X → counts m X → counts (dereg k m) (X ∖ {[+ k +]}).
Proof.
  intros Hk Hc j. rewrite multiplicity_difference. apply elem_of_multiplicity in Hk.
  unfold dereg. pose proof (Hc k) as Hck. destruct (decide (j = k)) as [->|Hne].
  - rewrite multiplicity_singleton_eq. destruct (N.leb_spec (default 0 (m !! k)) 1).
    + rewrite lookup_delete_eq. simpl. lia.
    + rewrite lookup_insert_eq. simpl. lia.
  - rewrite multiplicity_singleton_ne by done.
    destruct (N.leb_spec (default 0 (m !! k)) 1).
    + rewrite lookup_delete_ne by done. rewrite Hc. lia.
    + rewrite lookup_insert_ne by done. rewrite Hc. lia.
Qed.

Lemma spread_add k X :
  spread (X ⊎ {[+ k +]}) = spread X + (if decide (k ∈ X) then 0 else 1).
Proof.
  unfold spread. case_decide as Hk.
  - replace (dom (X ⊎ {[+ k +]})) with (dom X); [lia|]. apply leibniz_equiv.
    intros j. rewrite !gmultiset_elem_of_dom, gmultiset_elem_of_disj_union,
      gmultiset_elem_of_singleton. naive_solver.
  - replace (dom (X ⊎ {[+ k +]})) with ({[k]} ∪ dom X : gset K).
    + rewrite size_union, size_singleton; [lia|].
      intros j Hj%elem_of_singleton Hd. subst. by apply gmultiset_elem_of_dom in Hd.
    + apply leibniz_equiv. intros j. rewrite elem_of_union, elem_of_singleton,
        !gmultiset_elem_of_dom, gmultiset_elem_of_disj_union, gmultiset_elem_of_singleton.
      naive_solver.
Qed.

Lemma reg_cost_spread k m X :
  counts m X → reg_cost k m + spread X = 1 + spread (X ⊎ {[+ k +]}).
Proof.
  intros Hc. rewrite spread_add. unfold reg_cost. rewrite Hc.
  case_decide as Hk; apply elem_of_multiplicity in Hk || rewrite elem_of_multiplicity in Hk;
    destruct (N.eqb_spec (N.of_nat (multiplicity k X)) 0); lia.
Qed.

Lemma dereg_cost_spread k m X :
  k ∈ X → counts m X → dereg_cost k m + spread (X ∖ {[+ k +]}) = 1 + spread X.
Proof.
  intros Hk Hc. assert (E : X = (X ∖ {[+ k +]}) ⊎ {[+ k +]}).
  { rewrite (comm_L (⊎)). apply gmultiset_disj_union_difference'. done. }
  rewrite E at 2. rewrite spread_add. unfold dereg_cost. rewrite Hc.
  assert (Hm : multiplicity k X = S (multiplicity k (X ∖ {[+ k +]}))).
  { rewrite E at 1. rewrite multiplicity_disj_union, multiplicity_singleton_eq. lia. }
  rewrite Hm. case_decide as Hd; rewrite elem_of_multiplicity in Hd;
    destruct (N.leb_spec (N.of_nat (S (multiplicity k (X ∖ {[+ k +]})))) 1); lia.
Qed.

(** Releasing keys, some of which other rules keep registered: the keys that
    leave the registry leave the keys still to be released too. *)
Lemma spread_released R R' X' :
  R' ⊆ R → spread (R ⊎ X') + spread R' ≤ spread R + spread (R' ⊎ X').
Proof.
  intros Hsub. unfold spread.
  assert (Hd : dom R' ⊆ dom R) by (intros k; rewrite !gmultiset_elem_of_dom; multiset_solver).
  assert (E1 : dom (R ⊎ X') = dom (R' ⊎ X') ∪ (dom R ∖ dom (R' ⊎ X'))).
  { apply leibniz_equiv. intros k. rewrite elem_of_union, elem_of_difference,
      !gmultiset_elem_of_dom, !gmultiset_elem_of_disj_union.
    destruct (decide (k ∈ R')), (decide (k ∈ X')), (decide (k ∈ R)); try naive_solver.
    all: exfalso; specialize (Hd k); rewrite !gmultiset_elem_of_dom in Hd; naive_solver. }
  rewrite E1, size_union by set_solver.
  assert (size (dom R ∖ dom (R' ⊎ X')) + size (dom R') ≤ size (dom R))%nat; [|lia].
  rewrite <- size_union.
  - apply subseteq_size. set_solver.
  - intros k. rewrite elem_of_difference, !gmultiset_elem_of_dom, gmultiset_elem_of_disj_union.
    naive_solver.
Qed.
End registry.

Section bags.
Context {A : Type}.

Lemma filter_ext_in (P Q : A → Prop) `{!∀ x, Decision (P x), !∀ x, Decision (Q x)} (l : list A) :
  (∀ x, x ∈ l → P x ↔ Q x) → filter P l = filter Q l.
Proof.
  induction l as [|x l IH]; intros HPQ; [done|].
  assert (E : filter P l = filter Q l) by (apply IH; intros y Hy; apply HPQ; by right).
  destruct (decide (P x)) as [Hx|Hx].
  - rewrite !filter_cons_True; [by f_equal|by apply HPQ; [left|]|done].
  - rewrite !filter_cons_False; [done|by rewrite <- HPQ by left|done].
Qed.

Lemma filter_split (P : A → Prop) `{!∀ x, Decision (P x)} (l : list A) :
  l ≡ₚ filter P l ++ filter (λ x, ¬ P x) l.
Proof.
  induction l as [|x l IH]; [done|]. destruct (decide (P x)) as [Hx|Hx].
  - rewrite filter_cons_True by done. rewrite (filter_cons_False (λ x, ¬ P x)) by tauto.
    simpl. by rewrite <- IH.
  - rewrite filter_cons_False by done. rewrite (filter_cons_True (λ x, ¬ P x)) by done.
    by rewrite <- Permutation_middle, <- IH.
Qed.

Context `{Countable A}.

Lemma bag_app (l l' : list A) : bag (l ++ l') = bag l ⊎ bag l'.
Proof. apply list_to_set_disj_app. Qed.
Lemma bag_perm (l l' : list A) : l ≡ₚ l' → bag l = bag l'.
Proof. intros Hp. unfold bag. by rewrite Hp. Qed.
End bags.

(** What two lists without duplicates share, and what each lacks. *)
Lemma common_part {A} `{EqDecision A} (l l' : list A) :
  NoDup l → NoDup l' →
  filter (λ x, ¬ (x ∉ l')) l ≡ₚ filter (λ x, ¬ (x ∉ l)) l'.
Proof.
  intros Hl Hl'. apply NoDup_Permutation; [by apply NoDup_filter..|].
  intros x. rewrite !list_elem_of_filter.
  destruct (decide (x ∈ l)), (decide (x ∈ l')); naive_solver.
Qed.

(** ** The meter *)

Section meter.
Context {H : Host} {I : Infra} {V : Values} {Oz : OZ} (e : Env).
#[local] Instance meter_cost : Effects Meter := Meter_effects (hooks_of e).

(** A meter that has spent [w] against registries with the keys [XS], [XP]. *)
Definition priced (m : Meter) (XS : gmultiset Signer) (XP : gmultiset Address) (w : N) : Prop :=
  ∃ rs rp, counts rs XS ∧ counts rp XP ∧
    m = {| mt_refs := {| ref_signers := rs; ref_policies := rp |};
           mt_cost := {| cost_events := 0; cost_writes := w |} |}.

Definition hooked (p : Address) : N :=
  if bool_decide (p = perch_spending_limit e) || bool_decide (p = perch_interpreter e)
  then 1 else 0.
Definition hooked_sum (l : list Address) : N := foldr (λ p n, hooked p + n) 0 l.

Lemma priced_charge m XS XP w n : priced m XS XP w → priced (charge n m) XS XP (w + n).
Proof. intros (rs & rp & ? & ? & ->). by exists rs, rp. Qed.

Lemma priced_hook m XS XP w p :
  priced m XS XP w → priced (hook (hooks_of e) p m) XS XP (w + hooked p).
Proof.
  intros Hm. unfold hook, hooked. simpl. case_match; [by apply priced_charge|].
  by rewrite N.add_0_r.
Qed.

Lemma priced_register_signer m XS XP w s :
  priced m XS XP w → ∃ w', priced (register_signer s m) (XS ⊎ {[+ s +]}) XP w' ∧
    w' + spread XS = w + 1 + spread (XS ⊎ {[+ s +]}).
Proof.
  intros (rs & rp & Hs & Hp & ->). exists (w + reg_cost s rs). split.
  - exists (reg s rs), rp. split; [by apply reg_counts|]. split; [done|].
    unfold register_signer, reg_cost, reg. simpl. case_match; unfold charge, set_signer_refs; simpl;
      by rewrite <- ?N.add_assoc.
  - pose proof (reg_cost_spread s rs XS Hs). lia.
Qed.

Lemma priced_deregister_signer m XS XP w s :
  s ∈ XS → priced m XS XP w → ∃ w', priced (deregister_signer s m) (XS ∖ {[+ s +]}) XP w' ∧
    w' + spread (XS ∖ {[+ s +]}) = w + 1 + spread XS.
Proof.
  intros Hin (rs & rp & Hs & Hp & ->). exists (w + dereg_cost s rs). split.
  - exists (dereg s rs), rp. split; [by apply dereg_counts|]. split; [done|].
    unfold deregister_signer, dereg_cost, dereg. simpl.
    case_match; unfold charge, set_signer_refs; simpl;
      by rewrite <- ?N.add_assoc.
  - pose proof (dereg_cost_spread s rs XS Hin Hs). lia.
Qed.

Lemma priced_register_policy m XS XP w p :
  priced m XS XP w → ∃ w', priced (register_policy p m) XS (XP ⊎ {[+ p +]}) w' ∧
    w' + spread XP = w + 1 + spread (XP ⊎ {[+ p +]}).
Proof.
  intros (rs & rp & Hs & Hp & ->). exists (w + reg_cost p rp). split.
  - exists rs, (reg p rp). split; [done|]. split; [by apply reg_counts|].
    unfold register_policy, reg_cost, reg. simpl. case_match; unfold charge, set_policy_refs; simpl;
      by rewrite <- ?N.add_assoc.
  - pose proof (reg_cost_spread p rp XP Hp). lia.
Qed.

Lemma priced_deregister_policy m XS XP w p :
  p ∈ XP → priced m XS XP w → ∃ w', priced (deregister_policy p m) XS (XP ∖ {[+ p +]}) w' ∧
    w' + spread (XP ∖ {[+ p +]}) = w + 1 + spread XP.
Proof.
  intros Hin (rs & rp & Hs & Hp & ->). exists (w + dereg_cost p rp). split.
  - exists rs, (dereg p rp). split; [done|]. split; [by apply dereg_counts|].
    unfold deregister_policy, dereg_cost, dereg. simpl.
    case_match; unfold charge, set_policy_refs; simpl;
      by rewrite <- ?N.add_assoc.
  - pose proof (dereg_cost_spread p rp XP Hin Hp). lia.
Qed.

Lemma bag_cons {A} `{Countable A} (x : A) l : bag (x :: l) = {[+ x +]} ⊎ bag l.
Proof. done. Qed.

Lemma priced_register_signers l : ∀ m XS XP w, priced m XS XP w →
  ∃ w', priced (sweep register_signer l m) (XS ⊎ bag l) XP w' ∧
    w' + spread XS = w + N.of_nat (length l) + spread (XS ⊎ bag l).
Proof.
  induction l as [|s l IH]; intros m XS XP w Hm; unfold sweep; simpl.
  - exists w. replace (XS ⊎ bag []) with XS by multiset_solver. split; [done|lia].
  - destruct (priced_register_signer m XS XP w s Hm) as (w1 & H1 & E1).
    destruct (IH _ _ _ _ H1) as (w2 & H2 & E2). exists w2.
    rewrite bag_cons, (assoc_L (⊎)). split; [done|lia].
Qed.

Lemma priced_deregister_signers l : ∀ m XS XP w, bag l ⊆ XS → priced m XS XP w →
  ∃ w', priced (sweep deregister_signer l m) (XS ∖ bag l) XP w' ∧
    w' + spread (XS ∖ bag l) = w + N.of_nat (length l) + spread XS.
Proof.
  induction l as [|s l IH]; intros m XS XP w Hsub Hm; unfold sweep; simpl.
  - exists w. replace (XS ∖ bag []) with XS by multiset_solver. split; [done|lia].
  - rewrite bag_cons in Hsub.
    destruct (priced_deregister_signer m XS XP w s) as (w1 & H1 & E1); [multiset_solver|done|].
    destruct (IH (deregister_signer s m) (XS ∖ {[+ s +]}) XP w1) as (w2 & H2 & E2);
      [multiset_solver|done|]. exists w2.
    rewrite bag_cons. replace (XS ∖ ({[+ s +]} ⊎ bag l)) with (XS ∖ {[+ s +]} ∖ bag l)
      by multiset_solver. split; [done|lia].
Qed.

Lemma priced_register_policies l : ∀ m XS XP w, priced m XS XP w →
  ∃ w', priced (sweep (λ p m, hook (hooks_of e) (ip_policy p) (register_policy (ip_policy p) m)) l m)
      XS (XP ⊎ bag (ip_policy <$> l)) w' ∧
    w' + spread XP = w + N.of_nat (length l) + hooked_sum (ip_policy <$> l) +
      spread (XP ⊎ bag (ip_policy <$> l)).
Proof.
  induction l as [|p l IH]; intros m XS XP w Hm; unfold sweep; csimpl.
  - exists w. replace (XP ⊎ bag []) with XP by multiset_solver. split; [done|simpl; lia].
  - destruct (priced_register_policy m XS XP w (ip_policy p) Hm) as (w1 & H1 & E1).
    destruct (IH _ _ _ _ (priced_hook _ _ _ _ (ip_policy p) H1)) as (w2 & H2 & E2). exists w2.
    rewrite bag_cons, (assoc_L (⊎)). split; [done|lia].
Qed.

Lemma priced_deregister_policies l : ∀ m XS XP w, bag (ip_policy <$> l) ⊆ XP → priced m XS XP w →
  ∃ w', priced (sweep (λ p m, deregister_policy (ip_policy p) (hook (hooks_of e) (ip_policy p) m)) l m)
      XS (XP ∖ bag (ip_policy <$> l)) w' ∧
    w' + spread (XP ∖ bag (ip_policy <$> l)) =
      w + N.of_nat (length l) + hooked_sum (ip_policy <$> l) + spread XP.
Proof.
  induction l as [|p l IH]; intros m XS XP w Hsub Hm; unfold sweep; csimpl.
  - exists w. replace (XP ∖ bag []) with XP by multiset_solver. split; [done|simpl; lia].
  - csimpl in Hsub. rewrite bag_cons in Hsub.
    destruct (priced_deregister_policy _ XS XP _ (ip_policy p) ltac:(multiset_solver)
      (priced_hook _ _ _ _ (ip_policy p) Hm)) as (w1 & H1 & E1).
    assert (Hs : bag (ip_policy <$> l) ⊆ XP ∖ {[+ ip_policy p +]}) by multiset_solver.
    destruct (IH _ XS _ w1 Hs H1) as (w2 & H2 & E2).
    exists w2. rewrite bag_cons.
    replace (XP ∖ ({[+ ip_policy p +]} ⊎ bag (ip_policy <$> l)))
      with (XP ∖ {[+ ip_policy p +]} ∖ bag (ip_policy <$> l)) by multiset_solver.
    split; [done|lia].
Qed.

(** ** Prices of whole rules *)

Definition S_of (r : InstalledRule) : gmultiset Signer := bag (ir_signers r).
Definition P_of (r : InstalledRule) : gmultiset Address := bag (ip_policy <$> ir_policies r).

(** The part of a rule's price that does not depend on the registries. *)
Definition base_price (r : InstalledRule) : N :=
  1 + N.of_nat (length (ir_signers r)) + N.of_nat (length (ir_policies r)) +
  hooked_sum (ip_policy <$> ir_policies r).

Lemma price_remove r m XS XP w :
  S_of r ⊆ XS → P_of r ⊆ XP → priced m XS XP w →
  ∃ m' w', fx_remove_rule r m = Some m' ∧ priced m' (XS ∖ S_of r) (XP ∖ P_of r) w' ∧
    w' + spread (XS ∖ S_of r) + spread (XP ∖ P_of r) = w + base_price r + spread XS + spread XP.
Proof.
  intros HS HP Hm. unfold base_price.
  destruct (priced_deregister_policies (ir_policies r) m XS XP w HP Hm) as (w1 & H1 & E1).
  destruct (priced_deregister_signers (ir_signers r) _ XS _ w1 HS H1) as (w2 & H2 & E2).
  eexists _, _. split; [done|]. split; [by apply priced_charge|]. fold (P_of r) (S_of r) in *. lia.
Qed.

Lemma price_add r params m XS XP w :
  priced m XS XP w →
  ∃ m' w', fx_add_rule r params m = Some (0, m') ∧ priced m' (XS ⊎ S_of r) (XP ⊎ P_of r) w' ∧
    w' + spread XS + spread XP =
      w + base_price r + spread (XS ⊎ S_of r) + spread (XP ⊎ P_of r).
Proof.
  intros Hm. unfold base_price.
  destruct (priced_register_signers (ir_signers r) m XS XP w Hm) as (w1 & H1 & E1).
  destruct (priced_register_policies (ir_policies r) _ _ XP w1 H1) as (w2 & H2 & E2).
  eexists _, _. split; [done|]. split; [by apply priced_charge|]. fold (P_of r) (S_of r) in *. lia.
Qed.

Lemma price_replace c d params m XS XP w :
  S_of c ⊆ XS → P_of c ⊆ XP → priced m XS XP w →
  ∃ m' w', replace (Meter_effects (hooks_of e)) c d params m = Some (0, m') ∧
    priced m' (XS ∖ S_of c ⊎ S_of d) (XP ∖ P_of c ⊎ P_of d) w' ∧
    w' + 2 * spread (XS ∖ S_of c) + 2 * spread (XP ∖ P_of c) =
      w + base_price c + base_price d + spread XS + spread XP +
      spread (XS ∖ S_of c ⊎ S_of d) + spread (XP ∖ P_of c ⊎ P_of d).
Proof.
  intros HS HP Hm. change (Meter_effects (hooks_of e)) with meter_cost. unfold replace.
  destruct (price_remove c m XS XP w HS HP Hm) as (m1 & w1 & E1 & H1 & W1). rewrite E1.
  cbn [mbind option_bind].
  destruct (price_add d params m1 _ _ w1 H1) as (m2 & w2 & E2 & H2 & W2).
  exists m2, w2. split_and!; [done|done|lia].
Qed.

(** ** The registries after an edit *)

(** Whatever it costs, the meter's registries hold these keys. *)
Definition holds (m : Meter) (XS : gmultiset Signer) (XP : gmultiset Address) : Prop :=
  ∃ w, priced m XS XP w.

Lemma holds_remove_policies c l : ∀ m XS XP, bag l ⊆ XP → holds m XS XP →
  ∃ m', each (fx_remove_policy c) l m = Some m' ∧ holds m' XS (XP ∖ bag l).
Proof.
  induction l as [|p l IH]; intros m XS XP Hsub Hm; cbn [each].
  - exists m. by replace (XP ∖ bag []) with XP by multiset_solver.
  - destruct Hm as (w & Hm). rewrite bag_cons in Hsub.
    destruct (priced_deregister_policy _ XS XP _ p ltac:(multiset_solver)
      (priced_hook _ _ _ _ p (priced_charge _ _ _ _ 1 Hm))) as (w1 & H1 & _).
    cbn [mbind option_bind fx_remove_policy meter_cost Meter_effects].
    assert (Hs : bag l ⊆ XP ∖ {[+ p +]}) by multiset_solver.
    destruct (IH _ XS _ Hs (ex_intro _ w1 H1)) as (m' & E & H').
    exists m'. split; [exact E|]. rewrite bag_cons.
    by replace (XP ∖ ({[+ p +]} ⊎ bag l)) with (XP ∖ {[+ p +]} ∖ bag l) by multiset_solver.
Qed.

Lemma holds_add_policies c (l : list (Address * Val)) : ∀ m XS XP, holds m XS XP →
  ∃ m', each (λ pv, fx_add_policy c pv.1 pv.2) l m = Some m' ∧ holds m' XS (XP ⊎ bag l.*1).
Proof.
  induction l as [|[p v] l IH]; intros m XS XP Hm; cbn [each].
  - exists m. by replace (XP ⊎ bag [].*1) with XP by multiset_solver.
  - destruct Hm as (w & Hm).
    destruct (priced_register_policy _ XS XP _ p (priced_charge _ _ _ _ 1 Hm)) as (w1 & H1 & _).
    apply (priced_hook _ _ _ _ p) in H1.
    cbn [mbind option_bind fx_add_policy meter_cost Meter_effects].
    destruct (IH _ XS _ (ex_intro _ _ H1)) as (m' & E & H').
    exists m'. split; [exact E|]. csimpl. by rewrite bag_cons, (assoc_L (⊎)).
Qed.

Lemma holds_swap c l (change : bool) m XS XP :
  S_of c ⊆ XS → (change = false → ir_signers c = l) → holds m XS XP →
  NoDup (ir_signers c) → NoDup l →
  ∃ m', (if change then fx_reconcile_signers c l m else Some m) = Some m' ∧
    holds m' (XS ∖ S_of c ⊎ bag l) XP.
Proof.
  intros HS Hsame Hm Hc Hl. destruct change.
  - set (Y := bag (filter (λ s, ¬ (s ∉ l)) (ir_signers c))).
    assert (E1 : S_of c = Y ⊎ bag (missing (ir_signers c) l)).
    { unfold S_of, Y, missing. rewrite (comm_L (⊎)), <- bag_app.
      apply bag_perm, filter_split. }
    assert (E2 : bag l = Y ⊎ bag (missing l (ir_signers c))).
    { unfold Y. rewrite (bag_perm _ _ (common_part (ir_signers c) l Hc Hl)).
      rewrite (comm_L (⊎)), <- bag_app. apply bag_perm, filter_split. }
    destruct Hm as (w & Hm). rewrite E1 in HS.
    destruct (priced_deregister_signers (missing (ir_signers c) l) _ XS XP _
      ltac:(multiset_solver) (priced_charge _ _ _ _ 1 Hm)) as (w1 & H1 & _).
    destruct (priced_register_signers (missing l (ir_signers c)) _ _ _ _ H1) as (w2 & H2 & _).
    eexists. split; [done|]. exists w2. rewrite E1, E2.
    by replace (XS ∖ (Y ⊎ bag (missing (ir_signers c) l)) ⊎ (Y ⊎ bag (missing l (ir_signers c))))
      with (XS ∖ bag (missing (ir_signers c) l) ⊎ bag (missing l (ir_signers c)))
      by multiset_solver.
  - exists m. split; [done|]. rewrite <- (Hsame eq_refl). fold (S_of c).
    by replace (XS ∖ S_of c ⊎ S_of c) with XS by multiset_solver.
Qed.

Lemma additions_keys c ps : ∀ params, length ps = length params →
  (additions c ps params).*1 = ip_policy <$> filter (λ p, p ∉ ir_policies c) ps.
Proof.
  unfold additions. induction ps as [|p ps IH]; intros [|v vs] Hlen; try done. simpl in Hlen.
  cbn [zip zip_with]. destruct (decide (p ∉ ir_policies c)).
  - rewrite !filter_cons_True by done. csimpl. f_equal. apply IH. lia.
  - rewrite !filter_cons_False by done. apply IH. lia.
Qed.

Lemma stale_keys c (add : list (Address * Val)) :
  bag add.*1 = bag (fresh_of c add).*1 ⊎
    bag (filter (λ pv, pv.1 ∉ (fresh_of c add).*1) add).*1.
Proof.
  rewrite <- bag_app, <- fmap_app. apply bag_perm. f_equiv. unfold fresh_of.
  rewrite (filter_ext_in (λ pv, pv.1 ∉ (filter _ add).*1)
    (λ pv, ¬ Forall (λ q, ip_policy q ≠ pv.1) (ir_policies c))).
  - apply filter_split.
  - intros [p v] Hin. simpl. split; intros Hn; contradict Hn.
    + apply list_elem_of_fmap. exists (p, v). split; [done|]. by apply list_elem_of_filter.
    + apply list_elem_of_fmap in Hn as ([p' v'] & E & Hf). simpl in E. subst p'.
      by apply list_elem_of_filter in Hf as [].
Qed.

Lemma holds_expiry c v (same : bool) m XS XP :
  holds m XS XP →
  ∃ m', (if same then Some m else fx_set_valid_until c v m) = Some m' ∧ holds m' XS XP.
Proof.
  intros Hm. destruct same; [by exists m|]. destruct Hm as [w Hm].
  eexists. split; [done|]. exists (w + 1). by apply priced_charge.
Qed.

(** The policies two rules share, those that go and those that come. *)
Lemma policy_parts c d params :
  NoDup (ip_policy <$> ir_policies c) → NoDup (ip_policy <$> ir_policies d) →
  length (ir_policies d) = length params →
  ∃ Y, P_of c = Y ⊎ bag (to_remove c d) ∧
    P_of d = Y ⊎ bag (additions c (ir_policies d) params).*1.
Proof.
  intros Hc Hd Hlen. exists (bag (ip_policy <$> filter (λ p, ¬ (p ∉ ir_policies d)) (ir_policies c))).
  rewrite additions_keys by done. unfold P_of, to_remove.
  rewrite <- !bag_app, <- !fmap_app. split; apply bag_perm; f_equiv.
  - rewrite (Permutation_app_comm (filter _ _)). apply filter_split.
  - rewrite (common_part (ir_policies c) (ir_policies d)) by (by eapply NoDup_fmap_1).
    rewrite (Permutation_app_comm (filter _ _)). apply filter_split.
Qed.

Lemma edit_holds c d params m XS XP :
  S_of c ⊆ XS → P_of c ⊆ XP → NoDup (ir_signers c) → NoDup (ir_signers d) →
  NoDup (ip_policy <$> ir_policies c) → NoDup (ip_policy <$> ir_policies d) →
  length (ir_policies d) = length params → holds m XS XP →
  ∃ b m', edit (Meter_effects (hooks_of e)) c d params m = Some (b, m') ∧
    (b = true → holds m' (XS ∖ S_of c ⊎ S_of d) (XP ∖ P_of c ⊎ P_of d)).
Proof.
  intros HS HP Hsc Hsd Hpc Hpd Hlen Hm.
  change (Meter_effects (hooks_of e)) with meter_cost. unfold edit.
  rewrite (to_add_additions c (ir_policies d) [] params Hlen : to_add _ _ params 0 = _).
  cbn [mbind option_bind]. destruct (policy_parts c d params Hpc Hpd Hlen) as (Y & E1 & E2).
  set (add := additions c (ir_policies d) params) in *.
  pose proof (stale_keys c add) as E3.
  assert (Hfin : ∀ XP' r m1, XP' = XP ∖ P_of c ⊎ P_of d → r = Some m1 →
    holds m1 (XS ∖ S_of c ⊎ S_of d) XP' →
    ∃ b m', (s ← r; s ← (if bool_decide (ir_valid_until c = ir_valid_until d) then Some s
               else fx_set_valid_until c (ir_valid_until d) s); Some (true, s)) = Some (b, m') ∧
      (b = true → holds m' (XS ∖ S_of c ⊎ S_of d) (XP ∖ P_of c ⊎ P_of d))).
  { intros XP' r m1 -> -> H1. cbn [mbind option_bind].
    destruct (holds_expiry c (ir_valid_until d)
      (bool_decide (ir_valid_until c = ir_valid_until d)) m1 _ _ H1) as (m2 & -> & H2).
    by exists true, m2. }
  assert (Hsame : negb (bool_decide (ir_signers c = ir_signers d)) = false →
    ir_signers c = ir_signers d) by (by rewrite negb_false_iff, bool_decide_eq_true).
  rewrite E1 in HP. destruct (negb (is_empty (ir_signers d))) eqn:Ed.
  - destruct (holds_swap c (ir_signers d) _ m XS XP HS Hsame Hm Hsc Hsd) as (m1 & F1 & H1).
    destruct (holds_remove_policies c (to_remove c d) m1 (XS ∖ S_of c ⊎ S_of d) XP)
      as (m2 & F2 & H2); [multiset_solver|done|].
    destruct (holds_add_policies c add m2 _ _ H2) as (m3 & F3 & H3).
    eapply Hfin; [|rewrite F1; cbn [mbind option_bind]; rewrite F2; exact F3|exact H3].
    rewrite E1, E2. multiset_solver.
  - destruct (negb (is_empty (ir_signers c)) || _) eqn:Ec.
    + destruct (holds_remove_policies c (to_remove c d) m XS XP) as (m1 & F1 & H1);
        [multiset_solver|done|].
      destruct (holds_add_policies c add m1 _ _ H1) as (m2 & F2 & H2).
      destruct (holds_swap c (ir_signers d) _ m2 XS _ HS Hsame H2 Hsc Hsd) as (m3 & F3 & H3).
      eapply Hfin; [|rewrite F1; cbn [mbind option_bind]; rewrite F2; exact F3|exact H3].
      rewrite E1, E2. multiset_solver.
    + destruct (negb (is_empty (fresh_of c add)) && _); [|by exists false, m].
      destruct (holds_add_policies c (fresh_of c add) m _ _ Hm) as (m1 & F1 & H1).
      destruct (holds_remove_policies c (to_remove c d) m1 XS (XP ⊎ bag (fresh_of c add).*1))
        as (m2 & F2 & H2); [multiset_solver|done|].
      destruct (holds_add_policies c (filter (λ pv, pv.1 ∉ (fresh_of c add).*1) add) m2 _ _ H2)
        as (m3 & F3 & H3).
      assert (Hs0 : S_of c = ∅ ∧ S_of d = ∅).
      { apply orb_false_iff in Ec as [Ec _]. unfold S_of.
        by destruct (ir_signers c), (ir_signers d). }
      eapply Hfin; [|rewrite F1; cbn [mbind option_bind]; rewrite F2; exact F3|].
      2: { destruct Hs0 as [-> ->]. by replace (XS ∖ ∅ ⊎ ∅) with XS by multiset_solver. }
      rewrite E1, E2, E3. multiset_solver.
Qed.

(** ** A whole plan *)

Definition keysS (l : list InstalledRule) : gmultiset Signer := bag (l ≫= ir_signers).
Definition keysP (l : list InstalledRule) : gmultiset Address :=
  bag (l ≫= λ r, ip_policy <$> ir_policies r).
Definition spreads (l : list InstalledRule) : N := spread (keysS l) + spread (keysP l).
Definition bases (l : list InstalledRule) : N := foldr (λ r n, base_price r + n) 0 l.
Definition total (ps : list PlannedRule) : N :=
  foldr (λ p n, cost_writes (pr_cost p) + n) 0 ps.

Lemma keysS_app l l' : keysS (l ++ l') = keysS l ⊎ keysS l'.
Proof. unfold keysS. by rewrite bind_app, bag_app. Qed.
Lemma keysP_app l l' : keysP (l ++ l') = keysP l ⊎ keysP l'.
Proof. unfold keysP. by rewrite bind_app, bag_app. Qed.
Lemma keysS_cons r l : keysS (r :: l) = S_of r ⊎ keysS l.
Proof. unfold keysS. csimpl. by rewrite bag_app. Qed.
Lemma keysP_cons r l : keysP (r :: l) = P_of r ⊎ keysP l.
Proof. unfold keysP. csimpl. by rewrite bag_app. Qed.

Lemma keysS_perm l l' : l ≡ₚ l' → keysS l = keysS l'.
Proof. intros Hp. apply bag_perm. by rewrite Hp. Qed.
Lemma keysP_perm l l' : l ≡ₚ l' → keysP l = keysP l'.
Proof. intros Hp. apply bag_perm. by rewrite Hp. Qed.
Lemma spreads_perm l l' : l ≡ₚ l' → spreads l = spreads l'.
Proof. intros Hp. unfold spreads. by rewrite (keysS_perm _ _ Hp), (keysP_perm _ _ Hp). Qed.
Lemma bases_perm l l' : l ≡ₚ l' → bases l = bases l'.
Proof. intros Hp. unfold bases. induction Hp; simpl; lia. Qed.
Lemma bases_app l l' : bases (l ++ l') = bases l + bases l'.
Proof. unfold bases. induction l; simpl; lia. Qed.
Lemma total_app l l' : total (l ++ l') = total l + total l'.
Proof. unfold total. induction l; simpl; lia. Qed.

Lemma spreads_released c l next :
  spreads (c :: l ++ next) + spreads l ≤ spreads (c :: l) + spreads (l ++ next).
Proof.
  unfold spreads. rewrite !keysS_cons, !keysP_cons, !keysS_app, !keysP_app, !(assoc_L (⊎)).
  pose proof (spread_released (S_of c ⊎ keysS l) (keysS l) (keysS next) ltac:(multiset_solver)).
  pose proof (spread_released (P_of c ⊎ keysP l) (keysP l) (keysP next) ltac:(multiset_solver)).
  lia.
Qed.

(** The registries hold the keys of the rules [l]. *)
Definition registered (refs : Refs) (l : list InstalledRule) : Prop :=
  counts (ref_signers refs) (keysS l) ∧ counts (ref_policies refs) (keysP l).

Lemma registered_priced refs l :
  registered refs l → priced (Meter_new refs) (keysS l) (keysP l) 0.
Proof. destruct refs as [rs rp]. intros [Hs Hp]. by exists rs, rp. Qed.

Lemma priced_registered m XS XP w l :
  priced m XS XP w → XS = keysS l → XP = keysP l → registered (mt_refs m) l.
Proof. intros (rs & rp & Hs & Hp & ->) -> ->. by split. Qed.

Lemma priced_cost m XS XP w :
  priced m XS XP w → mt_cost m = {| cost_events := 0; cost_writes := w |}.
Proof. by intros (rs & rp & _ & _ & ->). Qed.

(** The account along a plan: [l] are the installed rules still to be removed
    or replaced, [ds] the rules still wanted, [next] the ones done, [ps] the
    steps so far.  [B] and [P] are the whole base price and the keys at the
    start. *)
Definition within (B P : N) (l ds next : list InstalledRule) (ps : list PlannedRule)
    (refs : Refs) : Prop :=
  registered refs (l ++ next) ∧
  total ps + P + 2 * spreads l + bases (l ++ ds) ≤ B + 2 * P + spreads (l ++ next).

Lemma within_perm B P l l' ds next ps refs :
  l ≡ₚ l' → within B P l ds next ps refs → within B P l' ds next ps refs.
Proof.
  intros Hp [[Hs Hr] Hle]. unfold within, registered.
  rewrite <- (spreads_perm l l' Hp), <- (spreads_perm (l ++ next) (l' ++ next)),
    <- (bases_perm (l ++ ds) (l' ++ ds)), <- (keysS_perm (l ++ next) (l' ++ next)),
    <- (keysP_perm (l ++ next) (l' ++ next)) by by rewrite Hp.
  done.
Qed.

Lemma sub_l {A} `{Countable A} (X Y : gmultiset A) : X ⊆ X ⊎ Y.
Proof. multiset_solver. Qed.
Lemma minus_l {A} `{Countable A} (X Y : gmultiset A) : (X ⊎ Y) ∖ X = Y.
Proof. multiset_solver. Qed.

Lemma within_remove B P c l ds next ps refs :
  within B P (c :: l) ds next ps refs →
  ∃ m, fx_remove_rule c (Meter_new refs) = Some m ∧
    ∀ p, pr_cost p = mt_cost m → within B P l ds next (ps ++ [p]) (mt_refs m).
Proof.
  intros [Hr Hle]. apply registered_priced in Hr. cbn [app] in Hr.
  rewrite keysS_cons, keysP_cons in Hr.
  destruct (price_remove c _ _ _ _ (sub_l _ _) (sub_l _ _) Hr) as (m & w & E & Hm & Hw).
  exists m. split; [done|]. intros p Hp.
  rewrite !minus_l in Hm, Hw.
  split; [by eapply priced_registered|].
  rewrite total_app. cbn [total foldr]. rewrite Hp, (priced_cost _ _ _ _ Hm). cbn [cost_writes].
  pose proof (spreads_released c l next) as Hs.
  assert (Hw' : w + spreads (l ++ next) = base_price c + spreads (c :: l ++ next)).
  { unfold spreads. rewrite keysS_cons, keysP_cons. lia. }
  cbn [app bases foldr] in Hle. fold (bases (l ++ ds)) in Hle. lia.
Qed.

(** The keys once [d] is done, whatever its id. *)
Lemma keys_next l next d id :
  keysS (l ++ next ++ [with_id d id]) = keysS (l ++ next) ⊎ S_of d ∧
  keysP (l ++ next ++ [with_id d id]) = keysP (l ++ next) ⊎ P_of d.
Proof.
  rewrite !(assoc_L (++)), (keysS_app (l ++ next)), (keysP_app (l ++ next)).
  unfold keysS at 2, keysP at 2. csimpl. by rewrite !(right_id_L [] (++)).
Qed.

Lemma spreads_next l next d id :
  spreads (l ++ next ++ [with_id d id]) =
    spread (keysS (l ++ next) ⊎ S_of d) + spread (keysP (l ++ next) ⊎ P_of d).
Proof. unfold spreads. destruct (keys_next l next d id) as [-> ->]. done. Qed.

Lemma within_add B P d params l ds next ps refs :
  within B P l (d :: ds) next ps refs →
  ∃ m, fx_add_rule d params (Meter_new refs) = Some (0, m) ∧
    ∀ p id, pr_cost p = mt_cost m →
      within B P l ds (next ++ [with_id d id]) (ps ++ [p]) (mt_refs m).
Proof.
  intros [Hr Hle]. apply registered_priced in Hr.
  destruct (price_add d params _ _ _ _ Hr) as (m & w & E & Hm & Hw).
  exists m. split; [done|]. intros p id Hp. destruct (keys_next l next d id) as [ES EP].
  split; [by eapply priced_registered|].
  rewrite total_app, spreads_next. cbn [total foldr].
  rewrite Hp, (priced_cost _ _ _ _ Hm). cbn [cost_writes].
  rewrite !bases_app in *. cbn [bases foldr] in Hle. fold (bases ds) in Hle.
  unfold spreads in Hle. fold (spreads l) in *. unfold spreads in *. lia.
Qed.

Lemma within_change B P c d params l ds next ps refs :
  within B P (c :: l) (d :: ds) next ps refs →
  ∃ m, replace (Meter_effects (hooks_of e)) c d params (Meter_new refs) = Some (0, m) ∧
    cost_events (mt_cost m) = 0 ∧ (∀ id, registered (mt_refs m) (l ++ next ++ [with_id d id])) ∧
    ∀ p id refs', registered refs' (l ++ next ++ [with_id d id]) →
      cost_writes (pr_cost p) ≤ cost_writes (mt_cost m) →
      within B P l ds (next ++ [with_id d id]) (ps ++ [p]) refs'.
Proof.
  intros [Hr Hle]. apply registered_priced in Hr. cbn [app] in Hr.
  rewrite keysS_cons, keysP_cons in Hr.
  destruct (price_replace c d params _ _ _ _ (sub_l _ _) (sub_l _ _) Hr) as (m & w & E & Hm & Hw).
  rewrite !minus_l in Hm, Hw. exists m. split; [done|].
  split; [by rewrite (priced_cost _ _ _ _ Hm)|]. split.
  - intros id. destruct (keys_next l next d id) as [ES EP]. by eapply priced_registered.
  - intros p id refs' Hreg Hp. split; [done|].
    rewrite (priced_cost _ _ _ _ Hm) in Hp. cbn [cost_writes] in Hp.
    rewrite total_app, spreads_next. cbn [total foldr].
    pose proof (spreads_released c l next) as Hs.
    assert (E1 : spreads (c :: l ++ next) =
      spread (S_of c ⊎ keysS (l ++ next)) + spread (P_of c ⊎ keysP (l ++ next)))
      by (unfold spreads; by rewrite keysS_cons, keysP_cons).
    assert (E2 : spreads (l ++ next) = spread (keysS (l ++ next)) + spread (keysP (l ++ next)))
      by done.
    rewrite !bases_app in *. cbn [app bases foldr] in Hle. fold (bases l) (bases ds) in Hle. lia.
Qed.

(** ** Planning *)

Section plan.
Context (current wanted : list InstalledRule) (params : list (list Val)).
Hypothesis (Hslots : NoDup (slot <$> current)).
Hypothesis (Hnd : ∀ r, r ∈ current ++ wanted →
  NoDup (ir_signers r) ∧ NoDup (ip_policy <$> ir_policies r)).

Let B := bases (current ++ wanted).
Let P := spreads current.

Lemma plan_records ws l : ∀ kept ps a refs,
  within B P (kept ++ l) wanted [] ps refs →
  ∃ ps' refs', each (run_record e ws) l {| rs_refs := refs; rs_apply := a; rs_planned := Some ps |} =
      Some {| rs_refs := refs'; rs_apply := a; rs_planned := Some ps' |} ∧
    within B P (kept ++ waiting l ws) wanted [] ps' refs'.
Proof.
  induction l as [|c l IH]; intros kept ps a refs Hw; cbn [each]; [by exists ps, refs|].
  unfold waiting. destruct (existsb (same_slot c) ws) eqn:Ex.
  - rewrite filter_cons_True by by apply existsb_slot. fold (waiting l ws).
    rewrite run_record_keep by done. cbn [mbind option_bind].
    destruct (IH (kept ++ [c]) ps a refs) as (ps' & refs' & E & Hw').
    { by rewrite <- (assoc_L (++)). }
    exists ps', refs'. by rewrite <- (assoc_L (++)) in Hw'.
  - rewrite filter_cons_False; [|by rewrite <- existsb_slot, Ex]. fold (waiting l ws).
    assert (Hw1 : within B P (c :: kept ++ l) wanted [] ps refs).
    { eapply within_perm; [|done]. by rewrite Permutation_middle. }
    destruct (within_remove _ _ _ _ _ _ _ _ Hw1) as (m & E & Hm).
    unfold run_record. rewrite Ex. change (meter e) with meter_cost.
    cbn [rs_refs]. rewrite E. cbn [mbind option_bind live rs_planned rs_apply record_step].
    by apply IH, Hm.
Qed.

Lemma plan_slot i p d ds next ps a refs :
  params !! i = Some p → length (ir_policies d) = length p →
  d ∈ wanted → slot d ∉ slot <$> ds →
  within B P (waiting current (d :: ds)) (d :: ds) next ps refs →
  ∃ id ps' refs', run_slot e current params Mode_Cheapest i d
      {| rs_refs := refs; rs_apply := a; rs_planned := Some ps |} =
    Some (with_id d id, {| rs_refs := refs'; rs_apply := a; rs_planned := Some ps' |}) ∧
    within B P (waiting current ds) ds (next ++ [with_id d id]) ps' refs'.
Proof.
  intros Hp Hlen Hin Hnew Hw. unfold run_slot. rewrite Hp. cbn [mbind option_bind].
  change (meter e) with meter_cost. unfold live. cbn [rs_planned rs_refs rs_apply].
  pose proof (find_slot current d) as Hfind.
  destruct (find_first (λ c, same_slot c d) current) as [c|].
  - destruct Hfind as [Hc Hs].
    eapply within_perm in Hw; [|by apply (waiting_take current c d ds)].
    destruct (within_change B P c d p _ _ _ _ _ Hw) as (m & E & Hev & Hreg & Hm).
    assert (Hdc : registered refs (c :: waiting current ds ++ next)) by apply Hw.
    destruct (Hnd c) as [Hsc Hpc]; [apply elem_of_app; by left|].
    destruct (Hnd d) as [Hsd Hpd]; [apply elem_of_app; by right|].
    destruct (unchanged c d) eqn:Hun.
    + eexists _, _, _. split; [done|]. apply Hm; [|simpl; lia].
      destruct (keys_next (waiting current ds) next d (ir_id c)) as [ES EP].
      unfold registered in *. rewrite ES, EP, keysS_cons, keysP_cons in *.
      unfold unchanged in Hun. rewrite !andb_true_iff, !bool_decide_eq_true, !forallb_forall in Hun.
      setoid_rewrite contains_true in Hun. setoid_rewrite <- list_elem_of_In in Hun.
      destruct Hun as [[[E1 E2] E3] _]. unfold S_of in *. rewrite <- E1, (comm_L (⊎) _ (bag (ir_signers c))).
      unfold P_of in *. rewrite (bag_perm (ip_policy <$> ir_policies d) (ip_policy <$> ir_policies c)).
      * by rewrite (comm_L (⊎) _ (bag (ip_policy <$> ir_policies c))).
      * f_equiv. apply NoDup_Permutation; [by eapply NoDup_fmap_1..|]. naive_solver.
    + assert (Hh : holds (Meter_new refs) (S_of c ⊎ keysS (waiting current ds ++ next))
        (P_of c ⊎ keysP (waiting current ds ++ next))).
      { exists 0. rewrite <- keysS_cons, <- keysP_cons. by apply registered_priced. }
      destruct (edit_holds c d p _ _ _ (sub_l _ _) (sub_l _ _) Hsc Hsd Hpc Hpd Hlen Hh)
        as (b & m' & E' & Hb).
      change (Meter_effects (hooks_of e)) with meter_cost in E, E'.
      rewrite E', E. cbn [mbind option_bind prefers_edit].
      rewrite !minus_l in Hb. destruct b; cbn [andb].
      * specialize (Hb eq_refl) as [w' Hb]. destruct (cost_le (mt_cost m') (mt_cost m)) eqn:Hle.
        -- eexists _, _, _. split; [done|]. destruct (keys_next (waiting current ds) next d (ir_id c)) as [ES EP].
           apply Hm; [by eapply priced_registered|]. cbn [pr_cost].
           unfold cost_le in Hle. rewrite (priced_cost _ _ _ _ Hb) in Hle |- *. cbn [cost_events cost_writes] in *.
           apply orb_true_iff in Hle as [Hle|Hle]; [apply N.ltb_lt in Hle; lia|].
           apply andb_true_iff in Hle as [_ Hle]. by apply N.leb_le in Hle.
        -- eexists _, _, _. split; [done|]. by apply Hm.
      * eexists _, _, _. split; [done|]. by apply Hm.
  - rewrite (waiting_skip current d ds Hfind) in Hw.
    destruct (within_add B P d p _ _ _ _ _ Hw) as (m & E & Hm). rewrite E.
    cbn [mbind option_bind]. eexists _, _, _. split; [done|]. by apply Hm.
Qed.

Lemma plan_slots ds : ∀ i next ps a refs,
  (∀ j d, ds !! j = Some d → d ∈ wanted ∧
     ∃ p, params !! (i + j)%nat = Some p ∧ length (ir_policies d) = length p) →
  NoDup (slot <$> ds) → within B P (waiting current ds) ds next ps refs →
  ∃ next' ps' refs', run_slots e current params Mode_Cheapest i ds
      {| rs_refs := refs; rs_apply := a; rs_planned := Some ps |} =
    Some (next', {| rs_refs := refs'; rs_apply := a; rs_planned := Some ps' |}) ∧
    Forall2 (λ d r, ∃ id, r = with_id d id) ds next' ∧
    within B P (waiting current []) [] (next ++ next') ps' refs'.
Proof.
  induction ds as [|d ds IH]; intros i next ps a refs Hps Hn Hw; cbn [run_slots].
  - exists [], ps, refs. by rewrite (right_id_L [] (++)).
  - csimpl in Hn. apply NoDup_cons in Hn as [Hnew Hn].
    destruct (Hps 0%nat d eq_refl) as (Hin & p & Hp & Hlen). rewrite Nat.add_0_r in Hp.
    destruct (plan_slot i p d ds next ps a refs Hp Hlen Hin Hnew Hw) as (id & ps1 & refs1 & E & Hw1).
    rewrite E. cbn [mbind option_bind].
    destruct (IH (S i) (next ++ [with_id d id]) ps1 a refs1) as (next' & ps' & refs' & E' & Hf & Hw').
    { intros j d' Hj. destruct (Hps (S j) d' Hj) as (? & p' & Hp' & ?). split; [done|].
      exists p'. by rewrite Nat.add_succ_r in Hp'. }
    { done. }
    { done. }
    rewrite E'. exists (with_id d id :: next'), ps', refs'. split; [done|]. split.
    + constructor; [by exists id|done].
    + by rewrite <- (assoc_L (++)) in Hw'.
Qed.
End plan.

(** ** The price of a full replacement *)

Fixpoint add_all_meter (params : list (list Val)) (i : nat) (wanted : list InstalledRule)
    (m : Meter) : option Meter :=
  match wanted with
  | [] => Some m
  | d :: wanted =>
      p ← params !! i;
      '(_, m) ← fx_add_rule d p m;
      add_all_meter params (S i) wanted m
  end.

(** [replace_all]'s operations, priced: every record removed, every desired
    rule added. *)
Definition full_replace_price (current wanted : list InstalledRule) (params : list (list Val))
    : option Cost :=
  m ← each fx_remove_rule current (Meter_new (Refs_of current));
  m ← add_all_meter params 0 wanted m;
  Some (mt_cost m).

Lemma full_remove_price l : ∀ m w,
  priced m (keysS l) (keysP l) w →
  ∃ m', each fx_remove_rule l m = Some m' ∧ priced m' ∅ ∅ (w + bases l + spreads l).
Proof.
  induction l as [|c l IH]; intros m w Hm; cbn [each].
  - exists m. assert (E : spreads [] = 0) by reflexivity. rewrite E. simpl.
    by rewrite !N.add_0_r.
  - rewrite keysS_cons, keysP_cons in Hm.
    destruct (price_remove c m _ _ w (sub_l _ _) (sub_l _ _) Hm) as (m1 & w1 & E & Hm1 & Hw).
    rewrite E. cbn [mbind option_bind]. rewrite !minus_l in Hm1, Hw.
    destruct (IH _ _ Hm1) as (m' & E' & Hm'). exists m'. split; [done|].
    replace (w + bases (c :: l) + spreads (c :: l)) with (w1 + bases l + spreads l); [done|].
    unfold spreads. rewrite keysS_cons, keysP_cons. cbn [bases foldr]. fold (bases l). lia.
Qed.

Lemma full_add_price params ds : ∀ i m XS XP w,
  (∀ j, (j < length ds)%nat → is_Some (params !! (i + j)%nat)) → priced m XS XP w →
  ∃ m' w', add_all_meter params i ds m = Some m' ∧
    priced m' (XS ⊎ keysS ds) (XP ⊎ keysP ds) w' ∧
    w' + spread XS + spread XP =
      w + bases ds + spread (XS ⊎ keysS ds) + spread (XP ⊎ keysP ds).
Proof.
  induction ds as [|d ds IH]; intros i m XS XP w Hps Hm; cbn [add_all_meter].
  - exists m, w. unfold keysS, keysP. csimpl.
    replace (XS ⊎ bag []) with XS by multiset_solver. replace (XP ⊎ bag []) with XP by multiset_solver.
    split_and!; [done|done|simpl; lia].
  - destruct (Hps 0%nat ltac:(simpl; lia)) as [p Hp]. rewrite Nat.add_0_r in Hp.
    rewrite Hp. cbn [mbind option_bind].
    destruct (price_add d p m XS XP w Hm) as (m1 & w1 & E & Hm1 & Hw). rewrite E.
    cbn [mbind option_bind].
    assert (Hps' : ∀ j, (j < length ds)%nat → is_Some (params !! (S i + j)%nat)).
    { intros j Hj. specialize (Hps (S j) ltac:(simpl; lia)). by rewrite Nat.add_succ_r in Hps. }
    destruct (IH (S i) m1 _ _ w1 Hps' Hm1) as (m' & w' & E' & Hm' & Hw').
    exists m', w'. rewrite keysS_cons, keysP_cons, !(assoc_L (⊎)). split_and!; [done|done|].
    cbn [bases foldr]. fold (bases ds). lia.
Qed.

(** The counts [Refs::of] computes are those of the records' keys. *)
Lemma count_fold {K} `{Countable K} (l : list K) : ∀ m X,
  counts m X → counts (fold_left (λ m k, count_in k m) l m) (X ⊎ bag l).
Proof.
  induction l as [|k l IH]; intros m X Hm; simpl.
  - by replace (X ⊎ bag []) with X by multiset_solver.
  - rewrite bag_cons, (assoc_L (⊎)). apply IH, reg_counts, Hm.
Qed.

Lemma fold_left_bind {A B C} (f : C → B → C) (g : A → list B) (l : list A) : ∀ c,
  fold_left (λ c a, fold_left f (g a) c) l c = fold_left f (l ≫= g) c.
Proof. induction l as [|a l IH]; intros c; csimpl; [done|]. by rewrite IH, fold_left_app. Qed.

Lemma fold_left_map {A B C} (f : C → B → C) (g : A → B) (l : list A) : ∀ c,
  fold_left (λ c a, f c (g a)) l c = fold_left f (g <$> l) c.
Proof. induction l as [|a l IH]; intros c; csimpl; [done|]. by rewrite IH. Qed.

Lemma Refs_of_registered l : registered (Refs_of l) l.
Proof.
  unfold registered, Refs_of, keysS, keysP. cbn [ref_signers ref_policies]. split.
  - rewrite fold_left_bind.
    replace (bag (l ≫= ir_signers)) with (∅ ⊎ bag (l ≫= ir_signers)) by multiset_solver.
    apply count_fold. intros k. by rewrite lookup_empty.
  - assert (E : ∀ c, fold_left (λ m r, fold_left (λ m p, count_in (ip_policy p) m) (ir_policies r) m) l c =
      fold_left (λ m k, count_in k m) (l ≫= λ r, ip_policy <$> ir_policies r) c).
    { induction l as [|r l IH]; intros c; csimpl; [done|].
      rewrite fold_left_app, IH. f_equal. apply (fold_left_map (λ m k, count_in k m)). }
    rewrite E. set (ks := l ≫= _). replace (bag ks) with (∅ ⊎ bag ks) by multiset_solver.
    apply count_fold. intros k. by rewrite lookup_empty.
Qed.
End meter.

(** C28: No apply costs more than replacing every rule: for well-formed records
    and desired rules, planning succeeds, and the ledger-entry writes of all
    the steps it plans, as the cost model prices the operations each step
    performs, sum to at most the price of removing every record and adding
    every desired rule. *)
Theorem delta_never_costs_more {H : Host} {I : Infra} {V : Values} {Oz : OZ}
    (e : Env) oz current wanted params :
  NoDup (slot <$> current) → NoDup (slot <$> wanted) →
  (∀ r, r ∈ current ++ wanted →
     NoDup (ir_signers r) ∧ NoDup (ip_policy <$> ir_policies r)) →
  Forall2 (λ d p, length (ir_policies d) = length p) wanted params →
  ∃ ps full, plan e oz current wanted params Mode_Cheapest = Some ps ∧
    full_replace_price e current wanted params = Some full ∧
    total ps ≤ cost_writes full.
Proof.
  intros Hsc Hsw Hnd Hps. pose proof (Refs_of_registered current) as Hreg.
  assert (Hidx : ∀ j d, wanted !! j = Some d → d ∈ wanted ∧
    ∃ p, params !! (0 + j)%nat = Some p ∧ length (ir_policies d) = length p).
  { intros j d Hj. split; [by eapply list_elem_of_lookup_2|].
    by apply (Forall2_lookup_l _ _ _ _ _ Hps Hj). }
  destruct (plan_records e current wanted wanted current [] []
    {| ap_oz := oz; ap_sum := DeltaSummary_default; ap_rule := None |} (Refs_of current))
    as (ps1 & refs1 & E1 & Hw1).
  { split; [by rewrite (right_id_L [] (++))|]. cbn [app total foldr]. rewrite (right_id_L [] (++)). lia. }
  cbn [app] in Hw1.
  destruct (plan_slots e current wanted params Hsc Hnd wanted 0 [] ps1
    {| ap_oz := oz; ap_sum := DeltaSummary_default; ap_rule := None |} refs1 Hidx Hsw Hw1)
    as (next & ps & refs & E2 & Hf & _ & Hle).
  rewrite waiting_nil in Hle. cbn [app] in Hle.
  destruct (full_remove_price e current _ _ (registered_priced _ _ Hreg)) as (m1 & F1 & Hm1).
  assert (Hpar : ∀ j, (j < length wanted)%nat → is_Some (params !! (0 + j)%nat)).
  { intros j Hj. apply lookup_lt_is_Some in Hj as [d Hd].
    destruct (Hidx j d Hd) as (_ & p & Hp & _). by exists p. }
  destruct (full_add_price e params wanted 0 m1 ∅ ∅ _ Hpar Hm1) as (m2 & w & F2 & Hm2 & Hw).
  exists ps, (mt_cost m2). split_and!.
  - unfold plan, run. rewrite E1. cbn [mbind option_bind]. by rewrite E2.
  - unfold full_replace_price. rewrite F1. cbn [mbind option_bind]. by rewrite F2.
  - rewrite (priced_cost _ _ _ _ Hm2). cbn [cost_writes].
    assert (Hk : spreads next = spreads wanted).
    { assert (keysS next = keysS wanted ∧ keysP next = keysP wanted) as [EkS EkP].
      { clear -Hf. induction Hf as [|d r ds rs [id ->] Hf [IH1 IH2]]; [done|].
        by rewrite !keysS_cons, !keysP_cons, IH1, IH2. }
      unfold spreads. by rewrite EkS, EkP. }
    replace (∅ ⊎ keysS wanted) with (keysS wanted) in Hw by multiset_solver.
    replace (∅ ⊎ keysP wanted) with (keysP wanted) in Hw by multiset_solver.
    assert (Hz : spread (∅ : gmultiset Signer) = 0 ∧ spread (∅ : gmultiset Address) = 0) by done.
    assert (Hz0 : spreads [] = 0 ∧ bases e [] = 0) by done.
    assert (Hsp : spreads wanted = spread (keysS wanted) + spread (keysP wanted)) by done.
    rewrite bases_app in Hle. lia.
Qed.
