(* ===== verification/RulesDemo.v ===== *)
(** * Rule-set reconciliation on a concrete rule store

    [DemoOZ] is a context-rule store with OpenZeppelin's checks, so the laws of
    [OzLaws] can hold, and a small account is reconciled on it: its admin
    rotates a key, a deployment rule changes its program, an old rule goes and
    a recovery rule comes. *)

From S2P Require Import Prelude Host Program RecoveryIface CompilerIface Rules RulesFacts RulesRun RulesCost.
#[local] Open Scope string_scope.
#[local] Open Scope list_scope.

(** The XDR of a strkey is a header and 32 of its characters; any other
    string is its own XDR. *)
Definition readable_xdr (s : string) : bytes :=
  if (String.length s =? 56)%nat
  then match s with String "C" _ => CONTRACT_HEADER | _ => ACCOUNT_HEADER end +:+ substring 1 32 s
  else s.

(** The demonstration host with the identity as digest: nothing here depends
    on the digest's values. *)
Definition ReadableHost : Host := {|
  Address := string;
  address_from_str s := Some s;
  address_to_xdr := readable_xdr;
  symbol_new s := Some s;
  Val := demo_val;
  val_address v := match v with DVAddress s => Some s | _ => None end;
  val_symbol v := match v with DVSymbol s => Some s | _ => None end;
  val_string v := match v with DVString s => Some s | _ => None end;
  val_bytes v := match v with DVBytes s => Some s | _ => None end;
  val_u32 v := match v with DVU32 n => Some n | _ => None end;
  val_i128 v := match v with DVI128 z => Some z | _ => None end;
  sha256 s := s;
|}.
#[local] Existing Instance ReadableHost.

(** The smallest id above every id in use. *)
Definition next_id (m : gmap N OzRule) : N := map_fold (λ k _ n, N.max n (k + 1)) 0%N m.

Lemma next_id_above (m : gmap N OzRule) k : is_Some (m !! k) → (k < next_id m)%N.
Proof.
  unfold next_id. revert k. apply (map_fold_weak_ind (λ n m, ∀ k, is_Some (m !! k) → (k < n)%N)).
  - intros k [x Hx]. by rewrite lookup_empty in Hx.
  - intros i x m' r Hi IH k [y Hy]. destruct (decide (k = i)) as [->|].
    + lia.
    + rewrite lookup_insert_ne in Hy by done. specialize (IH k ltac:(eauto)). lia.
Qed.

Definition demo_signers_ok (l : list Signer) : bool :=
  bool_decide (NoDup l) && (length l <=? 15)%nat.
Definition demo_nonempty (r : OzRule) : bool :=
  negb (is_empty (oz_signers r)) || (0 <? size (oz_policies r))%nat.
Definition demo_not_past (e : Env) (v : option N) : bool :=
  match v with Some n => (sequence e <=? n)%N | None => true end.
Definition demo_policy_id (p : string) : N := Npos (encode p).

Definition demo_policy_of (pid : N) : option string :=
  match pid with Npos n => decode n | N0 => None end.

Lemma demo_policy_of_id p : demo_policy_of (demo_policy_id p) = Some p.
Proof. apply decode_encode. Qed.

#[local] Arguments demo_policy_of : simpl never.
#[local] Arguments demo_policy_id : simpl never.

(** Keep the rule [r] under [id] if [b]. *)
Definition demo_put (b : bool) (id : N) (r : OzRule) (m : gmap N OzRule)
  : option (gmap N OzRule) := if b then Some (<[id := r]> m) else None.

Definition DemoOZ : OZ := {|
  OzState := gmap N OzRule;
  MAX_POLICIES := 5;
  oz_get_context_rule m id :=
    r ← m !! id;
    Some {| rule_id := id; context_type := oz_context_type r; rule_signers := oz_signers r;
            rule_valid_until := oz_valid_until r;
            rule_policies := (map_to_list (oz_policies r)).*1;
            rule_policy_ids := demo_policy_id <$> (map_to_list (oz_policies r)).*1 |};
  reconcile_signers_no_events _ id l m :=
    r ← m !! id;
    demo_put (demo_signers_ok l && demo_nonempty (with_signers l r)) id (with_signers l r) m;
  add_policy_no_events _ id p v m :=
    r ← m !! id;
    demo_put (bool_decide (oz_policies r !! p = None) && (size (oz_policies r) <? 5)%nat) id
      (with_policies (<[p := v]> (oz_policies r)) r) m;
  remove_policy_no_events _ id pid m :=
    r ← m !! id;
    p ← demo_policy_of pid;
    demo_put (bool_decide (is_Some (oz_policies r !! p))
              && demo_nonempty (with_policies (delete p (oz_policies r)) r)) id
      (with_policies (delete p (oz_policies r)) r) m;
  update_context_rule_valid_until_no_events e id v m :=
    r ← m !! id; demo_put (demo_not_past e v) id (with_valid_until v r) m;
  remove_context_rule_no_events _ id m := _ ← m !! id; Some (delete id m);
  add_context_rule_no_events e ctx name v l ps m :=
    let r := {| oz_context_type := ctx; oz_name := name; oz_valid_until := v;
                oz_signers := l; oz_policies := ps |} in
    m' ← demo_put ((slen name <=? 20)%N && demo_not_past e v && demo_signers_ok l
                   && (size ps <=? 5)%nat && demo_nonempty r) (next_id m) r m;
    Some (next_id m, m');
|}.
#[local] Existing Instance DemoOZ.

Lemma demo_nonempty_spec r : nonempty r → demo_nonempty r = true.
Proof.
  unfold demo_nonempty. intros [Hs|Hp]; apply orb_true_iff.
  - left. apply negb_true_iff. by apply is_empty_false.
  - right. apply Nat.ltb_lt. apply map_size_non_empty_iff in Hp. lia.
Qed.

Lemma demo_not_past_spec e v : not_past e v → demo_not_past e v = true.
Proof. destruct v; simpl; [|done]. intros. by apply N.leb_le. Qed.

Definition demo_signers (l : list Signer) : Prop := NoDup l ∧ (length l ≤ 15)%nat.

Lemma demo_signers_spec l : demo_signers l → demo_signers_ok l = true.
Proof.
  intros [Hn Hl]. unfold demo_signers_ok. rewrite bool_decide_true by done. by apply Nat.leb_le.
Qed.

Lemma demo_put_true b id r m : b = true → demo_put b id r m = Some (<[id := r]> m).
Proof. by intros ->. Qed.

Program Definition DemoOzLaws : OzLaws := {|
  rules_of m := m;
  policy_id _ p := demo_policy_id p;
  ids_left _ := 1000;
  signers_ok := demo_signers;
  name_ok s := (slen s ≤ 20)%N;
  installs _ _ := True;
|}.
Next Obligation.
  intros st id r Hl. simpl. rewrite Hl. simpl. eexists. split; [done|]. simpl.
  split_and!; [done| |done]. intros p. rewrite list_elem_of_fmap. split.
  - intros ([p' v] & -> & Hin). apply elem_of_map_to_list in Hin. eauto.
  - intros [v Hv]. exists (p, v). split; [done|]. by apply elem_of_map_to_list.
Qed.
Next Obligation.
  intros e st id r l Hl Hs Hn _. simpl. rewrite Hl. simpl. rewrite demo_put_true.
  - eexists. split; [done|]. split; [done|]. split; [lia|done].
  - by rewrite demo_signers_spec, demo_nonempty_spec.
Qed.
Next Obligation.
  intros e st id r p v Hl Hp Hs _ _. simpl. rewrite Hl. simpl. rewrite demo_put_true.
  - eexists. split; [done|]. split; [done|]. split; [lia|done].
  - rewrite bool_decide_true by done. by apply Nat.ltb_lt.
Qed.
Next Obligation.
  intros e st id r p Hl Hp Hn. cbn [remove_policy_no_events DemoOZ]. cbv beta in Hl.
  rewrite Hl. cbn [mbind option_bind]. rewrite demo_policy_of_id. cbn [mbind option_bind].
  rewrite demo_put_true.
  - eexists. split; [done|]. split; [done|]. split; [lia|done].
  - by rewrite bool_decide_true, demo_nonempty_spec.
Qed.
Next Obligation.
  intros e st id r v Hl Hv. simpl. rewrite Hl. simpl. rewrite demo_put_true.
  - eexists. split; [done|]. split; [done|]. split; [lia|done].
  - by apply demo_not_past_spec.
Qed.
Next Obligation.
  intros e st id r Hl. simpl. rewrite Hl. simpl. eexists. split; [done|].
  split; [done|]. split; [lia|done].
Qed.
Next Obligation.
  intros e st ctx name v l ps Hname Hv Hl Hps Hn _ _. simpl. rewrite demo_put_true.
  - eexists _, _. split; [done|]. split_and!; [|done|lia|done].
    destruct (st !! next_id st) eqn:E; [|done].
    assert (next_id st < next_id st)%N by (apply next_id_above; eauto). lia.
  - rewrite demo_not_past_spec, demo_signers_spec, demo_nonempty_spec by done.
    rewrite (proj2 (N.leb_le _ _)) by done. by rewrite (proj2 (Nat.leb_le _ _)).
Qed.

#[local] Existing Instance DemoOzLaws.

(** ** A small account *)

#[local] Instance DemoInfra : Infra := {|
  perch_doc_compiler _ := "CCOMPILER";
  perch_interpreter _ := "CINTERPRETER";
  perch_spending_limit _ := "CLIMIT" |}.

#[local] Instance DemoValues : Values := {|
  install_into_val p := DVBytes (doc_hash p);
  cap_into_val c := DVI128 (sp_spending_limit c);
  hash_into_val h := DVBytes h;
  val_to_xdr v := match v with DVBytes s => "b" +:+ s | _ => "" end |}.

Definition demo_env : Env := {|
  sequence := 100; network_id := ""; current_contract_address := "CACCOUNT";
  authorized _ := true; authorized_for_args _ _ := true;
  max_ttl := 1000; min_persistent_ttl := 10; min_temp_ttl := 10 |}.

Definition demo_self : ContextRuleType := ContextRuleType_CallContract "CACCOUNT".

Definition demo_policy (p : string) (v : demo_val) : InstalledPolicy :=
  {| ip_policy := p; ip_params := params_digest v |}.

(** Installed: the admin, a deployment rule with a program, an old rule. *)
Definition demo_current : list InstalledRule := [
  {| ir_id := 0; ir_recovery := false; ir_name := "admin"; ir_context_type := demo_self;
     ir_valid_until := None; ir_signers := [Signer_Delegated "GOWNER"]; ir_policies := [] |};
  {| ir_id := 1; ir_recovery := false; ir_name := "deploy";
     ir_context_type := ContextRuleType_CallContract "CREGISTRY"; ir_valid_until := None;
     ir_signers := [Signer_Delegated "GCI"; Signer_Delegated "GOWNER"];
     ir_policies := [demo_policy "CINTERPRETER" (DVBytes "p1")] |};
  {| ir_id := 2; ir_recovery := false; ir_name := "old";
     ir_context_type := ContextRuleType_CallContract "CTOKEN"; ir_valid_until := Some 500%N;
     ir_signers := [Signer_Delegated "GCI"]; ir_policies := [] |}].

Definition demo_oz : OzState :=
  <[0%N := {| oz_context_type := demo_self; oz_name := "admin"; oz_valid_until := None;
              oz_signers := [Signer_Delegated "GOWNER"]; oz_policies := ∅ |}]>
  (<[1%N := {| oz_context_type := ContextRuleType_CallContract "CREGISTRY"; oz_name := "deploy";
               oz_valid_until := None;
               oz_signers := [Signer_Delegated "GCI"; Signer_Delegated "GOWNER"];
               oz_policies := <["CINTERPRETER" := DVBytes "p1"]> ∅ |}]>
  (<[2%N := {| oz_context_type := ContextRuleType_CallContract "CTOKEN"; oz_name := "old";
               oz_valid_until := Some 500%N; oz_signers := [Signer_Delegated "GCI"];
               oz_policies := ∅ |}]> (∅ : gmap N OzRule))).

(** Wanted: a new owner key, a new program and expiry, and recovery. *)
Definition demo_wanted : list InstalledRule := [
  {| ir_id := 0; ir_recovery := false; ir_name := "admin"; ir_context_type := demo_self;
     ir_valid_until := None; ir_signers := [Signer_Delegated "GNEW"]; ir_policies := [] |};
  {| ir_id := 0; ir_recovery := false; ir_name := "deploy";
     ir_context_type := ContextRuleType_CallContract "CREGISTRY"; ir_valid_until := Some 900%N;
     ir_signers := [Signer_Delegated "GCI"; Signer_Delegated "GNEW"];
     ir_policies := [demo_policy "CINTERPRETER" (DVBytes "p2");
                     demo_policy "CLIMIT" (DVI128 7)] |};
  {| ir_id := 0; ir_recovery := true; ir_name := "recovery"; ir_context_type := demo_self;
     ir_valid_until := None; ir_signers := [];
     ir_policies := [demo_policy "CCONTROLLER" (DVBytes "cfg")] |}].

Definition demo_params : list (list Val) :=
  [[]; [DVBytes "p2"; DVI128 7]; [DVBytes "cfg"]].

Lemma demo_current_ok :
  installed demo_oz demo_current ∧ Forall record_ok demo_current ∧ NoDup (slot <$> demo_current).
Proof.
  split_and!.
  - split_and!; [by apply (bool_decide_unpack _); vm_compute| |].
    + intros r [->|[->|[->|[]%elem_of_nil]%elem_of_cons]%elem_of_cons]%elem_of_cons;
        (eexists; split; [reflexivity|]); split_and!; try reflexivity;
        apply map_eq; intros p; done.
    + intros id [x Hx]. unfold demo_oz in Hx. simpl.
      repeat (apply lookup_insert_Some in Hx as [[<- _]|[_ Hx]]; [set_solver|]).
      by rewrite lookup_empty in Hx.
  - repeat constructor; simpl; try done; set_solver.
  - by apply (bool_decide_unpack _); vm_compute.
Qed.

Lemma demo_wanted_ok :
  Forall2 (wanted_ok demo_env) demo_wanted demo_params ∧ NoDup (slot <$> demo_wanted).
Proof.
  split; [|by apply (bool_decide_unpack _); vm_compute].
  assert (Hw : ∀ d ps, bool_decide (NoDup (ip_policy <$> ir_policies d)) = true →
    (ir_recovery d = true → ir_name d = "recovery") → (slen (ir_name d) <=? 20)%N = true →
    demo_not_past demo_env (ir_valid_until d) = true → demo_signers_ok (ir_signers d) = true →
    (length (ir_policies d) <=? 5)%nat = true → (ir_signers d ≠ [] ∨ ir_policies d ≠ []) →
    (ip_params <$> ir_policies d) = (params_digest <$> ps) → wanted_ok demo_env d ps).
  { intros d ps H1 H2 H3 H4 H5 H6 H7 H8. split_and!; try done.
    - by apply bool_decide_eq_true in H1.
    - exact (proj1 (N.leb_le _ _) H3).
    - destruct (ir_valid_until d); [exact (proj1 (N.leb_le _ _) H4)|done].
    - apply andb_true_iff in H5 as [H5 H5']. split; [by apply bool_decide_eq_true in H5|].
      by apply Nat.leb_le.
    - exact (proj1 (Nat.leb_le _ _) H6).
    - apply Forall2_same_length_lookup. split.
      + by rewrite <- (length_fmap ip_params), H8, length_fmap.
      + intros i p v Hp Hv. split; [|done].
        assert (E : (ip_params <$> ir_policies d) !! i = (params_digest <$> ps) !! i) by by rewrite H8.
        rewrite !list_lookup_fmap, Hp, Hv in E. by apply (inj Some) in E. }
  unfold demo_wanted, demo_params.
  repeat (apply Forall2_cons; split); [..|by constructor]; apply Hw; try (vm_compute; reflexivity);
    try done; (by left) || (by right).
Qed.

Lemma demo_reconcilable : reconcilable demo_env demo_oz demo_current demo_wanted demo_params.
Proof.
  destruct demo_current_ok as (? & ? & ?). destruct demo_wanted_ok.
  split_and!; [done..|]. vm_compute. lia.
Qed.

Lemma reconcile_installs_desired_witness :
  ∃ next sum oz', reconcile demo_env demo_oz demo_current demo_wanted demo_params Mode_Cheapest =
      Some (next, sum, oz') ∧
    Forall2 (λ d r, r = with_id d (ir_id r)) demo_wanted next ∧ installed (rules_of oz') next ∧
    (rules_added sum + N.of_nat (length demo_current) =
     rules_removed sum + N.of_nat (length next))%N.
Proof.
  apply (reconcile_installs_desired demo_env demo_oz demo_current demo_wanted demo_params
    Mode_Cheapest). exact demo_reconcilable.
Defined.

Lemma delta_equals_full_replace_witness :
  ∃ next sum oz1 next' sum' oz2,
    reconcile demo_env demo_oz demo_current demo_wanted demo_params Mode_Cheapest =
      Some (next, sum, oz1) ∧
    reconcile demo_env demo_oz demo_current demo_wanted demo_params Mode_FullReplace =
      Some (next', sum', oz2) ∧
    same_rules (rules_of oz1) (rules_of oz2) next next'.
Proof.
  apply (delta_equals_full_replace demo_env demo_oz demo_current demo_wanted demo_params).
  exact demo_reconcilable.
Defined.

Definition demo_outcome : list InstalledRule * DeltaSummary * OzState :=
  default ([], DeltaSummary_default, demo_oz)
    (reconcile demo_env demo_oz demo_current demo_wanted demo_params Mode_Cheapest).

(** The admin rule is edited in place and keeps its id, the deployment rule
    is edited, the old rule removed and the recovery rule added. *)
Example demo_outcome_is :
  ir_id <$> demo_outcome.1.1 = [0; 1; 2]%N ∧
  demo_outcome.1.2 = {| rules_added := 1; rules_removed := 1; rules_edited := 2;
    signers_added := 2; signers_removed := 2; policies_added := 2; policies_removed := 1 |}.
Proof. vm_compute. split; reflexivity. Qed.

Lemma reapply_touches_nothing_witness :
  reconcile demo_env demo_outcome.2 demo_outcome.1.1 demo_wanted demo_params Mode_Cheapest =
    Some (demo_outcome.1.1, DeltaSummary_default, demo_outcome.2).
Proof.
  eapply (reapply_touches_nothing demo_env demo_oz demo_current demo_wanted demo_params
    Mode_Cheapest _ demo_outcome.1.2).
  - exact demo_reconcilable.
  - vm_compute. reflexivity.
Defined.

Lemma delta_never_costs_more_witness :
  ∃ ps full, plan demo_env demo_oz demo_current demo_wanted demo_params Mode_Cheapest = Some ps ∧
    full_replace_price demo_env demo_current demo_wanted demo_params = Some full ∧
    (total ps ≤ cost_writes full)%N.
Proof.
  apply (delta_never_costs_more demo_env demo_oz demo_current demo_wanted demo_params).
  - apply demo_current_ok.
  - apply demo_wanted_ok.
  - intros r Hr. split; revert r Hr; apply Forall_forall;
      by apply (bool_decide_unpack _); vm_compute.
  - repeat constructor.
Defined.
