(* ===== verification/Account.v ===== *)
(** * perch-smart-account: the account

    Models [crates/perch-smart-account/src/lib.rs]: the account's storage,
    [apply] (the body of [apply_doc]) with everything it calls, [execute], the
    recovery and upgrade entry points, the views, [check_auth], and the
    constructor's [install_admin].

    An invocation runs in the state-and-error monad [A]: it reads and writes an
    [AWorld] (the account's storage, OpenZeppelin's rule store inside it, the
    rest of the chain, the events, the Wasm installed after the invocation),
    and a refusal or a trap keeps none of its writes.  The compiler, the
    controllers, the pools and the targets of [execute] are whatever lives at
    the addresses given: their answers are the class [AccountOutside].  The
    host refuses to re-enter a contract on the call stack, so no outside call
    changes the account's storage. *)

From S2P Require Import Prelude Host Program RecoveryIface CompilerIface Rules.
#[local] Open Scope string_scope.
#[local] Open Scope list_scope.

(** ** Errors *)

Inductive PerchAccountError : Type :=
| Acc_AdminLockout
| Acc_RevokedCredential
| Acc_EnrollmentReused
| Acc_ZkFactorChangedInPlace
| Acc_ReservedFunction
| Acc_RecoveryNotEnrolled
| Acc_NoPendingUpgrade
| Acc_UpgradeRequestMismatch
| Acc_UpgradeNotReady
| Acc_TimingOverflow
| Acc_InvalidCredential
| Acc_StaleUpgrade
| Acc_Compiler (err : DocCompilerError)
| Acc_Recovery (err : RecoveryError)
| Acc_StaleRevision.

Inductive PerchAuthError : Type := Auth_ReservedFunction | Auth_AccountFrozen.

Record FreezeGate : Type := {
  fg_attempt_id : N;
  fg_until : N;
}.

(** ** The digest a signer signs *)

Definition AUTH_ADDR_DOMAIN : bytes := "perch/account/auth-addr-v1".
Definition INTERFACE_VERSION : N := 1.
Definition SNAPSHOT_VERSION : N := 1.

Definition account_auth_preimage (account_id signature_payload : bytes) : bytes :=
  AUTH_ADDR_DOMAIN +:+ account_id +:+ signature_payload.

Section binding.
Context {H : Host}.

Definition bind_signature_payload (account_id signature_payload : bytes) : bytes :=
  sha256 (account_auth_preimage account_id signature_payload).

(** The contract id [address_payload] reads, or zeros. *)
Definition payload_id (account : Address) : bytes :=
  match address_payload account with Some (_, id) => id | None => zeros 32 end.

Definition bind_signature_payload_for_account (account : Address) (signature_payload : bytes)
  : bytes := bind_signature_payload (payload_id account) signature_payload.

Definition bind_payload (e : Env) (signature_payload : bytes) : bytes :=
  sha256 (account_auth_preimage (payload_id (current_contract_address e)) signature_payload).

(** OpenZeppelin's [AuthPayload]. *)
Record AuthPayload : Type := {
  auth_signers : list (Signer * bytes);
  context_rule_ids : list N;
}.

(** ** Views and events *)

Record InfraPins : Type := {
  pin_doc_compiler : Address;
  pin_interpreter : Address;
  pin_spending_limit : Address;
}.

Record AccountConfiguration : Type := {
  ac_revision : N;
  ac_doc_hash : option bytes;
  ac_rules : list InstalledRule;
  ac_recovery_controller : option Address;
  ac_recovery_rule : option N;
  ac_gate : list FreezeGate;
  ac_recovery_generation : N;
  ac_infra : InfraPins;
}.

Record AccountCapabilities : Type := {
  interface_version : N;
  doc_identity : string;
  auth_digest : string;
  apply_modes : list string;
  snapshot_version : N;
}.

Inductive AccountEvent : Type :=
| DocApplied (doc_hash : bytes) (revision : N) (delta : DeltaSummary)
| CredentialRevoked (fingerprint : bytes)
| FreezeChanged (attempt_id until : N)
| UpgradeScheduled (request_id : N) (wasm_hash : bytes) (executable_at : N)
| UpgradeDropped (request_id : N)
| UpgradeExecuted (request_id : N) (wasm_hash : bytes).
End binding.

(** ** Storage: [PerchStorage]

    Instance items share the instance's lifetime; the others are persistent
    entries with their own. *)

Inductive ifield : Type :=
| Iapplied_doc | Irecovery_controller | Irecovery_rule | Igate | Icurrent_zk
| Ipending_upgrade | Irecovery_generation | Inext_upgrade_id | Irevision.

Global Instance ifield_eq_dec : EqDecision ifield.
Proof. solve_decision. Defined.

Inductive pfield : Type :=
| Papplied_doc_bytes | Papplied_fingerprints | Prevoked | Penrolled_ids | Pinstalled_rules.

Global Instance pfield_eq_dec : EqDecision pfield.
Proof. solve_decision. Defined.

Section storage.
Context {H : Host}.

Definition ival (f : ifield) : Type :=
  match f with
  | Iapplied_doc => bytes
  | Irecovery_controller => Address
  | Igate => FreezeGate
  | Icurrent_zk => CompiledZkFactor
  | Ipending_upgrade => UpgradeRequest
  | Irecovery_rule | Irecovery_generation | Inext_upgrade_id | Irevision => N
  end.

(** Items have the key [tt]. *)
Definition pkey (f : pfield) : Type :=
  match f with
  | Prevoked | Penrolled_ids => bytes
  | Papplied_doc_bytes | Papplied_fingerprints | Pinstalled_rules => unit
  end.

Definition pval (f : pfield) : Type :=
  match f with
  | Papplied_doc_bytes => bytes
  | Papplied_fingerprints => list bytes
  | Prevoked | Penrolled_ids => bool
  | Pinstalled_rules => list InstalledRule
  end.

Global Instance pkey_eq_dec f : EqDecision (pkey f).
Proof. destruct f; apply _. Defined.
Global Instance pkey_countable f : Countable (pkey f).
Proof. destruct f; apply _. Defined.

Record PerchStorage : Type := {
  inst : ∀ f : ifield, option (ival f);
  inst_live_until : N;
  pers : ∀ f : pfield, gmap (pkey f) (entry (pval f));
}.

Definition iput (f : ifield) (v : option (ival f)) (st : PerchStorage) : PerchStorage := {|
  inst := λ g, match decide (f = g) with
               | left E => eq_rect f (λ g, option (ival g)) v g E
               | right _ => inst st g
               end;
  inst_live_until := inst_live_until st; pers := pers st |}.

Definition pput (f : pfield) (m : gmap (pkey f) (entry (pval f))) (st : PerchStorage)
  : PerchStorage := {|
  inst := inst st; inst_live_until := inst_live_until st;
  pers := λ g, match decide (f = g) with
               | left E => eq_rect f (λ g, gmap (pkey g) (entry (pval g))) m g E
               | right _ => pers st g
               end |}.
End storage.

(** ** The contracts the account calls

    [Err] is a typed refusal of the callee, [Panic] an abort. *)
Class AccountOutside `{H : Host} : Type := {
  AState : Type;
  call_compile_doc : AState → Address → bytes → result DocCompilerError CompiledDoc;
  call_rcv_sync : AState → Address → Address → bytes → list CompiledRecoveryConfig → N →
    result RecoveryError (SyncOutcome * AState);
  call_rcv_cancel : AState → Address → Address → N → result RecoveryError (unit * AState);
  call_rcv_upgrade : AState → Address → Address → UpgradeStep →
    result RecoveryError (N * AState);
  call_rcv_insert : AState → Address → Address → bytes → bytes → option (unit * AState);
  invoke_contract : AState → Address → string → list Val → option (Val * AState);
}.

(** OpenZeppelin's rule evaluation, which runs the policies' [enforce], and
    the constructor's rule addition. *)
Class OzAccount `{H : Host} {Oz : OZ} {O : AccountOutside} : Type := {
  do_check_auth : Env → bytes → AuthPayload → list Context → OzState → AState → option AState;
  add_context_rule : Env → ContextRuleType → string → option N →
    list Signer → gmap Address Val → OzState → option (N * OzState);
}.

Section account.
Context {H : Host} {I : Infra} {V : Values} {Oz : OZ} {O : AccountOutside} {OA : OzAccount}.

Record AWorld : Type := {
  storage : PerchStorage;
  rule_store : OzState;
  outside : AState;
  events : list AccountEvent;
  new_wasm : option bytes;
}.

Definition A (T : Type) : Type := AWorld → result PerchAccountError (T * AWorld).

Global Instance A_ret : MRet A := λ T a w, Ok (a, w).
Global Instance A_bind : MBind A := λ T U k c w,
  match c w with
  | Ok (a, w) => k a w
  | Err e => Err e
  | Panic => Panic
  end.

Definition lift {T} (c : result PerchAccountError T) : A T :=
  λ w, match c with Ok a => Ok (a, w) | Err e => Err e | Panic => Panic end.
Definition refuse (b : bool) (err : PerchAccountError) : A unit := lift (refuse_if b err).

Definition put_storage (st : PerchStorage) : A unit := λ w,
  Ok (tt, {| storage := st; rule_store := rule_store w; outside := outside w;
             events := events w; new_wasm := new_wasm w |}).
Definition publish (ev : AccountEvent) : A unit := λ w,
  Ok (tt, {| storage := storage w; rule_store := rule_store w; outside := outside w;
             events := events w ++ [ev]; new_wasm := new_wasm w |}).
Definition put_outside (s : AState) : A unit := λ w,
  Ok (tt, {| storage := storage w; rule_store := rule_store w; outside := s;
             events := events w; new_wasm := new_wasm w |}).
Definition put_rules (s : OzState) : A unit := λ w,
  Ok (tt, {| storage := storage w; rule_store := s; outside := outside w;
             events := events w; new_wasm := new_wasm w |}).

(** A call that changes the rest of the chain. *)
Definition call {T} (c : AState → result PerchAccountError (T * AState)) : A T := λ w,
  (r ← lift (c (outside w)); put_outside r.2;; mret r.1) w.

Definition iget (f : ifield) : A (option (ival f)) := λ w, Ok (inst (storage w) f, w).
Definition iset (f : ifield) (v : ival f) : A unit := λ w,
  put_storage (iput f (Some v) (storage w)) w.
Definition iremove (f : ifield) : A unit := λ w, put_storage (iput f None (storage w)) w.

Definition pget (f : pfield) (k : pkey f) : A (option (pval f)) := λ w,
  Ok (persistent_get (pers (storage w) f) k, w).
Definition phas (f : pfield) (k : pkey f) : A bool := λ w,
  Ok (persistent_has (pers (storage w) f) k, w).

(** [for x in l { .. }]. *)
Fixpoint for_each {X} (l : list X) (body : X → A unit) : A unit :=
  match l with
  | [] => mret tt
  | x :: l => body x;; for_each l body
  end.

Context (e : Env).

Definition pset (f : pfield) (k : pkey f) (v : pval f) : A unit := λ w,
  put_storage (pput f (persistent_set e (pers (storage w) f) k v) (storage w)) w.
Definition pextend (f : pfield) (k : pkey f) (threshold extend_to : N) : A unit := λ w,
  (m ← lift (persistent_extend_ttl e (pers (storage w) f) k threshold extend_to);
   put_storage (pput f m (storage w))) w.
(** [e.storage().instance().extend_ttl]. *)
Definition instance_extend (threshold extend_to : N) : A unit := λ w,
  put_storage
    {| inst := inst (storage w); pers := pers (storage w);
       inst_live_until :=
         live_until (extended e threshold extend_to
                       (Build_entry tt (inst_live_until (storage w)))) |} w.

(** [extend_persistent]: the lifetime every entry is extended to. *)
Definition account_ttl : N := storage_max_ttl e.
Definition pextend_max (f : pfield) (k : pkey f) : A unit :=
  pextend f k account_ttl account_ttl.

(** ** Counters *)

Definition generation : A N := n ← iget Irecovery_generation; mret (default 0%N n).
Definition advance_generation : A unit :=
  n ← generation; n ← lift (u64_add n 1); iset Irecovery_generation n.
Definition revision : A N := n ← iget Irevision; mret (default 0%N n).
Definition advance_revision : A N :=
  n ← revision; next ← lift (u64_add n 1); iset Irevision next;; mret next.

Definition drop_pending_upgrade : A unit :=
  r ← iget Ipending_upgrade;
  match r with
  | Some request =>
      iremove Ipending_upgrade;; publish (UpgradeDropped (ur_request_id request))
  | None => mret tt
  end.

(** ** Applying a document *)

(** Write an instance item only when it changes. *)
Definition iupdate (f : ifield) `{EqDecision (ival f)} (v : option (ival f)) : A unit :=
  now ← iget f;
  if bool_decide (now = v) then mret tt else
  match v with Some x => iset f x | None => iremove f end.

Definition apply_rules (compiled : CompiledDoc) (mode : Mode) : A DeltaSummary :=
  records ← pget Pinstalled_rules tt;
  let current := default [] records in
  let '(wanted, params) := desired e compiled in
  r ← (λ w, lift (or_panic (reconcile e (rule_store w) current wanted params mode)) w);
  let '(next, sum, oz) := r in
  put_rules oz;;
  (if bool_decide (next = current) then mret tt else
   pset Pinstalled_rules tt next;; pextend_max Pinstalled_rules tt);;
  iupdate Irecovery_rule (ir_id <$> find_first ir_recovery next);;
  iupdate Irecovery_controller (cf_controller <$> head (cd_recovery compiled));;
  mret sum.

Definition complete_recovery (replaced : list Credential) (target_fingerprints : list bytes)
  : A unit :=
  replaced_fingerprints ← lift
    (mapM_result (λ c, map_err (λ _, Acc_InvalidCredential) (credential_fingerprint c)) replaced);
  fs ← pget Papplied_fingerprints tt;
  let before := default [] fs in
  for_each (revocations replaced_fingerprints before target_fingerprints) (λ fingerprint,
    pset Prevoked fingerprint true;;
    pextend_max Prevoked fingerprint;;
    publish (CredentialRevoked fingerprint));;
  iremove Igate;;
  drop_pending_upgrade.

(** [rcv_sync] at a controller, and the generation it advances. *)
Definition sync (controller : Address) (compiled : CompiledDoc) (approval_valid_until : N)
  : A SyncOutcome :=
  outcome ← call (λ s, map_err Acc_Recovery
    (call_rcv_sync s controller (current_contract_address e) (cd_doc_hash compiled)
       (cd_recovery compiled) approval_valid_until));
  (if bumps_generation outcome then advance_generation else mret tt);;
  mret outcome.

Fixpoint any_revoked (fingerprints : list bytes) : A bool :=
  match fingerprints with
  | [] => mret false
  | f :: fs => r ← phas Prevoked f; if r : bool then mret true else any_revoked fs
  end.

(** The checks of [apply] before any other contract or rule is touched: the
    new ZK factor and the leaf to insert. *)
Definition check_document (compiled : CompiledDoc)
  : A (option CompiledZkFactor * option CompiledZkFactor) :=
  refuse (negb (admin_survives (cd_rules compiled))) Acc_AdminLockout;;
  revoked ← any_revoked (cd_fingerprints compiled);
  refuse revoked Acc_RevokedCredential;;
  let new_zk := r ← head (cd_recovery compiled); config_zk r in
  current_zk ← iget Icurrent_zk;
  refuse (negb (zk_factor_transition_ok current_zk new_zk)) Acc_ZkFactorChangedInPlace;;
  let insert := leaf_to_insert current_zk new_zk in
  match insert with
  | Some leaf =>
      used ← phas Penrolled_ids (zf_enrollment_id leaf);
      refuse used Acc_EnrollmentReused
  | None => mret tt
  end;;
  mret (new_zk, insert).

(** The recovery gate: the old controller classifies the change, a new one
    enrolls the account. *)
Definition sync_controllers (compiled : CompiledDoc) (approval_valid_until : N) : A SyncOutcome :=
  old_controller ← iget Irecovery_controller;
  outcome ← match old_controller with
            | Some controller => sync controller compiled approval_valid_until
            | None => mret Sync_Unchanged
            end;
  match head (cd_recovery compiled) with
  | Some next =>
      if bool_decide (old_controller = Some (cf_controller next)) then mret tt
      else sync (cf_controller next) compiled approval_valid_until;; mret tt
  | None => mret tt
  end;;
  mret outcome.

Definition insert_leaf (insert : option CompiledZkFactor) : A unit :=
  match insert with
  | Some leaf =>
      call (λ s, or_panic (call_rcv_insert s (zf_pool leaf) (current_contract_address e)
                             (zf_enrollment_id leaf) (zf_commitment leaf)));;
      pset Penrolled_ids (zf_enrollment_id leaf) true;;
      pextend_max Penrolled_ids (zf_enrollment_id leaf)
  | None => mret tt
  end.

(** The applied document, written when its identity changes. *)
Definition store_document (compiled : CompiledDoc) : A unit :=
  now ← iget Iapplied_doc;
  if bool_decide (now = Some (cd_doc_hash compiled)) then mret tt else
  iset Iapplied_doc (cd_doc_hash compiled);;
  pset Papplied_doc_bytes tt (cd_canonical compiled);;
  pset Papplied_fingerprints tt (cd_fingerprints compiled);;
  pextend_max Papplied_doc_bytes tt;;
  pextend_max Papplied_fingerprints tt.

Definition apply (doc_json : bytes) (approval_valid_until : N) (expected_revision : option N)
    (mode : Mode) : A bytes :=
  lift (require_auth e (current_contract_address e));;
  now ← revision;
  refuse (match expected_revision with Some r => negb (r =? now)%N | None => false end)
    Acc_StaleRevision;;
  compiled ← (λ w, lift (map_err Acc_Compiler
    (call_compile_doc (outside w) (perch_doc_compiler e) doc_json)) w);
  checked ← check_document compiled;
  let '(new_zk, insert) := checked in
  outcome ← sync_controllers compiled approval_valid_until;
  delta ← apply_rules compiled mode;
  insert_leaf insert;;
  iupdate Icurrent_zk new_zk;;
  match outcome with
  | Sync_Completed completion =>
      complete_recovery (cp_replaced completion) (cd_fingerprints compiled)
  | _ => mret tt
  end;;
  store_document compiled;;
  next ← advance_revision;
  publish (DocApplied (cd_doc_hash compiled) next delta);;
  mret (cd_doc_hash compiled).

Definition apply_doc (doc_json : bytes) (approval_valid_until : N)
    (expected_revision : option N) : A bytes :=
  apply doc_json approval_valid_until expected_revision Mode_Cheapest.

(** The test oracle. *)
Definition apply_doc_full_replace (doc_json : bytes) (approval_valid_until : N)
    (expected_revision : option N) : A bytes :=
  apply doc_json approval_valid_until expected_revision Mode_FullReplace.

(** The test helpers: one path for every changed rule, and the plan of an
    apply that is not made.  A compiler's refusal traps the client call. *)
Definition apply_doc_with (doc_json : bytes) (approval_valid_until : N) (mode : Mode) : A bytes :=
  apply doc_json approval_valid_until None mode.

Definition plan_doc (doc_json : bytes) (mode : Mode) : A (list PlannedRule) :=
  compiled ← (λ w, lift (or_panic (ok
    (call_compile_doc (outside w) (perch_doc_compiler e) doc_json))) w);
  records ← pget Pinstalled_rules tt;
  let '(wanted, params) := desired e compiled in
  ((λ w, lift (or_panic (plan e (rule_store w) (default [] records) wanted params mode)) w)
   : A (list PlannedRule)).

(** ** The other entry points *)

Definition execute (target : Address) (target_fn : string) (target_args : list Val) : A Val :=
  lift (require_auth e (current_contract_address e));;
  refuse (is_reserved_invoker_only target_fn) Acc_ReservedFunction;;
  call (λ s, or_panic (invoke_contract s target target_fn target_args)).

Definition rcv_gate (attempt_id frozen_until : N) : A unit :=
  c ← iget Irecovery_controller;
  controller ← lift (ok_or c Acc_RecoveryNotEnrolled);
  lift (require_auth e controller);;
  (if (frozen_until =? 0)%N then
     g ← iget Igate;
     if match g with Some g => (fg_attempt_id g =? attempt_id)%N | None => false end
     then iremove Igate else mret tt
   else iset Igate {| fg_attempt_id := attempt_id; fg_until := frozen_until |});;
  publish (FreezeChanged attempt_id frozen_until).

Definition cancel_recovery (attempt_id : N) : A unit :=
  lift (require_auth e (current_contract_address e));;
  c ← iget Irecovery_controller;
  controller ← lift (ok_or c Acc_RecoveryNotEnrolled);
  call (λ s, map_err Acc_Recovery
    (call_rcv_cancel s controller (current_contract_address e) attempt_id)).

Definition schedule_upgrade (wasm_hash : bytes) (approval_valid_until : N) : A N :=
  lift (require_auth e (current_contract_address e));;
  n ← iget Inext_upgrade_id;
  let request_id := default 0%N n in
  next ← lift (u64_add request_id 1);
  iset Inext_upgrade_id next;;
  c ← iget Irecovery_controller;
  controller_epoch ← match c with
    | Some c =>
        epoch ← call (λ s, map_err Acc_Recovery
          (call_rcv_upgrade s c (current_contract_address e)
             (Step_Schedule {| us_request_id := request_id; us_wasm_hash := wasm_hash |}
                approval_valid_until)));
        mret (Some epoch)
    | None => mret None
    end;
  g ← generation;
  request ← lift (ok_or (UpgradeRequest_schedule request_id wasm_hash g controller_epoch
                           (sequence e)) Acc_TimingOverflow);
  drop_pending_upgrade;;
  iset Ipending_upgrade request;;
  publish (UpgradeScheduled request_id wasm_hash (ur_executable_at request));;
  mret request_id.

(** [e.deployer().update_current_contract_wasm]. *)
Definition update_wasm (hash : bytes) : A unit := λ w,
  Ok (tt, {| storage := storage w; rule_store := rule_store w; outside := outside w;
             events := events w; new_wasm := Some hash |}).

Definition execute_upgrade (request_id : N) : A unit :=
  lift (require_auth e (current_contract_address e));;
  p ← iget Ipending_upgrade;
  request ← lift (ok_or p Acc_NoPendingUpgrade);
  refuse (negb (ur_request_id request =? request_id)%N) Acc_UpgradeRequestMismatch;;
  g ← generation;
  match readiness request (sequence e) g with
  | Upgrade_Stale => lift (Err Acc_StaleUpgrade)
  | Upgrade_NotYet => lift (Err Acc_UpgradeNotReady)
  | Upgrade_Ready => mret tt
  end;;
  drop_pending_upgrade;;
  c ← iget Irecovery_controller;
  match c with
  | Some c =>
      epoch ← lift (ok_or (ur_controller_epoch request) Acc_StaleUpgrade);
      call (λ s, map_err Acc_Recovery
        (call_rcv_upgrade s c (current_contract_address e) (Step_Execute epoch)));;
      mret tt
  | None => mret tt
  end;;
  advance_generation;;
  advance_revision;;
  publish (UpgradeExecuted request_id (ur_wasm_hash request));;
  update_wasm (ur_wasm_hash request).

Definition cancel_upgrade : A unit :=
  lift (require_auth e (current_contract_address e));;
  p ← iget Ipending_upgrade;
  refuse (match p with Some _ => false | None => true end) Acc_NoPendingUpgrade;;
  drop_pending_upgrade.

Definition account_renew (fingerprints enrollment_ids : list bytes) : A unit :=
  let ttl := account_ttl in
  let if_present (f : pfield) (k : pkey f) : A unit :=
    b ← phas f k; if b : bool then pextend f k ttl ttl else mret tt in
  instance_extend ttl ttl;;
  if_present Papplied_doc_bytes tt;;
  if_present Papplied_fingerprints tt;;
  for_each fingerprints (λ f, if_present Prevoked f);;
  for_each enrollment_ids (λ id, if_present Penrolled_ids id).

Definition install_admin (admin_signers : list Signer) : A unit :=
  r ← (λ w, lift (or_panic (add_context_rule e
        (ContextRuleType_CallContract (current_contract_address e)) "admin" None admin_signers ∅
        (rule_store w))) w);
  let '(id, oz) := r in
  put_rules oz;;
  pset Pinstalled_rules tt [admin_rule e id admin_signers];;
  pextend_max Pinstalled_rules tt.

(** ** Views *)

Definition infra : InfraPins := {|
  pin_doc_compiler := perch_doc_compiler e; pin_interpreter := perch_interpreter e;
  pin_spending_limit := perch_spending_limit e |}.

Definition configuration : A AccountConfiguration :=
  rev ← revision;
  doc ← iget Iapplied_doc;
  rules ← pget Pinstalled_rules tt;
  c ← iget Irecovery_controller;
  r ← iget Irecovery_rule;
  g ← iget Igate;
  gen ← generation;
  mret {| ac_revision := rev; ac_doc_hash := doc; ac_rules := default [] rules;
          ac_recovery_controller := c; ac_recovery_rule := r;
          ac_gate := match g with Some g => [g] | None => [] end;
          ac_recovery_generation := gen; ac_infra := infra |}.

Definition document : A (N * option bytes) :=
  rev ← revision; doc ← pget Papplied_doc_bytes tt; mret (rev, doc).

(** The views of single items. *)
Definition applied_doc : A (option bytes) := pget Papplied_doc_bytes tt.
Definition applied_doc_hash : A (option bytes) := iget Iapplied_doc.
Definition doc_compiler : Address := perch_doc_compiler e.
Definition is_revoked (fingerprint : bytes) : A bool := phas Prevoked fingerprint.
Definition is_enrolled_id (enrollment_id : bytes) : A bool := phas Penrolled_ids enrollment_id.
Definition recovery_controller : A (option Address) := iget Irecovery_controller.
Definition recovery_gate : A (option FreezeGate) := iget Igate.
Definition pending_upgrade : A (option UpgradeRequest) := iget Ipending_upgrade.
Definition next_upgrade_request_id : A N := n ← iget Inext_upgrade_id; mret (default 0%N n).
Definition recovery_generation : A N := generation.
Definition installed_rules : A (list InstalledRule) :=
  r ← pget Pinstalled_rules tt; mret (default [] r).
Definition get_context_rule (context_rule_id : N) : A ContextRule := λ w,
  lift (or_panic (oz_get_context_rule (rule_store w) context_rule_id)) w.

Definition capabilities : AccountCapabilities := {|
  interface_version := INTERFACE_VERSION; doc_identity := "canon_v1";
  auth_digest := "addr_oz_v1"; apply_modes := ["one_tx"];
  snapshot_version := SNAPSHOT_VERSION |}.

(** ** [__check_auth] *)

Definition is_completion (st : PerchStorage) (signatures : AuthPayload) (contexts : list Context)
  : bool :=
  match inst st Irecovery_rule with
  | None => false
  | Some rule =>
      if negb (length contexts =? 1)%nat
         || negb (bool_decide (context_rule_ids signatures = [rule]))
      then false
      else match contexts with
           | Context_Contract c :: _ =>
               bool_decide (contract c = current_contract_address e)
               && String.eqb (fn_name c) "apply_doc"
           | _ => false
           end
  end.

Definition names_reserved (context : Context) : bool :=
  match context with
  | Context_Contract c => is_reserved_invoker_only (fn_name c)
  | _ => false
  end.

Definition check_auth (signature_payload : bytes) (signatures : AuthPayload)
    (auth_contexts : list Context) (w : AWorld) : result PerchAuthError AWorld :=
  refuse_if (existsb names_reserved auth_contexts) Auth_ReservedFunction ;;;
  refuse_if
    match inst (storage w) Igate with
    | Some gate => is_frozen (sequence e) (fg_until gate)
                   && negb (is_completion (storage w) signatures auth_contexts)
    | None => false
    end Auth_AccountFrozen ;;;
  let bound := bind_payload e signature_payload in
  let* out := or_panic (do_check_auth e bound signatures auth_contexts (rule_store w) (outside w)) in
  Ok {| storage := storage w; rule_store := rule_store w; outside := out;
        events := events w; new_wasm := new_wasm w |}.
End account.
