(* ===== verification/AccountFacts.v ===== *)
(** * The account: what its operations change

    Each operation is framed by the fields it may touch, and its successful
    runs are inverted into the facts of each step; the transition system of an
    account and the invariants of its states are built on these. *)

From S2P Require Import Prelude Host Program RecoveryIface CompilerIface Rules Account.

#[global] Arguments iput : simpl never.
#[global] Arguments pput : simpl never.

Section facts.
Context {H : Host} {I : Infra} {V : Values} {Oz : OZ} {O : AccountOutside} {OA : OzAccount}.

(** ** Runs *)

Lemma abind_Ok {T U} (c : A T) (k : T → A U) w r :
  (x ← c; k x) w = Ok r ↔ ∃ a w1, c w = Ok (a, w1) ∧ k a w1 = Ok r.
Proof.
  unfold mbind, A_bind. destruct (c w) as [[a w1]| |]; naive_solver.
Qed.

Lemma ret_Ok {T} (a b : T) w w' : (mret a : A T) w = Ok (b, w') ↔ b = a ∧ w' = w.
Proof. unfold mret, A_ret. naive_solver. Qed.

Lemma alift_Ok {T} (c : result PerchAccountError T) a w w' :
  lift c w = Ok (a, w') ↔ c = Ok a ∧ w' = w.
Proof. unfold lift. destruct c; naive_solver. Qed.

Lemma arefuse_Ok b err u w w' : refuse b err w = Ok (u, w') ↔ b = false ∧ w' = w.
Proof. unfold refuse. rewrite alift_Ok, refuse_if_Ok. done. Qed.

Lemma iget_Ok f a w w' : iget f w = Ok (a, w') ↔ a = inst (storage w) f ∧ w' = w.
Proof. unfold iget. naive_solver. Qed.

Lemma pget_Ok f k a w w' :
  pget f k w = Ok (a, w') ↔ a = persistent_get (pers (storage w) f) k ∧ w' = w.
Proof. unfold pget. naive_solver. Qed.

Lemma phas_Ok f k a w w' :
  phas f k w = Ok (a, w') ↔ a = persistent_has (pers (storage w) f) k ∧ w' = w.
Proof. unfold phas. naive_solver. Qed.

(** ** Fields *)

Inductive afield : Type :=
| FI (f : ifield) | FP (f : pfield) | FRules | FEvents | FWasm.

Definition ivalue (f : ifield) (w : AWorld) : option (ival f) := inst (storage w) f.
Definition pvalue (f : pfield) (k : pkey f) (w : AWorld) : option (pval f) :=
  persistent_get (pers (storage w) f) k.

(** The field's contents are the same in both worlds. *)
Definition same (f : afield) (w w' : AWorld) : Prop :=
  match f with
  | FI f => ivalue f w' = ivalue f w
  | FP f => ∀ k, pvalue f k w' = pvalue f k w
  | FRules => rule_store w' = rule_store w
  | FEvents => events w' = events w
  | FWasm => new_wasm w' = new_wasm w
  end.

Lemma same_refl f w : same f w w.
Proof. by destruct f; simpl. Qed.
Lemma same_trans f w1 w2 w3 : same f w1 w2 → same f w2 w3 → same f w1 w3.
Proof. destruct f; simpl; congruence. Qed.

(** Only the fields in [P] may change along a run of [c]. *)
Definition touches {T} (P : afield → bool) (c : A T) : Prop :=
  ∀ w a w', c w = Ok (a, w') → ∀ f, P f = false → same f w w'.

Lemma touches_weaken {T} (P Q : afield → bool) (c : A T) :
  touches P c → (∀ f, Q f = false → P f = false) → touches Q c.
Proof. intros Hc Hq w a w' E f Hf. eapply Hc; eauto. Qed.

Lemma touches_bind {T U} P (c : A T) (k : T → A U) :
  touches P c → (∀ a, touches P (k a)) → touches P (x ← c; k x).
Proof.
  intros Hc Hk w b w' E f Hf. apply abind_Ok in E as (a & w1 & E1 & E2).
  eapply same_trans; [by eapply Hc|by eapply Hk].
Qed.

Lemma touches_ret {T} P (a : T) : touches P (mret a).
Proof. intros w b w' [_ ->]%ret_Ok f _. apply same_refl. Qed.
Lemma touches_lift {T} P (c : result PerchAccountError T) : touches P (lift c).
Proof. intros w b w' [_ ->]%alift_Ok f _. apply same_refl. Qed.
Lemma touches_lift_at {T} P (c : AWorld → result PerchAccountError T) :
  touches P (λ w, lift (c w) w).
Proof. intros w b w' [_ ->]%alift_Ok f _. apply same_refl. Qed.
Lemma touches_refuse P b err : touches P (refuse b err).
Proof. apply touches_lift. Qed.
Lemma touches_iget P f : touches P (iget f).
Proof. intros w b w' [_ ->]%iget_Ok g _. apply same_refl. Qed.
Lemma touches_pget P f k : touches P (pget f k).
Proof. intros w b w' [_ ->]%pget_Ok g _. apply same_refl. Qed.
Lemma touches_phas P f k : touches P (phas f k).
Proof. intros w b w' [_ ->]%phas_Ok g _. apply same_refl. Qed.

Lemma iput_inst f v st g :
  inst (iput f v st) g =
    match decide (f = g) with
    | left E => eq_rect f (λ g, option (ival g)) v g E
    | right _ => inst st g
    end.
Proof. done. Qed.
Lemma iput_eq f v st : inst (iput f v st) f = v.
Proof.
  rewrite iput_inst. destruct (decide (f = f)) as [E|]; [|done].
  by rewrite (Eqdep_dec.UIP_dec (λ x y, decide (x = y)) E eq_refl).
Qed.
Lemma iput_ne f g v st : f ≠ g → inst (iput f v st) g = inst st g.
Proof. rewrite iput_inst. by destruct (decide (f = g)). Qed.
Lemma pput_eq f m st : pers (pput f m st) f = m.
Proof.
  unfold pput. simpl. destruct (decide (f = f)) as [E|]; [|done].
  by rewrite (Eqdep_dec.UIP_dec (λ x y, decide (x = y)) E eq_refl).
Qed.
Lemma pput_ne f g m st : f ≠ g → pers (pput f m st) g = pers st g.
Proof. unfold pput. simpl. by destruct (decide (f = g)). Qed.

Lemma touches_iwrite (P : afield → bool) f v :
  P (FI f) = true → touches P (λ w, put_storage (iput f v (storage w)) w).
Proof.
  intros Hf w a w' [= _ <-] g Hg. destruct g as [g| | | |]; try done. simpl.
  unfold ivalue. cbn [storage]. rewrite iput_ne; [done|]. intros <-. congruence.
Qed.
Lemma touches_iset (P : afield → bool) f v : P (FI f) = true → touches P (iset f v).
Proof. apply touches_iwrite. Qed.
Lemma touches_iremove (P : afield → bool) f : P (FI f) = true → touches P (iremove f).
Proof. apply touches_iwrite. Qed.

Lemma touches_iupdate (P : afield → bool) f `{EqDecision (ival f)} v :
  P (FI f) = true → touches P (iupdate f v).
Proof.
  intros Hf. apply touches_bind; [apply touches_iget|]. intros a.
  destruct (bool_decide _); [apply touches_ret|].
  destruct v; [by apply touches_iset|by apply touches_iremove].
Qed.

Lemma touches_publish (P : afield → bool) ev : P FEvents = true → touches P (publish ev).
Proof. intros Hf w a w' [= _ <-] g Hg. destruct g; simpl; try done. congruence. Qed.
Lemma touches_put_rules (P : afield → bool) s : P FRules = true → touches P (put_rules s).
Proof. intros Hf w a w' [= _ <-] g Hg. destruct g; simpl; try done. congruence. Qed.
Lemma touches_update_wasm (P : afield → bool) s : P FWasm = true → touches P (update_wasm s).
Proof. intros Hf w a w' [= _ <-] g Hg. destruct g; simpl; try done. congruence. Qed.

Lemma touches_call {T} P (c : AState → result PerchAccountError (T * AState)) :
  touches P (call c).
Proof.
  intros w a w' E f _. unfold call in E. apply abind_Ok in E as (r & w1 & E1 & E2).
  apply alift_Ok in E1 as [_ ->]. apply abind_Ok in E2 as (u & w2 & E2 & E3).
  apply ret_Ok in E3 as [-> ->]. injection E2 as <- <-. by destruct f.
Qed.

Lemma touches_for_each {X} P (l : list X) body :
  (∀ x, x ∈ l → touches P (body x)) → touches P (for_each l body).
Proof.
  induction l as [|x l IH]; intros Hb; simpl; [apply touches_ret|].
  apply touches_bind; [apply Hb; left|]. intros _. apply IH. intros y Hy. apply Hb. by right.
Qed.

Context (e : Env).

Lemma touches_pset (P : afield → bool) f k v : P (FP f) = true → touches P (pset e f k v).
Proof.
  intros Hf w a w' [= _ <-] g Hg. destruct g as [|g| | |]; try done. simpl.
  intros j. unfold pvalue. cbn [storage]. rewrite pput_ne; [done|]. intros <-. congruence.
Qed.

(** Extending a lifetime changes no value. *)
Lemma touches_pextend P f k t n : touches P (pextend e f k t n).
Proof.
  intros w a w' E g _. unfold pextend in E. apply abind_Ok in E as (m & w1 & E1 & E2).
  apply alift_Ok in E1 as [E1 ->]. injection E2 as <- <-.
  apply persistent_extend_ttl_Ok in E1 as [_ Hm].
  destruct g as [|g| | |]; try done. simpl. intros j. unfold pvalue. cbn [storage].
  destruct (decide (f = g)) as [<-|Hne]; [rewrite pput_eq; apply Hm|by rewrite pput_ne].
Qed.

Lemma touches_instance_extend P t n : touches P (instance_extend e t n).
Proof. intros w a w' [= _ <-] g _. by destruct g. Qed.
End facts.

(** Frame an operation: follow its structure, leaving nothing when every
    field it writes is in the frame. *)
Ltac touch_leaf :=
  match goal with
  | |- touches ?P (iget ?f) => exact (touches_iget P f)
  | |- touches ?P (pget ?f ?k) => exact (touches_pget P f k)
  | |- touches ?P (phas ?f ?k) => exact (touches_phas P f k)
  | |- touches ?P (iset ?f ?v) => exact (touches_iset P f v eq_refl)
  | |- touches ?P (iremove ?f) => exact (touches_iremove P f eq_refl)
  | |- touches ?P (iupdate ?f ?v) => exact (touches_iupdate P f v eq_refl)
  | |- touches ?P (pset ?e ?f ?k ?v) => exact (touches_pset e P f k v eq_refl)
  | _ =>
      first
        [ apply touches_ret | apply touches_lift | apply touches_lift_at | apply touches_refuse
        | apply touches_call | apply touches_pextend | apply touches_instance_extend
        | apply touches_publish; reflexivity | apply touches_put_rules; reflexivity
        | apply touches_update_wasm; reflexivity ]
  end.
Ltac touch :=
  repeat (intros; match goal with
  | |- touches _ (mbind _ _) => apply touches_bind
  | |- touches _ (for_each _ _) => apply touches_for_each
  | |- touches _ (if ?b then _ else _) => destruct b
  | |- touches _ (match ?x with _ => _ end) => destruct x
  | |- touches _ (let '_ := ?x in _) => destruct x
  | |- touches _ _ => touch_leaf
  end); intros.

Global Instance afield_eq_dec : EqDecision afield.
Proof. solve_decision. Defined.

Definition only (l : list afield) (f : afield) : bool := bool_decide (f ∈ l).

Section frames.
Context {H : Host} {I : Infra} {V : Values} {Oz : OZ} {O : AccountOutside} {OA : OzAccount}.
Context (e : Env).

Lemma only_false l f : only l f = false ↔ f ∉ l.
Proof. apply bool_decide_eq_false. Qed.
Lemma only_true l f : only l f = true ↔ f ∈ l.
Proof. apply bool_decide_eq_true. Qed.

(** Enlarge a frame. *)
Lemma touches_sub {T} l l' (c : A T) : touches (only l) c → l ⊆ l' → touches (only l') c.
Proof.
  intros Hc Hl. eapply touches_weaken; [done|]. intros f. rewrite !only_false. set_solver.
Qed.

Lemma frame_same {T} l (c : A T) w a w' f :
  touches (only l) c → c w = Ok (a, w') → f ∉ l → same f w w'.
Proof. intros Hc E Hf. eapply Hc; [done|]. by apply only_false. Qed.

Lemma generation_frame l : touches (only l) generation.
Proof. unfold generation. touch. Qed.
Lemma revision_frame l : touches (only l) revision.
Proof. unfold revision. touch. Qed.
Lemma advance_generation_frame : touches (only [FI Irecovery_generation]) advance_generation.
Proof. unfold advance_generation, generation. touch. Qed.
Lemma advance_revision_frame : touches (only [FI Irevision]) advance_revision.
Proof. unfold advance_revision, revision. touch. Qed.
Lemma drop_pending_frame : touches (only [FI Ipending_upgrade; FEvents]) drop_pending_upgrade.
Proof. unfold drop_pending_upgrade. touch. Qed.

Lemma apply_rules_frame compiled mode :
  touches (only [FRules; FP Pinstalled_rules; FI Irecovery_rule; FI Irecovery_controller])
    (apply_rules e compiled mode).
Proof. unfold apply_rules, pextend_max. touch. Qed.

Lemma complete_recovery_frame replaced target :
  touches (only [FP Prevoked; FEvents; FI Igate; FI Ipending_upgrade])
    (complete_recovery e replaced target).
Proof.
  unfold complete_recovery, pextend_max. touch.
  eapply touches_sub; [apply drop_pending_frame|set_solver].
Qed.

Lemma sync_frame controller compiled av :
  touches (only [FI Irecovery_generation]) (sync e controller compiled av).
Proof. unfold sync. touch. apply advance_generation_frame. Qed.

Lemma sync_controllers_frame compiled av :
  touches (only [FI Irecovery_generation]) (sync_controllers e compiled av).
Proof. unfold sync_controllers. touch; apply sync_frame. Qed.

Lemma insert_leaf_frame insert : touches (only [FP Penrolled_ids]) (insert_leaf e insert).
Proof. unfold insert_leaf, pextend_max. touch. Qed.

Lemma store_document_frame compiled :
  touches (only [FI Iapplied_doc; FP Papplied_doc_bytes; FP Papplied_fingerprints])
    (store_document e compiled).
Proof. unfold store_document, pextend_max. touch. Qed.

Lemma execute_frame target fn args : touches (only []) (execute e target fn args).
Proof. unfold execute. touch. Qed.
Lemma rcv_gate_frame id until : touches (only [FI Igate; FEvents]) (rcv_gate e id until).
Proof. unfold rcv_gate. touch. Qed.
Lemma cancel_recovery_frame id : touches (only []) (cancel_recovery e id).
Proof. unfold cancel_recovery. touch. Qed.
Lemma schedule_upgrade_frame hash av :
  touches (only [FI Inext_upgrade_id; FI Ipending_upgrade; FEvents]) (schedule_upgrade e hash av).
Proof.
  unfold schedule_upgrade. touch; [apply generation_frame|].
  eapply touches_sub; [apply drop_pending_frame|set_solver].
Qed.
Lemma cancel_upgrade_frame : touches (only [FI Ipending_upgrade; FEvents]) (cancel_upgrade e).
Proof. unfold cancel_upgrade. touch. apply drop_pending_frame. Qed.
Lemma renew_frame fs ids : touches (only []) (account_renew e fs ids).
Proof. unfold account_renew. touch. Qed.

(** ** Operations that only read *)

Definition reads {T} (c : A T) : Prop := ∀ w a w', c w = Ok (a, w') → w' = w.

Lemma reads_bind {T U} (c : A T) (k : T → A U) :
  reads c → (∀ a, reads (k a)) → reads (x ← c; k x).
Proof.
  intros Hc Hk w b w' E. apply abind_Ok in E as (a & w1 & E1 & E2).
  apply Hc in E1 as ->. by apply Hk in E2.
Qed.
Lemma reads_ret {T} (a : T) : reads (mret a).
Proof. by intros w b w' [_ ->]%ret_Ok. Qed.
Lemma reads_lift {T} (c : result PerchAccountError T) : reads (lift c).
Proof. by intros w b w' [_ ->]%alift_Ok. Qed.
Lemma reads_iget f : reads (iget f).
Proof. by intros w b w' [_ ->]%iget_Ok. Qed.
Lemma reads_phas f k : reads (phas f k).
Proof. by intros w b w' [_ ->]%phas_Ok. Qed.

Lemma phas_value f k b w w' :
  phas f k w = Ok (b, w') →
  w' = w ∧ (b = false → pvalue f k w = None) ∧ (b = true → is_Some (pvalue f k w)).
Proof.
  intros [-> ->]%phas_Ok. split; [done|]. unfold pvalue.
  pose proof (persistent_has_get (pers (storage w) f) k) as Hp.
  destruct (persistent_has _ k), (persistent_get _ k); split; try done; intros; try done.
  - by apply Hp.
  - exfalso. assert (false = true) by (apply Hp; eauto). done.
Qed.

Lemma any_revoked_Ok fs : ∀ b w w',
  any_revoked fs w = Ok (b, w') →
  w' = w ∧ (b = false → ∀ f, f ∈ fs → pvalue Prevoked f w = None).
Proof.
  induction fs as [|f fs IH]; intros b w w'; simpl.
  - intros [-> ->]%ret_Ok. split; [done|]. intros _ f Hf. by apply elem_of_nil in Hf.
  - intros (r & w1 & E0 & E)%abind_Ok. apply (phas_value Prevoked) in E0 as (-> & Hno & _).
    destruct r; [by apply ret_Ok in E as [-> ->]|].
    destruct (IH _ _ _ E) as [-> Hfs]. split; [done|]. intros Hb g Hg.
    apply elem_of_cons in Hg as [->|Hg]; [by apply Hno|by apply Hfs].
Qed.

(** What [check_document] established when it did not refuse. *)
Lemma check_document_Ok compiled zk ins w w' :
  check_document compiled w = Ok ((zk, ins), w') →
  w' = w ∧ admin_survives (cd_rules compiled) = true ∧
  (∀ f, f ∈ cd_fingerprints compiled → pvalue Prevoked f w = None) ∧
  zk = (r ← head (cd_recovery compiled); config_zk r) ∧
  zk_factor_transition_ok (ivalue Icurrent_zk w) zk = true ∧
  ins = leaf_to_insert (ivalue Icurrent_zk w) zk ∧
  (∀ leaf, ins = Some leaf → pvalue Penrolled_ids (zf_enrollment_id leaf) w = None).
Proof.
  unfold check_document. intros (? & ? & [Ha ->]%arefuse_Ok & E)%abind_Ok.
  apply abind_Ok in E as (b & w1 & Hr & E). apply any_revoked_Ok in Hr as [-> Hr].
  apply abind_Ok in E as (? & ? & [-> ->]%arefuse_Ok & E).
  apply abind_Ok in E as (cur & ? & [= <- <-] & E).
  apply abind_Ok in E as (? & ? & [Ht ->]%arefuse_Ok & E).
  apply abind_Ok in E as (? & w2 & E1 & [[= -> ->] ->]%ret_Ok).
  fold (ivalue Icurrent_zk w) in *.
  assert (w2 = w ∧ ∀ leaf, leaf_to_insert (ivalue Icurrent_zk w)
      (r ← head (cd_recovery compiled); config_zk r) = Some leaf →
      pvalue Penrolled_ids (zf_enrollment_id leaf) w = None) as [-> Hl].
  { destruct (leaf_to_insert _ _) as [leaf|].
    - apply abind_Ok in E1 as (b & ? & E0 & [Hb ->]%arefuse_Ok).
      apply (phas_value Penrolled_ids) in E0 as (-> & Hno & _).
      split; [done|]. intros leaf' [= <-]. by apply Hno.
    - by apply ret_Ok in E1 as [_ ->]. }
  apply negb_false_iff in Ha, Ht. split_and!; auto.
Qed.

Definition revision_of (w : AWorld) : N := default 0%N (ivalue Irevision w).
Definition generation_of (w : AWorld) : N := default 0%N (ivalue Irecovery_generation w).

Lemma revision_Ok n w w' : revision w = Ok (n, w') ↔ n = revision_of w ∧ w' = w.
Proof.
  unfold revision. rewrite abind_Ok. split.
  - by intros (a & w1 & [= <- <-] & [-> ->]%ret_Ok).
  - intros [-> ->]. by eexists _, _.
Qed.
Lemma generation_Ok n w w' : generation w = Ok (n, w') ↔ n = generation_of w ∧ w' = w.
Proof.
  unfold generation. rewrite abind_Ok. split.
  - by intros (a & w1 & [= <- <-] & [-> ->]%ret_Ok).
  - intros [-> ->]. by eexists _, _.
Qed.

Lemma iset_Ok f v u w w' :
  iset f v w = Ok (u, w') → ivalue f w' = Some v.
Proof. intros [= _ <-]. unfold ivalue. cbn [storage]. apply iput_eq. Qed.

Lemma advance_revision_Ok n w w' :
  advance_revision w = Ok (n, w') →
  n = (revision_of w + 1)%N ∧ revision_of w' = n ∧ (n ≤ U64_MAX)%N.
Proof.
  unfold advance_revision. intros (a & w1 & [-> ->]%revision_Ok & E)%abind_Ok.
  apply abind_Ok in E as (m & w2 & [Em ->]%alift_Ok & E). apply u64_add_Ok in Em as [-> Hb].
  apply abind_Ok in E as (u & w3 & E & [-> ->]%ret_Ok). apply iset_Ok in E.
  split; [done|]. split; [|done]. unfold revision_of. by rewrite E.
Qed.

Lemma advance_generation_Ok u w w' :
  advance_generation w = Ok (u, w') → generation_of w' = (generation_of w + 1)%N.
Proof.
  unfold advance_generation. intros (a & w1 & [-> ->]%generation_Ok & E)%abind_Ok.
  apply abind_Ok in E as (m & w2 & [Em ->]%alift_Ok & E). apply u64_add_Ok in Em as [-> Hb].
  apply iset_Ok in E. unfold generation_of. by rewrite E.
Qed.

(** The steps of a successful [apply]. *)
Lemma apply_Ok j av er mode h w w' :
  apply e j av er mode w = Ok (h, w') →
  ∃ compiled zk ins outcome delta w1 w2 w3 w4 w5 w6,
    authorized e (current_contract_address e) = true ∧
    (∀ r, er = Some r → r = revision_of w) ∧
    call_compile_doc (outside w) (perch_doc_compiler e) j = Ok compiled ∧
    h = cd_doc_hash compiled ∧
    check_document compiled w = Ok ((zk, ins), w) ∧
    sync_controllers e compiled av w = Ok (outcome, w1) ∧
    apply_rules e compiled mode w1 = Ok (delta, w2) ∧
    insert_leaf e ins w2 = Ok (tt, w3) ∧
    iupdate Icurrent_zk zk w3 = Ok (tt, w4) ∧
    match outcome with
    | Sync_Completed c => complete_recovery e (cp_replaced c) (cd_fingerprints compiled)
    | _ => mret tt
    end w4 = Ok (tt, w5) ∧
    store_document e compiled w5 = Ok (tt, w6) ∧
    (x ← advance_revision; publish (DocApplied (cd_doc_hash compiled) x delta)) w6 = Ok (tt, w').
Proof.
  unfold apply. intros ([] & ? & [Hau ->]%alift_Ok & E)%abind_Ok.
  apply abind_Ok in E as (now & ? & [-> ->]%revision_Ok & E).
  apply abind_Ok in E as ([] & ? & [Hrev ->]%arefuse_Ok & E).
  apply abind_Ok in E as (compiled & ? & [Hc ->]%alift_Ok & E). apply map_err_Ok in Hc.
  apply abind_Ok in E as ([zk ins] & w0 & Hchk & E).
  pose proof (check_document_Ok _ _ _ _ _ Hchk) as [-> _].
  apply abind_Ok in E as (outcome & w1 & Hs & E). apply abind_Ok in E as (delta & w2 & Hr & E).
  apply abind_Ok in E as ([] & w3 & Hi & E). apply abind_Ok in E as ([] & w4 & Hu & E).
  apply abind_Ok in E as ([] & w5 & Hcmp & E). apply abind_Ok in E as ([] & w6 & Hd & E).
  apply abind_Ok in E as (n & w7 & Hn & E). apply abind_Ok in E as ([] & w8 & Hp & [-> ->]%ret_Ok).
  exists compiled, zk, ins, outcome, delta, w1, w2, w3, w4, w5, w6. split_and!; auto.
  - by apply demand_Ok in Hau.
  - intros r ->. apply negb_false_iff, N.eqb_eq in Hrev. done.
  - apply abind_Ok. eauto.
Qed.

(** The fields of the configuration a revision identifies. *)
Definition conf_fields : list afield :=
  [FI Iapplied_doc; FI Irecovery_controller; FI Irecovery_rule; FI Icurrent_zk; FI Irevision;
   FP Papplied_doc_bytes; FP Papplied_fingerprints; FP Prevoked; FP Penrolled_ids;
   FP Pinstalled_rules; FRules].
End frames.
