(* ===== verification/AccountRuns.v ===== *)
(** * The account: its transition system

    Every entry point of [Account] as one step of an account, runs of steps,
    and what no run can do: reuse a revision for another configuration, run an
    upgrade that has not waited out its delay, or bring back a revoked
    credential. *)

From S2P Require Import Prelude Host Program RecoveryIface CompilerIface Rules Account AccountFacts.

Section ops.
Context {H : Host} {I : Infra} {V : Values} {Oz : OZ} {O : AccountOutside} {OA : OzAccount}.

(** ** Frames of the compound operations *)

Definition apply_fields : list afield :=
  [FI Iapplied_doc; FI Irecovery_controller; FI Irecovery_rule; FI Igate; FI Icurrent_zk;
   FI Ipending_upgrade; FI Irecovery_generation; FI Irevision; FP Papplied_doc_bytes;
   FP Papplied_fingerprints; FP Prevoked; FP Penrolled_ids; FP Pinstalled_rules;
   FRules; FEvents].

Ltac enlarge := eapply touches_sub; [eauto using apply_rules_frame, complete_recovery_frame,
  sync_controllers_frame, insert_leaf_frame, store_document_frame, advance_revision_frame,
  advance_generation_frame, drop_pending_frame|set_solver].

Lemma check_document_reads compiled P : touches P (check_document compiled).
Proof.
  intros w [zk ins] w' E f _. apply check_document_Ok in E as [-> _]. apply same_refl.
Qed.

Lemma apply_frame e j av er mode : touches (only apply_fields) (apply e j av er mode).
Proof.
  unfold apply. touch; try apply revision_frame; try apply check_document_reads; enlarge.
Qed.

Lemma execute_upgrade_frame e id :
  touches (only [FI Ipending_upgrade; FI Irecovery_generation; FI Irevision; FEvents; FWasm])
    (execute_upgrade e id).
Proof. unfold execute_upgrade. touch; try apply generation_frame; enlarge. Qed.

(** ** Steps and runs *)

Inductive account_op : Type :=
| Do_apply (doc_json : bytes) (approval_valid_until : N) (expected_revision : option N)
    (mode : Mode)
| Do_execute (target : Address) (target_fn : string) (target_args : list Val)
| Do_rcv_gate (attempt_id frozen_until : N)
| Do_cancel_recovery (attempt_id : N)
| Do_schedule_upgrade (wasm_hash : bytes) (approval_valid_until : N)
| Do_execute_upgrade (request_id : N)
| Do_cancel_upgrade
| Do_renew (fingerprints enrollment_ids : list bytes)
| Do_check_auth (payload : bytes) (signatures : AuthPayload) (contexts : list Context)
(** Anything the rest of the chain does. *)
| Do_elsewhere (s : AState).

Definition succeeds {T} (c : A T) (w w' : AWorld) : Prop := ∃ a, c w = Ok (a, w').

Definition astep (e : Env) (op : account_op) (w w' : AWorld) : Prop :=
  match op with
  | Do_apply j av er mode => succeeds (apply e j av er mode) w w'
  | Do_execute target fn args => succeeds (execute e target fn args) w w'
  | Do_rcv_gate id until => succeeds (rcv_gate e id until) w w'
  | Do_cancel_recovery id => succeeds (cancel_recovery e id) w w'
  | Do_schedule_upgrade hash av => succeeds (schedule_upgrade e hash av) w w'
  | Do_execute_upgrade id => succeeds (execute_upgrade e id) w w'
  | Do_cancel_upgrade => succeeds (cancel_upgrade e) w w'
  | Do_renew fs ids => succeeds (account_renew e fs ids) w w'
  | Do_check_auth p sigs ctxs => check_auth e p sigs ctxs w = Ok w'
  | Do_elsewhere s => succeeds (put_outside s) w w'
  end.

(** Runs of this code: a world whose invocation installed another Wasm takes
    no further step.  [ok] is what is assumed of each step. *)
Inductive arun (ok : Env → account_op → AWorld → Prop)
  : list (Env * account_op) → AWorld → AWorld → Prop :=
| arun_nil w : arun ok [] w w
| arun_snoc steps e op w w1 w2 :
    arun ok steps w w1 → new_wasm w1 = None → ok e op w1 → astep e op w1 w2 →
    arun ok (steps ++ [(e, op)]) w w2.

Definition any_step : Env → account_op → AWorld → Prop := λ _ _ _, True.

Lemma arun_inv_ind ok (P : AWorld → Prop) steps w w' :
  (∀ e op w1 w2, new_wasm w1 = None → ok e op w1 → astep e op w1 w2 → P w1 → P w2) →
  P w → arun ok steps w w' → P w'.
Proof. intros Hs H0 Hr. induction Hr; eauto. Qed.

(** The fields a step may change. *)
Definition op_fields (op : account_op) : list afield :=
  match op with
  | Do_apply _ _ _ _ => apply_fields
  | Do_rcv_gate _ _ => [FI Igate; FEvents]
  | Do_schedule_upgrade _ _ => [FI Inext_upgrade_id; FI Ipending_upgrade; FEvents]
  | Do_execute_upgrade _ =>
      [FI Ipending_upgrade; FI Irecovery_generation; FI Irevision; FEvents; FWasm]
  | Do_cancel_upgrade => [FI Ipending_upgrade; FEvents]
  | _ => []
  end.

Lemma check_auth_same e p sigs ctxs w w' f :
  check_auth e p sigs ctxs w = Ok w' → same f w w'.
Proof.
  unfold check_auth. intros ([] & _ & E)%rbind_Ok.
  apply rbind_Ok in E as ([] & _ & E). apply rbind_Ok in E as (out & _ & [= <-]).
  by destruct f.
Qed.

Lemma astep_same e op w w' f : astep e op w w' → f ∉ op_fields op → same f w w'.
Proof.
  destruct op; simpl; [..|by intros E _; eapply check_auth_same, E|]; intros [a E] Hf.
  1-8: eapply frame_same; [|exact E|exact Hf];
    eauto using apply_frame, execute_frame, rcv_gate_frame, cancel_recovery_frame,
      schedule_upgrade_frame, execute_upgrade_frame, cancel_upgrade_frame, renew_frame.
  injection E as _ <-. by destruct f.
Qed.

(** ** The revision *)

(** A step's change to a counter kept in an item. *)
Lemma same_revision w w' : same (FI Irevision) w w' → revision_of w' = revision_of w.
Proof. unfold revision_of. by intros ->. Qed.
Lemma same_generation w w' :
  same (FI Irecovery_generation) w w' → generation_of w' = generation_of w.
Proof. unfold generation_of. by intros ->. Qed.

Lemma match_completed_frame e (outcome : SyncOutcome) target :
  touches (only [FP Prevoked; FEvents; FI Igate; FI Ipending_upgrade])
    match outcome with
    | Sync_Completed c => complete_recovery e (cp_replaced c) target
    | _ => mret tt
    end.
Proof. destruct outcome; try apply touches_ret. apply complete_recovery_frame. Qed.

Lemma iupdate_frame f `{EqDecision (ival f)} v : touches (only [FI f]) (iupdate f v).
Proof. apply touches_iupdate, only_true. left. Qed.

(** A successful [apply] step by step, with the frame of each step. *)
Lemma apply_steps e j av er mode h w w' :
  apply e j av er mode w = Ok (h, w') →
  ∃ compiled zk ins outcome delta w1 w2 w3 w4 w5 w6 w7,
    call_compile_doc (outside w) (perch_doc_compiler e) j = Ok compiled ∧
    h = cd_doc_hash compiled ∧ check_document compiled w = Ok ((zk, ins), w) ∧
    (sync_controllers e compiled av w = Ok (outcome, w1) ∧
     ∀ f, f ∉ [FI Irecovery_generation] → same f w w1) ∧
    (apply_rules e compiled mode w1 = Ok (delta, w2) ∧
     ∀ f, f ∉ [FRules; FP Pinstalled_rules; FI Irecovery_rule; FI Irecovery_controller] →
       same f w1 w2) ∧
    (insert_leaf e ins w2 = Ok (tt, w3) ∧ ∀ f, f ∉ [FP Penrolled_ids] → same f w2 w3) ∧
    (iupdate Icurrent_zk zk w3 = Ok (tt, w4) ∧ ∀ f, f ∉ [FI Icurrent_zk] → same f w3 w4) ∧
    (match outcome with
     | Sync_Completed c => complete_recovery e (cp_replaced c) (cd_fingerprints compiled)
     | _ => mret tt
     end w4 = Ok (tt, w5) ∧
     ∀ f, f ∉ [FP Prevoked; FEvents; FI Igate; FI Ipending_upgrade] → same f w4 w5) ∧
    (store_document e compiled w5 = Ok (tt, w6) ∧
     ∀ f, f ∉ [FI Iapplied_doc; FP Papplied_doc_bytes; FP Papplied_fingerprints] →
       same f w5 w6) ∧
    (advance_revision w6 = Ok ((revision_of w6 + 1)%N, w7) ∧
     ∀ f, f ∉ [FI Irevision] → same f w6 w7) ∧
    publish (DocApplied h (revision_of w6 + 1) delta) w7 = Ok (tt, w').
Proof.
  intros (c & zk & ins & out & d & w1 & w2 & w3 & w4 & w5 & w6 & _ & _ & Hc & -> & Hk & E1 & E2
    & E3 & E4 & E5 & E6 & E7)%apply_Ok.
  apply abind_Ok in E7 as (n & w7 & E7 & E8).
  pose proof (advance_revision_Ok _ _ _ E7) as (-> & _ & _).
  exists c, zk, ins, out, d, w1, w2, w3, w4, w5, w6, w7.
  split_and!; try done; intros f Hf.
  - by eapply frame_same; [apply sync_controllers_frame|..].
  - by eapply frame_same; [apply apply_rules_frame|..].
  - by eapply frame_same; [apply insert_leaf_frame|..].
  - by eapply (frame_same [FI Icurrent_zk]); [apply iupdate_frame|..].
  - by eapply frame_same; [apply match_completed_frame|..].
  - by eapply frame_same; [apply store_document_frame|..].
  - by eapply frame_same; [apply advance_revision_frame|..].
Qed.

Lemma apply_revision e j av er mode h w w' :
  apply e j av er mode w = Ok (h, w') → revision_of w' = (revision_of w + 1)%N.
Proof.
  intros (c & zk & ins & out & d & w1 & w2 & w3 & w4 & w5 & w6 & w7 & _ & _ & _ & [_ F1] & [_ F2]
    & [_ F3] & [_ F4] & [_ F5] & [_ F6] & [E7 _] & [= <-])%apply_steps.
  apply advance_revision_Ok in E7 as (_ & Hn & _).
  change (revision_of w7 = revision_of w + 1)%N. rewrite Hn. f_equal.
  rewrite (same_revision w5 w6), (same_revision w4 w5), (same_revision w3 w4),
    (same_revision w2 w3), (same_revision w1 w2), (same_revision w w1); [done|..].
  - apply F1. set_solver.
  - apply F2. set_solver.
  - apply F3. set_solver.
  - apply F4. set_solver.
  - apply F5. set_solver.
  - apply F6. set_solver.
Qed.

(** The steps of a successful [execute_upgrade]. *)
Lemma execute_upgrade_Ok e id u w w' :
  execute_upgrade e id w = Ok (u, w') →
  ∃ r, authorized e (current_contract_address e) = true ∧
    ivalue Ipending_upgrade w = Some r ∧ ur_request_id r = id ∧
    readiness r (sequence e) (generation_of w) = Upgrade_Ready ∧
    ivalue Ipending_upgrade w' = None ∧ new_wasm w' = Some (ur_wasm_hash r) ∧
    generation_of w' = (generation_of w + 1)%N ∧ revision_of w' = (revision_of w + 1)%N.
Proof.
  unfold execute_upgrade. intros ([] & ? & [Ha ->]%alift_Ok & E)%abind_Ok.
  apply abind_Ok in E as (p & ? & [= <- <-] & E).
  apply abind_Ok in E as (r & ? & [Hp%ok_or_Ok ->]%alift_Ok & E).
  apply abind_Ok in E as (? & ? & [Hid ->]%arefuse_Ok & E).
  apply abind_Ok in E as (g & ? & [-> ->]%generation_Ok & E).
  apply abind_Ok in E as ([] & w0 & Hr & E).
  assert (w0 = w ∧ readiness r (sequence e) (generation_of w) = Upgrade_Ready) as [-> Hready].
  { by destruct (readiness _ _ _); [apply ret_Ok in Hr as [_ ->]|..]. }
  apply abind_Ok in E as ([] & w1 & E1 & E). apply abind_Ok in E as (c & ? & [= <- <-] & E).
  apply abind_Ok in E as ([] & w2 & E2 & E). apply abind_Ok in E as ([] & w3 & E3 & E).
  apply abind_Ok in E as (n & w4 & E4 & E). apply abind_Ok in E as ([] & w5 & [= <-] & [= _ <-]).
  exists r. apply negb_false_iff, N.eqb_eq in Hid. apply demand_Ok in Ha.
  assert (Hs : ∀ f, same f w1 w2).
  { intros f. eapply (frame_same []); [|exact E2|set_solver]. touch. }
  assert (ivalue Ipending_upgrade w1 = None) as Hnone.
  { unfold drop_pending_upgrade in E1. apply abind_Ok in E1 as (q & ? & [= <- <-] & E1).
    rewrite Hp in E1. apply abind_Ok in E1 as ([] & w6 & [= <-] & [= <-]).
    unfold ivalue. cbn [storage]. apply iput_eq. }
  pose proof (frame_same _ _ _ _ _ (FI Irecovery_generation) drop_pending_frame E1 ltac:(set_solver)).
  pose proof (frame_same _ _ _ _ _ (FI Irevision) drop_pending_frame E1 ltac:(set_solver)).
  pose proof (frame_same _ _ _ _ _ (FI Irevision) advance_generation_frame E3 ltac:(set_solver)).
  pose proof (frame_same _ _ _ _ _ (FI Ipending_upgrade) advance_generation_frame E3 ltac:(set_solver)) as P3.
  pose proof (frame_same _ _ _ _ _ (FI Ipending_upgrade) advance_revision_frame E4 ltac:(set_solver)) as P4.
  pose proof (frame_same _ _ _ _ _ (FI Irecovery_generation) advance_revision_frame E4 ltac:(set_solver)).
  apply advance_generation_Ok in E3. apply advance_revision_Ok in E4 as (-> & E4 & _).
  split_and!; try done.
  - change (ivalue Ipending_upgrade w4 = None). simpl in P3, P4. rewrite P4, P3.
    pose proof (Hs (FI Ipending_upgrade)) as P2. simpl in P2. by rewrite P2.
  - change (generation_of w4 = generation_of w + 1)%N.
    rewrite (same_generation w3 w4), E3 by done. f_equal.
    by rewrite (same_generation w1 w2), (same_generation w w1).
  - change (revision_of w4 = revision_of w + 1)%N. rewrite E4. f_equal.
    by rewrite (same_revision w2 w3), (same_revision w1 w2), (same_revision w w1).
Qed.

Definition advances (op : account_op) : bool :=
  match op with Do_apply _ _ _ _ | Do_execute_upgrade _ => true | _ => false end.

Lemma astep_revision e op w w' :
  astep e op w w' → revision_of w' = (revision_of w + if advances op then 1 else 0)%N.
Proof.
  intros Hs. destruct op; cbn [advances];
    try (rewrite N.add_0_r; apply same_revision; eapply astep_same; [exact Hs|]; simpl; set_solver).
  - destruct Hs as [h Hs]. by eapply apply_revision.
  - destruct Hs as [h Hs]. apply execute_upgrade_Ok in Hs. naive_solver.
Qed.

(** A step that leaves the revision leaves the configuration. *)
Lemma astep_configuration e op w w' f :
  astep e op w w' → advances op = false → f ∈ conf_fields → same f w w'.
Proof.
  intros Hs Ha Hf. eapply astep_same; [exact Hs|].
  destruct op; try done; simpl; unfold conf_fields in Hf; set_solver.
Qed.

Fixpoint count_advances (steps : list (Env * account_op)) : N :=
  match steps with
  | [] => 0
  | (_, op) :: steps => (if advances op then 1 else 0) + count_advances steps
  end.

Lemma count_advances_snoc steps e op :
  count_advances (steps ++ [(e, op)]) = (count_advances steps + if advances op then 1 else 0)%N.
Proof. induction steps as [|[] steps IH]; simpl; [lia|]. rewrite IH. lia. Qed.

Lemma arun_revision ok steps w w' :
  arun ok steps w w' → revision_of w' = (revision_of w + count_advances steps)%N.
Proof.
  induction 1 as [|steps e op w w1 w2 Hr IH Hn Hok Hs]; simpl; [lia|].
  rewrite (astep_revision e op w1 w2 Hs), IH, count_advances_snoc. lia.
Qed.

Lemma arun_same_revision ok steps w w' f :
  arun ok steps w w' → revision_of w' = revision_of w → f ∈ conf_fields → same f w w'.
Proof.
  intros Hr Hrev Hf. pose proof (arun_revision _ _ _ _ Hr) as Hc.
  assert (count_advances steps = 0%N) as H0 by lia. clear Hc Hrev.
  induction Hr as [|steps e op w w1 w2 Hr IH Hn Hok Hs]; [apply same_refl|].
  rewrite count_advances_snoc in H0. eapply same_trans; [apply IH; lia|].
  eapply astep_configuration; [done| |done]. destruct (advances op); lia || done.
Qed.

(** ** The pending upgrade *)

Lemma drop_pending_Ok u w w' :
  drop_pending_upgrade w = Ok (u, w') → ivalue Ipending_upgrade w' = None.
Proof.
  unfold drop_pending_upgrade. intros (q & ? & [= <- <-] & E)%abind_Ok.
  destruct (inst (storage w) Ipending_upgrade) eqn:Hp.
  - apply abind_Ok in E as ([] & w6 & [= <-] & [= _ <-]). unfold ivalue. cbn [storage]. apply iput_eq.
  - by apply ret_Ok in E as [_ ->].
Qed.

Lemma complete_recovery_pending e replaced target u w w' :
  complete_recovery e replaced target w = Ok (u, w') → ivalue Ipending_upgrade w' = None.
Proof.
  unfold complete_recovery. intros (? & ? & _ & E)%abind_Ok.
  apply abind_Ok in E as (? & ? & _ & E). apply abind_Ok in E as (? & ? & _ & E).
  apply abind_Ok in E as (? & ? & _ & E). by apply drop_pending_Ok in E.
Qed.

(** [apply] keeps the pending upgrade or drops it. *)
Lemma apply_pending e j av er mode h w w' :
  apply e j av er mode w = Ok (h, w') →
  same (FI Ipending_upgrade) w w' ∨ ivalue Ipending_upgrade w' = None.
Proof.
  intros (c & zk & ins & out & d & w1 & w2 & w3 & w4 & w5 & w6 & w7 & _ & _ & _ & [_ F1] & [_ F2]
    & [_ F3] & [_ F4] & [E5 _] & [_ F6] & [_ F7] & [= <-])%apply_steps.
  assert (same (FI Ipending_upgrade) w w4) as Hs.
  { eapply same_trans; [apply F1; set_solver|]. eapply same_trans; [apply F2; set_solver|].
    eapply same_trans; [apply F3; set_solver|]. apply F4. set_solver. }
  assert (same (FI Ipending_upgrade) w5 w7) as Hs'.
  { eapply same_trans; [apply F6; set_solver|]. apply F7. set_solver. }
  destruct out; try (apply ret_Ok in E5 as [_ ->]; left; by eapply same_trans).
  right. apply complete_recovery_pending in E5. simpl in Hs'.
  change (ivalue Ipending_upgrade w7 = None). by rewrite Hs'.
Qed.

Lemma schedule_upgrade_Ok e hash av id w w' :
  schedule_upgrade e hash av w = Ok (id, w') →
  ∃ r, ivalue Ipending_upgrade w' = Some r ∧ ur_request_id r = id ∧ ur_wasm_hash r = hash ∧
    ur_generation r = generation_of w ∧
    ur_executable_at r = (sequence e + ACCOUNT_UPGRADE_DELAY_LEDGERS)%N ∧
    ivalue Inext_upgrade_id w' = Some (id + 1)%N ∧ id = default 0%N (ivalue Inext_upgrade_id w).
Proof.
  unfold schedule_upgrade. intros ([] & ? & [_ ->]%alift_Ok & E)%abind_Ok.
  apply abind_Ok in E as (n & ? & [= <- <-] & E).
  apply abind_Ok in E as (next & ? & [[-> _]%u64_add_Ok ->]%alift_Ok & E).
  apply abind_Ok in E as ([] & w1 & E1 & E). apply abind_Ok in E as (c & ? & [= <- <-] & E).
  apply abind_Ok in E as (ce & w2 & E2 & E). apply abind_Ok in E as (g & ? & [-> ->]%generation_Ok & E).
  apply abind_Ok in E as (r & ? & [Hr%ok_or_Ok ->]%alift_Ok & E).
  apply abind_Ok in E as ([] & w3 & E3 & E). apply abind_Ok in E as ([] & w4 & E4 & E).
  apply abind_Ok in E as ([] & w5 & [= <-] & [-> ->]%ret_Ok).
  assert (Hs : ∀ f, same f w1 w2).
  { intros f. eapply (frame_same []); [|exact E2|set_solver]. touch. }
  unfold UpgradeRequest_schedule in Hr. destruct (checked_add32 _ _) as [at_|] eqn:Hat; [|done].
  apply checked_add32_Some in Hat as [-> _]. injection Hr as <-.
  exists {| ur_request_id := default 0%N (inst (storage w) Inext_upgrade_id);
    ur_wasm_hash := hash; ur_generation := generation_of w2; ur_controller_epoch := ce;
    ur_executable_at := (sequence e + ACCOUNT_UPGRADE_DELAY_LEDGERS)%N |}.
  simpl. split_and!; try done.
  - by apply iset_Ok in E4.
  - rewrite (same_generation w1 w2) by apply Hs. apply same_generation.
    injection E1 as <-. simpl. unfold ivalue. cbn [storage]. by rewrite iput_ne.
  - change (ivalue Inext_upgrade_id w4 = Some (default 0 (inst (storage w) Inext_upgrade_id) + 1)%N).
    injection E4 as <-. unfold ivalue. cbn [storage]. rewrite iput_ne by done.
    pose proof (frame_same _ _ _ _ _ (FI Inext_upgrade_id) drop_pending_frame E3 ltac:(set_solver)) as P.
    simpl in P. unfold ivalue in P. rewrite P.
    pose proof (Hs (FI Inext_upgrade_id)) as P'. simpl in P'. unfold ivalue in P'. rewrite P'.
    by apply iset_Ok in E1.
Qed.

(** A step that neither schedules nor ends an upgrade keeps the pending one
    or drops it. *)
Definition upgrade_op (op : account_op) : bool :=
  match op with
  | Do_schedule_upgrade _ _ | Do_execute_upgrade _ | Do_cancel_upgrade => true
  | _ => false
  end.

Lemma astep_pending e op w w' r :
  astep e op w w' → ivalue Ipending_upgrade w' = Some r →
  upgrade_op op = false ∧ ivalue Ipending_upgrade w = Some r ∨
  ∃ hash av, op = Do_schedule_upgrade hash av ∧
    schedule_upgrade e hash av w = Ok (ur_request_id r, w') ∧ ur_wasm_hash r = hash ∧
    ur_generation r = generation_of w ∧
    ur_executable_at r = (sequence e + ACCOUNT_UPGRADE_DELAY_LEDGERS)%N.
Proof.
  intros Hs Hp. destruct op as [j av er mode| | | |hash av|id| | | |];
    try (left; split; [done|]; rewrite <- Hp; symmetry;
         apply (astep_same _ _ _ _ (FI Ipending_upgrade) Hs); simpl; set_solver).
  - left. split; [done|]. destruct Hs as [h Hs]. apply apply_pending in Hs as [Hs|Hs]; congruence.
  - right. destruct Hs as [id Hs]. exists hash, av.
    pose proof (schedule_upgrade_Ok _ _ _ _ _ _ Hs) as (r' & Hr & <- & <- & Hg & Ha & _).
    rewrite Hp in Hr. by injection Hr as <-.
  - destruct Hs as [u Hs]. apply execute_upgrade_Ok in Hs. naive_solver congruence.
  - destruct Hs as [u Hs]. unfold cancel_upgrade in Hs. apply abind_Ok in Hs as (? & ? & _ & Hs).
    apply abind_Ok in Hs as (? & ? & _ & Hs). apply abind_Ok in Hs as (? & ? & _ & Hs).
    apply drop_pending_Ok in Hs. congruence.
Qed.

(** Where the pending upgrade of a run comes from. *)
Lemma arun_pending ok steps w0 w r :
  arun ok steps w0 w → ivalue Ipending_upgrade w0 = None → ivalue Ipending_upgrade w = Some r →
  ∃ pre e hash av post w1 w2, steps = pre ++ (e, Do_schedule_upgrade hash av) :: post ∧
    arun ok pre w0 w1 ∧ schedule_upgrade e hash av w1 = Ok (ur_request_id r, w2) ∧
    Forall (λ s, upgrade_op s.2 = false) post ∧ ur_wasm_hash r = hash ∧
    ur_generation r = generation_of w1 ∧
    ur_executable_at r = (sequence e + ACCOUNT_UPGRADE_DELAY_LEDGERS)%N.
Proof.
  intros Hr H0. revert r. induction Hr as [|steps e op w0 w1 w2 Hr IH Hn Hok Hs]; intros r Hp;
    [congruence|].
  destruct (astep_pending _ _ _ _ _ Hs Hp) as [[Hop Hp1]|(hash & av & -> & Hsch & ? & ? & ?)].
  - destruct (IH H0 r Hp1) as (pre & e1 & hash & av & post & v1 & v2 & -> & ? & ? & ? & ? & ? & ?).
    exists pre, e1, hash, av, (post ++ [(e, op)]), v1, v2. split_and!; try done.
    + by rewrite <- (assoc_L (++)).
    + by apply Forall_app_2; [|constructor].
  - exists steps, e, hash, av, [], w1, w2. by split_and!.
Qed.

(** ** Revocations *)

Lemma pset_value e f k v u w w' j :
  pset e f k v w = Ok (u, w') →
  pvalue f j w' = if decide (j = k) then Some v else pvalue f j w.
Proof.
  intros [= _ <-]. unfold pvalue. cbn [storage]. rewrite pput_eq. apply persistent_get_set.
Qed.

Lemma revoke_one e x u w w' f :
  (pset e Prevoked x true;; pextend_max e Prevoked x;; publish (CredentialRevoked x)) w
    = Ok (u, w') →
  pvalue Prevoked f w' = if decide (f = x) then Some true else pvalue Prevoked f w.
Proof.
  intros ([] & w1 & E1 & E)%abind_Ok. apply abind_Ok in E as ([] & w2 & E2 & [= _ <-]).
  apply (pset_value _ Prevoked _ _ _ _ _ f) in E1.
  pose proof (frame_same [] _ _ _ _ (FP Prevoked) (touches_pextend _ _ _ _ _ _) E2
    ltac:(set_solver) f) as Hs.
  change (pvalue Prevoked f w2 = if decide (f = x) then Some true else pvalue Prevoked f w).
  by rewrite Hs, E1.
Qed.

Lemma revoke_each e l : ∀ u w w' f,
  for_each l (λ x, pset e Prevoked x true;; pextend_max e Prevoked x;;
                   publish (CredentialRevoked x)) w = Ok (u, w') →
  pvalue Prevoked f w' = if decide (f ∈ l) then Some true else pvalue Prevoked f w.
Proof.
  induction l as [|x l IH]; intros u w w' f; simpl.
  - by intros [_ ->]%ret_Ok.
  - intros ([] & w1 & E1 & E)%abind_Ok. apply (IH _ _ _ f) in E. rewrite E.
    apply (revoke_one _ _ _ _ _ f) in E1. rewrite E1.
    repeat case_decide; set_solver.
Qed.

(** What a completed recovery leaves. *)
Lemma complete_recovery_Ok e replaced target u w w' :
  complete_recovery e replaced target w = Ok (u, w') →
  ∃ fs, Forall2 (λ c f, credential_fingerprint c = Ok f) replaced fs ∧
    (∀ f, pvalue Prevoked f w' =
       if decide (f ∈ revocations fs (default [] (pvalue Papplied_fingerprints tt w)) target)
       then Some true else pvalue Prevoked f w) ∧
    ivalue Igate w' = None ∧ ivalue Ipending_upgrade w' = None.
Proof.
  intros E. pose proof (complete_recovery_pending _ _ _ _ _ _ E) as Hp. revert E.
  unfold complete_recovery. intros (fs & ? & [Hfs ->]%alift_Ok & E)%abind_Ok.
  apply mapM_result_Ok in Hfs.
  apply abind_Ok in E as (before & ? & E0 & E). apply (pget_Ok Papplied_fingerprints) in E0 as [-> ->].
  apply abind_Ok in E as ([] & w1 & E1 & E).
  apply abind_Ok in E as ([] & w2 & E2 & E). exists fs. split_and!.
  - eapply Forall2_impl; [exact Hfs|]. intros c f. simpl. by rewrite map_err_Ok.
  - intros f. apply (revoke_each _ _ _ _ _ f) in E1. etrans; [|exact E1].
    pose proof (frame_same _ _ _ _ _ (FP Prevoked) drop_pending_frame E ltac:(set_solver) f) as Hs.
    rewrite Hs. by injection E2 as <-.
  - pose proof (frame_same _ _ _ _ _ (FI Igate) drop_pending_frame E ltac:(set_solver)) as Hs.
    simpl in Hs. rewrite Hs. injection E2 as <-. unfold ivalue. cbn [storage]. apply iput_eq.
  - done.
Qed.

Lemma store_document_Ok e compiled u w w' :
  store_document e compiled w = Ok (u, w') →
  ivalue Iapplied_doc w' = Some (cd_doc_hash compiled) ∧
  if decide (ivalue Iapplied_doc w = Some (cd_doc_hash compiled))
  then pvalue Papplied_fingerprints tt w' = pvalue Papplied_fingerprints tt w ∧
       pvalue Papplied_doc_bytes tt w' = pvalue Papplied_doc_bytes tt w
  else pvalue Papplied_fingerprints tt w' = Some (cd_fingerprints compiled) ∧
       pvalue Papplied_doc_bytes tt w' = Some (cd_canonical compiled).
Proof.
  unfold store_document. intros (now & ? & [= <- <-] & E)%abind_Ok.
  change (inst (storage w) Iapplied_doc) with (ivalue Iapplied_doc w) in E.
  case_bool_decide as Hnow; [apply ret_Ok in E as [_ ->]; by rewrite decide_True|].
  rewrite decide_False by done.
  apply abind_Ok in E as ([] & w1 & E1 & E). apply abind_Ok in E as ([] & w2 & E2 & E).
  apply abind_Ok in E as ([] & w3 & E3 & E). apply abind_Ok in E as ([] & w4 & E4 & E5).
  assert (Hs : ∀ f, same f w3 w').
  { intros f. apply (same_trans _ _ w4).
    - eapply (frame_same []); [apply touches_pextend|exact E4|set_solver].
    - eapply (frame_same []); [apply touches_pextend|exact E5|set_solver]. }
  pose proof (Hs (FI Iapplied_doc)) as Hi. pose proof (Hs (FP Papplied_fingerprints) tt) as Hf.
  pose proof (Hs (FP Papplied_doc_bytes) tt) as Hb. simpl in Hi. rewrite Hi, Hf, Hb.
  pose proof (pset_value _ Papplied_doc_bytes _ _ _ _ _ tt E2) as B2.
  pose proof (pset_value _ Papplied_fingerprints _ _ _ _ _ tt E3) as B3.
  case_decide; [|done]. case_decide; [|done]. split_and!; [|done|].
  - apply iset_Ok in E1. etrans; [|exact E1]. injection E3 as <-. injection E2 as <-. done.
  - etrans; [|exact B2]. injection E3 as <-. unfold pvalue. cbn [storage]. by rewrite pput_ne.
Qed.
End ops.
