(* ===== verification/AccountSafety.v ===== *)
(** * The account: what no run of it can do

    The theorems about runs of an account: revisions name configurations, an
    upgrade waits out its delay, a completed recovery settles what it replaces
    and its revocations stay out of every document applied later; and the
    exact decision of [__check_auth] with the digest its signers sign. *)

From S2P Require Import Prelude Host Program RecoveryIface CompilerIface Rules Account AccountFacts AccountRuns.

Section safety.
Context {H : Host} {I : Infra} {V : Values} {Oz : OZ} {O : AccountOutside} {OA : OzAccount}.

(** ** Controllers *)

Lemma sync_Ok e controller compiled av outcome w w' :
  sync e controller compiled av w = Ok (outcome, w') →
  (∃ s, call_rcv_sync (outside w) controller (current_contract_address e)
     (cd_doc_hash compiled) (cd_recovery compiled) av = Ok (outcome, s)) ∧
  generation_of w' = (generation_of w + if bumps_generation outcome then 1 else 0)%N.
Proof.
  unfold sync. intros (o & w1 & E1 & E)%abind_Ok. unfold call in E1.
  apply abind_Ok in E1 as ([o' s] & ? & [Hc%map_err_Ok ->]%alift_Ok & E1).
  apply abind_Ok in E1 as ([] & w0 & [= <-] & [-> ->]%ret_Ok).
  apply abind_Ok in E as ([] & w2 & E2 & [-> ->]%ret_Ok). split; [eauto|]. simpl in *.
  destruct (bumps_generation o').
  - by apply advance_generation_Ok in E2.
  - apply ret_Ok in E2 as [_ ->]. simpl. rewrite N.add_0_r. done.
Qed.

(** The outcome [apply] acts on is the old controller's. *)
Lemma sync_controllers_Ok e compiled av outcome w w' :
  sync_controllers e compiled av w = Ok (outcome, w') →
  match ivalue Irecovery_controller w with
  | Some controller =>
      ∃ s, call_rcv_sync (outside w) controller (current_contract_address e)
        (cd_doc_hash compiled) (cd_recovery compiled) av = Ok (outcome, s)
  | None => outcome = Sync_Unchanged
  end ∧ (generation_of w + (if bumps_generation outcome then 1 else 0) ≤ generation_of w')%N.
Proof.
  unfold sync_controllers. intros (old & ? & [= <- <-] & E)%abind_Ok.
  change (inst (storage w) Irecovery_controller) with (ivalue Irecovery_controller w) in E.
  apply abind_Ok in E as (o & w1 & E1 & E). apply abind_Ok in E as ([] & w2 & E2 & [-> ->]%ret_Ok).
  assert (generation_of w1 ≤ generation_of w2)%N as Hle.
  { destruct (head _) as [next|]; [|by apply ret_Ok in E2 as [_ ->]].
    case_bool_decide; [by apply ret_Ok in E2 as [_ ->]|].
    apply abind_Ok in E2 as (o2 & w3 & E2 & [_ ->]%ret_Ok). apply sync_Ok in E2 as [_ ->]. lia. }
  destruct (ivalue Irecovery_controller w) as [c|].
  - apply sync_Ok in E1 as [Hs Hg]. split; [done|]. lia.
  - apply ret_Ok in E1 as [-> ->]. simpl. split; [done|]. lia.
Qed.

(** ** Revoked credentials *)

Definition applied_fingerprints (w : AWorld) : list bytes :=
  default [] (pvalue Papplied_fingerprints tt w).

(** What a completed recovery does to the revocations, seen from [apply]. *)
Definition revoked_after (w w' : AWorld) (outcome : SyncOutcome) (target : list bytes) : Prop :=
  match outcome with
  | Sync_Completed c =>
      ∃ fs, Forall2 (λ k f, credential_fingerprint k = Ok f) (cp_replaced c) fs ∧
        (∀ f, pvalue Prevoked f w' =
           if decide (f ∈ revocations fs (applied_fingerprints w) target)
           then Some true else pvalue Prevoked f w) ∧
        ivalue Igate w' = None ∧ ivalue Ipending_upgrade w' = None
  | _ => same (FP Prevoked) w w'
  end.

Lemma apply_document e j av er mode h w w' :
  apply e j av er mode w = Ok (h, w') →
  ∃ c outcome,
    call_compile_doc (outside w) (perch_doc_compiler e) j = Ok c ∧ h = cd_doc_hash c ∧
    (∀ f, f ∈ cd_fingerprints c → pvalue Prevoked f w = None) ∧
    match ivalue Irecovery_controller w with
    | Some controller =>
        ∃ s, call_rcv_sync (outside w) controller (current_contract_address e)
          (cd_doc_hash c) (cd_recovery c) av = Ok (outcome, s)
    | None => outcome = Sync_Unchanged
    end ∧
    (generation_of w + (if bumps_generation outcome then 1 else 0) ≤ generation_of w')%N ∧
    revoked_after w w' outcome (cd_fingerprints c) ∧
    ivalue Iapplied_doc w' = Some h ∧
    if decide (ivalue Iapplied_doc w = Some h)
    then pvalue Papplied_fingerprints tt w' = pvalue Papplied_fingerprints tt w
    else pvalue Papplied_fingerprints tt w' = Some (cd_fingerprints c).
Proof.
  intros (c & zk & ins & out & d & w1 & w2 & w3 & w4 & w5 & w6 & w7 & Hc & -> & Hk & [E1 F1] &
    [_ F2] & [_ F3] & [_ F4] & [E5 F5] & [E6 F6] & [_ F7] & E8)%apply_steps.
  apply check_document_Ok in Hk as (_ & _ & Hrev & _).
  apply sync_controllers_Ok in E1 as [E1 Hg]. exists c, out.
  assert (F04 : ∀ f, f ∉ [FI Irecovery_generation; FRules; FP Pinstalled_rules; FI Irecovery_rule;
    FI Irecovery_controller; FP Penrolled_ids; FI Icurrent_zk] → same f w w4).
  { intros f Hf. apply (same_trans _ _ w1); [apply F1; set_solver|].
    apply (same_trans _ _ w2); [apply F2; set_solver|].
    apply (same_trans _ _ w3); [apply F3; set_solver|]. apply F4. set_solver. }
  assert (F57 : ∀ f, f ∉ [FI Iapplied_doc; FP Papplied_doc_bytes; FP Papplied_fingerprints;
    FI Irevision; FEvents] → same f w5 w').
  { intros f Hf. apply (same_trans _ _ w6); [apply F6; set_solver|].
    apply (same_trans _ _ w7); [apply F7; set_solver|].
    eapply (frame_same [FEvents]); [|exact E8|set_solver]. by apply touches_publish. }
  assert (F67 : ∀ f, f ∉ [FI Irevision; FEvents] → same f w6 w').
  { intros f Hf. apply (same_trans _ _ w7); [apply F7; set_solver|].
    eapply (frame_same [FEvents]); [|exact E8|set_solver]. by apply touches_publish. }
  apply store_document_Ok in E6 as [Hdoc Hfs].
  pose proof (F67 (FI Iapplied_doc) ltac:(set_solver)) as D1. simpl in D1.
  pose proof (F67 (FP Papplied_fingerprints) ltac:(set_solver) tt) as D2.
  pose proof (F5 (FI Iapplied_doc) ltac:(set_solver)) as D3. simpl in D3.
  pose proof (F04 (FI Iapplied_doc) ltac:(set_solver)) as D4. simpl in D4.
  pose proof (F5 (FP Papplied_fingerprints) ltac:(set_solver) tt) as D5.
  pose proof (F04 (FP Papplied_fingerprints) ltac:(set_solver) tt) as D6.
  split_and!; [done..| | |by rewrite D1|].
  - enough (generation_of w' = generation_of w1) by lia.
    apply same_generation. apply (same_trans _ _ w4); [|apply (same_trans _ _ w5)].
    + apply (same_trans _ _ w2); [apply F2; set_solver|].
      apply (same_trans _ _ w3); [apply F3; set_solver|]. apply F4. set_solver.
    + apply F5. set_solver.
    + apply F57. set_solver.
  - destruct out as [| | | |comp]; cbn [revoked_after];
      try (apply ret_Ok in E5 as [_ ->]; apply (same_trans _ _ w4);
           [apply F04; set_solver|apply F57; set_solver]).
    apply complete_recovery_Ok in E5 as (fs & Hfp & Hr & Hgate & Hpend). exists fs.
    split_and!; [done|..].
    + intros f. rewrite (F57 (FP Prevoked) ltac:(set_solver) f), Hr, D6.
      by rewrite (F04 (FP Prevoked) ltac:(set_solver) f).
    + by rewrite (F57 (FI Igate) ltac:(set_solver)).
    + by rewrite (F57 (FI Ipending_upgrade) ltac:(set_solver)).
  - rewrite D3, D4, D2 in *. case_decide; destruct Hfs as [-> _]; by rewrite ?D5, ?D6.
Qed.

(** A revocation is never undone. *)
Lemma astep_revoked e op w w' f :
  astep e op w w' → pvalue Prevoked f w ≠ None → pvalue Prevoked f w' ≠ None.
Proof.
  intros Hs Hf. destruct op as [j av er mode| | | | | | | | |];
    try (rewrite (astep_same _ _ _ _ (FP Prevoked) Hs ltac:(simpl; set_solver) f); done).
  destruct Hs as [h (c & out & _ & _ & _ & _ & _ & Hafter & _)%apply_document].
  destruct out as [| | | |comp]; cbn [revoked_after] in Hafter; try (by rewrite (Hafter f)).
  destruct Hafter as (fs & _ & Hr & _). rewrite Hr. by case_decide.
Qed.
Lemma arun_revoked ok steps w w' f :
  arun ok steps w w' → pvalue Prevoked f w ≠ None → pvalue Prevoked f w' ≠ None.
Proof.
  intros Hr Hf. eapply (arun_inv_ind ok (λ w, pvalue Prevoked f w ≠ None)); [|exact Hf|exact Hr].
  intros. by eapply astep_revoked.
Qed.

(** A completed recovery settles the account in the same invocation: when
    the enrolled controller answers [apply] with a completion, every replaced
    credential and every credential of the old document the new one drops is
    revoked, no other revocation changes, the freeze gate is lifted, a pending
    upgrade is dropped, and the generation moves, so nothing scheduled before
    can execute. *)
Lemma completed_recovery_settles e j av er mode h w w' controller c comp s :
  apply e j av er mode w = Ok (h, w') →
  ivalue Irecovery_controller w = Some controller →
  call_compile_doc (outside w) (perch_doc_compiler e) j = Ok c →
  call_rcv_sync (outside w) controller (current_contract_address e)
    (cd_doc_hash c) (cd_recovery c) av = Ok (Sync_Completed comp, s) →
  ∃ fs, Forall2 (λ k f, credential_fingerprint k = Ok f) (cp_replaced comp) fs ∧
    (∀ f, pvalue Prevoked f w' ≠ None ↔ pvalue Prevoked f w ≠ None ∨ f ∈ fs ∨
       f ∈ applied_fingerprints w ∧ f ∉ cd_fingerprints c) ∧
    ivalue Igate w' = None ∧ ivalue Ipending_upgrade w' = None ∧
    (generation_of w < generation_of w')%N.
Proof.
  intros (c' & out & Hc' & _ & _ & Hsync & Hg & Hafter & _)%apply_document Hctl Hc Hs.
  rewrite Hc in Hc'. injection Hc' as <-. rewrite Hctl in Hsync. destruct Hsync as [s' Hs'].
  rewrite Hs in Hs'. injection Hs' as <- <-. cbn [revoked_after] in Hafter.
  destruct Hafter as (fs & Hfp & Hr & Hgate & Hp). exists fs. split_and!; try done.
  - intros f. rewrite Hr. rewrite <- (proj1 (proj2 (revocations_spec _ _ _)) f).
    case_decide; naive_solver.
  - simpl in Hg. lia.
Qed.

End safety.

Section claims.
Context {H : Host} {I : Infra} {V : Values} {Oz : OZ} {O : AccountOutside} {OA : OzAccount}.

(** A revision names one configuration: along every run of the account the
    revision counts exactly the applied documents and executed upgrades, never
    decreasing and never wrapping, and two states of a run with the same
    revision agree on the applied document, its bytes and fingerprints, the
    revocations and enrollments, the installed rules and their records, the
    controller and the recovery rule. *)
Theorem revision_names_configuration ok steps w w' :
  arun ok steps w w' →
  revision_of w' = (revision_of w + count_advances steps)%N ∧
  (revision_of w' = revision_of w → ∀ f, f ∈ conf_fields → same f w w').
Proof.
  intros Hr. split; [by eapply arun_revision|]. intros. by eapply arun_same_revision.
Qed.

(** C14: No upgrade runs before its delay: when [execute_upgrade] installs a
    Wasm on some run, an earlier step of that run scheduled exactly that
    request and that hash at least [ACCOUNT_UPGRADE_DELAY_LEDGERS] before, no
    upgrade was scheduled, executed or cancelled since, and the recovery
    generation has not moved, so no recovery or reconfiguration came between. *)
Theorem upgrade_waits_out_its_delay ok steps w0 w e id w' :
  arun ok steps w0 w → ivalue Ipending_upgrade w0 = None →
  execute_upgrade e id w = Ok (tt, w') →
  ∃ pre e1 hash av post w1 w2,
    steps = pre ++ (e1, Do_schedule_upgrade hash av) :: post ∧
    arun ok pre w0 w1 ∧ schedule_upgrade e1 hash av w1 = Ok (id, w2) ∧
    Forall (λ s, upgrade_op s.2 = false) post ∧
    (sequence e1 + ACCOUNT_UPGRADE_DELAY_LEDGERS ≤ sequence e)%N ∧
    generation_of w = generation_of w1 ∧ new_wasm w' = Some hash.
Proof.
  intros Hr H0 (r & _ & Hp & <- & Hready & _ & Hw & _)%execute_upgrade_Ok.
  destruct (arun_pending _ _ _ _ _ Hr H0 Hp)
    as (pre & e1 & hash & av & post & w1 & w2 & -> & Hpre & Hs & Hpost & <- & Hg & Ha).
  exists pre, e1, (ur_wasm_hash r), av, post, w1, w2. unfold readiness in Hready.
  destruct (N.eqb_spec (generation_of w) (ur_generation r)) as [Hgen|]; [|done].
  destruct (N.ltb_spec (sequence e) (ur_executable_at r)); [done|].
  split_and!; try done; [by rewrite <- Ha|by rewrite Hgen].
Qed.

(** C15: A recovery locks the replaced credentials out for good.  When the
    enrolled controller answers [apply] with a completed recovery, every
    replaced credential and every recorded credential of the old document that
    the new one drops is revoked, on top of those already revoked; whatever
    runs then, these stay revoked, and no document the account applies later
    holds one of them, on any controller and any compiler. *)
Theorem revoked_credentials_stay_out ok steps
    e j av er mode h w w1 controller c comp s e' j' av' er' mode' h' w2 w3 :
  apply e j av er mode w = Ok (h, w1) →
  ivalue Irecovery_controller w = Some controller →
  call_compile_doc (outside w) (perch_doc_compiler e) j = Ok c →
  call_rcv_sync (outside w) controller (current_contract_address e)
    (cd_doc_hash c) (cd_recovery c) av = Ok (Sync_Completed comp, s) →
  arun ok steps w1 w2 →
  apply e' j' av' er' mode' w2 = Ok (h', w3) →
  ∃ fs c', Forall2 (λ k f, credential_fingerprint k = Ok f) (cp_replaced comp) fs ∧
    call_compile_doc (outside w2) (perch_doc_compiler e') j' = Ok c' ∧ h' = cd_doc_hash c' ∧
    ∀ f, pvalue Prevoked f w ≠ None ∨ f ∈ fs ∨
         f ∈ applied_fingerprints w ∧ f ∉ cd_fingerprints c →
      pvalue Prevoked f w2 ≠ None ∧ pvalue Prevoked f w3 ≠ None ∧ f ∉ cd_fingerprints c'.
Proof.
  intros E1 Hctl Hc Hs Hr E2.
  destruct (completed_recovery_settles _ _ _ _ _ _ _ _ _ _ _ _ E1 Hctl Hc Hs) as (fs & Hfs & Hrev & _).
  pose proof (apply_document _ _ _ _ _ _ _ _ E2) as (c' & _ & Hc' & Hh & Hno & _).
  exists fs, c'. split_and!; try done. intros f Hf%Hrev.
  pose proof (arun_revoked _ _ _ _ _ Hr Hf) as Hf2. split_and!; [done|..].
  - apply (astep_revoked e' (Do_apply j' av' er' mode') w2 w3 f); [by exists h'|done].
  - intros Hin. by apply Hf2, Hno.
Qed.

(** ** [__check_auth] *)

Lemma names_reserved_spec c :
  (∀ name, name ∈ RESERVED_INVOKER_ONLY_FNS → symbol_new name = Some name) →
  names_reserved c = true ↔
    ∃ cc, c = Context_Contract cc ∧ fn_name cc ∈ RESERVED_INVOKER_ONLY_FNS.
Proof.
  intros Hsym. destruct c as [cc| |]; simpl; [|naive_solver..].
  unfold is_reserved_invoker_only. rewrite existsb_exists. split.
  - intros (name & Hin & Hb). apply bool_decide_eq_true in Hb. apply list_elem_of_In in Hin.
    exists cc. split; [done|]. rewrite (Hsym name Hin) in Hb. by injection Hb as <-.
  - intros (cc' & [= <-] & Hin). exists (fn_name cc). split; [by apply list_elem_of_In|].
    apply bool_decide_eq_true. by apply Hsym.
Qed.

Lemma is_completion_spec e st sigs ctxs :
  is_completion e st sigs ctxs = true ↔
  ∃ rule c, inst st Irecovery_rule = Some rule ∧ context_rule_ids sigs = [rule] ∧
    ctxs = [Context_Contract c] ∧ contract c = current_contract_address e ∧
    fn_name c = "apply_doc"%string.
Proof.
  unfold is_completion. destruct (inst st Irecovery_rule) as [rule|]; [|naive_solver].
  destruct (negb (length ctxs =? 1)%nat || _) eqn:Hc.
  { split; [done|]. intros (rule' & c & [= <-] & Hids & -> & _). rewrite Hids in Hc.
    by rewrite bool_decide_true in Hc. }
  apply orb_false_iff in Hc as [Hl%negb_false_iff%Nat.eqb_eq Hi%negb_false_iff%bool_decide_eq_true].
  destruct ctxs as [|c [|]]; try done. destruct c as [c| |]; [|naive_solver..].
  rewrite andb_true_iff, bool_decide_eq_true, String.eqb_eq. naive_solver.
Qed.

(** C5: [__check_auth] decides exactly this: no authorized call names a reserved
    invoker-only function; while the gate is frozen the only thing the account
    authorizes is one call of its own [apply_doc] under the recovery rule
    alone; and OpenZeppelin accepts the signatures over the digest bound to
    this account, never over the raw payload.  The account's storage does not
    change. *)
Theorem check_auth_exact e payload sigs ctxs w w' :
  (∀ name, name ∈ RESERVED_INVOKER_ONLY_FNS → symbol_new name = Some name) →
  check_auth e payload sigs ctxs w = Ok w' ↔
  (∀ c, Context_Contract c ∈ ctxs → fn_name c ∉ RESERVED_INVOKER_ONLY_FNS) ∧
  (∀ g, ivalue Igate w = Some g → (sequence e < fg_until g)%N →
     ∃ rule c, ivalue Irecovery_rule w = Some rule ∧ context_rule_ids sigs = [rule] ∧
       ctxs = [Context_Contract c] ∧ contract c = current_contract_address e ∧
       fn_name c = "apply_doc"%string) ∧
  ∃ out,
    do_check_auth e (bind_signature_payload_for_account (current_contract_address e) payload)
      sigs ctxs (rule_store w) (outside w) = Some out ∧
    w' = {| storage := storage w; rule_store := rule_store w; outside := out;
            events := events w; new_wasm := new_wasm w |}.
Proof.
  intros Hsym. unfold check_auth. rewrite rbind_Ok. setoid_rewrite rbind_Ok.
  setoid_rewrite rbind_Ok. setoid_rewrite refuse_if_Ok. setoid_rewrite or_panic_Ok. split.
  - intros ([] & Hres & [] & Hgate & out & Hout & [= <-]). split_and!; [..|by exists out].
    + intros c Hin Hr. assert (existsb names_reserved ctxs = true) as Ht; [|congruence].
      apply existsb_exists. exists (Context_Contract c). split; [by apply list_elem_of_In|].
      apply names_reserved_spec; eauto.
    + intros g Hg Hlt. unfold ivalue in Hg. rewrite Hg in Hgate. unfold is_frozen in Hgate.
      apply N.ltb_lt in Hlt. rewrite Hlt in Hgate. apply negb_false_iff in Hgate.
      by apply is_completion_spec in Hgate.
  - intros (Hres & Hgate & out & Hout & ->). exists tt. split.
    { destruct (existsb names_reserved ctxs) eqn:Hx; [|done].
      apply existsb_exists in Hx as (c & Hin & Hc). apply list_elem_of_In in Hin.
      apply names_reserved_spec in Hc as (cc & -> & Hcc); [|done]. by destruct (Hres cc). }
    exists tt. split; [|by exists out]. unfold ivalue in Hgate.
    destruct (inst (storage w) Igate) as [g|]; [|done]. unfold is_frozen.
    destruct (N.ltb_spec (sequence e) (fg_until g)) as [Hlt|]; [|done].
    rewrite andb_true_l. apply negb_false_iff, is_completion_spec. eauto.
Qed.

Lemma length_payload_id a : String.length (payload_id a) = 32%nat.
Proof.
  unfold payload_id. destruct (address_payload a) as [[k p]|] eqn:Hp; [|done].
  by apply address_payload_Some in Hp as [? _].
Qed.

(** C16: A signature names its account: under a collision-free hash, two
    accounts' bound digests are equal only for the same account and the same
    payload, so a signature made for one account never authorizes another; and
    the bound digest of no account is a statement, credential, replacement,
    configuration, rule or document digest. *)
Theorem bound_digest_names_account `{!XdrLaw}
    (collision_free : ∀ x y : bytes, sha256 x = sha256 y → x = y) a b p q i j :
  contract_id a = Some i → contract_id b = Some j →
  (bind_signature_payload_for_account a p = bind_signature_payload_for_account b q ↔
   a = b ∧ p = q) ∧
  ∀ k x, bind_signature_payload_for_account a p ≠ sha256 (digest_tag k +:+ x).
Proof.
  intros Ha Hb. split; [split|].
  - intros E%collision_free. apply string_app_inj_length in E as [_ E]; [|done].
    apply string_app_inj_length in E as [Eid ->]; [|by rewrite !length_payload_id].
    split; [|done]. apply contract_id_Some in Ha as Ha', Hb as Hb'.
    unfold payload_id in Eid. rewrite Ha', Hb' in Eid. subst j. by eapply contract_id_inj.
  - by intros [-> ->].
  - intros k x E%collision_free. destruct k; discriminate E.
Qed.
End claims.
