(* ===== verification/AccountAdmin.v ===== *)
(** * The account and its rules: an administrator is always in force

    [compiled_ok] is what the account expects of a compiled document: rules
    OpenZeppelin accepts one by one, in different slots.  Against it every
    document is installed exactly, the records stay true of the rules in force,
    a rule that lets the account's own signers administer it is in force in
    every reachable state, and [apply] succeeds exactly under conditions stated
    without its code. *)

From S2P Require Import Prelude Host Program RecoveryIface CompilerIface Rules RulesFacts RulesRun Account AccountFacts AccountRuns AccountSafety.

(** OpenZeppelin's [add_context_rule] is the quiet one with events. *)
Class OzAccountLaws `{H : Host} {Oz : OZ} {O : AccountOutside} {OA : OzAccount} : Prop :=
  add_context_rule_quiet e ctx name until signers policies st :
    add_context_rule e ctx name until signers policies st =
    add_context_rule_no_events e ctx name until signers policies st.

Section admin.
Context {H : Host} {I : Infra} {V : Values} {Oz : OZ} {O : AccountOutside} {OA : OzAccount}.
Context {OL : OzLaws}.

(** ** What the compiler promises *)

Definition scope_context (e : Env) (s : RuleScope) : ContextRuleType :=
  match s with
  | RuleScope_SelfAdmin => ContextRuleType_CallContract (current_contract_address e)
  | RuleScope_Contract a => ContextRuleType_CallContract a
  end.

Definition cap_val (cap : CompiledCap) : Val :=
  cap_into_val {| sp_spending_limit := spending_limit cap; sp_period_ledgers := period_ledgers cap |}.

(** A rule OpenZeppelin and the policies accept. *)
Definition rule_accepted (e : Env) (r : CompiledRule) : Prop :=
  name_ok (cr_name r) ∧ signers_ok (cr_signers r) ∧ cr_signers r ≠ [] ∧
  (∀ p, head (cr_install r) = Some p → installs (perch_interpreter e) (install_into_val p)) ∧
  (∀ c, head (cr_cap r) = Some c → installs (perch_spending_limit e) (cap_val c)).

Definition compiled_ok (e : Env) (c : CompiledDoc) : Prop :=
  Forall (rule_accepted e) (cd_rules c) ∧
  NoDup ((λ r, (cr_name r, scope_context e (cr_scope r))) <$> cd_rules c) ∧
  (∀ r, head (cd_recovery c) = Some r →
     name_ok "recovery"%string ∧ signers_ok [] ∧
     installs (cf_controller r) (hash_into_val (cf_config_hash r))) ∧
  perch_interpreter e ≠ perch_spending_limit e ∧ 2 ≤ MAX_POLICIES.

(** ** The desired rules *)

Lemma document_rule_fields e r :
  ir_id (document_rule e r).1 = 0%N ∧ ir_recovery (document_rule e r).1 = false ∧
  ir_name (document_rule e r).1 = cr_name r ∧
  ir_context_type (document_rule e r).1 = scope_context e (cr_scope r) ∧
  ir_valid_until (document_rule e r).1 = cr_valid_until r ∧
  ir_signers (document_rule e r).1 = cr_signers r.
Proof.
  unfold document_rule. by destruct (cr_install r), (cr_cap r), (cr_scope r).
Qed.

Lemma expired_not_past e v : expired e v = false → not_past e v.
Proof. destruct v; simpl; [|done]. by intros ?%N.ltb_ge. Qed.

Lemma document_rule_ok e c r :
  compiled_ok e c → r ∈ cd_rules c → expired e (cr_valid_until r) = false →
  wanted_ok e (document_rule e r).1 (document_rule e r).2.
Proof.
  intros (Hr & _ & _ & Hne & Hmax) Hin Hex. rewrite Forall_forall in Hr.
  destruct (Hr r Hin) as (Hname & Hs & Hsn & Hi & Hc).
  unfold wanted_ok, record_ok. destruct (document_rule_fields e r) as (_ & -> & -> & _ & -> & ->).
  split_and!; try done; [..|by apply expired_not_past| |by left|];
    unfold document_rule; destruct (cr_install r) as [|p ?], (cr_cap r) as [|cp ?]; simpl;
    try lia; repeat constructor; try set_solver; eauto.
Qed.

Lemma recovery_rule_ok e c r :
  compiled_ok e c → head (cd_recovery c) = Some r →
  wanted_ok e (recovery_rule e r).1 (recovery_rule e r).2.
Proof.
  intros (_ & _ & Hrec & _ & Hmax) Hr. destruct (Hrec r Hr) as (Hname & Hs & Hi).
  unfold wanted_ok, record_ok. simpl. split_and!; try done; [..|lia|by right|].
  - repeat constructor. set_solver.
  - by repeat constructor.
Qed.

(** The desired list with its parameters, pairwise. *)
Definition desired_pairs (e : Env) (c : CompiledDoc) : list (InstalledRule * list Val) :=
  filter (λ rp, expired e (ir_valid_until rp.1) = false) (document_rule e <$> cd_rules c) ++
  match cd_recovery c with recovery :: _ => [recovery_rule e recovery] | [] => [] end.

Lemma desired_unfold e c : desired e c = ((desired_pairs e c).*1, (desired_pairs e c).*2).
Proof. done. Qed.

Lemma desired_pairs_ok e c :
  compiled_ok e c → Forall (λ rp, wanted_ok e rp.1 rp.2) (desired_pairs e c).
Proof.
  intros Hc. apply Forall_app. split.
  - apply Forall_forall. intros rp [Hex Hin]%list_elem_of_filter.
    apply list_elem_of_fmap in Hin as (r & -> & Hin). eapply document_rule_ok; [done..|].
    by destruct (document_rule_fields e r) as (_ & _ & _ & _ & <- & _).
  - destruct (cd_recovery c) as [|r ?] eqn:Hr; [constructor|]. constructor; [|constructor].
    eapply recovery_rule_ok; [done|]. by rewrite Hr.
Qed.

Lemma desired_wanted e c :
  compiled_ok e c → Forall2 (wanted_ok e) (desired e c).1 (desired e c).2.
Proof.
  intros Hc. rewrite desired_unfold. simpl. pose proof (desired_pairs_ok e c Hc) as Hp.
  induction Hp; simpl; constructor; auto.
Qed.

Lemma document_slot e r :
  slot (document_rule e r).1 = (false, cr_name r, scope_context e (cr_scope r)).
Proof.
  unfold slot. by destruct (document_rule_fields e r) as (_ & -> & -> & -> & _).
Qed.

Lemma desired_slots e c : compiled_ok e c → NoDup (slot <$> (desired e c).1).
Proof.
  intros (_ & Hnd & _). rewrite desired_unfold. cbn [fst]. rewrite <- list_fmap_compose.
  unfold desired_pairs. rewrite fmap_app. apply NoDup_app. split_and!.
  - eapply sublist_NoDup; [|apply fmap_sublist, sublist_filter].
    rewrite <- list_fmap_compose.
    rewrite (list_fmap_ext _ (λ r, (λ ns, (false, ns.1, ns.2)) (cr_name r, scope_context e (cr_scope r)))).
    + rewrite (list_fmap_compose (λ r, (cr_name r, scope_context e (cr_scope r)))
        (λ ns, (false, ns.1, ns.2))).
      apply NoDup_fmap_2; [|done]. intros [] [] [= -> ->]. done.
    + intros i r _. apply document_slot.
  - intros s Hs Hs'. apply list_elem_of_fmap in Hs as (rp & -> & [_ Hin]%list_elem_of_filter).
    apply list_elem_of_fmap in Hin as (r & -> & _). simpl in Hs'. rewrite document_slot in Hs'.
    destruct (cd_recovery c) as [|q ?]; simpl in Hs'; [by apply elem_of_nil in Hs'|].
    by apply list_elem_of_singleton in Hs'.
  - destruct (cd_recovery c) as [|q ?]; simpl; [constructor|]. repeat constructor. set_solver.
Qed.

(** The rule that administers the account [self]. *)
Definition administers (self : Address) (d : InstalledRule) : Prop :=
  ir_context_type d = ContextRuleType_CallContract self ∧ ir_valid_until d = None ∧
  ir_signers d ≠ [] ∧ ir_policies d = [].

Lemma desired_admin e c :
  admin_survives (cd_rules c) = true →
  ∃ d, d ∈ (desired e c).1 ∧ administers (current_contract_address e) d.
Proof.
  unfold admin_survives. rewrite existsb_exists. intros (r & Hin & Hr).
  rewrite !andb_true_iff in Hr. destruct Hr as ((((Hsc & Hu) & Hs) & Hi) & Hc).
  exists (document_rule e r).1. destruct (document_rule_fields e r) as (_ & _ & _ & Ht & Hv & Hsg).
  unfold administers. rewrite Ht, Hv, Hsg. rewrite desired_unfold. simpl. split_and!.
  - apply list_elem_of_fmap. exists (document_rule e r). split; [done|].
    apply elem_of_app. left. apply list_elem_of_filter. split.
    + rewrite Hv. by destruct (cr_valid_until r).
    + apply list_elem_of_fmap. exists r. split; [done|]. by apply list_elem_of_In.
  - by destruct (cr_scope r).
  - by destruct (cr_valid_until r).
  - by destruct (cr_signers r).
  - unfold document_rule. destruct (cr_install r); [|done]. by destruct (cr_cap r).
Qed.

(** ** The records *)

Definition records_of (w : AWorld) : list InstalledRule := default [] (pvalue Pinstalled_rules tt w).

(** The records are true of the rules in force, and the recovery items of the
    records. *)
Definition recorded (w : AWorld) : Prop :=
  installed (rules_of (rule_store w)) (records_of w) ∧ Forall record_ok (records_of w) ∧
  NoDup (slot <$> records_of w) ∧
  ivalue Irecovery_rule w = ir_id <$> find_first ir_recovery (records_of w).

Definition admin_in_force (self : Address) (w : AWorld) : Prop :=
  ∃ id o, rules_of (rule_store w) !! id = Some o ∧
    oz_context_type o = ContextRuleType_CallContract self ∧ oz_valid_until o = None ∧
    oz_signers o ≠ [] ∧ oz_policies o = ∅.

Lemma administers_in_force self w r :
  installed (rules_of (rule_store w)) (records_of w) → r ∈ records_of w → administers self r →
  admin_in_force self w.
Proof.
  intros (_ & Hr & _) Hin (Hc & Hv & Hs & Hp).
  destruct (Hr r Hin) as (o & Ho & Hct & _ & Hu & Hsg & Hpol).
  exists (ir_id r), o. split_and!; try congruence.
  unfold policy_map in Hpol. rewrite Hp in Hpol. simpl in Hpol. by apply fmap_empty_inv in Hpol.
Qed.

Lemma iupdate_Ok f `{EqDecision (ival f)} v u w w' :
  iupdate f v w = Ok (u, w') → ivalue f w' = v.
Proof.
  unfold iupdate. intros (now & ? & [-> ->]%iget_Ok & E)%abind_Ok.
  case_bool_decide as Hv; [by apply ret_Ok in E as [_ ->]|].
  destruct v; [by apply iset_Ok in E|]. injection E as _ <-. unfold ivalue. cbn [storage].
  apply iput_eq.
Qed.

Lemma iupdate_total f `{EqDecision (ival f)} v w : ∃ w', iupdate f v w = Ok (tt, w').
Proof.
  unfold iupdate, mbind, A_bind, iget. destruct (bool_decide _); [by eexists|].
  destruct v; by eexists.
Qed.

Lemma pextend_total e f k t n w :
  is_Some (pvalue f k w) → ∃ w', pextend e f k t n w = Ok (tt, w').
Proof.
  intros Hp. unfold pextend, mbind, A_bind, persistent_extend_ttl.
  unfold pvalue, persistent_get in Hp. rewrite fmap_is_Some in Hp. destruct Hp as [x ->].
  by eexists.
Qed.

Lemma pset_total e f k v w :
  ∃ w', pset e f k v w = Ok (tt, w') ∧ pvalue f k w' = Some v.
Proof.
  eexists. split; [done|]. unfold pvalue. cbn [storage]. rewrite pput_eq, persistent_get_set.
  by destruct (decide (k = k)).
Qed.

Lemma pset_extend_total e f k v w :
  ∃ w', (pset e f k v;; pextend_max e f k) w = Ok (tt, w').
Proof.
  destruct (pset_total e f k v w) as (w1 & E1 & Hv).
  destruct (pextend_total e f k (account_ttl e) (account_ttl e) w1) as (w2 & E2); [by eexists|].
  exists w2. apply abind_Ok. eauto.
Qed.

(** Writing the records when they change leaves them stored. *)
Lemma write_records_Ok e next u w w' :
  (if bool_decide (next = records_of w) then mret tt else
   pset e Pinstalled_rules tt next;; pextend_max e Pinstalled_rules tt) w = Ok (u, w') →
  records_of w' = next ∧ ∀ f, f ∉ [FP Pinstalled_rules] → same f w w'.
Proof.
  case_bool_decide as Hn.
  - intros [_ ->]%ret_Ok. split; [done|]. intros. apply same_refl.
  - intros E. split.
    + apply abind_Ok in E as ([] & w1 & E1 & E2).
      apply (pset_value _ Pinstalled_rules _ _ _ _ _ tt) in E1. case_decide; [|done].
      pose proof (frame_same [] _ _ _ _ (FP Pinstalled_rules) (touches_pextend _ _ _ _ _ _) E2
        ltac:(set_solver) tt) as Hs.
      unfold records_of. rewrite Hs, E1. done.
    + intros f Hf. eapply (frame_same [FP Pinstalled_rules]); [|exact E|done].
      unfold pextend_max. touch.
Qed.

(** The rules of a document can be installed. *)
Definition installable (e : Env) (c : CompiledDoc) (w : AWorld) : Prop :=
  compiled_ok e c ∧ total_weight (desired e c).1 ≤ ids_left (rule_store w).

Lemma recorded_reconcilable e c w :
  recorded w → installable e c w →
  reconcilable e (rule_store w) (records_of w) (desired e c).1 (desired e c).2.
Proof.
  intros (Hi & Hr & Hs & _) [Hc Hw]. split_and!; auto using desired_slots, desired_wanted.
Qed.

(** [apply_rules] never fails on a document that fits, and installs it. *)
Lemma apply_rules_total e c mode w :
  recorded w → installable e c w →
  ∃ delta w', apply_rules e c mode w = Ok (delta, w').
Proof.
  intros Hw Hf. destruct (reconcile_run e _ _ _ _ mode (recorded_reconcilable e c w Hw Hf))
    as (next & sum & oz & E & _).
  unfold apply_rules. rewrite desired_unfold in *. exists sum.
  assert (∃ w1, (if bool_decide (next = records_of w) then mret tt else
    pset e Pinstalled_rules tt next;; pextend_max e Pinstalled_rules tt)
      {| storage := storage w; rule_store := oz; outside := outside w; events := events w;
         new_wasm := new_wasm w |} = Ok (tt, w1)) as [w1 E1].
  { case_bool_decide; [by eexists|]. apply pset_extend_total. }
  destruct (iupdate_total Irecovery_rule (ir_id <$> find_first ir_recovery next) w1) as [w2 E2].
  destruct (iupdate_total Irecovery_controller (cf_controller <$> head (cd_recovery c)) w2)
    as [w3 E3].
  exists w3. apply abind_Ok. eexists _, w. split; [done|].
  apply abind_Ok. exists (next, sum, oz), w. split.
  { apply alift_Ok. split; [|done]. apply or_panic_Ok. exact E. }
  apply abind_Ok. eexists _, _. split; [done|].
  apply abind_Ok. exists tt, w1. split; [exact E1|].
  apply abind_Ok. exists tt, w2. split; [done|]. apply abind_Ok. by exists tt, w3.
Qed.

Lemma with_id_record_ok e wanted params next :
  Forall2 (wanted_ok e) wanted params → Forall2 (λ d r, r = with_id d (ir_id r)) wanted next →
  Forall record_ok next ∧ slot <$> next = slot <$> wanted.
Proof.
  intros Hw Hn. revert params Hw. induction Hn as [|d r wanted next Hr Hn IH]; intros params Hw.
  - split; [constructor|done].
  - inversion Hw as [|? p ? ps Hd Hds]; subst. destruct (IH _ Hds) as [IH1 IH2].
    csimpl. rewrite IH2, Hr. split; [|done]. constructor; [|done]. destruct Hd as [[? ?] _].
    by split.
Qed.

Lemma apply_rules_Ok e c mode delta w w' :
  apply_rules e c mode w = Ok (delta, w') → recorded w → installable e c w →
  recorded w' ∧ Forall2 (λ d r, r = with_id d (ir_id r)) (desired e c).1 (records_of w') ∧
  ivalue Irecovery_controller w' = cf_controller <$> head (cd_recovery c).
Proof.
  intros E Hw Hf. pose proof (recorded_reconcilable e c w Hw Hf) as Hrec.
  destruct (reconcile_run e _ _ _ _ mode Hrec) as (next & sum & oz & Er & Hn & Hi & _).
  unfold apply_rules in E. rewrite desired_unfold in *. cbn [fst snd] in *.
  apply abind_Ok in E as (rs & ? & [= <- <-] & E).
  change (default [] (persistent_get (pers (storage w) Pinstalled_rules) ())) with (records_of w) in E.
  apply abind_Ok in E as ([[next' sum'] oz'] & ? & [Er'%or_panic_Ok ->]%alift_Ok & E).
  rewrite Er in Er'. injection Er' as <- <- <-.
  apply abind_Ok in E as ([] & w0 & [= <-] & E). apply abind_Ok in E as ([] & w1 & E1 & E).
  apply (write_records_Ok e next tt (Build_AWorld _ _ _ _ _)) in E1 as [Hr1 F1].
  apply abind_Ok in E as ([] & w2 & E2 & E). apply abind_Ok in E as ([] & w3 & E3 & [-> ->]%ret_Ok).
  pose proof (frame_same _ _ _ _ _ (FP Pinstalled_rules) (iupdate_frame _ _) E2 ltac:(set_solver) tt) as P2.
  pose proof (frame_same _ _ _ _ _ (FP Pinstalled_rules) (iupdate_frame _ _) E3 ltac:(set_solver) tt) as P3.
  pose proof (frame_same _ _ _ _ _ FRules (iupdate_frame _ _) E2 ltac:(set_solver)) as Q2.
  pose proof (frame_same _ _ _ _ _ FRules (iupdate_frame _ _) E3 ltac:(set_solver)) as Q3.
  pose proof (frame_same _ _ _ _ _ (FI Irecovery_rule) (iupdate_frame _ _) E3 ltac:(set_solver)) as R3.
  pose proof (F1 FRules ltac:(set_solver)) as Q1. simpl in Q1, Q2, Q3, R3.
  assert (records_of w3 = next) as Hr3 by (unfold records_of in *; by rewrite P3, P2).
  apply iupdate_Ok in E2, E3. destruct Hrec as (_ & _ & _ & Hnd & Hwt & _).
  destruct (with_id_record_ok e _ _ _ Hwt Hn) as [Hok Hsl].
  unfold recorded. rewrite Hr3, Q3, Q2, Q1, R3, E2, Hsl. by split_and!.
Qed.

(** ** Applying and keeping the records *)

Lemma same_records w w' : same (FP Pinstalled_rules) w w' → records_of w' = records_of w.
Proof. unfold records_of. intros Hs. by rewrite (Hs tt). Qed.

Lemma recorded_same w w' :
  (∀ f, f ∈ [FRules; FP Pinstalled_rules; FI Irecovery_rule] → same f w w') →
  recorded w → recorded w'.
Proof.
  intros Hs. pose proof (Hs FRules ltac:(set_solver)) as H1. simpl in H1.
  pose proof (same_records _ _ (Hs (FP Pinstalled_rules) ltac:(set_solver))) as H2.
  pose proof (Hs (FI Irecovery_rule) ltac:(set_solver)) as H3. simpl in H3.
  unfold recorded. by rewrite H1, H2, H3.
Qed.

Lemma in_force_same self w w' : same FRules w w' → admin_in_force self w → admin_in_force self w'.
Proof. simpl. unfold admin_in_force. by intros ->. Qed.

Lemma installable_same e c w w' : same FRules w w' → installable e c w → installable e c w'.
Proof. simpl. unfold installable. by intros ->. Qed.

(** [w] holds exactly the document's rules. *)
Definition holds_document (e : Env) (c : CompiledDoc) (w : AWorld) : Prop :=
  recorded w ∧ Forall2 (λ d r, r = with_id d (ir_id r)) (desired e c).1 (records_of w) ∧
  ivalue Irecovery_controller w = cf_controller <$> head (cd_recovery c).

Lemma holds_same e c w w' :
  (∀ f, f ∈ [FRules; FP Pinstalled_rules; FI Irecovery_rule; FI Irecovery_controller] →
     same f w w') → holds_document e c w → holds_document e c w'.
Proof.
  intros Hs (Hr & Hf & Hc). split_and!.
  - eapply recorded_same; [|done]. intros f Hin. apply Hs. set_solver.
  - by rewrite (same_records w w') by (apply Hs; set_solver).
  - pose proof (Hs (FI Irecovery_controller) ltac:(set_solver)) as Hc'. simpl in Hc'. congruence.
Qed.

Lemma apply_holds e j av er mode h w w' :
  apply e j av er mode w = Ok (h, w') → recorded w →
  (∀ c, call_compile_doc (outside w) (perch_doc_compiler e) j = Ok c → installable e c w) →
  ∃ c, call_compile_doc (outside w) (perch_doc_compiler e) j = Ok c ∧
    h = cd_doc_hash c ∧ admin_survives (cd_rules c) = true ∧ holds_document e c w'.
Proof.
  intros (c & zk & ins & out & d & w1 & w2 & w3 & w4 & w5 & w6 & w7 & Hc & -> & Hk & [_ F1] &
    [E2 _] & [_ F3] & [_ F4] & [_ F5] & [_ F6] & [_ F7] & [= <-])%apply_steps Hr Hfit.
  apply check_document_Ok in Hk as (_ & Hadm & _). exists c. split_and!; [done..|].
  eapply apply_rules_Ok in E2; [|eapply recorded_same; [|done]|eapply installable_same; [|by apply Hfit]];
    [|intros f Hf; apply F1; set_solver|apply F1; set_solver].
  eapply holds_same; [|exact E2]. intros f Hf.
  apply (same_trans _ _ w3); [apply F3; set_solver|].
  apply (same_trans _ _ w4); [apply F4; set_solver|].
  apply (same_trans _ _ w5); [apply F5; set_solver|].
  apply (same_trans _ _ w6); [apply F6; set_solver|].
  apply (same_trans _ _ w7); [apply F7; set_solver|].
  destruct f; try done. exfalso. set_solver.
Qed.

Lemma holds_admin e c w :
  admin_survives (cd_rules c) = true → holds_document e c w →
  admin_in_force (current_contract_address e) w.
Proof.
  intros Ha ((Hi & _) & Hf & _). destruct (desired_admin e c Ha) as (d & Hd & Hadm).
  apply list_elem_of_lookup in Hd as [i Hd].
  destruct (Forall2_lookup_l _ _ _ _ _ Hf Hd) as (r & Hr & E).
  eapply (administers_in_force _ _ r); [done|by eapply list_elem_of_lookup_2|].
  rewrite E. destruct Hadm as (? & ? & ? & ?). by split_and!.
Qed.

(** What is assumed of each step: it runs on this account, and the compiler
    returns documents OpenZeppelin accepts while ids are left. *)
Definition well_compiled (self : Address) (e : Env) (op : account_op) (w : AWorld) : Prop :=
  current_contract_address e = self ∧
  match op with
  | Do_apply j _ _ _ =>
      ∀ c, call_compile_doc (outside w) (perch_doc_compiler e) j = Ok c → installable e c w
  | _ => True
  end.

Lemma astep_admin self e op w w' :
  astep e op w w' → well_compiled self e op w → recorded w ∧ admin_in_force self w →
  recorded w' ∧ admin_in_force self w'.
Proof.
  intros Hs [Hself Hfit] [Hr Ha]. destruct op as [j av er mode| | | | | | | | |].
  { destruct Hs as [h Hs].
    destruct (apply_holds _ _ _ _ _ _ _ _ Hs Hr Hfit) as (c & _ & _ & Hadm & Hh).
    split; [apply Hh|]. rewrite <- Hself. by eapply holds_admin. }
  all: assert (Hsame : ∀ f, f ∈ [FRules; FP Pinstalled_rules; FI Irecovery_rule] → same f w w')
    by (intros f Hf; eapply astep_same; [exact Hs|]; simpl; set_solver).
  all: split; [by eapply recorded_same|].
  all: eapply in_force_same; [apply Hsame; set_solver|done].
Qed.

(** The constructor records its one rule. *)
Lemma install_admin_records e signers u w w' :
  install_admin e signers w = Ok (u, w') →
  ∃ id oz w1, add_context_rule e (ContextRuleType_CallContract (current_contract_address e)) "admin"
      None signers ∅ (rule_store w) = Some (id, oz) ∧
    rule_store w1 = oz ∧ ivalue Irecovery_rule w1 = ivalue Irecovery_rule w ∧
    (∀ f, same f w1 w') ∧ records_of w' = [admin_rule e id signers].
Proof.
  intros E. unfold install_admin in E.
  apply abind_Ok in E as ([id oz] & ? & [Ha%or_panic_Ok ->]%alift_Ok & E).
  apply abind_Ok in E as ([] & w0 & [= <-] & E). apply abind_Ok in E as ([] & w1 & E1 & E2).
  assert (Hs2 : ∀ f, same f w1 w').
  { intros f. eapply (frame_same []); [apply touches_pextend|exact E2|set_solver]. }
  exists id, oz, w1. split; [done|].
  assert (records_of w' = [admin_rule e id signers]) as Hrs.
  { rewrite (same_records w1 w') by apply Hs2. unfold records_of.
    apply (pset_value _ Pinstalled_rules _ _ _ _ _ tt) in E1. case_decide; [|done]. by rewrite E1. }
  injection E1 as <-. done.
Qed.

(** The account after its constructor. *)
Lemma install_admin_Ok {OAL : OzAccountLaws} e signers u w w' :
  install_admin e signers w = Ok (u, w') →
  rules_of (rule_store w) = ∅ → ivalue Irecovery_rule w = None →
  name_ok "admin"%string → signers_ok signers → signers ≠ [] →
  1 + length signers ≤ ids_left (rule_store w) →
  recorded w' ∧ admin_in_force (current_contract_address e) w'.
Proof.
  intros E Hempty Hrec Hname Hs Hne Hids.
  destruct (install_admin_records _ _ _ _ _ E) as (id & oz & w1 & Ha & Hoz & HI1 & Hs2 & Hrs).
  rewrite add_context_rule_quiet in Ha.
  destruct (add_rule_ok e (rule_store w) (ContextRuleType_CallContract (current_contract_address e))
    "admin"%string None signers ∅) as (id' & st' & Ha' & _ & Hst & _); [done..| | | | |].
  { rewrite map_size_empty. lia. }
  { by left. }
  { apply map_Forall_empty. }
  { rewrite map_size_empty. lia. }
  rewrite Ha in Ha'. injection Ha' as <- <-. rewrite Hempty, insert_empty in Hst.
  pose proof (Hs2 FRules) as HR. simpl in HR. rewrite Hoz in HR.
  pose proof (Hs2 (FI Irecovery_rule)) as HI. simpl in HI. rewrite HI1, Hrec in HI.
  assert (installed (rules_of (rule_store w')) (records_of w')) as Hi.
  { rewrite HR, Hst, Hrs. split_and!.
    - repeat constructor. set_solver.
    - intros r ->%list_elem_of_singleton. eexists. rewrite lookup_singleton_eq.
      split; [done|]. unfold represents, policy_map. simpl. by rewrite fmap_empty.
    - intros i [o Ho]. apply lookup_singleton_Some in Ho as [<- _]. set_solver. }
  split.
  - split; [done|]. rewrite HI, Hrs. split_and!; [| |done].
    + constructor; [|constructor]. split; [constructor|done].
    + repeat constructor. set_solver.
  - eapply (administers_in_force _ _ (admin_rule e id signers)); [done|rewrite Hrs; set_solver|].
    by split_and!.
Qed.

(** ** Success *)

(** [c] leaves the rest of the chain alone. *)
Definition stays {T} (c : A T) : Prop := ∀ w a w', c w = Ok (a, w') → outside w' = outside w.

Lemma stays_bind {T U} (c : A T) (k : T → A U) :
  stays c → (∀ a, stays (k a)) → stays (x ← c; k x).
Proof.
  intros Hc Hk w b w' E. apply abind_Ok in E as (a & w1 & E1 & E2).
  by rewrite (Hk _ _ _ _ E2), (Hc _ _ _ E1).
Qed.
Lemma stays_reads {T} (c : A T) : reads c → stays c.
Proof. by intros Hc w a w' ->%Hc. Qed.
Lemma stays_iupdate f `{EqDecision (ival f)} v : stays (iupdate f v).
Proof.
  apply stays_bind; [apply stays_reads, reads_iget|]. intros now.
  destruct (bool_decide _); [apply stays_reads, reads_ret|].
  by destruct v; intros w a w' [= _ <-].
Qed.
Lemma stays_pset e f k v : stays (pset e f k v).
Proof. by intros w a w' [= _ <-]. Qed.
Lemma stays_pextend e f k t n : stays (pextend e f k t n).
Proof.
  intros w a w' E. unfold pextend in E. apply abind_Ok in E as (m & ? & [_ ->]%alift_Ok & [= _ <-]).
  done.
Qed.

Lemma apply_rules_stays e c mode : stays (apply_rules e c mode).
Proof.
  unfold apply_rules. apply stays_bind; [by intros w a w' [= _ <-]|]. intros rs.
  rewrite desired_unfold. apply stays_bind; [by intros w a w' [_ ->]%alift_Ok|]. intros [[n s] oz].
  apply stays_bind; [by intros w a w' [= _ <-]|]. intros [].
  apply stays_bind.
  { destruct (bool_decide _); [apply stays_reads, reads_ret|].
    apply stays_bind; [apply stays_pset|]. intros []. apply stays_pextend. }
  intros []. apply stays_bind; [apply stays_iupdate|]. intros [].
  apply stays_bind; [apply stays_iupdate|]. intros []. apply stays_reads, reads_ret.
Qed.

Definition pool_accepts (e : Env) (ins : option CompiledZkFactor) (s : AState) : Prop :=
  ∀ leaf, ins = Some leaf →
    is_Some (call_rcv_insert s (zf_pool leaf) (current_contract_address e)
               (zf_enrollment_id leaf) (zf_commitment leaf)).

Lemma insert_leaf_iff e ins w :
  (∃ w', insert_leaf e ins w = Ok (tt, w')) ↔ pool_accepts e ins (outside w).
Proof.
  unfold pool_accepts, insert_leaf. destruct ins as [leaf|].
  - split.
    + intros (w' & ([] & w1 & E1 & _)%abind_Ok) leaf' [= <-]. unfold call in E1.
      apply abind_Ok in E1 as (r & ? & [Hr%or_panic_Ok _]%alift_Ok & _). eauto.
    + intros Ha. destruct (Ha leaf eq_refl) as [[[] s] Hs].
      destruct (pset_extend_total e Penrolled_ids (zf_enrollment_id leaf) true
        {| storage := storage w; rule_store := rule_store w; outside := s; events := events w;
           new_wasm := new_wasm w |}) as [w' E].
      exists w'. apply abind_Ok. eexists tt, _. split; [|exact E].
      unfold call. apply abind_Ok. exists (tt, s), w. split; [|done].
      apply alift_Ok. split; [|done]. by apply or_panic_Ok.
  - split; [by intros _ leaf|]. intros _. by eexists.
Qed.

Lemma for_each_total {X} (l : list X) body :
  (∀ x w, ∃ w', body x w = Ok (tt, w')) → ∀ w, ∃ w', for_each l body w = Ok (tt, w').
Proof.
  intros Hb. induction l as [|x l IH]; intros w; simpl; [by eexists|].
  destruct (Hb x w) as [w1 E1]. destruct (IH w1) as [w2 E2]. exists w2. apply abind_Ok. eauto.
Qed.

Lemma drop_pending_total w : ∃ w', drop_pending_upgrade w = Ok (tt, w').
Proof.
  unfold drop_pending_upgrade, mbind, A_bind, iget.
  destruct (inst (storage w) Ipending_upgrade); by eexists.
Qed.

Definition fingerprintable (outcome : SyncOutcome) : Prop :=
  match outcome with
  | Sync_Completed c => Forall (λ k, ∃ f, credential_fingerprint k = Ok f) (cp_replaced c)
  | _ => True
  end.

Lemma completed_iff e outcome target w :
  (∃ w', match outcome with
         | Sync_Completed c => complete_recovery e (cp_replaced c) target
         | _ => mret tt
         end w = Ok (tt, w')) ↔ fingerprintable outcome.
Proof.
  destruct outcome as [| | | |c]; cbn [fingerprintable]; try (split; [done|by eexists]). split.
  - intros (w' & (fs & Hf & _)%complete_recovery_Ok). apply Forall_forall. intros k Hk.
    apply list_elem_of_lookup in Hk as [i Hk].
    destruct (Forall2_lookup_l _ _ _ _ _ Hf Hk) as (f & _ & ?). eauto.
  - intros [fs Hfs]%Forall_exists_Forall2_l.
    unfold complete_recovery.
    destruct (for_each_total
      (revocations fs (default [] (pvalue Papplied_fingerprints tt w)) target)
      (λ x, pset e Prevoked x true;; pextend_max e Prevoked x;; publish (CredentialRevoked x)))
      with w as [w1 E1].
    { intros x v. destruct (pset_total e Prevoked x true v) as (v1 & E1 & Hv).
      destruct (pextend_total e Prevoked x (account_ttl e) (account_ttl e) v1) as [v2 E2];
        [by eexists|].
      eexists. apply abind_Ok. eexists tt, v1. split; [done|]. apply abind_Ok. eexists tt, v2.
      by split. }
    destruct (drop_pending_total {| storage := iput Igate None (storage w1);
      rule_store := rule_store w1; outside := outside w1; events := events w1;
      new_wasm := new_wasm w1 |}) as [w2 E2].
    exists w2. apply abind_Ok. exists fs, w. split.
    { apply alift_Ok. split; [|done]. apply mapM_result_Ok. eapply Forall2_impl; [exact Hfs|].
      intros k f Hk. simpl. by apply map_err_Ok. }
    apply abind_Ok. eexists _, w. split; [done|]. apply abind_Ok. exists tt, w1. split; [done|].
    apply abind_Ok. by eexists tt, _.
Qed.

Lemma store_document_total e c w : ∃ w', store_document e c w = Ok (tt, w').
Proof.
  unfold store_document, mbind at 1, A_bind at 1. cbn [iget].
  destruct (bool_decide _); [by eexists|].
  set (w1 := {| storage := iput Iapplied_doc (Some (cd_doc_hash c)) (storage w);
    rule_store := rule_store w; outside := outside w; events := events w; new_wasm := new_wasm w |}).
  destruct (pset_total e Papplied_doc_bytes tt (cd_canonical c) w1) as (w2 & E2 & V2).
  destruct (pset_total e Papplied_fingerprints tt (cd_fingerprints c) w2) as (w3 & E3 & V3).
  destruct (pextend_total e Papplied_doc_bytes tt (account_ttl e) (account_ttl e) w3) as [w4 E4].
  { injection E3 as <-. unfold pvalue. cbn [storage]. rewrite pput_ne by done.
    unfold pvalue in V2. rewrite V2. by eexists. }
  destruct (pextend_total e Papplied_fingerprints tt (account_ttl e) (account_ttl e) w4) as [w5 E5].
  { pose proof (frame_same [] _ _ _ _ (FP Papplied_fingerprints) (touches_pextend _ _ _ _ _ _) E4
      ltac:(set_solver) tt) as Hs. rewrite Hs, V3. by eexists. }
  exists w5. apply abind_Ok. exists tt, w1. split; [done|]. apply abind_Ok. exists tt, w2.
  split; [done|]. apply abind_Ok. exists tt, w3. split; [done|]. apply abind_Ok. by exists tt, w4.
Qed.

Lemma advance_revision_total w :
  (revision_of w < U64_MAX)%N → ∃ n w', advance_revision w = Ok (n, w').
Proof.
  intros Hr. unfold advance_revision. eexists (revision_of w + 1)%N, _.
  apply abind_Ok. eexists _, w. split; [by apply revision_Ok|].
  apply abind_Ok. eexists _, w. split; [|done]. apply alift_Ok. split; [|done].
  apply u64_add_Ok. split; [done|lia].
Qed.
(** ** What [apply] asks for, said without its code *)

(** An administrator rule: over the account itself, unexpiring, with signers
    and neither a program nor a cap. *)
Definition keeps_admin (rules : list CompiledRule) : Prop :=
  ∃ r, r ∈ rules ∧ cr_scope r = RuleScope_SelfAdmin ∧ cr_valid_until r = None ∧
    cr_signers r ≠ [] ∧ cr_install r = [] ∧ cr_cap r = [].

Lemma admin_survives_iff rules : admin_survives rules = true ↔ keeps_admin rules.
Proof.
  unfold admin_survives, keeps_admin. rewrite existsb_exists. split.
  - intros (r & Hin & Hr). rewrite !andb_true_iff in Hr. destruct Hr as ((((? & ?) & ?) & ?) & ?).
    exists r. rewrite list_elem_of_In.
    destruct (cr_scope r), (cr_valid_until r), (cr_signers r), (cr_install r), (cr_cap r); done.
  - intros (r & Hin & Hsc & Hv & Hs & Hi & Hc). exists r.
    rewrite <- list_elem_of_In, Hsc, Hv, Hi, Hc. by destruct (cr_signers r).
Qed.

(** The ZK factor a document enrolls. *)
Definition doc_zk (c : CompiledDoc) : option CompiledZkFactor :=
  r ← head (cd_recovery c); config_zk r.

(** The factor [z] is new to the account: neither the factor in use nor under
    an enrollment id of this account, present or past. *)
Definition fresh_zk (z : CompiledZkFactor) (w : AWorld) : Prop :=
  (∀ z0, ivalue Icurrent_zk w = Some z0 → zf_enrollment_id z0 ≠ zf_enrollment_id z) ∧
  pvalue Penrolled_ids (zf_enrollment_id z) w = None.

Record acceptable (c : CompiledDoc) (w : AWorld) : Prop := {
  ac_admin : keeps_admin (cd_rules c);
  ac_revoked : ∀ f, f ∈ cd_fingerprints c → pvalue Prevoked f w = None;
  ac_zk : ∀ z, doc_zk c = Some z → ivalue Icurrent_zk w = Some z ∨ fresh_zk z w;
}.

Definition asks (e : Env) (c : CompiledDoc) (av : N) (controller : Address)
    (s : AState) (outcome : SyncOutcome) (s' : AState) : Prop :=
  call_rcv_sync s controller (current_contract_address e) (cd_doc_hash c) (cd_recovery c) av =
    Ok (outcome, s').

Definition bump (outcome : SyncOutcome) : N := if bumps_generation outcome then 1 else 0.

(** The enrolled controller is asked first, then the document's if it is
    another one; the generation has room for what they answer. *)
Definition answered (e : Env) (c : CompiledDoc) (av : N) (w : AWorld)
    (outcome : SyncOutcome) (s2 : AState) : Prop :=
  ∃ second s1,
    match ivalue Irecovery_controller w with
    | Some old => asks e c av old (outside w) outcome s1
    | None => outcome = Sync_Unchanged ∧ s1 = outside w
    end ∧
    match head (cd_recovery c) with
    | Some next =>
        if decide (ivalue Irecovery_controller w = Some (cf_controller next))
        then second = Sync_Unchanged ∧ s2 = s1
        else asks e c av (cf_controller next) s1 second s2
    | None => second = Sync_Unchanged ∧ s2 = s1
    end ∧
    (0 < bump outcome + bump second →
     generation_of w + (bump outcome + bump second) ≤ U64_MAX)%N.

Lemma phas_none f k w : pvalue f k w = None → phas f k w = Ok (false, w).
Proof.
  intros Hn. destruct (phas_value f k _ w w eq_refl) as (_ & _ & Ht). unfold phas.
  destruct (persistent_has (pers (storage w) f) k); [|done].
  destruct (Ht eq_refl) as [x Hx]. by rewrite Hn in Hx.
Qed.

Lemma any_revoked_none fs w :
  (∀ f, f ∈ fs → pvalue Prevoked f w = None) → any_revoked fs w = Ok (false, w).
Proof.
  induction fs as [|f fs IH]; intros Hf; [done|]. simpl. apply abind_Ok.
  exists false, w. split; [apply phas_none, Hf; set_solver|apply IH; set_solver].
Qed.

Lemma zk_allowed_iff old new w :
  zk_factor_transition_ok old new = true ∧
  (∀ leaf, leaf_to_insert old new = Some leaf →
     pvalue Penrolled_ids (zf_enrollment_id leaf) w = None) ↔
  ∀ z, new = Some z → old = Some z ∨
    (∀ z0, old = Some z0 → zf_enrollment_id z0 ≠ zf_enrollment_id z) ∧
    pvalue Penrolled_ids (zf_enrollment_id z) w = None.
Proof.
  unfold zk_factor_transition_ok, leaf_to_insert. destruct old as [o|], new as [n|]; simpl;
    [|naive_solver..].
  destruct (decide (o = n)) as [->|Hne].
  - rewrite !bool_decide_true by done. naive_solver.
  - rewrite (bool_decide_false (o = n)) by done.
    destruct (decide (zf_enrollment_id o = zf_enrollment_id n)).
    + rewrite bool_decide_true by done. simpl. naive_solver.
    + rewrite bool_decide_false by done. simpl. naive_solver.
Qed.

(** [check_document] accepts exactly the acceptable documents. *)
Lemma check_document_iff c w :
  (∃ zk ins, check_document c w = Ok ((zk, ins), w)) ↔ acceptable c w.
Proof.
  split.
  - intros (zk & ins & (_ & Ha & Hr & -> & Ht & -> & Hl)%check_document_Ok).
    split; [by apply admin_survives_iff|done|]. by apply zk_allowed_iff.
  - intros [Ha%admin_survives_iff Hr [Ht Hl]%zk_allowed_iff]. fold (doc_zk c) in *.
    exists (doc_zk c), (leaf_to_insert (ivalue Icurrent_zk w) (doc_zk c)).
    unfold check_document. apply abind_Ok. exists tt, w. rewrite Ha. split; [done|].
    apply abind_Ok. exists false, w. split; [by apply any_revoked_none|].
    apply abind_Ok. exists tt, w. split; [done|]. apply abind_Ok.
    exists (ivalue Icurrent_zk w), w. split; [done|]. fold (doc_zk c).
    apply abind_Ok. exists tt, w. rewrite Ht. split; [done|].
    apply abind_Ok. exists tt, w. split; [|done].
    destruct (leaf_to_insert _ _) as [leaf|]; [|done]. apply abind_Ok. exists false, w.
    split; [|done]. by apply phas_none, Hl.
Qed.

Lemma sync_asks e ctl c av outcome w w' :
  sync e ctl c av w = Ok (outcome, w') →
  asks e c av ctl (outside w) outcome (outside w') ∧
  generation_of w' = (generation_of w + bump outcome)%N ∧
  (bump outcome = 0 ∨ generation_of w' ≤ U64_MAX)%N.
Proof.
  unfold sync. intros (o & w1 & E1 & E)%abind_Ok. unfold call in E1.
  apply abind_Ok in E1 as ([o' s] & ? & [Hc%map_err_Ok ->]%alift_Ok & E1).
  apply abind_Ok in E1 as ([] & w0 & [= <-] & [-> ->]%ret_Ok).
  apply abind_Ok in E as ([] & w2 & E2 & [-> ->]%ret_Ok). unfold asks, bump. simpl in *.
  destruct (bumps_generation o').
  - unfold advance_generation in E2. apply abind_Ok in E2 as (g & ? & [-> ->]%generation_Ok & E2).
    apply abind_Ok in E2 as (g & ? & [[-> Hg]%u64_add_Ok ->]%alift_Ok & E2).
    injection E2 as <-. split_and!; [done..|]. right. exact Hg.
  - apply ret_Ok in E2 as [_ ->]. split_and!; [done| |by left]. by rewrite N.add_0_r.
Qed.

Lemma sync_total e ctl c av outcome w s' :
  asks e c av ctl (outside w) outcome s' →
  (0 < bump outcome → generation_of w + bump outcome ≤ U64_MAX)%N →
  ∃ w', sync e ctl c av w = Ok (outcome, w') ∧ outside w' = s' ∧
    generation_of w' = (generation_of w + bump outcome)%N.
Proof.
  intros Hs Hg. enough (∃ w', sync e ctl c av w = Ok (outcome, w')) as [w' E].
  { exists w'. destruct (sync_asks _ _ _ _ _ _ _ E) as (Hs' & Hg' & _). split_and!; [done|..|done].
    unfold asks in *. congruence. }
  unfold asks, bump, sync in *.
  set (w1 := {| storage := storage w; rule_store := rule_store w; outside := s';
    events := events w; new_wasm := new_wasm w |}).
  assert (∃ w', (if bumps_generation outcome then advance_generation else mret tt) w1 = Ok (tt, w'))
    as [w' Hw'].
  { destruct (bumps_generation outcome); [|by exists w1]. eexists. unfold advance_generation.
    apply abind_Ok. eexists _, w1. split; [by apply generation_Ok|].
    apply abind_Ok. eexists _, w1. split; [|done]. apply alift_Ok. split; [|done].
    apply u64_add_Ok. split; [done|]. by apply Hg. }
  exists w'. apply abind_Ok. exists outcome, w1. split.
  { unfold call. apply abind_Ok. exists (outcome, s'), w. split; [|done].
    apply alift_Ok. split; [|done]. by apply map_err_Ok. }
  apply abind_Ok. by exists tt, w'.
Qed.

(** The leaf [apply] inserts is the document's factor, when it is a new one. *)
Lemma pool_accepts_iff e c zk ins s w :
  check_document c w = Ok ((zk, ins), w) →
  pool_accepts e ins s ↔
  ∀ z, doc_zk c = Some z → ivalue Icurrent_zk w ≠ Some z →
    is_Some (call_rcv_insert s (zf_pool z) (current_contract_address e)
               (zf_enrollment_id z) (zf_commitment z)).
Proof.
  intros (_ & _ & _ & -> & [Hl _]%accepted_factor_has_its_leaf & -> & _)%check_document_Ok.
  fold (doc_zk c) in *. unfold pool_accepts. rewrite Hl.
  case_bool_decide as E.
  - split; [|done]. intros _ z Hz. by rewrite E, Hz.
  - split; intros Hp z Hz; [intros _; by apply Hp|apply Hp; [done|congruence]].
Qed.

(** [sync_controllers] succeeds exactly when the controllers answer. *)
Lemma sync_controllers_iff e c av outcome w s2 :
  (∃ w1, sync_controllers e c av w = Ok (outcome, w1) ∧ outside w1 = s2) ↔
  answered e c av w outcome s2.
Proof.
  unfold answered. split.
  - intros (w1 & (old & ? & [= <- <-] & E)%abind_Ok & <-).
    change (inst (storage w) Irecovery_controller) with (ivalue Irecovery_controller w) in E.
    apply abind_Ok in E as (o & v & E1 & E). apply abind_Ok in E as ([] & v' & E2 & [-> ->]%ret_Ok).
    assert (∃ second, match head (cd_recovery c) with
      | Some next =>
          if decide (ivalue Irecovery_controller w = Some (cf_controller next))
          then second = Sync_Unchanged ∧ outside v' = outside v
          else asks e c av (cf_controller next) (outside v) second (outside v')
      | None => second = Sync_Unchanged ∧ outside v' = outside v
      end ∧ (0 < bump second → generation_of v + bump second ≤ U64_MAX)%N) as (second & H2 & G2).
    { destruct (head _) as [next|]; [|apply ret_Ok in E2 as [_ ->]; by exists Sync_Unchanged].
      case_bool_decide; [apply ret_Ok in E2 as [_ ->]; exists Sync_Unchanged; by rewrite decide_True|].
      apply abind_Ok in E2 as (o2 & v2 & E2 & [_ ->]%ret_Ok).
      apply sync_asks in E2 as (Ha & Hg & Hb). exists o2. rewrite decide_False by done.
      split; [done|]. lia. }
    exists second, (outside v). destruct (ivalue Irecovery_controller w) as [old|].
    + apply sync_asks in E1 as (Ha & Hg & Hb). split_and!; [done..|]. lia.
    + apply ret_Ok in E1 as [-> ->]. split_and!; [done..|]. exact G2.
  - intros (second & s1 & H1 & H2 & Hg).
    assert (∃ v, match ivalue Irecovery_controller w with
      | Some controller => sync e controller c av
      | None => mret Sync_Unchanged
      end w = Ok (outcome, v) ∧ outside v = s1 ∧
      generation_of v = (generation_of w + bump outcome)%N) as (v & E1 & <- & Hv).
    { destruct (ivalue Irecovery_controller w) as [old|]; [apply sync_total; [done|]; lia|].
      destruct H1 as [-> ->]. exists w. split_and!; [done..|].
      by rewrite N.add_0_r. }
    assert (∃ v', match head (cd_recovery c) with
      | Some next =>
          if bool_decide (ivalue Irecovery_controller w = Some (cf_controller next)) then mret tt
          else sync e (cf_controller next) c av;; mret tt
      | None => mret tt
      end v = Ok (tt, v') ∧ outside v' = s2) as (v' & E2 & <-).
    { destruct (head _) as [next|]; [|destruct H2 as [-> ->]; by exists v].
      case_bool_decide; [rewrite decide_True in H2 by done; destruct H2 as [-> ->]; by exists v|].
      rewrite decide_False in H2 by done.
      destruct (sync_total _ _ _ _ _ _ _ H2) as (v' & E & <- & _);
        [lia|].
      exists v'. split; [|done]. apply abind_Ok. by exists second, v'. }
    exists v'. split; [|done]. unfold sync_controllers. apply abind_Ok.
    exists (ivalue Irecovery_controller w), w. split; [done|]. apply abind_Ok.
    exists outcome, v. split; [done|]. apply abind_Ok. by exists tt, v'.
Qed.

Lemma apply_total e j av er mode w c zk ins out w1 :
  authorized e (current_contract_address e) = true →
  (∀ r, er = Some r → r = revision_of w) →
  call_compile_doc (outside w) (perch_doc_compiler e) j = Ok c →
  check_document c w = Ok ((zk, ins), w) → sync_controllers e c av w = Ok (out, w1) →
  recorded w → installable e c w → pool_accepts e ins (outside w1) → fingerprintable out →
  (revision_of w < U64_MAX)%N →
  ∃ h w', apply e j av er mode w = Ok (h, w').
Proof.
  intros Ha Her Hc Hk E1 Hr Hfit Hp Hf Hrev.
  pose proof (λ f, frame_same _ _ _ _ _ f (sync_controllers_frame _ _ _) E1) as F1.
  destruct (apply_rules_total e c mode w1) as (d & w2 & E2).
  { eapply recorded_same; [|done]. intros f Hin. apply F1. set_solver. }
  { eapply installable_same; [|done]. apply F1. set_solver. }
  rewrite <- (apply_rules_stays _ _ _ _ _ _ E2) in Hp. apply insert_leaf_iff in Hp as [w3 E3].
  destruct (iupdate_total Icurrent_zk zk w3) as [w4 E4].
  apply (completed_iff e out (cd_fingerprints c) w4) in Hf as [w5 E5].
  destruct (store_document_total e c w5) as [w6 E6].
  pose proof (λ f, frame_same _ _ _ _ _ f (apply_rules_frame _ _ _) E2) as F2.
  pose proof (λ f, frame_same _ _ _ _ _ f (insert_leaf_frame _ _) E3) as F3.
  pose proof (λ f, frame_same _ _ _ _ _ f (iupdate_frame Icurrent_zk _) E4) as F4.
  pose proof (λ f, frame_same _ _ _ _ _ f (match_completed_frame _ _ _) E5) as F5.
  pose proof (λ f, frame_same _ _ _ _ _ f (store_document_frame _ _) E6) as F6.
  destruct (advance_revision_total w6) as (n & w7 & E7).
  { rewrite (same_revision w5 w6), (same_revision w4 w5), (same_revision w3 w4),
      (same_revision w2 w3), (same_revision w1 w2), (same_revision w w1); [done|..].
    - apply F1. set_solver.
    - apply F2. set_solver.
    - apply F3. set_solver.
    - apply F4. set_solver.
    - apply F5. set_solver.
    - apply F6. set_solver. }
  eexists _, _. unfold apply. apply abind_Ok. eexists tt, w. split.
  { apply alift_Ok. split; [|done]. by apply demand_Ok. }
  apply abind_Ok. eexists _, w. split; [by apply revision_Ok|].
  apply abind_Ok. eexists tt, w. split.
  { apply arefuse_Ok. split; [|done]. destruct er as [r|]; [|done].
    by rewrite (Her r eq_refl), N.eqb_refl. }
  apply abind_Ok. exists c, w. split.
  { apply alift_Ok. split; [|done]. by apply map_err_Ok. }
  do 6 (apply abind_Ok; eexists _, _; split; [eassumption|]).
  apply abind_Ok. eexists _, _. split; [exact E6|].
  apply abind_Ok. eexists _, _. split; [exact E7|]. done.
Qed.
End admin.

Section claims.
Context {H : Host} {I : Infra} {V : Values} {Oz : OZ} {O : AccountOutside} {OA : OzAccount}.
Context {OL : OzLaws}.

(** C6: The account is never locked out: from the constructor's admin rule on,
    along every run whose documents OpenZeppelin accepts, some rule in force
    covers the account itself, does not expire, has signers and no policy; and
    the stored records describe exactly the rules in force. *)
Theorem admin_always_in_force {OAL : OzAccountLaws} self e signers w0 w1 steps w :
  install_admin e signers w0 = Ok (tt, w1) → current_contract_address e = self →
  rules_of (rule_store w0) = ∅ → ivalue Irecovery_rule w0 = None →
  name_ok "admin"%string → signers_ok signers → signers ≠ [] →
  1 + length signers ≤ ids_left (rule_store w0) →
  arun (well_compiled self) steps w1 w →
  recorded w ∧ admin_in_force self w.
Proof.
  intros E <- ? ? ? ? ? ? Hr.
  apply (arun_inv_ind _ (λ w, recorded w ∧ admin_in_force (current_contract_address e) w) _ _ _
    (λ e op v v' _ Hok Hs, astep_admin _ e op v v' Hs Hok)
    (install_admin_Ok e signers tt w0 w1 E ltac:(done) ltac:(done) ltac:(done) ltac:(done)
       ltac:(done) ltac:(done)) Hr).
Qed.

(** C17: Applying a document succeeds exactly when the account authorized the
    call, the expected revision is the current one, the document compiles,
    keeps an unexpiring administrator rule with signers and no policy, holds no
    revoked credential, names the ZK factor in use or one under an enrollment
    id this account never used, the enrolled controller and then the
    document's own, if it is another, answer, the pool takes a new factor's
    leaf, the replaced credentials have fingerprints and the counters have
    room.  For a compiled document OpenZeppelin accepts, the rules are never
    the reason to fail, and exactly its rules are then in force. *)
Theorem apply_succeeds_iff e j av er mode w :
  recorded w →
  (∀ c, call_compile_doc (outside w) (perch_doc_compiler e) j = Ok c → installable e c w) →
  ((∃ h w', apply e j av er mode w = Ok (h, w')) ↔
   ∃ c outcome s,
     authorized e (current_contract_address e) = true ∧
     (∀ r, er = Some r → r = revision_of w) ∧
     call_compile_doc (outside w) (perch_doc_compiler e) j = Ok c ∧
     acceptable c w ∧ answered e c av w outcome s ∧
     (∀ z, doc_zk c = Some z → ivalue Icurrent_zk w ≠ Some z →
        is_Some (call_rcv_insert s (zf_pool z) (current_contract_address e)
                   (zf_enrollment_id z) (zf_commitment z))) ∧
     fingerprintable outcome ∧ (revision_of w < U64_MAX)%N) ∧
  ∀ h w', apply e j av er mode w = Ok (h, w') →
    ∃ c, call_compile_doc (outside w) (perch_doc_compiler e) j = Ok c ∧
      h = cd_doc_hash c ∧ holds_document e c w'.
Proof.
  intros Hr Hfit. split; [split|].
  - intros (h & w' & E). pose proof (apply_revision _ _ _ _ _ _ _ _ E) as Hrev.
    apply apply_Ok in E as (c & zk & ins & out & d & w1 & w2 & w3 & w4 & w5 & w6 & Ha & Her & Hc
      & _ & Hk & E1 & E2 & E3 & E4 & E5 & E6 & E7).
    exists c, out, (outside w1). split_and!; try done.
    + apply check_document_iff. eauto.
    + apply sync_controllers_iff. eauto.
    + apply (pool_accepts_iff _ _ _ _ _ _ Hk). rewrite <- (apply_rules_stays _ _ _ _ _ _ E2).
      apply insert_leaf_iff. eauto.
    + eapply completed_iff. eauto.
    + apply abind_Ok in E7 as (n & w7 & E7 & [= <-]). apply advance_revision_Ok in E7.
      change (revision_of w7 = revision_of w + 1)%N in Hrev. lia.
  - intros (c & out & s & Ha & Her & Hc & (zk & ins & Hk)%check_document_iff &
      (w1 & E1 & <-)%sync_controllers_iff & Hp & Hf & Hrev).
    apply (pool_accepts_iff _ _ _ _ _ _ Hk) in Hp.
    by eapply (apply_total e j av er mode w c zk ins out w1); eauto.
  - intros h w' E. destruct (apply_holds _ _ _ _ _ _ _ _ E Hr Hfit) as (c & ? & ? & _ & ?). eauto.
Qed.
End claims.
