(* ===== verification/AccountDemo.v ===== *)
(** * A small account, run

    An account is constructed, applies a document with a recovery controller,
    schedules and executes an upgrade, and completes a recovery that replaces
    its key.  The runs show that the hypotheses of the account's theorems hold
    together. *)

From S2P Require Import Prelude Host Program RecoveryIface CompilerIface Rules RulesFacts RulesRun RulesCost RulesDemo Account AccountFacts AccountRuns AccountSafety AccountAdmin.
#[local] Open Scope string_scope.
#[local] Open Scope list_scope.

#[local] Existing Instance ReadableHost.
#[local] Existing Instance DemoOZ.
#[local] Existing Instance DemoOzLaws.
#[local] Existing Instance DemoInfra.
#[local] Existing Instance DemoValues.

(** Addresses are their XDR here. *)
Definition demo_account : Address := CONTRACT_HEADER +:+ "the account's contract id, 32 ch".
Definition demo_other : Address := CONTRACT_HEADER +:+ "another account's contract id 32".
Definition demo_old_key : Address := CONTRACT_HEADER +:+ "the owner's old delegate address".

Definition demo_recovery : CompiledRecoveryConfig := {|
  cf_config_hash := "cfg"; cf_profile := Profile_Loss;
  cf_mode := Mode_GuardianOnly {| guardians := ["GALICE"]; quorum := 1 |};
  cf_controller := "CCONTROLLER"; cf_baseline := None; cf_replaceable := ["owner"];
  cf_delay_ledgers := 10; cf_expiry_ledgers := 100; cf_max_cancels := 3 |}.

Definition demo_admin_rule (key : Address) : CompiledRule := {|
  cr_name := "admin"; cr_scope := RuleScope_SelfAdmin; cr_signers := [Signer_Delegated key];
  cr_valid_until := None; cr_install := []; cr_cap := [] |}.

Definition demo_fingerprint (k : Address) : bytes :=
  match credential_fingerprint (Credential_Delegated k) with Ok f => f | _ => "" end.

(** The owner's document, and the one a recovery installs. *)
Definition demo_doc : CompiledDoc := {|
  cd_doc_hash := "h1"; cd_canonical := "{1}"; cd_fingerprints := [demo_fingerprint demo_old_key];
  cd_rules := [demo_admin_rule demo_old_key]; cd_recovery := [demo_recovery] |}.
Definition demo_target : CompiledDoc := {|
  cd_doc_hash := "h2"; cd_canonical := "{2}"; cd_fingerprints := ["f2"];
  cd_rules := [demo_admin_rule demo_other]; cd_recovery := [demo_recovery] |}.

(** An ordinary change after the recovery. *)
Definition demo_next : CompiledDoc := {|
  cd_doc_hash := "h3"; cd_canonical := "{3}"; cd_fingerprints := ["f2"; "f3"];
  cd_rules := [demo_admin_rule demo_other]; cd_recovery := [demo_recovery] |}.

Definition demo_compile (j : bytes) : result DocCompilerError CompiledDoc :=
  if String.eqb j "doc" then Ok demo_doc
  else if String.eqb j "target" then Ok demo_target
  else if String.eqb j "next" then Ok demo_next else Err DocParse.

Definition demo_completion : Completion :=
  {| cp_attempt_id := 1; cp_replaced := [Credential_Delegated demo_old_key] |}.

(** The controller completes a recovery towards the target. *)
#[local] Instance DemoOutside : AccountOutside := {|
  AState := N;
  call_compile_doc _ _ j := demo_compile j;
  call_rcv_sync n _ _ h _ _ :=
    if String.eqb h "h2" then Ok (Sync_Completed demo_completion, n) else Ok (Sync_Enrolled, n);
  call_rcv_cancel n _ _ _ := Ok (tt, n);
  call_rcv_upgrade n _ _ _ := Ok (7%N, n);
  call_rcv_insert n _ _ _ _ := Some (tt, n);
  invoke_contract n _ _ _ := Some (DVBytes "ok", (n + 1)%N) |}.

#[local] Instance DemoOzAccount : OzAccount := {|
  do_check_auth _ _ sigs _ _ n := if is_empty (auth_signers sigs) then None else Some (n + 1)%N;
  add_context_rule := add_context_rule_no_events |}.

#[local] Instance demo_oz_account_laws : OzAccountLaws.
Proof. done. Qed.

(** ** The run *)

Definition at_ledger (n : N) : Env := {|
  sequence := n; network_id := ""; current_contract_address := demo_account;
  authorized _ := true; authorized_for_args _ _ := true;
  max_ttl := 1000; min_persistent_ttl := 10; min_temp_ttl := 10 |}.

Definition blank : AWorld := {|
  storage := {| inst _ := None; inst_live_until := 0; pers _ := ∅ |};
  rule_store := (∅ : gmap N OzRule); outside := 0%N; events := []; new_wasm := None |}.

Definition after {T} (c : A T) (w : AWorld) : AWorld :=
  match c w with Ok (_, w') => w' | _ => w end.

Lemma after_succeeds {T} (c : A T) w : is_ok (c w) = true → succeeds c w (after c w).
Proof. unfold succeeds, after. destruct (c w) as [[a w']| |]; try done. intros _. by exists a. Qed.

Definition born : AWorld := after (install_admin (at_ledger 1) [Signer_Delegated demo_old_key]) blank.
Definition enrolled : AWorld := after (apply_doc (at_ledger 10) "doc" 50 (Some 0%N)) born.
Definition scheduled : AWorld := after (schedule_upgrade (at_ledger 20) "wasm" 50) enrolled.
Definition upgraded : AWorld := after (execute_upgrade (at_ledger 120980) 0) scheduled.
Definition recovered : AWorld := after (apply_doc (at_ledger 30) "target" 50 None) enrolled.

Definition rescheduled : AWorld := after (schedule_upgrade (at_ledger 40) "wasm" 50) recovered.
Definition changed : AWorld := after (apply_doc (at_ledger 50) "next" 90 (Some 2%N)) rescheduled.

Lemma enrolled_step :
  succeeds (apply_doc (at_ledger 10) "doc" 50 (Some 0%N)) born enrolled.
Proof. unfold enrolled. refine (after_succeeds _ _ _). vm_compute. reflexivity. Qed.
Lemma recovered_step : succeeds (apply_doc (at_ledger 30) "target" 50 None) enrolled recovered.
Proof. unfold recovered. refine (after_succeeds _ _ _). vm_compute. reflexivity. Qed.
Lemma scheduled_step : succeeds (schedule_upgrade (at_ledger 20) "wasm" 50) enrolled scheduled.
Proof. unfold scheduled. refine (after_succeeds _ _ _). vm_compute. reflexivity. Qed.
Lemma upgraded_step : succeeds (execute_upgrade (at_ledger 120980) 0) scheduled upgraded.
Proof. unfold upgraded. refine (after_succeeds _ _ _). vm_compute. reflexivity. Qed.
Lemma rescheduled_step :
  succeeds (schedule_upgrade (at_ledger 40) "wasm" 50) recovered rescheduled.
Proof. unfold rescheduled. refine (after_succeeds _ _ _). vm_compute. reflexivity. Qed.
Lemma changed_step : succeeds (apply_doc (at_ledger 50) "next" 90 (Some 2%N)) rescheduled changed.
Proof. unfold changed. refine (after_succeeds _ _ _). vm_compute. reflexivity. Qed.

Definition to_enrolled : list (Env * account_op) :=
  [(at_ledger 10, Do_apply "doc" 50 (Some 0%N) Mode_Cheapest)].
Definition to_recovered : list (Env * account_op) :=
  [(at_ledger 30, Do_apply "target" 50 None Mode_Cheapest)].
Definition to_scheduled : list (Env * account_op) :=
  to_enrolled ++ [(at_ledger 20, Do_schedule_upgrade "wasm" 50)].

Lemma one_step e op w w' (steps : list (Env * account_op)) w0 :
  arun any_step steps w0 w → new_wasm w = None → astep e op w w' →
  arun any_step (steps ++ [(e, op)]) w0 w'.
Proof. intros. by eapply arun_snoc. Qed.

Lemma enrolled_run : arun any_step to_enrolled born enrolled.
Proof.
  refine (one_step (at_ledger 10) (Do_apply "doc" 50 (Some 0%N) Mode_Cheapest) born enrolled []
    born (arun_nil _ _) _ enrolled_step). vm_compute. reflexivity.
Qed.
Lemma recovered_run : arun any_step to_recovered enrolled recovered.
Proof.
  refine (one_step (at_ledger 30) (Do_apply "target" 50 None Mode_Cheapest) enrolled recovered []
    enrolled (arun_nil _ _) _ recovered_step). vm_compute. reflexivity.
Qed.
Lemma scheduled_run : arun any_step to_scheduled born scheduled.
Proof.
  refine (one_step (at_ledger 20) (Do_schedule_upgrade "wasm" 50) enrolled scheduled to_enrolled
    born enrolled_run _ scheduled_step). vm_compute. reflexivity.
Qed.

(** ** Witnesses *)

Lemma revision_names_configuration_witness :
  revision_of scheduled = 1%N ∧
  (revision_of scheduled = revision_of born → ∀ f, f ∈ conf_fields → same f born scheduled).
Proof.
  destruct (revision_names_configuration any_step to_scheduled born scheduled scheduled_run)
    as [Hr Hs].
  split; [|exact Hs]. rewrite Hr. vm_compute. reflexivity.
Defined.

Lemma upgrade_waits_out_its_delay_witness :
  ∃ pre e1 hash av post w1 w2,
    to_scheduled = pre ++ (e1, Do_schedule_upgrade hash av) :: post ∧
    arun any_step pre born w1 ∧ schedule_upgrade e1 hash av w1 = Ok (0%N, w2) ∧
    Forall (λ s, upgrade_op s.2 = false) post ∧
    (sequence e1 + ACCOUNT_UPGRADE_DELAY_LEDGERS ≤ sequence (at_ledger 120980))%N ∧
    generation_of scheduled = generation_of w1 ∧ new_wasm upgraded = Some hash.
Proof.
  apply (upgrade_waits_out_its_delay any_step to_scheduled born scheduled (at_ledger 120980) 0
    upgraded scheduled_run).
  - vm_compute. reflexivity.
  - destruct upgraded_step as [[] E]. exact E.
Defined.

Lemma rescheduled_run :
  arun any_step [(at_ledger 40, Do_schedule_upgrade "wasm" 50)] recovered rescheduled.
Proof.
  refine (one_step (at_ledger 40) (Do_schedule_upgrade "wasm" 50) recovered rescheduled []
    recovered (arun_nil _ _) _ rescheduled_step). vm_compute. reflexivity.
Qed.

(** The recovery replaces the owner's key; an upgrade is scheduled; the next
    document goes through, without the old key. *)
Lemma revoked_credentials_stay_out_witness :
  ∃ fs c', Forall2 (λ k f, credential_fingerprint k = Ok f) (cp_replaced demo_completion) fs ∧
    demo_compile "next" = Ok c' ∧ "h3" = cd_doc_hash c' ∧
    ∀ f, pvalue Prevoked f enrolled ≠ None ∨ f ∈ fs ∨
         f ∈ applied_fingerprints enrolled ∧ f ∉ cd_fingerprints demo_target →
      pvalue Prevoked f rescheduled ≠ None ∧ pvalue Prevoked f changed ≠ None ∧
      f ∉ cd_fingerprints c'.
Proof.
  destruct recovered_step as [h E], changed_step as [h' E']. unfold apply_doc in E, E'.
  assert (h' = "h3") as ->.
  { pose proof (apply_document _ _ _ _ _ _ _ _ E') as (c' & _ & Hc' & -> & _).
    injection Hc' as <-. reflexivity. }
  apply (revoked_credentials_stay_out any_step [(at_ledger 40, Do_schedule_upgrade "wasm" 50)]
    (at_ledger 30) "target" 50 None Mode_Cheapest h enrolled recovered "CCONTROLLER" demo_target
    demo_completion (outside enrolled) (at_ledger 50) "next" 90 (Some 2%N) Mode_Cheapest "h3"
    rescheduled changed E).
  - vm_compute. reflexivity.
  - reflexivity.
  - reflexivity.
  - exact rescheduled_run.
  - exact E'.
Defined.

(** The old document, which still names the replaced key, is refused. *)
Lemma old_document_refused :
  match apply_doc (at_ledger 50) "doc" 90 (Some 2%N) rescheduled with
  | Err Acc_RevokedCredential => true
  | _ => false
  end = true.
Proof. vm_compute. reflexivity. Qed.


(** While the gate is frozen. *)
Definition frozen : AWorld := after (rcv_gate (at_ledger 20) 1 100) enrolled.
Definition completing : AuthPayload := {|
  auth_signers := [(Signer_Delegated demo_other, "sig")]; context_rule_ids := [1%N] |}.
Definition completion_call : Context := Context_Contract {|
  contract := demo_account; fn_name := "apply_doc"; args := [] |}.

Lemma check_auth_exact_witness :
  check_auth (at_ledger 20) "payload" completing [completion_call] frozen =
    Ok {| storage := storage frozen; rule_store := rule_store frozen;
          outside := (outside frozen + 1)%N; events := events frozen;
          new_wasm := new_wasm frozen |}.
Proof.
  apply (check_auth_exact (at_ledger 20) "payload" completing [completion_call] frozen).
  - done.
  - split_and!.
    + intros c Hc%list_elem_of_singleton. injection Hc as ->. simpl.
      apply (bool_decide_unpack _). vm_compute. exact Logic.I.
    + intros g _ _. eexists 1%N, _. split_and!; [vm_compute; reflexivity|reflexivity..].
    + exists (outside frozen + 1)%N. split; reflexivity.
Defined.

Lemma bound_digest_names_account_witness :
  bind_signature_payload_for_account (IfaceDemo.plain_address 1) "p" ≠
    bind_signature_payload_for_account (IfaceDemo.plain_address 2) "p".
Proof.
  destruct (bound_digest_names_account (H := IfaceDemo.PlainHost) (λ x y E, E)
    (IfaceDemo.plain_address 1) (IfaceDemo.plain_address 2) "p" "p" (be_bytes 32 1) (be_bytes 32 2)
    eq_refl eq_refl) as [Hinj _].
  intros E. apply Hinj in E as [E _]. discriminate E.
Defined.

(** ** The administrator *)

Lemma demo_installable e c n :
  current_contract_address e = demo_account → c = demo_doc ∨ c = demo_target ∨ c = demo_next →
  installable e c {| storage := storage blank; rule_store := n; outside := 0%N; events := [];
              new_wasm := None |}.
Proof.
  intros Hself Hc. split.
  - assert (Forall (rule_accepted e) (cd_rules c) ∧ head (cd_recovery c) = Some demo_recovery ∧
      NoDup ((λ r, (cr_name r, scope_context e (cr_scope r))) <$> cd_rules c)) as (Hr & Hrec & Hnd).
    { destruct Hc as [-> |[-> | ->]]; (split_and!; [|reflexivity|]; simpl).
      1,3,5: repeat constructor; simpl; try done; try set_solver; lia.
      all: repeat constructor; set_solver. }
    split_and!; try done.
    + intros r Hr'. rewrite Hrec in Hr'. injection Hr' as <-. repeat constructor; simpl; lia || done.
    + simpl. lia.
  - destruct Hc as [-> |[-> | ->]]; vm_compute; lia.
Qed.

Lemma demo_well_compiled op w :
  well_compiled demo_account (at_ledger 10) op w.
Proof.
  split; [done|]. destruct op as [j| | | | | | | | |]; try done.
  intros c Hc. cbn [call_compile_doc DemoOutside] in Hc. unfold demo_compile in Hc.
  apply (demo_installable (at_ledger 10) c (rule_store w) eq_refl).
  destruct (String.eqb j "doc"); [left; congruence|].
  destruct (String.eqb j "target"); [right; left; congruence|].
  destruct (String.eqb j "next"); [right; right; congruence|done].
Qed.

Lemma born_step :
  install_admin (at_ledger 1) [Signer_Delegated demo_old_key] blank = Ok (tt, born).
Proof.
  destruct (after_succeeds (install_admin (at_ledger 1) [Signer_Delegated demo_old_key]) blank)
    as [[] E]; [vm_compute; reflexivity|exact E].
Qed.

Lemma demo_signers_accepted : signers_ok [Signer_Delegated demo_old_key].
Proof. split; [repeat constructor; set_solver|simpl; lia]. Qed.

Lemma enrolled_well : arun (well_compiled demo_account) to_enrolled born enrolled.
Proof.
  refine (arun_snoc _ [] (at_ledger 10) (Do_apply "doc" 50 (Some 0%N) Mode_Cheapest) _ born enrolled
    (arun_nil _ _) _ _ enrolled_step); [vm_compute; reflexivity|apply demo_well_compiled].
Qed.

Lemma demo_ids : (1 + length [Signer_Delegated demo_old_key] ≤ ids_left (rule_store blank))%nat.
Proof. simpl. lia. Qed.
Lemma demo_name : name_ok "admin".
Proof. exact (proj1 (N.leb_le (slen "admin") 20) eq_refl). Qed.
Lemma demo_some_signer : [Signer_Delegated demo_old_key] ≠ [].
Proof. done. Qed.

Lemma admin_always_in_force_witness : recorded enrolled ∧ admin_in_force demo_account enrolled.
Proof.
  exact (admin_always_in_force demo_account (at_ledger 1) [Signer_Delegated demo_old_key] blank born
    to_enrolled enrolled born_step eq_refl eq_refl eq_refl demo_name demo_signers_accepted
    demo_some_signer demo_ids enrolled_well).
Defined.

Lemma born_recorded : recorded born.
Proof.
  exact (proj1 (install_admin_Ok (at_ledger 1) [Signer_Delegated demo_old_key] tt blank born
    born_step eq_refl eq_refl demo_name demo_signers_accepted demo_some_signer demo_ids)).
Qed.

Lemma apply_succeeds_iff_witness :
  (∃ c outcome s, demo_compile "doc" = Ok c ∧ acceptable c born ∧
     answered (at_ledger 10) c 50 born outcome s) ∧
  ∃ h c, demo_compile "doc" = Ok c ∧ h = cd_doc_hash c ∧
    holds_document (at_ledger 10) c enrolled.
Proof.
  destruct enrolled_step as [h E]. unfold apply_doc in E.
  destruct (apply_succeeds_iff (at_ledger 10) "doc" 50 (Some 0%N) Mode_Cheapest born
    born_recorded (proj2 (demo_well_compiled (Do_apply "doc" 50 None Mode_Cheapest) born)))
    as [Hiff Hholds].
  split; [|exists h; exact (Hholds h enrolled E)].
  destruct (proj1 Hiff) as (c & outcome & s & _ & _ & Hc & Ha & Hs & _); [exists h, enrolled; exact E|].
  exists c, outcome, s. exact (conj Hc (conj Ha Hs)).
Defined.
