(* ===== verification/Factory.v ===== *)
(** * perch-account-factory and the deployable perch-account

    The factory of [perch-account-factory/src/lib.rs]: the deploy salt that
    commits to the signers, address prediction, creation and the passkey
    entry points, and the constructor of [perch-account/src/lib.rs] that every
    created account runs.  The host's deployer is a parameter.  Creation is
    composed with the account's constructor, so that what is proved of a
    created account starts the account's own theorems. *)

From S2P Require Import Prelude Host Program RecoveryIface CompilerIface Rules RulesFacts RulesRun Account AccountFacts AccountRuns AccountSafety AccountAdmin.

Definition FACTORY_VERSION : N := 1.

Section factory.
Context {H : Host} {I : Infra} {V : Values} {Oz : OZ} {O : AccountOutside} {OA : OzAccount}.

(** [PerchAccount::__constructor]. *)
Definition __constructor (e : Env) (admin_signers : list Signer) : A unit :=
  install_admin e admin_signers.

(** The host: the address a contract deploys at with a salt on a network, the
    XDR of a list of signers, the two build-time pins, the constructor of an
    uploaded wasm, and the storage of a contract just created. *)
Class Deployer : Type := {
  deployed_address : bytes → Address → bytes → Address;
  signers_to_xdr : list Signer → bytes;
  pinned_account_hash : bytes;
  pinned_webauthn_verifier : Env → Address;
  wasm_constructor : bytes → Env → list Signer → A unit;
  fresh_rules : OzState;
}.
Context {D : Deployer}.

Record AccountCreated : Type := {
  ac_account : Address;
  ac_salt : bytes;
  ac_admin_signers : list Signer;
}.

(** The contracts deployed, each with its wasm and its state, the rest of the
    chain, and the factory's events.  The factory has no storage. *)
Record FWorld : Type := {
  deployed : gmap Address (bytes * AWorld);
  chain : AState;
  created : list AccountCreated;
}.

Definition factory_version : N := FACTORY_VERSION.
Definition account_wasm_hash : bytes := pinned_account_hash.
Definition webauthn_verifier (e : Env) : Address := pinned_webauthn_verifier e.

Definition deploy_salt (salt : bytes) (admin_signers : list Signer) : bytes :=
  sha256 (salt +:+ signers_to_xdr admin_signers).

Definition address_of (e : Env) (salt : bytes) (admin_signers : list Signer) : Address :=
  deployed_address (network_id e) (current_contract_address e) (deploy_salt salt admin_signers).

Definition env_at (e : Env) (a : Address) : Env := {|
  sequence := sequence e; network_id := network_id e; current_contract_address := a;
  authorized := authorized e; authorized_for_args := authorized_for_args e;
  max_ttl := max_ttl e; min_persistent_ttl := min_persistent_ttl e;
  min_temp_ttl := min_temp_ttl e |}.

Definition fresh_instance (c : AState) : AWorld := {|
  storage := {| inst _ := None; inst_live_until := 0; pers _ := ∅ |};
  rule_store := fresh_rules; outside := c; events := []; new_wasm := None |}.

(** [with_current_contract(salt).deploy_v2(wasm_hash, (signers,))]: traps when
    the address is taken or the constructor fails. *)
Definition deploy_v2 (e : Env) (salt wasm_hash : bytes) (signers : list Signer) (w : FWorld)
  : option (Address * FWorld) :=
  let account := deployed_address (network_id e) (current_contract_address e) salt in
  match deployed w !! account with
  | Some _ => None
  | None =>
      match wasm_constructor wasm_hash (env_at e account) signers (fresh_instance (chain w)) with
      | Ok (_, aw) =>
          Some (account, {| deployed := <[account := (wasm_hash, aw)]> (deployed w);
                            chain := outside aw; created := created w |})
      | _ => None
      end
  end.

Definition create (e : Env) (salt : bytes) (admin_signers : list Signer) (w : FWorld)
  : option (Address * FWorld) :=
  '(account, w) ← deploy_v2 e (deploy_salt salt admin_signers) pinned_account_hash admin_signers w;
  Some (account, {| deployed := deployed w; chain := chain w;
    created := created w ++ [{| ac_account := account; ac_salt := salt;
                                ac_admin_signers := admin_signers |}] |}).

Definition passkey_signer (e : Env) (key_data : bytes) : Signer :=
  Signer_External (pinned_webauthn_verifier e) key_data.
Definition passkey_address (e : Env) (salt key_data : bytes) : Address :=
  address_of e salt [passkey_signer e key_data].
Definition create_passkey (e : Env) (salt key_data : bytes) (w : FWorld)
  : option (Address * FWorld) :=
  create e salt [passkey_signer e key_data] w.

(** What the host documents: an address is a hash of the network, the deployer
    and the salt, XDR is uniquely readable, the pinned wasm is the perch
    account, and a new contract has no rules. *)
Class DeployerLaws {OL : OzLaws} : Prop := {
  deployed_address_inj n d s s' : deployed_address n d s = deployed_address n d s' → s = s';
  signers_xdr_inj l l' : signers_to_xdr l = signers_to_xdr l' → l = l';
  pinned_is_perch_account : wasm_constructor pinned_account_hash = __constructor;
  fresh_rules_empty : rules_of fresh_rules = ∅;
}.
Context {OL : OzLaws} {OAL : OzAccountLaws} {DL : DeployerLaws}.
Context (collision_free : ∀ x y : bytes, sha256 x = sha256 y → x = y).

Lemma address_of_inj e salt salt' signers signers' :
  String.length salt = 32%nat → String.length salt' = 32%nat →
  address_of e salt signers = address_of e salt' signers' → salt = salt' ∧ signers = signers'.
Proof.
  intros Hl Hl' E. apply deployed_address_inj, collision_free in E.
  apply string_app_inj_length in E as [-> E]; [|congruence]. by apply signers_xdr_inj in E.
Qed.

Lemma create_Some e salt signers w a w' :
  create e salt signers w = Some (a, w') ↔
  a = address_of e salt signers ∧ deployed w !! a = None ∧
  ∃ aw, __constructor (env_at e a) signers (fresh_instance (chain w)) = Ok (tt, aw) ∧
    w' = {| deployed := <[a := (pinned_account_hash, aw)]> (deployed w); chain := outside aw;
            created := created w ++ [{| ac_account := a; ac_salt := salt;
                                        ac_admin_signers := signers |}] |}.
Proof.
  unfold create, deploy_v2. fold (address_of e salt signers). rewrite pinned_is_perch_account.
  destruct (deployed w !! address_of e salt signers) as [x|] eqn:Hd.
  { split; [done|]. intros (-> & Hn & _). congruence. }
  destruct (__constructor (env_at e (address_of e salt signers)) signers
    (fresh_instance (chain w))) as [[[] aw]| |] eqn:Hc; simpl.
  - split; [intros [= <- <-]; eauto|]. intros (-> & _ & aw' & Hc' & ->).
    rewrite Hc in Hc'. by injection Hc' as <-.
  - split; [done|]. intros (-> & _ & aw' & Hc' & _). congruence.
  - split; [done|]. intros (-> & _ & aw' & Hc' & _). congruence.
Qed.

(** C26: An account's address commits to its signers.  An account the factory
    creates stands at the predicted address, where nothing stood before, from
    the pinned wasm, with a rule in force that lets exactly its constructor's
    signers administer it; nothing else that is deployed changes and the
    creation is published.  From the state reached no creation, for whatever
    salt and signers, yields that address again, and any salt and signers
    predicted at it are these.  Assumed are a collision-free hash and a
    non-empty list of signers OpenZeppelin accepts. *)
Theorem created_account_is_bound e salt signers w a w' :
  String.length salt = 32%nat → create e salt signers w = Some (a, w') →
  name_ok "admin"%string → signers_ok signers → signers ≠ [] →
  1 + length signers ≤ ids_left fresh_rules →
  a = address_of e salt signers ∧ deployed w !! a = None ∧
  (∃ aw id, deployed w' = <[a := (account_wasm_hash, aw)]> (deployed w) ∧
     records_of aw = [admin_rule (env_at e a) id signers] ∧ recorded aw ∧ admin_in_force a aw) ∧
  last (created w') = Some {| ac_account := a; ac_salt := salt; ac_admin_signers := signers |} ∧
  (∀ salt' signers', String.length salt' = 32%nat → address_of e salt' signers' = a →
     salt' = salt ∧ signers' = signers) ∧
  ∀ e' salt' signers', network_id e' = network_id e →
    current_contract_address e' = current_contract_address e →
    address_of e' salt' signers' = a → create e' salt' signers' w' = None.
Proof.
  intros Hlen (Ha & Hnone & aw & Hc & ->)%create_Some Hname Hs Hne Hids. cbn [deployed created].
  pose proof (install_admin_Ok _ _ _ _ _ Hc fresh_rules_empty eq_refl Hname Hs Hne Hids) as [Hr Hin].
  destruct (install_admin_records _ _ _ _ _ Hc) as (id & _ & _ & _ & _ & _ & _ & Hrs).
  split_and!; [done..|by exists aw, id| | |].
  - by rewrite last_snoc.
  - intros salt' signers' Hl' E. apply (address_of_inj e); congruence.
  - intros e' salt' signers' Hn Hcur E.
    destruct (create e' salt' signers' _) as [[b w'']|] eqn:Hb; [|done].
    apply create_Some in Hb as (-> & Hnone' & _). exfalso. cbn [deployed] in Hnone'.
    rewrite E, lookup_insert_eq in Hnone'. done.
Qed.
End factory.
