(* ===== verification/FactoryDemo.v ===== *)
(** * An account created by the factory

    A deployer for which the host's promises hold, and an account created
    with it. *)

From S2P Require Import Prelude Host Program RecoveryIface CompilerIface Rules RulesFacts RulesRun RulesDemo Account AccountFacts AccountRuns AccountSafety AccountAdmin AccountDemo Factory.
#[local] Open Scope string_scope.
#[local] Open Scope list_scope.

#[local] Existing Instance ReadableHost.
#[local] Existing Instance DemoOZ.
#[local] Existing Instance DemoOzLaws.
#[local] Existing Instance DemoInfra.
#[local] Existing Instance DemoValues.
#[local] Existing Instance DemoOutside.
#[local] Existing Instance DemoOzAccount.
#[local] Existing Instance demo_oz_account_laws.

(** ** A uniquely readable encoding of signers *)

Fixpoint bits (p : positive) : string :=
  match p with
  | xH => ""
  | xO p => String "0" (bits p)
  | xI p => String "1" (bits p)
  end.
Lemma bits_inj p q : bits p = bits q → p = q.
Proof.
  revert q. induction p as [p IH|p IH|]; intros [q|q|]; simpl; intros E; try done;
    injection E as E; f_equal; by apply IH.
Qed.

Definition signer_parts (s : Signer) : string + string * string :=
  match s with Signer_Delegated a => inl a | Signer_External v k => inr (v, k) end.
Lemma signer_parts_inj s t : signer_parts s = signer_parts t → s = t.
Proof. destruct s, t; simpl; congruence. Qed.

Definition signers_bits (l : list Signer) : bytes := bits (encode (signer_parts <$> l)).

#[local] Instance DemoDeployer : Deployer := {|
  deployed_address _ _ salt := salt;
  signers_to_xdr := signers_bits;
  pinned_account_hash := "the wasm of perch-account";
  pinned_webauthn_verifier _ := "CWEBAUTHN";
  wasm_constructor _ := __constructor;
  fresh_rules := (∅ : gmap N OzRule) |}.

#[local] Instance demo_deployer_laws : DeployerLaws.
Proof.
  split; try done. intros l l' E%bits_inj%(inj encode).
  revert l' E. induction l as [|s l IH]; intros [|t l'] E; try done.
  injection E as E1 E2. f_equal; [by apply signer_parts_inj|by apply IH].
Qed.

(** ** Creating it *)

Definition demo_salt : bytes := "a salt of exactly thirty-two by!".
Definition empty_chain : FWorld := {| deployed := ∅; chain := 0%N; created := [] |}.

Definition created_at (r : option (Address * FWorld)) : Address * FWorld := default ("", empty_chain) r.
Definition demo_created : Address * FWorld :=
  created_at (create (at_ledger 1) demo_salt [Signer_Delegated demo_old_key] empty_chain).

Definition succeeded {T} (r : option T) : bool := if r then true else false.

Lemma created_at_is r : succeeded r = true → r = Some ((created_at r).1, (created_at r).2).
Proof. by destruct r as [[a w]|]. Qed.

Lemma demo_created_is :
  create (at_ledger 1) demo_salt [Signer_Delegated demo_old_key] empty_chain =
  Some (demo_created.1, demo_created.2).
Proof. apply created_at_is. vm_compute. reflexivity. Qed.

Lemma created_account_is_bound_witness :
  demo_created.1 = address_of (at_ledger 1) demo_salt [Signer_Delegated demo_old_key] ∧
  create (at_ledger 1) demo_salt [Signer_Delegated demo_old_key] demo_created.2 = None.
Proof.
  destruct (created_account_is_bound (H := ReadableHost) (λ x y E, E) (at_ledger 1) demo_salt
    [Signer_Delegated demo_old_key] empty_chain demo_created.1 demo_created.2 eq_refl demo_created_is
    demo_name demo_signers_accepted demo_some_signer demo_ids) as (Ha & _ & _ & _ & _ & Hagain).
  split; [exact Ha|]. apply Hagain; [reflexivity|reflexivity|]. symmetry. exact Ha.
Defined.

(** The passkey entry points are the general ones for one external signer. *)
Example demo_passkey :
  passkey_address (at_ledger 1) demo_salt "key" =
  address_of (at_ledger 1) demo_salt [Signer_External "CWEBAUTHN" "key"].
Proof. reflexivity. Qed.
