(* ===== verification/CompilerAccount.v ===== *)
(** * The compiler and the account: a document that compiles installs

    Composes [DocCompiler] with [AccountAdmin]: whatever [compile_doc] returns
    satisfies [compiled_ok], so the account's theorems apply to every document
    its pinned compiler accepts.  [InstallLaws] is what OpenZeppelin, the key
    verifiers, the spending limit, strkeys and the [hex] crate document; that
    the compiler's own checks (distinct identities, key lengths, canonical
    keys, caps) meet it, and that the interpreter takes a valid program, is
    proved. *)

From S2P Require Import Prelude Host Program Interpreter Doc Canon Parse ParseFacts RoundTrip Utf8 Validate RecoveryDoc Compile RecoveryIface CompilerIface DocCompiler DocCompilerFacts Rules RulesFacts RulesRun Account AccountFacts AccountRuns AccountSafety AccountAdmin.
#[local] Open Scope list_scope.

(** ** What the account's dependencies document *)

(** Hex text: two digits of either case per byte. *)
Inductive hex_text : string → bytes → Prop :=
| hex_text_nil : hex_text "" ""
| hex_text_pair a b x y s d :
    hex_value a = Some x → hex_value b = Some y → hex_text s d →
    hex_text (String a (String b s)) (String (ascii_of_N (16 * x + y)) d).

(** The canonical form a verifier gives one key, asked for on its own. *)
Definition canonicalize_key `{H : Host} {VF : Verifiers} (verifier : Address) (key : bytes)
  : option bytes :=
  match batch_canonicalize_key verifier [key] with Some [k] => Some k | _ => None end.

(** The signer OpenZeppelin's duplicate check compares. *)
Definition canonical_signer `{H : Host} {VF : Verifiers} (s : Signer) : option Signer :=
  match s with
  | Signer_Delegated a => Some (Signer_Delegated a)
  | Signer_External v k => Signer_External v <$> canonicalize_key v k
  end.

(** OpenZeppelin's bound on the bytes of an external key. *)
Class KeyBound : Type := MAX_EXTERNAL_KEY_SIZE : nat.

Definition key_fits {KB : KeyBound} `{H : Host} (s : Signer) : Prop :=
  match s with
  | Signer_Delegated _ => True
  | Signer_External _ k => (String.length k ≤ MAX_EXTERNAL_KEY_SIZE)%nat
  end.

Class InstallLaws `{H : Host} {I : Infra} {V : Values} {Oz : OZ} {OL : OzLaws} {HC : HexCodec}
    {CL : CompilerLibs} {VF : Verifiers} {KB : KeyBound} : Prop := {
  names_install s : (slen s ≤ MAX_NAME_SIZE)%N → name_ok s;
  (** OpenZeppelin takes a list of at most [MAX_SIGNERS] signers whose keys
      are within its bound, whose verifiers canonicalize them, and no two of
      which are the same after that. *)
  signers_install l canonical :
    (N.of_nat (length l) ≤ MAX_SIGNERS)%N → Forall key_fits l →
    mapM canonical_signer l = Some canonical → NoDup canonical → signers_ok l;
  (** A verifier canonicalizes each key of a batch, in input order. *)
  batch_in_order v keys : batch_canonicalize_key v keys = mapM (canonicalize_key v) keys;
  (** The policies: the interpreter takes what its [install] takes under a
      rule that has no program, the spending limit positive caps. *)
  programs_install e p :
    (∀ env st rule a, authorized env a = true →
       get_program st a (rule_id rule) = None →
       ∃ st', Interpreter.install env st p rule a = Ok st') →
    installs (perch_interpreter e) (install_into_val p);
  caps_install e c : (0 < spending_limit c)%Z → (0 < period_ledgers c)%N →
    installs (perch_spending_limit e) (cap_val c);
  (** The compile-time assertion, and room for the keys, names and policies a
      rule can have. *)
  max_signers_room : (MAX_DOC_SIGNERS ≤ MAX_SIGNERS)%N;
  key_room : (256 ≤ MAX_EXTERNAL_KEY_SIZE)%nat;
  recovery_name_room : (8 ≤ MAX_NAME_SIZE)%N;
  max_policies_room : 2 ≤ MAX_POLICIES;
  policies_distinct e : perch_interpreter e ≠ perch_spending_limit e;
  (** A strkey is the only spelling of its address, and the [hex] crate
      decodes hex text. *)
  from_str_inj s t a : address_from_str s = Some a → address_from_str t = Some a → s = t;
  hex_decodes s d : hex_decode s = Some d → hex_text s d;
}.

Lemma NoDup_omap_inj {A B} (f : A → option B) l x y v :
  NoDup (omap f l) → x ∈ l → y ∈ l → f x = Some v → f y = Some v → x = y.
Proof.
  induction l as [|z l IH]; intros Hnd Hx Hy Hfx Hfy; [by apply elem_of_nil in Hx|].
  cbn [omap list_omap] in Hnd. destruct (f z) as [w|] eqn:Hz.
  - apply NoDup_cons in Hnd as [Hw Hnd].
    assert (Hin : ∀ q, q ∈ l → f q = Some v → w ≠ v).
    { intros q Hq Hfq ->. apply Hw, list_elem_of_omap. eauto. }
    apply elem_of_cons in Hx as [->|Hx], Hy as [->|Hy]; try done.
    + by rewrite Hz in Hfx; injection Hfx as ->; destruct (Hin y Hy Hfy).
    + by rewrite Hz in Hfy; injection Hfy as ->; destruct (Hin x Hx Hfx).
    + by apply IH.
  - apply elem_of_cons in Hx as [->|Hx], Hy as [->|Hy]; try congruence. by apply IH.
Qed.

Lemma NoDup_Forall2 {A B} (R : A → B → Prop) l k :
  Forall2 R l k → NoDup l →
  (∀ x y z, x ∈ l → y ∈ l → R x z → R y z → x = y) → NoDup k.
Proof.
  induction 1 as [|x z l k Hxz Hlk IH]; intros Hnd Hinj; [constructor|].
  apply NoDup_cons in Hnd as [Hx Hnd]. constructor.
  - intros Hz. apply list_elem_of_lookup in Hz as [i Hz].
    destruct (Forall2_lookup_r _ _ _ _ _ Hlk Hz) as (y & Hy & Hyz).
    apply list_elem_of_lookup_2 in Hy. apply Hx.
    rewrite (Hinj x y z); [done|left|by right|done|done].
  - apply IH; [done|]. intros a b c Ha Hb. apply Hinj; by right.
Qed.

Lemma hex_value_nib c n : hex_value c = Some n → nib c = Ok n ∧ (n < 16)%N.
Proof.
  unfold hex_value, nib, between. cbv zeta.
  repeat case_match; try done; intros [= <-];
    repeat match goal with H : (_ && _)%bool = true |- _ => apply andb_true_iff in H as [? ?] end;
    repeat match goal with H : (_ && _)%bool = false |- _ => apply andb_false_iff in H as [H|H] end;
    repeat match goal with
    | H : (_ <=? _)%N = true |- _ => apply N.leb_le in H
    | H : (_ <=? _)%N = false |- _ => apply N.leb_gt in H
    end; (split; [f_equal|]; lia).
Qed.

(** The compiler's own decoder reads every hex text. *)
Lemma hex_text_bytes s d : hex_text s d → hex_bytes s = Ok d.
Proof.
  intros Ht. unfold hex_bytes.
  assert (Nat.odd (String.length s) = false ∧ hex_pairs s = Ok d) as [-> ?]; [|done].
  induction Ht as [|a b x y s d Ha Hb _ [IHo IHp]]; [done|]. split; [done|]. cbn [hex_pairs].
  apply hex_value_nib in Ha as [-> ?], Hb as [-> ?]. cbn [rbind]. rewrite IHp. cbn [rbind].
  by rewrite nibbles_byte.
Qed.

(** The interpreter installs every valid program under a new rule. *)
Lemma interpreter_installs `{H : Host} p :
  Program.validate (program p) = Ok tt →
  ∀ env st rule a, authorized env a = true → get_program st a (rule_id rule) = None →
    ∃ st', Interpreter.install env st p rule a = Ok st'.
Proof.
  intros Hv env st rule a Ha Hn. unfold Interpreter.install, require_auth. rewrite Ha, Hv.
  unfold get_program in Hn. cbn [demand rbind is_ok negb refuse_if].
  destruct (persistent_has st (a, rule_id rule)) eqn:Hh.
  { apply persistent_has_get in Hh as [x Hx]. congruence. }
  cbn [refuse_if rbind]. unfold persistent_extend_ttl, persistent_set. rewrite lookup_insert_eq.
  by eexists.
Qed.

Section installs.
Context {H : Host} {I : Infra} {V : Values} {Oz : OZ} {O : AccountOutside} {OA : OzAccount}.
Context {OL : OzLaws} {HC : HexCodec} {JL : JsonLexer} {CL : CompilerLibs} {VF : Verifiers}.
Context {KB : KeyBound} {IL : InstallLaws}.

(** The signer a declaration compiles to. *)
Definition compiled_signer (s : SignerDecl) : result DocCompilerError Signer :=
  to_compiled_signer (lower_method (signer_method s)).

(** Declarations that compile to one signer have one identity. *)
Lemma compiled_signer_identity s t x :
  wf_signer s → wf_signer t → compiled_signer s = Ok x → compiled_signer t = Ok x →
  ∃ i, identity s = Some i ∧ identity t = Some i.
Proof.
  unfold wf_signer, compiled_signer, identity. intros [_ Hs] [_ Ht].
  destruct (signer_method s) as [vs ks|ads], (signer_method t) as [vt kt|adt]; simpl;
    intros E1 E2.
  - destruct Hs as (_ & ds & Hds & _), Ht as (_ & dt & Hdt & _).
    apply rbind_Ok in E1 as (a & Ha%or_panic_Ok & E1), E2 as (b & Hb%or_panic_Ok & E2).
    rewrite (hex_text_bytes _ _ (hex_decodes _ _ Hds)) in E1.
    rewrite (hex_text_bytes _ _ (hex_decodes _ _ Hdt)) in E2.
    injection E1 as <-. injection E2 as <- <-.
    rewrite Hds, Hdt, (from_str_inj _ _ _ Ha Hb). by eexists.
  - apply rbind_Ok in E1 as (a & _ & E1). apply rbind_Ok in E1 as (k & _ & [= <-]).
    by apply rbind_Ok in E2 as (b & _ & [=]).
  - apply rbind_Ok in E2 as (a & _ & E2). apply rbind_Ok in E2 as (k & _ & [= <-]).
    by apply rbind_Ok in E1 as (b & _ & [=]).
  - apply rbind_Ok in E1 as (a & Ha%or_panic_Ok & [= <-]), E2 as (b & Hb%or_panic_Ok & [= <-]).
    rewrite (from_str_inj _ _ _ Ha Hb). by eexists.
Qed.

(** The signer ids of a rule, compiled. *)
Definition id_compiles (doc : PolicyDoc) (id : string) (x : Signer) : Prop :=
  ∃ s, s ∈ doc_signers doc ∧ signer_id s = id ∧ compiled_signer s = Ok x.

Lemma lowered_ids doc rule ids specs signers :
  lower_signers doc rule ids = Ok specs →
  Forall2 (λ s x, to_compiled_signer s = Ok x) specs signers →
  Forall2 (id_compiles doc) ids signers.
Proof.
  intros Hl%mapM_result_Ok Hs. revert signers Hs.
  induction Hl as [|id spec ids specs Hid Hl IH]; intros signers Hs.
  - inversion Hs. constructor.
  - inversion Hs as [|? x ? xs Hx Hxs]; subst. constructor; [|by apply IH].
    apply rbind_Ok in Hid as (decl & Hf%ok_or_Ok & [= <-]).
    apply find_first_Some in Hf as [Hin Hid%String.eqb_eq]. by exists decl.
Qed.

(** ** Canonical keys *)

(** A batch only grows, and every declared key is in its verifier's. *)
Lemma batch_keys_grow l : ∀ m batches slots v b,
  batch_keys l m = Ok (batches, slots) → m !! v = Some b →
  ∃ b', batches !! v = Some b' ∧ b ⊆ b'.
Proof.
  induction l as [|s l IH]; intros m batches slots v b; cbn [batch_keys].
  { intros [= <- _] Hb. by exists b. }
  destruct (signer_method s) as [ver key|address].
  - intros (va & _ & E)%rbind_Ok Hb. apply rbind_Ok in E as (k & _ & E).
    apply rbind_Ok in E as ([m' sl] & E & [= <- _]).
    destruct (decide (v = va)) as [<-|Hne].
    + destruct (IH _ _ _ v (default [] (m !! v) ++ [k]) E) as (b' & ? & Hs); [by rewrite lookup_insert_eq|].
      exists b'. split; [done|]. rewrite Hb in Hs. simpl in Hs. set_solver.
    + eapply IH; [exact E|]. by rewrite lookup_insert_ne by done.
  - intros (va & _ & E)%rbind_Ok Hb. apply rbind_Ok in E as ([m' sl] & E & [= <- _]). by eapply IH.
Qed.

Lemma batch_keys_all l : ∀ m batches slots s v key,
  batch_keys l m = Ok (batches, slots) → s ∈ l → signer_method s = External v key →
  ∃ va k b, to_address v = Ok va ∧ hex_bytes key = Ok k ∧ batches !! va = Some b ∧ k ∈ b.
Proof.
  induction l as [|t l IH]; intros m batches slots s v key; cbn [batch_keys];
    [by intros _ ?%elem_of_nil|].
  intros E Hs Hm. apply elem_of_cons in Hs as [<-|Hs].
  - rewrite Hm in E. apply rbind_Ok in E as (va & Ha & E). apply rbind_Ok in E as (k & Hk & E).
    apply rbind_Ok in E as ([m' sl] & E & [= <- _]).
    destruct (batch_keys_grow _ _ _ _ va (default [] (m !! va) ++ [k]) E) as (b & Hb & Hsub);
      [by rewrite lookup_insert_eq|]. exists va, k, b. split_and!; [done..|]. set_solver.
  - destruct (signer_method t) as [vt kt|at'].
    + apply rbind_Ok in E as (va & Ha & E). apply rbind_Ok in E as (k & Hk & E).
      apply rbind_Ok in E as ([m' sl] & E & [= <- _]). by eapply IH.
    + apply rbind_Ok in E as (va & Ha & E). apply rbind_Ok in E as ([m' sl] & E & [= <- _]).
      by eapply IH.
Qed.

(** Where the compiler accepts the credentials, every compiled signer is its
    own canonical form. *)
Lemma compiled_signer_canonical l creds s x :
  canonical_credentials l = Ok creds → s ∈ l → compiled_signer s = Ok x →
  canonical_signer x = Some x.
Proof.
  unfold canonical_credentials, compiled_signer. intros ([batches slots] & E & Hc)%rbind_Ok Hs.
  apply rbind_Ok in Hc as (canonical & Hc%mapM_result_Ok & _).
  destruct (signer_method s) as [v key|a] eqn:Hm; simpl.
  - destruct (batch_keys_all _ _ _ _ _ _ _ E Hs Hm) as (va & k & b & -> & -> & Hb & Hk).
    intros [= <-]. simpl. apply elem_of_map_to_list in Hb.
    apply list_elem_of_lookup in Hb as [i Hb].
    destruct (Forall2_lookup_l _ _ _ _ _ Hc Hb) as ([va' keys] & _ & Hcb).
    unfold canonical_batch in Hcb. apply rbind_Ok in Hcb as (ks & Hks%ok_or_Ok & Hcb).
    apply rbind_Ok in Hcb as (u & _ & Hcb).
    apply rbind_Ok in Hcb as (u' & Heq%refuse_if_Ok%negb_false_iff%bool_decide_eq_true & _).
    subst ks. rewrite batch_in_order in Hks. apply mapM_Some in Hks.
    apply list_elem_of_lookup in Hk as [n Hk].
    by rewrite (Forall2_lookup_lr _ _ _ _ _ _ Hks Hk Hk).
  - intros (a' & _ & [= <-])%rbind_Ok. done.
Qed.

Lemma compiled_signer_fits s x : wf_signer s → compiled_signer s = Ok x → key_fits x.
Proof.
  unfold compiled_signer. intros [_ Hw]. destruct (signer_method s) as [v key|a]; simpl.
  - destruct Hw as (_ & d & Hd & Hl). intros (va & _ & E)%rbind_Ok.
    rewrite (hex_text_bytes _ _ (hex_decodes _ _ Hd)) in E. injection E as <-. simpl.
    unfold MAX_SIGNER_KEY_LEN in Hl. pose proof key_room. lia.
  - by intros (a' & _ & [= <-])%rbind_Ok.
Qed.

Lemma rule_signers_ok doc ids signers creds :
  wf_doc doc → wf_refs ids (declared_ids doc) → too_large doc = false →
  canonical_credentials (doc_signers doc) = Ok creds →
  Forall2 (id_compiles doc) ids signers → signers_ok signers ∧ signers ≠ [].
Proof.
  intros (_ & Hws & _ & Hnd & _) (Hne & Hids & Hdecl) Hlarge Hcr Hf.
  pose proof (Forall2_length _ _ _ Hf) as Hlen. rewrite Forall_forall in Hws.
  split; [apply (signers_install signers signers)|].
  - etransitivity; [|apply max_signers_room]. unfold too_large in Hlarge.
    apply orb_false_iff in Hlarge as [[Hn%N.ltb_ge _]%orb_false_iff _].
    rewrite <- Hlen. etransitivity; [|exact Hn].
    assert (length ids ≤ length (declared_ids doc)); [|unfold declared_ids in *; rewrite length_fmap in *; lia].
    apply submseteq_length, NoDup_submseteq; [done|]. by rewrite <- Forall_forall.
  - apply Forall_lookup. intros i x Hx.
    destruct (Forall2_lookup_r _ _ _ _ _ Hf Hx) as (id & _ & s & Hs & _ & Hsx).
    by eapply compiled_signer_fits; [apply Hws|].
  - apply mapM_Some, Forall2_same_length_lookup. split; [done|]. intros i x y Hx Hy.
    rewrite Hx in Hy. injection Hy as <-.
    destruct (Forall2_lookup_r _ _ _ _ _ Hf Hx) as (id & _ & s & Hs & _ & Hsx).
    by eapply compiled_signer_canonical.
  - eapply NoDup_Forall2; [exact Hf|done|]. intros i j x _ _ (s & Hs & <- & Hsx) (t & Ht & <- & Htx).
    destruct (compiled_signer_identity s t x) as (v & Hv & Hv'); [by apply Hws..|done|done|].
    f_equal. by eapply NoDup_omap_inj.
  - intros ->. destruct ids; [done|discriminate Hlen].
Qed.

Lemma build_program_valid rule m p :
  build_program rule m = Ok p → Program.validate p = Ok tt.
Proof.
  unfold build_program. intros (? & _ & E)%rbind_Ok. apply rbind_Ok in E as (? & _ & E).
  destruct (Program.validate _) as [[]| |] eqn:Hv; [|done..]. by injection E as <-.
Qed.

(** The parts of a rule that compiles. *)
Lemma compiled_rule_Ok doc rule lr cr creds :
  wf_doc doc → wf_rule (declared_ids doc) rule → too_large doc = false →
  canonical_credentials (doc_signers doc) = Ok creds →
  lower_rule doc rule = Ok lr → to_compiled lr = Ok cr →
  cr_name cr = rule_name rule ∧ signers_ok (cr_signers cr) ∧ cr_signers cr ≠ [] ∧
  (∀ p, head (cr_install cr) = Some p → Program.validate (program p) = Ok tt) ∧
  (∀ c, head (cr_cap cr) = Some c → (0 < spending_limit c)%Z ∧ (0 < period_ledgers c)%N).
Proof.
  intros Hwf (_ & Hpr & _ & _ & _ & Hcap) Hlarge Hcr.
  unfold lower_rule. intros ([ids m] & Hids & E)%rbind_Ok.
  apply rbind_Ok in E as (specs & Hspecs & E). apply rbind_Ok in E as (cap & Hc & E).
  apply rbind_Ok in E as (install & Hi & E). apply rbind_Ok in E as (until & _ & [= <-]).
  unfold to_compiled. intros (scope & _ & E)%rbind_Ok.
  apply rbind_Ok in E as (signers & Hs%mapM_result_Ok & [= <-]). cbn [cr_name cr_signers cr_install cr_cap lr_install lr_cap lr_signers lr_name] in *.
  assert (wf_refs ids (declared_ids doc)) as Hrefs.
  { destruct (rule_principals rule); simplify_eq/=; [done|apply Hpr]. }
  destruct (rule_signers_ok doc ids signers creds Hwf Hrefs Hlarge Hcr) as [? ?];
    [by eapply lowered_ids|]. split_and!; try done.
  - intros p. destruct install as [q|]; [|done]. intros [= <-].
    case_match; [done|]. apply rbind_Ok in Hi as (prog & Hp & [= <-]).
    by eapply build_program_valid.
  - intros c. unfold lower_cap in Hc. destruct (rule_cap rule) as [rc|]; [|by injection Hc as <-].
    apply rbind_Ok in Hc as (limit & Hl%ok_or_Ok & [= <-]). intros [= <-].
    destruct (Hcap rc eq_refl) as ((v & Hv & Hpos) & Hper & _). simpl.
    rewrite Hl in Hv. injection Hv as <-. split; [done|lia].
Qed.

Lemma name_fits doc r :
  too_large doc = false → r ∈ doc_rules doc → (slen (rule_name r) ≤ MAX_NAME_SIZE)%N.
Proof.
  intros [_ Hn]%orb_false_iff Hr. apply N.le_ngt. intros Hlt.
  assert (existsb (λ r, MAX_RULE_NAME_BYTES <? slen (rule_name r))%N (doc_rules doc) = true);
    [|congruence].
  apply existsb_exists. exists r. split; [by apply list_elem_of_In|]. by apply N.ltb_lt.
Qed.

(** The rules, from the document's to the compiled ones. *)
Lemma compiled_rules_from doc c plan :
  compile doc (zeros 32) = Ok plan →
  Forall2 (λ lr r, to_compiled lr = Ok r) (plan_rules plan) (cd_rules c) →
  Forall2 (λ rule cr, ∃ lr, lower_rule doc rule = Ok lr ∧ to_compiled lr = Ok cr)
    (doc_rules doc) (cd_rules c).
Proof.
  intros (lrs & Hl%mapM_result_Ok & [= <-])%rbind_Ok Hr. simpl in Hr.
  apply Forall2_same_length_lookup. split.
  - by rewrite (Forall2_length _ _ _ Hl), (Forall2_length _ _ _ Hr).
  - intros i rule cr Hi Hcr. destruct (Forall2_lookup_l _ _ _ _ _ Hl Hi) as (lr & Hlr & ?).
    exists lr. split; [done|]. by eapply (Forall2_lookup_lr _ _ _ _ _ _ Hr Hlr Hcr).
Qed.

Lemma compiled_installable e j c :
  compile_doc e j = Ok c →
  (∀ r, head (cd_recovery c) = Some r →
     installs (cf_controller r) (hash_into_val (cf_config_hash r))) →
  compiled_ok e c.
Proof.
  intros (doc & _ & Hc)%compile_doc_Ok Hctl.
  apply compile_parsed_Ok in Hc as (net & plan & creds & Hwf & _ & _ & Hlarge & Hplan & Hrules &
    _ & _ & Hcreds & _).
  pose proof (compiled_rules_from doc c plan Hplan Hrules) as Hf. clear Hplan Hrules.
  pose proof Hwf as (_ & _ & _ & _ & Hru & Hnames & _). rewrite Forall_forall in Hru.
  assert (Hone : ∀ i rule cr, doc_rules doc !! i = Some rule → cd_rules c !! i = Some cr →
    cr_name cr = rule_name rule ∧ rule_accepted e cr).
  { intros i rule cr Hi Hcr.
    destruct (Forall2_lookup_lr _ _ _ _ _ _ Hf Hi Hcr) as (lr & Hl & Hcr').
    apply list_elem_of_lookup_2 in Hi. destruct (Hru rule Hi) as [_ Hwr].
    destruct (compiled_rule_Ok doc rule lr cr creds Hwf Hwr Hlarge Hcreds Hl Hcr') as (Hn & Hs & Hne & Hp & Hcap).
    split; [done|]. split_and!; try done.
    - apply names_install. rewrite Hn. by eapply name_fits.
    - intros p Hp'. by apply programs_install, interpreter_installs, Hp.
    - intros cp Hcp. apply caps_install; by apply Hcap. }
  split_and!.
  - apply Forall_lookup. intros i cr Hcr.
    destruct (Forall2_lookup_r _ _ _ _ _ Hf Hcr) as (rule & Hi & _). by eapply Hone.
  - assert (rule_name <$> doc_rules doc = cr_name <$> cd_rules c) as Hn.
    { clear -Hf Hone. apply list_eq. intros i. rewrite !list_lookup_fmap.
      destruct (doc_rules doc !! i) as [rule|] eqn:Hi.
      - destruct (Forall2_lookup_l _ _ _ _ _ Hf Hi) as (cr & Hcr & _). rewrite Hcr. simpl.
        by destruct (Hone i rule cr Hi Hcr) as [-> _].
      - apply lookup_ge_None in Hi. rewrite (Forall2_length _ _ _ Hf) in Hi.
        by apply lookup_ge_None in Hi as ->. }
    rewrite Hn in Hnames. apply (NoDup_fmap_1 fst). by rewrite <- list_fmap_compose.
  - intros r Hr. split_and!; [| |by apply Hctl].
    + apply names_install. etransitivity; [|apply recovery_name_room]. done.
    + by apply (signers_install [] []); [simpl; lia|constructor..].
  - apply policies_distinct.
  - apply max_policies_room.
Qed.
End installs.

Section claims.
Context {H : Host} {I : Infra} {V : Values} {Oz : OZ} {O : AccountOutside} {OA : OzAccount}.
Context {OL : OzLaws} {HC : HexCodec} {JL : JsonLexer} {CL : CompilerLibs} {VF : Verifiers}.
Context {KB : KeyBound} {IL : InstallLaws}.

(** C18: A document that compiles installs: every rule [compile_doc] returns has
    a name OpenZeppelin takes, at least one signer and no more than its limit,
    with keys within its bound that stay distinct when their verifiers
    canonicalize them, at most one program, valid, and at most one cap, positive; no two
    rules share a slot; so, when the recovery controller accepts its
    configuration, [compiled_ok] holds and [apply_rules] installs exactly
    these rules whatever was installed before. *)
Theorem compiled_document_installs e j c w mode :
  compile_doc e j = Ok c →
  (∀ r, head (cd_recovery c) = Some r →
     installs (cf_controller r) (hash_into_val (cf_config_hash r))) →
  recorded w → total_weight (desired e c).1 ≤ ids_left (rule_store w) →
  compiled_ok e c ∧
  ∃ delta w', apply_rules e c mode w = Ok (delta, w') ∧ holds_document e c w'.
Proof.
  intros Hc Hctl Hrec Hw. pose proof (compiled_installable e j c Hc Hctl) as Hok.
  split; [done|]. destruct (apply_rules_total e c mode w Hrec) as (delta & w' & E); [done|].
  exists delta, w'. split; [done|]. by eapply apply_rules_Ok.
Qed.
End claims.
