(* ===== verification/CompilerDemo.v ===== *)
(** * The compiler, run

    A document with one administrator and guardian recovery is compiled on a
    concrete host, a lost key is replaced, and the account of [AccountDemo]
    installs the result: the hypotheses of the compiler's theorems hold
    together. *)

From S2P Require Import Prelude Host Program Doc Canon Parse ParseFacts RoundTrip Utf8 Validate RecoveryDoc Compile RecoveryIface CompilerIface DocCompiler DocCompilerFacts CompilerTotal Rules RulesFacts RulesRun RulesCost RulesDemo Account AccountFacts AccountRuns AccountSafety AccountAdmin AccountDemo CompilerAccount.
#[local] Open Scope string_scope.
#[local] Open Scope list_scope.

#[local] Existing Instance ReadableHost.
#[local] Existing Instance DemoOZ.
#[local] Existing Instance DemoOzLaws.
#[local] Existing Instance DemoInfra.
#[local] Existing Instance DemoValues.
#[local] Existing Instance DemoOutside.
#[local] Existing Instance DemoHex.

(** ** Instances *)

(** The reader of JSON texts, refusing invalid strings. *)
Definition valid_lexer_read (s : string) : option Value :=
  match read_json s with
  | Some v => if value_ok v then Some v else None
  | None => None
  end.

#[local] Instance ValidLexer : JsonLexer.
Proof.
  refine {| exactly_one _ s := valid_lexer_read s |}. intros d t v Hj _ Hok.
  unfold valid_lexer_read. by rewrite (read_json_json d t v Hj), Hok.
Defined.

#[local] Instance valid_lexer_strings : LexerStrings.
Proof.
  intros depth s v. cbn [exactly_one ValidLexer]. unfold valid_lexer_read.
  destruct (read_json s) as [w|]; [|done]. destruct (value_ok w) eqn:Hw; [|done].
  by intros [= <-].
Qed.

Fixpoint demo_hex_encode (b : bytes) : string :=
  match b with
  | EmptyString => ""
  | String c b =>
      let n := N_of_ascii c in
      String (hex_digit (N.shiftr n 4)) (String (hex_digit (N.land n 15)) (demo_hex_encode b))
  end.

#[local] Instance DemoLibs : CompilerLibs := {|
  hex_encode := demo_hex_encode; address_to_string a := a; MAX_NAME_SIZE := 20;
  MAX_SIGNERS := 15 |}.

Lemma high_nibble c : (N.shiftr (N_of_ascii c) 4 < 16)%N.
Proof.
  pose proof (N_ascii_bounded c). rewrite N.shiftr_div_pow2. change (2 ^ 4)%N with 16%N.
  apply N.Div0.div_lt_upper_bound. lia.
Qed.

#[local] Instance demo_hex_utf8 : HexEncode.
Proof.
  intros b. apply utf8_valid_iff. cbn [hex_encode DemoLibs].
  induction b as [|c b IH]; cbn [demo_hex_encode]; [constructor|].
  apply utf8_1; [apply hex_digit_ascii, high_nibble|].
  apply utf8_1; [apply hex_digit_ascii, land_15|done].
Qed.

(** A verifier that keeps the first four bytes of a key, as the WebAuthn one
    drops what follows the public key. *)
#[local] Instance DemoVerifiers : Verifiers := λ _ keys, Some (map (substring 0 4) keys).
#[local] Instance DemoKeyBound : KeyBound := 256.

Lemma nibble_value c n : nibble c = Some n → hex_value c = Some n.
Proof.
  unfold nibble, hex_value, in_range, between. cbv zeta. repeat case_match; try done; intros [= <-];
    repeat match goal with H : (_ && _)%bool = true |- _ => apply andb_true_iff in H as [? ?] end;
    repeat match goal with H : (_ <=? _)%N = true |- _ => apply N.leb_le in H end;
    try (exfalso; lia); f_equal; lia.
Qed.

Lemma demo_hex_text n : ∀ s d, (String.length s ≤ n)%nat → demo_hex_decode s = Some d → hex_text s d.
Proof.
  induction n as [|n IH]; intros [|a [|b s]] d Hn Hd; try done; try (simpl in Hn; lia);
    try (injection Hd as <-; constructor).
  cbn [demo_hex_decode] in Hd. simpl in Hn.
  destruct (nibble a) as [x|] eqn:Ha; [|done]. destruct (nibble b) as [y|] eqn:Hb; [|done].
  destruct (demo_hex_decode s) as [r|] eqn:Hr; [|done]. injection Hd as <-.
  constructor; [by apply nibble_value..|]. apply IH; [lia|done].
Qed.

Lemma demo_canonical_key v k : canonicalize_key v k = Some (substring 0 4 k).
Proof. reflexivity. Qed.

Lemma NoDup_mapM_inv {A B} (f : A → option B) l k : mapM f l = Some k → NoDup k → NoDup l.
Proof.
  intros Hm%mapM_Some. induction Hm as [|x y l k Hxy Hlk IH]; [constructor|].
  intros [Hy Hnd]%NoDup_cons. constructor; [|by apply IH]. intros Hx. apply Hy.
  apply list_elem_of_lookup in Hx as [i Hx].
  destruct (Forall2_lookup_l _ _ _ _ _ Hlk Hx) as (y' & Hy' & E). rewrite Hxy in E.
  injection E as <-. by eapply list_elem_of_lookup_2.
Qed.

#[local] Instance demo_install_laws : InstallLaws.
Proof.
  split; try done.
  - intros l k Hl _ Hm Hnd. split; [by eapply NoDup_mapM_inv|]. cbn [MAX_SIGNERS DemoLibs] in Hl. lia.
  - intros v keys. unfold batch_canonicalize_key, DemoVerifiers. symmetry. apply mapM_Some.
    induction keys; simpl; constructor; [apply demo_canonical_key|done].
  - cbn [MAX_POLICIES DemoOZ]. lia.
  - intros s t a [= ->] [= ->]. done.
  - intros s d Hd. by apply (demo_hex_text (String.length s)).
Qed.

(** ** A document *)

Definition owner_key : string := CompileDemo.alice_key.
Definition new_key : string := CompileDemo.bob_key.

Definition owner_doc (key : string) : PolicyDoc := {|
  doc_version := 1; doc_network := Some "testnet";
  doc_signers := [{| signer_id := "owner"; signer_method := Delegated key |}];
  doc_rules := [{| rule_name := "admin"; rule_scope := Scope_SelfAdmin;
                   rule_principals := Principals_All ["owner"]; rule_functions := None;
                   rule_args := None; rule_not_after_ledger := None; rule_cap := None |};
                {| rule_name := "pay"; rule_scope := Scope_Contract CompileDemo.token;
                   rule_principals := Principals_All ["owner"];
                   rule_functions := Some ["transfer"];
                   rule_args := None; rule_not_after_ledger := None;
                   rule_cap := Some {| cap_token := None; cap_limit := "100";
                                       cap_period_ledgers := 10 |} |}];
  doc_recovery := Some {| profile := Loss;
    mode := GuardianOnly {| Doc.guardians := [owner_key]; Doc.quorum := 1 |};
    controller := CompileDemo.token; baseline := None; replaceable := ["owner"];
    delay_ledgers := 100; expiry_ledgers := 1000; max_cancels := 3 |} |}.

Definition owner_json : bytes := canonical_json (owner_doc owner_key).

Definition on_testnet : Env := {|
  sequence := 10; network_id := "testnet"; current_contract_address := demo_account;
  authorized _ := true; authorized_for_args _ _ := true;
  max_ttl := 1000; min_persistent_ttl := 10; min_temp_ttl := 10 |}.

Definition a_ledger_later : Env := {|
  sequence := 11; network_id := "testnet"; current_contract_address := "CELSEWHERE";
  authorized _ := false; authorized_for_args _ _ := false;
  max_ttl := 1000; min_persistent_ttl := 10; min_temp_ttl := 10 |}.

Definition compiled : CompiledDoc :=
  match compile_doc on_testnet owner_json with
  | Ok c => c
  | _ => {| cd_doc_hash := ""; cd_canonical := ""; cd_fingerprints := []; cd_rules := [];
            cd_recovery := [] |}
  end.

Lemma compiled_is : compile_doc on_testnet owner_json = Ok compiled.
Proof. vm_compute. reflexivity. Qed.

(** The same document, compiled a ledger later. *)
Definition compiled_later : CompiledDoc :=
  match compile_doc a_ledger_later owner_json with
  | Ok c => c
  | _ => {| cd_doc_hash := ""; cd_canonical := ""; cd_fingerprints := []; cd_rules := [];
            cd_recovery := [] |}
  end.

Lemma compiled_later_is : compile_doc a_ledger_later owner_json = Ok compiled_later.
Proof. vm_compute. reflexivity. Qed.

Lemma compiled_later_hash : cd_doc_hash compiled_later = cd_doc_hash compiled.
Proof. vm_compute. reflexivity. Qed.

Definition lost_key : ReplacementSet := {|
  rset_signers := [{| rp_signer_id := "owner"; rp_credential := Credential_Delegated new_key |}];
  rset_zk_enrollment := [] |}.

Definition target : DerivedTarget :=
  match derive_target on_testnet owner_json owner_json Action_LostKey lost_key with
  | Ok t => t
  | _ => {| dt_canonical := ""; dt_doc_hash := ""; dt_config_hash := ""; dt_fingerprints := [];
            dt_replaced := [] |}
  end.

Lemma target_is :
  derive_target on_testnet owner_json owner_json Action_LostKey lost_key = Ok target.
Proof. vm_compute. reflexivity. Qed.

(** The target is the owner's document with the new key. *)
Example target_canonical : dt_canonical target = canonical_json (owner_doc new_key).
Proof. vm_compute. reflexivity. Qed.

(** ** Witnesses *)

Lemma hash_identifies_document_witness : compiled_later = compiled.
Proof.
  exact (hash_identifies_document (H := ReadableHost) (λ x y E, E) a_ledger_later
    on_testnet owner_json owner_json compiled_later compiled eq_refl compiled_later_is compiled_is
    compiled_later_hash).
Defined.

Lemma derived_target_applies_witness :
  ∃ c, compile_doc on_testnet (dt_canonical target) = Ok c ∧ cd_canonical c = dt_canonical target ∧
    cd_doc_hash c = dt_doc_hash target ∧ cd_fingerprints c = dt_fingerprints target ∧
    admin_survives (cd_rules c) = true ∧
    ∃ r, head (cd_recovery c) = Some r ∧ cf_config_hash r = dt_config_hash target.
Proof.
  exact (derived_target_applies on_testnet owner_json owner_json Action_LostKey lost_key target
    target_is).
Defined.

(** A document with a passkey, spelled with a suffix or without. *)
Definition passkey_doc (key : string) : PolicyDoc := {|
  doc_version := 1; doc_network := Some "testnet";
  doc_signers := [{| signer_id := "owner"; signer_method := Delegated owner_key |};
                  {| signer_id := "key"; signer_method := External CompileDemo.token key |}];
  doc_rules := [{| rule_name := "admin"; rule_scope := Scope_SelfAdmin;
                   rule_principals := Principals_All ["owner"; "key"]; rule_functions := None;
                   rule_args := None; rule_not_after_ledger := None; rule_cap := None |}];
  doc_recovery := None |}.

Example suffix_refused :
  compile_parsed on_testnet (passkey_doc "0102030405") = Err KeyNotCanonicalizable.
Proof. vm_compute. reflexivity. Qed.

Definition passkey_json : bytes := canonical_json (passkey_doc "01020304").
Definition passkey_compiled : CompiledDoc :=
  match compile_doc on_testnet passkey_json with
  | Ok c => c
  | _ => {| cd_doc_hash := ""; cd_canonical := ""; cd_fingerprints := []; cd_rules := [];
            cd_recovery := [] |}
  end.
Lemma passkey_compiled_is : compile_doc on_testnet passkey_json = Ok passkey_compiled.
Proof. vm_compute. reflexivity. Qed.

Lemma compiled_document_installs_witness :
  compiled_ok on_testnet passkey_compiled ∧
  ∃ delta w', apply_rules on_testnet passkey_compiled Mode_Cheapest born = Ok (delta, w') ∧
    holds_document on_testnet passkey_compiled w'.
Proof.
  apply (compiled_document_installs on_testnet passkey_json passkey_compiled born Mode_Cheapest
    passkey_compiled_is).
  - intros r _. exact Logic.I.
  - exact born_recorded.
  - vm_compute. lia.
Defined.
