(* ===== verification/Controller.v ===== *)
(** * perch-recovery: the recovery controller

    Models [crates/perch-recovery/src]: the records of [types.rs], the typed
    storage of [storage.rs], and every entry point and helper of
    [contract.rs], events, storage lifetimes and calls to other contracts
    included.

    An invocation runs in the state-and-error monad [M]: it reads and writes a
    [World] (the controller's storage, the rest of the chain, the events
    published) and a refusal or a trap keeps none of its writes.  The
    contracts a controller calls are whatever lives at the addresses it is
    given, so their answers are the class [Outside]: a state the controller
    cannot see into, its views, and [rcv_gate], the one call that changes it.
    The host refuses to re-enter a contract on the call stack, so a call
    outside never changes the controller's storage. *)

From S2P Require Import Prelude Host Program RecoveryIface CompilerIface.
#[local] Open Scope string_scope.
#[local] Open Scope list_scope.

(** ** [types.rs] *)

Inductive EvidenceDomain : Type := Domain_Initiate | Domain_Cancel.

Record ActivityGate : Type := {
  authorized_attempt : option N;
  frozen : bool;
  until : N;
}.

Inductive AttemptState : Type :=
| State_Collecting | State_Authorized | State_Completed | State_Cancelled | State_Invalidated.

Global Instance AttemptState_eq_dec : EqDecision AttemptState.
Proof. solve_decision. Defined.

Record CompletionMarker : Type := {
  mk_attempt_id : N;
  mk_target_doc_hash : bytes;
  mk_ledger : N;
}.

Section types.
Context {H : Host}.

Record Attempt : Type := {
  at_id : N;
  at_action : RecoveryAction;
  at_epoch : N;
  created_at : N;
  evidence_deadline : N;
  cancel_until : N;
  authorized_at : N;
  executable_after : N;
  expires_at : N;
  at_source_doc_hash : bytes;
  at_target_doc_hash : bytes;
  target_bytes_hash : bytes;
  target_config_hash : bytes;
  at_replacements_hash : bytes;
  at_replaced : list Credential;
  at_state : AttemptState;
  at_guardians : list Address;
  zk_nullifier : option bytes;
  cancel_guardians : list Address;
  cancel_zk : bool;
}.

Record ChangeApproval : Type := {
  ca_guardians : list Address;
  ca_zk : bool;
}.

Definition ChangeApproval_empty : ChangeApproval := {| ca_guardians := []; ca_zk := false |}.

(** The assignments the code makes to an attempt's fields. *)
Definition with_state (a : Attempt) (s : AttemptState) : Attempt := {|
  at_id := at_id a; at_action := at_action a; at_epoch := at_epoch a;
  created_at := created_at a; evidence_deadline := evidence_deadline a;
  cancel_until := cancel_until a; authorized_at := authorized_at a;
  executable_after := executable_after a; expires_at := expires_at a;
  at_source_doc_hash := at_source_doc_hash a; at_target_doc_hash := at_target_doc_hash a;
  target_bytes_hash := target_bytes_hash a; target_config_hash := target_config_hash a;
  at_replacements_hash := at_replacements_hash a; at_replaced := at_replaced a;
  at_state := s; at_guardians := at_guardians a; zk_nullifier := zk_nullifier a;
  cancel_guardians := cancel_guardians a; cancel_zk := cancel_zk a |}.

Definition with_windows (a : Attempt) (now executable expires : N) : Attempt := {|
  at_id := at_id a; at_action := at_action a; at_epoch := at_epoch a;
  created_at := created_at a; evidence_deadline := evidence_deadline a;
  cancel_until := cancel_until a; authorized_at := now;
  executable_after := executable; expires_at := expires;
  at_source_doc_hash := at_source_doc_hash a; at_target_doc_hash := at_target_doc_hash a;
  target_bytes_hash := target_bytes_hash a; target_config_hash := target_config_hash a;
  at_replacements_hash := at_replacements_hash a; at_replaced := at_replaced a;
  at_state := at_state a; at_guardians := at_guardians a; zk_nullifier := zk_nullifier a;
  cancel_guardians := cancel_guardians a; cancel_zk := cancel_zk a |}.

Definition with_evidence (a : Attempt) (gs : list Address) (n : option bytes)
    (cgs : list Address) (cz : bool) : Attempt := {|
  at_id := at_id a; at_action := at_action a; at_epoch := at_epoch a;
  created_at := created_at a; evidence_deadline := evidence_deadline a;
  cancel_until := cancel_until a; authorized_at := authorized_at a;
  executable_after := executable_after a; expires_at := expires_at a;
  at_source_doc_hash := at_source_doc_hash a; at_target_doc_hash := at_target_doc_hash a;
  target_bytes_hash := target_bytes_hash a; target_config_hash := target_config_hash a;
  at_replacements_hash := at_replacements_hash a; at_replaced := at_replaced a;
  at_state := at_state a; at_guardians := gs; zk_nullifier := n;
  cancel_guardians := cgs; cancel_zk := cz |}.

(** The events [contract.rs] publishes. *)
Inductive Event : Type :=
| AttemptBegun (account : Address) (attempt_id : N) (action : RecoveryAction)
    (target_doc_hash : bytes)
| Event_AttemptAuthorized (account : Address) (attempt_id executable_after expires_at : N)
| AttemptInvalidated (account : Address) (attempt_id : N)
| AttemptCancelled (account : Address) (attempt_id : N) (counted : bool)
| RecoveryCompleted (account : Address) (attempt_id : N) (target_doc_hash : bytes)
| EpochAdvanced (account : Address) (epoch : N) (config_hash : option bytes)
| ChangeEvidenceRecorded (account : Address) (digest : bytes).
End types.

(** ** The rest of the chain

    What the controller's calls to other contracts return, in a given state
    of the chain.  [None] is a call that traps ([applied_doc] and the other
    plain calls) or a failed [try_] call. *)
Class Outside `{H : Host} : Type := {
  OutState : Type;
  (** [RecoveryAccountClient]. *)
  applied_doc : OutState → Address → option (option bytes);
  applied_doc_hash : OutState → Address → option (option bytes);
  doc_compiler : OutState → Address → option Address;
  is_revoked : OutState → Address → bytes → option bool;
  is_enrolled_id : OutState → Address → bytes → option bool;
  (** [rcv_gate(attempt_id, frozen_until)], called by the controller. *)
  rcv_gate : Address → OutState → Address → N → N → option OutState;
  (** [DocCompilerClient]: the inner and the outer error are both [None]. *)
  try_compile_doc : OutState → Address → bytes → option CompiledDoc;
  try_derive_target : OutState → Address → bytes → bytes → RecoveryAction →
    ReplacementSet → option DerivedTarget;
  (** [ZkAdapterClient] and [MembershipPoolClient]. *)
  try_verify : OutState → Address → RecoveryStatement → ZkBinding → ZkEvidence → bool;
  try_circuit_id : OutState → Address → option bytes;
  try_tree_depth : OutState → Address → option N;
  pool_try_depth : OutState → Address → option N;
}.

(** ** [storage.rs]

    One typed map per field of [RecoveryStorage], persistent or temporary. *)

Inductive field : Type :=
| Fconfig | Fepoch | Fnext_attempt | Finvalidate_below | Fauthorized | Fcancels
| Fattempt | Fcollecting | Fcompleting | Fnullifier | Fapproval | Fbaseline.

Global Instance field_eq_dec : EqDecision field.
Proof. solve_decision. Defined.

Definition temporary (f : field) : bool :=
  match f with Fcollecting | Fcompleting => true | _ => false end.

Section storage.
Context {H : Host}.

Definition fkey (f : field) : Type :=
  match f with
  | Fconfig | Fepoch | Fnext_attempt | Finvalidate_below | Fauthorized | Fcancels
  | Fcompleting => Address
  | Fattempt | Fcollecting => Address * N
  | Fnullifier | Fapproval | Fbaseline => Address * bytes
  end.

Definition fval (f : field) : Type :=
  match f with
  | Fconfig => CompiledRecoveryConfig
  | Fepoch | Fnext_attempt | Finvalidate_below | Fauthorized | Fcancels => N
  | Fattempt | Fcollecting => Attempt
  | Fcompleting => CompletionMarker
  | Fnullifier => bool
  | Fapproval => ChangeApproval
  | Fbaseline => bytes
  end.

Global Instance fkey_eq_dec f : EqDecision (fkey f).
Proof. destruct f; apply _. Defined.
Global Instance fkey_countable f : Countable (fkey f).
Proof. destruct f; apply _. Defined.

(** The account an entry belongs to. *)
Definition owner (f : field) : fkey f → Address :=
  match f with
  | Fconfig | Fepoch | Fnext_attempt | Finvalidate_below | Fauthorized | Fcancels
  | Fcompleting => λ a, a
  | Fattempt | Fcollecting => fst
  | Fnullifier | Fapproval | Fbaseline => fst
  end.

Definition RecoveryStorage : Type := ∀ f, gmap (fkey f) (entry (fval f)).

Definition update (f : field) (m : gmap (fkey f) (entry (fval f)))
    (st : RecoveryStorage) : RecoveryStorage :=
  λ g, match decide (f = g) with
       | left E => eq_rect f (λ g, gmap (fkey g) (entry (fval g))) m g E
       | right _ => st g
       end.
End storage.

Section contract.
Context {H : Host} {O : Outside}.

Record World : Type := {
  storage : RecoveryStorage;
  outside : OutState;
  events : list Event;
}.

(** ** The monad of an invocation *)

Definition M (A : Type) : Type := World → result RecoveryError (A * World).

Global Instance M_ret : MRet M := λ A a w, Ok (a, w).
Global Instance M_bind : MBind M := λ A B k c w,
  match c w with
  | Ok (a, w) => k a w
  | Err e => Err e
  | Panic => Panic
  end.

Definition lift {A} (c : result RecoveryError A) : M A :=
  λ w, match c with Ok a => Ok (a, w) | Err e => Err e | Panic => Panic end.
Definition fail {A} (err : RecoveryError) : M A := λ w, Err err.
Definition refuse (b : bool) (err : RecoveryError) : M unit := lift (refuse_if b err).

(** A call to another contract's view. *)
Definition view {A} (f : OutState → A) : M A := λ w, Ok (f (outside w), w).
Definition call {A} (f : OutState → option A) : M A :=
  x ← view f; lift (or_panic x).

Definition publish (ev : Event) : M unit :=
  λ w, Ok (tt, {| storage := storage w; outside := outside w; events := events w ++ [ev] |}).

Definition put_storage (st : RecoveryStorage) : M unit :=
  λ w, Ok (tt, {| storage := st; outside := outside w; events := events w |}).

Definition is_some {A} (o : option A) : bool :=
  match o with Some _ => true | None => false end.

(** Every function of the contract runs in the environment [e] of its
    invocation. *)
Context (e : Env).

(** The accessors [#[contractstorage]] generates. *)
Definition fget (f : field) (k : fkey f) (st : RecoveryStorage) : option (fval f) :=
  if temporary f then temporary_get e (st f) k else persistent_get (st f) k.
Definition get (f : field) (k : fkey f) : M (option (fval f)) :=
  λ w, Ok (fget f k (storage w), w).
Definition has (f : field) (k : fkey f) : M bool :=
  λ w, Ok (is_some (fget f k (storage w)), w).
Definition fset (f : field) (k : fkey f) (v : fval f) (st : RecoveryStorage) : RecoveryStorage :=
  update f (if temporary f then temporary_set e (st f) k v
            else persistent_set e (st f) k v) st.
Definition set (f : field) (k : fkey f) (v : fval f) : M unit :=
  λ w, put_storage (fset f k v (storage w)) w.
Definition remove (f : field) (k : fkey f) : M unit :=
  λ w, put_storage (update f (delete k (storage w f)) (storage w)) w.
Definition extend_ttl (f : field) (k : fkey f) (threshold extend_to : N) : M unit := λ w,
  (m ← lift (if temporary f then temporary_extend_ttl e (storage w f) k threshold extend_to
             else persistent_extend_ttl e (storage w f) k threshold extend_to);
   put_storage (update f m (storage w))) w.

(** ** State helpers *)

Definition max_ttl : N := storage_max_ttl e.

(** [fn add]. *)
Definition add (a b : N) : result RecoveryError N := ok_or (checked_add32 a b) LedgerOverflow.

Definition require_config (account : Address) : M CompiledRecoveryConfig :=
  c ← get Fconfig account; lift (ok_or c NotEnrolled).

Definition epoch_of (account : Address) : M N :=
  n ← get Fepoch account; mret (default 0%N n).

Definition bump_epoch (account : Address) : M N :=
  now ← epoch_of account;
  next ← lift (u64_add now 1);
  set Fepoch account next;;
  extend_ttl Fepoch account max_ttl max_ttl;;
  mret next.

Definition store_config (account : Address) (c : CompiledRecoveryConfig) : M unit :=
  set Fconfig account c;;
  extend_ttl Fconfig account max_ttl max_ttl;;
  epoch ← bump_epoch account;
  publish (EpochAdvanced account epoch (Some (cf_config_hash c))).

Definition store_approval (account : Address) (digest : bytes) (record : ChangeApproval)
    (valid_until : N) : M unit :=
  let key := (account, digest) in
  set Fapproval key record;;
  let live_for :=
    N.min (saturating_add32 (saturating_sub valid_until (sequence e)) 1) max_ttl in
  extend_ttl Fapproval key live_for live_for;;
  publish (ChangeEvidenceRecorded account digest).

Definition load (account : Address) (attempt_id : N) : M (option Attempt) :=
  let key := (account, attempt_id) in
  p ← get Fattempt key;
  match p with
  | Some a => mret (Some a)
  | None => get Fcollecting key
  end.

(** [fn is_live], on the account's epoch and two of its counters. *)
Definition is_live (account : Address) (a : Attempt) : M bool :=
  epoch ← epoch_of account;
  if negb (at_epoch a =? epoch)%N then mret false else
  let now := sequence e in
  match at_state a with
  | State_Collecting =>
      below ← get Finvalidate_below account;
      mret ((default 0 below <=? at_id a) && (now <=? evidence_deadline a))%N
  | State_Authorized =>
      id ← get Fauthorized account;
      mret (bool_decide (id = Some (at_id a)) && (now <? expires_at a)%N)
  | State_Completed | State_Cancelled | State_Invalidated => mret false
  end.

Definition load_live (account : Address) (attempt_id : N) : M Attempt :=
  found ← load account attempt_id;
  a ← lift (ok_or found NoSuchAttempt);
  live ← is_live account a;
  refuse (negb live) AttemptNotLive;;
  mret a.

Definition save (account : Address) (a : Attempt) : M unit :=
  let key := (account, at_id a) in
  let evidence_window :=
    saturating_add32 (saturating_sub (evidence_deadline a) (sequence e)) 1 in
  stored ← has Fattempt key;
  if match at_state a with State_Authorized | State_Completed => true | _ => false end
     || (max_ttl <? evidence_window)%N || stored
  then
    remove Fcollecting key;;
    set Fattempt key a;;
    extend_ttl Fattempt key max_ttl max_ttl
  else
    set Fcollecting key a;;
    extend_ttl Fcollecting key evidence_window evidence_window.

Definition authorized_live (account : Address) : M (option Attempt) :=
  found ← get Fauthorized account;
  match found with
  | None => mret None
  | Some id =>
      stored ← get Fattempt (account, id);
      match stored with
      | None => mret None
      | Some a => live ← is_live account a; mret (if (live : bool) then Some a else None)
      end
  end.

Definition refuse_in_window (account : Address) : M unit :=
  live ← authorized_live account;
  refuse (is_some live) AttemptAuthorized.

(** [panic_with_error!(e, MalformedContextRule)]: the invocation ends in this
    contract error. *)
Definition assert_recovery_rule (rule : ContextRule) (account : Address) : M unit :=
  refuse (negb (is_empty (rule_signers rule)) ||
          negb (bool_decide (context_type rule = ContextRuleType_CallContract account)))
    MalformedContextRule.

(** ** Conditions and statements *)

Definition initiation_met (c : CompiledRecoveryConfig) (a : Attempt) : bool :=
  match config_guardians c with
  | None => true
  | Some g => (quorum g <=? N.of_nat (length (at_guardians a)))%N
  end &&
  match config_zk c with None => true | Some _ => is_some (zk_nullifier a) end.

Definition cancellation_met (c : CompiledRecoveryConfig) (a : Attempt) : bool :=
  match config_guardians c with
  | None => true
  | Some g => (quorum g <=? N.of_nat (length (cancel_guardians a)))%N
  end &&
  match config_zk c with None => true | Some _ => cancel_zk a end.

Definition statement (account : Address) (c : CompiledRecoveryConfig) (epoch valid_until : N)
    (subject : StatementSubject) : RecoveryStatement := {|
  rs_network_id := network_id e;
  rs_account := account;
  rs_controller := current_contract_address e;
  rs_config := {| cb_epoch := epoch; cb_config_hash := cf_config_hash c |};
  rs_timing := {| st_delay_ledgers := cf_delay_ledgers c;
                  st_expiry_ledgers := cf_expiry_ledgers c;
                  valid_until_ledger := valid_until |};
  rs_subject := subject |}.

Definition initiation_statement (account : Address) (c : CompiledRecoveryConfig) (a : Attempt)
  : RecoveryStatement :=
  let subject := {| as_attempt_id := at_id a; as_source_doc_hash := at_source_doc_hash a;
                    as_target_doc_hash := at_target_doc_hash a;
                    as_replacements_hash := at_replacements_hash a |} in
  let subject := match at_action a with
                 | Action_Compromise => Subject_Compromise subject
                 | _ => Subject_LostKey subject
                 end in
  statement account c (at_epoch a) (evidence_deadline a) subject.

Definition statement_error (err : StatementError) : RecoveryError :=
  match err with
  | StatementEvidenceExpired | EvidenceWindowTooLong => EvidenceExpired
  | _ => InvalidStatement
  end.

Definition digest (s : RecoveryStatement) : result RecoveryError bytes :=
  map_err statement_error (statement_digest s).

Definition check_fresh (s : RecoveryStatement) : result RecoveryError unit :=
  map_err statement_error (statement_check_fresh s (sequence e)).

Definition attempt_statement (account : Address) (c : CompiledRecoveryConfig) (a : Attempt)
    (domain : EvidenceDomain) : result RecoveryError RecoveryStatement :=
  let initiation := initiation_statement account c a in
  match domain with
  | Domain_Initiate => Ok initiation
  | Domain_Cancel =>
      let* d := digest initiation in
      Ok (statement account c (at_epoch a) (cancel_until a)
            (Subject_Cancel {| cs_attempt_id := at_id a;
                               RecoveryIface.attempt_statement := d |}))
  end.

Definition change_statement_for (account : Address) (c : CompiledRecoveryConfig)
    (subject : StatementSubject) (valid_until : N) : M RecoveryStatement :=
  match subject with
  | Subject_Reconfigure _ | Subject_Upgrade _ =>
      epoch ← epoch_of account;
      mret (statement account c epoch valid_until subject)
  | _ => fail InvalidStatement
  end.

Definition require_condition (account : Address) (c : CompiledRecoveryConfig)
    (subject : StatementSubject) (valid_until : N) : M unit :=
  s ← change_statement_for account c subject valid_until;
  lift (check_fresh s);;
  d ← lift (digest s);
  found ← get Fapproval (account, d);
  record ← lift (ok_or found ConditionNotMet);
  refuse match config_guardians c with
         | Some set =>
             (N.of_nat (length (filter (λ g, g ∈ guardians set) (ca_guardians record)))
                <? quorum set)%N
         | None => false
         end ConditionNotMet;;
  refuse (is_some (config_zk c) && negb (ca_zk record)) ConditionNotMet.

Definition verify_zk (account : Address) (factor : CompiledZkFactor) (s : RecoveryStatement)
    (evidence : ZkEvidence) : M unit :=
  accepted ← view (λ o, try_verify o (zf_adapter factor) s (factor_binding factor) evidence);
  refuse (negb accepted) ZkEvidenceRejected;;
  spent ← has Fnullifier (account, nullifier evidence);
  refuse spent NullifierSpent.

Definition check_config (account : Address) (c : CompiledRecoveryConfig)
  : result RecoveryError unit :=
  refuse_if ((cf_delay_ledgers c =? 0) || (cf_expiry_ledgers c =? 0) ||
             (cf_max_cancels c =? 0))%N InvalidConfiguration ;;;
  match config_guardians c with
  | Some set =>
      refuse_if (contains (guardians set) account || (quorum set =? 0)%N ||
                 (N.of_nat (length (guardians set)) <? quorum set)%N) InvalidConfiguration
  | None => Ok tt
  end.

Definition check_zk_wiring (old new : option CompiledZkFactor) : M unit :=
  refuse (negb (zk_factor_transition_ok old new)) ZkFactorChangedInPlace;;
  match new with
  | None => mret tt
  | Some n =>
      if bool_decide (old = Some n) then mret tt else
      circuit ← view (λ o, try_circuit_id o (zf_adapter n));
      let circuit_ok := bool_decide (circuit = Some (zf_circuit_id n)) in
      adapter_depth ← view (λ o, try_tree_depth o (zf_adapter n));
      pool_depth ← view (λ o, pool_try_depth o (zf_pool n));
      refuse (negb circuit_ok || negb (is_some adapter_depth) ||
              negb (bool_decide (adapter_depth = pool_depth))) ZkWiringMismatch
  end.

(** ** Transitions *)

(** Rule 7: one [is_revoked] call per fingerprint of the target. *)
Fixpoint refuse_revoked (account : Address) (fingerprints : list bytes) : M unit :=
  match fingerprints with
  | [] => mret tt
  | f :: fingerprints =>
      revoked ← call (λ o, is_revoked o account f);
      refuse revoked CredentialRevoked;;
      refuse_revoked account fingerprints
  end.

Definition begin (account : Address) (action : RecoveryAction) (replacements : ReplacementSet)
  : M N :=
  c ← require_config account;
  live ← authorized_live account;
  refuse (is_some live) AttemptAuthorized;;
  rhash ← lift (map_err (λ _, InvalidReplacements) (replacements_hash replacements));
  refuse (negb (Bool.eqb (is_some (config_zk c))
                  (Nat.eqb (length (rset_zk_enrollment replacements)) 1)))
    InvalidReplacements;;
  current ← call (λ o, applied_doc o account);
  current ← lift (ok_or current NotEnrolled);
  source ← match action with
           | Action_Compromise =>
               hash ← lift (ok_or (cf_baseline c) NoBaseline);
               content ← get Fbaseline (account, hash);
               lift (ok_or content BaselineNotPublished)
           | _ => mret current
           end;
  source_doc_hash ← match action with
                    | Action_Compromise => lift (ok_or (cf_baseline c) NoBaseline)
                    | _ => applied ← call (λ o, applied_doc_hash o account);
                           lift (ok_or applied NotEnrolled)
                    end;
  compiler ← call (λ o, doc_compiler o account);
  derived ← view (λ o, try_derive_target o compiler source current action replacements);
  derived ← lift (ok_or derived InvalidReplacements);
  let target_bytes := sha256 (dt_canonical derived) in
  match head (rset_zk_enrollment replacements) with
  | Some z => used ← call (λ o, is_enrolled_id o account (ze_id z));
              refuse used EnrollmentIdReused
  | None => mret tt
  end;;
  refuse_revoked account (dt_fingerprints derived);;
  replaced ← lift (mapM_result (λ cr, map_err (λ _, InvalidReplacements)
                                         (credential_fingerprint cr)) (dt_replaced derived));
  refuse (negb (replaced_credentials_leave replaced (dt_fingerprints derived)))
    ReplacedCredentialRetained;;
  found ← get Fnext_attempt account;
  let id := default 0%N found in
  next ← lift (u64_add id 1);
  set Fnext_attempt account next;;
  extend_ttl Fnext_attempt account max_ttl max_ttl;;
  let now := sequence e in
  deadline ← lift (add now (cf_expiry_ledgers c));
  completable ← lift (add deadline (cf_delay_ledgers c));
  last ← lift (add completable (cf_expiry_ledgers c));
  epoch ← epoch_of account;
  save account {|
    at_id := id; at_action := action; at_epoch := epoch; created_at := now;
    evidence_deadline := deadline; cancel_until := last;
    authorized_at := 0; executable_after := 0; expires_at := 0;
    at_source_doc_hash := source_doc_hash; at_target_doc_hash := dt_doc_hash derived;
    target_bytes_hash := target_bytes; target_config_hash := dt_config_hash derived;
    at_replacements_hash := rhash; at_replaced := dt_replaced derived;
    at_state := State_Collecting; at_guardians := []; zk_nullifier := None;
    cancel_guardians := []; cancel_zk := false |};;
  publish (AttemptBegun account id action (dt_doc_hash derived));;
  mret id.

Definition call_gate (account : Address) (attempt_id frozen_until : N) : M unit := λ w,
  match rcv_gate (current_contract_address e) (outside w) account attempt_id frozen_until with
  | Some o => Ok (tt, {| storage := storage w; outside := o; events := events w |})
  | None => Panic
  end.

(** T4: the attempt as the code leaves it. *)
Definition promote (account : Address) (c : CompiledRecoveryConfig) (a : Attempt) : M Attempt :=
  live ← authorized_live account;
  refuse (is_some live) AttemptAuthorized;;
  stale ← match at_action a with
          | Action_LostKey =>
              applied ← call (λ o, applied_doc_hash o account);
              mret (negb (bool_decide (applied = Some (at_source_doc_hash a))))
          | _ => mret false
          end;
  if (stale : bool) then
    publish (AttemptInvalidated account (at_id a));;
    mret (with_state a State_Invalidated)
  else
    let now := sequence e in
    executable ← lift (add now (cf_delay_ledgers c));
    expires ← lift (add executable (cf_expiry_ledgers c));
    let a := with_windows (with_state a State_Authorized) now executable expires in
    next ← get Fnext_attempt account;
    set Finvalidate_below account (default 0%N next);;
    extend_ttl Finvalidate_below account max_ttl max_ttl;;
    set Fauthorized account (at_id a);;
    extend_ttl Fauthorized account max_ttl max_ttl;;
    (if bool_decide (cf_profile c = Profile_Protected)
     then call_gate account (at_id a) (expires_at a) else mret tt);;
    publish (Event_AttemptAuthorized account (at_id a) executable expires);;
    mret a.

(** T6 and T7. *)
Definition cancel (account : Address) (c : CompiledRecoveryConfig) (a : Attempt)
    (counted : bool) : M unit :=
  let was_authorized := bool_decide (at_state a = State_Authorized) in
  let counts := counted && was_authorized in
  (if counts then
     found ← get Fcancels account;
     let used := default 0%N found in
     refuse (cf_max_cancels c <=? used)%N MaxCancelsReached;;
     next ← lift (u32_add used 1);
     set Fcancels account next;;
     extend_ttl Fcancels account max_ttl max_ttl
   else mret tt);;
  let a := with_state a State_Cancelled in
  save account a;;
  (if was_authorized then
     remove Fauthorized account;;
     (if bool_decide (cf_profile c = Profile_Protected)
      then call_gate account (at_id a) 0 else mret tt)
   else mret tt);;
  publish (AttemptCancelled account (at_id a) counts).

Definition after_evidence (account : Address) (c : CompiledRecoveryConfig) (a : Attempt)
    (domain : EvidenceDomain) : M unit :=
  match domain with
  | Domain_Initiate =>
      a ← (if initiation_met c a then promote account c a else mret a);
      save account a
  | Domain_Cancel =>
      if cancellation_met c a then cancel account c a true else save account a
  end.

(** The [enforce] half of T5. *)
Definition authorize_completion (ctx : Context) (account : Address) : M unit :=
  match ctx with
  | Context_Contract cc =>
      refuse (negb (bool_decide (contract cc = account)) ||
              negb (bool_decide (Some (fn_name cc) = symbol_new "apply_doc"))) WrongTarget;;
      target ← lift (ok_or (head (args cc) ≫= val_bytes) WrongTarget);
      require_config account;;
      live ← authorized_live account;
      a ← lift (ok_or live AttemptNotLive);
      refuse (sequence e <? executable_after a)%N NotExecutableYet;;
      refuse (negb (bool_decide (sha256 target = target_bytes_hash a))) WrongTarget;;
      set Fcompleting account {| mk_attempt_id := at_id a;
                                 mk_target_doc_hash := at_target_doc_hash a;
                                 mk_ledger := sequence e |}
  | _ => fail WrongTarget
  end.

(** The [rcv_sync] half of T5. *)
Definition complete (account : Address) (marker : CompletionMarker)
    (new : option CompiledRecoveryConfig) (doc_hash : bytes) : M SyncOutcome :=
  live ← authorized_live account;
  a ← lift (ok_or live AttemptNotLive);
  refuse (negb (at_id a =? mk_attempt_id marker)%N ||
          negb (bool_decide (at_target_doc_hash a = mk_target_doc_hash marker)) ||
          negb (bool_decide (doc_hash = at_target_doc_hash a))) WrongTarget;;
  new ← lift (ok_or new WrongTarget);
  refuse (negb (bool_decide (cf_controller new = current_contract_address e)) ||
          negb (bool_decide (cf_config_hash new = target_config_hash a))) WrongTarget;;
  match zk_nullifier a with
  | Some n =>
      let key := (account, n) in
      spent ← has Fnullifier key;
      refuse spent NullifierSpent;;
      set Fnullifier key true;;
      extend_ttl Fnullifier key max_ttl max_ttl
  | None => mret tt
  end;;
  let a := with_state a State_Completed in
  save account a;;
  remove Fauthorized account;;
  store_config account new;;
  publish (RecoveryCompleted account (at_id a) (at_target_doc_hash a));;
  mret (Sync_Completed {| cp_attempt_id := at_id a; cp_replaced := at_replaced a |}).

(** ** The policy hooks *)

(** Bookkeeping only: the configuration is already stored. *)
Definition install (install_params : bytes) (context_rule : ContextRule)
    (smart_account : Address) : M unit :=
  lift (require_auth e smart_account);;
  assert_recovery_rule context_rule smart_account;;
  c ← require_config smart_account;
  refuse (negb (bool_decide (cf_config_hash c = install_params))) InvalidConfiguration.

Definition enforce (ctx : Context) (authenticated_signers : list Signer)
    (context_rule : ContextRule) (smart_account : Address) : M unit :=
  lift (require_auth e smart_account);;
  refuse (negb (is_empty authenticated_signers)) MalformedContextRule;;
  assert_recovery_rule context_rule smart_account;;
  authorize_completion ctx smart_account.

Definition uninstall (context_rule : ContextRule) (smart_account : Address) : M unit :=
  lift (require_auth e smart_account).

(** ** The account's hooks *)

Definition rcv_sync (account : Address) (doc_hash : bytes)
    (recovery : list CompiledRecoveryConfig) (approval_valid_until : N) : M SyncOutcome :=
  lift (require_auth e account);;
  let new := head recovery in
  stored ← get Fconfig account;
  let classify : M SyncOutcome :=
    refuse_in_window account;;
    let here := current_contract_address e in
    match stored with
    | None =>
        match new with
        | None => mret Sync_Unchanged
        | Some n =>
            refuse (negb (bool_decide (cf_controller n = here))) InvalidConfiguration;;
            lift (check_config account n);;
            check_zk_wiring None (config_zk n);;
            store_config account n;;
            mret Sync_Enrolled
        end
    | Some old =>
        if match new with
           | Some n => bool_decide (cf_controller n = here) &&
                       bool_decide (cf_config_hash n = cf_config_hash old)
           | None => false
           end
        then mret Sync_Unchanged else
        let change := match new with
                      | Some n => ConfigChange_Set (cf_config_hash n)
                      | None => ConfigChange_Remove
                      end in
        (if bool_decide (cf_profile old = Profile_Protected)
         then require_condition account old (Subject_Reconfigure change) approval_valid_until
         else mret tt);;
        let reconfigure n :=
          lift (check_config account n);;
          check_zk_wiring (config_zk old) (config_zk n);;
          store_config account n;;
          mret Sync_Reconfigured in
        let remove_it :=
          remove Fconfig account;;
          remove Fauthorized account;;
          epoch ← bump_epoch account;
          publish (EpochAdvanced account epoch None);;
          mret Sync_Removed in
        match new with
        | Some n => if bool_decide (cf_controller n = here) then reconfigure n else remove_it
        | None => remove_it
        end
    end in
  marker ← get Fcompleting account;
  match marker with
  | Some marker =>
      remove Fcompleting account;;
      live ← authorized_live account;
      if bool_decide (mk_target_doc_hash marker = doc_hash) &&
         (mk_ledger marker =? sequence e)%N &&
         match live with Some a => (at_id a =? mk_attempt_id marker)%N | None => false end
      then complete account marker new doc_hash
      else classify
  | None => classify
  end.

Definition rcv_cancel (account : Address) (attempt_id : N) : M unit :=
  lift (require_auth e account);;
  c ← require_config account;
  refuse (negb (bool_decide (cf_profile c = Profile_Loss))) OwnerCancelRefused;;
  a ← load_live account attempt_id;
  cancel account c a false.

Definition rcv_upgrade (account : Address) (step : UpgradeStep) : M N :=
  lift (require_auth e account);;
  c ← require_config account;
  refuse_in_window account;;
  match step with
  | Step_Schedule subject approval_valid_until =>
      (if bool_decide (cf_profile c = Profile_Protected)
       then require_condition account c (Subject_Upgrade subject) approval_valid_until
       else mret tt);;
      epoch_of account
  | Step_Execute recorded_epoch =>
      now ← epoch_of account;
      refuse (negb (recorded_epoch =? now)%N) StaleUpgrade;;
      epoch ← bump_epoch account;
      publish (EpochAdvanced account epoch (Some (cf_config_hash c)));;
      mret epoch
  end.

(** ** Attempts and evidence *)

Definition begin_lost_key (account : Address) (replacements : ReplacementSet) : M N :=
  begin account Action_LostKey replacements.
Definition begin_compromise (account : Address) (replacements : ReplacementSet) : M N :=
  begin account Action_Compromise replacements.

Definition submit_guardian (account : Address) (attempt_id : N) (domain : EvidenceDomain)
    (guardian : Address) : M unit :=
  c ← require_config account;
  set ← lift (ok_or (config_guardians c) ModeHasNoGuardians);
  refuse (negb (contains (guardians set) guardian)) NotAGuardian;;
  a ← load_live account attempt_id;
  a ← match domain with
      | Domain_Initiate =>
          refuse (negb (bool_decide (at_state a = State_Collecting))) AttemptNotCollecting;;
          refuse (contains (at_guardians a) guardian) AlreadyCounted;;
          mret (with_evidence a (at_guardians a ++ [guardian]) (zk_nullifier a)
                  (cancel_guardians a) (cancel_zk a))
      | Domain_Cancel =>
          refuse (contains (cancel_guardians a) guardian) AlreadyCounted;;
          mret (with_evidence a (at_guardians a) (zk_nullifier a)
                  (cancel_guardians a ++ [guardian]) (cancel_zk a))
      end;
  s ← lift (attempt_statement account c a domain);
  lift (check_fresh s);;
  d ← lift (digest s);
  lift (require_auth_for_args e guardian d);;
  after_evidence account c a domain.

Definition submit_zk (account : Address) (attempt_id : N) (domain : EvidenceDomain)
    (evidence : ZkEvidence) : M unit :=
  c ← require_config account;
  factor ← lift (ok_or (config_zk c) ModeHasNoZk);
  a ← load_live account attempt_id;
  match domain with
  | Domain_Initiate =>
      refuse (negb (bool_decide (at_state a = State_Collecting))) AttemptNotCollecting;;
      refuse (is_some (zk_nullifier a)) AlreadyCounted
  | Domain_Cancel => refuse (cancel_zk a) AlreadyCounted
  end;;
  s ← lift (attempt_statement account c a domain);
  lift (check_fresh s);;
  verify_zk account factor s evidence;;
  let a := match domain with
           | Domain_Initiate => with_evidence a (at_guardians a) (Some (nullifier evidence))
                                  (cancel_guardians a) (cancel_zk a)
           | Domain_Cancel => with_evidence a (at_guardians a) (zk_nullifier a)
                                (cancel_guardians a) true
           end in
  after_evidence account c a domain.

Definition approve_change (account : Address) (subject : StatementSubject) (valid_until : N)
    (guardian : Address) : M unit :=
  c ← require_config account;
  set ← lift (ok_or (config_guardians c) ModeHasNoGuardians);
  refuse (negb (contains (guardians set) guardian)) NotAGuardian;;
  refuse_in_window account;;
  s ← change_statement_for account c subject valid_until;
  lift (check_fresh s);;
  d ← lift (digest s);
  found ← get Fapproval (account, d);
  let record := default ChangeApproval_empty found in
  refuse (contains (ca_guardians record) guardian) AlreadyCounted;;
  lift (require_auth_for_args e guardian d);;
  store_approval account d
    {| ca_guardians := ca_guardians record ++ [guardian]; ca_zk := ca_zk record |} valid_until.

Definition submit_zk_change (account : Address) (subject : StatementSubject) (valid_until : N)
    (evidence : ZkEvidence) : M unit :=
  c ← require_config account;
  factor ← lift (ok_or (config_zk c) ModeHasNoZk);
  refuse_in_window account;;
  s ← change_statement_for account c subject valid_until;
  lift (check_fresh s);;
  d ← lift (digest s);
  found ← get Fapproval (account, d);
  let record := default ChangeApproval_empty found in
  refuse (ca_zk record) AlreadyCounted;;
  verify_zk account factor s evidence;;
  store_approval account d
    {| ca_guardians := ca_guardians record; ca_zk := true |} valid_until.

Definition publish_baseline (account : Address) (doc_json : bytes) : M unit :=
  c ← require_config account;
  base ← lift (ok_or (cf_baseline c) NoBaseline);
  compiler ← call (λ o, doc_compiler o account);
  compiled ← view (λ o, try_compile_doc o compiler doc_json);
  compiled ← lift (ok_or compiled BaselineMismatch);
  refuse (negb (bool_decide (cd_doc_hash compiled = base)) ||
          negb (admin_survives (cd_rules compiled))) BaselineMismatch;;
  let key := (account, base) in
  set Fbaseline key (cd_canonical compiled);;
  extend_ttl Fbaseline key max_ttl max_ttl.

(** ** Views and renewal *)

Definition attempt_live (account : Address) (attempt_id : N) : M bool :=
  found ← load account attempt_id;
  match found with Some a => is_live account a | None => mret false end.

Definition activity_gate (account : Address) : M ActivityGate :=
  found ← get Fconfig account;
  let frozen_profile := match found with
                        | Some c => bool_decide (cf_profile c = Profile_Protected)
                        | None => false
                        end in
  live ← authorized_live account;
  mret match live with
       | Some a => {| authorized_attempt := Some (at_id a); frozen := frozen_profile;
                      until := expires_at a |}
       | None => {| authorized_attempt := None; frozen := false; until := 0 |}
       end.

Definition nullifier_spent (account : Address) (n : bytes) : M bool := has Fnullifier (account, n).

(** [if has(key) { extend_ttl(key, ttl, ttl) }]. *)
Definition renew_if_present (f : field) (k : fkey f) : M unit :=
  here ← has f k;
  if (here : bool) then extend_ttl f k max_ttl max_ttl else mret tt.

Definition renew (account : Address) : M unit :=
  found ← get Fconfig account;
  match found with
  | Some c =>
      extend_ttl Fconfig account max_ttl max_ttl;;
      match cf_baseline c with
      | Some hash => renew_if_present Fbaseline (account, hash)
      | None => mret tt
      end
  | None => mret tt
  end;;
  renew_if_present Fepoch account;;
  renew_if_present Fnext_attempt account;;
  renew_if_present Finvalidate_below account;;
  renew_if_present Fcancels account;;
  current ← get Fauthorized account;
  match current with
  | Some id =>
      extend_ttl Fauthorized account max_ttl max_ttl;;
      renew_if_present Fattempt (account, id)
  | None => mret tt
  end.

Definition renew_nullifier (account : Address) (n : bytes) : M unit :=
  renew_if_present Fnullifier (account, n).
End contract.
