(* ===== verification/ControllerRuns.v ===== *)
(** * What a successful controller call has done

    Facts about [Controller]: the monad's successful runs, the values its
    storage holds (lifetimes forgotten), and one lemma per helper saying what
    it read and which values it changed.  [vals w] is the storage as plain
    partial maps and [vset] a single write; every operation's effect is a
    composition of them. *)

From S2P Require Import Prelude Host RecoveryIface CompilerIface Controller.

Section storage_values.
Context {H : Host}.

Abbreviation values := (∀ f : field, fkey f → option (fval f)).

Definition vset (f : field) (k : fkey f) (o : option (fval f)) (v : values) : values :=
  λ g, match decide (f = g) with
       | left E => eq_rect f (λ g, fkey g → option (fval g))
                     (λ j, if decide (j = k) then o else v f j) g E
       | right _ => v g
       end.

Lemma update_eq f m st : update f m st f = m.
Proof.
  unfold update. destruct (decide (f = f)) as [E|]; [|done].
  by rewrite <-(Eqdep_dec.eq_rect_eq_dec field_eq_dec).
Qed.
Lemma update_ne f g m st : f ≠ g → update f m st g = st g.
Proof. intros. unfold update. by destruct (decide (f = g)). Qed.

Lemma vset_eq f k o v j : vset f k o v f j = if decide (j = k) then o else v f j.
Proof.
  unfold vset. destruct (decide (f = f)) as [E|]; [|done].
  by rewrite <-(Eqdep_dec.eq_rect_eq_dec field_eq_dec).
Qed.
Lemma vset_at f k o v : vset f k o v f k = o.
Proof. rewrite vset_eq. by rewrite decide_True. Qed.
Lemma vset_ne f g k o v j : f ≠ g → vset f k o v g j = v g j.
Proof. intros. unfold vset. by destruct (decide (f = g)). Qed.
Lemma vset_other f g k o v j :
  owner f k ≠ owner g j → vset f k o v g j = v g j.
Proof.
  intros Hne. destruct (decide (f = g)) as [<-|]; [|by apply vset_ne].
  rewrite vset_eq. by rewrite decide_False by (intros ->; done).
Qed.

Definition svals (st : RecoveryStorage) : values := λ f k, value <$> st f !! k.

Lemma svals_update f k x st g j :
  svals (update f (<[k := x]> (st f)) st) g j = vset f k (Some (value x)) (svals st) g j.
Proof.
  unfold svals. destruct (decide (f = g)) as [<-|].
  - rewrite update_eq, vset_eq. destruct (decide (j = k)) as [->|].
    + by rewrite lookup_insert_eq.
    + by rewrite lookup_insert_ne.
  - by rewrite update_ne, vset_ne.
Qed.

Lemma svals_delete f k st g j :
  svals (update f (delete k (st f)) st) g j = vset f k None (svals st) g j.
Proof.
  unfold svals. destruct (decide (f = g)) as [<-|].
  - rewrite update_eq, vset_eq. destruct (decide (j = k)) as [->|].
    + by rewrite lookup_delete_eq.
    + by rewrite lookup_delete_ne.
  - by rewrite update_ne, vset_ne.
Qed.

Lemma vset_same f k o v g j : v f k = o → vset f k o v g j = v g j.
Proof.
  intros <-. destruct (decide (f = g)) as [<-|]; [|by apply vset_ne].
  rewrite vset_eq. by destruct (decide (j = k)) as [->|].
Qed.
End storage_values.

Section runs.
Context {H : Host} {O : Outside}.

Definition vals (w : World) : ∀ f : field, fkey f → option (fval f) := svals (storage w).

(** ** Successful runs of the monad *)

Lemma bind_Ok {A B} (c : M A) (k : A → M B) w r :
  (c ≫= k) w = Ok r ↔ ∃ a w1, c w = Ok (a, w1) ∧ k a w1 = Ok r.
Proof. unfold mbind, M_bind. destruct (c w) as [[a w1]| |]; naive_solver. Qed.

Lemma mret_Ok {A} (a b : A) (w w' : World) :
  (mret (M:=M) a) w = Ok (b, w') ↔ b = a ∧ w' = w.
Proof. unfold mret, M_ret. naive_solver. Qed.

Lemma lift_Ok {A} (c : result RecoveryError A) a w w' :
  lift c w = Ok (a, w') ↔ c = Ok a ∧ w' = w.
Proof. unfold lift. destruct c; naive_solver. Qed.

Lemma refuse_Ok b err u w w' : refuse b err w = Ok (u, w') ↔ b = false ∧ w' = w.
Proof. unfold refuse. rewrite lift_Ok, refuse_if_Ok. done. Qed.

Lemma fail_Ok {A} err (a : A) w w' : fail err w = Ok (a, w') ↔ False.
Proof. done. Qed.

Lemma view_Ok {A} (f : OutState → A) a w w' :
  view f w = Ok (a, w') ↔ a = f (outside w) ∧ w' = w.
Proof. unfold view. naive_solver. Qed.

Lemma call_Ok {A} (f : OutState → option A) a w w' :
  call f w = Ok (a, w') ↔ f (outside w) = Some a ∧ w' = w.
Proof.
  unfold call. rewrite bind_Ok. setoid_rewrite view_Ok. setoid_rewrite lift_Ok.
  setoid_rewrite or_panic_Ok. naive_solver.
Qed.

Lemma get_Ok e f k o w w' : get e f k w = Ok (o, w') ↔ o = fget e f k (storage w) ∧ w' = w.
Proof. unfold get. naive_solver. Qed.

Lemma has_Ok e f k b w w' :
  has e f k w = Ok (b, w') ↔ b = is_some (fget e f k (storage w)) ∧ w' = w.
Proof. unfold has. naive_solver. Qed.

(** A persistent read returns the value stored; a temporary one returns it or
    nothing. *)
Lemma fget_persistent e f k w : temporary f = false → fget e f k (storage w) = vals w f k.
Proof. unfold fget, vals, svals. by intros ->. Qed.
Lemma fget_temporary e f k w v : fget e f k (storage w) = Some v → vals w f k = Some v.
Proof.
  unfold fget, vals, svals, temporary_get, temporary_lookup, persistent_get.
  destruct (temporary f); [|done]. destruct (storage w f !! k) as [x|]; [|done].
  by destruct (Host.is_live e x).
Qed.

(** ** Writes *)

Lemma set_Ok e f k v u w w' :
  set e f k v w = Ok (u, w') →
  (∀ g j, vals w' g j = vset f k (Some v) (vals w) g j) ∧ outside w' = outside w.
Proof.
  unfold set, put_storage, fset. intros [= _ <-]. split; [|done]. intros g j.
  unfold vals. simpl. destruct (temporary f);
    unfold temporary_set, persistent_set; apply svals_update.
Qed.

Lemma remove_Ok f k u w w' :
  remove f k w = Ok (u, w') →
  (∀ g j, vals w' g j = vset f k None (vals w) g j) ∧ outside w' = outside w.
Proof.
  unfold remove, put_storage. intros [= _ <-]. split; [|done]. intros g j. apply svals_delete.
Qed.

Lemma extend_ttl_Ok e f k t n u w w' :
  extend_ttl e f k t n w = Ok (u, w') →
  (∀ g j, vals w' g j = vals w g j) ∧ outside w' = outside w.
Proof.
  unfold extend_ttl. rewrite bind_Ok. intros (m & w1 & [Hm ->]%lift_Ok & Hp).
  unfold put_storage in Hp. injection Hp as _ <-. split; [|done]. intros g j.
  assert (∃ x, storage w f !! k = Some x ∧ m = <[k := extended e t n x]> (storage w f))
    as (x & Hx & ->).
  { destruct (temporary f).
    - unfold temporary_extend_ttl, temporary_lookup in Hm.
      destruct (storage w f !! k) as [x|]; [|done]. destruct (Host.is_live e x); [|done].
      apply rbind_Ok in Hm as (? & _ & [= <-]). eauto.
    - unfold persistent_extend_ttl in Hm.
      destruct (storage w f !! k) as [x|]; [|done]. injection Hm as <-. eauto. }
  unfold vals. simpl. rewrite svals_update, value_extended. apply vset_same.
  unfold svals. by rewrite Hx.
Qed.

Lemma publish_Ok ev u w w' :
  publish ev w = Ok (u, w') →
  (∀ g j, vals w' g j = vals w g j) ∧ outside w' = outside w.
Proof. unfold publish. by intros [= _ <-]. Qed.

Lemma call_gate_Ok e acc id n u w w' :
  call_gate e acc id n w = Ok (u, w') →
  (∀ g j, vals w' g j = vals w g j) ∧
  rcv_gate (current_contract_address e) (outside w) acc id n = Some (outside w').
Proof. unfold call_gate. case_match; [|done]. by intros [= _ <-]. Qed.
End runs.

(** ** Stepping through a successful run

    [step E as x Hx] takes the first action off the run [E]: [x] is its
    result, [Hx] what the action says of it.  [effect E as w' Hv Ho] takes a
    write: [Hv] relates the values before and after. *)

Ltac get_step Hx :=
  lazymatch type of Hx with
  | get ?e ?f ?k ?w = Ok (?o, ?w') =>
      apply (get_Ok e f k o w w') in Hx as [Hx ->];
      try change (fget e f k (storage w)) with (vals w f k) in Hx
  | has ?e ?f ?k ?w = Ok (?o, ?w') =>
      apply (has_Ok e f k o w w') in Hx as [Hx ->];
      try change (fget e f k (storage w)) with (vals w f k) in Hx
  end.
Ltac pure_step Hx :=
  lazymatch type of Hx with
  | get _ _ _ _ = _ => get_step Hx
  | has _ _ _ _ = _ => get_step Hx
  | refuse _ _ _ = _ => apply refuse_Ok in Hx as [Hx ->]
  | lift _ _ = _ => apply lift_Ok in Hx as [Hx ->]
  | call _ _ = _ => apply call_Ok in Hx as [Hx ->]
  | view _ _ = _ => apply view_Ok in Hx as [Hx ->]
  | mret _ _ = _ => apply mret_Ok in Hx as [Hx ->]
  end.
Tactic Notation "step" hyp(E) "as" ident(x) ident(Hx) :=
  apply bind_Ok in E as (x & ? & Hx & E); pure_step Hx.

Ltac write_step Hv Ho :=
  lazymatch type of Hv with
  | set _ _ _ _ _ = _ => apply set_Ok in Hv as [Hv Ho]
  | remove _ _ _ = _ => apply remove_Ok in Hv as [Hv Ho]
  | extend_ttl _ _ _ _ _ _ = _ => apply extend_ttl_Ok in Hv as [Hv Ho]
  | publish _ _ = _ => apply publish_Ok in Hv as [Hv Ho]
  end.
Tactic Notation "effect" hyp(E) "as" ident(w) ident(Hv) ident(Ho) :=
  apply bind_Ok in E as (? & w & Hv & E); write_step Hv Ho.

(** Decide single writes at concrete fields. *)
Ltac vsimp := repeat first [rewrite vset_at | rewrite vset_eq | rewrite vset_ne by discriminate].

Section helpers.
Context {H : Host} {O : Outside} (e : Env).
Implicit Types (w : World) (acc : Address).

(** ** Pure readings of the state *)

Definition epochv w acc : N := default 0%N (vals w Fepoch acc).
Definition nextv w acc : N := default 0%N (vals w Fnext_attempt acc).
Definition belowv w acc : N := default 0%N (vals w Finvalidate_below acc).

Definition live_in w acc (a : Attempt) : bool :=
  (at_epoch a =? epochv w acc)%N &&
  match at_state a with
  | State_Collecting => (belowv w acc <=? at_id a)%N && (sequence e <=? evidence_deadline a)%N
  | State_Authorized =>
      bool_decide (vals w Fauthorized acc = Some (at_id a)) && (sequence e <? expires_at a)%N
  | _ => false
  end.

Definition auth_live w acc : option Attempt :=
  match vals w Fauthorized acc with
  | None => None
  | Some id =>
      match vals w Fattempt (acc, id) with
      | None => None
      | Some a => if live_in w acc a then Some a else None
      end
  end.

(** An attempt record stored under an id, live or not. *)
Definition stored w acc (id : N) (a : Attempt) : Prop :=
  vals w Fattempt (acc, id) = Some a ∨
  vals w Fattempt (acc, id) = None ∧ vals w Fcollecting (acc, id) = Some a.

(** Runs that only read: their result, as an equation. *)
Lemma bind_get {B} f k (K : option (fval f) → M B) w :
  temporary f = false → (get e f k ≫= K) w = K (vals w f k) w.
Proof. intros Hf. by rewrite <-(fget_persistent e f k w Hf). Qed.
Lemma bind_run {A B} (c : M A) (K : A → M B) a w w1 :
  c w = Ok (a, w1) → (c ≫= K) w = K a w1.
Proof. unfold mbind, M_bind. by intros ->. Qed.

Lemma require_config_Ok acc c w w' :
  require_config e acc w = Ok (c, w') ↔ vals w Fconfig acc = Some c ∧ w' = w.
Proof. unfold require_config. rewrite bind_get, lift_Ok, ok_or_Ok by done. done. Qed.

Lemma epoch_of_run acc w : epoch_of e acc w = Ok (epochv w acc, w).
Proof. reflexivity. Qed.
Lemma epoch_of_Ok acc n w w' : epoch_of e acc w = Ok (n, w') ↔ n = epochv w acc ∧ w' = w.
Proof. rewrite epoch_of_run. naive_solver. Qed.

Lemma is_live_run acc a w : is_live e acc a w = Ok (live_in w acc a, w).
Proof.
  unfold is_live, live_in, belowv. rewrite (bind_run _ _ _ _ _ (epoch_of_run acc w)).
  destruct (at_epoch a =? epochv w acc)%N; simpl; [|done].
  by destruct (at_state a).
Qed.
Lemma is_live_Ok acc a b w w' :
  is_live e acc a w = Ok (b, w') ↔ b = live_in w acc a ∧ w' = w.
Proof. rewrite is_live_run. naive_solver. Qed.

Lemma authorized_live_run acc w : authorized_live e acc w = Ok (auth_live w acc, w).
Proof.
  unfold authorized_live, auth_live, mbind, M_bind, get.
  change (fget e Fauthorized acc (storage w)) with (vals w Fauthorized acc).
  destruct (vals w Fauthorized acc) as [id|]; [|done].
  change (fget e Fattempt (acc, id) (storage w)) with (vals w Fattempt (acc, id)).
  destruct (vals w Fattempt (acc, id)) as [a|]; [|done]. by rewrite is_live_run.
Qed.
Lemma authorized_live_Ok acc o w w' :
  authorized_live e acc w = Ok (o, w') ↔ o = auth_live w acc ∧ w' = w.
Proof. rewrite authorized_live_run. naive_solver. Qed.

Lemma refuse_in_window_Ok acc u w w' :
  refuse_in_window e acc w = Ok (u, w') ↔ auth_live w acc = None ∧ w' = w.
Proof.
  unfold refuse_in_window. rewrite (bind_run _ _ _ _ _ (authorized_live_run acc w)), refuse_Ok.
  destruct (auth_live w acc); naive_solver.
Qed.

Lemma load_Ok acc id a w w' :
  load e acc id w = Ok (Some a, w') → stored w acc id a ∧ w' = w.
Proof.
  unfold load. intros E. step E as p Hp.
  destruct p as [b|].
  - apply mret_Ok in E as [[= ->] ->]. split; [by left|done].
  - get_step E. split; [right|done]. split; [done|].
    symmetry in E. by apply (fget_temporary e Fcollecting) in E.
Qed.

Lemma load_live_Ok acc id a w w' :
  load_live e acc id w = Ok (a, w') →
  w' = w ∧ stored w acc id a ∧ live_in w acc a = true.
Proof.
  unfold load_live. intros E. apply bind_Ok in E as (o & w1 & Hl & E).
  step E as b Hb. apply ok_or_Ok in Hb. subst o. apply load_Ok in Hl as [Hs ->].
  apply bind_Ok in E as (l & w2 & [-> ->]%is_live_Ok & E).
  step E as u Hu. apply mret_Ok in E as [-> ->]. by apply negb_false_iff in Hu.
Qed.


Lemma live_in_ext w w' acc a :
  (∀ g j, vals w' g j = vals w g j) → live_in w' acc a = live_in w acc a.
Proof. intros E. unfold live_in, epochv, belowv. by rewrite !E. Qed.

(** ** Effects of the helpers *)

Lemma bump_epoch_Ok acc n w w' :
  bump_epoch e acc w = Ok (n, w') →
  n = (epochv w acc + 1)%N ∧ (epochv w acc < U64_MAX)%N ∧
  (∀ g j, vals w' g j = vset Fepoch acc (Some n) (vals w) g j) ∧ outside w' = outside w.
Proof.
  unfold bump_epoch. intros E. apply bind_Ok in E as (m & w1 & [-> ->]%epoch_of_Ok & E).
  step E as k Hk. apply u64_add_Ok in Hk as [-> Hk].
  effect E as w1 H1 O1. effect E as w2 H2 O2. apply mret_Ok in E as [-> ->].
  split; [done|]. split; [lia|]. split; [intros g j; by rewrite H2, H1|congruence].
Qed.

Lemma store_config_Ok acc c u w w' :
  store_config e acc c w = Ok (u, w') →
  (epochv w acc < U64_MAX)%N ∧
  (∀ g j, vals w' g j = vset Fepoch acc (Some (epochv w acc + 1)%N)
                          (vset Fconfig acc (Some c) (vals w)) g j) ∧
  outside w' = outside w.
Proof.
  unfold store_config. intros E. effect E as w1 H1 O1. effect E as w2 H2 O2.
  apply bind_Ok in E as (n & w3 & Hb & E). apply bump_epoch_Ok in Hb as (-> & Hlt & H3 & O3).
  apply publish_Ok in E as [H4 O4].
  assert (epochv w2 acc = epochv w acc) as He.
  { unfold epochv. by rewrite H2, H1, vset_ne. }
  rewrite He in *. split; [done|]. split; [|congruence]. intros g j. rewrite H4, H3.
  destruct (decide (Fepoch = g)) as [<-|]; [|by rewrite !vset_ne, H2, H1 by done].
  rewrite !vset_eq. case_decide; [done|]. by rewrite H2, H1.
Qed.

Lemma store_approval_Ok acc d r n u w w' :
  store_approval e acc d r n w = Ok (u, w') →
  (∀ g j, vals w' g j = vset Fapproval (acc, d) (Some r) (vals w) g j) ∧
  outside w' = outside w.
Proof.
  unfold store_approval. intros E. effect E as w1 H1 O1. effect E as w2 H2 O2.
  apply publish_Ok in E as [H3 O3]. split; [|congruence]. intros g j. by rewrite H3, H2, H1.
Qed.

(** [save] leaves the record in exactly one of the two maps. *)
Lemma save_Ok acc a u w w' :
  save e acc a w = Ok (u, w') →
  outside w' = outside w ∧
  ((∀ g j, vals w' g j = vset Fattempt (acc, at_id a) (Some a)
             (vset Fcollecting (acc, at_id a) None (vals w)) g j) ∨
   at_state a ≠ State_Authorized ∧ at_state a ≠ State_Completed ∧
   vals w Fattempt (acc, at_id a) = None ∧
   (∀ g j, vals w' g j = vset Fcollecting (acc, at_id a) (Some a) (vals w) g j)).
Proof.
  unfold save. intros E. step E as b Hb. subst b.
  destruct (_ || _ || is_some _) eqn:Hp.
  - effect E as w1 H1 O1. effect E as w2 H2 O2. apply extend_ttl_Ok in E as [H3 O3].
    split; [congruence|]. left. intros g j. rewrite H3, H2.
    destruct (decide (Fattempt = g)) as [<-|]; [|by rewrite !vset_ne, H1 by done].
    rewrite !vset_eq. case_decide; [done|]. apply H1.
  - apply orb_false_iff in Hp as [[Hs Hw]%orb_false_iff Hn].
    effect E as w1 H1 O1. apply extend_ttl_Ok in E as [H2 O2].
    split; [congruence|]. right. split_and!.
    + intros E'. by rewrite E' in Hs.
    + intros E'. by rewrite E' in Hs.
    + by destruct (vals w Fattempt (acc, at_id a)).
    + intros g j. by rewrite H2, H1.
Qed.

Lemma renew_if_present_Ok f k u w w' :
  renew_if_present e f k w = Ok (u, w') →
  (∀ g j, vals w' g j = vals w g j) ∧ outside w' = outside w.
Proof.
  unfold renew_if_present. intros E. step E as b Hb. destruct b.
  - by apply extend_ttl_Ok in E.
  - by apply mret_Ok in E as [_ ->].
Qed.

(** ** Effects of the transitions *)

Lemma live_in_cases w acc a :
  live_in w acc a = true →
  at_epoch a = epochv w acc ∧
  (at_state a = State_Collecting ∧ (belowv w acc ≤ at_id a)%N ∧
     (sequence e ≤ evidence_deadline a)%N ∨
   at_state a = State_Authorized ∧ vals w Fauthorized acc = Some (at_id a) ∧
     (sequence e < expires_at a)%N).
Proof.
  unfold live_in. intros [He%N.eqb_eq Hl]%andb_true_iff. split; [done|].
  destruct (at_state a); try done; apply andb_true_iff in Hl as [H1 H2].
  - left. apply N.leb_le in H1, H2. done.
  - right. apply bool_decide_eq_true in H1. apply N.ltb_lt in H2. done.
Qed.

Lemma add_Ok a b c : add a b = Ok c ↔ (c = a + b ∧ a + b ≤ U32_MAX)%N.
Proof. unfold add. by rewrite ok_or_Ok, checked_add32_Some. Qed.

Lemma promote_Ok acc c a a' w w' :
  promote e acc c a w = Ok (a', w') →
  auth_live w acc = None ∧
  (a' = with_state a State_Invalidated ∧ (∀ g j, vals w' g j = vals w g j) ∨
   (at_action a = Action_LostKey →
      applied_doc_hash (outside w) acc = Some (Some (at_source_doc_hash a))) ∧
   a' = with_windows (with_state a State_Authorized) (sequence e)
          (sequence e + cf_delay_ledgers c)
          (sequence e + cf_delay_ledgers c + cf_expiry_ledgers c) ∧
   (∀ g j, vals w' g j = vset Fauthorized acc (Some (at_id a))
             (vset Finvalidate_below acc (Some (nextv w acc)) (vals w)) g j)).
Proof.
  unfold promote. intros E. apply bind_Ok in E as (l & w0 & [-> ->]%authorized_live_Ok & E).
  step E as u Hu. split; [by destruct (auth_live w acc)|].
  apply bind_Ok in E as (stale & w1 & Hst & E).
  assert (w1 = w ∧ (stale = false → at_action a = Action_LostKey →
    applied_doc_hash (outside w) acc = Some (Some (at_source_doc_hash a)))) as [-> Hsrc].
  { destruct (at_action a); try (apply mret_Ok in Hst as [-> ->]; done).
    step Hst as o Ho. apply mret_Ok in Hst as [-> ->]. split; [done|].
    intros Hn%negb_false_iff%bool_decide_eq_true _. congruence. }
  destruct stale.
  { effect E as w1 H1 O1. apply mret_Ok in E as [-> ->]. left. done. }
  right. split; [auto|].
  step E as x Hx. apply add_Ok in Hx as [-> _]. step E as y Hy. apply add_Ok in Hy as [-> _].
  step E as n Hn. subst n.
  effect E as w1 H1 O1. effect E as w2 H2 O2. effect E as w3 H3 O3. effect E as w4 H4 O4.
  apply bind_Ok in E as (? & w5 & H5 & E).
  assert (∀ g j, vals w5 g j = vals w4 g j) as Hv5.
  { case_bool_decide; [by apply call_gate_Ok in H5 as [? _]|]. by apply mret_Ok in H5 as [_ ->]. }
  effect E as w6 H6 O6. apply mret_Ok in E as [-> ->]. split; [done|].
  intros g j. rewrite H6, Hv5, H4, H3. simpl.
  destruct (decide (Fauthorized = g)) as [<-|]; [|by rewrite !vset_ne, H2, H1 by done].
  rewrite !vset_eq. destruct (decide (j = acc)); [done|]. by rewrite H2, H1.
Qed.

(** Which counter a cancellation moves, and which record it leaves. *)
Lemma cancel_Ok acc c a counted u w w' :
  cancel e acc c a counted w = Ok (u, w') →
  let was := bool_decide (at_state a = State_Authorized) in
  let used := default 0%N (vals w Fcancels acc) in
  (counted && was = true → (used < cf_max_cancels c)%N) ∧
  ∃ w1 w2 u', (∀ g j, vals w1 g j = if counted && was
                then vset Fcancels acc (Some (used + 1)%N) (vals w) g j else vals w g j) ∧
    save e acc (with_state a State_Cancelled) w1 = Ok (u', w2) ∧
    (∀ g j, vals w' g j = if was then vset Fauthorized acc None (vals w2) g j
                          else vals w2 g j).
Proof.
  unfold cancel. intros E. apply bind_Ok in E as (? & w1 & H1 & E).
  apply bind_Ok in E as (u' & w2 & H2 & E). apply bind_Ok in E as (? & w3 & H3 & E).
  apply publish_Ok in E as [H4 _]. set (was := bool_decide _) in *. simpl.
  assert (Hw3 : ∀ g j, vals w3 g j = if was then vset Fauthorized acc None (vals w2) g j
                          else vals w2 g j).
  { destruct was; [|by apply mret_Ok in H3 as [_ ->]].
    effect H3 as w4 H5 O5. case_bool_decide.
    - apply call_gate_Ok in H3 as [H3 _]. intros g j. by rewrite H3, H5.
    - apply mret_Ok in H3 as [_ ->]. done. }
  assert (Hw' : ∀ g j, vals w' g j = if was then vset Fauthorized acc None (vals w2) g j
                          else vals w2 g j) by (intros; by rewrite H4, Hw3).
  destruct (counted && was).
  - step H1 as o Ho. subst o. step H1 as y Hy. apply N.leb_gt in Hy.
    step H1 as n Hn. unfold u32_add in Hn. destruct (_ <=? U32_MAX)%N; [|done]. injection Hn as <-.
    effect H1 as w4 H5 O5. apply extend_ttl_Ok in H1 as [H1 _].
    split; [done|]. exists w1, w2, u'. split_and!; [|done|done]. intros g j. by rewrite H1, H5.
  - apply mret_Ok in H1 as [_ ->]. split; [done|]. by exists w, w2, u'.
Qed.

Lemma authorize_completion_Ok ctx acc u w w' :
  authorize_completion e ctx acc w = Ok (u, w') →
  ∃ cc t a, ctx = Context_Contract cc ∧ contract cc = acc ∧
    head (args cc) ≫= val_bytes = Some t ∧ auth_live w acc = Some a ∧
    sha256 t = target_bytes_hash a ∧ (executable_after a ≤ sequence e)%N ∧
    (∀ g j, vals w' g j = vset Fcompleting acc
              (Some {| mk_attempt_id := at_id a; mk_target_doc_hash := at_target_doc_hash a;
                       mk_ledger := sequence e |}) (vals w) g j).
Proof.
  unfold authorize_completion. intros E. destruct ctx as [cc| |]; [|done..].
  step E as u1 H1. apply orb_false_iff in H1 as [H1 _].
  apply negb_false_iff, bool_decide_eq_true in H1.
  step E as t Ht. apply ok_or_Ok in Ht.
  apply bind_Ok in E as (c & w1 & [_ ->]%require_config_Ok & E).
  apply bind_Ok in E as (l & w1 & [-> ->]%authorized_live_Ok & E).
  step E as a Ha. apply ok_or_Ok in Ha. step E as u2 H2. apply N.ltb_ge in H2.
  step E as u3 H3. apply negb_false_iff, bool_decide_eq_true in H3.
  apply set_Ok in E as [Hv _]. exists cc, t, a. done.
Qed.
End helpers.
