(* ===== verification/ControllerFacts.v ===== *)
(** * The recovery controller's guarantees

    The controller as a transition system: [cstep] is an accepted call of any
    entry point, [reachable h w] says that [w] is a world the controller can
    be in after the calls whose environments are listed in [h], the rest of
    the chain changing arbitrarily between them.  [Inv] is the invariant that
    ties every stored attempt to the evidence in [h] it was authorized by. *)

From S2P Require Import Prelude Host RecoveryIface CompilerIface Controller ControllerRuns.

Section system.
Context {H : Host} {O : Outside}.
Implicit Types (e : Env) (w : World) (acc : Address).

(** ** The transition system *)

(** An accepted call of an entry point, labelled with the account it is for. *)
Inductive cstep e w : Address → World → Prop :=
| cstep_install p r acc u w' : install e p r acc w = Ok (u, w') → cstep e w acc w'
| cstep_enforce ctx sg r acc u w' : enforce e ctx sg r acc w = Ok (u, w') → cstep e w acc w'
| cstep_uninstall r acc u w' : uninstall e r acc w = Ok (u, w') → cstep e w acc w'
| cstep_sync acc d r n o w' : rcv_sync e acc d r n w = Ok (o, w') → cstep e w acc w'
| cstep_cancel acc id u w' : rcv_cancel e acc id w = Ok (u, w') → cstep e w acc w'
| cstep_upgrade acc s n w' : rcv_upgrade e acc s w = Ok (n, w') → cstep e w acc w'
| cstep_lost_key acc r n w' : begin_lost_key e acc r w = Ok (n, w') → cstep e w acc w'
| cstep_compromise acc r n w' : begin_compromise e acc r w = Ok (n, w') → cstep e w acc w'
| cstep_guardian acc id d g u w' :
    submit_guardian e acc id d g w = Ok (u, w') → cstep e w acc w'
| cstep_zk acc id d ev u w' : submit_zk e acc id d ev w = Ok (u, w') → cstep e w acc w'
| cstep_approve acc s n g u w' : approve_change e acc s n g w = Ok (u, w') → cstep e w acc w'
| cstep_zk_change acc s n ev u w' :
    submit_zk_change e acc s n ev w = Ok (u, w') → cstep e w acc w'
| cstep_baseline acc doc u w' : publish_baseline e acc doc w = Ok (u, w') → cstep e w acc w'
| cstep_renew acc u w' : renew e acc w = Ok (u, w') → cstep e w acc w'
| cstep_renew_nullifier acc n u w' : renew_nullifier e acc n w = Ok (u, w') → cstep e w acc w'.

Abbreviation history := (list (Env * OutState)).

Inductive reachable : history → World → Prop :=
| reach_init w : (∀ f k, vals w f k = None) → reachable [] w
| reach_step h w e acc w' :
    reachable h w → cstep e w acc w' → reachable ((e, outside w) :: h) w'
| reach_outside h w w' :
    reachable h w → storage w' = storage w → reachable h w'.

(** ** Evidence

    [approved] is one guardian's authorization of the digest of an attempt's
    statement, given in a call of [h]; [proved] one accepted proof for it. *)

Definition approved (h : history) acc (c : CompiledRecoveryConfig) (a : Attempt)
    (dom : EvidenceDomain) (g : Address) : Prop :=
  ∃ set e o s d, config_guardians c = Some set ∧ g ∈ guardians set ∧ (e, o) ∈ h ∧
    attempt_statement e acc c a dom = Ok s ∧ check_fresh e s = Ok tt ∧
    digest s = Ok d ∧ authorized_for_args e g d = true.

Definition proved (h : history) acc (c : CompiledRecoveryConfig) (a : Attempt)
    (dom : EvidenceDomain) (n : bytes) : Prop :=
  ∃ z e o s ev, config_zk c = Some z ∧ (e, o) ∈ h ∧
    attempt_statement e acc c a dom = Ok s ∧ check_fresh e s = Ok tt ∧
    nullifier ev = n ∧ try_verify o (zf_adapter z) s (factor_binding z) ev = true.

Definition was_authorized (s : AttemptState) : Prop :=
  s = State_Authorized ∨ s = State_Completed.

(** An attempt's record is backed by the evidence of [h] under [c]. *)
Record backed (h : history) acc (c : CompiledRecoveryConfig) (a : Attempt) : Prop := {
  bk_nodup : NoDup (at_guardians a);
  bk_guardians : ∀ g, g ∈ at_guardians a → approved h acc c a Domain_Initiate g;
  bk_zk : ∀ n, zk_nullifier a = Some n → proved h acc c a Domain_Initiate n;
  bk_cancel_nodup : NoDup (cancel_guardians a);
  bk_cancel_guardians : ∀ g, g ∈ cancel_guardians a → approved h acc c a Domain_Cancel g;
  bk_cancel_zk : cancel_zk a = true → ∃ n, proved h acc c a Domain_Cancel n;
  bk_window : was_authorized (at_state a) →
    initiation_met c a = true ∧
    executable_after a = (authorized_at a + cf_delay_ledgers c)%N ∧
    expires_at a = (executable_after a + cf_expiry_ledgers c)%N ∧
    ∃ e o, (e, o) ∈ h ∧ sequence e = authorized_at a;
}.

(** A change approval is backed: distinct guardians authorized exactly this
    digest, and an accepted proof was for a statement with this digest. *)
Record approval_backed (h : history) acc (d : bytes) (r : ChangeApproval) : Prop := {
  ab_nodup : NoDup (ca_guardians r);
  ab_guardians : ∀ g, g ∈ ca_guardians r →
    ∃ e o, (e, o) ∈ h ∧ authorized_for_args e g d = true;
  ab_zk : ca_zk r = true → ∃ c z e o s ev, config_zk c = Some z ∧ (e, o) ∈ h ∧
    digest s = Ok d ∧ rs_account s = acc ∧ cb_config_hash (rs_config s) = cf_config_hash c ∧
    try_verify o (zf_adapter z) s (factor_binding z) ev = true;
}.

Record Inv (h : history) w : Prop := {
  inv_attempt : ∀ acc id a, stored w acc id a →
    at_id a = id ∧ (id < nextv w acc)%N ∧ (at_epoch a ≤ epochv w acc)%N ∧
    ∃ c, (at_epoch a = epochv w acc → vals w Fconfig acc = Some c) ∧ backed h acc c a;
  inv_marker : ∀ acc m, vals w Fcompleting acc = Some m →
    ∃ a, vals w Fattempt (acc, mk_attempt_id m) = Some a ∧
      at_state a ≠ State_Collecting ∧ (executable_after a ≤ mk_ledger m)%N;
  inv_spent : ∀ acc id a n, vals w Fattempt (acc, id) = Some a →
    at_state a = State_Completed → zk_nullifier a = Some n →
    is_Some (vals w Fnullifier (acc, n)) ∧
    ∀ id' a', vals w Fattempt (acc, id') = Some a' → at_state a' = State_Completed →
      zk_nullifier a' = Some n → id' = id;
  inv_approval : ∀ acc d r, vals w Fapproval (acc, d) = Some r → approval_backed h acc d r;
}.

(** The authorized id names a record that is past collecting. *)
Definition AuthInv w : Prop :=
  ∀ acc id, vals w Fauthorized acc = Some id →
    ∃ a, vals w Fattempt (acc, id) = Some a ∧ at_state a ≠ State_Collecting.

(** ** Weakening and frames *)

Lemma approved_mono h h' acc c a dom g :
  (∀ x, x ∈ h → x ∈ h') → approved h acc c a dom g → approved h' acc c a dom g.
Proof. intros Hs (set & e & o & s & d & ? & ? & Hin & ?). exists set, e, o, s, d. naive_solver. Qed.

Lemma proved_mono h h' acc c a dom n :
  (∀ x, x ∈ h → x ∈ h') → proved h acc c a dom n → proved h' acc c a dom n.
Proof. intros Hs (z & e & o & s & ev & ? & Hin & ?). exists z, e, o, s, ev. naive_solver. Qed.

Lemma backed_mono h h' acc c a :
  (∀ x, x ∈ h → x ∈ h') → backed h acc c a → backed h' acc c a.
Proof.
  intros Hs [N G Z CN CG CZ W]. split; try done.
  - intros g Hg. eapply approved_mono; eauto.
  - intros n Hn. eapply proved_mono; eauto.
  - intros g Hg. eapply approved_mono; eauto.
  - intros Hz. destruct (CZ Hz) as [n Hn]. exists n. eapply proved_mono; eauto.
  - intros Hw. destruct (W Hw) as (? & ? & ? & e & o & Hin & ?). eauto 10.
Qed.

Lemma approval_backed_mono h h' acc d r :
  (∀ x, x ∈ h → x ∈ h') → approval_backed h acc d r → approval_backed h' acc d r.
Proof.
  intros Hs [N G Z]. split; [done|..].
  - intros g Hg. destruct (G g Hg) as (e & o & ? & ?). eauto.
  - intros Hz. destruct (Z Hz) as (c & z & e & o & s & ev & ? & ? & ?).
    exists c, z, e, o, s, ev. naive_solver.
Qed.

Lemma Inv_mono h h' w : (∀ x, x ∈ h → x ∈ h') → Inv h w → Inv h' w.
Proof.
  intros Hs [A Mk S P]. split; try done.
  - intros acc id a Ha. destruct (A acc id a Ha) as (? & ? & ? & c & Hc & Hb).
    split_and!; try done. exists c. split; [done|]. by eapply backed_mono.
  - intros acc d r Hr. eapply approval_backed_mono; eauto.
Qed.

(** The fields the invariant speaks of. *)
Definition tracked (f : field) : bool :=
  match f with
  | Finvalidate_below | Fauthorized | Fcancels | Fbaseline => false
  | _ => true
  end.

Lemma Inv_ext h w w' :
  (∀ f k, tracked f = true → vals w' f k = vals w f k) → Inv h w → Inv h w'.
Proof.
  intros E [A Mk S P]. unfold stored, nextv, epochv in *.
  split; unfold stored, nextv, epochv.
  - intros acc id a. rewrite !E by done. apply A.
  - intros acc m. rewrite E by done. setoid_rewrite E; [|done]. apply Mk.
  - intros acc id a n. rewrite !E by done. intros Ha Hs Hn.
    destruct (S _ _ _ _ Ha Hs Hn) as [Hsp Hu]. split; [done|].
    intros id' a'. rewrite E by done. eauto.
  - intros acc d r. rewrite E by done. apply P.
Qed.

Lemma Inv_same h w w' : (∀ f k, vals w' f k = vals w f k) → Inv h w → Inv h w'.
Proof. intros E. apply Inv_ext. auto. Qed.

Lemma AuthInv_same w w' : (∀ f k, vals w' f k = vals w f k) → AuthInv w → AuthInv w'.
Proof. intros E A acc id. rewrite !E. intros Hi. apply A in Hi as (a & Ha & ?). eauto. Qed.

(** ** The invariant under each kind of write *)

(** A new epoch unties every attempt of the account from its configuration. *)
Lemma Inv_epoch h w w' acc :
  (∀ f k, tracked f = true → f ≠ Fconfig → f ≠ Fepoch → vals w' f k = vals w f k) →
  (∀ b, b ≠ acc → vals w' Fepoch b = vals w Fepoch b ∧ vals w' Fconfig b = vals w Fconfig b) →
  epochv w' acc = (epochv w acc + 1)%N →
  Inv h w → Inv h w'.
Proof.
  intros E Eb Ee [A Mk S P]. split.
  - intros b id a. unfold stored, nextv. rewrite !E by done. intros Ha.
    apply A in Ha as (? & ? & Hle & c & Hc & Hb). split; [done|]. split; [done|].
    destruct (decide (b = acc)) as [->|Hne].
    + rewrite Ee. split; [lia|]. exists c. split; [lia|done].
    + destruct (Eb b Hne) as [E1 E2]. unfold epochv in *. rewrite E1, E2. eauto.
  - intros b m. rewrite E by done. setoid_rewrite E; [|done..]. apply Mk.
  - intros b id a n. rewrite !E by done. intros Ha Hs Hn.
    destruct (S _ _ _ _ Ha Hs Hn) as [Hsp Hu]. split; [done|].
    intros id' a'. rewrite E by done. eauto.
  - intros b d r. rewrite E by done. apply P.
Qed.

Lemma Inv_store_config h e acc c u w w' :
  Inv h w → store_config e acc c w = Ok (u, w') → Inv h w'.
Proof.
  intros I (_ & Hv & _)%store_config_Ok. refine (Inv_epoch h w w' acc _ _ _ I).
  - intros f k _ Hc He. by rewrite Hv, !vset_ne by congruence.
  - intros b Hb. rewrite !Hv, !vset_other by (simpl; congruence). done.
  - unfold epochv at 1. by rewrite Hv, vset_at.
Qed.

Lemma Inv_bump_epoch h e acc n w w' :
  Inv h w → bump_epoch e acc w = Ok (n, w') → Inv h w'.
Proof.
  intros I (-> & _ & Hv & _)%bump_epoch_Ok. refine (Inv_epoch h w w' acc _ _ _ I).
  - intros f k _ Hc He. by rewrite Hv, !vset_ne by congruence.
  - intros b Hb. rewrite !Hv, !vset_other by (simpl; congruence). done.
  - unfold epochv at 1. by rewrite Hv, vset_at.
Qed.

(** Writing one field that other clauses do not read. *)
Lemma Inv_marker_remove h w w' acc :
  Inv h w → (∀ g j, vals w' g j = vset Fcompleting acc None (vals w) g j) → Inv h w'.
Proof.
  intros [A Mk S P] E. split.
  - intros b id a. unfold stored, nextv, epochv. rewrite !E, !vset_ne by done. apply A.
  - intros b m. rewrite E, vset_eq. case_decide; [done|]. intros Hm.
    setoid_rewrite E. setoid_rewrite vset_ne; [|done..]. by apply Mk.
  - intros b id a n. rewrite !E, !vset_ne by done. intros Ha Hs Hn.
    destruct (S _ _ _ _ Ha Hs Hn) as [Hsp Hu]. split; [done|].
    intros id' a'. rewrite E, vset_ne by done. eauto.
  - intros b d r. rewrite E, vset_ne by done. apply P.
Qed.

Lemma Inv_marker_set h w w' acc m a :
  Inv h w → vals w Fattempt (acc, mk_attempt_id m) = Some a →
  at_state a ≠ State_Collecting → (executable_after a ≤ mk_ledger m)%N →
  (∀ g j, vals w' g j = vset Fcompleting acc (Some m) (vals w) g j) → Inv h w'.
Proof.
  intros [A Mk S P] Ha Hs Hx E. split.
  - intros b id b'. unfold stored, nextv, epochv. rewrite !E, !vset_ne by done. apply A.
  - intros b m'. rewrite E, vset_eq. setoid_rewrite E. setoid_rewrite vset_ne; [|done..].
    case_decide as Hb; [|by apply Mk]. intros [= <-]. simpl in Hb. subst b. eauto.
  - intros b id b' n. rewrite !E, !vset_ne by done. intros Hb Hc Hn.
    destruct (S _ _ _ _ Hb Hc Hn) as [Hsp Hu]. split; [done|].
    intros id' a'. rewrite E, vset_ne by done. eauto.
  - intros b d r. rewrite E, vset_ne by done. apply P.
Qed.

Lemma Inv_nullifier_set h w w' k :
  Inv h w → (∀ g j, vals w' g j = vset Fnullifier k (Some true) (vals w) g j) → Inv h w'.
Proof.
  intros [A Mk S P] E. split.
  - intros b id a. unfold stored, nextv, epochv. rewrite !E, !vset_ne by done. apply A.
  - intros b m. rewrite E, vset_ne by done. setoid_rewrite E. setoid_rewrite vset_ne; [|done..].
    apply Mk.
  - intros b id a n. rewrite !E, vset_ne by done. intros Ha Hs Hn.
    destruct (S _ _ _ _ Ha Hs Hn) as [Hsp Hu]. split.
    + rewrite vset_eq. case_decide; [eauto|done].
    + intros id' a'. rewrite E, vset_ne by done. eauto.
  - intros b d r. rewrite E, vset_ne by done. apply P.
Qed.

Lemma Inv_approval_set h w w' acc d r :
  Inv h w → approval_backed h acc d r →
  (∀ g j, vals w' g j = vset Fapproval (acc, d) (Some r) (vals w) g j) → Inv h w'.
Proof.
  intros [A Mk S P] Hr E. split.
  - intros b id a. unfold stored, nextv, epochv. rewrite !E, !vset_ne by done. apply A.
  - intros b m. rewrite E, vset_ne by done. setoid_rewrite E. setoid_rewrite vset_ne; [|done..].
    apply Mk.
  - intros b id a n. rewrite !E, !vset_ne by done. intros Ha Hs Hn.
    destruct (S _ _ _ _ Ha Hs Hn) as [Hsp Hu]. split; [done|].
    intros id' a'. rewrite E, vset_ne by done. eauto.
  - intros b d' r'. rewrite E, vset_eq. case_decide as Hk; [|apply P].
    injection Hk as -> ->. by intros [= <-].
Qed.

Lemma Inv_next_set h w w' acc n :
  Inv h w → (nextv w acc ≤ n)%N →
  (∀ g j, vals w' g j = vset Fnext_attempt acc (Some n) (vals w) g j) → Inv h w'.
Proof.
  intros [A Mk S P] Hn E. split.
  - intros b id a. unfold stored, nextv, epochv. rewrite !E, vset_eq, !vset_ne by done.
    intros Ha. apply A in Ha as (? & Hlt & ? & c & Hc & Hb). split; [done|].
    split; [|eauto]. case_decide as Hk; [|done]. simpl in *. subst b. unfold nextv in *. lia.
  - intros b m. rewrite E, vset_ne by done. setoid_rewrite E. setoid_rewrite vset_ne; [|done..].
    apply Mk.
  - intros b id a n'. rewrite !E, !vset_ne by done. intros Ha Hs Hn'.
    destruct (S _ _ _ _ Ha Hs Hn') as [Hsp Hu]. split; [done|].
    intros id' a'. rewrite E, vset_ne by done. eauto.
  - intros b d r. rewrite E, vset_ne by done. apply P.
Qed.

(** What [save] may write without breaking the invariant. *)
Record may_save (h : history) w acc (a : Attempt) : Prop := {
  ms_next : (at_id a < nextv w acc)%N;
  ms_epoch : (at_epoch a ≤ epochv w acc)%N;
  ms_backed : ∃ c, (at_epoch a = epochv w acc → vals w Fconfig acc = Some c) ∧ backed h acc c a;
  ms_old : ∀ b, vals w Fattempt (acc, at_id a) = Some b → at_state b ≠ State_Collecting →
    at_state a ≠ State_Collecting ∧ executable_after a = executable_after b;
  ms_spent : at_state a = State_Completed → ∀ n, zk_nullifier a = Some n →
    is_Some (vals w Fnullifier (acc, n)) ∧
    ∀ id b, vals w Fattempt (acc, id) = Some b → at_state b = State_Completed →
      zk_nullifier b = Some n → id = at_id a;
}.

Lemma stored_save e acc a u w w' b id x :
  save e acc a w = Ok (u, w') → stored w' b id x →
  (b, id) = (acc, at_id a) ∧ x = a ∨ (b, id) ≠ (acc, at_id a) ∧ stored w b id x.
Proof.
  intros [_ [Hv|(_ & _ & Hn & Hv)]]%save_Ok; unfold stored; rewrite !Hv;
    destruct (decide ((b, id) = (acc, at_id a))) as [E|E].
  - rewrite E. vsimp. left. naive_solver.
  - vsimp. rewrite !decide_False by done. by right.
  - rewrite E. vsimp. rewrite Hn. left. naive_solver.
  - vsimp. rewrite !decide_False by done. by right.
Qed.

Lemma save_frame e acc a u w w' g j :
  save e acc a w = Ok (u, w') → g ≠ Fattempt → g ≠ Fcollecting → vals w' g j = vals w g j.
Proof.
  intros [_ [Hv|(_ & _ & _ & Hv)]]%save_Ok ? ?; by rewrite Hv, !vset_ne by congruence.
Qed.

Lemma save_attempt e acc a u w w' k b :
  save e acc a w = Ok (u, w') → vals w' Fattempt k = Some b →
  k = (acc, at_id a) ∧ b = a ∨ k ≠ (acc, at_id a) ∧ vals w Fattempt k = Some b.
Proof.
  intros [_ [Hv|(_ & _ & Hn & Hv)]]%save_Ok; rewrite Hv.
  - vsimp. case_decide; [left; naive_solver|by right].
  - vsimp. intros Hb. right. split; [intros ->; congruence|done].
Qed.

Lemma Inv_save h e acc a u w w' :
  Inv h w → may_save h w acc a → save e acc a w = Ok (u, w') → Inv h w'.
Proof.
  intros [A Mk S P] [Mn Me Mb Mo Ms] E.
  assert (F : ∀ g j, g ≠ Fattempt → g ≠ Fcollecting → vals w' g j = vals w g j)
    by (intros; by eapply save_frame). split.
  - intros b id x Hx. unfold nextv, epochv. rewrite !F by done.
    destruct (stored_save _ _ _ _ _ _ _ _ _ E Hx) as [[[= -> ->] ->]|[_ Hs]].
    + done.
    + by apply A.
  - intros b m. rewrite F by done. intros Hm. destruct (Mk b m Hm) as (x & Hx & Hs & Hl).
    destruct (decide ((b, mk_attempt_id m) = (acc, at_id a))) as [Hk|Hk].
    + rewrite Hk in Hx. destruct (Mo x Hx Hs) as [Hs' Hx']. exists a.
      apply save_Ok in E as [_ [Hv|(_ & _ & Hn & _)]]; [|congruence].
      rewrite Hk, Hv, vset_at, Hx'. done.
    + exists x. split; [|done]. apply save_Ok in E as [_ [Hv|(_ & _ & _ & Hv)]];
        rewrite Hv; vsimp; rewrite ?decide_False by done; done.
  - intros b id x n Hx Hs Hn. rewrite F by done.
    assert (Hu : ∀ id1 x1 id2 x2, vals w' Fattempt (b, id1) = Some x1 →
      at_state x1 = State_Completed → zk_nullifier x1 = Some n →
      vals w' Fattempt (b, id2) = Some x2 →
      at_state x2 = State_Completed → zk_nullifier x2 = Some n →
      is_Some (vals w Fnullifier (b, n)) ∧ id1 = id2).
    { intros id1 x1 id2 x2 H1 S1 N1 H2 S2 N2.
      apply (save_attempt _ _ _ _ _ _ _ _ E) in H1 as [[K1 ->]|[K1 H1]],
        H2 as [[K2 ->]|[K2 H2]].
      - injection K1 as -> ->. injection K2 as ->. destruct (Ms S1 n N1). done.
      - injection K1 as -> ->. destruct (Ms S1 n N1) as [? Hu]. split; [done|].
        symmetry. by eapply Hu.
      - injection K2 as -> ->. destruct (Ms S2 n N2) as [? Hu]. split; [done|]. by eapply Hu.
      - destruct (S _ _ _ _ H2 S2 N2) as [? Hu]. split; [done|]. by eapply Hu. }
    split; [by eapply (Hu id x id x)|]. intros id' x' Hx' Hs' Hn'.
    symmetry. by eapply (Hu id x id' x').
  - intros b d r. rewrite F by done. apply P.
Qed.

Lemma may_save_ext h w w' acc a :
  (∀ f k, tracked f = true → vals w' f k = vals w f k) → may_save h w acc a → may_save h w' acc a.
Proof.
  intros E [N Ep B Ol S]. unfold nextv, epochv in *.
  split; unfold nextv, epochv; rewrite ?E by done; try done.
  - intros Hs n Hn. rewrite E by done. destruct (S Hs n Hn) as [? Hu]. split; [done|].
    intros id b. rewrite E by done. apply Hu.
Qed.

(** A live attempt of the current configuration may be rewritten with the same
    identity, as long as it does not go back to collecting or complete. *)
Lemma live_backed h w acc c id a :
  Inv h w → stored w acc id a → vals w Fconfig acc = Some c → at_epoch a = epochv w acc →
  at_id a = id ∧ (id < nextv w acc)%N ∧ backed h acc c a.
Proof.
  intros I Hs Hc He. destruct (inv_attempt _ _ I _ _ _ Hs) as (? & ? & _ & c' & Ht & Hb).
  rewrite (Ht He) in Hc. injection Hc as ->. done.
Qed.

Lemma may_save_live h w acc c a a' :
  Inv h w → stored w acc (at_id a) a → vals w Fconfig acc = Some c →
  at_epoch a = epochv w acc → at_id a' = at_id a → at_epoch a' = at_epoch a →
  backed h acc c a' →
  (at_state a ≠ State_Collecting →
     at_state a' ≠ State_Collecting ∧ executable_after a' = executable_after a) →
  at_state a' ≠ State_Completed → may_save h w acc a'.
Proof.
  intros I Hs Hc He Hi He' Hb Hst Hnc.
  destruct (live_backed _ _ _ _ _ _ I Hs Hc He) as (_ & Hn & _).
  split; rewrite ?Hi, ?He', ?He; try done.
  - exists c. done.
  - intros b Hb'. destruct Hs as [Hs|[Hs _]]; rewrite Hs in Hb'; [|done].
    injection Hb' as <-. done.
Qed.

Lemma backed_state h acc c a s :
  backed h acc c a → ¬ was_authorized s → backed h acc c (with_state a s).
Proof. intros [N G Z CN CG CZ W] Hs. by split. Qed.

Lemma backed_promoted h e o acc c a :
  backed h acc c a → (e, o) ∈ h → initiation_met c a = true →
  backed h acc c (with_windows (with_state a State_Authorized) (sequence e)
                    (sequence e + cf_delay_ledgers c)
                    (sequence e + cf_delay_ledgers c + cf_expiry_ledgers c)).
Proof. intros [N G Z CN CG CZ W] Hin Hm. split; try done. intros _. eauto 10. Qed.

Lemma AuthInv_save e acc a u w w' :
  AuthInv w → save e acc a w = Ok (u, w') →
  (∀ b, vals w Fattempt (acc, at_id a) = Some b → at_state b ≠ State_Collecting →
     at_state a ≠ State_Collecting) →
  AuthInv w'.
Proof.
  intros A E Hold b id. rewrite (save_frame _ _ _ _ _ _ _ _ E) by done. intros Hi.
  destruct (A b id Hi) as (x & Hx & Hs).
  destruct (decide ((b, id) = (acc, at_id a))) as [Hk|Hk].
  - rewrite Hk in *. exists a. apply save_Ok in E as [_ [Hv|(_ & _ & Hn & _)]]; [|congruence].
    rewrite Hv, vset_at. eauto.
  - exists x. split; [|done]. apply save_Ok in E as [_ [Hv|(_ & _ & _ & Hv)]];
      rewrite Hv; vsimp; rewrite ?decide_False by done; done.
Qed.

(** Saving the attempt just promoted. *)
Lemma AuthInv_promoted e acc a u w w1 w' :
  AuthInv w → at_state a = State_Authorized →
  (∀ g j, vals w1 g j = vset Fauthorized acc (Some (at_id a))
            (vset Finvalidate_below acc (Some (nextv w acc)) (vals w)) g j) →
  save e acc a w1 = Ok (u, w') →
  AuthInv w'.
Proof.
  intros A Hs Hv E b id. rewrite (save_frame _ _ _ _ _ _ _ _ E) by done.
  apply save_Ok in E as [_ [Hv'|(? & _)]]; [|done].
  rewrite Hv. vsimp. destruct (decide (b = acc)) as [->|Hb].
  - rewrite decide_True by done. intros [= <-]. exists a. rewrite Hv', vset_at, Hs. done.
  - rewrite decide_False by done. intros Hi. destruct (A b id Hi) as (x & Hx & ?). exists x. split; [|done].
    rewrite Hv'. vsimp. rewrite decide_False by congruence. rewrite Hv. by vsimp.
Qed.

Lemma AuthInv_ext w w' :
  (∀ f k, f = Fauthorized ∨ f = Fattempt → vals w' f k = vals w f k) → AuthInv w → AuthInv w'.
Proof.
  intros E A acc id. rewrite E by auto. intros Hi. destruct (A acc id Hi) as (x & ? & ?).
  exists x. by rewrite E by auto.
Qed.

Lemma AuthInv_remove w w' acc :
  (∀ g j, vals w' g j = vset Fauthorized acc None (vals w) g j) → AuthInv w → AuthInv w'.
Proof.
  intros E A b id Hi. rewrite E, vset_eq in Hi. case_decide; [done|].
  destruct (A b id Hi) as (x & ? & ?). exists x. rewrite E. by vsimp.
Qed.

Definition good (h : history) w : Prop := Inv h w ∧ AuthInv w.

Lemma good_same h w w' : (∀ f k, vals w' f k = vals w f k) → good h w → good h w'.
Proof. intros E [I A]. split; [by eapply Inv_same|by eapply AuthInv_same]. Qed.

Lemma good_mono h h' w : (∀ x, x ∈ h → x ∈ h') → good h w → good h' w.
Proof. intros Hs [I A]. split; [by eapply Inv_mono|done]. Qed.

(** ** The transitions preserve it *)

(** [a] is the record [b] stored for a live attempt of the configuration [c],
    with evidence added. *)
Record updated (h : history) w acc (c : CompiledRecoveryConfig) (b a : Attempt) : Prop := {
  up_config : vals w Fconfig acc = Some c;
  up_stored : stored w acc (at_id b) b;
  up_epoch : at_epoch b = epochv w acc;
  up_id : at_id a = at_id b;
  up_epoch' : at_epoch a = at_epoch b;
  up_state : at_state a = at_state b;
  up_exec : executable_after a = executable_after b;
  up_backed : backed h acc c a;
  up_phase : at_state b = State_Collecting ∨ at_state b = State_Authorized;
}.

Lemma updated_may_save h w acc c b a s :
  Inv h w → updated h w acc c b a → ¬ was_authorized s → s ≠ State_Collecting →
  may_save h w acc (with_state a s).
Proof.
  intros I [Uc Us Ue Ui Ue' Ust Ux Ub Up] Hs Hnc.
  refine (may_save_live h w acc c b _ I Us Uc Ue _ _ _ _ _); simpl; try done.
  - by apply backed_state.
  - intros ->. apply Hs. by right.
Qed.

Lemma good_save_updated h e w acc c b a u w' :
  good h w → updated h w acc c b a → save e acc a w = Ok (u, w') → good h w'.
Proof.
  intros [I A] [Uc Us Ue Ui Ue' Ust Ux Ub Up] E. split.
  - refine (Inv_save h e acc a u w w' I _ E).
    refine (may_save_live h w acc c b a I Us Uc Ue Ui Ue' Ub _ _); rewrite Ust; [done|].
    by destruct Up as [-> | ->].
  - refine (AuthInv_save e acc a u w w' A E _). intros x Hx Hs. rewrite Ust.
    rewrite Ui in Hx. destruct Us as [Us|[Us _]]; congruence.
Qed.

Lemma good_cancel h e acc c b a counted u w w' :
  good h w → updated h w acc c b a → cancel e acc c a counted w = Ok (u, w') → good h w'.
Proof.
  intros [I A] U (_ & w1 & w2 & u' & H1 & Hs & H2)%cancel_Ok.
  assert (T1 : ∀ f k, tracked f = true → vals w1 f k = vals w f k).
  { intros f k Hf. rewrite H1. destruct (counted && _); [|done].
    rewrite vset_ne; [done|]. intros <-. done. }
  assert (A1 : ∀ f k, f = Fauthorized ∨ f = Fattempt → vals w1 f k = vals w f k).
  { intros f k Hf. rewrite H1. destruct (counted && _); [|done].
    rewrite vset_ne; [done|]. intros <-. by destruct Hf. }
  assert (Inv h w2) as I2.
  { refine (Inv_save h e acc _ u' w1 w2 _ _ Hs); [by eapply Inv_ext|].
    eapply may_save_ext; [exact T1|]. eapply updated_may_save; try done.
    intros [?|?]; done. }
  assert (AuthInv w2) as A2.
  { refine (AuthInv_save e acc _ u' w1 w2 _ Hs _); [by eapply AuthInv_ext|]. done. }
  destruct (bool_decide _); [|by eapply good_same].
  split; [|by eapply AuthInv_remove].
  refine (Inv_ext h w2 w' _ I2). intros f k Hf. rewrite H2, vset_ne; [done|]. intros <-. done.
Qed.

Lemma good_after_evidence h e o acc c b a dom u w w' :
  good h w → (e, o) ∈ h → updated h w acc c b a →
  (dom = Domain_Initiate → at_state b = State_Collecting) →
  after_evidence e acc c a dom w = Ok (u, w') → good h w'.
Proof.
  intros G Hin U Hdom E. unfold after_evidence in E. destruct dom.
  - apply bind_Ok in E as (a' & w1 & Hp & E).
    destruct (initiation_met c a) eqn:Hm.
    2: { apply mret_Ok in Hp as [-> ->]. by eapply good_save_updated. }
    apply promote_Ok in Hp as (_ & [[-> Hv]|(_ & -> & Hv)]).
    + assert (good h w1) as [I1 A1] by by eapply good_same. split.
      * refine (Inv_save h e acc _ u w1 w' I1 _ E). eapply may_save_ext; [by intros; apply Hv|].
        eapply updated_may_save; try done; [apply G|]. intros [?|?]; done.
      * by refine (AuthInv_save e acc _ u w1 w' A1 E _).
    + destruct G as [I A]. destruct U as [Uc Us Ue Ui Ue' Ust Ux Ub Up].
      assert (T1 : ∀ f k, tracked f = true → vals w1 f k = vals w f k).
      { intros f k Hf. rewrite Hv, !vset_ne; [done|intros <-; done..]. }
      split.
      * refine (Inv_save h e acc _ u w1 w' _ _ E); [by eapply Inv_ext|].
        eapply may_save_ext; [exact T1|].
        refine (may_save_live h w acc c b _ I Us Uc Ue _ _ _ _ _); simpl; try done.
        -- by eapply backed_promoted.
        -- rewrite Hdom by done. done.
      * by eapply (AuthInv_promoted e acc _ u w w1 w' A); [| |exact E].
  - destruct (cancellation_met c a).
    + by eapply good_cancel.
    + by eapply good_save_updated.
Qed.

Lemma backed_more_guardians h acc c a g :
  backed h acc c a → g ∉ at_guardians a → at_state a = State_Collecting →
  approved h acc c a Domain_Initiate g →
  backed h acc c (with_evidence a (at_guardians a ++ [g]) (zk_nullifier a)
                    (cancel_guardians a) (cancel_zk a)).
Proof.
  intros [N G Z CN CG CZ W] Hg Hs Ha. split; try done; simpl.
  - apply NoDup_app. split_and!; [done| |repeat constructor; set_solver]. set_solver.
  - intros x [Hx|Hx%list_elem_of_singleton]%elem_of_app; [by apply G|by subst].
  - rewrite Hs. intros [?|?]; done.
Qed.

Lemma backed_more_cancels h acc c a g :
  backed h acc c a → g ∉ cancel_guardians a → approved h acc c a Domain_Cancel g →
  backed h acc c (with_evidence a (at_guardians a) (zk_nullifier a)
                    (cancel_guardians a ++ [g]) (cancel_zk a)).
Proof.
  intros [N G Z CN CG CZ W] Hg Ha. split; try done; simpl.
  - apply NoDup_app. split_and!; [done| |repeat constructor; set_solver]. set_solver.
  - intros x [Hx|Hx%list_elem_of_singleton]%elem_of_app; [by apply CG|by subst].
Qed.

Lemma backed_proof h acc c a n :
  backed h acc c a → at_state a = State_Collecting → proved h acc c a Domain_Initiate n →
  backed h acc c (with_evidence a (at_guardians a) (Some n)
                    (cancel_guardians a) (cancel_zk a)).
Proof.
  intros [N G Z CN CG CZ W] Hs Hp. split; try done; simpl.
  - by intros n' [= <-].
  - rewrite Hs. intros [?|?]; done.
Qed.

Lemma backed_cancel_proof h acc c a n :
  backed h acc c a → proved h acc c a Domain_Cancel n →
  backed h acc c (with_evidence a (at_guardians a) (zk_nullifier a) (cancel_guardians a) true).
Proof. intros [N G Z CN CG CZ W] Hp. split; try done; simpl. intros _. by exists n. Qed.

(** A loaded live attempt, in the terms of [updated]. *)
Lemma loaded_live h e w acc id c a w1 :
  good h w → vals w Fconfig acc = Some c → load_live e acc id w = Ok (a, w1) →
  w1 = w ∧ at_id a = id ∧ updated h w acc c a a ∧ live_in e w acc a = true.
Proof.
  intros [I A] Hc (-> & Hs & Hl)%load_live_Ok.
  destruct (live_in_cases _ _ _ _ Hl) as [He Hph].
  destruct (live_backed _ _ _ _ _ _ I Hs Hc He) as (Hi & _ & Hb).
  split; [done|]. split; [done|]. split; [|done]. split; try done; [by rewrite Hi|].
  destruct Hph as [[? _]|[? _]]; auto.
Qed.

Lemma updated_with h w acc c a a' :
  updated h w acc c a a → at_id a' = at_id a → at_epoch a' = at_epoch a →
  at_state a' = at_state a → executable_after a' = executable_after a →
  backed h acc c a' → updated h w acc c a a'.
Proof. intros [] ? ? ? ? ?. by split. Qed.

Lemma good_cons h e w : good h w → good ((e, outside w) :: h) w.
Proof. apply good_mono. intros x Hx. by right. Qed.

Lemma good_submit_guardian h e acc id dom g u w w' :
  good h w → submit_guardian e acc id dom g w = Ok (u, w') →
  good ((e, outside w) :: h) w'.
Proof.
  intros G%(good_cons _ e) E. set (h' := (e, outside w) :: h) in *. unfold submit_guardian in E.
  apply bind_Ok in E as (c & w1 & [Hc ->]%require_config_Ok & E).
  step E as set Hset. apply ok_or_Ok in Hset.
  step E as u1 H1. apply negb_false_iff, contains_true in H1.
  apply bind_Ok in E as (a & w1 & Hl & E).
  destruct (loaded_live _ _ _ _ _ _ _ _ G Hc Hl) as (-> & Hi & U & Hlive).
  apply bind_Ok in E as (a' & w1 & Ha & E).
  assert (w1 = w ∧ (dom = Domain_Initiate → at_state a = State_Collecting) ∧
    (approved h' acc c a dom g → updated h' w acc c a a') ∧
    ∀ s, attempt_statement e acc c a' dom = Ok s → attempt_statement e acc c a dom = Ok s)
    as (-> & Hdom & Hup & Hst).
  { destruct dom.
    - step Ha as u2 H2. apply negb_false_iff, bool_decide_eq_true in H2.
      step Ha as u3 H3. apply contains_false in H3. apply mret_Ok in Ha as [-> ->].
      split_and!; [done|done| |done]. intros Hap. eapply updated_with; try done.
      apply backed_more_guardians; try done. by destruct U.
    - step Ha as u3 H3. apply contains_false in H3. apply mret_Ok in Ha as [-> ->].
      split_and!; [done|done| |done]. intros Hap. eapply updated_with; try done.
      apply backed_more_cancels; try done. by destruct U. }
  step E as s Hs. step E as u2 H2. destruct u2. step E as d Hd. step E as u3 H3.
  apply demand_Ok in H3.
  refine (good_after_evidence h' e (outside w) acc c a a' dom u w w' G _ _ Hdom E);
    [by left|]. apply Hup. exists set, e, (outside w), s, d.
  split_and!; try done; [by left|by apply Hst].
Qed.

Lemma verify_zk_Ok e acc z s ev u w w' :
  verify_zk e acc z s ev w = Ok (u, w') →
  w' = w ∧ try_verify (outside w) (zf_adapter z) s (factor_binding z) ev = true ∧
  vals w Fnullifier (acc, nullifier ev) = None.
Proof.
  unfold verify_zk. intros E. step E as b Hb. step E as u1 H1. step E as p Hp.
  apply refuse_Ok in E as [E ->]. split; [done|]. apply negb_false_iff in H1. subst.
  split; [congruence|]. by destruct (vals w Fnullifier _).
Qed.

Lemma good_submit_zk h e acc id dom ev u w w' :
  good h w → submit_zk e acc id dom ev w = Ok (u, w') →
  good ((e, outside w) :: h) w'.
Proof.
  intros G%(good_cons _ e) E. set (h' := (e, outside w) :: h) in *. unfold submit_zk in E.
  apply bind_Ok in E as (c & w1 & [Hc ->]%require_config_Ok & E).
  step E as z Hz. apply ok_or_Ok in Hz. apply bind_Ok in E as (a & w1 & Hl & E).
  destruct (loaded_live _ _ _ _ _ _ _ _ G Hc Hl) as (-> & Hi & U & Hlive).
  apply bind_Ok in E as (u1 & w1 & Ha & E).
  assert (w1 = w ∧ (dom = Domain_Initiate → at_state a = State_Collecting)) as [-> Hdom].
  { destruct dom.
    - step Ha as u2 H2. apply negb_false_iff, bool_decide_eq_true in H2.
      by apply refuse_Ok in Ha as [_ ->].
    - by apply refuse_Ok in Ha as [_ ->]. }
  step E as s Hs. step E as u2 H2. destruct u2.
  apply bind_Ok in E as (u2 & w1 & (-> & Hv & Hn)%verify_zk_Ok & E).
  refine (good_after_evidence h' e (outside w) acc c a _ dom u w w' G _ _ Hdom E); [by left|].
  assert (proved h' acc c a dom (nullifier ev)) as Hpr.
  { exists z, e, (outside w), s, ev. split_and!; try done. by left. }
  destruct dom; eapply updated_with; try done; destruct U.
  - apply backed_proof; auto.
  - by eapply backed_cancel_proof.
Qed.

Lemma change_statement_for_Ok e acc c subj n s w w' :
  change_statement_for e acc c subj n w = Ok (s, w') →
  w' = w ∧ s = statement e acc c (epochv w acc) n subj ∧
  (subject_action subj = Action_Reconfigure ∨ subject_action subj = Action_Upgrade).
Proof.
  unfold change_statement_for. intros E.
  destruct subj; try done;
    apply bind_Ok in E as (m & w1 & [-> ->]%epoch_of_Ok & E); apply mret_Ok in E as [-> ->];
    simpl; auto.
Qed.

(** The untracked fields are free to change. *)
Lemma good_untracked h w w' :
  (∀ f k, tracked f = true ∨ f = Fauthorized → vals w' f k = vals w f k) →
  good h w → good h w'.
Proof.
  intros E [I A]. split.
  - eapply Inv_ext; [|done]. auto.
  - eapply AuthInv_ext; [|done]. intros f k [-> | ->]; apply E; auto.
Qed.

Lemma good_approve_change h e acc subj n g u w w' :
  good h w → approve_change e acc subj n g w = Ok (u, w') → good ((e, outside w) :: h) w'.
Proof.
  intros [I A]%(good_cons _ e) E. set (h' := (e, outside w) :: h) in *. unfold approve_change in E.
  apply bind_Ok in E as (c & w1 & [Hc ->]%require_config_Ok & E).
  step E as set Hset. step E as u1 H1.
  apply bind_Ok in E as (u2 & w1 & [_ ->]%refuse_in_window_Ok & E).
  apply bind_Ok in E as (s & w1 & (-> & Hs & _)%change_statement_for_Ok & E).
  step E as u3 H3. step E as d Hd. step E as o Ho. subst o.
  step E as u4 H4. apply contains_false in H4. step E as u5 H5. apply demand_Ok in H5.
  apply store_approval_Ok in E as [Hv _]. split.
  - refine (Inv_approval_set h' w w' acc d _ I _ Hv).
    assert (approval_backed h' acc d (default ChangeApproval_empty (vals w Fapproval (acc, d))))
      as [N G Z].
    { destruct (vals w Fapproval (acc, d)) as [r|] eqn:Hr; [by eapply inv_approval|].
      split; simpl; [constructor|set_solver|done]. }
    split; simpl.
    + apply NoDup_app. split_and!; [done| |repeat constructor; set_solver]. set_solver.
    + intros x [Hx|Hx%list_elem_of_singleton]%elem_of_app; [by apply G|subst x].
      exists e, (outside w). split; [by left|done].
    + apply Z.
  - eapply AuthInv_ext; [|exact A]. intros f k Hf. rewrite Hv, vset_ne; [done|].
    by destruct Hf as [-> | ->].
Qed.

Lemma good_submit_zk_change h e acc subj n ev u w w' :
  good h w → submit_zk_change e acc subj n ev w = Ok (u, w') → good ((e, outside w) :: h) w'.
Proof.
  intros [I A]%(good_cons _ e) E. set (h' := (e, outside w) :: h) in *. unfold submit_zk_change in E.
  apply bind_Ok in E as (c & w1 & [Hc ->]%require_config_Ok & E).
  step E as z Hz. apply ok_or_Ok in Hz.
  apply bind_Ok in E as (u2 & w1 & [_ ->]%refuse_in_window_Ok & E).
  apply bind_Ok in E as (s & w1 & (-> & Hs & _)%change_statement_for_Ok & E).
  step E as u3 H3. step E as d Hd. step E as o Ho. subst o. step E as u4 H4.
  apply bind_Ok in E as (u5 & w1 & (-> & Hver & _)%verify_zk_Ok & E).
  apply store_approval_Ok in E as [Hv _]. split.
  - refine (Inv_approval_set h' w w' acc d _ I _ Hv).
    assert (approval_backed h' acc d (default ChangeApproval_empty (vals w Fapproval (acc, d))))
      as [N G Z].
    { destruct (vals w Fapproval (acc, d)) as [r|] eqn:Hr; [by eapply inv_approval|].
      split; simpl; [constructor|set_solver|done]. }
    split; simpl; [done|done|]. intros _. exists c, z, e, (outside w), s, ev.
    split_and!; try done; [by left|by subst s..].
  - eapply AuthInv_ext; [|exact A]. intros f k Hf. rewrite Hv, vset_ne; [done|].
    by destruct Hf as [-> | ->].
Qed.

Lemma good_rcv_cancel h e acc id u w w' :
  good h w → rcv_cancel e acc id w = Ok (u, w') → good h w'.
Proof.
  intros G E. unfold rcv_cancel in E. step E as u1 H1.
  apply bind_Ok in E as (c & w1 & [Hc ->]%require_config_Ok & E). step E as u2 H2.
  apply bind_Ok in E as (a & w1 & Hl & E).
  destruct (loaded_live _ _ _ _ _ _ _ _ G Hc Hl) as (-> & _ & U & _).
  by eapply good_cancel.
Qed.

Lemma require_condition_Ok e acc c subj n u w w' :
  require_condition e acc c subj n w = Ok (u, w') →
  w' = w ∧ ∃ d r, let s := statement e acc c (epochv w acc) n subj in
    check_fresh e s = Ok tt ∧ digest s = Ok d ∧
    vals w Fapproval (acc, d) = Some r ∧
    (∀ set, config_guardians c = Some set →
       (quorum set ≤ N.of_nat (length (filter (λ g, g ∈ guardians set) (ca_guardians r))))%N) ∧
    (is_Some (config_zk c) → ca_zk r = true).
Proof.
  unfold require_condition. intros E.
  apply bind_Ok in E as (s & w1 & (-> & -> & _)%change_statement_for_Ok & E).
  step E as u1 H1. destruct u1. step E as d Hd. step E as o Ho. step E as r Hr.
  apply ok_or_Ok in Hr. subst o. step E as u2 H2. apply refuse_Ok in E as [E ->].
  split; [done|]. exists d, r. simpl. split_and!; try done.
  - intros set Hset. rewrite Hset in H2. by apply N.ltb_ge in H2.
  - intros [z Hz]. rewrite Hz in E. simpl in E. by apply negb_false_iff in E.
Qed.

Lemma good_bump_epoch h e acc n w w' :
  good h w → bump_epoch e acc w = Ok (n, w') → good h w'.
Proof.
  intros [I A] E. split; [by eapply Inv_bump_epoch|].
  apply bump_epoch_Ok in E as (_ & _ & Hv & _). eapply AuthInv_ext; [|exact A].
  intros f k Hf. rewrite Hv, vset_ne; [done|]. by destruct Hf as [-> | ->].
Qed.

Lemma good_store_config h e acc c u w w' :
  good h w → store_config e acc c w = Ok (u, w') → good h w'.
Proof.
  intros [I A] E. split; [by eapply Inv_store_config|].
  apply store_config_Ok in E as (_ & Hv & _). eapply AuthInv_ext; [|exact A].
  intros f k Hf. rewrite Hv, !vset_ne; [done|by destruct Hf as [-> | ->]..].
Qed.

Lemma good_rcv_upgrade h e acc st n w w' :
  good h w → rcv_upgrade e acc st w = Ok (n, w') → good h w'.
Proof.
  intros G E. unfold rcv_upgrade in E. step E as u1 H1.
  apply bind_Ok in E as (c & w1 & [Hc ->]%require_config_Ok & E).
  apply bind_Ok in E as (u2 & w1 & [_ ->]%refuse_in_window_Ok & E). destruct st.
  - apply bind_Ok in E as (u3 & w1 & H3 & E). apply epoch_of_Ok in E as [_ ->].
    case_bool_decide; [by apply require_condition_Ok in H3 as [-> _]|].
    by apply mret_Ok in H3 as [_ ->].
  - apply bind_Ok in E as (m & w1 & [-> ->]%epoch_of_Ok & E). step E as u3 H3.
    apply bind_Ok in E as (m & w1 & Hb & E). effect E as w2 H2 O2. apply mret_Ok in E as [-> ->].
    eapply good_same; [exact H2|]. by eapply good_bump_epoch.
Qed.

(** A completing marker is left for a live authorized attempt only. *)
Lemma auth_live_Some e w acc a :
  AuthInv w → auth_live e w acc = Some a →
  vals w Fattempt (acc, at_id a) = Some a ∧ vals w Fauthorized acc = Some (at_id a) ∧
  at_state a = State_Authorized ∧ at_epoch a = epochv w acc ∧ (sequence e < expires_at a)%N.
Proof.
  intros A. unfold auth_live. destruct (vals w Fauthorized acc) as [id|] eqn:Hi; [|done].
  destruct (A acc id Hi) as (x & Hx & Hs). rewrite Hx.
  destruct (live_in e w acc x) eqn:Hl; [|done]. intros [= ->].
  apply live_in_cases in Hl as [He [[? _]|(? & Ha & ?)]]; [done|].
  rewrite Hi in Ha. injection Ha as ->. done.
Qed.

Lemma good_enforce h e ctx sg r acc u w w' :
  good h w → enforce e ctx sg r acc w = Ok (u, w') → good h w'.
Proof.
  intros [I A] E. unfold enforce in E. step E as u1 H1. step E as u2 H2.
  apply bind_Ok in E as (u3 & w1 & H3 & E). apply refuse_Ok in H3 as [_ ->].
  apply authorize_completion_Ok in E as (cc & t & a & _ & _ & _ & Ha & _ & Hx & Hv).
  destruct (auth_live_Some _ _ _ _ A Ha) as (Hs & _ & Hst & _). split.
  - eapply (Inv_marker_set h w w' acc (Build_CompletionMarker (at_id a) _ (sequence e)) a I);
      [exact Hs|congruence|exact Hx|exact Hv].
  - eapply AuthInv_ext; [|exact A]. intros f k Hf. rewrite Hv, vset_ne; [done|].
    by destruct Hf as [-> | ->].
Qed.

Lemma refuse_revoked_Ok e acc l u w w' : refuse_revoked acc l w = Ok (u, w') → w' = w.
Proof.
  induction l as [|f l IH]; simpl; intros E; [by apply mret_Ok in E as [_ ->]|].
  step E as b Hb. step E as u1 H1. auto.
Qed.

(** What opening an attempt stores. *)
Lemma begin_Ok e acc act rs id w w' :
  begin e acc act rs w = Ok (id, w') →
  ∃ c a w1 w2 u, vals w Fconfig acc = Some c ∧ auth_live e w acc = None ∧
    id = nextv w acc ∧ (id < U64_MAX)%N ∧
    (∀ g j, vals w1 g j = vset Fnext_attempt acc (Some (id + 1)%N) (vals w) g j) ∧
    save e acc a w1 = Ok (u, w2) ∧ (∀ g j, vals w' g j = vals w2 g j) ∧
    at_id a = id ∧ at_action a = act ∧ at_epoch a = epochv w acc ∧ created_at a = sequence e ∧
    evidence_deadline a = (sequence e + cf_expiry_ledgers c)%N ∧
    cancel_until a = (evidence_deadline a + cf_delay_ledgers c + cf_expiry_ledgers c)%N ∧
    at_state a = State_Collecting ∧ at_guardians a = [] ∧ zk_nullifier a = None ∧
    cancel_guardians a = [] ∧ cancel_zk a = false ∧
    replacements_hash rs = Ok (at_replacements_hash a).
Proof.
  unfold begin. intros E. apply bind_Ok in E as (c & w0 & [Hc ->]%require_config_Ok & E).
  apply bind_Ok in E as (l & w0 & [-> ->]%authorized_live_Ok & E).
  step E as u1 H1. step E as rh Hrh. apply map_err_Ok in Hrh. step E as u2 H2.
  step E as cur Hcur. step E as cur' Hcur'.
  apply bind_Ok in E as (src & w0 & Hsrc & E).
  assert (w0 = w) as ->.
  { destruct act; try (by apply mret_Ok in Hsrc as [_ ->]).
    step Hsrc as x Hx. step Hsrc as y Hy. by apply lift_Ok in Hsrc as [_ ->]. }
  apply bind_Ok in E as (sh & w0 & Hsh & E).
  assert (w0 = w) as ->.
  { destruct act; try (by apply lift_Ok in Hsh as [_ ->]);
      (step Hsh as x Hx; by apply lift_Ok in Hsh as [_ ->]). }
  step E as comp Hcomp. step E as der Hder. step E as der' Hder'.
  apply bind_Ok in E as (u3 & w0 & Hz & E).
  assert (w0 = w) as ->.
  { destruct (head _); [|by apply mret_Ok in Hz as [_ ->]].
    step Hz as x Hx. by apply refuse_Ok in Hz as [_ ->]. }
  apply bind_Ok in E as (u4 & w0 & Hrv%(refuse_revoked_Ok e) & E). subst w0.
  step E as rep Hrep. step E as u5 H5. step E as o Ho. subst o.
  step E as nx Hnx. apply u64_add_Ok in Hnx as [-> Hnx].
  effect E as w1 V1 O1. effect E as w2 V2 O2.
  step E as dl Hdl. apply add_Ok in Hdl as [-> _].
  step E as cp Hcp. apply add_Ok in Hcp as [-> _].
  step E as ls Hls. apply add_Ok in Hls as [-> _].
  apply bind_Ok in E as (ep & w3 & [-> ->]%epoch_of_Ok & E).
  apply bind_Ok in E as (u6 & w3 & Hsv & E). effect E as w4 V4 O4. apply mret_Ok in E as [-> ->].
  assert (V : ∀ g j, vals w2 g j = vset Fnext_attempt acc (Some (nextv w acc + 1)%N) (vals w) g j)
    by (intros; by rewrite V2, V1).
  exists c. eexists. exists w2, w3, u6. split; [done|]. split; [by destruct (auth_live e w acc)|].
  split; [done|]. split; [unfold nextv; lia|]. split; [exact V|]. split; [exact Hsv|].
  simpl. split_and!; try done. unfold epochv. by rewrite V, vset_ne.
Qed.

Lemma good_begin h e acc act rs id w w' :
  good h w → begin e acc act rs w = Ok (id, w') → good h w'.
Proof.
  intros [I A] (c & a & w1 & w2 & u & Hc & _ & -> & _ & V1 & Hs & V2 & Ha)%begin_Ok.
  destruct Ha as (Hi & _ & He & _ & _ & _ & Hst & Hg & Hz & Hcg & Hcz & _).
  assert (Inv h w1) as I1 by (eapply (Inv_next_set h w w1 acc); [done| |exact V1]; lia).
  assert (AuthInv w1) as A1.
  { eapply AuthInv_ext; [|exact A]. intros f k Hf. rewrite V1, vset_ne; [done|].
    by destruct Hf as [-> | ->]. }
  assert (Hnone : vals w1 Fattempt (acc, at_id a) = None).
  { destruct (vals w1 Fattempt (acc, at_id a)) as [b|] eqn:Hb; [|done]. exfalso.
    rewrite V1, vset_ne in Hb by done.
    destruct (inv_attempt _ _ I acc (at_id a) b) as (? & ? & _); [by left|]. lia. }
  assert (epochv w1 acc = epochv w acc) as Ee by (unfold epochv; by rewrite V1, vset_ne).
  eapply good_same; [exact V2|]. split.
  - refine (Inv_save h e acc a u w1 w2 I1 _ Hs). split.
    + unfold nextv at 1. rewrite V1, vset_at, Hi. simpl. lia.
    + rewrite Ee, He. done.
    + exists c. split; [by rewrite V1, vset_ne|].
      split; rewrite ?Hg, ?Hz, ?Hcg, ?Hcz, ?Hst;
        [constructor|set_solver|done|constructor|set_solver|done|intros [?|?]; done].
    + intros b. rewrite Hnone. done.
    + rewrite Hst. done.
  - refine (AuthInv_save e acc a u w1 w2 A1 Hs _). intros b. rewrite Hnone. done.
Qed.

(** What a completion checks and stores. *)
Lemma complete_Ok e acc m new d o w w' :
  complete e acc m new d w = Ok (o, w') →
  ∃ a n w1 w2 w3 u u', auth_live e w acc = Some a ∧ at_id a = mk_attempt_id m ∧
    d = at_target_doc_hash a ∧ new = Some n ∧
    cf_controller n = current_contract_address e ∧ cf_config_hash n = target_config_hash a ∧
    o = Sync_Completed {| cp_attempt_id := at_id a; cp_replaced := at_replaced a |} ∧
    match zk_nullifier a with
    | Some x => vals w Fnullifier (acc, x) = None ∧
                ∀ g j, vals w1 g j = vset Fnullifier (acc, x) (Some true) (vals w) g j
    | None => w1 = w
    end ∧
    save e acc (with_state a State_Completed) w1 = Ok (u, w2) ∧
    (∀ g j, vals w3 g j = vset Fauthorized acc None (vals w2) g j) ∧
    ∃ w4, store_config e acc n w3 = Ok (u', w4) ∧ ∀ g j, vals w' g j = vals w4 g j.
Proof.
  unfold complete. intros E. apply bind_Ok in E as (l & w0 & [-> ->]%authorized_live_Ok & E).
  step E as a Ha. apply ok_or_Ok in Ha. step E as u1 H1.
  apply orb_false_iff in H1 as [[H1 _]%orb_false_iff H2].
  apply negb_false_iff, N.eqb_eq in H1. apply negb_false_iff, bool_decide_eq_true in H2.
  step E as n Hn. apply ok_or_Ok in Hn. step E as u2 H3.
  apply orb_false_iff in H3 as [H3 H4].
  apply negb_false_iff, bool_decide_eq_true in H3, H4.
  apply bind_Ok in E as (u3 & w1 & Hz & E). apply bind_Ok in E as (u & w2 & Hs & E).
  effect E as w3 V3 O3. apply bind_Ok in E as (u' & w4 & Hc & E).
  effect E as w5 V5 O5. apply mret_Ok in E as [-> ->].
  exists a, n, w1, w2, w3, u, u'. split_and!; try done; [|by exists w4].
  destruct (zk_nullifier a) as [y|]; [|by apply mret_Ok in Hz as [_ ->]].
  step Hz as b Hb. step Hz as u4 H5. subst b. split; [by destruct (vals w Fnullifier _)|].
  effect Hz as w6 V6 O6. apply extend_ttl_Ok in Hz as [V7 _]. intros g j. by rewrite V7, V6.
Qed.

Lemma backed_completed h acc c a :
  backed h acc c a → at_state a = State_Authorized → backed h acc c (with_state a State_Completed).
Proof. intros [N G Z CN CG CZ W] Hs. split; try done. intros _. apply W. by left. Qed.

Lemma good_complete h e acc m new d o w w' :
  good h w → complete e acc m new d w = Ok (o, w') → good h w'.
Proof.
  intros [I A] (a & n & w1 & w2 & w3 & u & u' & Ha & Hi & _ & _ & _ & _ & _ & Hz & Hs & V3 &
    w4 & Hc & V4)%complete_Ok.
  destruct (auth_live_Some _ _ _ _ A Ha) as (Hst & _ & Hau & He & _).
  destruct (inv_attempt _ _ I acc (at_id a) a) as (_ & Hlt & Hle & c & Htie & Hb); [by left|].
  assert (Inv h w1 ∧ AuthInv w1 ∧ (∀ g j, g ≠ Fnullifier → vals w1 g j = vals w g j))
    as (I1 & A1 & F1).
  { destruct (zk_nullifier a) as [x|]; [|by subst w1]. destruct Hz as [_ V1]. split_and!.
    - by eapply Inv_nullifier_set.
    - eapply AuthInv_ext; [|exact A]. intros f k Hf. rewrite V1, vset_ne; [done|].
      by destruct Hf as [-> | ->].
    - intros g j Hg. by rewrite V1, vset_ne. }
  assert (good h w2) as [I2 A2].
  { split.
    - refine (Inv_save h e acc _ u w1 w2 I1 _ Hs). split; simpl; unfold nextv, epochv.
      + by rewrite F1.
      + by rewrite F1.
      + exists c. rewrite !F1 by done. split; [done|]. by apply backed_completed.
      + intros b. rewrite F1 by done. rewrite Hst. by intros [= <-] _.
      + intros _ x Hx. rewrite Hx in Hz. destruct Hz as [Hno V1]. split.
        * rewrite V1, vset_at. eauto.
        * intros id b Hb' Hbs Hbz. rewrite F1 in Hb' by done.
          destruct (inv_spent _ _ I _ _ _ _ Hb' Hbs Hbz) as [[? Hsp] _]. congruence.
    - by refine (AuthInv_save e acc _ u w1 w2 A1 Hs _). }
  eapply good_same; [exact V4|]. eapply good_store_config; [|exact Hc]. split.
  - refine (Inv_ext h w2 w3 _ I2). intros f k Hf. rewrite V3, vset_ne; [done|]. by intros <-.
  - by eapply AuthInv_remove.
Qed.

(** ** The five outcomes of [rcv_sync] *)

(** The change a document makes to the enrolled configuration. *)
Definition change_of (new : option CompiledRecoveryConfig) : ConfigChange :=
  match new with
  | Some n => ConfigChange_Set (cf_config_hash n)
  | None => ConfigChange_Remove
  end.

(** [w0] is the world once the marker, if there was one, is consumed. *)
Inductive sync_run e acc (d : bytes) (new : option CompiledRecoveryConfig) (until : N) w w0
  : SyncOutcome → World → Prop :=
| run_complete m o w' :
    vals w Fcompleting acc = Some m → mk_ledger m = sequence e →
    complete e acc m new d w0 = Ok (o, w') → sync_run e acc d new until w w0 o w'
| run_unchanged :
    auth_live e w0 acc = None →
    (vals w Fconfig acc = None ∧ new = None ∨
     ∃ old n, vals w Fconfig acc = Some old ∧ new = Some n ∧
       cf_config_hash n = cf_config_hash old) →
    sync_run e acc d new until w w0 Sync_Unchanged w0
| run_enrolled n u w' :
    auth_live e w0 acc = None → vals w Fconfig acc = None → new = Some n →
    cf_controller n = current_contract_address e → check_config acc n = Ok tt →
    store_config e acc n w0 = Ok (u, w') →
    sync_run e acc d new until w w0 Sync_Enrolled w'
| run_reconfigured old n u u' w' :
    auth_live e w0 acc = None → vals w Fconfig acc = Some old → new = Some n →
    cf_controller n = current_contract_address e → check_config acc n = Ok tt →
    zk_factor_transition_ok (config_zk old) (config_zk n) = true →
    (cf_profile old = Profile_Protected →
       require_condition e acc old (Subject_Reconfigure (change_of new)) until w0 = Ok (u, w0)) →
    store_config e acc n w0 = Ok (u', w') →
    sync_run e acc d new until w w0 Sync_Reconfigured w'
| run_removed old u w1 w2 w' n :
    auth_live e w0 acc = None → vals w Fconfig acc = Some old →
    (cf_profile old = Profile_Protected →
       require_condition e acc old (Subject_Reconfigure (change_of new)) until w0 = Ok (u, w0)) →
    (∀ g j, vals w1 g j = vset Fauthorized acc None (vset Fconfig acc None (vals w0)) g j) →
    bump_epoch e acc w1 = Ok (n, w2) → (∀ g j, vals w' g j = vals w2 g j) →
    sync_run e acc d new until w w0 Sync_Removed w'.

Lemma check_zk_wiring_Ok old new u w w' :
  check_zk_wiring old new w = Ok (u, w') →
  w' = w ∧ zk_factor_transition_ok old new = true.
Proof.
  unfold check_zk_wiring. intros E. step E as u1 H1. apply negb_false_iff in H1. split; [|done].
  destruct new as [n|]; [|by apply mret_Ok in E as [_ ->]].
  destruct (bool_decide _); [by apply mret_Ok in E as [_ ->]|].
  step E as x Hx. step E as y Hy. step E as z Hz. by apply refuse_Ok in E as [_ ->].
Qed.

Lemma rcv_sync_Ok e acc d rec until o w w' :
  rcv_sync e acc d rec until w = Ok (o, w') →
  authorized e acc = true ∧
  ∃ w0, ((∀ g j, vals w0 g j = vals w g j) ∨
         (∀ g j, vals w0 g j = vset Fcompleting acc None (vals w) g j)) ∧
        outside w0 = outside w ∧ sync_run e acc d (head rec) until w w0 o w'.
Proof.
  unfold rcv_sync. intros E. step E as u0 H0. apply demand_Ok in H0. split; [done|].
  step E as st Hst. subst st. set (new := head rec) in *.
  set (classify := mbind _ (refuse_in_window e acc)) in E.
  assert (Hcl : ∀ w0, classify w0 = Ok (o, w') → sync_run e acc d new until w w0 o w').
  { intros w0 C. unfold classify in C. clear E.
    apply bind_Ok in C as (u1 & w1 & [Ha ->]%refuse_in_window_Ok & C).
    destruct (vals w Fconfig acc) as [old|] eqn:Hc.
    - destruct (match new with Some n => _ | None => false end) eqn:Hsame.
      + apply mret_Ok in C as [-> ->]. apply run_unchanged; [done|]. right.
        destruct new as [n|]; [|done]. apply andb_true_iff in Hsame as [_ Hh].
        apply bool_decide_eq_true in Hh. eauto.
      + apply bind_Ok in C as (u2 & w1 & Hr & C).
        assert (w1 = w0 ∧ (cf_profile old = Profile_Protected →
          require_condition e acc old (Subject_Reconfigure (change_of new)) until w0 = Ok (u2, w0)))
          as [-> Hreq].
        { case_bool_decide as Hp.
          - pose proof Hr as Hr'. apply require_condition_Ok in Hr as [-> _]. done.
          - apply mret_Ok in Hr as [_ ->]. done. }
        assert (Hrm : (mbind (λ _, mbind (λ _, mbind (λ ep, mbind (λ _, mret Sync_Removed)
            (publish (EpochAdvanced acc ep None))) (bump_epoch e acc)) (remove Fauthorized acc))
            (remove Fconfig acc)) w0 = Ok (o, w') → sync_run e acc d new until w w0 o w').
        { clear C. intros C. effect C as w1 V1 O1. effect C as w2 V2 O2.
          apply bind_Ok in C as (ep & w3 & Hb & C). effect C as w4 V4 O4.
          apply mret_Ok in C as [-> ->]. eapply (run_removed _ _ _ _ _ _ _ old u2 w2 w3); try done.
          intros g j. rewrite V2. destruct (decide (Fauthorized = g)) as [<-|];
            [|by rewrite !vset_ne, V1 by done].
          rewrite !vset_eq. by rewrite V1. }
        clear Hsame. destruct new as [n|] eqn:Hn; [|by apply Hrm].
        destruct (bool_decide (cf_controller n = _)) eqn:Hh; [|by apply Hrm].
        apply bool_decide_eq_true in Hh.
        step C as u3 H3. destruct u3.
        apply bind_Ok in C as (u4 & w1 & [-> Ht]%check_zk_wiring_Ok & C).
        apply bind_Ok in C as (u5 & w1 & Hs & C). apply mret_Ok in C as [-> ->].
        by eapply run_reconfigured.
    - destruct new as [n|] eqn:Hn.
      + step C as u2 H2. apply negb_false_iff, bool_decide_eq_true in H2.
        step C as u3 H3. destruct u3.
        apply bind_Ok in C as (u4 & w1 & [-> Ht]%check_zk_wiring_Ok & C).
        apply bind_Ok in C as (u5 & w1 & Hs & C). apply mret_Ok in C as [-> ->].
        by eapply run_enrolled.
      + apply mret_Ok in C as [-> ->]. apply run_unchanged; [done|]. by left. }
  step E as m Hm.
  destruct m as [m|]; [|exists w; split; [by left|]; split; [done|]; by apply Hcl].
  effect E as w0 V0 O0. exists w0. split; [by right|]. split; [done|].
  apply bind_Ok in E as (l & w1 & [-> ->]%authorized_live_Ok & E).
  destruct (_ && _ && _) eqn:Hcur; [|by apply Hcl].
  apply andb_true_iff in Hcur as [[_ Hl]%andb_true_iff _]. apply N.eqb_eq in Hl.
  symmetry in Hm. apply (fget_temporary e Fcompleting) in Hm. by eapply run_complete.
Qed.

Lemma good_rcv_sync h e acc d rec until o w w' :
  good h w → rcv_sync e acc d rec until w = Ok (o, w') → good h w'.
Proof.
  intros G (_ & w0 & Hw0 & _ & R)%rcv_sync_Ok.
  assert (good h w0) as G0.
  { destruct Hw0 as [V|V]; [by eapply good_same|]. destruct G as [I A]. split.
    - by eapply Inv_marker_remove.
    - eapply AuthInv_ext; [|exact A]. intros f k Hf. rewrite V, vset_ne; [done|].
      by destruct Hf as [-> | ->]. }
  destruct R as [| | | |old u w1 w2 w' n _ _ _ V1 Hb V2].
  - by eapply good_complete.
  - done.
  - by eapply good_store_config.
  - by eapply good_store_config.
  - apply bump_epoch_Ok in Hb as (-> & _ & Hb & _).
    assert (epochv w1 acc = epochv w0 acc) as Ee by (unfold epochv; by rewrite V1, !vset_ne).
    destruct G0 as [I0 A0]. split.
    + refine (Inv_epoch h w0 w' acc _ _ _ I0).
      * intros f k Hf Hc Hep. rewrite V2, Hb, vset_ne, V1, !vset_ne; [done|..]; try congruence.
        intros <-. done.
      * intros b Hne. rewrite !V2, !Hb, !(vset_other Fepoch) by (simpl; congruence).
        rewrite !V1, !(vset_other Fauthorized), !(vset_other Fconfig) by (simpl; congruence). done.
      * unfold epochv at 1. rewrite V2, Hb, vset_at, Ee. done.
    + assert (AuthInv w1) as A1.
      { intros b id Hi. rewrite V1, vset_eq in Hi. case_decide; [done|].
        rewrite vset_ne in Hi by done. destruct (A0 b id Hi) as (x & ? & ?). exists x.
        rewrite V1, !vset_ne by done. done. }
      eapply AuthInv_ext; [|exact A1]. intros f k Hf. rewrite V2, Hb, vset_ne; [done|].
      by destruct Hf as [-> | ->].
Qed.

(** ** Every reachable world is good *)

Lemma publish_baseline_Ok e acc doc u w w' :
  publish_baseline e acc doc w = Ok (u, w') →
  ∃ k o, fst k = acc ∧ ∀ g j, vals w' g j = vset Fbaseline k o (vals w) g j.
Proof.
  unfold publish_baseline. intros E.
  apply bind_Ok in E as (c & w1 & [Hc ->]%require_config_Ok & E). step E as b Hb.
  step E as x Hx. step E as y Hy. step E as z Hz. step E as u1 H1.
  effect E as w1 V1 O1. apply extend_ttl_Ok in E as [V2 _].
  eexists (acc, b), _. split; [done|]. intros g j. rewrite V2. apply V1.
Qed.

Lemma renew_Ok e acc u w w' :
  renew e acc w = Ok (u, w') → ∀ g j, vals w' g j = vals w g j.
Proof.
  unfold renew. intros E. step E as c Hc. apply bind_Ok in E as (u1 & w1 & H1 & E).
  assert (∀ g j, vals w1 g j = vals w g j) as V1.
  { destruct c as [c|]; [|by apply mret_Ok in H1 as [_ ->]]. effect H1 as w2 V2 O2.
    destruct (cf_baseline c).
    - apply renew_if_present_Ok in H1 as [V3 _]. intros g j. by rewrite V3.
    - by apply mret_Ok in H1 as [_ ->]. }
  apply bind_Ok in E as (u2 & w2 & [V2 _]%renew_if_present_Ok & E).
  apply bind_Ok in E as (u3 & w3 & [V3 _]%renew_if_present_Ok & E).
  apply bind_Ok in E as (u4 & w4 & [V4 _]%renew_if_present_Ok & E).
  apply bind_Ok in E as (u5 & w5 & [V5 _]%renew_if_present_Ok & E).
  step E as id Hid. assert (∀ g j, vals w' g j = vals w5 g j) as V6.
  { destruct id as [id|]; [|by apply mret_Ok in E as [_ ->]]. effect E as w6 V6 O6.
    apply renew_if_present_Ok in E as [V7 _]. intros g j. by rewrite V7. }
  intros g j. by rewrite V6, V5, V4, V3, V2, V1.
Qed.

Lemma install_reads e p r acc u w w' : install e p r acc w = Ok (u, w') → w' = w.
Proof.
  unfold install. intros E. step E as u1 H1. apply bind_Ok in E as (u2 & w1 & H2 & E).
  apply refuse_Ok in H2 as [_ ->].
  apply bind_Ok in E as (c & w1 & [_ ->]%require_config_Ok & E). by apply refuse_Ok in E as [_ ->].
Qed.

Lemma good_step h e w acc w' : good h w → cstep e w acc w' → good ((e, outside w) :: h) w'.
Proof.
  intros G St. pose proof (good_cons _ e _ G) as G'. destruct St.
  - by match goal with E : install _ _ _ _ _ = _ |- _ => apply install_reads in E as -> end.
  - by eapply good_enforce.
  - by match goal with E : uninstall _ _ _ _ = _ |- _ => apply lift_Ok in E as [_ ->] end.
  - by eapply good_rcv_sync.
  - by eapply good_rcv_cancel.
  - by eapply good_rcv_upgrade.
  - by eapply good_begin.
  - by eapply good_begin.
  - by eapply good_submit_guardian.
  - by eapply good_submit_zk.
  - by eapply good_approve_change.
  - by eapply good_submit_zk_change.
  - match goal with E : publish_baseline _ _ _ _ = _ |- _ =>
      apply publish_baseline_Ok in E as (k & o & _ & V) end.
    eapply good_untracked; [|exact G']. intros f j Hf. rewrite V, vset_ne; [done|].
    intros <-. by destruct Hf.
  - eapply good_same; [by eapply renew_Ok|done].
  - match goal with E : renew_nullifier _ _ _ _ = _ |- _ =>
      apply renew_if_present_Ok in E as [V _] end. by eapply good_same.
Qed.

Lemma reachable_good h w : reachable h w → good h w.
Proof.
  induction 1 as [w Hw|h w e acc w' _ IH St|h w w' _ IH Hs].
  - split.
    + split; unfold stored; intros *; rewrite ?Hw; naive_solver.
    + intros acc id. by rewrite Hw.
  - by eapply good_step.
  - eapply good_same; [|done]. intros f k. unfold vals. by rewrite Hs.
Qed.
End system.
