(* ===== verification/ControllerSafety.v ===== *)
(** * The recovery controller: what every run guarantees

    The theorems about [Controller] as a system: what a completion, a
    reconfiguration or an upgrade of a [Protected] account rests on, how
    attempts, epochs and nullifiers evolve, which calls an authorized attempt
    blocks, and that accounts never touch each other's state. *)

From S2P Require Import Prelude Host RecoveryIface CompilerIface Controller ControllerRuns ControllerFacts.
#[local] Open Scope string_scope.
#[local] Open Scope list_scope.

Section safety.
Context {H : Host} {O : Outside}.
Implicit Types (e : Env) (w : World) (acc : Address).

(** ** How one account's state evolves *)

Definition terminal (s : AttemptState) : bool :=
  match s with State_Collecting | State_Authorized => false | _ => true end.

Record evolves acc w w' : Prop := {
  ev_frame : ∀ g j, owner g j ≠ acc → vals w' g j = vals w g j;
  ev_epoch : (epochv w acc ≤ epochv w' acc)%N;
  ev_next : (nextv w acc ≤ nextv w' acc)%N;
  ev_config : epochv w' acc = epochv w acc → vals w' Fconfig acc = vals w Fconfig acc;
  ev_nullifier : ∀ n, is_Some (vals w Fnullifier (acc, n)) → is_Some (vals w' Fnullifier (acc, n));
  ev_terminal : ∀ id a, vals w Fattempt (acc, id) = Some a → terminal (at_state a) = true →
    vals w' Fattempt (acc, id) = Some a;
}.

Lemma evolves_same acc w w' : (∀ g j, vals w' g j = vals w g j) → evolves acc w w'.
Proof. intros E. split; unfold epochv, nextv; intros *; rewrite ?E; done. Qed.

Lemma evolves_refl acc w : evolves acc w w.
Proof. by apply evolves_same. Qed.

Lemma evolves_trans acc w1 w2 w3 : evolves acc w1 w2 → evolves acc w2 w3 → evolves acc w1 w3.
Proof.
  intros [F1 E1 N1 C1 S1 T1] [F2 E2 N2 C2 S2 T2]. split.
  - intros g j Hj. rewrite F2, F1; done.
  - lia.
  - lia.
  - intros He. rewrite C2, C1 by lia. done.
  - auto.
  - auto.
Qed.

(** Writing one of the account's entries in a field with no promise. *)
Definition plain (f : field) : bool :=
  match f with
  | Fconfig | Fepoch | Fnext_attempt | Fnullifier | Fattempt => false
  | _ => true
  end.

Lemma evolves_plain acc f k o w w' :
  plain f = true → owner f k = acc → (∀ g j, vals w' g j = vset f k o (vals w) g j) →
  evolves acc w w'.
Proof.
  intros Hf Hk E.
  assert (Hp : ∀ g j, plain g = false → vals w' g j = vals w g j).
  { intros g j Hg. rewrite E, vset_ne; [done|]. intros <-. congruence. }
  split; unfold epochv, nextv; intros *; rewrite ?Hp by done; try done.
  intros Hj. rewrite E, vset_other; [done|]. congruence.
Qed.

Lemma evolves_store_config e acc c u w w' :
  store_config e acc c w = Ok (u, w') → evolves acc w w'.
Proof.
  intros (_ & V & _)%store_config_Ok.
  assert (epochv w' acc = epochv w acc + 1)%N as Ee by (unfold epochv at 1; by rewrite V, vset_at).
  split; try lia; unfold nextv; intros *; rewrite ?V, ?vset_ne by done; try done.
  intros Hj. rewrite ?V, !vset_other by (simpl; congruence). done.
Qed.

Lemma evolves_bump_epoch e acc n w w' :
  bump_epoch e acc w = Ok (n, w') → evolves acc w w'.
Proof.
  intros (-> & _ & V & _)%bump_epoch_Ok.
  assert (epochv w' acc = epochv w acc + 1)%N as Ee by (unfold epochv at 1; by rewrite V, vset_at).
  split; try lia; unfold nextv; intros *; rewrite ?V, ?vset_ne by done; try done.
  intros Hj. rewrite ?V, !vset_other by (simpl; congruence). done.
Qed.

Lemma evolves_save e acc a u w w' :
  save e acc a w = Ok (u, w') →
  (∀ b, vals w Fattempt (acc, at_id a) = Some b → terminal (at_state b) = false) →
  evolves acc w w'.
Proof.
  intros E Hold.
  assert (F : ∀ g j, g ≠ Fattempt → g ≠ Fcollecting → vals w' g j = vals w g j)
    by (intros; by eapply save_frame).
  split; unfold epochv, nextv; intros *; rewrite ?F by done; try done.
  - intros Hj. apply save_Ok in E as [_ [V|(_ & _ & _ & V)]];
      rewrite V, !vset_other by (simpl; congruence); done.
  - intros Ha Ht. destruct (decide (id = at_id a)) as [->|Hne].
    { specialize (Hold _ Ha). congruence. }
    apply save_Ok in E as [_ [V|(_ & _ & _ & V)]]; rewrite V; vsimp;
      rewrite ?decide_False by congruence; done.
Qed.

(** A live attempt's own record is not terminal. *)
Lemma stored_live_old e w acc id a b :
  stored w acc id a → live_in e w acc a = true →
  vals w Fattempt (acc, id) = Some b → terminal (at_state b) = false.
Proof.
  intros [Hs|[Hs _]] Hl Hb; rewrite Hs in Hb; [|done]. injection Hb as <-.
  apply live_in_cases in Hl as [_ [[-> _]|[-> _]]]; done.
Qed.

Lemma evolves_cancel e acc c a counted u w w' :
  cancel e acc c a counted w = Ok (u, w') →
  (∀ b, vals w Fattempt (acc, at_id a) = Some b → terminal (at_state b) = false) →
  evolves acc w w'.
Proof.
  intros (_ & w1 & w2 & u' & V1 & Hs & V2)%cancel_Ok Hold.
  apply (evolves_trans _ w w1); [|apply (evolves_trans _ w1 w2)].
  - destruct (counted && _); [by eapply (evolves_plain _ Fcancels)|by apply evolves_same].
  - eapply evolves_save; [exact Hs|]. intros b. rewrite V1.
    destruct (counted && _); [rewrite vset_ne by done|]; apply Hold.
  - destruct (bool_decide _); [by eapply (evolves_plain _ Fauthorized)|by apply evolves_same].
Qed.

Lemma evolves_after_evidence e acc c a dom u w w' :
  after_evidence e acc c a dom w = Ok (u, w') →
  (∀ b, vals w Fattempt (acc, at_id a) = Some b → terminal (at_state b) = false) →
  evolves acc w w'.
Proof.
  unfold after_evidence. intros E Hold. destruct dom.
  - apply bind_Ok in E as (a' & w1 & Hp & E). destruct (initiation_met c a).
    2: { apply mret_Ok in Hp as [-> ->]. by eapply evolves_save. }
    apply promote_Ok in Hp as (_ & [[-> V]|(_ & -> & V)]).
    + apply (evolves_trans _ w w1); [by apply evolves_same|].
      eapply evolves_save; [exact E|]. intros b. rewrite V. apply Hold.
    + apply (evolves_trans _ w w1).
      * split; unfold epochv, nextv; intros *; rewrite ?V, ?vset_ne by done; try done.
        intros Hj. rewrite ?V, !vset_other by (simpl; congruence). done.
      * eapply evolves_save; [exact E|]. intros b. rewrite V, !vset_ne by done. apply Hold.
  - destruct (cancellation_met c a); [by eapply evolves_cancel|by eapply evolves_save].
Qed.

Lemma evolves_begin h e acc act rs id w w' :
  Inv h w → begin e acc act rs w = Ok (id, w') → evolves acc w w'.
Proof.
  intros I (c & a & w1 & w2 & u & _ & _ & -> & _ & V1 & Hs & V2 & Hi & _)%begin_Ok.
  apply (evolves_trans _ w w1); [|apply (evolves_trans _ w1 w2); [|by apply evolves_same]].
  - split; unfold epochv; intros *; rewrite ?V1, ?vset_ne by done; try done.
    + intros Hj. rewrite ?V1, vset_other by (simpl; congruence). done.
    + unfold nextv. rewrite V1, vset_at. simpl. unfold nextv. lia.
  - eapply evolves_save; [exact Hs|]. intros b. rewrite V1, vset_ne by done. intros Hb.
    destruct (inv_attempt _ _ I acc (at_id a) b) as (_ & ? & _); [by left|]. lia.
Qed.

Lemma evolves_complete e acc m new d o w w' :
  AuthInv w → complete e acc m new d w = Ok (o, w') → evolves acc w w'.
Proof.
  intros A (a & n & w1 & w2 & w3 & u & u' & Ha & _ & _ & _ & _ & _ & _ & Hz & Hs & V3 &
    w4 & Hc & V4)%complete_Ok.
  destruct (auth_live_Some _ _ _ _ A Ha) as (Hst & _ & Hau & _).
  assert (evolves acc w w1 ∧ vals w1 Fattempt (acc, at_id a) = Some a) as [E1 Hst1].
  { destruct (zk_nullifier a) as [x|]; [|subst w1; split; [apply evolves_refl|done]].
    destruct Hz as [_ V1]. split; [|by rewrite V1, vset_ne].
    split; unfold epochv, nextv; intros *; rewrite ?V1, ?vset_ne by done; try done.
    - intros Hj. rewrite ?V1, vset_other by (simpl; congruence). done.
    - rewrite vset_eq. case_decide; [eauto|done]. }
  apply (evolves_trans _ w w1); [done|]. apply (evolves_trans _ w1 w2).
  { eapply evolves_save; [exact Hs|]. simpl. rewrite Hst1. intros b [= <-]. by rewrite Hau. }
  apply (evolves_trans _ w2 w3); [by eapply (evolves_plain _ Fauthorized)|].
  apply (evolves_trans _ w3 w4); [by eapply evolves_store_config|by apply evolves_same].
Qed.

Lemma evolves_rcv_sync e acc d rec until o w w' :
  AuthInv w → rcv_sync e acc d rec until w = Ok (o, w') → evolves acc w w'.
Proof.
  intros A (_ & w0 & Hw0 & _ & R)%rcv_sync_Ok.
  assert (evolves acc w w0 ∧ AuthInv w0) as [E0 A0].
  { destruct Hw0 as [V|V].
    - split; [by apply evolves_same|by eapply AuthInv_same].
    - split; [by eapply (evolves_plain _ Fcompleting)|].
      eapply AuthInv_ext; [|exact A]. intros f k Hf. rewrite V, vset_ne; [done|].
      by destruct Hf as [-> | ->]. }
  apply (evolves_trans _ w w0); [done|].
  destruct R as [| | | |old u w1 w2 w' n _ _ _ V1 Hb V2].
  - by eapply evolves_complete.
  - apply evolves_refl.
  - by eapply evolves_store_config.
  - by eapply evolves_store_config.
  - apply bump_epoch_Ok in Hb as (-> & _ & Hb & _).
    assert (epochv w1 acc = epochv w0 acc) as E1 by (unfold epochv; by rewrite V1, !vset_ne).
    assert (epochv w' acc = epochv w0 acc + 1)%N as Ee
      by (unfold epochv at 1; by rewrite V2, Hb, vset_at, E1).
    split; try lia; unfold nextv; intros *; rewrite ?V2, ?Hb, ?vset_ne, ?V1, ?vset_ne by done;
      try done.
    intros Hj. rewrite ?V2, ?Hb, (vset_other Fepoch), ?V1, !vset_other by (simpl; congruence). done.
Qed.

Lemma evolves_submit_guardian h e acc id dom g u w w' :
  good h w → submit_guardian e acc id dom g w = Ok (u, w') → evolves acc w w'.
Proof.
  intros G E. unfold submit_guardian in E.
  apply bind_Ok in E as (c & w1 & [Hc ->]%require_config_Ok & E).
  step E as set Hset. step E as u1 H1. apply bind_Ok in E as (a & w1 & Hl & E).
  destruct (loaded_live _ _ _ _ _ _ _ _ G Hc Hl) as (-> & Hi & U & Hlive).
  apply bind_Ok in E as (a' & w1 & Ha & E).
  assert (w1 = w ∧ at_id a' = at_id a) as [-> Hid].
  { destruct dom; [step Ha as u2 H2|]; step Ha as u3 H3; by apply mret_Ok in Ha as [-> ->]. }
  step E as s Hs. step E as u2 H2. step E as d Hd. step E as u3 H3.
  eapply evolves_after_evidence; [exact E|]. rewrite Hid. intros b.
  apply (stored_live_old e w acc (at_id a) a b); [by destruct U|done].
Qed.

Lemma evolves_submit_zk h e acc id dom ev u w w' :
  good h w → submit_zk e acc id dom ev w = Ok (u, w') → evolves acc w w'.
Proof.
  intros G E. unfold submit_zk in E.
  apply bind_Ok in E as (c & w1 & [Hc ->]%require_config_Ok & E).
  step E as z Hz. apply bind_Ok in E as (a & w1 & Hl & E).
  destruct (loaded_live _ _ _ _ _ _ _ _ G Hc Hl) as (-> & Hi & U & Hlive).
  apply bind_Ok in E as (u1 & w1 & Ha & E).
  assert (w1 = w) as ->.
  { destruct dom; [step Ha as u2 H2|]; by apply refuse_Ok in Ha as [_ ->]. }
  step E as s Hs. step E as u2 H2.
  apply bind_Ok in E as (u3 & w1 & (-> & _)%verify_zk_Ok & E).
  eapply evolves_after_evidence; [exact E|]. intros b Hb.
  apply (stored_live_old e w acc (at_id a) a b); [by destruct U|done|]. by destruct dom.
Qed.

Lemma approve_change_effect e acc subj n g u w w' :
  approve_change e acc subj n g w = Ok (u, w') →
  ∃ d r, ∀ f j, vals w' f j = vset Fapproval (acc, d) (Some r) (vals w) f j.
Proof.
  unfold approve_change. intros E.
  apply bind_Ok in E as (c & w1 & [Hc ->]%require_config_Ok & E).
  step E as set Hset. step E as u1 H1.
  apply bind_Ok in E as (u2 & w1 & [_ ->]%refuse_in_window_Ok & E).
  apply bind_Ok in E as (s & w1 & (-> & _)%change_statement_for_Ok & E).
  step E as u3 H3. step E as d Hd. step E as o Ho. step E as u4 H4. step E as u5 H5.
  apply store_approval_Ok in E as [V _]. eauto.
Qed.

Lemma submit_zk_change_effect e acc subj n ev u w w' :
  submit_zk_change e acc subj n ev w = Ok (u, w') →
  ∃ d r, ∀ f j, vals w' f j = vset Fapproval (acc, d) (Some r) (vals w) f j.
Proof.
  unfold submit_zk_change. intros E.
  apply bind_Ok in E as (c & w1 & [Hc ->]%require_config_Ok & E). step E as z Hz.
  apply bind_Ok in E as (u2 & w1 & [_ ->]%refuse_in_window_Ok & E).
  apply bind_Ok in E as (s & w1 & (-> & _)%change_statement_for_Ok & E).
  step E as u3 H3. step E as d Hd. step E as o Ho. step E as u4 H4.
  apply bind_Ok in E as (u5 & w1 & (-> & _)%verify_zk_Ok & E).
  apply store_approval_Ok in E as [V _]. eauto.
Qed.

Lemma evolves_rcv_upgrade e acc st n w w' :
  rcv_upgrade e acc st w = Ok (n, w') → evolves acc w w'.
Proof.
  unfold rcv_upgrade. intros E. step E as u1 H1.
  apply bind_Ok in E as (c & w1 & [Hc ->]%require_config_Ok & E).
  apply bind_Ok in E as (u2 & w1 & [_ ->]%refuse_in_window_Ok & E). destruct st.
  - apply bind_Ok in E as (u3 & w1 & H3 & E). apply epoch_of_Ok in E as [_ ->].
    case_bool_decide; [apply require_condition_Ok in H3 as [-> _]|apply mret_Ok in H3 as [_ ->]];
      apply evolves_refl.
  - apply bind_Ok in E as (m & w1 & [-> ->]%epoch_of_Ok & E). step E as u3 H3.
    apply bind_Ok in E as (m & w1 & Hb & E). effect E as w2 H2 O2. apply mret_Ok in E as [-> ->].
    apply (evolves_trans _ w w1); [by eapply evolves_bump_epoch|by apply evolves_same].
Qed.

Lemma evolves_rcv_cancel e acc id u w w' :
  rcv_cancel e acc id w = Ok (u, w') →
  (∀ a, stored w acc id a → at_id a = id) → evolves acc w w'.
Proof.
  unfold rcv_cancel. intros E Hid. step E as u1 H1.
  apply bind_Ok in E as (c & w1 & [Hc ->]%require_config_Ok & E). step E as u2 H2.
  apply bind_Ok in E as (a & w1 & (-> & Hs & Hl)%load_live_Ok & E).
  eapply evolves_cancel; [exact E|]. rewrite (Hid a Hs). intros b. by eapply stored_live_old.
Qed.

Lemma evolves_step h e w acc w' : good h w → cstep e w acc w' → evolves acc w w'.
Proof.
  intros G St. destruct St as [p r acc u w' E|ctx sg r acc u w' E|r acc u w' E
    |acc d r n o w' E|acc id u w' E|acc s n w' E|acc r n w' E|acc r n w' E|acc id d g u w' E
    |acc id d ev u w' E|acc s n g u w' E|acc s n ev u w' E|acc doc u w' E|acc u w' E|acc n u w' E].
  - apply install_reads in E as ->. apply evolves_refl.
  - unfold enforce in E. step E as u1 H1. step E as u2 H2.
    apply bind_Ok in E as (u3 & w1 & H3 & E). apply refuse_Ok in H3 as [_ ->].
    apply authorize_completion_Ok in E as (cc & t & a & _ & _ & _ & _ & _ & _ & V).
    by eapply (evolves_plain _ Fcompleting).
  - apply lift_Ok in E as [_ ->]. apply evolves_refl.
  - eapply evolves_rcv_sync; [apply G|exact E].
  - eapply evolves_rcv_cancel; [exact E|]. intros a Ha. apply (inv_attempt _ _ (proj1 G) _ _ _ Ha).
  - by eapply evolves_rcv_upgrade.
  - eapply evolves_begin; [apply G|exact E].
  - eapply evolves_begin; [apply G|exact E].
  - by eapply evolves_submit_guardian.
  - by eapply evolves_submit_zk.
  - apply approve_change_effect in E as (d & r & V). exact (evolves_plain _ Fapproval (acc, d) _ _ _ eq_refl eq_refl V).
  - apply submit_zk_change_effect in E as (d & r & V). exact (evolves_plain _ Fapproval (acc, d) _ _ _ eq_refl eq_refl V).
  - apply publish_baseline_Ok in E as (k & o & Hk & V). exact (evolves_plain _ Fbaseline k _ _ _ eq_refl Hk V).
  - apply evolves_same. by eapply renew_Ok.
  - apply renew_if_present_Ok in E as [V _]. by apply evolves_same.
Qed.

(** ** Completion *)

(** A quorum of distinct enrolled guardians, each of whom satisfies [P]. *)
Definition quorum_of (c : CompiledRecoveryConfig) (P : Address → Prop) : Prop :=
  ∀ set, config_guardians c = Some set →
    ∃ gs, NoDup gs ∧ (quorum set ≤ N.of_nat (length gs))%N ∧
      ∀ g, g ∈ gs → g ∈ guardians set ∧ P g.

Lemma initiation_quorum h acc c a :
  backed h acc c a → initiation_met c a = true →
  quorum_of c (approved h acc c a Domain_Initiate) ∧
  (∀ z, config_zk c = Some z →
     ∃ n, zk_nullifier a = Some n ∧ proved h acc c a Domain_Initiate n).
Proof.
  intros B Hm. unfold initiation_met in Hm. apply andb_true_iff in Hm as [Hg Hz]. split.
  - intros set Hset. rewrite Hset in Hg. apply N.leb_le in Hg. exists (at_guardians a).
    split; [apply B|]. split; [done|]. intros g Hin. pose proof (bk_guardians _ _ _ _ B g Hin) as Ha.
    split; [|done]. destruct Ha as (set' & ? & ? & ? & ? & Hs & ? & _). congruence.
  - intros z Hzk. rewrite Hzk in Hz. destruct (zk_nullifier a) as [n|] eqn:Hn; [|done].
    exists n. split; [done|]. by eapply bk_zk.
Qed.

Lemma sync_run_completed e acc d new until w w0 cp w' :
  sync_run e acc d new until w w0 (Sync_Completed cp) w' →
  ∃ m, vals w Fcompleting acc = Some m ∧ mk_ledger m = sequence e ∧
    complete e acc m new d w0 = Ok (Sync_Completed cp, w').
Proof. inversion 1; subst. eauto. Qed.

(** C7: a completion rests on evidence and on the timelock.  Whenever a
    reachable controller reports that an account's recovery completed, the
    attempt was authorized under the configuration then enrolled: a quorum of
    distinct enrolled guardians had each authorized the digest of the
    attempt's own statement while it was fresh, an accepted and unspent proof
    existed if the mode has a ZK factor, the enrolled delay had passed since
    the authorization and the completion window was still open.  The document
    applied is the attempt's target and the new configuration the target's;
    afterwards the attempt is completed for good, its nullifier spent, no
    attempt authorized, and the epoch advanced. *)
Theorem completion_rests_on_evidence h w e acc d rec until cp w' :
  reachable h w → rcv_sync e acc d rec until w = Ok (Sync_Completed cp, w') →
  ∃ a c n, vals w Fattempt (acc, at_id a) = Some a ∧ at_state a = State_Authorized ∧
    vals w Fconfig acc = Some c ∧ at_epoch a = epochv w acc ∧
    quorum_of c (approved h acc c a Domain_Initiate) ∧
    (∀ z, config_zk c = Some z → ∃ x, zk_nullifier a = Some x ∧
       proved h acc c a Domain_Initiate x ∧
       vals w Fnullifier (acc, x) = None ∧ vals w' Fnullifier (acc, x) = Some true) ∧
    (∃ e0 o0, (e0, o0) ∈ h ∧ sequence e0 = authorized_at a) ∧
    (authorized_at a + cf_delay_ledgers c ≤ sequence e <
       authorized_at a + cf_delay_ledgers c + cf_expiry_ledgers c)%N ∧
    d = at_target_doc_hash a ∧ head rec = Some n ∧ cf_config_hash n = target_config_hash a ∧
    cp = {| cp_attempt_id := at_id a; cp_replaced := at_replaced a |} ∧
    vals w' Fattempt (acc, at_id a) = Some (with_state a State_Completed) ∧
    vals w' Fconfig acc = Some n ∧ vals w' Fauthorized acc = None ∧
    epochv w' acc = (epochv w acc + 1)%N.
Proof.
  intros G%reachable_good (_ & w0 & Hw0 & _ & R)%rcv_sync_Ok.
  apply sync_run_completed in R as (m & Hm & Hl & R).
  destruct G as [I A]. destruct (inv_marker _ _ I acc m Hm) as (am & Ham & _ & Hx).
  assert (V0 : ∀ g j, g ≠ Fcompleting → vals w0 g j = vals w g j).
  { intros g j Hg. destruct Hw0 as [V|V]; rewrite V; [done|]. by rewrite vset_ne. }
  assert (AuthInv w0) as A0.
  { eapply AuthInv_ext; [|exact A]. intros f k Hf. apply V0. by destruct Hf as [-> | ->]. }
  assert (E0 : epochv w0 acc = epochv w acc) by (unfold epochv; by rewrite V0).
  apply complete_Ok in R as (a & n & w1 & w2 & w3 & u & u' & Ha & Hi & -> & Hn & _ & Hh & Ho &
    Hz & Hs & V3 & w4 & Hc & V4).
  destruct (auth_live_Some _ _ _ _ A0 Ha) as (Hst & _ & Hau & He & Hexp).
  rewrite V0 in Hst by done. rewrite E0 in He.
  rewrite <-Hi, Hst in Ham. injection Ham as <-.
  destruct (inv_attempt _ _ I acc (at_id a) a) as (_ & _ & _ & c & Hc' & B); [by left|].
  destruct (bk_window _ _ _ _ B) as (Hmet & Hex & Hexp' & Hat); [by left|].
  destruct (initiation_quorum _ _ _ _ B Hmet) as [Hq Hzk].
  apply store_config_Ok in Hc as (_ & Vc & _).
  assert (Hw1 : ∀ g j, g ≠ Fnullifier → vals w1 g j = vals w0 g j).
  { intros g j Hg. destruct (zk_nullifier a); [|by subst w1]. destruct Hz as [_ V]. by rewrite V, vset_ne. }
  assert (Hw2 : ∀ g j, g ≠ Fattempt → g ≠ Fcollecting → vals w2 g j = vals w1 g j)
    by (intros; by eapply save_frame).
  exists a, c, n. split_and!; try done.
  - by apply Hc'.
  - intros z Hz'. destruct (Hzk z Hz') as (x & Hx' & Hp). rewrite Hx' in Hz.
    destruct Hz as [Hno V1]. exists x. rewrite V0 in Hno by done. split_and!; try done.
    rewrite V4, Vc, !vset_ne, V3, vset_ne, Hw2, V1 by done. apply vset_at.
  - lia.
  - lia.
  - by injection Ho as ->.
  - rewrite V4, Vc, !vset_ne, V3, vset_ne by done.
    apply save_Ok in Hs as [_ [V|(_ & Hns & _)]]; [by rewrite V, vset_at|done].
  - rewrite V4, Vc, vset_ne by done. apply vset_at.
  - rewrite V4, Vc, !vset_ne, V3 by done. apply vset_at.
  - unfold epochv at 1. rewrite V4, Vc, vset_at. simpl. unfold epochv at 1.
    rewrite V3, vset_ne, Hw2, Hw1 by done. unfold epochv in E0. by rewrite E0.
Qed.

(** ** Protected accounts *)

(** The enrolled condition is satisfied for one change, by evidence of [h] for
    the digest of exactly the statement that names the change, the current
    epoch and the enrolled configuration. *)
Definition condition_met (h : list (Env * OutState)) e w acc (c : CompiledRecoveryConfig)
    (subject : StatementSubject) (until : N) : Prop :=
  let s := statement e acc c (epochv w acc) until subject in
  ∃ d, digest s = Ok d ∧ check_fresh e s = Ok tt ∧
    quorum_of c (λ g, ∃ e0 o0, (e0, o0) ∈ h ∧ authorized_for_args e0 g d = true) ∧
    (is_Some (config_zk c) → ∃ c' z e0 o0 s' ev, config_zk c' = Some z ∧ (e0, o0) ∈ h ∧
       digest s' = Ok d ∧ rs_account s' = acc ∧
       cb_config_hash (rs_config s') = cf_config_hash c' ∧
       try_verify o0 (zf_adapter z) s' (factor_binding z) ev = true).

Lemma require_condition_met h e w acc c subj until u w' :
  Inv h w → require_condition e acc c subj until w = Ok (u, w') →
  condition_met h e w acc c subj until.
Proof.
  intros I (_ & d & r & Hf & Hd & Hr & Hg & Hz)%require_condition_Ok.
  pose proof (inv_approval _ _ I _ _ _ Hr) as B. exists d. split_and!; try done.
  - intros set Hset. exists (filter (λ g, g ∈ guardians set) (ca_guardians r)).
    split; [apply NoDup_filter, B|]. split; [by apply Hg|].
    intros g [Hin Hgr]%list_elem_of_filter. split; [done|]. by eapply ab_guardians.
  - intros Hzk. apply (ab_zk _ _ _ _ B). by apply Hz.
Qed.

Lemma condition_met_ext h e w w' acc c subj until :
  epochv w' acc = epochv w acc → condition_met h e w' acc c subj until →
  condition_met h e w acc c subj until.
Proof. unfold condition_met. by intros ->. Qed.

(** C8: a [Protected] account's configuration is replaced or removed, and an
    upgrade scheduled, only when the enrolled condition was met for that very
    change: a quorum of distinct enrolled guardians had authorized the digest
    of the statement naming the new configuration (or the removal, or the
    upgrade request), the current epoch and the enrolled configuration, still
    fresh, and a proof for that digest was accepted if the mode needs one. *)
Theorem protected_changes_need_condition h w e acc c :
  reachable h w → vals w Fconfig acc = Some c → cf_profile c = Profile_Protected →
  (∀ d rec until o w', rcv_sync e acc d rec until w = Ok (o, w') →
     o = Sync_Reconfigured ∨ o = Sync_Removed →
     condition_met h e w acc c (Subject_Reconfigure (change_of (head rec))) until) ∧
  (∀ subject until n w', rcv_upgrade e acc (Step_Schedule subject until) w = Ok (n, w') →
     condition_met h e w acc c (Subject_Upgrade subject) until).
Proof.
  intros [I A]%reachable_good Hc Hp. split.
  - intros d rec until o w' (_ & w0 & Hw0 & _ & R)%rcv_sync_Ok Ho.
    assert (Inv h w0 ∧ epochv w0 acc = epochv w acc) as [I0 E0].
    { destruct Hw0 as [V|V]; (split; [|unfold epochv; rewrite V, ?vset_ne by done; done]).
      - by eapply Inv_same.
      - by eapply Inv_marker_remove. }
    eapply condition_met_ext; [exact E0|].
    destruct R as [m o w' _ _ Hcp| | |old n u u' w' _ Hold _ _ _ _ Hreq _
                  |old u w1 w2 w' n _ Hold Hreq _ _ _]; try (by destruct Ho).
    + apply complete_Ok in Hcp as (a & n & w1 & w2 & w3 & u & u' & _ & _ & _ & _ & _ & _ & -> & _).
      by destruct Ho.
    + assert (old = c) as -> by congruence. by eapply require_condition_met; [|apply Hreq].
    + assert (old = c) as -> by congruence. by eapply require_condition_met; [|apply Hreq].
  - intros subject until n w' E. unfold rcv_upgrade in E. step E as u1 H1.
    apply bind_Ok in E as (c' & w1 & [Hc' ->]%require_config_Ok & E).
    assert (c' = c) as -> by congruence.
    apply bind_Ok in E as (u2 & w1 & [_ ->]%refuse_in_window_Ok & E).
    apply bind_Ok in E as (u3 & w1 & H3 & E). rewrite bool_decide_true in H3 by done.
    by eapply require_condition_met.
Qed.

(** ** Nullifiers *)

(** C9: one credential recovers an account once.  In every reachable state two
    completed attempts of an account never carry the same nullifier, and once
    an attempt with a nullifier has completed, no proof with that nullifier is
    accepted for the account again, whatever the adapter answers. *)
Theorem nullifier_completes_once h w acc id a n :
  reachable h w → vals w Fattempt (acc, id) = Some a →
  at_state a = State_Completed → zk_nullifier a = Some n →
  (∀ id' a', vals w Fattempt (acc, id') = Some a' → at_state a' = State_Completed →
     zk_nullifier a' = Some n → id' = id) ∧
  (∀ e z s ev, nullifier ev = n → ¬ ∃ r, verify_zk e acc z s ev w = Ok r).
Proof.
  intros [I A]%reachable_good Ha Hs Hn. destruct (inv_spent _ _ I _ _ _ _ Ha Hs Hn) as [Hsp Hu].
  split; [exact Hu|]. intros e z s ev Hev [[u w'] (_ & _ & Hno)%verify_zk_Ok].
  rewrite Hev in Hno. rewrite Hno in Hsp. by destruct Hsp.
Qed.

(** ** The authorized window *)

(** C10: while an attempt is authorized and live, nothing else about the
    account's recovery moves: no attempt opens, no approval or proof for a
    reconfiguration or an upgrade is recorded, no upgrade step passes, and an
    [apply_doc] either completes exactly that attempt or is refused. *)
Theorem authorized_window_blocks h w e acc a :
  reachable h w → auth_live e w acc = Some a →
  (∀ act rs, ¬ ∃ r, begin e acc act rs w = Ok r) ∧
  (∀ s n g, ¬ ∃ r, approve_change e acc s n g w = Ok r) ∧
  (∀ s n ev, ¬ ∃ r, submit_zk_change e acc s n ev w = Ok r) ∧
  (∀ st, ¬ ∃ r, rcv_upgrade e acc st w = Ok r) ∧
  (∀ d rec until o w', rcv_sync e acc d rec until w = Ok (o, w') →
     o = Sync_Completed {| cp_attempt_id := at_id a; cp_replaced := at_replaced a |}).
Proof.
  intros [I A]%reachable_good Ha. split_and!.
  - intros act rs [[id w'] (c & b & w1 & w2 & u & _ & Hno & _)%begin_Ok]. congruence.
  - intros s n g [[u w'] E]. unfold approve_change in E.
    apply bind_Ok in E as (c & w1 & [Hc ->]%require_config_Ok & E). step E as set Hset.
    step E as u1 H1. apply bind_Ok in E as (u2 & w1 & [Hno _]%refuse_in_window_Ok & E). congruence.
  - intros s n ev [[u w'] E]. unfold submit_zk_change in E.
    apply bind_Ok in E as (c & w1 & [Hc ->]%require_config_Ok & E). step E as z Hz.
    apply bind_Ok in E as (u2 & w1 & [Hno _]%refuse_in_window_Ok & E). congruence.
  - intros st [[u w'] E]. unfold rcv_upgrade in E. step E as u1 H1.
    apply bind_Ok in E as (c & w1 & [Hc ->]%require_config_Ok & E).
    apply bind_Ok in E as (u2 & w1 & [Hno _]%refuse_in_window_Ok & E). congruence.
  - intros d rec until o w' (_ & w0 & Hw0 & _ & R)%rcv_sync_Ok.
    assert (auth_live e w0 acc = Some a) as Ha0.
    { rewrite <-Ha. unfold auth_live, live_in, epochv, belowv.
      destruct Hw0 as [V|V]; rewrite !V, ?vset_ne by done; [|];
      (destruct (vals w Fauthorized acc) as [id|]; [|done]; by rewrite V, ?vset_ne by done). }
    destruct R; try congruence.
    match goal with E : complete _ _ _ _ _ _ = _ |- _ =>
      apply complete_Ok in E as (b & n & w1 & w2 & w3 & u & u' & Hb & _ & _ & _ & _ & _ & -> & _)
    end. congruence.
Qed.

(** ** Accounts and time *)

(** C11: tenant isolation.  A call made for one account changes no entry of any
    other account: configuration, epoch, attempts, nullifiers, approvals,
    markers and published baselines all keep their values. *)
Theorem controller_tenant_isolation h w e acc w' :
  reachable h w → cstep e w acc w' →
  ∀ f k, owner f k ≠ acc → vals w' f k = vals w f k.
Proof. intros G%reachable_good St. apply (ev_frame _ _ _ (evolves_step _ _ _ _ _ G St)). Qed.

(** C12: nothing dead comes back.  Along every call epochs and attempt ids only
    grow, the configuration changes only together with the epoch, spent
    nullifiers stay spent, and an attempt that completed, was cancelled or was
    invalidated on the permanent record stays exactly as it is. *)
Theorem controller_history_is_permanent h w e acc w' b :
  reachable h w → cstep e w acc w' →
  (epochv w b ≤ epochv w' b)%N ∧ (nextv w b ≤ nextv w' b)%N ∧
  (vals w' Fconfig b ≠ vals w Fconfig b → (epochv w b < epochv w' b)%N) ∧
  (∀ n, is_Some (vals w Fnullifier (b, n)) → is_Some (vals w' Fnullifier (b, n))) ∧
  (∀ id a, vals w Fattempt (b, id) = Some a → terminal (at_state a) = true →
     vals w' Fattempt (b, id) = Some a).
Proof.
  intros G%reachable_good St. destruct (evolves_step _ _ _ _ _ G St) as [F E N C S T].
  destruct (decide (b = acc)) as [->|Hne].
  - split_and!; try done. intros Hc. destruct (decide (epochv w' acc = epochv w acc)); [|lia].
    exfalso. auto.
  - unfold epochv, nextv. rewrite !F by done. split_and!; try done.
    + intros n. by rewrite F.
    + intros id a. by rewrite F.
Qed.

(** Attempt ids are never reused: opening an attempt takes the next id of
    the account, under which no attempt is stored, and moves the counter past
    it; the new attempt collects evidence under the current epoch, with
    none counted, until the enrolled expiry after now. *)
Theorem begin_opens_fresh_attempt h w e acc act rs id w' :
  reachable h w → begin e acc act rs w = Ok (id, w') →
  id = nextv w acc ∧ nextv w' acc = (id + 1)%N ∧ (∀ a, ¬ stored w acc id a) ∧
  ∃ a c, vals w Fconfig acc = Some c ∧ stored w' acc id a ∧ at_id a = id ∧
    at_action a = act ∧ at_epoch a = epochv w' acc ∧ at_state a = State_Collecting ∧
    at_guardians a = [] ∧ zk_nullifier a = None ∧
    evidence_deadline a = (sequence e + cf_expiry_ledgers c)%N ∧
    (evidence_deadline a + cf_delay_ledgers c + cf_expiry_ledgers c ≤ cancel_until a)%N.
Proof.
  intros [I A]%reachable_good
    (c & a & w1 & w2 & u & Hc & _ & Hid & _ & V1 & Hs & V2 & Hi & Hact & He & _ & Hd & Hcu & Hst &
     Hg & Hz & _)%begin_Ok.
  assert (Hfresh : ∀ b, ¬ stored w acc id b).
  { intros b Hb. destruct (inv_attempt _ _ I acc id b Hb) as (_ & ? & _). lia. }
  split; [done|]. split; [|split; [done|]].
  - unfold nextv. rewrite V2, (save_frame _ _ _ _ _ _ _ _ Hs), V1, vset_at by done. done.
  - exists a, c. split_and!; try done; [|..|lia].
    + unfold stored. rewrite !V2, <-Hi.
      apply save_Ok in Hs as [_ [V|(_ & _ & Hn & V)]]; rewrite !V; vsimp; [by left|right].
      by rewrite Hn.
    + unfold epochv. rewrite V2, (save_frame _ _ _ _ _ _ _ _ Hs), V1, vset_ne by done. done.
Qed.

(** ** Storage lifetimes *)

(** The entry a write and an extension to [n] ledgers leave behind. *)
Lemma temporary_write_live e f k v n u u' w w1 w' :
  temporary f = true → set e f k v w = Ok (u, w1) → extend_ttl e f k n n w1 = Ok (u', w') →
  ∃ x, storage w' f !! k = Some x ∧ value x = v ∧ (sequence e + n ≤ live_until x)%N.
Proof.
  intros Hf Es Ee. unfold set, put_storage, fset in Es. injection Es as _ <-.
  unfold extend_ttl in Ee. apply bind_Ok in Ee as (m & w2 & [Hm ->]%lift_Ok & Ee).
  unfold put_storage in Ee. injection Ee as _ <-. simpl in *. rewrite Hf, update_eq in Hm.
  unfold temporary_extend_ttl, temporary_set in Hm. set (x0 := Build_entry v _) in Hm.
  unfold temporary_lookup in Hm. rewrite lookup_insert_eq in Hm.
  destruct (Host.is_live e x0) eqn:Hl; [|done].
  apply rbind_Ok in Hm as (? & Hle%demand_Ok & [= <-]). apply N.leb_le in Hle.
  exists (extended e n n x0). rewrite update_eq, lookup_insert_eq. split; [done|].
  split; [by rewrite value_extended|]. clearbody x0. unfold extended. rewrite N.min_l by done.
  destruct (N.ltb_spec (live_until x0) (sequence e + n)); simpl; [|lia].
  destruct (N.leb_spec (live_until x0 - sequence e) n); simpl; lia.
Qed.

Lemma fget_live e f k w x :
  temporary f = true → storage w f !! k = Some x → (sequence e ≤ live_until x)%N →
  fget e f k (storage w) = Some (value x).
Proof.
  intros Hf Hx Hl. unfold fget, temporary_get, temporary_lookup, Host.is_live. rewrite Hf, Hx.
  by rewrite (proj2 (N.leb_le _ _) Hl).
Qed.

Lemma load_run e acc id w :
  load e acc id w =
    Ok (match vals w Fattempt (acc, id) with
        | Some a => Some a
        | None => fget e Fcollecting (acc, id) (storage w)
        end, w).
Proof.
  unfold load, mbind, M_bind, get.
  change (fget e Fattempt (acc, id) (storage w)) with (vals w Fattempt (acc, id)).
  by destruct (vals w Fattempt (acc, id)).
Qed.

Lemma window_covers s s' d l :
  is_u32 d → (s ≤ s')%N → (s' ≤ d)%N → (s + saturating_add32 (saturating_sub d s) 1 ≤ l)%N →
  (s' ≤ l)%N.
Proof. unfold saturating_add32, saturating_sub, is_u32, U32_MAX. lia. Qed.

(** Losing a collecting attempt to expiry is its evidence window ending.
    A saved attempt, wherever it is stored, reads back unchanged at every
    later ledger through its evidence deadline. *)
Theorem saved_attempt_readable_through_window e e' acc a u w w' :
  save e acc a w = Ok (u, w') → is_u32 (evidence_deadline a) →
  (sequence e ≤ sequence e' ≤ evidence_deadline a)%N →
  load e' acc (at_id a) w' = Ok (Some a, w').
Proof.
  intros E Hu [Hle Hd]. rewrite load_run. pose proof E as E'.
  apply save_Ok in E' as [_ [V|(_ & _ & Hn & V)]]; [by rewrite V, vset_at|].
  assert (vals w' Fattempt (acc, at_id a) = None) as Hno by by rewrite V, vset_ne.
  rewrite Hno. unfold save in E. step E as b Hb. destruct (_ || _ || b) eqn:Hp.
  { effect E as w1 V1 O1. effect E as w2 V2 O2. apply extend_ttl_Ok in E as [V3 _].
    rewrite V3, V2, vset_at in Hno. done. }
  apply bind_Ok in E as (u1 & w1 & Hs & E).
  destruct (temporary_write_live e Fcollecting (acc, at_id a) a _ _ _ _ _ _ eq_refl Hs E)
    as (x & Hx & <- & Hl).
  rewrite (fget_live e' Fcollecting (acc, at_id (value x)) w' x eq_refl Hx); [done|].
  by eapply window_covers.
Qed.
End safety.
