(* ===== verification/ControllerViews.v ===== *)
(** * perch-recovery: views

    The read-only entry points of [perch-recovery/src/contract.rs] that serve
    clients, and that they serve what the controller checks: the statement a
    guardian is shown is the one whose digest the guardian must authorize. *)

From S2P Require Import Prelude Host RecoveryIface CompilerIface Controller ControllerRuns ControllerFacts.

Section views.
Context {H : Host} {O : Outside} (e : Env).

Definition config (account : Address) : M (option CompiledRecoveryConfig) := get e Fconfig account.

Definition epoch (account : Address) : M N := epoch_of e account.

Definition next_attempt_id (account : Address) : M N :=
  n ← get e Fnext_attempt account; mret (default 0%N n).

Definition attempt (account : Address) (attempt_id : N) : M (option Attempt) :=
  load e account attempt_id.

Definition statement_view (account : Address) (attempt_id : N) (domain : EvidenceDomain)
  : M RecoveryStatement :=
  c ← require_config e account;
  found ← load e account attempt_id;
  a ← lift (ok_or found NoSuchAttempt);
  lift (attempt_statement e account c a domain).

Definition change_statement (account : Address) (subject : StatementSubject) (valid_until : N)
  : M RecoveryStatement :=
  c ← require_config e account;
  change_statement_for e account c subject valid_until.

Definition change_evidence (account : Address) (digest : bytes) : M ChangeApproval :=
  found ← get e Fapproval (account, digest); mret (default ChangeApproval_empty found).

Definition baseline (account : Address) : M (option bytes) :=
  c ← get e Fconfig account;
  match c ≫= cf_baseline with
  | Some hash => get e Fbaseline (account, hash)
  | None => mret None
  end.

(** ** What is shown is what is checked *)

Lemma load_live_load acc id a w w' :
  load_live e acc id w = Ok (a, w') → load e acc id w = Ok (Some a, w) ∧ w' = w.
Proof.
  unfold load_live. intros E. apply bind_Ok in E as (o & w1 & Hl & E).
  step E as b Hb. apply ok_or_Ok in Hb. subst o. apply load_Ok in Hl as Hw. destruct Hw as [_ ->].
  apply bind_Ok in E as (l & w2 & [-> ->]%is_live_Ok & E).
  step E as u Hu. by apply mret_Ok in E as [-> ->].
Qed.

(** A guardian whose evidence counts has authorized the digest of the
    statement the view shows for that attempt and domain, while it was fresh. *)
Theorem guardians_sign_the_view acc id dom g u w w' :
  submit_guardian e acc id dom g w = Ok (u, w') →
  ∃ s d, statement_view acc id dom w = Ok (s, w) ∧ check_fresh e s = Ok tt ∧
    digest s = Ok d ∧ authorized_for_args e g d = true.
Proof.
  intros E. unfold submit_guardian in E.
  apply bind_Ok in E as (c & w1 & Hc & E). apply require_config_Ok in Hc as Hw. destruct Hw as [_ ->].
  step E as set Hset. step E as u1 H1.
  apply bind_Ok in E as (a & w1 & [Hl ->]%load_live_load & E).
  apply bind_Ok in E as (a' & w1 & Ha & E).
  assert (w1 = w ∧ attempt_statement e acc c a' dom = attempt_statement e acc c a dom) as [-> Hst].
  { destruct dom.
    - step Ha as u2 H2. step Ha as u3 H3. by apply mret_Ok in Ha as [-> ->].
    - step Ha as u3 H3. by apply mret_Ok in Ha as [-> ->]. }
  step E as s Hs. step E as u2 H2. destruct u2. step E as d Hd. step E as u3 H3.
  apply demand_Ok in H3. exists s, d. split; [|done]. unfold statement_view.
  apply bind_Ok. exists c, w. split; [done|]. apply bind_Ok. exists (Some a), w. split; [done|].
  apply bind_Ok. exists a, w. split; [done|]. apply lift_Ok. by rewrite <- Hst.
Qed.

(** A recorded approval of a change is on the statement the view shows. *)
Theorem approvals_sign_the_view acc subject vu g u w w' :
  approve_change e acc subject vu g w = Ok (u, w') →
  ∃ s d record, change_statement acc subject vu w = Ok (s, w) ∧ digest s = Ok d ∧
    authorized_for_args e g d = true ∧ change_evidence acc d w = Ok (record, w) ∧
    vals w' Fapproval (acc, d) =
      Some {| ca_guardians := ca_guardians record ++ [g]; ca_zk := ca_zk record |}.
Proof.
  intros E. unfold approve_change in E.
  apply bind_Ok in E as (c & w1 & Hc & E). apply require_config_Ok in Hc as Hw. destruct Hw as [_ ->].
  step E as set Hset. step E as u1 H1.
  apply bind_Ok in E as (u2 & w1 & [_ ->]%refuse_in_window_Ok & E).
  apply bind_Ok in E as (s & w1 & Hs & E). apply change_statement_for_Ok in Hs as Hw. destruct Hw as [-> _].
  step E as u3 H3. step E as d Hd. apply bind_Ok in E as (found & w1 & Hf & E).
  apply (get_Ok e Fapproval (acc, d)) in Hf as Hw. destruct Hw as [_ ->].
  step E as u4 H4. step E as u5 H5. apply demand_Ok in H5. apply store_approval_Ok in E as [Hv _].
  exists s, d, (default ChangeApproval_empty found). split; [|split; [done|split; [done|split]]].
  - unfold change_statement. apply bind_Ok. by exists c, w.
  - unfold change_evidence. apply bind_Ok. exists found, w. by rewrite mret_Ok.
  - rewrite Hv. by vsimp.
Qed.
End views.
