(* ===== verification/ControllerDemo.v ===== *)
(** * A recovery on a concrete chain

    One concrete instance of everything [Controller] leaves open, and the
    run of a [Combined], [Protected] account on it: enrollment, a lost-key
    attempt, a guardian's approval and a proof, the authorization of the
    completing call, the completion, and, from the same enrollment, an
    approved reconfiguration.  The run instantiates the theorems of
    [ControllerSafety] and [RecoveryIface]. *)

From S2P Require Import Prelude Host RecoveryIface CompilerIface Controller ControllerRuns ControllerFacts ControllerSafety.
#[local] Open Scope string_scope.
#[local] Open Scope list_scope.
#[local] Existing Instance DemoHost.

(** The account's new credential and its target document. *)
Definition demo_target : DerivedTarget := {|
  dt_canonical := "target"; dt_doc_hash := sha256 "target"; dt_config_hash := zeros 32;
  dt_fingerprints := ["new"]; dt_replaced := [Credential_Delegated "GOLD"] |}.

Definition DemoOutside : Outside := {|
  OutState := unit;
  applied_doc _ _ := Some (Some "doc");
  applied_doc_hash _ _ := Some (Some (sha256 "doc"));
  doc_compiler _ _ := Some "CCOMPILER";
  is_revoked _ _ _ := Some false;
  is_enrolled_id _ _ _ := Some false;
  rcv_gate _ o _ _ _ := Some o;
  try_compile_doc _ _ _ := None;
  try_derive_target _ _ _ _ _ _ := Some demo_target;
  try_verify _ _ _ _ _ := true;
  try_circuit_id _ _ := Some (zeros 32);
  try_tree_depth _ _ := Some 20%N;
  pool_try_depth _ _ := Some 20%N;
|}.
#[local] Existing Instance DemoOutside.

Definition demo_env (now : N) : Env := {|
  sequence := now; network_id := zeros 32; current_contract_address := "CCTRL";
  authorized := λ _, true; authorized_for_args := λ _ _, true; Host.max_ttl := 3110400;
  min_persistent_ttl := 2073600; min_temp_ttl := 17280 |}.

Definition demo_config (hash : bytes) : CompiledRecoveryConfig := {|
  cf_config_hash := hash; cf_profile := Profile_Protected;
  cf_mode := Mode_Combined {| guardians := ["GALICE"; "GBOB"]; quorum := 1 |}
    {| zf_adapter := "CADAPTER"; zf_circuit_id := zeros 32; zf_pool := "CPOOL";
       zf_enrollment_id := zeros 32; zf_commitment := zeros 32 |};
  cf_controller := "CCTRL"; cf_baseline := None; cf_replaceable := ["admin"];
  cf_delay_ledgers := 10; cf_expiry_ledgers := 100; cf_max_cancels := 3 |}.

Definition demo_replacements : ReplacementSet := {|
  rset_signers := [{| rp_signer_id := "admin"; rp_credential := Credential_Delegated "GNEW" |}];
  rset_zk_enrollment := [{| ze_id := zeros 32; ze_commitment := zeros 32 |}] |}.

Definition demo_evidence : ZkEvidence := {|
  tree_id := 0; root := zeros 32; nullifier := zeros 32; proof := "proof" |}.

Definition demo_start : World := {|
  storage := λ _, ∅; outside := (tt : OutState); events := [] |}.

Definition world_of {A} (c : result RecoveryError (A * World)) : World :=
  match c with Ok (_, w) => w | _ => demo_start end.

(** The old configuration hashes to [old_hash]; the target's to [zeros 32]. *)
Definition old_hash : bytes := be_bytes 32 7.

Definition demo_enroll := rcv_sync (demo_env 1) "CACC" "doc0" [demo_config old_hash] 0 demo_start.
Definition demo_w1 : World := world_of demo_enroll.
Definition demo_begin := begin_lost_key (demo_env 2) "CACC" demo_replacements demo_w1.
Definition demo_w2 : World := world_of demo_begin.
Definition demo_guardian :=
  submit_guardian (demo_env 3) "CACC" 0 Domain_Initiate "GALICE" demo_w2.
Definition demo_w3 : World := world_of demo_guardian.
Definition demo_proof := submit_zk (demo_env 4) "CACC" 0 Domain_Initiate demo_evidence demo_w3.
Definition demo_w4 : World := world_of demo_proof.
Definition demo_rule : ContextRule := {|
  rule_id := 1; context_type := ContextRuleType_CallContract "CACC"; rule_signers := [];
  rule_valid_until := None; rule_policies := []; rule_policy_ids := [] |}.
Definition demo_call : Context :=
  Context_Contract {| contract := "CACC"; fn_name := "apply_doc"; args := [DVBytes "target"] |}.
Definition demo_enforce := enforce (demo_env 20) demo_call [] demo_rule "CACC" demo_w4.
Definition demo_w5 : World := world_of demo_enforce.
Definition demo_complete :=
  rcv_sync (demo_env 20) "CACC" (sha256 "target") [demo_config (zeros 32)] 0 demo_w5.
Definition demo_w6 : World := world_of demo_complete.

Lemma run_ok {A} (c : result RecoveryError (A * World)) w :
  w = world_of c → is_ok c = true → ∃ a, c = Ok (a, w).
Proof. intros ->. destruct c as [[a w']| |]; [eauto|done..]. Qed.

(** Each call of the run is accepted. *)
Ltac demo_run c w E :=
  destruct (run_ok c w eq_refl ltac:(vm_compute; reflexivity)) as [? E]; unfold c in E.

Lemma demo_reach1 : ∃ h, reachable h demo_w1.
Proof.
  demo_run demo_enroll demo_w1 E. eexists.
  eapply reach_step; [|eapply cstep_sync; exact E]. by constructor.
Qed.

Lemma demo_reach2 : ∃ h, reachable h demo_w2.
Proof.
  demo_run demo_begin demo_w2 E. destruct demo_reach1 as [h Hr]. eexists.
  eapply reach_step; [exact Hr|eapply cstep_lost_key; exact E].
Qed.

Lemma demo_reach3 : ∃ h, reachable h demo_w3.
Proof.
  demo_run demo_guardian demo_w3 E. destruct demo_reach2 as [h Hr]. eexists.
  eapply reach_step; [exact Hr|eapply cstep_guardian; exact E].
Qed.

Lemma demo_reach4 : ∃ h, reachable h demo_w4.
Proof.
  demo_run demo_proof demo_w4 E. destruct demo_reach3 as [h Hr]. eexists.
  eapply reach_step; [exact Hr|eapply cstep_zk; exact E].
Qed.

Lemma demo_reach5 : ∃ h, reachable h demo_w5.
Proof.
  demo_run demo_enforce demo_w5 E. destruct demo_reach4 as [h Hr]. eexists.
  eapply reach_step; [exact Hr|eapply cstep_enforce; exact E].
Qed.

Lemma demo_reach6 : ∃ h, reachable h demo_w6.
Proof.
  demo_run demo_complete demo_w6 E. destruct demo_reach5 as [h Hr]. eexists.
  eapply reach_step; [exact Hr|eapply cstep_sync; exact E].
Qed.

(** ** The theorems at this run *)

Definition is_completed {A} (c : result RecoveryError (SyncOutcome * A)) : bool :=
  match c with Ok (Sync_Completed _, _) => true | _ => false end.

Lemma completed_run (c : result RecoveryError (SyncOutcome * World)) w :
  w = world_of c → is_completed c = true → ∃ cp, c = Ok (Sync_Completed cp, w).
Proof. intros ->. destruct c as [[[] w']| |]; try done. eauto. Qed.

Lemma completion_rests_on_evidence_witness :
  ∃ h a c, reachable h demo_w5 ∧ is_completed demo_complete = true ∧
    quorum_of c (approved h "CACC" c a Domain_Initiate).
Proof.
  destruct demo_reach5 as [h Hr].
  destruct (completed_run demo_complete demo_w6 eq_refl ltac:(vm_compute; reflexivity)) as [cp E].
  unfold demo_complete in E.
  destruct (completion_rests_on_evidence _ _ _ _ _ _ _ _ _ Hr E) as (a & c & n & _ & _ & _ & _ & Hq & _).
  exists h, a, c. split; [exact Hr|]. split; [vm_compute; reflexivity|exact Hq].
Defined.

(** From the enrollment, a removal approved by a guardian and a proof. *)
Definition demo_remove : StatementSubject := Subject_Reconfigure ConfigChange_Remove.
Definition demo_approve := approve_change (demo_env 2) "CACC" demo_remove 50 "GBOB" demo_w1.
Definition demo_r2 : World := world_of demo_approve.
Definition demo_prove := submit_zk_change (demo_env 3) "CACC" demo_remove 50 demo_evidence demo_r2.
Definition demo_r3 : World := world_of demo_prove.
Definition demo_removal := rcv_sync (demo_env 4) "CACC" "doc1" [] 50 demo_r3.
Definition demo_r4 : World := world_of demo_removal.

Lemma demo_reach_r3 : ∃ h, reachable h demo_r3.
Proof.
  demo_run demo_approve demo_r2 E2. demo_run demo_prove demo_r3 E3.
  destruct demo_reach1 as [h Hr]. eexists.
  eapply reach_step; [|eapply cstep_zk_change; exact E3].
  eapply reach_step; [exact Hr|eapply cstep_approve; exact E2].
Qed.

Definition is_removed {A} (c : result RecoveryError (SyncOutcome * A)) : bool :=
  match c with Ok (Sync_Removed, _) => true | _ => false end.

Lemma removed_run (c : result RecoveryError (SyncOutcome * World)) w :
  w = world_of c → is_removed c = true → c = Ok (Sync_Removed, w).
Proof. intros ->. by destruct c as [[[] w']| |]. Qed.

(** The configuration stored in a world is the one with this hash. *)
Definition enrolled w (hash : bytes) : bool :=
  match vals w Fconfig "CACC" with
  | Some c => bool_decide (cf_config_hash c = hash) && bool_decide (cf_profile c = Profile_Protected)
  | None => false
  end.

Lemma enrolled_Some w hash :
  enrolled w hash = true →
  ∃ c, vals w Fconfig "CACC" = Some c ∧ cf_profile c = Profile_Protected.
Proof.
  unfold enrolled. destruct (vals w Fconfig "CACC") as [c|]; [|done].
  intros [_ Hp%bool_decide_eq_true]%andb_true_iff. eauto.
Qed.

Lemma protected_changes_need_condition_witness :
  ∃ h c, reachable h demo_r3 ∧ is_removed demo_removal = true ∧
    condition_met h (demo_env 4) demo_r3 "CACC" c demo_remove 50.
Proof.
  destruct demo_reach_r3 as [h Hr].
  pose proof (removed_run demo_removal demo_r4 eq_refl ltac:(vm_compute; reflexivity)) as E.
  unfold demo_removal in E.
  destruct (enrolled_Some demo_r3 old_hash ltac:(vm_compute; reflexivity)) as (c & Hc & Hp).
  destruct (protected_changes_need_condition h demo_r3 (demo_env 4) "CACC" c Hr Hc Hp) as [Hs _].
  exists h, c. split; [exact Hr|]. split; [vm_compute; reflexivity|].
  exact (Hs _ _ _ _ _ E (or_intror eq_refl)).
Defined.

(** The completed attempt of the run carries its nullifier. *)
Definition completed_with w (id : N) (n : bytes) : bool :=
  match vals w Fattempt ("CACC", id) with
  | Some a => bool_decide (at_state a = State_Completed) && bool_decide (zk_nullifier a = Some n)
  | None => false
  end.

Lemma completed_with_Some w id n :
  completed_with w id n = true →
  ∃ a, vals w Fattempt ("CACC", id) = Some a ∧ at_state a = State_Completed ∧
    zk_nullifier a = Some n.
Proof.
  unfold completed_with. destruct (vals w Fattempt ("CACC", id)) as [a|]; [|done].
  intros [Hs%bool_decide_eq_true Hn%bool_decide_eq_true]%andb_true_iff. eauto.
Qed.

Lemma nullifier_completes_once_witness :
  completed_with demo_w6 0 (zeros 32) = true ∧
  ∀ e z s ev, nullifier ev = zeros 32 → ¬ ∃ r, verify_zk e "CACC" z s ev demo_w6 = Ok r.
Proof.
  split; [vm_compute; reflexivity|]. destruct demo_reach6 as [h Hr].
  destruct (completed_with_Some demo_w6 0 (zeros 32) ltac:(vm_compute; reflexivity))
    as (a & Ha & Hs & Hn).
  apply (nullifier_completes_once h demo_w6 "CACC" 0 a (zeros 32) Hr Ha Hs Hn).
Defined.

Definition has_live w (now : N) : bool := is_some (auth_live (demo_env now) w "CACC").

Lemma has_live_Some w now : has_live w now = true → ∃ a, auth_live (demo_env now) w "CACC" = Some a.
Proof. unfold has_live. destruct (auth_live _ _ _); [eauto|done]. Qed.

Lemma authorized_window_blocks_witness :
  has_live demo_w4 5 = true ∧
  ∀ act rs, ¬ ∃ r, begin (demo_env 5) "CACC" act rs demo_w4 = Ok r.
Proof.
  split; [vm_compute; reflexivity|]. destruct demo_reach4 as [h Hr].
  destruct (has_live_Some demo_w4 5 ltac:(vm_compute; reflexivity)) as [a Ha].
  apply (authorized_window_blocks h demo_w4 (demo_env 5) "CACC" a Hr Ha).
Defined.

Lemma controller_tenant_isolation_witness :
  cstep (demo_env 3) demo_w2 "CACC" demo_w3 ∧
  ∀ f k, owner f k ≠ "CACC" → vals demo_w3 f k = vals demo_w2 f k.
Proof.
  demo_run demo_guardian demo_w3 E. destruct demo_reach2 as [h Hr].
  assert (cstep (demo_env 3) demo_w2 "CACC" demo_w3) as St by (eapply cstep_guardian; exact E).
  split; [exact St|]. exact (controller_tenant_isolation h demo_w2 _ _ _ Hr St).
Defined.

Lemma controller_history_is_permanent_witness :
  cstep (demo_env 20) demo_w5 "CACC" demo_w6 ∧ (epochv demo_w5 "CACC" ≤ epochv demo_w6 "CACC")%N.
Proof.
  demo_run demo_complete demo_w6 E. destruct demo_reach5 as [h Hr].
  assert (cstep (demo_env 20) demo_w5 "CACC" demo_w6) as St by (eapply cstep_sync; exact E).
  split; [exact St|].
  destruct (controller_history_is_permanent h demo_w5 _ _ _ "CACC" Hr St) as [He _]. exact He.
Defined.

Lemma begin_opens_fresh_attempt_witness :
  ∃ id, begin (demo_env 2) "CACC" Action_LostKey demo_replacements demo_w1 = Ok (id, demo_w2) ∧
    nextv demo_w2 "CACC" = (id + 1)%N.
Proof.
  destruct (run_ok demo_begin demo_w2 eq_refl ltac:(vm_compute; reflexivity)) as [id E].
  unfold demo_begin, begin_lost_key in E.
  destruct demo_reach1 as [h Hr]. exists id. split; [exact E|].
  destruct (begin_opens_fresh_attempt h demo_w1 _ _ _ _ _ _ Hr E) as (_ & Hn & _). exact Hn.
Defined.

Definition demo_attempt : Attempt := {|
  at_id := 0; at_action := Action_LostKey; at_epoch := 1; created_at := 2;
  evidence_deadline := 102; cancel_until := 212; authorized_at := 0; executable_after := 0;
  expires_at := 0; at_source_doc_hash := zeros 32; at_target_doc_hash := zeros 32;
  target_bytes_hash := zeros 32; target_config_hash := zeros 32;
  at_replacements_hash := zeros 32; at_replaced := []; at_state := State_Collecting;
  at_guardians := []; zk_nullifier := None; cancel_guardians := []; cancel_zk := false |}.
Definition demo_save := save (demo_env 2) "CACC" demo_attempt demo_w1.
Definition demo_s2 : World := world_of demo_save.

Lemma saved_attempt_readable_through_window_witness :
  load (demo_env 102) "CACC" 0 demo_s2 = Ok (Some demo_attempt, demo_s2).
Proof.
  destruct (run_ok demo_save demo_s2 eq_refl ltac:(vm_compute; reflexivity)) as [u E].
  unfold demo_save in E.
  exact (saved_attempt_readable_through_window _ (demo_env 102) _ _ _ _ _ E
           ltac:(unfold is_u32, U32_MAX; simpl; lia) ltac:(simpl; lia)).
Defined.
