(* ===== verification/ZkPrimitives.v ===== *)
(** * perch-zk-primitives: hashing for the ZK recovery relation

    Models [crates/perch-zk-primitives/src/lib.rs]: the table of empty-subtree
    roots, the canonicality test, and the [Hasher] that computes commitments,
    leaves, nodes, nullifiers and statement hashes.  Poseidon2 itself is
    [soroban-poseidon]'s and the host's, so it is the class [Poseidon2]; what
    the repository relies on is the class [Poseidon2Laws].  A [Hasher] keeps no
    state between hashes, so it is not threaded. *)

From S2P Require Import Prelude Host RecoveryIface.
#[local] Open Scope string_scope.
#[local] Open Scope list_scope.

(** ** Domain constants of [perch-recovery-interface]'s [zk.rs] *)

Definition DOM_LEAF : bytes := of_bytes [
  0x19; 0x81; 0xde; 0x3e; 0x07; 0x70; 0x96; 0x13; 0x86; 0x22; 0x72; 0xed; 0xb5; 0xff; 0x4f; 0xab;
  0x54; 0x57; 0x37; 0x38; 0x2d; 0x14; 0x05; 0xfe; 0x8d; 0x09; 0x70; 0xdc; 0x7d; 0x4d; 0x7e; 0xd6]%N.

Definition DOM_BIND : bytes := of_bytes [
  0x20; 0xae; 0x61; 0x72; 0xaf; 0x8b; 0xed; 0x19; 0xc9; 0x21; 0xe9; 0x1e; 0x21; 0x64; 0x11; 0x98;
  0x66; 0x10; 0x35; 0x61; 0x6a; 0x6a; 0x4d; 0x73; 0x33; 0x46; 0x85; 0x35; 0x01; 0xfd; 0x07; 0xc5]%N.

Definition DOM_NULLIFIER : bytes := of_bytes [
  0x02; 0x80; 0xc3; 0x17; 0x0f; 0x4a; 0xbb; 0x83; 0x89; 0x83; 0x8a; 0x5c; 0x28; 0x0d; 0xbd; 0xac;
  0x8b; 0xfd; 0x7c; 0x75; 0xfc; 0xb7; 0x80; 0xa9; 0x48; 0x5d; 0x93; 0xaf; 0x55; 0x3a; 0xb8; 0x40]%N.

(** ** The zero table *)

Definition MAX_TREE_DEPTH : N := 32.

(** [hex32] runs at compile time: [None] is a build that fails. *)
Definition nibble (c : ascii) : option N :=
  let n := N_of_ascii c in
  if (48 <=? n)%N && (n <=? 57)%N then Some (n - 48)%N
  else if (97 <=? n)%N && (n <=? 102)%N then Some (n - 97 + 10)%N
  else None.

Fixpoint nibble_pairs (s : string) : option bytes :=
  match s with
  | "" => Some ""
  | String a (String b s) =>
      match nibble a, nibble b, nibble_pairs s with
      | Some x, Some y, Some out => Some (String (ascii_of_N (N.lor (N.shiftl x 4) y)) out)
      | _, _, _ => None
      end
  | _ => None
  end.

Definition hex32 (s : string) : option bytes :=
  if Nat.eqb (String.length s) 64 then nibble_pairs s else None.

Definition ZERO_HASHES : list bytes := omap hex32 [
  "0000000000000000000000000000000000000000000000000000000000000000";
  "0b63a53787021a4a962a452c2921b3663aff1ffd8d5510540f8e659e782956f1";
  "0e34ac2c09f45a503d2908bcb12f1cbae5fa4065759c88d501c097506a8b2290";
  "21f9172d72fdcdafc312eee05cf5092980dda821da5b760a9fb8dbdf607c8a20";
  "2373ea368857ec7af97e7b470d705848e2bf93ed7bef142a490f2119bcf82d8e";
  "120157cfaaa49ce3da30f8b47879114977c24b266d58b0ac18b325d878aafddf";
  "01c28fe1059ae0237b72334700697bdf465e03df03986fe05200cadeda66bd76";
  "2d78ed82f93b61ba718b17c2dfe5b52375b4d37cbbed6f1fc98b47614b0cf21b";
  "067243231eddf4222f3911defbba7705aff06ed45960b27f6f91319196ef97e1";
  "1849b85f3c693693e732dfc4577217acc18295193bede09ce8b97ad910310972";
  "2a775ea761d20435b31fa2c33ff07663e24542ffb9e7b293dfce3042eb104686";
  "0f320b0703439a8114f81593de99cd0b8f3b9bf854601abb5b2ea0e8a3dda4a7";
  "0d07f6e7a8a0e9199d6d92801fff867002ff5b4808962f9da2ba5ce1bdd26a73";
  "1c4954081e324939350febc2b918a293ebcdaead01be95ec02fcbe8d2c1635d1";
  "0197f2171ef99c2d053ee1fb5ff5ab288d56b9b41b4716c9214a4d97facc4c4a";
  "2b9cdd484c5ba1e4d6efcc3f18734b5ac4c4a0b9102e2aeb48521a661d3feee9";
  "14f44d672eb357739e42463497f9fdac46623af863eea4d947ca00a497dcdeb3";
  "071d7627ae3b2eabda8a810227bf04206370ac78dbf6c372380182dbd3711fe3";
  "2fdc08d9fe075ac58cb8c00f98697861a13b3ab6f9d41a4e768f75e477475bf5";
  "20165fe405652104dceaeeca92950aa5adc571b8cafe192878cba58ff1be49c5";
  "1c8c3ca0b3a3d75850fcd4dc7bf1e3445cd0cfff3ca510630fd90b47e8a24755";
  "1f0c1a8fb16b0d2ac9a146d7ae20d8d179695a92a79ed66fc45d9da4532459b3";
  "038146ec5a2573e1c30d2fb32c66c8440f426fbd108082df41c7bebd1d521c30";
  "17d3d12b17fe762de4b835b2180b012e808816a7f2ff69ecb9d65188235d8fd4";
  "0e1a6b7d63a6e5a9e54e8f391dd4e9d49cdfedcbc87f02cd34d4641d2eb30491";
  "09244eec34977ff795fc41036996ce974136377f521ac8eb9e04642d204783d2";
  "1646d6f544ec36df9dc41f778a7ef1690a53c730b501471b6acd202194a7e8e9";
  "064769603ba3f6c41f664d266ecb9a3a0f6567cd3e48b40f34d4894ee4c361b3";
  "1595bb3cd19f84619dc2e368175a88d8627a7439eda9397202cdb1167531fd3f";
  "2a529be462b81ca30265b558763b1498289c9d88277ab14f0838cb1fce4b472c";
  "0c08da612363088ad0bbc78abd233e8ace4c05a56fdabdd5e5e9b05e428bdaee";
  "14748d0241710ef47f54b931ac5a58082b1d56b0f0c30d55fb71a6e8c9a6be14";
  "0b59baa35b9dc267744f0ccb4e3b0255c1fc512460d91130c6bc19fb2668568d"].

(** ** [Hasher] *)

(** [Poseidon2Sponge::<4, Bn254Fr>::compute_hash] on [U256] inputs: [None] is
    the trap on an input that is no field element. *)
Class Poseidon2 : Type := compute_hash : list N → option N.

Section hasher.
Context {P : Poseidon2} {E : Type}.
Notation result := (result E).

Definition u256 (b : bytes) : N := be_value b.
Definition to_bytes32 (v : N) : bytes := be_bytes 32 v.

Definition is_canonical (value : bytes) : bool := is_canonical_field value.

Definition hash (inputs : list bytes) : result bytes :=
  let* v := or_panic (compute_hash (u256 <$> inputs)) in Ok (to_bytes32 v).

Definition node (left right : bytes) : result bytes := hash [left; right].

Definition commitment (secret : bytes) : result bytes := hash [DOM_LEAF; secret].

Definition leaf (account_id enrollment_id inner : bytes) : result bytes :=
  let ' (a_hi, a_lo) := split_hi_lo account_id in
  let ' (n_hi, n_lo) := split_hi_lo enrollment_id in
  hash [DOM_BIND; a_hi; a_lo; n_hi; n_lo; inner].

Definition hasher_nullifier (account_id enrollment_id secret : bytes) : result bytes :=
  let ' (a_hi, a_lo) := split_hi_lo account_id in
  let ' (n_hi, n_lo) := split_hi_lo enrollment_id in
  hash [DOM_NULLIFIER; a_hi; a_lo; n_hi; n_lo; secret].

Definition statement_hash (fields : ZkStatementFields) : result bytes :=
  hash (auth_preimage fields).

Fixpoint zero_hashes_from (cur : bytes) (depth : nat) : result (list bytes) :=
  match depth with
  | O => Ok [cur]
  | S depth =>
      let* next := node cur cur in
      let* rest := zero_hashes_from next depth in Ok (cur :: rest)
  end.
Definition zero_hashes (depth : nat) : result (list bytes) := zero_hashes_from (zeros 32) depth.
End hasher.

(** ** What the code relies on

    Poseidon2 is defined on field elements and returns field elements, and
    [ZERO_HASHES] is its table of empty subtrees (the repository's tests
    recompute it with [zero_hashes]). *)
Class Poseidon2Laws `{P : Poseidon2} : Prop := {
  compute_hash_field l v : compute_hash l = Some v → (v < SCALAR_MODULUS)%N;
  compute_hash_defined l :
    Forall (λ x, (x < SCALAR_MODULUS)%N) l → is_Some (compute_hash l);
  zero_table i z z' :
    ZERO_HASHES !! i = Some z → ZERO_HASHES !! S i = Some z' →
    compute_hash [be_value z; be_value z] = Some (be_value z');
}.

(** A 32-byte string that denotes a field element. *)
Definition field (b : bytes) : Prop := hash32 b ∧ (be_value b < SCALAR_MODULUS)%N.

Global Instance field_dec b : Decision (field b).
Proof. unfold field, hash32. apply _. Defined.

Lemma field_canonical b : hash32 b → is_canonical b = true ↔ field b.
Proof.
  intros Hb. unfold is_canonical, field. rewrite is_canonical_field_exact by done. tauto.
Qed.

Lemma be_value_be_bytes n x : be_value (be_bytes n x) = (x mod 256 ^ N.of_nat n)%N.
Proof.
  revert x. induction n as [|n IH]; intros x; [by rewrite N.mod_1_r|].
  cbn [be_bytes]. rewrite be_value_cons, IH. unfold slen. rewrite length_be_bytes.
  rewrite N_ascii_embedding by (apply N.mod_lt; done).
  rewrite Nat2N.inj_succ, N.pow_succ_r', (N.mul_comm 256), N.Div0.mod_mul_r. lia.
Qed.

Lemma be_bytes_be_value b : be_bytes (String.length b) (be_value b) = b.
Proof.
  induction b as [|c b IH]; [done|]. cbn [String.length be_bytes].
  pose proof (be_value_bound b) as Hb. pose proof (N_ascii_bounded c) as Hc. unfold slen in Hb.
  rewrite be_value_cons. unfold slen.
  assert (256 ^ N.of_nat (String.length b) ≠ 0)%N as Hp by (apply N.pow_nonzero; done).
  f_equal.
  - rewrite N.div_add_l, (N.div_small (be_value b)), N.add_0_r, N.mod_small by done.
    apply ascii_N_embedding.
  - etransitivity; [|exact IH]. rewrite be_bytes_mod, N.add_comm, N.Div0.mod_add.
    by rewrite <-be_bytes_mod.
Qed.

Lemma field_zero : field (zeros 32).
Proof. vm_compute. done. Qed.

Lemma zero_hashes_length : length ZERO_HASHES = 33%nat.
Proof. vm_compute. done. Qed.

Lemma zero_hashes_fields : Forall field ZERO_HASHES.
Proof. apply (bool_decide_unpack _). vm_compute. done. Qed.

(** The empty subtree of a level: [ZERO_HASHES\[level\]]. *)
Definition zero_at (level : nat) : bytes := default (zeros 32) (ZERO_HASHES !! level).

Lemma zero_at_lookup level : (level ≤ 32)%nat → ZERO_HASHES !! level = Some (zero_at level).
Proof.
  intros Hl. unfold zero_at. destruct (ZERO_HASHES !! level) as [z|] eqn:E; [done|].
  apply lookup_ge_None in E. rewrite zero_hashes_length in E. lia.
Qed.

Lemma zero_at_0 : zero_at 0 = zeros 32.
Proof. vm_compute. done. Qed.

Lemma field_zero_at level : field (zero_at level).
Proof.
  unfold zero_at. destruct (ZERO_HASHES !! level) as [z|] eqn:E; [|apply field_zero].
  eapply Forall_lookup_1; [exact zero_hashes_fields|done].
Qed.

(** ** Hashing on field elements never traps *)

Section hasher_facts.
Context `{PL : Poseidon2Laws}.

(** A 16-byte half, padded, is a field element, so hashing ids and field
    elements is always defined. *)
Lemma be_value_app a b : be_value (a +:+ b) = (be_value a * 256 ^ slen b + be_value b)%N.
Proof.
  induction a as [|c a IH]; [done|]. rewrite string_app_cons, !be_value_cons, IH.
  unfold slen. rewrite length_string_app, Nat2N.inj_add, N.pow_add_r. lia.
Qed.

Lemma field_half n x :
  hash32 x → (n ≤ 16)%nat → field (zeros 16 +:+ substring n 16 x).
Proof.
  intros Hx Hn. assert (String.length (substring n 16 x) = 16%nat) as Hl
    by (apply length_substring; rewrite Hx; lia).
  unfold field, hash32. rewrite length_string_app, Hl. split; [done|].
  rewrite be_value_app. pose proof (be_value_bound (substring n 16 x)) as Hb.
  unfold slen in *. rewrite Hl in *. change (be_value (zeros 16)) with 0%N.
  eapply N.lt_trans; [|apply (N.ltb_lt (256 ^ 16) SCALAR_MODULUS); vm_compute; done]. lia.
Qed.

Lemma split_hi_lo_field x hi lo : hash32 x → split_hi_lo x = (hi, lo) → field hi ∧ field lo.
Proof. intros Hx [= <- <-]. split; apply field_half; done || lia. Qed.

(** [node] as a total function. *)
Definition node_of (left right : bytes) : bytes :=
  to_bytes32 (default 0%N (compute_hash [be_value left; be_value right])).

Lemma hash_field {E} inputs out : hash (E:=E) inputs = Ok out → field out.
Proof.
  unfold hash. intros Hh. inv_result. apply compute_hash_field in H.
  split; [apply length_be_bytes|]. unfold to_bytes32. rewrite be_value_be_bytes.
  eapply N.le_lt_trans; [apply N.Div0.mod_le|done].
Qed.

Lemma leaf_field {E} acct id inner x : leaf (E:=E) acct id inner = Ok x → field x.
Proof. apply hash_field. Qed.

Lemma hash_defined {E} inputs : Forall field inputs → ∃ out, hash (E:=E) inputs = Ok out.
Proof.
  intros Hf. destruct (compute_hash_defined (be_value <$> inputs)) as [v Hv].
  { apply Forall_fmap. eapply Forall_impl; [exact Hf|]. by intros x []. }
  unfold hash. change (u256 <$> inputs) with (be_value <$> inputs). rewrite Hv. simpl. eauto.
Qed.

Lemma domains_fields : field DOM_LEAF ∧ field DOM_BIND ∧ field DOM_NULLIFIER ∧ field DOM_AUTH.
Proof. apply (bool_decide_unpack _). vm_compute. done. Qed.

Lemma leaf_defined {E} acct id inner :
  hash32 acct → hash32 id → field inner → ∃ x, leaf (E:=E) acct id inner = Ok x.
Proof.
  intros Ha Hi Hf. apply hash_defined. destruct domains_fields as (_ & ? & _).
  rewrite !Forall_cons, Forall_nil.
  repeat (split; [first [done|apply field_half; done || lia]|]). done.
Qed.

Lemma node_Ok {E} l r : field l → field r → node (E:=E) l r = Ok (node_of l r).
Proof.
  intros Hl Hr. unfold node, node_of, hash, u256. simpl.
  destruct (compute_hash_defined [be_value l; be_value r]) as [v ->]; [|done].
  repeat constructor; [apply Hl|apply Hr].
Qed.

Lemma field_node_of l r : field l → field r → field (node_of l r).
Proof. intros Hl Hr. apply (hash_field (E:=unit) [l; r]). exact (node_Ok l r Hl Hr). Qed.

Lemma node_of_zero level :
  (level < 32)%nat → node_of (zero_at level) (zero_at level) = zero_at (S level).
Proof.
  intros Hl. unfold node_of.
  rewrite (zero_table level (zero_at level) (zero_at (S level)))
    by (apply zero_at_lookup; lia).
  simpl. unfold to_bytes32. destruct (field_zero_at (S level)) as [H32 _].
  rewrite <-H32. apply be_bytes_be_value.
Qed.

(** The table is what [Hasher::zero_hashes] computes. *)
Lemma zero_hashes_table {E} depth :
  (depth ≤ 32)%nat → zero_hashes (E:=E) depth = Ok (take (S depth) ZERO_HASHES).
Proof.
  intros Hd. unfold zero_hashes.
  cut (∀ n level, (level + n ≤ 32)%nat →
    zero_hashes_from (E:=E) (zero_at level) n = Ok (take (S n) (drop level ZERO_HASHES))).
  { intros Hc. rewrite <-zero_at_0. rewrite Hc by lia. by rewrite drop_0. }
  clear depth Hd. induction n as [|n IH]; intros level Hl;
    rewrite (drop_S _ _ _ (zero_at_lookup level ltac:(lia))); [done|].
  cbn [zero_hashes_from]. rewrite node_Ok by apply field_zero_at. cbn [rbind].
  rewrite node_of_zero by lia. rewrite IH by lia. done.
Qed.
End hasher_facts.
#[export] Hint Resolve field_zero field_zero_at field_node_of : core.

(** The table is only read through the lemmas above. *)
#[global] Opaque ZERO_HASHES zero_at.
