(* ===== verification/Merkle.v ===== *)
(** * The Merkle tree the pool and the prover are checked against

    Not code of the repository: the reference definition.  A tree is a total
    assignment of leaves to indices, zero where nothing was inserted;
    [node_at f level i] is the node over the leaves [i * 2^level] to
    [(i + 1) * 2^level - 1], hashed as the circuit hashes it.  The lemmas say
    how a node depends on its leaves, how a path from a leaf recomputes a
    root, and that a path that recomputes the root of another leaf yields a
    collision of the hash. *)

From S2P Require Import Prelude Host RecoveryIface ZkPrimitives.
#[local] Open Scope N_scope.

(** ** Shifts *)

Lemma shiftr_div n l : N.shiftr n (N.of_nat l) = n / 2 ^ N.of_nat l.
Proof. apply N.shiftr_div_pow2. Qed.

Lemma pow2_pos l : 0 < 2 ^ N.of_nat l.
Proof. apply N.neq_0_lt_0, N.pow_nonzero. done. Qed.

Lemma pow2_S l : 2 ^ N.of_nat (S l) = 2 * 2 ^ N.of_nat l.
Proof. by rewrite Nat2N.inj_succ, N.pow_succ_r'. Qed.

Lemma shiftr_range n l :
  N.shiftr n (N.of_nat l) * 2 ^ N.of_nat l ≤ n <
    (N.shiftr n (N.of_nat l) + 1) * 2 ^ N.of_nat l.
Proof.
  rewrite shiftr_div. pose proof (pow2_pos l) as Hp. generalize dependent (2 ^ N.of_nat l).
  intros p Hp.
  pose proof (N.div_mod n p ltac:(lia)) as E.
  pose proof (N.mod_lt n p ltac:(lia)) as L.
  generalize dependent (n / p). generalize dependent (n mod p). intros r L q E. nia.
Qed.

Lemma shiftr_unique n l i :
  i * 2 ^ N.of_nat l ≤ n < (i + 1) * 2 ^ N.of_nat l → N.shiftr n (N.of_nat l) = i.
Proof. intros Hi. pose proof (shiftr_range n l). pose proof (pow2_pos l). nia. Qed.

Lemma shiftr_S n l :
  N.shiftr n (N.of_nat l) = 2 * N.shiftr n (N.of_nat (S l)) ∨
  N.shiftr n (N.of_nat l) = 2 * N.shiftr n (N.of_nat (S l)) + 1.
Proof.
  pose proof (shiftr_range n l) as A. pose proof (shiftr_range n (S l)) as B.
  rewrite pow2_S in B. pose proof (pow2_pos l). nia.
Qed.

(** The loops' test [(index >> level) & 1 == 0]. *)
Definition left_child (index : N) (level : nat) : bool :=
  N.land (N.shiftr index (N.of_nat level)) 1 =? 0.

Lemma land_1 n : N.land n 1 = n mod 2.
Proof. apply (N.land_ones n 1). Qed.

Lemma left_child_true n l :
  left_child n l = true ↔
    N.shiftr n (N.of_nat l) = 2 * N.shiftr n (N.of_nat (S l)).
Proof.
  unfold left_child. rewrite land_1, N.eqb_eq. destruct (shiftr_S n l) as [->| ->].
  - rewrite N.mul_comm, N.Div0.mod_mul. lia.
  - rewrite N.add_comm, N.mul_comm, N.Div0.mod_add. change (1 mod 2) with 1. lia.
Qed.

Lemma left_child_false n l :
  left_child n l = false ↔
    N.shiftr n (N.of_nat l) = 2 * N.shiftr n (N.of_nat (S l)) + 1.
Proof.
  rewrite <-not_true_iff_false, left_child_true. destruct (shiftr_S n l); lia.
Qed.

(** ** The tree *)

Section tree.
Context `{P : Poseidon2}.

Fixpoint node_at (f : N → bytes) (level : nat) (i : N) : bytes :=
  match level with
  | O => f i
  | S level => node_of (node_at f level (2 * i)) (node_at f level (2 * i + 1))
  end.

(** Nothing was inserted at or after [n]. *)
Definition empty_from (n : N) (f : N → bytes) : Prop := ∀ k, n ≤ k → f k = zeros 32.

Lemma node_at_ext f g level i :
  (∀ k, i * 2 ^ N.of_nat level ≤ k < (i + 1) * 2 ^ N.of_nat level → f k = g k) →
  node_at f level i = node_at g level i.
Proof.
  revert i. induction level as [|level IH]; intros i Hfg.
  - apply Hfg. simpl. lia.
  - rewrite pow2_S in Hfg. simpl. f_equal; apply IH; intros k Hk; apply Hfg; nia.
Qed.

(** A node depends only on the leaves below it. *)
Lemma node_at_insert f n x level i :
  N.shiftr n (N.of_nat level) ≠ i →
  node_at (λ k, if decide (k = n) then x else f k) level i = node_at f level i.
Proof.
  intros Hi. apply node_at_ext. intros k Hk. case_decide; [|done]. subst k.
  by apply shiftr_unique in Hk.
Qed.

Lemma node_at_left f n level :
  left_child n level = true →
  node_at f (S level) (N.shiftr n (N.of_nat (S level))) =
    node_of (node_at f level (N.shiftr n (N.of_nat level)))
            (node_at f level (N.shiftr n (N.of_nat level) + 1)).
Proof. intros E%left_child_true. cbn [node_at]. by rewrite E. Qed.

Lemma node_at_right f n level :
  left_child n level = false →
  node_at f (S level) (N.shiftr n (N.of_nat (S level))) =
    node_of (node_at f level (N.shiftr n (N.of_nat level) - 1))
            (node_at f level (N.shiftr n (N.of_nat level))).
Proof.
  intros E%left_child_false. cbn [node_at]. rewrite E. by rewrite N.add_sub.
Qed.

Lemma field_node_at `{PL : !Poseidon2Laws} f level i :
  (∀ k, field (f k)) → field (node_at f level i).
Proof. intros Hf. revert i. induction level; intros i; simpl; [done|by apply field_node_of]. Qed.

Lemma node_at_empty `{PL : !Poseidon2Laws} f n level i :
  (level ≤ 32)%nat → empty_from n f → n ≤ i * 2 ^ N.of_nat level →
  node_at f level i = zero_at level.
Proof.
  intros Hl He. revert i. induction level as [|level IH]; intros i Hi.
  - simpl. rewrite zero_at_0. apply He. simpl in Hi. lia.
  - rewrite pow2_S in Hi. cbn [node_at].
    rewrite !IH by (lia || nia). apply node_of_zero. lia.
Qed.

(** ** Paths *)

(** The root a path of siblings gives, from the leaf up ([root_from_path] and
    the circuit's [merkle_root]), on field elements. *)
Fixpoint climb_path (cur : bytes) (index : N) (level : nat) (siblings : list bytes) : bytes :=
  match siblings with
  | [] => cur
  | sib :: siblings =>
      climb_path (if left_child index level then node_of cur sib else node_of sib cur)
        index (S level) siblings
  end.

(** The sibling of the node above [index] at a level. *)
Definition sibling (index : N) (level : nat) : N :=
  if left_child index level then N.shiftr index (N.of_nat level) + 1
  else N.shiftr index (N.of_nat level) - 1.

Lemma lxor_1 n : N.lxor n 1 = if N.even n then n + 1 else n - 1.
Proof. destruct n as [|[n|n|]]; done. Qed.

Lemma sibling_lxor index level :
  sibling index level = N.lxor (N.shiftr index (N.of_nat level)) 1.
Proof.
  unfold sibling. rewrite lxor_1. set (a := N.shiftr index (N.of_nat level)).
  assert (left_child index level = N.even a) as ->; [|done].
  unfold left_child. fold a. rewrite land_1.
  rewrite <-N.bit0_mod, N.bit0_odd, <-N.negb_even. by destruct (N.even a).
Qed.

(** A sibling, counted from the start of an aligned chunk around it. *)
Lemma sibling_in_chunk index height level :
  (level < height)%nat →
  let b := N.shiftr index (N.of_nat height) in
  let c := N.lxor (N.shiftr (index - b * 2 ^ N.of_nat height) (N.of_nat level)) 1 in
  c < 2 ^ N.of_nat (height - level) ∧
  sibling index level = b * 2 ^ N.of_nat (height - level) + c.
Proof.
  intros Hl b. rewrite sibling_lxor. pose proof (shiftr_range index height) as Hb. fold b in Hb.
  set (c := N.shiftr (index - b * 2 ^ N.of_nat height) (N.of_nat level)).
  pose proof (shiftr_range (index - b * 2 ^ N.of_nat height) level) as Hc. fold c in Hc.
  replace (height - level)%nat with (S (height - S level)) by lia.
  assert (2 ^ N.of_nat height = 2 ^ N.of_nat (height - S level) * 2 * 2 ^ N.of_nat level) as Ep.
  { rewrite <-(N.mul_assoc _ 2), <-pow2_S, <-N.pow_add_r. f_equal. lia. }
  rewrite Ep in *. rewrite pow2_S. pose proof (pow2_pos level).
  set (q := 2 ^ N.of_nat (height - S level)) in *. clearbody q c.
  assert (N.shiftr index (N.of_nat level) = 2 * (b * q) + c) as ->.
  { apply shiftr_unique. nia. }
  rewrite !lxor_1, N.even_add, N.even_mul. cbn [N.even orb eqb].
  assert (c < 2 * q) by nia.
  destruct (N.even c) eqn:Ec; cbn [Bool.eqb].
  - apply N.even_spec in Ec as [d Ed]. lia.
  - rewrite <-N.negb_odd in Ec. apply negb_false_iff, N.odd_spec in Ec as [d Ed]. lia.
Qed.

Lemma climb_path_node_at f index level siblings :
  (∀ j sib, siblings !! j = Some sib → sib = node_at f (level + j) (sibling index (level + j))) →
  climb_path (node_at f level (N.shiftr index (N.of_nat level))) index level siblings =
    node_at f (level + length siblings) (N.shiftr index (N.of_nat (level + length siblings))).
Proof.
  revert level. induction siblings as [|sib siblings IH]; intros level Hs.
  { simpl. by rewrite Nat.add_0_r. }
  cbn [climb_path length]. rewrite <-Nat.add_succ_comm.
  rewrite (Hs 0%nat sib) by done. rewrite Nat.add_0_r. unfold sibling.
  rewrite <-IH.
  2:{ intros j s Hj. rewrite (Hs (S j) s) by done. by rewrite <-Nat.add_succ_comm. }
  f_equal. destruct (left_child index level) eqn:E.
  - by rewrite node_at_left.
  - by rewrite node_at_right.
Qed.

(** *** A path to the root is a path of the tree, or a collision *)

(** The pair hashed at one step of a path, and the pair the tree hashes
    there. *)
Definition step_pair (cur sib : bytes) (index : N) (level : nat) : bytes * bytes :=
  if left_child index level then (cur, sib) else (sib, cur).
Definition tree_pair (f : N → bytes) (index : N) (level : nat) : bytes * bytes :=
  let i := N.shiftr index (N.of_nat (S level)) in
  (node_at f level (2 * i), node_at f level (2 * i + 1)).
Definition node_pair (p : bytes * bytes) : bytes := node_of p.1 p.2.

(** Walk a path beside the tree and return the first step that hashes another
    pair to the tree's node. *)
Fixpoint path_collision (f : N → bytes) (cur : bytes) (index : N) (level : nat)
    (siblings : list bytes) : option ((bytes * bytes) * (bytes * bytes)) :=
  match siblings with
  | [] => None
  | sib :: siblings =>
      let p := step_pair cur sib index level in
      let q := tree_pair f index level in
      if decide (p ≠ q ∧ node_pair p = node_pair q) then Some (p, q)
      else path_collision f (node_pair p) index (S level) siblings
  end.

Lemma climb_path_step cur index level sib siblings :
  climb_path cur index level (sib :: siblings) =
    climb_path (node_pair (step_pair cur sib index level)) index (S level) siblings.
Proof. cbn [climb_path]. unfold step_pair, node_pair. by destruct (left_child index level). Qed.

Lemma path_collision_Some f cur index level siblings p q :
  path_collision f cur index level siblings = Some (p, q) → p ≠ q ∧ node_pair p = node_pair q.
Proof.
  revert cur level. induction siblings as [|sib siblings IH]; intros cur level; [done|].
  cbn [path_collision]. case_decide; [|apply IH]. by intros [= <- <-].
Qed.

Lemma path_collision_None f cur index level siblings :
  path_collision f cur index level siblings = None →
  climb_path cur index level siblings =
    node_at f (level + length siblings) (N.shiftr index (N.of_nat (level + length siblings))) →
  cur = node_at f level (N.shiftr index (N.of_nat level)).
Proof.
  revert cur level. induction siblings as [|sib siblings IH]; intros cur level Hc Hr.
  { simpl in Hr. by rewrite Nat.add_0_r in Hr. }
  cbn [path_collision] in Hc. case_decide as Hd; [done|].
  rewrite climb_path_step in Hr. cbn [length] in Hr. rewrite <-Nat.add_succ_comm in Hr.
  specialize (IH _ _ Hc Hr).
  assert (step_pair cur sib index level = tree_pair f index level) as E.
  { destruct (decide (step_pair cur sib index level = tree_pair f index level)); [done|].
    exfalso. by apply Hd. }
  unfold step_pair, tree_pair in E. destruct (left_child index level) eqn:El.
  - apply left_child_true in El. rewrite El. by injection E.
  - apply left_child_false in El. rewrite El. by injection E.
Qed.
End tree.
