(* ===== verification/Pool.v ===== *)
(** * perch-zk-pool: the membership pool

    Models [crates/perch-zk-pool/src]: the storage keys and incremental Merkle
    trees of [merkle.rs] with their rollover, and every entry point of
    [contract.rs].  Storage is one map per constructor of [PoolKey], each with
    the value type the code stores under it; every entry carries its lifetime,
    and [bump] extends it as the code does.  As in the source the functions of
    [merkle.rs] take the tree depth, and the contract passes [TREE_DEPTH]. *)

From S2P Require Import Prelude Host RecoveryIface ZkPrimitives Merkle.
#[local] Open Scope list_scope.

(** ** [lib.rs] *)

Definition POOL_VERSION : N := 1.
Definition TREE_DEPTH : N := 32.
Definition MAX_PAGE : N := 64.

Inductive PoolError : Type :=
| NonCanonicalCommitment | PoolAccountNotContract | EnrollmentIdTaken | UnknownTree
| PageTooLarge | TreeIdOverflow.

Record Insertion : Type := {
  ins_tree_id : N;
  ins_index : N;
  ins_leaf : bytes;
  ins_root : bytes;
}.

Record LeafPosition : Type := { lp_tree_id : N; lp_index : N }.

Global Instance LeafPosition_eq_dec : EqDecision LeafPosition.
Proof. solve_decision. Defined.

Record TreeInfo : Type := {
  ti_tree_id : N;
  ti_size : N;
  ti_capacity : N;
  ti_root : bytes;
  ti_sealed : bool;
}.

(** ** [merkle.rs] *)

Record TreeState : Type := {
  ts_size : N;
  ts_root : bytes;
  ts_frontier : list bytes;
}.

Section pool.
Context {H : Host} {P : Poseidon2}.
Notation result := (result PoolError).

Inductive PoolKey : Type :=
| CurrentTree
| Tree (tree_id : N)
| Root (tree_id : N) (root : bytes)
| Leaf (tree_id index : N)
| Enrollment (account : Address) (enrollment_id : bytes).

Record LeafInserted : Type := {
  li_account : Address;
  li_tree_id : N;
  li_enrollment_id : bytes;
  li_index : N;
  li_leaf : bytes;
  li_root : bytes;
}.

(** The pool's persistent entries, and the events it has published. *)
Record PoolStorage : Type := {
  current_entry : gmap unit (entry N);
  tree_entries : gmap N (entry TreeState);
  root_entries : gmap (N * bytes) (entry N);
  leaf_entries : gmap (N * N) (entry bytes);
  enrollment_entries : gmap (Address * bytes) (entry LeafPosition);
  published : list LeafInserted;
}.

Definition empty_pool : PoolStorage := {|
  current_entry := ∅; tree_entries := ∅; root_entries := ∅; leaf_entries := ∅;
  enrollment_entries := ∅; published := [] |}.

Definition put_current m (st : PoolStorage) : PoolStorage := {|
  current_entry := m; tree_entries := tree_entries st; root_entries := root_entries st;
  leaf_entries := leaf_entries st; enrollment_entries := enrollment_entries st;
  published := published st |}.
Definition put_trees m (st : PoolStorage) : PoolStorage := {|
  current_entry := current_entry st; tree_entries := m; root_entries := root_entries st;
  leaf_entries := leaf_entries st; enrollment_entries := enrollment_entries st;
  published := published st |}.
Definition put_roots m (st : PoolStorage) : PoolStorage := {|
  current_entry := current_entry st; tree_entries := tree_entries st; root_entries := m;
  leaf_entries := leaf_entries st; enrollment_entries := enrollment_entries st;
  published := published st |}.
Definition put_leaves m (st : PoolStorage) : PoolStorage := {|
  current_entry := current_entry st; tree_entries := tree_entries st;
  root_entries := root_entries st; leaf_entries := m;
  enrollment_entries := enrollment_entries st; published := published st |}.
Definition put_enrollments m (st : PoolStorage) : PoolStorage := {|
  current_entry := current_entry st; tree_entries := tree_entries st;
  root_entries := root_entries st; leaf_entries := leaf_entries st;
  enrollment_entries := m; published := published st |}.
Definition publish_leaf (ev : LeafInserted) (st : PoolStorage) : PoolStorage := {|
  current_entry := current_entry st; tree_entries := tree_entries st;
  root_entries := root_entries st; leaf_entries := leaf_entries st;
  enrollment_entries := enrollment_entries st; published := published st ++ [ev] |}.

(** Every function runs in the environment [e] of its invocation. *)
Context (e : Env).

Definition capacity (depth : N) : N := N.shiftl 1 depth.

(** [ZERO_HASHES\[level\]]: indexing past the table panics. *)
Definition zero (level : nat) : result bytes := or_panic (ZERO_HASHES !! level).

(** [e.storage().persistent().has(key)]. *)
Definition has (key : PoolKey) (st : PoolStorage) : bool :=
  match key with
  | CurrentTree => persistent_has (current_entry st) tt
  | Tree t => persistent_has (tree_entries st) t
  | Root t r => persistent_has (root_entries st) (t, r)
  | Leaf t i => persistent_has (leaf_entries st) (t, i)
  | Enrollment a n => persistent_has (enrollment_entries st) (a, n)
  end.

Definition bump (key : PoolKey) (st : PoolStorage) : result PoolStorage :=
  let max := storage_max_ttl e in
  match key with
  | CurrentTree =>
      let* m := persistent_extend_ttl e (current_entry st) tt max max in Ok (put_current m st)
  | Tree t =>
      let* m := persistent_extend_ttl e (tree_entries st) t max max in Ok (put_trees m st)
  | Root t r =>
      let* m := persistent_extend_ttl e (root_entries st) (t, r) max max in Ok (put_roots m st)
  | Leaf t i =>
      let* m := persistent_extend_ttl e (leaf_entries st) (t, i) max max in Ok (put_leaves m st)
  | Enrollment a n =>
      let* m := persistent_extend_ttl e (enrollment_entries st) (a, n) max max in
      Ok (put_enrollments m st)
  end.

Definition bump_if_present (key : PoolKey) (st : PoolStorage) : result PoolStorage :=
  if has key st then bump key st else Ok st.

Definition current_tree (st : PoolStorage) : N :=
  default 0%N (persistent_get (current_entry st) tt).

Definition require_opened (tree_id : N) (st : PoolStorage) : result unit :=
  refuse_if (current_tree st <? tree_id)%N UnknownTree.

Definition state (tree_id : N) (st : PoolStorage) : option TreeState :=
  persistent_get (tree_entries st) tree_id.

(** The tree [append] starts from when none is stored. *)
Definition fresh_tree (depth : N) : result TreeState :=
  let* frontier := mapM_result zero (seq 0 (N.to_nat depth)) in
  let* root := zero (N.to_nat depth) in
  Ok {| ts_size := 0; ts_root := root; ts_frontier := frontier |}.

(** The loop of [append] over the levels.  [Vec::set] and [get_unchecked] trap
    past the end. *)
Fixpoint climb (index : N) (levels : list nat) (frontier : list bytes) (cur : bytes)
  : result (list bytes * bytes) :=
  match levels with
  | [] => Ok (frontier, cur)
  | level :: levels =>
      if left_child index level then
        demand (level <? length frontier)%nat ;;;
        let* z := zero level in
        let* next := node cur z in
        climb index levels (<[level := cur]> frontier) next
      else
        let* left := or_panic (frontier !! level) in
        let* next := node left cur in
        climb index levels frontier next
  end.

Definition append (depth : N) (leaf : bytes) (st : PoolStorage)
  : result (Insertion * PoolStorage) :=
  let tree_id := current_tree st in
  let* ts := match state tree_id st with Some ts => Ok ts | None => fresh_tree depth end in
  let index := ts_size ts in
  let* ' (frontier, cur) := climb index (seq 0 (N.to_nat depth)) (ts_frontier ts) leaf in
  let* size := u64_add (ts_size ts) 1 in
  let ts := {| ts_size := size; ts_root := cur; ts_frontier := frontier |} in
  let st := put_trees (persistent_set e (tree_entries st) tree_id ts) st in
  let* st := bump (Tree tree_id) st in
  let st := put_leaves (persistent_set e (leaf_entries st) (tree_id, index) leaf) st in
  let* st := bump (Leaf tree_id index) st in
  let st := put_roots (persistent_set e (root_entries st) (tree_id, cur) size) st in
  let* st := bump (Root tree_id cur) st in
  let* st :=
    if (size =? capacity depth)%N then
      let* next := ok_or (checked_add32 tree_id 1) TreeIdOverflow in
      bump CurrentTree (put_current (persistent_set e (current_entry st) tt next) st)
    else Ok st in
  Ok ({| ins_tree_id := tree_id; ins_index := index; ins_leaf := leaf; ins_root := cur |}, st).

Definition is_known_root (tree_id : N) (root : bytes) (st : PoolStorage)
  : result (bool * PoolStorage) :=
  let key := Root tree_id root in
  if negb (has key st) then Ok (false, st) else
  let* st := bump key st in Ok (true, st).

Definition tree_info (depth tree_id : N) (st : PoolStorage) : result TreeInfo :=
  require_opened tree_id st ;;;
  let* ' (size, root) :=
    match state tree_id st with
    | Some ts => Ok (ts_size ts, ts_root ts)
    | None => let* z := zero (N.to_nat depth) in Ok (0%N, z)
    end in
  Ok {| ti_tree_id := tree_id; ti_size := size; ti_capacity := capacity depth;
        ti_root := root; ti_sealed := (size =? capacity depth)%N |}.

Definition page (tree_id start count : N) (st : PoolStorage) : result (N * N) :=
  require_opened tree_id st ;;;
  refuse_if (MAX_PAGE <? count)%N PageTooLarge ;;;
  let size := match state tree_id st with Some ts => ts_size ts | None => 0%N end in
  let end_ := N.min (N.min (start + count) U64_MAX) size in
  let start := N.min start end_ in
  Ok (start, (end_ - start)%N).

Definition leaves (tree_id start count : N) (st : PoolStorage) : result (list bytes) :=
  let* ' (start, n) := page tree_id start count st in
  mapM_result (λ i, or_panic (persistent_get (leaf_entries st) (tree_id, (start + N.of_nat i)%N)))
    (seq 0 (N.to_nat n)).

Definition renew_tree (tree_id : N) (st : PoolStorage) : result PoolStorage :=
  require_opened tree_id st ;;;
  let* st := bump_if_present CurrentTree st in
  match state tree_id st with
  | Some ts =>
      let* st := bump (Tree tree_id) st in bump (Root tree_id (ts_root ts)) st
  | None => Ok st
  end.

Definition renew_root (tree_id : N) (root : bytes) (st : PoolStorage) : result PoolStorage :=
  bump_if_present (Root tree_id root) st.

Fixpoint bump_all (keys : list PoolKey) (st : PoolStorage) : result PoolStorage :=
  match keys with
  | [] => Ok st
  | key :: keys => let* st := bump key st in bump_all keys st
  end.

Definition renew_leaves (tree_id start count : N) (st : PoolStorage) : result PoolStorage :=
  let* ' (start, n) := page tree_id start count st in
  bump_all ((λ i, Leaf tree_id (start + N.of_nat i)) <$> seq 0 (N.to_nat n)) st.

(** The key [claim_enrollment] returns is always [Enrollment account
    enrollment_id]: its payload. *)
Definition claim_enrollment (account : Address) (enrollment_id : bytes) (st : PoolStorage)
  : result (Address * bytes) :=
  refuse_if (has (Enrollment account enrollment_id) st) EnrollmentIdTaken ;;;
  Ok (account, enrollment_id).

Definition record_enrollment (key : Address * bytes) (at_ : Insertion) (st : PoolStorage)
  : result PoolStorage :=
  bump (Enrollment key.1 key.2)
    (put_enrollments
       (persistent_set e (enrollment_entries st) key
          {| lp_tree_id := ins_tree_id at_; lp_index := ins_index at_ |}) st).

Definition enrollment (account : Address) (enrollment_id : bytes) (st : PoolStorage)
  : option LeafPosition :=
  persistent_get (enrollment_entries st) (account, enrollment_id).

Definition renew_enrollment (account : Address) (enrollment_id : bytes) (st : PoolStorage)
  : result PoolStorage :=
  match enrollment account enrollment_id st with
  | Some at_ =>
      let* st := bump (Enrollment account enrollment_id) st in
      bump (Leaf (lp_tree_id at_) (lp_index at_)) st
  | None => Ok st
  end.

(** ** [contract.rs]

    The views and the keep-alive entry points are the functions above at
    [TREE_DEPTH]; [rcv_insert] is here at any depth, as [merkle.rs] is. *)

Definition pool_version : N := POOL_VERSION.
Definition pool_depth : N := TREE_DEPTH.

Definition rcv_insert_at (depth : N) (account : Address) (enrollment_id commitment : bytes)
    (st : PoolStorage) : result PoolStorage :=
  require_auth e account ;;;
  let* account_id := ok_or (contract_id account) PoolAccountNotContract in
  refuse_if (negb (is_canonical commitment)) NonCanonicalCommitment ;;;
  let* claim := claim_enrollment account enrollment_id st in
  let* leaf := leaf account_id enrollment_id commitment in
  let* ' (at_, st) := append depth leaf st in
  let* st := record_enrollment claim at_ st in
  Ok (publish_leaf {| li_account := account; li_tree_id := ins_tree_id at_;
                      li_enrollment_id := enrollment_id; li_index := ins_index at_;
                      li_leaf := ins_leaf at_; li_root := ins_root at_ |} st).

Definition rcv_insert : Address → bytes → bytes → PoolStorage → result PoolStorage :=
  rcv_insert_at TREE_DEPTH.
Definition tree : N → PoolStorage → result TreeInfo := tree_info TREE_DEPTH.
End pool.
