(* ===== verification/PoolFacts.v ===== *)
(** * The pool's trees are Merkle trees

    The incremental [append] computes the root of the reference tree
    ([Merkle.node_at]) over the leaves stored so far.  [view_of] is what the
    entries hold, without their lifetimes. *)

From S2P Require Import Prelude Host RecoveryIface ZkPrimitives Merkle Pool.
#[local] Open Scope list_scope.

(** ** One tree *)

Section one_tree.
Context `{PL : Poseidon2Laws}.
Implicit Types f : N → bytes.

(** [f] with [x] inserted at [n]. *)
Definition with_leaf (f : N → bytes) (n : N) (x : bytes) : N → bytes :=
  λ k, if decide (k = n) then x else f k.

(** The frontier holds, at each level where the next leaf is under a right
    child, the left sibling it will be hashed with. *)
Definition frontier_ok (d : nat) (n : N) (f : N → bytes) (frontier : list bytes) : Prop :=
  length frontier = d ∧
  ∀ level, (level < d)%nat → left_child n level = false →
    frontier !! level = Some (node_at f level (N.shiftr n (N.of_nat level) - 1)%N).

Lemma empty_from_with_leaf f n x :
  empty_from n f → empty_from (n + 1) (with_leaf f n x).
Proof. intros He k Hk. unfold with_leaf. rewrite decide_False by lia. apply He. lia. Qed.

Lemma field_with_leaf f n x : (∀ k, field (f k)) → field x → ∀ k, field (with_leaf f n x k).
Proof. intros Hf Hx k. unfold with_leaf. by case_decide. Qed.

Lemma node_at_with_leaf_left f n x level :
  left_child n level = false →
  node_at (with_leaf f n x) level (N.shiftr n (N.of_nat level) - 1) =
    node_at f level (N.shiftr n (N.of_nat level) - 1).
Proof. intros E%left_child_false. apply node_at_insert. lia. Qed.

(** One level of [append]'s loop, in the reference tree. *)
Lemma node_at_climb f n x level (Hf : ∀ k, field (f k)) (Hx : field x) :
  (level < 32)%nat → empty_from n f →
  node_at (with_leaf f n x) (S level) (N.shiftr n (N.of_nat (S level))) =
    if left_child n level
    then node_of (node_at (with_leaf f n x) level (N.shiftr n (N.of_nat level))) (zero_at level)
    else node_of (node_at f level (N.shiftr n (N.of_nat level) - 1))
                 (node_at (with_leaf f n x) level (N.shiftr n (N.of_nat level))).
Proof.
  intros Hl He. destruct (left_child n level) eqn:E.
  - rewrite node_at_left by done. f_equal. apply (node_at_empty _ (n + 1)); [lia| |].
    + by apply empty_from_with_leaf.
    + pose proof (shiftr_range n level). lia.
  - rewrite node_at_right by done. by rewrite node_at_with_leaf_left.
Qed.

Lemma climb_levels f n x m k frontier :
  (∀ k, field (f k)) → field x → empty_from n f → (k + m ≤ 32)%nat →
  length frontier = (k + m)%nat →
  (∀ level, (k ≤ level < k + m)%nat → left_child n level = false →
     frontier !! level = Some (node_at f level (N.shiftr n (N.of_nat level) - 1)%N)) →
  ∃ frontier',
    climb n (seq k m) frontier (node_at (with_leaf f n x) k (N.shiftr n (N.of_nat k))) =
      Ok (frontier', node_at (with_leaf f n x) (k + m) (N.shiftr n (N.of_nat (k + m)))) ∧
    length frontier' = (k + m)%nat ∧
    ∀ level, frontier' !! level =
      if decide (k ≤ level < k + m)%nat then
        if left_child n level then Some (node_at (with_leaf f n x) level (N.shiftr n (N.of_nat level)))
        else frontier !! level
      else frontier !! level.
Proof.
  intros Hf Hx He. revert k frontier. induction m as [|m IH]; intros k frontier Hk Hlen Hfr.
  { exists frontier. rewrite Nat.add_0_r in *. split; [done|]. split; [done|].
    intros level. rewrite decide_False by lia. done. }
  cbn [seq climb]. rewrite <-Nat.add_succ_comm in *.
  assert (∀ k i, field (node_at (with_leaf f n x) k i)) as Hff.
  { intros. apply field_node_at. by apply field_with_leaf. }
  pose proof (node_at_climb f n x k Hf Hx ltac:(lia) He) as Hstep.
  destruct (left_child n k) eqn:E.
  - rewrite (proj2 (Nat.ltb_lt _ _)) by lia. cbn [demand rbind].
    unfold zero. rewrite zero_at_lookup by lia. cbn [or_panic rbind].
    rewrite node_Ok by auto. cbn [rbind]. rewrite <-Hstep.
    destruct (IH (S k) (<[k:=node_at (with_leaf f n x) k (N.shiftr n (N.of_nat k))]> frontier))
      as (fr & Ec & El & Hp); [lia|by rewrite length_insert| |].
    { intros level Hlv El.
      rewrite list_lookup_insert_ne by lia. apply Hfr; [lia|done]. }
    exists fr. rewrite Ec. split; [done|]. split; [done|]. intros level. rewrite Hp.
    destruct (decide (level = k)) as [->|Hne].
    + rewrite decide_False, decide_True, E by lia. by rewrite list_lookup_insert_eq by lia.
    + rewrite list_lookup_insert_ne by done. do 2 case_decide; try lia; done.
  - rewrite Hfr by (lia || done). cbn [or_panic rbind].
    rewrite node_Ok by (auto using field_node_at). cbn [rbind]. rewrite <-Hstep.
    destruct (IH (S k) frontier) as (fr & Ec & El & Hp); [lia|done| |].
    { intros level Hlv. apply Hfr. lia. }
    exists fr. rewrite Ec. split; [done|]. split; [done|]. intros level. rewrite Hp.
    destruct (decide (level = k)) as [->|Hne].
    + rewrite decide_False, decide_True, E by lia. done.
    + do 2 case_decide; try lia; done.
Qed.

(** The next index either stays under a node or moves to the one after. *)
Lemma shiftr_succ n l :
  N.shiftr (n + 1) (N.of_nat l) = N.shiftr n (N.of_nat l) ∨
  N.shiftr (n + 1) (N.of_nat l) = (N.shiftr n (N.of_nat l) + 1)%N.
Proof.
  pose proof (shiftr_range n l). pose proof (shiftr_range (n + 1) l). pose proof (pow2_pos l). nia.
Qed.

Lemma left_child_parity n m l :
  N.shiftr n (N.of_nat l) = N.shiftr m (N.of_nat l) → left_child n l = left_child m l.
Proof. unfold left_child. by intros ->. Qed.

(** What a right child at a level of the next index hashes with. *)
Lemma next_left_sibling n l :
  left_child (n + 1) l = false →
  if left_child n l
  then N.shiftr n (N.of_nat l) = (N.shiftr (n + 1) (N.of_nat l) - 1)%N
  else N.shiftr (n + 1) (N.of_nat l) = N.shiftr n (N.of_nat l).
Proof.
  intros E. destruct (shiftr_succ n l) as [Es|Es].
  - rewrite (left_child_parity n (n + 1) l) by done. by rewrite E.
  - destruct (left_child n l) eqn:En; [lia|].
    apply left_child_false in E, En. lia.
Qed.

(** [append]'s loop on a tree of [n] leaves: it returns, the node it returns is
    the root of the tree with the leaf added, and the frontier is right for
    the next leaf. *)
Lemma climb_spec d f n x frontier :
  (∀ k, field (f k)) → field x → empty_from n f → (d ≤ 32)%nat →
  (n < 2 ^ N.of_nat d)%N → frontier_ok d n f frontier →
  ∃ frontier', climb n (seq 0 d) frontier x = Ok (frontier', node_at (with_leaf f n x) d 0) ∧
    frontier_ok d (n + 1) (with_leaf f n x) frontier'.
Proof.
  intros Hf Hx He Hd Hn [Hlen Hfr].
  destruct (climb_levels f n x d 0 frontier) as (fr & Ec & El & Hp); try done.
  { intros level Hl. apply Hfr. lia. }
  assert (N.shiftr n (N.of_nat (0 + d)) = 0%N) as E0 by (apply shiftr_unique; simpl; lia).
  assert (node_at (with_leaf f n x) 0 (N.shiftr n (N.of_nat 0)) = x) as Ex.
  { simpl. unfold with_leaf. by rewrite N.shiftr_0_r, decide_True. }
  rewrite Ex, E0 in Ec. exists fr. split; [done|]. split; [done|]. intros level Hl Hc.
  rewrite Hp, decide_True by lia. pose proof (next_left_sibling n level Hc) as Hs.
  destruct (left_child n level) eqn:En.
  - by rewrite Hs.
  - rewrite Hs, Hfr by done. by rewrite node_at_with_leaf_left.
Qed.

Lemma frontier_ok_fresh d f : frontier_ok d 0 f ((λ l, zero_at l) <$> seq 0 d).
Proof.
  split; [by rewrite length_fmap, length_seq|]. intros level _ E.
  apply left_child_false in E. rewrite !N.shiftr_0_l in E. lia.
Qed.

Lemma fresh_tree_Ok depth :
  (depth ≤ 32)%N →
  fresh_tree depth = Ok {| ts_size := 0; ts_root := zero_at (N.to_nat depth);
                           ts_frontier := (λ l, zero_at l) <$> seq 0 (N.to_nat depth) |}.
Proof.
  intros Hd. unfold fresh_tree.
  rewrite <-(list_fmap_id (seq 0 (N.to_nat depth))) at 1.
  rewrite (mapM_result_map zero id (λ l, zero_at l)).
  - cbn [rbind]. unfold zero. by rewrite zero_at_lookup by lia.
  - apply Forall_forall. intros l Hl%elem_of_seq. unfold zero, id. by rewrite zero_at_lookup by lia.
Qed.
End one_tree.

(** A tree's first [n] leaves. *)
Definition first_leaves (n : N) (f : N → bytes) : N → bytes :=
  λ k, if decide (k < n)%N then f k else zeros 32.

Global Instance node_at_proper `{P : Poseidon2} :
  Proper (pointwise_relation N (=) ==> (=) ==> (=) ==> (=)) node_at.
Proof. intros f g Hfg l _ <- i _ <-. apply node_at_ext. intros k _. apply Hfg. Qed.

Lemma first_leaves_with_leaf f n m x k :
  (n ≤ m)%N → first_leaves n (with_leaf f m x) k = first_leaves n f k.
Proof. intros Hn. unfold first_leaves, with_leaf. repeat case_decide; try done. lia. Qed.

Lemma first_leaves_all n f k : empty_from n f → first_leaves n f k = f k.
Proof. intros He. unfold first_leaves. case_decide; [done|]. symmetry. apply He. lia. Qed.

Lemma frontier_ok_proper `{P : Poseidon2} d n f g frontier :
  pointwise_relation N (=) f g → frontier_ok d n f frontier → frontier_ok d n g frontier.
Proof. intros Hfg [? Hf]. split; [done|]. intros. rewrite <-Hfg. by apply Hf. Qed.

(** ** What the entries hold

    [pool_view] forgets the lifetimes: no entry expires for the contract, and
    [bump] changes nothing else. *)

Section view.
Context {H : Host}.

Record pool_view : Type := {
  pv_current : N;
  pv_trees : gmap N TreeState;
  pv_roots : gmap (N * bytes) N;
  pv_leaves : gmap (N * N) bytes;
  pv_enrollments : gmap (Address * bytes) LeafPosition;
  pv_published : list LeafInserted;
}.

Definition view_of (st : PoolStorage) : pool_view := {|
  pv_current := current_tree st;
  pv_trees := value <$> tree_entries st;
  pv_roots := value <$> root_entries st;
  pv_leaves := value <$> leaf_entries st;
  pv_enrollments := value <$> enrollment_entries st;
  pv_published := published st |}.

Lemma values_set {K A} `{Countable K} e (m : gmap K (entry A)) k v :
  value <$> persistent_set e m k v = <[k := v]> (value <$> m).
Proof. unfold persistent_set. by rewrite fmap_insert. Qed.

Lemma values_extend {K A E} `{Countable K} e (m m' : gmap K (entry A)) k a b :
  persistent_extend_ttl (E:=E) e m k a b = Ok m' → value <$> m' = value <$> m.
Proof.
  unfold persistent_extend_ttl. destruct (m !! k) as [x|] eqn:Ex; [|done]. intros [= <-].
  rewrite fmap_insert, value_extended. apply insert_id. by rewrite lookup_fmap, Ex.
Qed.

Lemma persistent_get_values {K A} `{Countable K} (m : gmap K (entry A)) k :
  persistent_get m k = (value <$> m) !! k.
Proof. unfold persistent_get. by rewrite lookup_fmap. Qed.

Lemma persistent_has_values {K A} `{Countable K} (m : gmap K (entry A)) k :
  persistent_has m k = bool_decide (is_Some ((value <$> m) !! k)).
Proof.
  unfold persistent_has. apply bool_decide_ext. rewrite lookup_fmap. by rewrite fmap_is_Some.
Qed.

(** [bump] succeeds on an entry that exists, and changes no value. *)
Lemma bump_view e key st st' : bump e key st = Ok st' → view_of st' = view_of st.
Proof.
  intros Hb. destruct key; simpl in Hb; apply rbind_Ok in Hb as (m & Em & [= <-]);
    apply values_extend in Em; unfold view_of, current_tree; simpl;
    rewrite ?persistent_get_values; by rewrite ?Em.
Qed.

Lemma bump_defined e key st :
  has key st = true → ∃ st', bump e key st = Ok st' ∧ view_of st' = view_of st.
Proof.
  intros Hh. assert (∃ st', bump e key st = Ok st') as [st' E]; [|by eauto using bump_view].
  destruct key; simpl in *; unfold persistent_has in Hh; apply bool_decide_eq_true in Hh;
    destruct Hh as [x Hx]; unfold persistent_extend_ttl; rewrite Hx; simpl; eauto.
Qed.

(** Writing an entry writes its value. *)
Definition set_current n (v : pool_view) : pool_view :=
  {| pv_current := n; pv_trees := pv_trees v; pv_roots := pv_roots v; pv_leaves := pv_leaves v;
     pv_enrollments := pv_enrollments v; pv_published := pv_published v |}.
Definition set_trees m (v : pool_view) : pool_view :=
  {| pv_current := pv_current v; pv_trees := m; pv_roots := pv_roots v; pv_leaves := pv_leaves v;
     pv_enrollments := pv_enrollments v; pv_published := pv_published v |}.
Definition set_roots m (v : pool_view) : pool_view :=
  {| pv_current := pv_current v; pv_trees := pv_trees v; pv_roots := m; pv_leaves := pv_leaves v;
     pv_enrollments := pv_enrollments v; pv_published := pv_published v |}.
Definition set_leaves m (v : pool_view) : pool_view :=
  {| pv_current := pv_current v; pv_trees := pv_trees v; pv_roots := pv_roots v; pv_leaves := m;
     pv_enrollments := pv_enrollments v; pv_published := pv_published v |}.
Definition set_enrollments m (v : pool_view) : pool_view :=
  {| pv_current := pv_current v; pv_trees := pv_trees v; pv_roots := pv_roots v;
     pv_leaves := pv_leaves v; pv_enrollments := m; pv_published := pv_published v |}.

Lemma view_put_current e st n :
  view_of (put_current (persistent_set e (current_entry st) tt n) st) =
    set_current n (view_of st).
Proof.
  unfold view_of, set_current, current_tree. simpl. by rewrite persistent_get_set, decide_True.
Qed.
Lemma view_put_trees e st k x :
  view_of (put_trees (persistent_set e (tree_entries st) k x) st) =
    set_trees (<[k := x]> (pv_trees (view_of st))) (view_of st).
Proof. unfold view_of, set_trees. simpl. by rewrite values_set. Qed.
Lemma view_put_roots e st k x :
  view_of (put_roots (persistent_set e (root_entries st) k x) st) =
    set_roots (<[k := x]> (pv_roots (view_of st))) (view_of st).
Proof. unfold view_of, set_roots. simpl. by rewrite values_set. Qed.
Lemma view_put_leaves e st k x :
  view_of (put_leaves (persistent_set e (leaf_entries st) k x) st) =
    set_leaves (<[k := x]> (pv_leaves (view_of st))) (view_of st).
Proof. unfold view_of, set_leaves. simpl. by rewrite values_set. Qed.
Lemma view_put_enrollments e st k x :
  view_of (put_enrollments (persistent_set e (enrollment_entries st) k x) st) =
    set_enrollments (<[k := x]> (pv_enrollments (view_of st))) (view_of st).
Proof. unfold view_of, set_enrollments. simpl. by rewrite values_set. Qed.

Definition add_published ev (v : pool_view) : pool_view :=
  {| pv_current := pv_current v; pv_trees := pv_trees v; pv_roots := pv_roots v;
     pv_leaves := pv_leaves v; pv_enrollments := pv_enrollments v;
     pv_published := pv_published v ++ [ev] |}.
Lemma view_publish_leaf st ev : view_of (publish_leaf ev st) = add_published ev (view_of st).
Proof. done. Qed.

Definition has_view (key : PoolKey) (v : pool_view) : bool :=
  match key with
  | CurrentTree => false
  | Tree t => bool_decide (is_Some (pv_trees v !! t))
  | Root t r => bool_decide (is_Some (pv_roots v !! (t, r)))
  | Leaf t i => bool_decide (is_Some (pv_leaves v !! (t, i)))
  | Enrollment a n => bool_decide (is_Some (pv_enrollments v !! (a, n)))
  end.

Lemma has_has_view key st :
  key ≠ CurrentTree → has key st = has_view key (view_of st).
Proof. intros Hk. destruct key; [done|..]; apply persistent_has_values. Qed.

Lemma bump_present e key st :
  has_view key (view_of st) = true →
  ∃ st', bump e key st = Ok st' ∧ view_of st' = view_of st.
Proof.
  intros Hh. apply bump_defined. rewrite has_has_view; [done|]. by intros ->.
Qed.

Lemma state_view t st : state t st = pv_trees (view_of st) !! t.
Proof. apply persistent_get_values. Qed.
Lemma enrollment_view a i st : enrollment a i st = pv_enrollments (view_of st) !! (a, i).
Proof. apply persistent_get_values. Qed.
End view.
