(* ===== verification/PoolRuns.v ===== *)
(** * The pool, over every run

    [pool_ok] relates what the pool stores to the Merkle trees of the leaves
    inserted: sizes, roots and frontiers, the roots it knows, the enrollment
    behind each leaf, and the events published.  Every entry point keeps it. *)

From S2P Require Import Prelude Host RecoveryIface ZkPrimitives Merkle Pool PoolFacts.
#[local] Open Scope list_scope.

Section pool_ok.
Context {H : Host} `{PL : Poseidon2Laws}.
Implicit Types v : pool_view.

(** The leaves of a tree, zero where none was inserted, and their number. *)
Definition leaf_fn (v : pool_view) (t : N) : N → bytes :=
  λ i, default (zeros 32) (pv_leaves v !! (t, i)).
Definition size_of (v : pool_view) (t : N) : N :=
  match pv_trees v !! t with Some ts => ts_size ts | None => 0%N end.

(** The root of tree [t] after its first [n] leaves. *)
Definition root_after (depth : N) (v : pool_view) (t n : N) : bytes :=
  node_at (first_leaves n (leaf_fn v t)) (N.to_nat depth) 0.

(** The leaf stored at [pos] is the one [a] enrolled under [id]. *)
Definition enrolled_leaf (v : pool_view) (a : Address) (id : bytes) (pos : LeafPosition) : Prop :=
  ∃ acct inner x, contract_id a = Some acct ∧ is_canonical inner = true ∧
    leaf (E:=PoolError) acct id inner = Ok x ∧
    pv_leaves v !! (lp_tree_id pos, lp_index pos) = Some x.

Record pool_ok (depth : N) (v : pool_view) : Prop := {
  po_current : (pv_current v ≤ U32_MAX)%N;
  po_tree t ts : pv_trees v !! t = Some ts →
    (t ≤ pv_current v)%N ∧ (0 < ts_size ts ≤ capacity depth)%N ∧
    frontier_ok (N.to_nat depth) (ts_size ts) (leaf_fn v t) (ts_frontier ts) ∧
    ts_root ts = node_at (leaf_fn v t) (N.to_nat depth) 0;
  po_full t : (t < pv_current v)%N → size_of v t = capacity depth;
  po_room : (size_of v (pv_current v) < capacity depth)%N;
  po_leaf t i : is_Some (pv_leaves v !! (t, i)) ↔ (i < size_of v t)%N;
  po_field t i x : pv_leaves v !! (t, i) = Some x → field x;
  po_root t r : is_Some (pv_roots v !! (t, r)) ↔
    ∃ n, (0 < n ≤ size_of v t)%N ∧ r = root_after depth v t n;
  po_enrolled a id pos : pv_enrollments v !! (a, id) = Some pos → enrolled_leaf v a id pos;
  po_distinct a id a' id' pos : pv_enrollments v !! (a, id) = Some pos →
    pv_enrollments v !! (a', id') = Some pos → a = a' ∧ id = id';
  po_covered t i : is_Some (pv_leaves v !! (t, i)) →
    ∃ a id, pv_enrollments v !! (a, id) = Some {| lp_tree_id := t; lp_index := i |};
  po_events : N.of_nat (length (pv_published v)) =
    (pv_current v * capacity depth + size_of v (pv_current v))%N;
  po_event k ev : pv_published v !! k = Some ev →
    N.of_nat k = (li_tree_id ev * capacity depth + li_index ev)%N ∧
    (li_index ev < capacity depth)%N ∧
    pv_leaves v !! (li_tree_id ev, li_index ev) = Some (li_leaf ev);
}.

Lemma capacity_pow depth : capacity depth = (2 ^ depth)%N.
Proof. unfold capacity. by rewrite N.shiftl_1_l. Qed.

Lemma capacity_nat depth : capacity depth = (2 ^ N.of_nat (N.to_nat depth))%N.
Proof. by rewrite capacity_pow, N2Nat.id. Qed.

Lemma capacity_pos depth : (0 < capacity depth)%N.
Proof. rewrite capacity_nat. apply pow2_pos. Qed.

Lemma field_leaf_fn depth v t k : pool_ok depth v → field (leaf_fn v t k).
Proof.
  intros Hv. unfold leaf_fn. destruct (pv_leaves v !! (t, k)) eqn:E; simpl; [|auto].
  by eapply po_field.
Qed.

Lemma leaf_fn_empty depth v t : pool_ok depth v → empty_from (size_of v t) (leaf_fn v t).
Proof.
  intros Hv k Hk. unfold leaf_fn. destruct (pv_leaves v !! (t, k)) eqn:E; [|done].
  assert (k < size_of v t)%N; [|lia]. apply (po_leaf _ _ Hv). eauto.
Qed.

Lemma view_of_empty : view_of empty_pool =
  {| pv_current := 0; pv_trees := ∅; pv_roots := ∅; pv_leaves := ∅; pv_enrollments := ∅;
     pv_published := [] |}.
Proof.
  unfold view_of, current_tree, empty_pool, persistent_get. simpl.
  by rewrite !fmap_empty, lookup_empty.
Qed.

Lemma pool_ok_empty depth : pool_ok depth (view_of empty_pool).
Proof.
  rewrite view_of_empty. pose proof (capacity_pos depth) as Hc.
  split; unfold size_of; simpl; try setoid_rewrite lookup_empty;
    try done; try (intros; lia).
  - intros t i. split; [by intros []|lia].
  - intros t r. split; [by intros []|]. intros (n & Hn & _). lia.
  - by intros t i [].
Qed.

(** ** One insertion *)

(** The root of the current tree with [x] added, and what [append] and then
    [rcv_insert] leave behind. *)
Definition next_root (depth : N) v (x : bytes) : bytes :=
  node_at (with_leaf (leaf_fn v (pv_current v)) (size_of v (pv_current v)) x) (N.to_nat depth) 0.

Definition appended (depth : N) v (x : bytes) (frontier : list bytes) : pool_view :=
  let t := pv_current v in
  let n := (size_of v t + 1)%N in
  {| pv_current := if (n =? capacity depth)%N then t + 1 else t;
     pv_trees := <[t := {| ts_size := n; ts_root := next_root depth v x;
                           ts_frontier := frontier |}]> (pv_trees v);
     pv_roots := <[(t, next_root depth v x) := n]> (pv_roots v);
     pv_leaves := <[(t, size_of v t) := x]> (pv_leaves v);
     pv_enrollments := pv_enrollments v;
     pv_published := pv_published v |}.

Definition enrolled_in v (w : pool_view) (a : Address) (id x root : bytes) : pool_view :=
  let t := pv_current v in
  let n := size_of v t in
  {| pv_current := pv_current w; pv_trees := pv_trees w; pv_roots := pv_roots w;
     pv_leaves := pv_leaves w;
     pv_enrollments := <[(a, id) := {| lp_tree_id := t; lp_index := n |}]> (pv_enrollments w);
     pv_published := pv_published w ++
       [{| li_account := a; li_tree_id := t; li_enrollment_id := id; li_index := n;
           li_leaf := x; li_root := root |}] |}.

Definition inserted (depth : N) v (a : Address) (id x : bytes) (frontier : list bytes) : pool_view :=
  enrolled_in v (appended depth v x frontier) a id x (next_root depth v x).

(** The insertion that would need tree id [2^32]. *)
Definition last_slot (depth : N) v : bool :=
  (size_of v (pv_current v) + 1 =? capacity depth)%N && (pv_current v =? U32_MAX)%N.

Lemma bump_written e key st v :
  view_of st = v → has_view key v = true → ∃ st', bump e key st = Ok st' ∧ view_of st' = v.
Proof. intros <-. apply bump_present. Qed.

(** The tree [append] works on. *)
Lemma append_tree depth st :
  (depth ≤ 32)%N → pool_ok depth (view_of st) →
  ∃ ts, match state (current_tree st) st with
        | Some ts => Ok ts | None => fresh_tree depth end = Ok ts ∧
    ts_size ts = size_of (view_of st) (current_tree st) ∧
    frontier_ok (N.to_nat depth) (ts_size ts) (leaf_fn (view_of st) (current_tree st))
      (ts_frontier ts).
Proof.
  intros Hd Hv. rewrite state_view. unfold size_of.
  destruct (pv_trees (view_of st) !! current_tree st) as [ts|] eqn:E.
  - exists ts. split; [done|]. split; [done|]. by apply (po_tree _ _ Hv) in E as (_ & _ & ? & _).
  - rewrite fresh_tree_Ok by done. eexists. split; [done|]. split; [done|].
    apply frontier_ok_fresh.
Qed.

Lemma capacity_u64 depth : (depth ≤ 32 → capacity depth ≤ 4294967296)%N.
Proof.
  intros Hd. rewrite capacity_pow. change 4294967296%N with (2 ^ 32)%N.
  by apply N.pow_le_mono_r.
Qed.

Lemma append_exact e depth x st :
  (depth ≤ 32)%N → pool_ok depth (view_of st) → field x →
  let v := view_of st in
  let t := pv_current v in
  ∃ frontier,
    frontier_ok (N.to_nat depth) (size_of v t + 1) (with_leaf (leaf_fn v t) (size_of v t) x)
      frontier ∧
    if last_slot depth v then append e depth x st = Err TreeIdOverflow
    else ∃ st', append e depth x st =
        Ok ({| ins_tree_id := t; ins_index := size_of v t; ins_leaf := x;
               ins_root := next_root depth v x |}, st') ∧
      view_of st' = appended depth v x frontier.
Proof.
  intros Hd Hv Hx v t. pose proof (po_room _ _ Hv) as Hroom. fold v t in Hroom.
  pose proof (capacity_u64 depth Hd) as Hcap.
  destruct (append_tree depth st Hd Hv) as (ts & Ets & Esz & Hfr).
  change (current_tree st) with t in *. fold v in Esz, Hfr.
  destruct (climb_spec (N.to_nat depth) (leaf_fn v t) (size_of v t) x (ts_frontier ts))
    as (frontier & Ecl & Hfr'); [| |by eapply leaf_fn_empty| | |by rewrite <-Esz|];
    [intros; by eapply field_leaf_fn|done|lia|by rewrite <-capacity_nat|].
  exists frontier. split; [done|].
  unfold append. change (current_tree st) with t. rewrite Ets. cbn [rbind].
  rewrite Esz, Ecl. cbn [rbind].
  change (node_at (with_leaf (leaf_fn v t) (size_of v t) x) (N.to_nat depth) 0)
    with (next_root depth v x).
  rewrite (proj2 (u64_add_Ok _ _ (size_of v t + 1)%N)) by (unfold U64_MAX; lia). cbn [rbind].
  destruct (bump_written e (Tree t) _ _ (view_put_trees e st t
    {| ts_size := size_of v t + 1; ts_root := next_root depth v x; ts_frontier := frontier |})) as (s1 & -> & V1);
    [by simpl; rewrite lookup_insert_eq; apply bool_decide_eq_true|]. cbn [rbind].
  destruct (bump_written e (Leaf t (size_of v t)) _ _
    (view_put_leaves e s1 (t, size_of v t) x))
    as (s2 & -> & V2); [by simpl; rewrite lookup_insert_eq; apply bool_decide_eq_true|]. cbn [rbind].
  destruct (bump_written e (Root t (next_root depth v x)) _ _
    (view_put_roots e s2 (t, next_root depth v x) (size_of v t + 1)%N))
    as (s3 & -> & V3); [by simpl; rewrite lookup_insert_eq; apply bool_decide_eq_true|]. cbn [rbind].
  rewrite V1 in V2. rewrite V2 in V3. clear V1 V2. unfold last_slot. fold t.
  destruct (size_of v t + 1 =? capacity depth)%N eqn:Efull; simpl.
  - destruct (N.eqb_spec t U32_MAX) as [Et|Et].
    + unfold checked_add32. rewrite Et. done.
    + pose proof (po_current _ _ Hv) as Hcur. fold v t in Hcur.
      rewrite (proj2 (checked_add32_Some t 1 (t + 1))) by lia. cbn [ok_or rbind].
      destruct (bump_defined e CurrentTree
        (put_current (persistent_set e (current_entry s3) tt (t + 1)%N) s3)) as (s4 & E4 & V4).
      { simpl. rewrite persistent_has_values, values_set, lookup_insert_eq. done. }
      rewrite view_put_current, V3 in V4. simpl in E4. rewrite E4. cbn [rbind].
      eexists. split; [done|]. rewrite V4. unfold appended. fold v t. by rewrite Efull.
  - eexists. split; [done|]. rewrite V3. unfold appended. fold v t. by rewrite Efull.
Qed.
End pool_ok.

Section inserted.
Context {H : Host} `{PL : Poseidon2Laws}.
Context (depth : N) (v : pool_view) (a : Address) (id acct inner x : bytes) (frontier : list bytes).
Context (Hd : (depth ≤ 32)%N) (Hv : pool_ok depth v) (Hlast : last_slot depth v = false).
Context (Hacct : contract_id a = Some acct) (Hinner : is_canonical inner = true).
Context (Hleaf : leaf (E:=PoolError) acct id inner = Ok x).
Context (Hnew : pv_enrollments v !! (a, id) = None).
Notation t := (pv_current v).
Notation n := (size_of v (pv_current v)).
Notation w := (inserted depth v a id x frontier).
Context (Hfr : frontier_ok (N.to_nat depth) (n + 1) (with_leaf (leaf_fn v t) n x) frontier).

Lemma size_of_inserted t' : size_of w t' = if decide (t' = t) then (n + 1)%N else size_of v t'.
Proof.
  unfold size_of at 1. simpl. case_decide as E; [subst t'; by rewrite lookup_insert_eq|].
  by rewrite lookup_insert_ne.
Qed.

Lemma leaf_fn_inserted t' k :
  leaf_fn w t' k = if decide (t' = t) then with_leaf (leaf_fn v t) n x k else leaf_fn v t' k.
Proof.
  unfold leaf_fn at 1, with_leaf. simpl. case_decide as E.
  - subst t'. case_decide as Ek; [subst k; by rewrite lookup_insert_eq|].
    by rewrite lookup_insert_ne by congruence.
  - by rewrite lookup_insert_ne by congruence.
Qed.

Lemma leaf_new : pv_leaves v !! (t, n) = None.
Proof.
  clear -Hv. apply eq_None_not_Some. intros Hs. apply (po_leaf _ _ Hv) in Hs. lia.
Qed.

Lemma leaf_kept t' k y : pv_leaves v !! (t', k) = Some y → pv_leaves w !! (t', k) = Some y.
Proof.
  intros Hy. simpl. rewrite lookup_insert_ne; [done|]. intros [= <- <-].
  by rewrite leaf_new in Hy.
Qed.

Lemma root_after_inserted t' m :
  (m ≤ size_of v t')%N → root_after depth w t' m = root_after depth v t' m.
Proof.
  intros Hm. unfold root_after. apply node_at_ext. intros k _. unfold first_leaves.
  destruct (decide (k < m)%N); [|done]. rewrite leaf_fn_inserted. case_decide; [|done]. subst t'.
  unfold with_leaf. rewrite decide_False by lia. done.
Qed.

Lemma root_after_last : root_after depth w t (n + 1) = next_root depth v x.
Proof.
  unfold root_after, next_root. apply node_at_ext. intros k _. unfold first_leaves.
  destruct (decide (k < n + 1)%N) as [|Hk]; [by rewrite leaf_fn_inserted, decide_True|].
  symmetry. apply (empty_from_with_leaf _ n); [by eapply leaf_fn_empty|lia].
Qed.

Lemma current_inserted :
  pv_current w = if (n + 1 =? capacity depth)%N then (t + 1)%N else t.
Proof. done. Qed.

Lemma size_of_unopened t' : (t < t')%N → size_of v t' = 0%N.
Proof.
  intros Ht. unfold size_of. destruct (pv_trees v !! t') eqn:E; [|done].
  apply (po_tree _ _ Hv) in E as [? _]. lia.
Qed.

Lemma field_new : field x.
Proof. by eapply leaf_field. Qed.

(** The trees after the insertion. *)
Lemma inserted_trees t' ts :
  pv_trees w !! t' = Some ts →
  (t' ≤ pv_current w)%N ∧ (0 < ts_size ts ≤ capacity depth)%N ∧
  frontier_ok (N.to_nat depth) (ts_size ts) (leaf_fn w t') (ts_frontier ts) ∧
  ts_root ts = node_at (leaf_fn w t') (N.to_nat depth) 0.
Proof.
  rewrite current_inserted. pose proof (po_room _ _ Hv) as Hroom. simpl.
  destruct (decide (t' = t)) as [->|Ht].
  - rewrite lookup_insert_eq. intros [= <-]. simpl.
    assert (pointwise_relation N (=) (with_leaf (leaf_fn v t) n x) (leaf_fn w t)) as Hext.
    { intros k. by rewrite leaf_fn_inserted, decide_True. }
    repeat split; try lia.
    + case_match; lia.
    + by destruct Hfr.
    + apply (frontier_ok_proper _ _ _ _ _ Hext) in Hfr as [_ Hp]. apply Hp; done.
    + unfold next_root. by rewrite Hext.
  - rewrite lookup_insert_ne by done. intros Hts.
    apply (po_tree _ _ Hv) in Hts as (Ht' & Hs & Hf & Hr).
    assert (pointwise_relation N (=) (leaf_fn v t') (leaf_fn w t')) as Hext.
    { intros k. by rewrite leaf_fn_inserted, decide_False. }
    split; [case_match; lia|]. split; [done|]. split; [by eapply frontier_ok_proper|].
    by rewrite <-Hext.
Qed.

Lemma inserted_sizes :
  (∀ t', (t' < pv_current w)%N → size_of w t' = capacity depth) ∧
  (size_of w (pv_current w) < capacity depth)%N.
Proof.
  pose proof (po_room _ _ Hv) as Hroom. pose proof (capacity_pos depth) as Hc.
  rewrite current_inserted. setoid_rewrite size_of_inserted.
  destruct (N.eqb_spec (n + 1) (capacity depth)) as [E|E].
  - split.
    + intros t' Ht'. case_decide; [done|]. apply (po_full _ _ Hv). lia.
    + rewrite decide_False by lia. rewrite size_of_unopened by lia. done.
  - split.
    + intros t' Ht'. rewrite decide_False by lia. by apply (po_full _ _ Hv).
    + rewrite decide_True by done. lia.
Qed.

Lemma inserted_leaf t' i : is_Some (pv_leaves w !! (t', i)) ↔ (i < size_of w t')%N.
Proof.
  rewrite size_of_inserted. simpl. destruct (decide (t' = t)) as [->|Ht].
  - destruct (decide (i = n)) as [->|Hi].
    + rewrite lookup_insert_eq. split; [lia|by eauto].
    + rewrite lookup_insert_ne by congruence. rewrite (po_leaf _ _ Hv). lia.
  - rewrite lookup_insert_ne by congruence. apply (po_leaf _ _ Hv).
Qed.

Lemma inserted_root t' r :
  is_Some (pv_roots w !! (t', r)) ↔
  ∃ m, (0 < m ≤ size_of w t')%N ∧ r = root_after depth w t' m.
Proof.
  rewrite size_of_inserted. simpl. rewrite lookup_insert_is_Some', (po_root _ _ Hv). split.
  - intros [[= <- <-]|(m & Hm & ->)].
    + exists (n + 1)%N. rewrite decide_True by done. rewrite root_after_last. split; [lia|done].
    + exists m. rewrite root_after_inserted by lia. split; [case_decide; [subst t'|]; lia|done].
  - intros (m & Hm & ->). destruct (decide (t' = t)) as [->|Ht].
    + destruct (decide (m = n + 1)%N) as [->|Hne].
      * left. by rewrite root_after_last.
      * right. exists m. rewrite root_after_inserted by lia. split; [lia|done].
    + right. exists m. rewrite root_after_inserted by lia. done.
Qed.

Lemma inserted_enrolled a' id' pos :
  pv_enrollments w !! (a', id') = Some pos → enrolled_leaf w a' id' pos.
Proof.
  simpl. destruct (decide ((a', id') = (a, id))) as [[= -> ->]|Hne].
  - rewrite lookup_insert_eq. intros [= <-]. exists acct, inner, x. repeat split; try done.
    simpl. by rewrite lookup_insert_eq.
  - rewrite lookup_insert_ne by done.
    intros (ac & inn & y & ? & ? & ? & Hy)%(po_enrolled _ _ Hv).
    exists ac, inn, y. repeat split; try done. by apply leaf_kept.
Qed.

(** No enrollment was recorded at the position that is now filled. *)
Lemma position_new a' id' :
  pv_enrollments v !! (a', id') ≠ Some {| lp_tree_id := t; lp_index := n |}.
Proof.
  intros (ac & inn & y & _ & _ & _ & Hy)%(po_enrolled _ _ Hv). simpl in Hy.
  by rewrite leaf_new in Hy.
Qed.

Lemma inserted_distinct a1 id1 a2 id2 pos :
  pv_enrollments w !! (a1, id1) = Some pos → pv_enrollments w !! (a2, id2) = Some pos →
  a1 = a2 ∧ id1 = id2.
Proof.
  simpl. rewrite !lookup_insert_Some.
  intros [[[= <- <-] <-]|[Hne1 H1]] [[[= <- <-] E]|[Hne2 H2]]; try done.
  - by apply position_new in H2.
  - subst pos. by apply position_new in H1.
  - by eapply po_distinct.
Qed.

Lemma inserted_covered t' i :
  is_Some (pv_leaves w !! (t', i)) →
  ∃ a' id', pv_enrollments w !! (a', id') = Some {| lp_tree_id := t'; lp_index := i |}.
Proof.
  simpl. rewrite lookup_insert_is_Some'. intros [[= <- <-]|Hs].
  - exists a, id. by rewrite lookup_insert_eq.
  - apply (po_covered _ _ Hv) in Hs as (a' & id' & He). exists a', id'.
    rewrite lookup_insert_ne; [done|]. intros [= <- <-]. by rewrite Hnew in He.
Qed.

Lemma inserted_events :
  N.of_nat (length (pv_published w)) =
    (pv_current w * capacity depth + size_of w (pv_current w))%N.
Proof.
  rewrite current_inserted, size_of_inserted. simpl.
  rewrite length_app, Nat2N.inj_add, (po_events _ _ Hv). simpl.
  destruct (N.eqb_spec (n + 1) (capacity depth)) as [E|E].
  - rewrite decide_False, (size_of_unopened (t + 1)) by lia. rewrite N.mul_add_distr_r. lia.
  - rewrite decide_True by done. lia.
Qed.

Lemma inserted_event k ev :
  pv_published w !! k = Some ev →
  N.of_nat k = (li_tree_id ev * capacity depth + li_index ev)%N ∧
  (li_index ev < capacity depth)%N ∧
  pv_leaves w !! (li_tree_id ev, li_index ev) = Some (li_leaf ev).
Proof.
  simpl. rewrite lookup_app_Some, list_lookup_singleton_Some. intros [Hk|(Hk & Hk0 & <-)].
  - apply (po_event _ _ Hv) in Hk as (? & ? & ?). split; [done|]. split; [done|].
    by apply leaf_kept.
  - simpl. rewrite lookup_insert_eq. pose proof (po_room _ _ Hv). pose proof (po_events _ _ Hv).
    repeat split; lia.
Qed.

(** An insertion keeps the pool in order. *)
Lemma inserted_ok : pool_ok depth w.
Proof.
  split.
  - rewrite current_inserted. pose proof (po_current _ _ Hv). unfold last_slot in Hlast.
    destruct (n + 1 =? capacity depth)%N; [|done]. apply N.eqb_neq in Hlast. lia.
  - exact inserted_trees.
  - apply inserted_sizes.
  - apply inserted_sizes.
  - exact inserted_leaf.
  - intros t' i y. simpl. rewrite lookup_insert_Some. intros [[_ <-]|[_ Hy]].
    + exact field_new.
    + by eapply po_field.
  - exact inserted_root.
  - exact inserted_enrolled.
  - exact inserted_distinct.
  - exact inserted_covered.
  - exact inserted_events.
  - exact inserted_event.
Qed.
End inserted.

(** ** Every entry point keeps the pool in order *)

Section steps.
Context {H : Host} `{PL : Poseidon2Laws}.

(** What [rcv_insert] checks, in its order, before it touches the tree. *)
Definition may_insert (e : Env) (v : pool_view) (a : Address) (id inner : bytes) : Prop :=
  authorized e a = true ∧ is_Some (contract_id a) ∧ is_canonical inner = true ∧
  pv_enrollments v !! (a, id) = None.

Lemma rcv_insert_may e depth a id inner st st' :
  rcv_insert_at e depth a id inner st = Ok st' → may_insert e (view_of st) a id inner.
Proof.
  unfold rcv_insert_at, may_insert, require_auth, claim_enrollment. intros Hr. inv_result.
  rewrite has_has_view in * by done. simpl in *. apply negb_false_iff in H2.
  split; [done|]. split; [by eauto|]. split; [done|].
  by apply bool_decide_eq_false_1, eq_None_not_Some in H6.
Qed.

(** An admissible insertion succeeds, except the one that would open tree
    [2^32]; it appends the account's leaf to the current tree. *)
Lemma rcv_insert_spec e depth a id inner st :
  (depth ≤ 32)%N → pool_ok depth (view_of st) → hash32 id → hash32 inner →
  may_insert e (view_of st) a id inner →
  ∃ acct x frontier,
    contract_id a = Some acct ∧ leaf (E:=PoolError) acct id inner = Ok x ∧
    frontier_ok (N.to_nat depth) (size_of (view_of st) (current_tree st) + 1)
      (with_leaf (leaf_fn (view_of st) (current_tree st))
         (size_of (view_of st) (current_tree st)) x) frontier ∧
    if last_slot depth (view_of st) then rcv_insert_at e depth a id inner st = Err TreeIdOverflow
    else ∃ st', rcv_insert_at e depth a id inner st = Ok st' ∧
      view_of st' = inserted depth (view_of st) a id x frontier.
Proof.
  intros Hd Hv Hid Hin (Hau & [acct Ha] & Hc & He).
  apply length_contract_id in Ha as Hl.
  destruct (leaf_defined (E:=PoolError) acct id inner Hl Hid) as [x Hx]; [by apply field_canonical|].
  destruct (append_exact e depth x st Hd Hv) as (frontier & Hfr & Happ); [by eapply leaf_field|].
  exists acct, x, frontier. split; [done|]. split; [done|]. split; [done|].
  unfold rcv_insert_at, require_auth, claim_enrollment. rewrite Hau, Ha, Hc. cbn [demand ok_or rbind negb refuse_if].
  rewrite has_has_view by done. cbn [has_view]. rewrite He, bool_decide_false by (by intros []).
  cbn [refuse_if rbind]. rewrite Hx. cbn [rbind].
  destruct (last_slot depth (view_of st)); [by rewrite Happ|].
  destruct Happ as (s1 & -> & V1). cbn [rbind]. unfold record_enrollment. cbn [fst snd].
  destruct (bump_written e (Enrollment a id) _ _ (view_put_enrollments e s1 (a, id)
    {| lp_tree_id := current_tree st; lp_index := size_of (view_of st) (current_tree st) |}))
    as (s2 & E2 & V2).
  { simpl. rewrite lookup_insert_eq. by apply bool_decide_eq_true. }
  simpl in E2. simpl. rewrite E2. cbn [rbind]. eexists. split; [done|].
  rewrite view_publish_leaf, V2, V1. done.
Qed.
End steps.

(** ** Runs *)

Inductive pool_op `{H : Host} : Type :=
| Op_rcv_insert (account : Address) (enrollment_id commitment : bytes)
| Op_is_known_root (tree_id : N) (root : bytes)
| Op_renew_tree (tree_id : N)
| Op_renew_root (tree_id : N) (root : bytes)
| Op_renew_leaves (tree_id start count : N)
| Op_renew_enrollment (account : Address) (enrollment_id : bytes).

Section runs.
Context {H : Host} `{PL : Poseidon2Laws}.

(** Every entry point that writes. *)
Definition pool_step (e : Env) (depth : N) (op : pool_op) (st : PoolStorage)
  : result PoolError PoolStorage :=
  match op with
  | Op_rcv_insert a id c => rcv_insert_at e depth a id c st
  | Op_is_known_root t r => let* ' (_, st) := is_known_root e t r st in Ok st
  | Op_renew_tree t => renew_tree e t st
  | Op_renew_root t r => renew_root e t r st
  | Op_renew_leaves t start count => renew_leaves e t start count st
  | Op_renew_enrollment a id => renew_enrollment e a id st
  end.

(** The arguments the host passes as [BytesN<32>]. *)
Definition op_typed (op : pool_op) : Prop :=
  match op with
  | Op_rcv_insert _ id c => hash32 id ∧ hash32 c
  | _ => True
  end.

Definition pool_next (depth : N) (st st' : PoolStorage) : Prop :=
  ∃ e op, op_typed op ∧ pool_step e depth op st = Ok st'.
Definition pool_reachable (depth : N) : PoolStorage → Prop := rtc (pool_next depth) empty_pool.

Lemma bump_if_present_view e key st st' :
  bump_if_present e key st = Ok st' → view_of st' = view_of st.
Proof. unfold bump_if_present. case_match; [apply bump_view|by intros [= ->]]. Qed.

Lemma bump_all_view e keys st st' : bump_all e keys st = Ok st' → view_of st' = view_of st.
Proof.
  revert st. induction keys as [|key keys IH]; intros st; [by intros [= ->]|].
  cbn [bump_all]. intros (s & E & Hs)%rbind_Ok. rewrite (IH _ Hs). by eapply bump_view.
Qed.

(** An entry point other than [rcv_insert] changes lifetimes only. *)
Lemma renew_view e depth op st st' :
  pool_step e depth op st = Ok st' →
  (∃ a id c, op = Op_rcv_insert a id c) ∨ view_of st' = view_of st.
Proof.
  destruct op as [a id c|t r|t|t r|t start count|a id]; simpl; intros Hs; [by eauto|right..].
  - unfold is_known_root in Hs. destruct (negb _); simpl in Hs; [by injection Hs as ->|].
    apply rbind_Ok in Hs as ((b & s) & E & [= <-]). apply rbind_Ok in E as (s' & E & [= _ <-]).
    by apply (bump_view e (Root t r)).
  - unfold renew_tree in Hs. apply rbind_Ok in Hs as (_ & _ & Hs).
    apply rbind_Ok in Hs as (s1 & E1%bump_if_present_view & Hs).
    case_match; [|by injection Hs as <-]. apply rbind_Ok in Hs as (s2 & E2 & Hs).
    by rewrite (bump_view _ _ _ _ Hs), (bump_view _ _ _ _ E2).
  - by eapply bump_if_present_view.
  - unfold renew_leaves in Hs. apply rbind_Ok in Hs as ((s & n) & _ & Hs). by eapply bump_all_view.
  - unfold renew_enrollment in Hs. case_match; [|by injection Hs as <-].
    apply rbind_Ok in Hs as (s2 & E2 & Hs).
    by rewrite (bump_view _ _ _ _ Hs), (bump_view _ _ _ _ E2).
Qed.

(** A step of a pool in order inserts one admissible leaf, or changes nothing
    but lifetimes. *)
Lemma step_view depth st st' :
  (depth ≤ 32)%N → pool_ok depth (view_of st) → pool_next depth st st' →
  view_of st' = view_of st ∨
  ∃ a id x frontier, pv_enrollments (view_of st) !! (a, id) = None ∧
    view_of st' = inserted depth (view_of st) a id x frontier ∧
    pool_ok depth (view_of st').
Proof.
  intros Hd Hv (e & op & Ht & Hs). destruct (renew_view _ _ _ _ _ Hs) as [(a & id & c & ->)|]; [|by left].
  right. destruct Ht as [Hid Hc]. simpl in Hs. pose proof (rcv_insert_may _ _ _ _ _ _ _ Hs) as Hm.
  destruct (rcv_insert_spec e depth a id c st Hd Hv Hid Hc Hm)
    as (acct & x & frontier & Ha & Hx & Hfr & Hi).
  destruct (last_slot depth (view_of st)) eqn:El; [by rewrite Hs in Hi|].
  destruct Hi as (s & Hs' & V). rewrite Hs in Hs'. injection Hs' as <-.
  destruct Hm as (_ & _ & Hcan & Hnew). exists a, id, x, frontier. split; [done|]. split; [done|].
  rewrite V. by eapply inserted_ok.
Qed.

Lemma pool_reachable_ok depth st :
  (depth ≤ 32)%N → pool_reachable depth st → pool_ok depth (view_of st).
Proof.
  intros Hd. apply (rtc_ind_r (λ st, pool_ok depth (view_of st))); [apply pool_ok_empty|].
  intros s s' _ Hstep Hv. destruct (step_view depth s s' Hd Hv Hstep)
    as [->|(a & id & x & fr & _ & _ & Hok)]; done.
Qed.
End runs.
