(* ===== verification/PoolSafety.v ===== *)
(** * What the pool promises

    Every root a tree ever had stays known and no other root is; nothing the
    pool recorded changes; an insertion succeeds exactly when its checks pass;
    and the pages [leaves] serves rebuild the trees. *)

From S2P Require Import Prelude Host RecoveryIface ZkPrimitives Merkle Pool PoolFacts PoolRuns.
#[local] Open Scope list_scope.

Section safety.
Context {H : Host} `{PL : Poseidon2Laws}.
Implicit Types v w : pool_view.

(** ** Nothing is taken back *)

Record grows (v w : pool_view) : Prop := {
  gr_current : (pv_current v ≤ pv_current w)%N;
  gr_leaves k x : pv_leaves v !! k = Some x → pv_leaves w !! k = Some x;
  gr_roots k : is_Some (pv_roots v !! k) → is_Some (pv_roots w !! k);
  gr_enrollments k pos : pv_enrollments v !! k = Some pos → pv_enrollments w !! k = Some pos;
  gr_published : pv_published v `prefix_of` pv_published w;
}.

Global Instance grows_preorder : PreOrder grows.
Proof.
  split.
  - intros v. by split.
  - intros u v w [] []. split; [by etrans|..|by etrans]; eauto.
Qed.

Lemma inserted_grows depth v a id x frontier :
  pool_ok depth v → pv_enrollments v !! (a, id) = None →
  grows v (inserted depth v a id x frontier).
Proof.
  intros Hv Hnew. split; simpl.
  - case_match; lia.
  - intros [t k] y. exact (leaf_kept depth v a id x frontier Hv t k y).
  - intros k Hk. rewrite lookup_insert_is_Some'. by right.
  - intros k pos Hk. rewrite lookup_insert_ne; [done|]. intros <-. by rewrite Hnew in Hk.
  - by eexists.
Qed.

Lemma step_grows depth st st' :
  (depth ≤ 32)%N → pool_ok depth (view_of st) → pool_next depth st st' →
  grows (view_of st) (view_of st') ∧ pool_ok depth (view_of st').
Proof.
  intros Hd Hv Hs. destruct (step_view depth st st' Hd Hv Hs)
    as [->|(a & id & x & fr & Hnew & V & Hok)]; [done|].
  split; [|done]. rewrite V. by apply inserted_grows.
Qed.

Lemma run_grows depth st st' :
  (depth ≤ 32)%N → pool_ok depth (view_of st) → rtc (pool_next depth) st st' →
  grows (view_of st) (view_of st').
Proof.
  intros Hd Hv Hr. revert Hv. induction Hr as [|s1 s2 s3 Hs _ IH]; intros Hv; [done|].
  destruct (step_grows depth s1 s2 Hd Hv Hs) as [Hg Hok]. etrans; [exact Hg|by apply IH].
Qed.

(** ** Views of a pool in order *)

Lemma is_known_root_spec e depth t r st :
  pool_ok depth (view_of st) →
  ∃ b st', is_known_root e t r st = Ok (b, st') ∧ view_of st' = view_of st ∧
    (b = true ↔ ∃ n, (0 < n ≤ size_of (view_of st) t)%N ∧ r = root_after depth (view_of st) t n).
Proof.
  intros Hv. unfold is_known_root. rewrite has_has_view by done.
  pose proof (po_root _ _ Hv t r) as Hr. destruct (has_view (Root t r) (view_of st)) eqn:E.
  - destruct (bump_present e (Root t r) st E) as (st' & Eb & V). simpl in Eb. simpl. rewrite Eb.
    exists true, st'. split; [done|]. split; [done|]. rewrite <-Hr. by apply bool_decide_eq_true in E.
  - exists false, st. split; [done|]. split; [done|]. rewrite <-Hr. by apply bool_decide_eq_false in E.
Qed.

Lemma root_after_all depth v t :
  pool_ok depth v → root_after depth v t (size_of v t) = node_at (leaf_fn v t) (N.to_nat depth) 0.
Proof.
  intros Hv. apply node_at_ext. intros k _. by apply first_leaves_all, (leaf_fn_empty depth).
Qed.

Lemma tree_info_spec depth t st :
  (depth ≤ 32)%N → pool_ok depth (view_of st) →
  tree_info depth t st =
    if (current_tree st <? t)%N then Err UnknownTree
    else Ok {| ti_tree_id := t; ti_size := size_of (view_of st) t; ti_capacity := capacity depth;
               ti_root := root_after depth (view_of st) t (size_of (view_of st) t);
               ti_sealed := (t <? current_tree st)%N |}.
Proof.
  intros Hd Hv. unfold tree_info, require_opened. destruct (N.ltb_spec (current_tree st) t); [done|].
  cbn [refuse_if rbind]. rewrite state_view, root_after_all by done.
  assert ((size_of (view_of st) t =? capacity depth)%N = (t <? current_tree st)%N) as Hsealed.
  { pose proof (po_room _ _ Hv) as Hroom. pose proof (po_full _ _ Hv t) as Hfull.
    simpl in Hroom, Hfull. destruct (N.ltb_spec t (current_tree st)) as [Ht|Ht].
    - rewrite Hfull by done. apply N.eqb_refl.
    - replace t with (current_tree st) by lia. apply N.eqb_neq. lia. }
  pose proof (leaf_fn_empty depth (view_of st) t Hv) as He. unfold size_of in *.
  destruct (pv_trees (view_of st) !! t) as [ts|] eqn:E; cbn [rbind].
  - rewrite Hsealed. apply (po_tree _ _ Hv) in E as (_ & _ & _ & ->). done.
  - unfold zero. rewrite zero_at_lookup by lia. cbn [or_panic rbind]. rewrite Hsealed.
    by rewrite (node_at_empty _ 0) by (done || lia).
Qed.

(** [leaves] never meets a missing entry: it returns the stored leaves of the
    page, clamped to the tree's size. *)
Lemma leaves_spec depth t start count st :
  pool_ok depth (view_of st) → (t ≤ current_tree st)%N → (count ≤ MAX_PAGE)%N →
  let last := N.min (N.min (start + count) U64_MAX) (size_of (view_of st) t) in
  let first := N.min start last in
  leaves t start count st =
    Ok ((λ i, leaf_fn (view_of st) t (first + N.of_nat i)) <$> seq 0 (N.to_nat (last - first))).
Proof.
  intros Hv Ht Hc last first. unfold leaves, page, require_opened.
  rewrite (proj2 (N.ltb_ge _ _)) by done. rewrite (proj2 (N.ltb_ge _ _)) by done.
  cbn [refuse_if rbind]. rewrite state_view. fold (size_of (view_of st) t). fold last first.
  apply mapM_result_Ok, Forall2_fmap_r, Forall2_same_length_lookup_2; [done|].
  intros k i j Hi Hj. rewrite Hi in Hj. injection Hj as ->. apply lookup_seq in Hi as [-> Hk].
  rewrite persistent_get_values. unfold leaf_fn.
  assert (is_Some (pv_leaves (view_of st) !! (t, first + N.of_nat (0 + k))%N)) as [y Ey].
  { apply (po_leaf _ _ Hv). subst last. lia. }
  simpl in *. rewrite Ey. done.
Qed.

(** C22: The pool's roots are Merkle roots: in every reachable state,
    [is_known_root] answers, and answers true for exactly the roots of the
    non-empty prefixes of the tree's leaves, that is every root the tree has
    had, however long ago; and [tree] reports the root of all its leaves, its
    size, and as sealed exactly the trees before the current one. *)
Theorem pool_roots_exact depth st (Hd : (depth ≤ 32)%N) (Hr : pool_reachable depth st) :
  (∀ e t r, ∃ b st', is_known_root e t r st = Ok (b, st') ∧ view_of st' = view_of st ∧
    (b = true ↔
       ∃ n, (0 < n ≤ size_of (view_of st) t)%N ∧ r = root_after depth (view_of st) t n)) ∧
  (∀ t, tree_info depth t st =
    if (current_tree st <? t)%N then Err UnknownTree
    else Ok {| ti_tree_id := t; ti_size := size_of (view_of st) t; ti_capacity := capacity depth;
               ti_root := root_after depth (view_of st) t (size_of (view_of st) t);
               ti_sealed := (t <? current_tree st)%N |}).
Proof.
  pose proof (pool_reachable_ok depth st Hd Hr) as Hv. split.
  - intros e t r. by apply is_known_root_spec.
  - intros t. by apply tree_info_spec.
Qed.

(** The pool never takes anything back: along every run, leaves keep their
    position and value, known roots stay known, enrollments keep the position
    they were recorded at, and published events only grow. *)
Theorem pool_history_is_permanent depth st st' :
  (depth ≤ 32)%N → pool_reachable depth st → rtc (pool_next depth) st st' →
  grows (view_of st) (view_of st').
Proof. intros Hd Hr. apply run_grows; [done|]. by apply pool_reachable_ok. Qed.

Lemma rcv_insert_iff e depth a id c st :
  (depth ≤ 32)%N → pool_ok depth (view_of st) → hash32 id → hash32 c →
  (∃ st', rcv_insert_at e depth a id c st = Ok st') ↔
    may_insert e (view_of st) a id c ∧ last_slot depth (view_of st) = false.
Proof.
  intros Hd Hv Hid Hc. split.
  - intros [st' Hs]. pose proof (rcv_insert_may _ _ _ _ _ _ _ Hs) as Hm. split; [done|].
    destruct (rcv_insert_spec e depth a id c st Hd Hv Hid Hc Hm) as (acct & x & fr & _ & _ & _ & Hi).
    destruct (last_slot depth (view_of st)); [|done]. by rewrite Hs in Hi.
  - intros [Hm Hl].
    destruct (rcv_insert_spec e depth a id c st Hd Hv Hid Hc Hm) as (acct & x & fr & _ & _ & _ & Hi).
    rewrite Hl in Hi. destruct Hi as (st' & Hs & _). by exists st'.
Qed.

(** Enrollment: in every reachable state [rcv_insert] succeeds exactly when
    the account authorized it, is a contract, submits a canonical commitment
    and has not used the id, so a full tree never blocks it (short of opening
    tree [2^32]); then the id's recorded position holds the leaf that binds
    the account, the id and the commitment, under the tree's new root, and no
    other enrollment has that position. *)
Theorem pool_insert_exact e depth a id c st :
  (depth ≤ 32)%N → pool_reachable depth st → hash32 id → hash32 c →
  ((∃ st', rcv_insert_at e depth a id c st = Ok st') ↔
     may_insert e (view_of st) a id c ∧ last_slot depth (view_of st) = false) ∧
  ∀ st', rcv_insert_at e depth a id c st = Ok st' →
    ∃ acct x, contract_id a = Some acct ∧ leaf (E:=PoolError) acct id c = Ok x ∧
      let pos := {| lp_tree_id := current_tree st;
                    lp_index := size_of (view_of st) (current_tree st) |} in
      enrollment a id st' = Some pos ∧
      pv_leaves (view_of st') !! (lp_tree_id pos, lp_index pos) = Some x ∧
      is_Some (pv_roots (view_of st') !!
        (current_tree st, root_after depth (view_of st') (lp_tree_id pos) (lp_index pos + 1))) ∧
      ∀ a' id', enrollment a' id' st' = Some pos → a' = a ∧ id' = id.
Proof.
  intros Hd Hr Hid Hc. pose proof (pool_reachable_ok depth st Hd Hr) as Hv.
  split; [by apply rcv_insert_iff|]. intros st' Hs.
  pose proof (rcv_insert_may _ _ _ _ _ _ _ Hs) as Hm.
  destruct (rcv_insert_spec e depth a id c st Hd Hv Hid Hc Hm) as (acct & x & fr & Ha & Hx & Hfr & Hi).
  destruct (last_slot depth (view_of st)) eqn:Hl; [by rewrite Hs in Hi|].
  destruct Hi as (s & Hs' & V). rewrite Hs in Hs'. injection Hs' as <-.
  destruct Hm as (_ & _ & Hcan & Hnew). exists acct, x. split; [done|]. split; [done|].
  cbn [lp_tree_id lp_index]. setoid_rewrite enrollment_view. rewrite V.
  assert (pool_ok depth (inserted depth (view_of st) a id x fr)) as Hok by (by eapply inserted_ok).
  split; [by simpl; rewrite lookup_insert_eq|]. split; [by simpl; rewrite lookup_insert_eq|].
  split.
  - apply (po_root _ _ Hok). eexists. split; [|done]. rewrite size_of_inserted, decide_True by done.
    simpl. lia.
  - intros a' id' Hp. eapply (po_distinct _ _ Hok); [exact Hp|]. simpl. by rewrite lookup_insert_eq.
Qed.
End safety.
