(* ===== verification/Prover.v ===== *)
(** * perch-zk-prover: witnesses for the pool's trees

    Models [crates/perch-zk-prover/src/tree.rs] (the incremental tree with its
    node store, the witness index that follows a pool's events, the in-memory
    tree) and the pure part of [lib.rs] ([root_from_path], the circuit
    [Inputs] and the digests they carry).  [assert!], [panic!] and slices out
    of range are [Panic].  The leaves stay with the caller: [read start count]
    is the caller's closure.  Running [nargo] and [bb] is not modelled. *)

From S2P Require Import Prelude Host RecoveryIface ZkPrimitives Merkle.
#[local] Open Scope list_scope.

(** ** [tree.rs] *)

Definition CHUNK_LEVEL : nat := 16.

(** [trait NodeStore]. *)
Class NodeStore (S : Type) : Type := {
  ns_get : S → nat → N → option bytes;
  ns_set : S → nat → N → bytes → S;
}.

Definition MemoryNodeStore : Type := gmap (nat * N) bytes.
Global Instance MemoryNodeStore_impl : NodeStore MemoryNodeStore := {|
  ns_get m level index := m !! (level, index);
  ns_set m level index v := <[(level, index) := v]> m;
|}.
Definition MemoryNodeStore_len (m : MemoryNodeStore) : nat := size m.
Definition MemoryNodeStore_is_empty (m : MemoryNodeStore) : bool :=
  bool_decide (m = ∅).

Record TreeState : Type := {
  st_size : N;
  st_frontier : list bytes;
}.

Record MerklePath : Type := {
  mp_root : bytes;
  mp_siblings : list bytes;
}.

Record IncrementalTree (S : Type) : Type := {
  it_depth : nat;
  it_chunk_level : nat;
  it_nodes : S;
  it_state : TreeState;
}.
Arguments it_depth {S}.
Arguments it_chunk_level {S}.
Arguments it_nodes {S}.
Arguments it_state {S}.

(** What a witness index refuses: the position it expected, and the one it
    was given. *)
Record OutOfOrder : Type := {
  expected_tree : N; expected_index : N;
  got_tree : N; got_index : N;
}.

Section tree.
Context {P : Poseidon2}.
Notation result := (result OutOfOrder).

Definition zero_hash (level : nat) : result bytes := or_panic (ZERO_HASHES !! level).

(** One level of [subtree]: the pairs [(0, 1), (2, 3), ...] of [cur], at least
    one, an absent node being the empty subtree. *)
Definition subtree_level (level : nat) (cur : list bytes) : result (list bytes) :=
  let* z := zero_hash level in
  mapM_result (λ j, node (default z (cur !! (2 * j)%nat)) (default z (cur !! (2 * j + 1)%nat)))
    (seq 0 ((Nat.max (length cur) 1 + 1) / 2)).

Fixpoint subtree_from (cur : list bytes) (levels : list nat) : result (list (list bytes)) :=
  match levels with
  | [] => Ok [cur]
  | level :: levels =>
      let* next := subtree_level level cur in
      let* rest := subtree_from next levels in Ok (cur :: rest)
  end.
Definition subtree (leaves : list bytes) (height : nat) : result (list (list bytes)) :=
  subtree_from leaves (seq 0 height).

Section store.
Context {S : Type} {NS : NodeStore S}.

Definition with_store (depth chunk_level : nat) (nodes : S) (state : option TreeState)
  : result (IncrementalTree S) :=
  demand (depth <=? N.to_nat MAX_TREE_DEPTH)%nat ;;;
  let state := match state with
               | Some s => s
               | None => {| st_size := 0; st_frontier := take depth ZERO_HASHES |}
               end in
  Ok {| it_depth := depth; it_chunk_level := Nat.min chunk_level depth;
        it_nodes := nodes; it_state := state |}.

Definition tree_size (t : IncrementalTree S) : N := st_size (it_state t).
Definition tree_capacity (t : IncrementalTree S) : N := N.shiftl 1 (N.of_nat (it_depth t)).
Definition tree_sealed (t : IncrementalTree S) : bool := (tree_size t =? tree_capacity t)%N.

(** The loop of [append], from a level up, until the first left child. *)
Fixpoint append_loop (chunk_level : nat) (index : N) (levels : list nat)
    (frontier : list bytes) (nodes : S) (cur : bytes) : result (list bytes * S) :=
  match levels with
  | [] => Ok (frontier, nodes)
  | level :: levels =>
      if left_child index level then
        demand (level <? length frontier)%nat ;;; Ok (<[level := cur]> frontier, nodes)
      else
        let* left := or_panic (frontier !! level) in
        let* cur := node left cur in
        let nodes := if (chunk_level <=? level + 1)%nat
                     then ns_set nodes (level + 1) (N.shiftr index (N.of_nat (level + 1))) cur
                     else nodes in
        append_loop chunk_level index levels frontier nodes cur
  end.

Definition append (t : IncrementalTree S) (leaf : bytes) : result (IncrementalTree S) :=
  demand (negb (tree_sealed t)) ;;;
  let index := tree_size t in
  let nodes := if (it_chunk_level t =? 0)%nat then ns_set (it_nodes t) 0 index leaf
               else it_nodes t in
  let* ' (frontier, nodes) :=
    append_loop (it_chunk_level t) index (seq 0 (it_depth t)) (st_frontier (it_state t)) nodes leaf in
  let* size := u64_add index 1 in
  Ok {| it_depth := it_depth t; it_chunk_level := it_chunk_level t; it_nodes := nodes;
        it_state := {| st_size := size; st_frontier := frontier |} |}.

(** The node at a level and index of the current tree. *)
Fixpoint value (t : IncrementalTree S) (read : N → N → result (list bytes)) (level : nat) (index : N)
    {struct level} : result bytes :=
  let start := N.shiftl index (N.of_nat level) in
  let span := N.shiftl 1 (N.of_nat level) in
  let size := tree_size t in
  if (size <=? start)%N then zero_hash level
  else
    let complete := (start + span <=? size)%N in
    if complete && (it_chunk_level t <=? level)%nat then or_panic (ns_get (it_nodes t) level index)
    else if (level <=? it_chunk_level t)%nat then
      let last := if complete then (start + span)%N else size in
      let* leaves := read start (last - start)%N in
      let* levels := subtree leaves level in
      let* top := or_panic (levels !! level) in or_panic (top !! 0%nat)
    else
      match level with
      | O => Panic
      | Datatypes.S level =>
          let* l := value t read level (index * 2)%N in
          let* r := value t read level (index * 2 + 1)%N in
          node l r
      end.

Definition root (t : IncrementalTree S) (read : N → N → result (list bytes)) : result bytes :=
  value t read (it_depth t) 0.

Definition witness (t : IncrementalTree S) (index : N) (read : N → N → result (list bytes))
  : result MerklePath :=
  demand (index <? tree_size t)%N ;;;
  let height := it_chunk_level t in
  let chunk_start := N.shiftl (N.shiftr index (N.of_nat height)) (N.of_nat height) in
  let chunk_end := N.min (chunk_start + N.shiftl 1 (N.of_nat height)) (tree_size t) in
  let* leaves := read chunk_start (chunk_end - chunk_start)%N in
  let* levels := subtree leaves height in
  let* low := mapM_result
    (λ level,
       let sib := N.lxor (N.shiftr (index - chunk_start) (N.of_nat level)) 1 in
       let* nodes := or_panic (levels !! level) in
       match nodes !! N.to_nat sib with
       | Some v => Ok v
       | None => zero_hash level
       end) (seq 0 height) in
  let* high := mapM_result
    (λ level, value t read level (N.lxor (N.shiftr index (N.of_nat level)) 1))
    (seq height (it_depth t - height)) in
  let* r := value t read (it_depth t) 0 in
  Ok {| mp_root := r; mp_siblings := low ++ high |}.
End store.

Definition IncrementalTree_new (depth chunk_level : nat)
  : result (IncrementalTree MemoryNodeStore) := with_store depth chunk_level ∅ None.

(** *** [PoolWitnessIndex] *)

Record Insertion : Type := {
  in_tree_id : N;
  in_index : N;
  in_leaf : bytes;
}.

Record PoolWitnessIndex : Type := {
  pw_depth : nat;
  pw_chunk_level : nat;
  pw_trees : gmap N (IncrementalTree MemoryNodeStore);
  pw_current : N;
}.

Definition PoolWitnessIndex_new (depth chunk_level : nat) : PoolWitnessIndex :=
  {| pw_depth := depth; pw_chunk_level := chunk_level; pw_trees := ∅; pw_current := 0 |}.

Definition index_current_tree (x : PoolWitnessIndex) : N := pw_current x.
Definition index_tree (x : PoolWitnessIndex) (tree_id : N)
  : option (IncrementalTree MemoryNodeStore) := pw_trees x !! tree_id.

Definition with_tree (x : PoolWitnessIndex) (t : IncrementalTree MemoryNodeStore) (current : N)
  : PoolWitnessIndex :=
  {| pw_depth := pw_depth x; pw_chunk_level := pw_chunk_level x;
     pw_trees := <[pw_current x := t]> (pw_trees x); pw_current := current |}.

(** [ingest] changes the index also when it refuses: [entry] has then created
    the current tree.  The outer [result] is a panic, the inner one the
    returned [Result]. *)
Definition ingest (x : PoolWitnessIndex) (insertion : Insertion)
  : result (PoolWitnessIndex * Prelude.result OutOfOrder unit) :=
  let* t := match pw_trees x !! pw_current x with
            | Some t => Ok t
            | None => IncrementalTree_new (pw_depth x) (pw_chunk_level x)
            end in
  if negb (in_tree_id insertion =? pw_current x)%N || negb (in_index insertion =? tree_size t)%N
  then Ok (with_tree x t (pw_current x),
           Err {| expected_tree := pw_current x; expected_index := tree_size t;
                  got_tree := in_tree_id insertion; got_index := in_index insertion |})
  else
    let* t := append t (in_leaf insertion) in
    if tree_sealed t then
      let* next := u32_add (pw_current x) 1 in Ok (with_tree x t next, Ok tt)
    else Ok (with_tree x t (pw_current x), Ok tt).

(** *** [Tree] *)

Record Tree : Type := {
  tr_tree : IncrementalTree MemoryNodeStore;
  tr_leaves : list bytes;
}.

Fixpoint append_leaves (t : IncrementalTree MemoryNodeStore) (leaves : list bytes)
  : result (IncrementalTree MemoryNodeStore) :=
  match leaves with
  | [] => Ok t
  | leaf :: leaves => let* t := append t leaf in append_leaves t leaves
  end.

Definition Tree_new (depth : nat) (leaves : list bytes) : result Tree :=
  let* tree := IncrementalTree_new depth (Nat.min CHUNK_LEVEL depth) in
  let* tree := append_leaves tree leaves in
  Ok {| tr_tree := tree; tr_leaves := leaves |}.

(** [self.leaves\[start..start + count\].to_vec()]. *)
Definition reader (t : Tree) (start count : N) : result (list bytes) :=
  demand (N.to_nat start + N.to_nat count <=? length (tr_leaves t))%nat ;;;
  Ok (take (N.to_nat count) (drop (N.to_nat start) (tr_leaves t))).

Definition Tree_depth (t : Tree) : nat := it_depth (tr_tree t).
Definition Tree_size (t : Tree) : N := tree_size (tr_tree t).
Definition Tree_root (t : Tree) : result bytes := root (tr_tree t) (reader t).
Definition Tree_path (t : Tree) (index : N) : result (list bytes) :=
  let* p := witness (tr_tree t) index (reader t) in Ok (mp_siblings p).
End tree.

(** ** [lib.rs] *)

Section inputs.
Context {P : Poseidon2}.
Notation result := (result OutOfOrder).

(** [hex]: [0x] and two lowercase digits a byte. *)
Definition hex_digit (n : N) : ascii := if (n <? 10)%N then ascii_of_N (48 + n) else ascii_of_N (87 + n).
Fixpoint hex_digits (b : bytes) : string :=
  match b with
  | EmptyString => EmptyString
  | String c b =>
      String (hex_digit (N_of_ascii c / 16)) (String (hex_digit (N_of_ascii c mod 16)) (hex_digits b))
  end.
Definition hex (b : bytes) : string := (String "0" (String "x" (hex_digits b)))%char.

(** [u8::from_str_radix(s, 16)] on a two-byte string: a digit pair of either
    case, or one digit after a plus sign. *)
Definition digit16 (c : ascii) : option N :=
  let n := N_of_ascii c in
  if (48 <=? n)%N && (n <=? 57)%N then Some (n - 48)%N
  else if (97 <=? n)%N && (n <=? 102)%N then Some (n - 97 + 10)%N
  else if (65 <=? n)%N && (n <=? 70)%N then Some (n - 65 + 10)%N
  else None.
Definition from_str_radix_16 (a b : ascii) : option N :=
  match (if Ascii.eqb a "+" then Some 0%N else digit16 a), digit16 b with
  | Some x, Some y => Some (x * 16 + y)%N
  | _, _ => None
  end.

(** A string slice must start and end at character boundaries: not at a UTF-8
    continuation byte. *)
Definition is_char_boundary (s : string) : bool :=
  match s with
  | EmptyString => true
  | String c _ => negb ((128 <=? N_of_ascii c)%N && (N_of_ascii c <? 192)%N)
  end.

Fixpoint parse_pairs (n : nat) (s : string) : result (option bytes) :=
  match n, s with
  | O, _ => Ok (Some EmptyString)
  | Datatypes.S n, String a (String b s') =>
      demand (is_char_boundary s && is_char_boundary s') ;;;
      match from_str_radix_16 a b with
      | None => Ok None
      | Some x =>
          let* rest := parse_pairs n s' in
          Ok (match rest with Some r => Some (String (ascii_of_N x) r) | None => None end)
      end
  | _, _ => Panic
  end.

Definition strip_0x (s : string) : string :=
  match s with
  | String a (String b s') => if Ascii.eqb a "0" && Ascii.eqb b "x" then s' else s
  | _ => s
  end.
Definition parse32 (s : string) : result (option bytes) :=
  let s := strip_0x s in
  if negb (Nat.eqb (String.length s) 64) then Ok None else parse_pairs 32 s.

Fixpoint path_loop (cur : bytes) (index : N) (level : nat) (siblings : list bytes) : result bytes :=
  match siblings with
  | [] => Ok cur
  | sib :: siblings =>
      let* cur := if left_child index level then node cur sib else node sib cur in
      path_loop cur index (S level) siblings
  end.
Definition root_from_path (leaf : bytes) (index : N) (siblings : list bytes) : result bytes :=
  path_loop leaf index 0 siblings.

Record Inputs : Type := {
  ip_root : bytes;
  ip_nullifier : bytes;
  ip_statement_hash : bytes;
  ip_secret : bytes;
  ip_account_id : bytes;
  ip_enrollment_id : bytes;
  ip_digest : bytes;
  ip_leaf_index : N;
  ip_siblings : list bytes;
}.

Definition fields (account_id enrollment_id digest : bytes) : ZkStatementFields :=
  let ' (account_hi, account_lo) := split_hi_lo account_id in
  let ' (enrollment_hi, enrollment_lo) := split_hi_lo enrollment_id in
  let ' (digest_hi, digest_lo) := split_hi_lo digest in
  {| account_hi := account_hi; account_lo := account_lo;
     enrollment_hi := enrollment_hi; enrollment_lo := enrollment_lo;
     digest_hi := digest_hi; digest_lo := digest_lo |}.

Definition prover_commitment (secret : bytes) : result bytes := commitment secret.
Definition leaf_of_commitment (account_id enrollment_id commitment : bytes) : result bytes :=
  leaf account_id enrollment_id commitment.
Definition prover_leaf (account_id enrollment_id secret : bytes) : result bytes :=
  let* c := prover_commitment secret in leaf_of_commitment account_id enrollment_id c.

Definition Inputs_new (secret account_id enrollment_id digest : bytes) (leaf_index : N)
    (siblings : list bytes) : result Inputs :=
  let* inner := commitment secret in
  let* leaf := leaf account_id enrollment_id inner in
  let* root := root_from_path leaf leaf_index siblings in
  let fields := fields account_id enrollment_id digest in
  let* nullifier := hasher_nullifier account_id enrollment_id secret in
  let* statement_hash := statement_hash fields in
  Ok {| ip_root := root; ip_nullifier := nullifier; ip_statement_hash := statement_hash;
        ip_secret := secret; ip_account_id := account_id; ip_enrollment_id := enrollment_id;
        ip_digest := digest; ip_leaf_index := leaf_index; ip_siblings := siblings |}.

Definition Inputs_leaf (x : Inputs) : result bytes :=
  prover_leaf (ip_account_id x) (ip_enrollment_id x) (ip_secret x).
Definition Inputs_public_inputs (x : Inputs) : bytes :=
  public_inputs (ip_root x) (ip_nullifier x) (ip_statement_hash x).
End inputs.
