(* ===== verification/ProverFacts.v ===== *)
(** * The prover's trees are the pool's trees

    [tree_ok t f] says an incremental tree holds the leaves [f]: its frontier
    and its stored nodes are those of the reference tree.  [append] keeps it,
    and then [root] and [witness] compute the reference root and path, so a
    witness always recomputes the root ([witness_spec]). *)

From S2P Require Import Prelude Host RecoveryIface ZkPrimitives Merkle Pool PoolFacts Prover.
#[local] Open Scope list_scope.

(** ** Subtrees over a list of leaves *)

Section subtrees.
Context `{PL : Poseidon2Laws}.

(** A list of leaves as an assignment. *)
Definition list_fn (leaves : list bytes) : N → bytes :=
  λ i, default (zeros 32) (leaves !! N.to_nat i).

(** [cur] is level [k] of the tree over [f]: past its end are empty subtrees. *)
Definition level_ok (f : N → bytes) (k : nat) (cur : list bytes) : Prop :=
  ∀ j : nat, default (zero_at k) (cur !! j) = node_at f k (N.of_nat j).

Lemma level_ok_leaves leaves : level_ok (list_fn leaves) 0 leaves.
Proof. intros j. unfold list_fn. simpl. by rewrite Nat2N.id, zero_at_0. Qed.

Lemma field_list_fn leaves i : Forall field leaves → field (list_fn leaves i).
Proof.
  intros Hl. unfold list_fn. destruct (leaves !! N.to_nat i) eqn:E; simpl; [|auto].
  by eapply Forall_lookup_1 in E.
Qed.

Lemma subtree_level_ok f k cur :
  (k < 32)%nat → (∀ i, field (f i)) → level_ok f k cur →
  ∃ next, subtree_level k cur = Ok next ∧ level_ok f (S k) next ∧ (0 < length next)%nat.
Proof.
  intros Hk Hf Hc. unfold subtree_level, zero_hash. rewrite zero_at_lookup by lia.
  cbn [or_panic rbind]. set (n := ((Nat.max (length cur) 1 + 1) / 2)%nat).
  assert (0 < n ∧ length cur ≤ 2 * n)%nat as [Hn Hlen].
  { pose proof (Nat.div_mod (Nat.max (length cur) 1 + 1) 2 ltac:(lia)).
    pose proof (Nat.mod_upper_bound (Nat.max (length cur) 1 + 1) 2 ltac:(lia)). fold n in H. lia. }
  exists ((λ j, node_at f (S k) (N.of_nat j)) <$> seq 0 n). split; [|split].
  - rewrite <-(list_fmap_id (seq 0 n)) at 1. apply mapM_result_map. apply Forall_forall.
    intros j _. unfold id. rewrite !Hc. rewrite node_Ok by (by apply field_node_at).
    cbn [node_at]. do 3 f_equal; lia.
  - intros j. rewrite list_lookup_fmap. destruct (decide (j < n)%nat) as [Hj|Hj].
    + rewrite lookup_seq_lt by done. done.
    + rewrite lookup_seq_ge by lia. cbn [fmap option_fmap option_map default node_at].
      assert (∀ i, (length cur ≤ i)%nat → node_at f k (N.of_nat i) = zero_at k) as Hz.
      { intros i Hi. by rewrite <-Hc, lookup_ge_None_2. }
      replace (2 * N.of_nat j)%N with (N.of_nat (2 * j)) by lia.
      replace (N.of_nat (2 * j) + 1)%N with (N.of_nat (2 * j + 1)) by lia.
      rewrite !Hz by lia. by rewrite node_of_zero.
  - by rewrite length_fmap, length_seq.
Qed.

(** [subtree] computes the levels of the reference tree over its leaves. *)
Lemma subtree_from_ok f m k cur :
  (k + m ≤ 32)%nat → (∀ i, field (f i)) → level_ok f k cur → (0 < length cur)%nat →
  ∃ levels, subtree_from cur (seq k m) = Ok levels ∧
    ∀ j, (j ≤ m)%nat → ∃ l, levels !! j = Some l ∧ level_ok f (k + j) l ∧ (0 < length l)%nat.
Proof.
  intros Hk Hf. revert k cur Hk. induction m as [|m IH]; intros k cur Hk Hc Hl.
  - exists [cur]. split; [done|]. intros j Hj. replace j with 0%nat by lia.
    exists cur. by rewrite Nat.add_0_r.
  - cbn [seq subtree_from]. destruct (subtree_level_ok f k cur) as (next & -> & Hn & Hl'); [lia|done..|].
    destruct (IH (S k) next) as (levels & E & Hlv); [lia|done..|]. cbn [rbind]. rewrite E.
    exists (cur :: levels). split; [done|]. intros [|j] Hj.
    + exists cur. by rewrite Nat.add_0_r.
    + destruct (Hlv j) as (l & Hj' & ? & ?); [lia|]. exists l. by rewrite <-Nat.add_succ_comm.
Qed.

Lemma subtree_ok leaves height :
  (height ≤ 32)%nat → Forall field leaves → leaves ≠ [] →
  ∃ levels, subtree leaves height = Ok levels ∧
    ∀ j, (j ≤ height)%nat → ∃ l, levels !! j = Some l ∧ level_ok (list_fn leaves) j l ∧
      (0 < length l)%nat.
Proof.
  intros Hh Hf Hne. apply (subtree_from_ok (list_fn leaves) height 0); [done|..].
  - intros i. by apply field_list_fn.
  - apply level_ok_leaves.
  - destruct leaves; [done|]. simpl. lia.
Qed.

(** Trees over the same leaves at different offsets have the same nodes. *)
Lemma node_at_shift f g l i j :
  (∀ k, (k < 2 ^ N.of_nat l)%N → f (i * 2 ^ N.of_nat l + k)%N = g (j * 2 ^ N.of_nat l + k)%N) →
  node_at f l i = node_at g l j.
Proof.
  revert i j. induction l as [|l IH]; intros i j Hfg.
  - simpl. specialize (Hfg 0%N). simpl in Hfg.
    rewrite !N.mul_1_r, !N.add_0_r in Hfg. apply Hfg. lia.
  - rewrite pow2_S in Hfg. cbn [node_at]. f_equal; apply IH; intros k Hk.
    + specialize (Hfg k). rewrite !(N.mul_comm 2), <-!N.mul_assoc. apply Hfg. lia.
    + specialize (Hfg (2 ^ N.of_nat l + k)%N).
      replace ((2 * i + 1) * 2 ^ N.of_nat l + k)%N
        with (i * (2 * 2 ^ N.of_nat l) + (2 ^ N.of_nat l + k))%N by lia.
      replace ((2 * j + 1) * 2 ^ N.of_nat l + k)%N
        with (j * (2 * 2 ^ N.of_nat l) + (2 ^ N.of_nat l + k))%N by lia.
      apply Hfg. lia.
Qed.
End subtrees.

(** ** Incremental trees *)

(** What a store promises. *)
Class NodeStoreLaws (S : Type) {NS : NodeStore S} : Prop :=
  ns_get_set (s : S) l i x l' i' :
    ns_get (ns_set s l i x) l' i' = if decide ((l', i') = (l, i)) then Some x else ns_get s l' i'.

Global Instance MemoryNodeStore_laws : NodeStoreLaws MemoryNodeStore.
Proof.
  intros s l i x l' i'. simpl. case_decide as E; [rewrite E; apply lookup_insert_eq|].
  by apply lookup_insert_ne.
Qed.

Section tree.
Context `{PL : Poseidon2Laws} {S : Type} `{NSL : NodeStoreLaws S}.
Implicit Types t : IncrementalTree S.

Record tree_ok (t : IncrementalTree S) (f : N → bytes) : Prop := {
  to_depth : (it_depth t ≤ 32)%nat;
  to_chunk : (it_chunk_level t ≤ it_depth t)%nat;
  to_size : (tree_size t ≤ 2 ^ N.of_nat (it_depth t))%N;
  to_frontier : frontier_ok (it_depth t) (tree_size t) f (st_frontier (it_state t));
  to_field k : field (f k);
  to_empty : empty_from (tree_size t) f;
  to_nodes level i : (it_chunk_level t ≤ level ≤ it_depth t)%nat →
    ((i + 1) * 2 ^ N.of_nat level ≤ tree_size t)%N →
    ns_get (it_nodes t) level i = Some (node_at f level i);
}.

(** The insertion at [n] completes the node over it at this level. *)
Definition completes (n : N) (level : nat) : Prop :=
  ((N.shiftr n (N.of_nat level) + 1) * 2 ^ N.of_nat level = n + 1)%N.
Global Instance completes_dec n level : Decision (completes n level).
Proof. unfold completes. apply _. Defined.

Lemma completes_0 n : completes n 0.
Proof. unfold completes. rewrite N.shiftr_0_r, N.mul_1_r. done. Qed.

Lemma completes_S n level :
  completes n (Datatypes.S level) ↔ completes n level ∧ left_child n level = false.
Proof.
  unfold completes. rewrite pow2_S. pose proof (pow2_pos level).
  pose proof (left_child_true n level) as Ht. pose proof (left_child_false n level) as Hf.
  destruct (left_child n level).
  - destruct Ht as [Ht _]. specialize (Ht eq_refl). split; [|by intros []]. intros E.
    pose proof (shiftr_range n level). nia.
  - destruct Hf as [Hf _]. specialize (Hf eq_refl). rewrite Hf.
    split; [intros E; split; [nia|done]|intros [E _]; nia].
Qed.

Lemma completes_below n level level' :
  completes n level → (level' ≤ level)%nat → completes n level'.
Proof.
  intros Hc Hl. induction Hl as [|level Hl IH]; [done|]. apply IH. by apply completes_S in Hc as [? _].
Qed.

(** No level above a left child is completed. *)
Lemma completes_left n level level' :
  left_child n level = true → (level < level')%nat → ¬ completes n level'.
Proof.
  intros E Hl Hc. apply (completes_below _ _ (Datatypes.S level)) in Hc; [|lia].
  apply completes_S in Hc as [_ ?]. congruence.
Qed.

(** A node is complete after the insertion if it was, or if the insertion
    completes it. *)
Lemma complete_next n level i :
  ((i + 1) * 2 ^ N.of_nat level ≤ n + 1)%N →
  ((i + 1) * 2 ^ N.of_nat level ≤ n)%N ∨ (i = N.shiftr n (N.of_nat level) ∧ completes n level).
Proof.
  intros Hi. destruct (decide ((i + 1) * 2 ^ N.of_nat level ≤ n)%N); [by left|right].
  pose proof (pow2_pos level). assert (N.shiftr n (N.of_nat level) = i) as E.
  { apply shiftr_unique. nia. }
  split; [done|]. unfold completes. rewrite E. nia.
Qed.

(** The node [append] stores after hashing at level [k]. *)
Lemma stored_get (nodes : S) chunk k j x level i :
  ns_get (if (chunk <=? Datatypes.S k)%nat then ns_set nodes (Datatypes.S k) j x else nodes) level i =
    if decide (level = Datatypes.S k ∧ (chunk ≤ Datatypes.S k)%nat ∧ i = j) then Some x
    else ns_get nodes level i.
Proof.
  destruct (Nat.leb_spec chunk (Datatypes.S k)).
  - rewrite ns_get_set. apply decide_ext. naive_solver.
  - rewrite decide_False by lia. done.
Qed.

Lemma append_loop_spec f n x chunk m k frontier (nodes : S) :
  (∀ i, field (f i)) → field x → empty_from n f → (k + m ≤ 32)%nat → completes n k →
  length frontier = (k + m)%nat →
  (∀ level, (k ≤ level < k + m)%nat → left_child n level = false →
     frontier !! level = Some (node_at f level (N.shiftr n (N.of_nat level) - 1)%N)) →
  ∃ frontier' nodes',
    append_loop chunk n (seq k m) frontier nodes
      (node_at (with_leaf f n x) k (N.shiftr n (N.of_nat k))) = Ok (frontier', nodes') ∧
    length frontier' = length frontier ∧
    (∀ level, frontier' !! level =
       if decide ((k ≤ level < k + m)%nat ∧ left_child n level = true ∧ completes n level)
       then Some (node_at (with_leaf f n x) level (N.shiftr n (N.of_nat level)))
       else frontier !! level) ∧
    (∀ level i, ns_get nodes' level i =
       if decide ((k < level ≤ k + m)%nat ∧ (chunk ≤ level)%nat ∧ completes n level ∧
                  i = N.shiftr n (N.of_nat level))
       then Some (node_at (with_leaf f n x) level i) else ns_get nodes level i).
Proof.
  intros Hf Hx He. revert k frontier nodes.
  induction m as [|m IH]; intros k frontier nodes Hk Hc Hlen Hfr.
  { exists frontier, nodes. split; [done|]. split; [done|]. split.
    - intros level. rewrite decide_False by lia. done.
    - intros level i. rewrite decide_False by lia. done. }
  cbn [seq append_loop]. replace (k + Datatypes.S m)%nat with (Datatypes.S k + m)%nat in * by lia.
  pose proof (node_at_climb f n x k Hf Hx ltac:(lia) He) as Hstep.
  destruct (left_child n k) eqn:E.
  - rewrite (proj2 (Nat.ltb_lt _ _)) by lia. cbn [demand rbind].
    eexists _, nodes. split; [done|]. split; [by rewrite length_insert|]. split.
    + intros level. destruct (decide (level = k)) as [->|Hne].
      * rewrite list_lookup_insert_eq by lia. rewrite decide_True; [done|]. split; [lia|done].
      * rewrite list_lookup_insert_ne by done. rewrite decide_False; [done|].
        intros (Hl & _ & Hcl). eapply (completes_left n k level); [done|lia|done].
    + intros level i. rewrite decide_False; [done|]. intros (Hl & _ & Hcl & _).
      eapply (completes_left n k level); [done|lia|done].
  - rewrite Hfr by (lia || done). cbn [or_panic rbind].
    assert (∀ k i, field (node_at (with_leaf f n x) k i)) as Hff.
    { intros. apply field_node_at. by apply field_with_leaf. }
    rewrite node_Ok by (auto using field_node_at). cbn [rbind]. rewrite <-Hstep.
    assert (completes n (Datatypes.S k)) as Hc' by (by apply completes_S).
    rewrite Nat.add_1_r.
    set (nodes1 := if (chunk <=? Datatypes.S k)%nat
      then ns_set nodes (Datatypes.S k) (N.shiftr n (N.of_nat (Datatypes.S k)))
        (node_at (with_leaf f n x) (Datatypes.S k) (N.shiftr n (N.of_nat (Datatypes.S k))))
      else nodes).
    destruct (IH (Datatypes.S k) frontier nodes1) as (fr & nd & Ea & El & Hp & Hn); [lia|done|done| |].
    { intros level Hl. apply Hfr. lia. }
    exists fr, nd. split; [exact Ea|]. split; [done|]. split.
    + intros level. rewrite Hp. apply decide_ext. split; intros (Hl & El' & Hcl);
        (split; [|done]); [lia|]. destruct (decide (level = k)) as [->|]; [congruence|lia].
    + intros level i. rewrite Hn. subst nodes1.
      rewrite stored_get. destruct (decide (level = Datatypes.S k)) as [->|Hne].
      * rewrite decide_False by lia.
        destruct (decide ((chunk ≤ Datatypes.S k)%nat ∧ i = N.shiftr n (N.of_nat (Datatypes.S k))))
          as [[? ->]|Hd].
        -- rewrite !decide_True; [done|split; [lia|done]|done].
        -- rewrite !decide_False; [done|naive_solver|naive_solver].
      * rewrite (decide_False (P:=level = _ ∧ _)) by naive_solver.
        apply decide_ext. split; intros (Hl & Hrest); (split; [lia|done]).
Qed.

Lemma frontier_ok_append d n f x frontier frontier' :
  frontier_ok d n f frontier → length frontier' = length frontier →
  (∀ level, frontier' !! level =
     if decide ((0 ≤ level < 0 + d)%nat ∧ left_child n level = true ∧ completes n level)
     then Some (node_at (with_leaf f n x) level (N.shiftr n (N.of_nat level)))
     else frontier !! level) →
  frontier_ok d (n + 1) (with_leaf f n x) frontier'.
Proof.
  intros [Hlen Hfr] Hl Hp. split; [lia|]. intros level Hlv Hc. rewrite Hp.
  pose proof (next_left_sibling n level Hc) as Hs. destruct (left_child n level) eqn:En.
  - rewrite decide_True; [by rewrite Hs|]. split; [lia|]. split; [done|]. unfold completes.
    pose proof (shiftr_range n level). pose proof (shiftr_range (n + 1) level).
    pose proof (pow2_pos level). rewrite Hs in *.
    destruct (N.eq_dec (N.shiftr (n + 1) (N.of_nat level)) 0%N) as [E0|]; [|nia].
    exfalso. apply left_child_false in Hc. lia.
  - rewrite decide_False by naive_solver. rewrite Hs, Hfr by done.
    by rewrite node_at_with_leaf_left.
Qed.

(** The nodes stored after [append], its loop's and the leaf itself at chunk
    level 0. *)
Lemma append_nodes chunk d n f x (nodes nodes' : S) level i :
  (∀ level i, (chunk ≤ level ≤ d)%nat → ((i + 1) * 2 ^ N.of_nat level ≤ n)%N →
     ns_get nodes level i = Some (node_at f level i)) →
  (∀ level i, ns_get nodes' level i =
     if decide ((0 < level ≤ 0 + d)%nat ∧ (chunk ≤ level)%nat ∧ completes n level ∧
                i = N.shiftr n (N.of_nat level))
     then Some (node_at (with_leaf f n x) level i)
     else ns_get (if (chunk =? 0)%nat then ns_set nodes 0 n x else nodes) level i) →
  (chunk ≤ level ≤ d)%nat → ((i + 1) * 2 ^ N.of_nat level ≤ n + 1)%N →
  ns_get nodes' level i = Some (node_at (with_leaf f n x) level i).
Proof.
  intros Hold Hnew Hl Hi. rewrite Hnew. case_decide as Hd; [done|].
  apply complete_next in Hi as [Hi|[-> Hc]].
  - assert (N.shiftr n (N.of_nat level) ≠ i) as Hne.
    { intros <-. pose proof (shiftr_range n level). lia. }
    unfold with_leaf. rewrite node_at_insert by done. rewrite <-Hold by done.
    destruct (Nat.eqb_spec chunk 0); [|done]. rewrite ns_get_set, decide_False; [done|].
    intros [= -> ->]. rewrite N.mul_1_r in Hi. lia.
  - destruct level as [|level]; [|exfalso; apply Hd; repeat split; done || lia].
    replace chunk with 0%nat by lia. simpl. rewrite N.shiftr_0_r, ns_get_set, decide_True by done.
    unfold with_leaf. by rewrite decide_True.
Qed.

(** [append] adds its leaf to the tree. *)
Lemma append_spec t f x :
  tree_ok t f → (tree_size t < 2 ^ N.of_nat (it_depth t))%N → field x →
  ∃ t', append t x = Ok t' ∧ tree_ok t' (with_leaf f (tree_size t) x) ∧
    tree_size t' = (tree_size t + 1)%N ∧ it_depth t' = it_depth t ∧
    it_chunk_level t' = it_chunk_level t.
Proof.
  intros Ht Hn Hx. unfold append, tree_sealed, tree_capacity. rewrite N.shiftl_1_l.
  rewrite (proj2 (N.eqb_neq _ _)) by lia. cbn [negb demand rbind].
  set (nodes0 := if (it_chunk_level t =? 0)%nat then _ else it_nodes t).
  destruct (append_loop_spec f (tree_size t) x (it_chunk_level t) (it_depth t) 0
    (st_frontier (it_state t)) nodes0) as (fr & nd & Ea & El & Hp & Hnd); try apply Ht; [done|..].
  { apply completes_0. }
  { intros level Hl. apply (to_frontier _ _ Ht). lia. }
  assert (node_at (with_leaf f (tree_size t) x) 0 (N.shiftr (tree_size t) (N.of_nat 0)) = x) as Ex.
  { simpl. unfold with_leaf. by rewrite N.shiftr_0_r, decide_True. }
  rewrite Ex in Ea. rewrite Ea. cbn [rbind].
  assert (2 ^ N.of_nat (it_depth t) ≤ 2 ^ 32)%N as Hcap.
  { apply N.pow_le_mono_r; [done|]. pose proof (to_depth _ _ Ht). lia. }
  rewrite (proj2 (u64_add_Ok _ _ (tree_size t + 1)%N)) by (unfold U64_MAX; lia). cbn [rbind].
  eexists. split; [done|]. split; [|done].
  split; simpl; try apply Ht; unfold tree_size; simpl; fold (tree_size t).
  - lia.
  - eapply frontier_ok_append; [apply Ht|done|done].
  - apply field_with_leaf; [apply Ht|done].
  - apply empty_from_with_leaf, Ht.
  - intros level i Hl Hi. eapply append_nodes; [apply Ht|exact Hnd|lia|done].
Qed.

(** The caller's closure reads the tree's leaves. *)
Definition read_ok (size : N) (f : N → bytes)
    (read : N → N → result OutOfOrder (list bytes)) : Prop :=
  ∀ start count, (start + count ≤ size)%N →
    read start count = Ok ((λ i, f (start + N.of_nat i)%N) <$> seq 0 (N.to_nat count)).

Lemma list_fn_seq (g : nat → bytes) m k :
  list_fn (g <$> seq 0 m) k = if decide (N.to_nat k < m)%nat then g (N.to_nat k) else zeros 32.
Proof.
  unfold list_fn. rewrite list_lookup_fmap. case_decide.
  - by rewrite lookup_seq_lt.
  - by rewrite lookup_seq_ge by lia.
Qed.

(** The levels over one aligned chunk of leaves, full or the last one. *)
Lemma chunk_levels size f read height b m :
  (∀ k, field (f k)) → empty_from size f → read_ok size f read → (height ≤ 32)%nat →
  let start := (b * 2 ^ N.of_nat height)%N in
  (0 < m)%N → (start + m ≤ size)%N → (m = 2 ^ N.of_nat height ∨ start + m = size)%N →
  ∃ leaves levels, read start m = Ok leaves ∧ subtree leaves height = Ok levels ∧
    ∀ j, (j ≤ height)%nat → ∃ l, levels !! j = Some l ∧ (0 < length l)%nat ∧
      ∀ k, (k < 2 ^ N.of_nat (height - j))%N →
        default (zero_at j) (l !! N.to_nat k) =
          node_at f j (b * 2 ^ N.of_nat (height - j) + k).
Proof.
  intros Hf He Hread Hh start Hm Hle Hlast. rewrite (Hread start m) by done.
  set (leaves := _ <$> seq 0 _).
  destruct (subtree_ok leaves height) as (levels & E & Hlv); [done|..].
  { apply Forall_fmap, Forall_forall. intros i _. apply Hf. }
  { intros El%(f_equal length). subst leaves. rewrite length_fmap, length_seq in El. simpl in El. lia. }
  exists leaves, levels. split; [done|]. split; [done|]. intros j Hj.
  destruct (Hlv j Hj) as (l & Hl & Hok & Hpos). exists l. split; [done|]. split; [done|].
  intros k Hk. rewrite Hok, N2Nat.id. apply node_at_shift. intros i Hi.
  assert (2 ^ N.of_nat height = 2 ^ N.of_nat (height - j) * 2 ^ N.of_nat j)%N as Epow.
  { rewrite <-N.pow_add_r. f_equal. lia. }
  subst leaves. rewrite list_fn_seq.
  replace ((b * 2 ^ N.of_nat (height - j) + k) * 2 ^ N.of_nat j + i)%N
    with (start + (k * 2 ^ N.of_nat j + i))%N by (subst start; rewrite Epow; lia).
  case_decide as Hd; [by rewrite N2Nat.id|].
  symmetry. apply He. assert (k * 2 ^ N.of_nat j + i < 2 ^ N.of_nat height)%N by (rewrite Epow; nia).
  lia.
Qed.

(** The branch of [value] that reads leaves. *)
Lemma value_chunk t f read level index (complete : bool) :
  tree_ok t f → read_ok (tree_size t) f read → (level ≤ it_depth t)%nat →
  let start := (index * 2 ^ N.of_nat level)%N in
  let span := (2 ^ N.of_nat level)%N in
  (start < tree_size t)%N → (if complete then start + span ≤ tree_size t
                             else tree_size t < start + span)%N →
  let last := if complete then (start + span)%N else tree_size t in
  (let* leaves := read start (last - start)%N in
   let* levels := subtree leaves level in
   let* top := or_panic (levels !! level) in or_panic (top !! 0%nat)) =
    Ok (node_at f level index).
Proof.
  intros Ht Hread Hl start span Hs Hc last. pose proof (pow2_pos level).
  destruct (chunk_levels (tree_size t) f read level index (last - start))
    as (leaves & levels & Er & Es & Hlv); try apply Ht; try done; subst start span last.
  1: pose proof (to_depth _ _ Ht); lia.
  1-3: destruct complete; lia.
  rewrite Er. cbn [rbind]. rewrite Es. cbn [rbind].
  destruct (Hlv level) as (l & El & Hpos & Hk); [done|]. rewrite El. cbn [or_panic rbind].
  specialize (Hk 0%N). rewrite Nat.sub_diag in Hk. specialize (Hk eq_refl). simpl in Hk.
  rewrite N.mul_1_r, N.add_0_r in Hk. destruct l as [|x l]; [simpl in Hpos; lia|].
  simpl in *. by rewrite Hk.
Qed.

Lemma value_unfold t read level index :
  value t read level index =
    let start := (index * 2 ^ N.of_nat level)%N in
    let span := (2 ^ N.of_nat level)%N in
    if (tree_size t <=? start)%N then zero_hash level
    else if (start + span <=? tree_size t)%N && (it_chunk_level t <=? level)%nat
    then or_panic (ns_get (it_nodes t) level index)
    else if (level <=? it_chunk_level t)%nat then
      let last := if (start + span <=? tree_size t)%N then (start + span)%N else tree_size t in
      let* leaves := read start (last - start)%N in
      let* levels := subtree leaves level in
      let* top := or_panic (levels !! level) in or_panic (top !! 0%nat)
    else match level with
         | O => Panic
         | Datatypes.S level =>
             let* l := value t read level (index * 2)%N in
             let* r := value t read level (index * 2 + 1)%N in node l r
         end.
Proof. destruct level; cbn [value]; by rewrite N.shiftl_1_l, N.shiftl_mul_pow2. Qed.

(** [value] computes the node of the reference tree. *)
Lemma value_spec t f read level index :
  tree_ok t f → read_ok (tree_size t) f read → (level ≤ it_depth t)%nat →
  value t read level index = Ok (node_at f level index).
Proof.
  intros Ht Hread. pose proof (to_depth _ _ Ht) as Hd.
  revert index. induction level as [level IH] using lt_wf_ind; intros index Hl.
  rewrite value_unfold. cbv zeta.
  destruct (N.leb_spec (tree_size t) (index * 2 ^ N.of_nat level)) as [Hs|Hs].
  { unfold zero_hash. rewrite zero_at_lookup by lia. simpl or_panic.
    by rewrite (node_at_empty f (tree_size t)) by (done || lia || apply Ht). }
  pose proof (value_chunk t f read level index) as Hchunk.
  destruct (N.leb_spec (index * 2 ^ N.of_nat level + 2 ^ N.of_nat level) (tree_size t)) as [Hc|Hc];
    simpl andb.
  - destruct (Nat.leb_spec (it_chunk_level t) level) as [H0|H0].
    + rewrite (to_nodes _ _ Ht) by lia. done.
    + rewrite (proj2 (Nat.leb_le _ _)) by lia. by apply (Hchunk true).
  - destruct (Nat.leb_spec level (it_chunk_level t)) as [H0|H0]; [by apply (Hchunk false)|].
    destruct level as [|level]; [lia|]. rewrite !IH by lia. cbn [rbind node_at].
    rewrite (N.mul_comm index). apply node_Ok; apply field_node_at, Ht.
Qed.

(** ** Witnesses *)

Lemma root_from_path_Ok leaf index siblings :
  field leaf → Forall field siblings →
  root_from_path leaf index siblings = Ok (climb_path leaf index 0 siblings).
Proof.
  unfold root_from_path. generalize 0%nat. revert leaf.
  induction siblings as [|sib siblings IH]; intros leaf level Hl Hs; [done|].
  apply Forall_cons in Hs as [Hsib Hs]. cbn [path_loop climb_path].
  destruct (left_child index level); rewrite node_Ok by done; cbn [rbind]; by apply IH; auto.
Qed.

(** The siblings a witness takes from its leaf's chunk. *)
Lemma low_siblings size f read height index :
  (∀ k, field (f k)) → empty_from size f → read_ok size f read → (height ≤ 32)%nat →
  (index < size)%N →
  let start := N.shiftl (N.shiftr index (N.of_nat height)) (N.of_nat height) in
  let last := N.min (start + N.shiftl 1 (N.of_nat height)) size in
  ∃ leaves levels, read start (last - start)%N = Ok leaves ∧ subtree leaves height = Ok levels ∧
    mapM_result
      (λ level,
         let sib := N.lxor (N.shiftr (index - start) (N.of_nat level)) 1 in
         let* nodes := or_panic (levels !! level) in
         match nodes !! N.to_nat sib with
         | Some v => Ok v
         | None => zero_hash level
         end) (seq 0 height) =
      Ok ((λ level, node_at f level (sibling index level)) <$> seq 0 height).
Proof.
  intros Hf He Hread Hh Hi. rewrite N.shiftl_1_l, N.shiftl_mul_pow2. cbv zeta.
  set (b := N.shiftr index (N.of_nat height)).
  pose proof (shiftr_range index height) as Hrange. fold b in Hrange.
  destruct (chunk_levels size f read height b
    (N.min (b * 2 ^ N.of_nat height + 2 ^ N.of_nat height) size - b * 2 ^ N.of_nat height))
    as (leaves & levels & Er & Es & Hlv); try done; [lia..|].
  exists leaves, levels. split; [done|]. split; [done|].
  rewrite <-(list_fmap_id (seq 0 height)) at 1. apply mapM_result_map, Forall_forall.
  intros level Hl%elem_of_seq. unfold id.
  destruct (Hlv level) as (l & El & _ & Hk); [lia|]. rewrite El. cbn [or_panic rbind].
  destruct (sibling_in_chunk index height level) as [Hc Hsib]; [lia|]. fold b in Hc, Hsib.
  rewrite Hsib, <-Hk by done. destruct (l !! N.to_nat _); [done|]. unfold zero_hash.
  rewrite zero_at_lookup by lia. reflexivity.
Qed.

(** [witness] returns the path of the reference tree, so it recomputes the
    root from the leaf at that index. *)
Lemma witness_spec t f read index :
  tree_ok t f → read_ok (tree_size t) f read → (index < tree_size t)%N →
  ∃ siblings,
    witness t index read = Ok {| mp_root := node_at f (it_depth t) 0; mp_siblings := siblings |} ∧
    length siblings = it_depth t ∧
    root_from_path (f index) index siblings = Ok (node_at f (it_depth t) 0).
Proof.
  intros Ht Hread Hi.
  pose proof (to_depth _ _ Ht) as Hd. pose proof (to_chunk _ _ Ht) as Hch.
  set (siblings := (λ level, node_at f level (sibling index level)) <$> seq 0 (it_depth t)).
  exists siblings. split; [|split].
  - unfold witness. rewrite (proj2 (N.ltb_lt _ _)) by done. unfold demand. rewrite rbind_ok_l.
    destruct (low_siblings (tree_size t) f read (it_chunk_level t) index)
      as (leaves & levels & Er & Es & Elow); try apply Ht; try done; [lia|].
    cbv zeta in Er, Elow |- *. rewrite Er, rbind_ok_l, Es, rbind_ok_l, Elow, rbind_ok_l.
    rewrite <-(list_fmap_id (seq (it_chunk_level t) _)) at 1.
    rewrite (mapM_result_map _ id (λ level, node_at f level (sibling index level))).
    + rewrite rbind_ok_l, (value_spec t f), rbind_ok_l by done. do 2 f_equal.
      subst siblings. rewrite <-fmap_app, <-(seq_app (it_chunk_level t) _ 0). do 2 f_equal. lia.
    + apply Forall_forall. intros level Hl%elem_of_seq. unfold id.
      rewrite (value_spec t f) by (done || lia). by rewrite sibling_lxor.
  - subst siblings. by rewrite length_fmap, length_seq.
  - rewrite root_from_path_Ok; [|apply Ht|].
    2:{ apply Forall_fmap, Forall_forall. intros level _. apply field_node_at, Ht. }
    pose proof (climb_path_node_at f index 0 siblings) as Hp. simpl in Hp.
    rewrite N.shiftr_0_r in Hp. rewrite Hp.
    + subst siblings. rewrite length_fmap, length_seq. do 2 f_equal.
      apply shiftr_unique. pose proof (to_size _ _ Ht). lia.
    + intros j sib. subst siblings. rewrite list_lookup_fmap_Some.
      intros (l & -> & [-> _]%lookup_seq). done.
Qed.
End tree.
