(* ===== verification/Adapter.v ===== *)
(** * perch-zk-adapter: checking ZK evidence

    Models [crates/perch-zk-adapter/src/contract.rs].  The verification key is
    a file the build embeds and the UltraHonk verifier is vendored third-party
    code, so both are the class [ProofSystem]; the pool an account enrolled
    with is whatever lives at its address, so its answer is the class
    [PoolCall] ([None] is a call that fails).  The adapter keeps no state. *)

From S2P Require Import Prelude Host RecoveryIface ZkPrimitives.
#[local] Open Scope list_scope.

Definition ADAPTER_VERSION : N := 1.
Definition CIRCUIT_DEPTH : N := 32.
Definition PROOF_BYTES : N := 507 * 32.

(** [perch-recovery-interface]'s [zk.rs]. *)
Inductive ZkAdapterError : Type :=
| CircuitMismatch | InvalidStatement | NonCanonicalField | UnknownRoot | PoolUnavailable
| MalformedProof | ProofRejected | VerifierUnavailable.

Inductive ProofVerifierError : Type := VkParseError | ProofParseError | VerificationFailed.

Class ProofSystem : Type := {
  VK : bytes;
  UltraHonkZkVerifier : Type;
  verifier_new : bytes → option UltraHonkZkVerifier;
  (** [verify(proof, inputs).is_ok()]. *)
  verifier_verify : UltraHonkZkVerifier → bytes → bytes → bool;
}.

Class PoolCall `{H : Host} : Type :=
  try_is_known_root : Address → N → bytes → option bool.

Section adapter.
Context {H : Host} {P : Poseidon2} {PS : ProofSystem} {PC : PoolCall}.

Definition adapter_version : N := ADAPTER_VERSION.
Definition tree_depth : N := CIRCUIT_DEPTH.
Definition vk : bytes := VK.
Definition circuit_id : bytes := sha256 vk.
Definition verifier : option UltraHonkZkVerifier := verifier_new VK.

Definition verify (statement : RecoveryStatement) (binding : ZkBinding) (evidence : ZkEvidence)
  : result ZkAdapterError unit :=
  refuse_if (negb (bool_decide (zb_circuit_id binding = circuit_id))) CircuitMismatch ;;;
  let* fields := map_err (λ _, InvalidStatement)
                   (zk_statement_fields statement (zb_enrollment_id binding)) in
  refuse_if (negb (is_canonical_field (root evidence)) ||
             negb (is_canonical_field (nullifier evidence))) NonCanonicalField ;;;
  refuse_if (negb (slen (proof evidence) =? PROOF_BYTES)%N) MalformedProof ;;;
  match try_is_known_root (zb_pool binding) (tree_id evidence) (root evidence) with
  | Some true => Ok tt
  | Some false => Err UnknownRoot
  | None => Err PoolUnavailable
  end ;;;
  let* statement_hash := statement_hash fields in
  let inputs := public_inputs (root evidence) (nullifier evidence) statement_hash in
  let* verifier := ok_or verifier VerifierUnavailable in
  refuse_if (negb (verifier_verify verifier (proof evidence) inputs)) ProofRejected.

Definition verify_proof (public_inputs proof_bytes : bytes) : result ProofVerifierError unit :=
  refuse_if (negb (slen proof_bytes =? PROOF_BYTES)%N) ProofParseError ;;;
  let* verifier := ok_or verifier VkParseError in
  refuse_if (negb (verifier_verify verifier proof_bytes public_inputs)) VerificationFailed.
End adapter.

(** ** What an accepted proof was checked against *)

Section adapter_facts.
Context {H : Host} `{PL : Poseidon2Laws} {PS : ProofSystem} {PC : PoolCall}.

(** The statement hash of a statement under an enrollment. *)
Definition projected (statement : RecoveryStatement) (enrollment_id h : bytes) : Prop :=
  ∃ fields, zk_statement_fields statement enrollment_id = Ok fields ∧
    statement_hash (E:=ZkAdapterError) fields = Ok h.

Lemma verify_Ok statement binding evidence :
  verify statement binding evidence = Ok tt ↔
  zb_circuit_id binding = circuit_id ∧
  is_canonical_field (root evidence) = true ∧ is_canonical_field (nullifier evidence) = true ∧
  slen (proof evidence) = PROOF_BYTES ∧
  try_is_known_root (zb_pool binding) (tree_id evidence) (root evidence) = Some true ∧
  ∃ h v, projected statement (zb_enrollment_id binding) h ∧ verifier = Some v ∧
    verifier_verify v (proof evidence)
      (public_inputs (root evidence) (nullifier evidence) h) = true.
Proof.
  unfold verify. split.
  - intros Hv. apply rbind_Ok in Hv as (_ & Hc%refuse_if_Ok & Hv).
    apply rbind_Ok in Hv as (fields & Hf%map_err_Ok & Hv).
    apply rbind_Ok in Hv as (_ & Hcan%refuse_if_Ok & Hv).
    apply rbind_Ok in Hv as (_ & Hlen%refuse_if_Ok & Hv).
    apply rbind_Ok in Hv as ([] & Hpool & Hv).
    apply rbind_Ok in Hv as (h & Hh & Hv).
    apply rbind_Ok in Hv as (v & Hver%ok_or_Ok & Hv%refuse_if_Ok).
    apply negb_false_iff, bool_decide_eq_true in Hc.
    apply orb_false_iff in Hcan as [H1%negb_false_iff H2%negb_false_iff].
    apply negb_false_iff, N.eqb_eq in Hlen. apply negb_false_iff in Hv.
    repeat (split; [done|]). split.
    + destruct (try_is_known_root _ _ _) as [[]|]; done.
    + exists h, v. repeat split; try done. by exists fields.
  - intros (-> & H1 & H2 & H3 & H4 & h & v & (fields & Hf & Hh) & Hv & Hp).
    rewrite bool_decide_true by done. cbn [negb refuse_if rbind]. rewrite Hf. cbn [map_err rbind].
    rewrite H1, H2, H3, N.eqb_refl, H4. cbn [negb orb refuse_if rbind]. rewrite Hh. cbn [rbind].
    rewrite Hv. cbn [ok_or rbind]. by rewrite Hp.
Qed.
End adapter_facts.
