(* ===== verification/ZkCompose.v ===== *)
(** * Pool, prover and adapter together

    A witness index that ingests the events of a pool follows its trees; so
    anyone enrolled can rebuild, from public data, a path to a root the pool
    accepts, and inputs the adapter accepts a proof for.  Conversely a path to
    a known root starts at a leaf some account enrolled, or exhibits a
    collision of the hash. *)

From S2P Require Import Prelude Host RecoveryIface ZkPrimitives Merkle Pool PoolFacts PoolRuns PoolSafety Prover ProverFacts Adapter.
#[local] Open Scope list_scope.

Section replay.
Context {H : Host} `{PL : Poseidon2Laws}.

(** The [LeafInserted] event as the prover reads it. *)
Definition event_insertion (ev : LeafInserted) : Insertion :=
  {| in_tree_id := li_tree_id ev; in_index := li_index ev; in_leaf := li_leaf ev |}.

(** Ingest a list of insertions, stopping at the first one refused. *)
Fixpoint ingest_all (x : PoolWitnessIndex) (l : list Insertion)
  : result OutOfOrder PoolWitnessIndex :=
  match l with
  | [] => Ok x
  | i :: l => let* ' (x, r) := ingest x i in r ;;; ingest_all x l
  end.

Lemma ingest_all_app x l k :
  ingest_all x (l ++ k) = let* x := ingest_all x l in ingest_all x k.
Proof.
  revert x. induction l as [|i l IH]; intros x; [done|]. cbn [app ingest_all].
  rewrite !rbind_assoc. apply rbind_ext. intros [y r] _. rewrite !rbind_assoc.
  apply rbind_ext. intros _ _. apply IH.
Qed.

(** The index holds the pool's trees. *)
Record index_ok (depth chunk : nat) (x : PoolWitnessIndex) (v : pool_view) : Prop := {
  io_depth : pw_depth x = depth;
  io_chunk : pw_chunk_level x = chunk;
  io_current : pw_current x = pv_current v;
  io_tree t tr : pw_trees x !! t = Some tr →
    tree_ok tr (leaf_fn v t) ∧ tree_size tr = size_of v t ∧ it_depth tr = depth;
  io_none t : pw_trees x !! t = None → size_of v t = 0%N;
}.

Lemma new_tree_ok depth chunk f :
  (depth ≤ 32)%nat → (∀ k, field (f k)) → empty_from 0 f →
  ∃ tr, IncrementalTree_new depth chunk = Ok tr ∧ tree_ok tr f ∧ tree_size tr = 0%N ∧
    it_depth tr = depth.
Proof.
  intros Hd Hf He. unfold IncrementalTree_new, with_store. rewrite (proj2 (Nat.leb_le _ _)) by done.
  eexists. split; [done|]. split; [|done]. split; unfold tree_size; simpl; try done; try lia.
  split; [rewrite length_take, zero_hashes_length; lia|]. intros level _ Hl.
  apply left_child_false in Hl. rewrite !N.shiftr_0_l in Hl. lia.
Qed.

(** The tree [ingest] appends to. *)
Lemma current_tree_ok depth chunk x v :
  (depth ≤ 32)%nat → pool_ok (N.of_nat depth) v → index_ok depth chunk x v →
  ∃ tr, match pw_trees x !! pw_current x with
        | Some tr => Ok tr
        | None => IncrementalTree_new (pw_depth x) (pw_chunk_level x)
        end = Ok tr ∧ tree_ok tr (leaf_fn v (pv_current v)) ∧
    tree_size tr = size_of v (pv_current v) ∧ it_depth tr = depth.
Proof.
  intros Hd Hv Hx. rewrite (io_current _ _ _ _ Hx).
  destruct (pw_trees x !! pv_current v) as [tr|] eqn:E.
  - exists tr. split; [done|]. by apply (io_tree _ _ _ _ Hx) in E.
  - apply (io_none _ _ _ _ Hx) in E as E0. rewrite (io_depth _ _ _ _ Hx).
    rewrite E0. apply new_tree_ok; [done| |].
    + intros k. by eapply field_leaf_fn.
    + rewrite <-E0. by eapply leaf_fn_empty.
Qed.

Lemma tree_ok_proper {S} {NS : NodeStore S} (tr : IncrementalTree S) f g :
  pointwise_relation N (=) f g → tree_ok tr f → tree_ok tr g.
Proof.
  intros Hfg Ht. split; try apply Ht.
  - eapply frontier_ok_proper; [done|apply Ht].
  - intros k. rewrite <-Hfg. apply Ht.
  - intros k Hk. rewrite <-Hfg. by apply Ht.
  - intros level i Hl Hi. rewrite <-Hfg. by apply Ht.
Qed.

Lemma with_tree_ok depth chunk x v a id leaf frontier tr' :
  index_ok depth chunk x v →
  tree_ok tr' (with_leaf (leaf_fn v (pv_current v)) (size_of v (pv_current v)) leaf) →
  tree_size tr' = (size_of v (pv_current v) + 1)%N → it_depth tr' = depth →
  let w := inserted (N.of_nat depth) v a id leaf frontier in
  index_ok depth chunk (with_tree x tr' (pv_current w)) w.
Proof.
  intros Hx Ht Hs Hd w.
  assert (∀ t, pw_trees (with_tree x tr' (pv_current w)) !! t =
    if decide (t = pv_current v) then Some tr' else pw_trees x !! t) as Hl.
  { intros t. simpl. rewrite (io_current _ _ _ _ Hx). case_decide as E; [subst t; apply lookup_insert_eq|].
    by rewrite lookup_insert_ne. }
  split; try apply Hx; try done.
  - intros t tr. rewrite Hl. unfold w. rewrite size_of_inserted. case_decide as E; intros Htr.
    + injection Htr as <-. subst t. split; [|done]. eapply tree_ok_proper; [|exact Ht].
      intros k. by rewrite leaf_fn_inserted, decide_True.
    + apply (io_tree _ _ _ _ Hx) in Htr as (Htr & ? & ?). split; [|done].
      eapply tree_ok_proper; [|exact Htr]. intros k. by rewrite leaf_fn_inserted, decide_False.
  - intros t. rewrite Hl. unfold w. rewrite size_of_inserted. case_decide; [done|]. apply Hx.
Qed.

(** One insertion into the pool, one event ingested. *)
Lemma ingest_inserted depth chunk x v a id leaf frontier ev :
  (depth ≤ 32)%nat → pool_ok (N.of_nat depth) v →
  pool_ok (N.of_nat depth) (inserted (N.of_nat depth) v a id leaf frontier) →
  index_ok depth chunk x v →
  event_insertion ev = {| in_tree_id := pv_current v; in_index := size_of v (pv_current v);
                          in_leaf := leaf |} →
  ∃ x', ingest x (event_insertion ev) = Ok (x', Ok tt) ∧
    index_ok depth chunk x' (inserted (N.of_nat depth) v a id leaf frontier).
Proof.
  intros Hd Hv Hw Hx ->. set (w := inserted _ v a id leaf frontier) in *.
  destruct (current_tree_ok depth chunk x v Hd Hv Hx) as (tr & Etr & Ht & Hs & Hdep).
  pose proof (po_room _ _ Hv) as Hroom. rewrite capacity_nat, Nat2N.id in Hroom.
  assert (field leaf) as Hleaf.
  { eapply (po_field _ _ Hw (pv_current v) (size_of v (pv_current v))). apply lookup_insert_eq. }
  destruct (append_spec tr _ leaf Ht) as (tr' & Ea & Ht' & Hs' & Hd' & Hc'); [by rewrite Hs, Hdep|done|].
  unfold ingest. rewrite Etr. cbn [rbind in_tree_id in_index in_leaf].
  rewrite (io_current _ _ _ _ Hx), Hs, !N.eqb_refl. cbn [negb orb]. rewrite Ea. cbn [rbind].
  assert (index_ok depth chunk (with_tree x tr' (pv_current w)) w) as Hok.
  { apply with_tree_ok; [done|by rewrite <-Hs|by rewrite <-Hs|by rewrite Hd']. }
  unfold tree_sealed, tree_capacity. rewrite Hs', Hs, Hd', Hdep. fold (capacity (N.of_nat depth)).
  pose proof (po_current _ _ Hw) as Hcur. unfold w in Hok, Hcur. rewrite current_inserted in Hok, Hcur.
  destruct (size_of v (pv_current v) + 1 =? capacity (N.of_nat depth))%N.
  - unfold u32_add. rewrite (proj2 (N.leb_le _ _)) by done. cbn [rbind]. by eexists.
  - by eexists.
Qed.

Lemma published_inserted depth v a id leaf frontier :
  ∃ ev, pv_published (inserted depth v a id leaf frontier) = pv_published v ++ [ev] ∧
    event_insertion ev = {| in_tree_id := pv_current v; in_index := size_of v (pv_current v);
                            in_leaf := leaf |}.
Proof. eexists. split; done. Qed.

(** Replaying a pool's events never fails and yields its trees. *)
Lemma replay_ok depth chunk st :
  (depth ≤ 32)%nat → pool_reachable (N.of_nat depth) st →
  ∃ x, ingest_all (PoolWitnessIndex_new depth chunk) (event_insertion <$> published st) = Ok x ∧
    index_ok depth chunk x (view_of st).
Proof.
  intros Hd. apply (rtc_ind_r (λ st, ∃ x, ingest_all (PoolWitnessIndex_new depth chunk)
    (event_insertion <$> published st) = Ok x ∧ index_ok depth chunk x (view_of st))).
  { eexists. split; [done|]. rewrite view_of_empty. split; try done. }
  intros s s' Hr Hs (x & Ex & Hx).
  assert (N.of_nat depth ≤ 32)%N as HdN by lia.
  pose proof (pool_reachable_ok _ _ HdN Hr) as Hv.
  change (published s') with (pv_published (view_of s')).
  destruct (step_view _ s s' HdN Hv Hs) as [->|(a & id & leaf & fr & Hnew & V & Hok)]; [by exists x|].
  rewrite V in Hok |- *.
  destruct (published_inserted (N.of_nat depth) (view_of s) a id leaf fr) as (ev & -> & Hev).
  change (published s) with (pv_published (view_of s)) in Ex.
  rewrite fmap_app, ingest_all_app, Ex. cbn [rbind ingest_all fmap list_fmap].
  destruct (ingest_inserted depth chunk x (view_of s) a id leaf fr ev) as (x' & Ei & Hx'); [done..|].
  rewrite Ei. cbn [rbind]. by exists x'.
Qed.

Lemma enrolled_inside depth st a id pos :
  pool_ok depth (view_of st) → enrollment a id st = Some pos →
  ∃ acct inner leaf, contract_id a = Some acct ∧ is_canonical inner = true ∧
    ZkPrimitives.leaf (E:=PoolError) acct id inner = Ok leaf ∧
    pv_leaves (view_of st) !! (lp_tree_id pos, lp_index pos) = Some leaf ∧
    leaf_fn (view_of st) (lp_tree_id pos) (lp_index pos) = leaf ∧
    (lp_index pos < size_of (view_of st) (lp_tree_id pos))%N.
Proof.
  intros Hv He. rewrite enrollment_view in He.
  apply (po_enrolled _ _ Hv) in He as (acct & inner & leaf & Ha & Hc & Hl & Hp).
  exists acct, inner, leaf. repeat (split; [done|]). split; [unfold leaf_fn; by rewrite Hp|].
  apply (po_leaf _ _ Hv). by eexists.
Qed.

Lemma current_root_known e depth t st :
  pool_ok depth (view_of st) → (0 < size_of (view_of st) t)%N →
  ∃ st', is_known_root e t (node_at (leaf_fn (view_of st) t) (N.to_nat depth) 0) st = Ok (true, st').
Proof.
  intros Hv Hs. destruct (is_known_root_spec e depth t
    (node_at (leaf_fn (view_of st) t) (N.to_nat depth) 0) st Hv) as (b & st' & E & _ & Hb).
  exists st'. rewrite E. do 2 f_equal. apply Hb. exists (size_of (view_of st) t).
  split; [lia|]. by rewrite root_after_all.
Qed.

(** The witness of an enrolled leaf, from the pool's events and leaves. *)
Lemma enrolled_witness depth chunk st a id pos x read :
  (depth ≤ 32)%nat → pool_ok (N.of_nat depth) (view_of st) → index_ok depth chunk x (view_of st) →
  enrollment a id st = Some pos →
  read_ok (size_of (view_of st) (lp_tree_id pos)) (leaf_fn (view_of st) (lp_tree_id pos)) read →
  ∃ tr leaf siblings,
    let r := node_at (leaf_fn (view_of st) (lp_tree_id pos)) depth 0 in
    index_tree x (lp_tree_id pos) = Some tr ∧
    pv_leaves (view_of st) !! (lp_tree_id pos, lp_index pos) = Some leaf ∧
    witness tr (lp_index pos) read = Ok {| mp_root := r; mp_siblings := siblings |} ∧
    root_from_path leaf (lp_index pos) siblings = Ok r ∧
    ∀ e, ∃ st', is_known_root e (lp_tree_id pos) r st = Ok (true, st').
Proof.
  intros Hd Hv Hx He Hread.
  destruct (enrolled_inside _ _ _ _ _ Hv He) as (acct & inner & leaf & _ & _ & _ & Hp & Hf & Hi).
  unfold index_tree. destruct (pw_trees x !! lp_tree_id pos) as [tr|] eqn:Etr.
  2:{ apply (io_none _ _ _ _ Hx) in Etr. lia. }
  apply (io_tree _ _ _ _ Hx) in Etr as (Ht & Hs & Hdep).
  destruct (witness_spec tr _ read (lp_index pos) Ht) as (siblings & Ew & _ & Erp);
    [by rewrite Hs|by rewrite Hs|]. rewrite Hdep, Hf in *.
  exists tr, leaf, siblings. repeat (split; [done|]). intros e.
  pose proof (current_root_known e _ (lp_tree_id pos) st Hv) as Hk. rewrite Nat2N.id in Hk.
  apply Hk. lia.
Qed.

(** C24: Enrollment is enough to recover: replaying the events of any reachable
    pool is never refused, and for every enrollment the replayed tree's
    witness, read from the pool's leaves, recomputes from the enrolled leaf a
    root the pool accepts. *)
Theorem enrolled_witness_verifies depth chunk st :
  (depth ≤ 32)%nat → pool_reachable (N.of_nat depth) st →
  ∃ x, ingest_all (PoolWitnessIndex_new depth chunk) (event_insertion <$> published st) = Ok x ∧
    ∀ a id pos read, enrollment a id st = Some pos →
      read_ok (size_of (view_of st) (lp_tree_id pos)) (leaf_fn (view_of st) (lp_tree_id pos)) read →
      ∃ tr leaf siblings r,
        index_tree x (lp_tree_id pos) = Some tr ∧
        pv_leaves (view_of st) !! (lp_tree_id pos, lp_index pos) = Some leaf ∧
        witness tr (lp_index pos) read = Ok {| mp_root := r; mp_siblings := siblings |} ∧
        root_from_path leaf (lp_index pos) siblings = Ok r ∧
        ∀ e, ∃ st', is_known_root e (lp_tree_id pos) r st = Ok (true, st').
Proof.
  intros Hd Hr. destruct (replay_ok depth chunk st Hd Hr) as (x & Ex & Hx).
  exists x. split; [done|]. intros a id pos read He Hread.
  destruct (enrolled_witness depth chunk st a id pos x read) as (tr & leaf & siblings & Hall); try done.
  { apply pool_reachable_ok; [lia|done]. }
  eauto.
Qed.
End replay.

(** ** Soundness of paths *)

Section binding.
Context {H : Host} `{PL : Poseidon2Laws}.

(** C23: Membership cannot be claimed without enrollment: a path of the tree's
    depth that recomputes a root the pool knows from a non-zero leaf starts at
    a leaf that some account enrolled at exactly that index, or walking it
    beside the tree finds two different pairs of nodes with one hash. *)
Theorem known_root_binds_enrolled_leaf depth e st st' t r leaf index siblings :
  (depth ≤ 32)%nat → pool_reachable (N.of_nat depth) st →
  is_known_root e t r st = Ok (true, st') →
  field leaf → leaf ≠ zeros 32 → Forall field siblings → length siblings = depth →
  (index < 2 ^ N.of_nat depth)%N → root_from_path leaf index siblings = Ok r →
  ∃ n, (n ≤ size_of (view_of st) t)%N ∧
    match path_collision (first_leaves n (leaf_fn (view_of st) t)) leaf index 0 siblings with
    | None => ∃ a id, enrollment a id st = Some {| lp_tree_id := t; lp_index := index |} ∧
        pv_leaves (view_of st) !! (t, index) = Some leaf
    | Some (p, q) => p ≠ q ∧ node_pair p = node_pair q
    end.
Proof.
  intros Hd Hr Hk Hleaf Hne Hsib Hlen Hi Hpath.
  pose proof (pool_reachable_ok (N.of_nat depth) st ltac:(lia) Hr) as Hv.
  destruct (is_known_root_spec e _ t r st Hv) as (b & s & Eb & _ & Hb).
  rewrite Hk in Eb. injection Eb as <- _. destruct Hb as [Hb _].
  destruct (Hb eq_refl) as (n & Hn & Hrn). exists n. split; [lia|].
  set (f := first_leaves n (leaf_fn (view_of st) t)).
  destruct (path_collision f leaf index 0 siblings) as [[p q]|] eqn:Ec.
  { by eapply path_collision_Some. }
  rewrite root_from_path_Ok in Hpath by done. injection Hpath as Hpath.
  assert (leaf = f index) as Hf.
  { pose proof (path_collision_None f leaf index 0 siblings Ec) as Hp. simpl in Hp.
    rewrite N.shiftr_0_r in Hp. apply Hp. rewrite Hpath, Hrn, Hlen.
    rewrite (shiftr_unique index depth 0) by lia. unfold root_after. by rewrite Nat2N.id. }
  unfold f, first_leaves in Hf. case_decide as Hlt; [|done]. unfold leaf_fn in Hf.
  destruct (pv_leaves (view_of st) !! (t, index)) as [y|] eqn:Ey; [|done]. simpl in Hf. subst y.
  destruct (po_covered _ _ Hv t index) as (a & id & He); [by eexists|].
  exists a, id. by rewrite enrollment_view.
Qed.
End binding.

(** ** From the enrolled secret to accepted evidence *)

Section evidence.
Context {H : Host} `{PL : Poseidon2Laws} {PS : ProofSystem} {PC : PoolCall}.

Lemma field_is_canonical b : field b → is_canonical_field b = true.
Proof. intros [H32 Hb]. by apply is_canonical_field_exact. Qed.

Lemma fields_statement s id acct digest :
  contract_id (rs_account s) = Some acct → statement_digest s = Ok digest →
  zk_statement_fields s id = Ok (fields acct id digest).
Proof. intros Ha Hdg. unfold zk_statement_fields. rewrite Ha. cbn [ok_or rbind]. by rewrite Hdg. Qed.

Lemma hash_any_error {E E'} inputs out : hash (E:=E) inputs = Ok out → hash (E:=E') inputs = Ok out.
Proof. unfold hash. destruct (compute_hash _); [by intros [= <-]|done]. Qed.

Lemma statement_hash_defined {E} acct id digest :
  hash32 acct → hash32 id → hash32 digest →
  ∃ h, statement_hash (E:=E) (fields acct id digest) = Ok h.
Proof.
  intros Ha Hi Hdg. apply hash_defined. destruct domains_fields as (_ & _ & _ & ?).
  unfold auth_preimage, fields. rewrite !Forall_cons, Forall_nil.
  repeat (split; [first [done|apply field_half; done || lia]|]). done.
Qed.

Lemma nullifier_defined {E} acct id secret :
  hash32 acct → hash32 id → field secret → ∃ h, hasher_nullifier (E:=E) acct id secret = Ok h.
Proof.
  intros Ha Hi Hs. apply hash_defined. destruct domains_fields as (_ & _ & ? & _).
  rewrite !Forall_cons, Forall_nil.
  repeat (split; [first [done|apply field_half; done || lia]|]). done.
Qed.

(** The pool an account enrolled with, at its address. *)
Definition pool_at (addr : Address) (st : PoolStorage) : Prop :=
  ∃ e, ∀ t r, try_is_known_root addr t r = fst <$> ok (is_known_root e t r st).

(** What the prover computes for an enrolled secret: the leaf it enrolled. *)
Lemma Inputs_new_enrolled secret acct id inner leaf digest index siblings r :
  hash32 acct → hash32 id → hash32 digest → field secret →
  commitment (E:=OutOfOrder) secret = Ok inner →
  ZkPrimitives.leaf (E:=PoolError) acct id inner = Ok leaf →
  root_from_path leaf index siblings = Ok r →
  ∃ inputs nf h, Inputs_new secret acct id digest index siblings = Ok inputs ∧
    ip_root inputs = r ∧ ip_nullifier inputs = nf ∧ ip_statement_hash inputs = h ∧ field nf ∧
    statement_hash (E:=ZkAdapterError) (fields acct id digest) = Ok h.
Proof.
  intros Ha Hi Hdg Hs Hc Hl Hr.
  destruct (nullifier_defined (E:=OutOfOrder) acct id secret Ha Hi Hs) as [nf Hnf].
  destruct (statement_hash_defined (E:=OutOfOrder) acct id digest Ha Hi Hdg) as [h Hh].
  unfold Inputs_new. rewrite Hc. cbn [rbind].
  rewrite (hash_any_error _ _ Hl : ZkPrimitives.leaf acct id inner = Ok leaf). cbn [rbind].
  rewrite Hr. cbn [rbind]. rewrite Hnf. cbn [rbind]. rewrite Hh. cbn [rbind].
  eexists _, nf, h. split; [done|]. repeat (split; [done|]).
  split; [exact (hash_field _ _ Hnf)|]. exact (hash_any_error _ _ Hh).
Qed.

(** C25: A recovery can be proved: for an account that enrolled the commitment
    of [secret] in its pool, the inputs the prover builds from the pool's
    public data name the account's statement, and whenever the proof system
    accepts a proof for the prover's public inputs the adapter accepts the
    evidence for that statement. *)
Theorem prover_evidence_accepted depth chunk st s b acct digest secret inner pos x read :
  (depth ≤ 32)%nat → pool_reachable (N.of_nat depth) st → pool_at (zb_pool b) st →
  zb_circuit_id b = circuit_id → hash32 (zb_enrollment_id b) →
  contract_id (rs_account s) = Some acct → statement_digest s = Ok digest → hash32 digest →
  field secret → commitment (E:=OutOfOrder) secret = Ok inner →
  enrollment (rs_account s) (zb_enrollment_id b) st = Some pos →
  (∀ leaf, ZkPrimitives.leaf (E:=PoolError) acct (zb_enrollment_id b) inner = Ok leaf →
     pv_leaves (view_of st) !! (lp_tree_id pos, lp_index pos) = Some leaf) →
  ingest_all (PoolWitnessIndex_new depth chunk) (event_insertion <$> published st) = Ok x →
  read_ok (size_of (view_of st) (lp_tree_id pos)) (leaf_fn (view_of st) (lp_tree_id pos)) read →
  ∃ tr path inputs, index_tree x (lp_tree_id pos) = Some tr ∧
    witness tr (lp_index pos) read = Ok path ∧
    Inputs_new secret acct (zb_enrollment_id b) digest (lp_index pos) (mp_siblings path) = Ok inputs ∧
    ∀ v pf, verifier = Some v → slen pf = PROOF_BYTES →
      verifier_verify v pf (Inputs_public_inputs inputs) = true →
      verify s b {| tree_id := lp_tree_id pos; RecoveryIface.root := ip_root inputs;
                    nullifier := ip_nullifier inputs; proof := pf |} = Ok tt.
Proof.
  intros Hd Hr [e Hpool] Hcirc Hid Ha Hdg H32 Hs Hc He Hl Hx Hread.
  pose proof (pool_reachable_ok (N.of_nat depth) st ltac:(lia) Hr) as Hv.
  destruct (replay_ok depth chunk st Hd Hr) as (x' & Ex & Hok). rewrite Hx in Ex. injection Ex as <-.
  destruct (enrolled_witness depth chunk st _ _ pos x read Hd Hv Hok He Hread)
    as (tr & leaf & siblings & Etr & Hp & Ew & Erp & Hk).
  destruct (leaf_defined (E:=PoolError) acct (zb_enrollment_id b) inner) as [leaf' Hl'];
    [by eapply length_contract_id|done|exact (hash_field _ _ Hc)|].
  pose proof (Hl leaf' Hl') as Hp'. rewrite Hp in Hp'. injection Hp' as <-.
  destruct (Inputs_new_enrolled secret acct (zb_enrollment_id b) inner leaf digest (lp_index pos)
    siblings _ ltac:(by eapply length_contract_id) Hid H32 Hs Hc Hl' Erp)
    as (inputs & nf & h & Ei & Eroot & Enf & Eh & Hnf & Hh).
  exists tr. eexists _, inputs. split; [done|]. split; [exact Ew|]. split; [done|].
  intros v pf Hver Hlen Hacc. apply verify_Ok. cbn [RecoveryIface.root nullifier proof tree_id].
  split; [done|]. rewrite Eroot, Enf. split; [|split; [by apply field_is_canonical|]].
  { apply field_is_canonical, field_node_at. intros k. by eapply field_leaf_fn. }
  split; [done|]. split.
  - rewrite Hpool. destruct (Hk e) as [st' ->]. done.
  - exists h, v. split; [|split; [done|]].
    + exists (fields acct (zb_enrollment_id b) digest). split; [by apply fields_statement|done].
    + unfold Inputs_public_inputs in Hacc. by rewrite Eroot, Enf, Eh in Hacc.
Qed.
End evidence.
