(* ===== verification/ZkDemo.v ===== *)
(** * A small pool, run

    A Poseidon2 stand-in that satisfies [Poseidon2Laws], a pool of depth 1
    that two accounts fill and roll over, and a proof system: the hypotheses of
    the pool's, the prover's and the adapter's theorems hold together. *)

From S2P Require Import Prelude Host RecoveryIface ZkPrimitives Merkle Pool PoolFacts PoolRuns PoolSafety Prover ProverFacts Adapter ZkCompose.
#[local] Open Scope string_scope.
#[local] Open Scope list_scope.

(** ** A hash with the right zero table *)

Fixpoint next_zero (a : N) (table : list N) : option N :=
  match table with
  | x :: (y :: _) as table => if (x =? a)%N then Some y else next_zero a table
  | _ => None
  end.
Definition zero_values : list N := Eval vm_compute in be_value <$> ZERO_HASHES.

Definition demo_sponge (l : list N) : N :=
  foldl (λ acc x, acc * 37 + x + 1)%N (N.of_nat (length l)) l.

#[local] Instance DemoPoseidon : Poseidon2 := λ l,
  if forallb (λ x, x <? SCALAR_MODULUS)%N l then
    Some (match l with
          | [a; b] => if (a =? b)%N then default (demo_sponge l) (next_zero a zero_values)
                      else demo_sponge l
          | _ => demo_sponge l
          end mod SCALAR_MODULUS)%N
  else None.

#[local] Instance DemoPoseidonLaws : Poseidon2Laws.
Proof.
  split.
  - intros l v. unfold compute_hash, DemoPoseidon. case_match; [|done]. intros [= <-].
    apply N.mod_lt. done.
  - intros l Hl. unfold compute_hash, DemoPoseidon.
    replace (forallb _ l) with true; [by eexists|]. symmetry.
    apply Is_true_true, forallb_True.
    eapply Forall_impl; [exact Hl|]. intros x Hx. by apply Is_true_true, N.ltb_lt.
  - intros i z z' Hz Hz'.
    assert (Forall (λ p : bytes * bytes, compute_hash [be_value p.1; be_value p.1] = Some (be_value p.2))
      (zip ZERO_HASHES (tail ZERO_HASHES))) as Ht.
    { apply (bool_decide_unpack _). vm_compute. done. }
    apply (Forall_lookup_1 _ _ i (z, z')) in Ht; [done|].
    apply lookup_zip_with_Some. exists z, z'. split; [done|]. split; [done|].
    by rewrite lookup_tail.
Qed.

(** ** A host, two accounts and their insertions *)

Definition ZkHost : Host := {|
  Address := string;
  address_from_str s := Some s;
  address_to_xdr s := s;
  symbol_new s := Some s;
  Val := unit;
  val_address _ := None; val_symbol _ := None; val_string _ := None; val_bytes _ := None;
  val_u32 _ := None; val_i128 _ := None;
  sha256 s := demo_digest 32 (demo_mix s 0);
|}.
#[local] Existing Instance ZkHost.

Definition account_n (n : N) : Address := CONTRACT_HEADER +:+ be_bytes 32 n.
Definition zk_env : Env := {|
  sequence := 10; network_id := zeros 32; current_contract_address := account_n 9;
  authorized _ := true; authorized_for_args _ _ := true;
  Host.max_ttl := 1000; min_persistent_ttl := 10; min_temp_ttl := 5 |}.

Definition secret_n (n : N) : bytes := be_bytes 32 (1000 + n).
Definition commitment_n (n : N) : bytes :=
  match commitment (E:=unit) (secret_n n) with Ok c => c | _ => "" end.

Definition insert_op (n : N) : Env * pool_op :=
  (zk_env, Op_rcv_insert (account_n (n mod 2)) (be_bytes 32 (n / 2)) (commitment_n n)).

(** Run a list of operations, all of which succeed. *)
Fixpoint pool_run (depth : N) (ops : list (Env * pool_op)) (st : PoolStorage)
  : result PoolError PoolStorage :=
  match ops with
  | [] => Ok st
  | (e, op) :: ops => let* st := pool_step e depth op st in pool_run depth ops st
  end.

Lemma pool_run_rtc depth ops st st' :
  Forall (λ p, op_typed p.2) ops → pool_run depth ops st = Ok st' →
  rtc (pool_next depth) st st'.
Proof.
  intros Ht. revert st. induction Ht as [|[e op] ops Hop _ IH]; intros st; [by intros [= ->]|].
  cbn [pool_run]. intros (s & Es & Hs)%rbind_Ok. eapply rtc_l; [by exists e, op|by apply IH].
Qed.

Definition pool_after (n : nat) : PoolStorage :=
  match pool_run 1 (insert_op ∘ N.of_nat <$> seq 0 n) empty_pool with
  | Ok st => st
  | _ => empty_pool
  end.

(** Three insertions: the first tree is full and sealed, the second has one leaf. *)
Lemma pool_after_run n :
  is_ok (pool_run 1 (insert_op ∘ N.of_nat <$> seq 0 n) empty_pool) = true →
  pool_run 1 (insert_op ∘ N.of_nat <$> seq 0 n) empty_pool = Ok (pool_after n).
Proof. unfold pool_after. by destruct (pool_run _ _ _). Qed.
Lemma demo_run : pool_run 1 (insert_op ∘ N.of_nat <$> seq 0 3) empty_pool = Ok (pool_after 3).
Proof. apply pool_after_run. vm_compute. reflexivity. Qed.
Lemma demo_state :
  current_tree (pool_after 3) = 1%N ∧ length (published (pool_after 3)) = 3%nat.
Proof. vm_compute. done. Qed.

Lemma demo_typed : Forall (λ p : Env * pool_op, op_typed p.2) (insert_op ∘ N.of_nat <$> seq 0 3).
Proof. repeat (constructor; [split; vm_compute; reflexivity|]). constructor. Qed.

Lemma demo_pool_reachable : pool_reachable 1 (pool_after 3).
Proof. exact (pool_run_rtc 1 _ _ _ demo_typed demo_run). Qed.

(** ** Witnesses *)

Definition first_root : bytes := root_after 1 (view_of (pool_after 3)) 0 1.

Lemma pool_roots_exact_witness :
  ∃ b st', is_known_root zk_env 0 first_root (pool_after 3) = Ok (b, st') ∧
    view_of st' = view_of (pool_after 3) ∧
    (b = true ↔ ∃ n, (0 < n ≤ size_of (view_of (pool_after 3)) 0)%N ∧
       first_root = root_after 1 (view_of (pool_after 3)) 0 n).
Proof.
  exact (proj1 (pool_roots_exact 1 (pool_after 3) ltac:(lia) demo_pool_reachable) zk_env 0%N first_root).
Defined.

Lemma pool_history_is_permanent_witness :
  grows (view_of empty_pool) (view_of (pool_after 3)).
Proof.
  exact (pool_history_is_permanent 1 empty_pool (pool_after 3) ltac:(lia) (rtc_refl _ _)
    demo_pool_reachable).
Defined.

Lemma pool_insert_exact_witness :
  (∃ st', rcv_insert_at zk_env 1 (account_n 1) (be_bytes 32 7) (commitment_n 7) (pool_after 3) = Ok st') ↔
    may_insert zk_env (view_of (pool_after 3)) (account_n 1) (be_bytes 32 7) (commitment_n 7) ∧
    last_slot 1 (view_of (pool_after 3)) = false.
Proof.
  refine (proj1 (pool_insert_exact zk_env 1 (account_n 1) (be_bytes 32 7) (commitment_n 7)
    (pool_after 3) _ demo_pool_reachable _ _)); [lia|vm_compute; reflexivity..].
Defined.

(** The second insertion: account 1, id 0, the last leaf of the first tree. *)
Definition demo_pos : LeafPosition := {| lp_tree_id := 0; lp_index := 1 |}.
Definition demo_leaf : bytes := Eval vm_compute in leaf_fn (view_of (pool_after 3)) 0 1.
Definition demo_read (start count : N) : result OutOfOrder (list bytes) :=
  Ok ((λ i, leaf_fn (view_of (pool_after 3)) 0 (start + N.of_nat i)%N) <$> seq 0 (N.to_nat count)).
Definition demo_index : PoolWitnessIndex :=
  match ingest_all (PoolWitnessIndex_new 1 1) (event_insertion <$> published (pool_after 3)) with
  | Ok x => x
  | _ => PoolWitnessIndex_new 1 1
  end.
Definition demo_tree : option (IncrementalTree MemoryNodeStore) := index_tree demo_index 0.
Definition path_or_empty (p : result OutOfOrder MerklePath) : MerklePath :=
  match p with Ok p => p | _ => {| mp_root := ""; mp_siblings := [] |} end.
Definition path_of (t : option (IncrementalTree MemoryNodeStore)) : MerklePath :=
  match t with
  | Some tr => path_or_empty (witness tr 1 demo_read)
  | None => path_or_empty Panic
  end.
Definition demo_path : MerklePath := Eval vm_compute in path_of demo_tree.

Lemma demo_enrolled : enrollment (account_n 1) (be_bytes 32 0) (pool_after 3) = Some demo_pos.
Proof. vm_compute. reflexivity. Qed.

Lemma demo_read_ok :
  read_ok (size_of (view_of (pool_after 3)) (lp_tree_id demo_pos))
    (leaf_fn (view_of (pool_after 3)) (lp_tree_id demo_pos)) demo_read.
Proof. intros start count _. reflexivity. Qed.

Lemma enrolled_witness_verifies_witness :
  ∃ tr leaf siblings r, witness tr 1 demo_read = Ok {| mp_root := r; mp_siblings := siblings |} ∧
    root_from_path leaf 1 siblings = Ok r ∧
    ∃ st', is_known_root zk_env 0 r (pool_after 3) = Ok (true, st').
Proof.
  destruct (enrolled_witness_verifies 1 1 (pool_after 3) ltac:(lia) demo_pool_reachable)
    as (x & _ & Hx).
  destruct (Hx _ _ demo_pos demo_read demo_enrolled demo_read_ok)
    as (tr & leaf & siblings & r & _ & _ & Hw & Hp & Hk).
  exists tr, leaf, siblings, r. split; [exact Hw|]. split; [exact Hp|]. exact (Hk zk_env).
Defined.

Lemma known_answer e t r st :
  fst <$> ok (is_known_root e t r st) = Some true →
  ∃ st', is_known_root e t r st = Ok (true, st').
Proof. destruct (is_known_root e t r st) as [[[] s]| |]; [by eexists|done..]. Qed.

Lemma demo_path_known :
  ∃ st', is_known_root zk_env 0 (mp_root demo_path) (pool_after 3) = Ok (true, st').
Proof. apply known_answer. vm_compute. reflexivity. Qed.

(** A collision, or the claim. *)
Definition collision_or (o : option ((bytes * bytes) * (bytes * bytes))) (Q : Prop) : Prop :=
  match o with
  | None => Q
  | Some (p, q) => p ≠ q ∧ node_pair p = node_pair q
  end.

Lemma known_root_binds_enrolled_leaf_witness :
  ∃ n, (n ≤ size_of (view_of (pool_after 3)) 0)%N ∧
    collision_or
      (path_collision (first_leaves n (leaf_fn (view_of (pool_after 3)) 0)) demo_leaf 1 0
         (mp_siblings demo_path))
      (∃ a id, enrollment a id (pool_after 3) = Some demo_pos ∧
         pv_leaves (view_of (pool_after 3)) !! (0%N, 1%N) = Some demo_leaf).
Proof.
  destruct demo_path_known as [st' Hk].
  refine (known_root_binds_enrolled_leaf 1 zk_env (pool_after 3) st' 0 (mp_root demo_path) demo_leaf
    1 (mp_siblings demo_path) _ demo_pool_reachable Hk _ _ _ _ _ _).
  - lia.
  - apply (bool_decide_unpack _). vm_compute. done.
  - apply (bool_decide_unpack _). vm_compute. done.
  - apply (bool_decide_unpack _). vm_compute. done.
  - vm_compute. reflexivity.
  - vm_compute. reflexivity.
  - vm_compute. reflexivity.
Defined.

(** ** Evidence *)

(** A proof that begins with its public inputs. *)
#[local] Instance DemoProofs : ProofSystem := {|
  VK := "vk"; UltraHonkZkVerifier := unit; verifier_new _ := Some tt;
  verifier_verify _ pf inputs := String.eqb (substring 0 96 pf) inputs |}.
#[local] Instance DemoPoolCall : PoolCall := λ _ t r,
  fst <$> ok (is_known_root zk_env t r (pool_after 3)).

Definition zk_statement : RecoveryStatement := {|
  rs_network_id := zeros 32; rs_account := account_n 1; rs_controller := account_n 2;
  rs_config := {| cb_epoch := 3; cb_config_hash := zeros 32 |};
  rs_timing := {| st_delay_ledgers := 10; st_expiry_ledgers := 20; valid_until_ledger := 30 |};
  rs_subject := Subject_Reconfigure ConfigChange_Remove |}.
Definition zk_digest : bytes := match statement_digest zk_statement with Ok d => d | _ => "" end.
Definition zk_binding : ZkBinding := {|
  zb_pool := account_n 8; zb_enrollment_id := be_bytes 32 0; zb_circuit_id := circuit_id |}.

Lemma demo_leaf_stored leaf :
  ZkPrimitives.leaf (E:=PoolError) (be_bytes 32 1) (be_bytes 32 0) (commitment_n 1) = Ok leaf →
  pv_leaves (view_of (pool_after 3)) !! (0%N, 1%N) = Some leaf.
Proof.
  assert (Hs : pv_leaves (view_of (pool_after 3)) !! (0%N, 1%N) = Some demo_leaf)
    by (vm_compute; reflexivity).
  assert (Hl : ZkPrimitives.leaf (E:=PoolError) (be_bytes 32 1) (be_bytes 32 0) (commitment_n 1) =
    Ok demo_leaf) by (vm_compute; reflexivity).
  intros E. exact (eq_trans Hs (f_equal ok (eq_trans (eq_sym Hl) E))).
Qed.

Lemma demo_index_replayed :
  ingest_all (PoolWitnessIndex_new 1 1) (event_insertion <$> published (pool_after 3)) = Ok demo_index.
Proof.
  assert (is_ok (ingest_all (PoolWitnessIndex_new 1 1)
    (event_insertion <$> published (pool_after 3))) = true) as Hok by (vm_compute; reflexivity).
  unfold demo_index. by destruct (ingest_all _ _).
Qed.

Lemma demo_pool_at : pool_at (zb_pool zk_binding) (pool_after 3).
Proof. exists zk_env. intros t r. reflexivity. Qed.

Lemma prover_evidence_accepted_witness :
  ∃ tr path inputs, index_tree demo_index 0 = Some tr ∧ witness tr 1 demo_read = Ok path ∧
    Inputs_new (secret_n 1) (be_bytes 32 1) (be_bytes 32 0) zk_digest 1 (mp_siblings path) = Ok inputs ∧
    ∀ v pf, verifier = Some v → slen pf = PROOF_BYTES →
      verifier_verify v pf (Inputs_public_inputs inputs) = true →
      verify zk_statement zk_binding
        {| tree_id := 0; RecoveryIface.root := ip_root inputs;
           nullifier := ip_nullifier inputs; proof := pf |} = Ok tt.
Proof.
  refine (prover_evidence_accepted 1 1 (pool_after 3) zk_statement zk_binding (be_bytes 32 1)
    zk_digest (secret_n 1) (commitment_n 1) demo_pos demo_index demo_read
    _ demo_pool_reachable demo_pool_at eq_refl _ _ _ _ _ _ demo_enrolled
    demo_leaf_stored demo_index_replayed demo_read_ok).
  - lia.
  - vm_compute. reflexivity.
  - vm_compute. reflexivity.
  - vm_compute. reflexivity.
  - vm_compute. reflexivity.
  - apply (bool_decide_unpack _). vm_compute. done.
  - vm_compute. reflexivity.
Defined.
