(* ===== verification/Smt.v ===== *)
(** * The SMT-LIB scripts the analyzer writes

    [perch-analyze] hands z3 a text.  What the text means is fixed by SMT-LIB
    2.6, not by the program, and this file states it for the fragment the
    analyzer uses: a reader of s-expressions, the evaluation of terms over
    booleans, integers and strings (with the [\u] escapes of string
    literals), and when an assignment satisfies a script.  The reader is
    proved to invert the printer [render], so that the texts of [Analyze] can
    be reasoned about as terms. *)

From S2P Require Import Prelude Canon RoundTrip.
#[local] Open Scope string_scope.
#[local] Open Scope list_scope.
#[local] Open Scope nat_scope.

(** ** S-expressions and their text *)

(** A literal keeps the characters between its quotes, a doubled quote being
    one. *)
Inductive sexp : Type :=
| Sym (s : string)
| Lit (s : string)
| Lst (l : list sexp).

Definition quote : ascii := chr 34.
Definition backslash : ascii := chr 92.
Definition newline : string := String (chr 10) "".

Fixpoint double_quotes (s : string) : string :=
  match s with
  | EmptyString => ""
  | String c s =>
      if Ascii.eqb c quote then String c (String c (double_quotes s))
      else String c (double_quotes s)
  end.

(** [parts.join(sep)]. *)
Fixpoint join (sep : string) (parts : list string) : string :=
  match parts with
  | [] => ""
  | [p] => p
  | p :: parts => p +:+ sep +:+ join sep parts
  end.

Fixpoint render (e : sexp) : string :=
  match e with
  | Sym s => s
  | Lit s => String quote "" +:+ double_quotes s +:+ String quote ""
  | Lst l => "(" +:+ join " " (map render l) +:+ ")"
  end.

Definition render_script (cmds : list sexp) : string :=
  fold_right (λ c s, render c +:+ newline +:+ s) "" cmds.

(** ** Reading *)

Definition between (lo hi : N) (c : ascii) : bool :=
  (lo <=? N_of_ascii c)%N && (N_of_ascii c <=? hi)%N.
Definition printable : ascii → bool := between 32 126.
Definition blank (c : ascii) : bool :=
  contains [32; 9; 10; 13]%N (N_of_ascii c).
(** Letters, digits and [~ ! @ $ % ^ & * _ - + = < > . ? /]. *)
Definition symbol_char (c : ascii) : bool :=
  between 48 57 c || between 65 90 c || between 97 122 c ||
  contains [126; 33; 64; 36; 37; 94; 38; 42; 95; 45; 43; 61; 60; 62; 46; 63; 47]%N
    (N_of_ascii c).

(** What the reader is in the middle of: nothing, a symbol, a literal, or a
    literal whose last character may be its closing quote. *)
Inductive lexing : Type :=
| InGap
| InSym (s : string)
| InLit (s : string)
| AtQuote (s : string).

(** The unfinished lists, innermost first. *)
Abbreviation frames := (list (list sexp)).

Definition push (e : sexp) (st : frames) : option frames :=
  match st with [] => None | f :: st => Some ((f ++ [e]) :: st) end.

Definition gap_step (c : ascii) (st : frames) : option (lexing * frames) :=
  if Ascii.eqb c "(" then Some (InGap, [] :: st)
  else if Ascii.eqb c ")" then
    match st with
    | f :: g :: st => Some (InGap, (g ++ [Lst f]) :: st)
    | _ => None
    end
  else if Ascii.eqb c quote then Some (InLit "", st)
  else if blank c then Some (InGap, st)
  else if symbol_char c then Some (InSym (String c ""), st)
  else None.

Definition read_step (c : ascii) (lx : lexing) (st : frames) : option (lexing * frames) :=
  match lx with
  | InGap => gap_step c st
  | InSym s =>
      if symbol_char c then Some (InSym (s +:+ String c ""), st)
      else st ← push (Sym s) st; gap_step c st
  | InLit s =>
      if Ascii.eqb c quote then Some (AtQuote s, st)
      else if printable c || blank c then Some (InLit (s +:+ String c ""), st)
      else None
  | AtQuote s =>
      if Ascii.eqb c quote then Some (InLit (s +:+ String c ""), st)
      else st ← push (Lit s) st; gap_step c st
  end.

Fixpoint read_from (lx : lexing) (st : frames) (s : string) : option (list sexp) :=
  match s with
  | EmptyString => match lx, st with InGap, [cmds] => Some cmds | _, _ => None end
  | String c s => '(lx, st) ← read_step c lx st; read_from lx st s
  end.
Definition read_script (s : string) : option (list sexp) := read_from InGap [[]] s.

(** ** Values and terms *)

(** A string is a sequence of code points. *)
Inductive sval : Type :=
| SBool (b : bool)
| SInt (z : Z)
| SText (t : list N).
Global Instance sval_eq_dec : EqDecision sval.
Proof. solve_decision. Defined.

Abbreviation assignment := (string → option sval).

Definition numeral (s : string) : option Z :=
  if all_digits s && negb (String.eqb s "") then
    Some (Z.of_N (fold_left (λ acc c, acc * 10 + (N_of_ascii c - 48))%N
                    (list_ascii_of_string s) 0%N))
  else None.

Definition hex_value (c : ascii) : option N :=
  if between 48 57 c then Some (N_of_ascii c - 48)%N
  else if between 97 102 c then Some (N_of_ascii c - 87)%N
  else if between 65 70 c then Some (N_of_ascii c - 55)%N
  else None.
Fixpoint hex_number (acc : N) (s : list ascii) : option N :=
  match s with
  | [] => Some acc
  | c :: s => d ← hex_value c; hex_number (acc * 16 + d)%N s
  end.

(** The two escapes [\ud3d2d1d0] and [\u{d..}] with one to five digits, up to
    the last code point 0x2FFFF; [n] digits are tried in the braced form. *)
Fixpoint braced (n : nat) (s : list ascii) : option (N * nat) :=
  match n with
  | O => None
  | S n =>
      match braced n s with
      | Some r => Some r
      | None =>
          if bool_decide (s !! S n = Some "}"%char) then
            v ← hex_number 0%N (take (S n) s);
            if (v <=? 196607)%N then Some (v, S (S n)) else None
          else None
      end
  end.
Definition escape_at (s : list ascii) : option (N * nat) :=
  match s with
  | "u"%char :: "{"%char :: s => '(v, k) ← braced 5 s; Some (v, 2 + k)
  | "u"%char :: s =>
      if (length (take 4 s) =? 4) then v ← hex_number 0%N (take 4 s); Some (v, 5) else None
  | _ => None
  end.
(** [skip] characters belong to the escape just read. *)
Fixpoint unescape_from (skip : nat) (s : list ascii) : list N :=
  match s with
  | [] => []
  | c :: s =>
      match skip with
      | S skip => unescape_from skip s
      | O =>
          match (if Ascii.eqb c backslash then escape_at s else None) with
          | Some (v, k) => v :: unescape_from k s
          | None => N_of_ascii c :: unescape_from 0 s
          end
      end
  end.
Definition unescape (s : string) : list N := unescape_from 0 (list_ascii_of_string s).

Fixpoint is_prefix_of (p t : list N) : bool :=
  match p, t with
  | [], _ => true
  | a :: p, b :: t => (a =? b)%N && is_prefix_of p t
  | _, _ => false
  end.

Definition as_bool (v : sval) : option bool :=
  match v with SBool b => Some b | _ => None end.

Fixpoint collect {A B} (f : A → option B) (l : list A) : option (list B) :=
  match l with
  | [] => Some []
  | x :: l => y ← f x; ys ← collect f l; Some (y :: ys)
  end.

Definition same_sort (a b : sval) : bool :=
  match a, b with
  | SBool _, SBool _ | SInt _, SInt _ | SText _, SText _ => true
  | _, _ => false
  end.

Definition apply_op (op : string) (vs : list sval) : option sval :=
  if String.eqb op "and" then bs ← collect as_bool vs; Some (SBool (forallb id bs))
  else if String.eqb op "or" then bs ← collect as_bool vs; Some (SBool (existsb id bs))
  else
    match vs with
    | [SBool b] => if String.eqb op "not" then Some (SBool (negb b)) else None
    | [SText t] => if String.eqb op "str.len" then Some (SInt (Z.of_nat (length t))) else None
    | [v; w] =>
        if String.eqb op "=" then
          if same_sort v w then Some (SBool (bool_decide (v = w))) else None
        else
          match v, w with
          | SInt a, SInt b =>
              if String.eqb op "<" then Some (SBool (a <? b)%Z)
              else if String.eqb op "<=" then Some (SBool (a <=? b)%Z)
              else if String.eqb op ">=" then Some (SBool (b <=? a)%Z)
              else None
          | SText p, SText t =>
              if String.eqb op "str.prefixof" then Some (SBool (is_prefix_of p t)) else None
          | _, _ => None
          end
    | _ => None
    end.

Definition symbol_value (m : assignment) (s : string) : option sval :=
  if String.eqb s "true" then Some (SBool true)
  else if String.eqb s "false" then Some (SBool false)
  else match numeral s with Some z => Some (SInt z) | None => m s end.

Fixpoint term (m : assignment) (e : sexp) : option sval :=
  match e with
  | Sym s => symbol_value m s
  | Lit s => Some (SText (unescape s))
  | Lst (Sym op :: es) => vs ← collect (term m) es; apply_op op vs
  | Lst _ => None
  end.

(** ** Satisfying a script *)

Definition has_sort (v : sval) (sort : string) : bool :=
  match v with
  | SBool _ => String.eqb sort "Bool"
  | SInt _ => String.eqb sort "Int"
  | SText t => String.eqb sort "String" && forallb (λ c, c <=? 196607)%N t
  end.

(** The commands before [check-sat]: each declared constant has a value of
    its sort and each assertion is true. *)
Fixpoint satisfies (m : assignment) (cmds : list sexp) : bool :=
  match cmds with
  | [] => false
  | Lst [Sym cmd] :: _ => String.eqb cmd "check-sat"
  | Lst [Sym cmd; e] :: cmds =>
      String.eqb cmd "assert" && bool_decide (term m e = Some (SBool true)) && satisfies m cmds
  | Lst [Sym cmd; Sym x; Sym sort] :: cmds =>
      String.eqb cmd "declare-const" &&
      match m x with Some v => has_sort v sort | None => false end && satisfies m cmds
  | _ => false
  end.

(** ** The reader inverts the printer *)

Fixpoint all_chars (f : ascii → bool) (s : string) : bool :=
  match s with EmptyString => true | String c s => f c && all_chars f s end.

Fixpoint readable (e : sexp) : bool :=
  match e with
  | Sym s => negb (String.eqb s "") && all_chars symbol_char s
  | Lit s => all_chars (λ c, printable c || blank c) s
  | Lst l => forallb readable l
  end.

Lemma sexp_nested_ind (P : sexp → Prop) :
  (∀ s, P (Sym s)) → (∀ s, P (Lit s)) → (∀ l, Forall P l → P (Lst l)) → ∀ e, P e.
Proof.
  intros Hs Hl Hn. fix IH 1. intros [s|s|l]; [apply Hs|apply Hl|].
  apply Hn. induction l; constructor; [apply IH|done].
Qed.

(** A character that ends a symbol or a literal. *)
Definition closer (c : ascii) : bool :=
  negb (symbol_char c) && negb (Ascii.eqb c quote).

Lemma read_symbol acc s c rest st :
  all_chars symbol_char s = true → closer c = true →
  read_from (InSym acc) st (s +:+ String c rest) =
  (st ← push (Sym (acc +:+ s)) st; read_from InGap st (String c rest)).
Proof.
  unfold closer. revert acc. induction s as [|d s IH]; intros acc Hs Hc.
  - rewrite string_app_nil_l, string_app_nil_r. simpl.
    apply andb_true_iff in Hc as [Hc _]. apply negb_true_iff in Hc. rewrite Hc.
    by destruct (push _ st).
  - simpl in Hs. apply andb_true_iff in Hs as [Hd Hs].
    rewrite string_app_cons. simpl. rewrite Hd. simpl. rewrite IH by done.
    by rewrite string_app_assoc.
Qed.

Lemma read_literal acc s c rest st :
  all_chars (λ c, printable c || blank c) s = true → closer c = true →
  read_from (InLit acc) st (double_quotes s +:+ String quote (String c rest)) =
  (st ← push (Lit (acc +:+ s)) st; read_from InGap st (String c rest)).
Proof.
  unfold closer. revert acc. induction s as [|d s IH]; intros acc Hs Hc.
  - cbn [double_quotes]. rewrite string_app_nil_l, string_app_nil_r.
    apply andb_true_iff in Hc as [_ Hc]. apply negb_true_iff in Hc.
    cbn [read_from read_step]. rewrite Ascii.eqb_refl. cbn [mbind option_bind read_from read_step]. rewrite Hc.
    by destruct (push _ st).
  - cbn [all_chars] in Hs. apply andb_true_iff in Hs as [Hd Hs]. cbn [double_quotes].
    destruct (Ascii.eqb d quote) eqn:Hq; rewrite !string_app_cons; cbn [read_from read_step];
      rewrite !Hq; cbn [mbind option_bind read_from read_step]; rewrite ?Hq, ?Hd;
      cbn [mbind option_bind]; rewrite IH by done; by rewrite string_app_assoc.
Qed.

Lemma symbol_char_gap c st :
  symbol_char c = true → gap_step c st = Some (InSym (String c ""), st).
Proof.
  intros Hc. unfold gap_step.
  assert (∀ x, symbol_char x = false → Ascii.eqb c x = false) as Hne.
  { intros x Hx. apply Ascii.eqb_neq. congruence. }
  rewrite !Hne by done.
  assert (blank c = false) as ->; [|by rewrite Hc].
  revert Hc. clear. unfold blank. destruct c as [[] [] [] [] [] [] [] []]; vm_compute; congruence.
Qed.

Lemma join_cons sep p q parts : join sep (p :: q :: parts) = p +:+ sep +:+ join sep (q :: parts).
Proof. done. Qed.

(** Reading the text of an expression pushes it on the innermost list. *)
Lemma read_render e c rest st :
  readable e = true → closer c = true →
  read_from InGap st (render e +:+ String c rest) =
  (st ← push e st; read_from InGap st (String c rest)).
Proof.
  revert c rest st. induction e as [s|s|l IH] using sexp_nested_ind; intros c rest st Hr Hc.
  - destruct s as [|d s]; [done|]. simpl in Hr. apply andb_true_iff in Hr as [Hd Hs].
    cbn [render]. rewrite string_app_cons. cbn [read_from read_step].
    rewrite symbol_char_gap by done. cbn [mbind option_bind].
    by rewrite read_symbol.
  - cbn [render]. rewrite !string_app_assoc, string_app_cons, string_app_nil_l.
    cbn [read_from read_step].
    assert (gap_step quote st = Some (InLit "", st)) as -> by done. cbn [mbind option_bind].
    by rewrite string_app_cons, string_app_nil_l, read_literal.
  - cbn [render readable] in *.
    assert (∀ f st', read_from InGap (f :: st') (join " " (map render l) +:+ ")" +:+ String c rest) =
      match st' with
      | g :: st' => read_from InGap ((g ++ [Lst (f ++ l)]) :: st') (String c rest)
      | [] => None
      end) as Hl.
    { assert (∀ r f st', read_from InGap (f :: st') (")" +:+ r) =
        match st' with g :: st' => read_from InGap ((g ++ [Lst f]) :: st') r | [] => None end) as Hend.
      { intros r f [|g st']; done. }
      clear Hc. revert Hr. induction IH as [|e l He _ IHl]; intros Hr f st'.
      - cbn [map join]. by rewrite string_app_nil_l, Hend, app_nil_r.
      - cbn [forallb] in Hr. apply andb_true_iff in Hr as [Hre Hr].
        destruct l as [|e2 l].
        + cbn [map join]. change (")" +:+ String c rest) with (String ")" (String c rest)).
          rewrite He by done. cbn [push mbind option_bind].
          exact (Hend (String c rest) (f ++ [e]) st').
        + change (map render (e :: e2 :: l)) with (render e :: render e2 :: map render l).
          rewrite join_cons, !string_app_assoc.
          change (" " +:+ ?x) with (String " " x). rewrite He by done.
          cbn [push mbind option_bind read_from read_step].
          change (gap_step " " ?x) with (Some (InGap, x)). cbn [mbind option_bind].
          change (render e2 :: map render l) with (map render (e2 :: l)).
          rewrite IHl by done. by rewrite <- app_assoc. }
    rewrite !string_app_assoc. change ("(" +:+ ?x) with (String "(" x).
    cbn [read_from read_step]. change (gap_step "(" ?x) with (Some (InGap, [] :: x)).
    cbn [mbind option_bind]. rewrite Hl. by destruct st.
Qed.

Lemma read_render_script cmds :
  forallb readable cmds = true → read_script (render_script cmds) = Some cmds.
Proof.
  intros Hr. unfold read_script. change cmds with ([] ++ cmds) at 2.
  generalize (@nil sexp) as done_. induction cmds as [|e cmds IH]; intros f.
  - simpl. by rewrite app_nil_r.
  - simpl in Hr. apply andb_true_iff in Hr as [He Hr]. cbn [render_script fold_right].
    unfold newline. rewrite string_app_cons, string_app_nil_l.
    rewrite read_render by done. cbn [push mbind option_bind read_from read_step].
    change (gap_step (chr 10) ?x) with (Some (InGap, x)). cbn [mbind option_bind].
    fold (render_script cmds). rewrite IH by done. by rewrite <- app_assoc.
Qed.
