(* ===== verification/Analyze.v ===== *)
(** * perch-analyze: the per-policy SMT prover

    The scripts [perch-analyze/src/lib.rs] writes, character by character, the
    classification of z3's answer, the four checks ([dead_rules], [only_calls],
    [can_call], [narrows]) and the exit codes of [main.rs].  z3 and the file
    system are parameters; what is printed for a human is left out.  What the
    checks prove is in [AnalyzeFacts]. *)

From S2P Require Import Prelude Doc Canon Text Parse Validate Smt.
#[local] Open Scope string_scope.
#[local] Open Scope list_scope.
#[local] Open Scope N_scope.

Definition MAX_STR_ARG_LEN : nat := 256.

(** ** z3 driver *)

Inductive Z3Verdict : Type :=
| Sat (witness : string)
| Unsat
| Unknown (output : string).

(** What [z3 -in -smt2] writes to its standard output and error when it is
    given a script. *)
Class Z3 : Type := z3_output : string → string * string.

Definition run_z3 `{Z3} (script : string) : Z3Verdict :=
  let '(stdout, stderr) := z3_output script in
  match lines stdout with
  | first :: rest =>
      if String.eqb first "unsat" then Unsat
      else if String.eqb first "sat" then Sat (join newline rest)
      else Unknown (stdout +:+ stderr)
  | [] => Unknown (stdout +:+ stderr)
  end.

(** ** Encoding *)

Definition T_ADDR : N := 0.
Definition T_U32 : N := 1.
Definition T_STR : N := 2.
Definition T_OTHER : N := 3.

(** [BTreeMap<String, u32>] is only looked up and measured; [BTreeSet<u32>] is
    walked in ascending order. *)
Record Encoder : Type := {
  addr_ids : gmap string N;
  arg_indexes : list N;
}.
Definition Encoder_new : Encoder := {| addr_ids := ∅; arg_indexes := [] |}.

Fixpoint btree_insert (i : N) (l : list N) : list N :=
  match l with
  | [] => [i]
  | j :: l' => if i <? j then i :: l else if i =? j then l else j :: btree_insert i l'
  end.

(** [len() as u32 + 1].  At [2^32 - 1] addresses the addition panics under the
    workspace's overflow checks; the model wraps there, a size the theorems
    exclude by [encodable] and no file reaches. *)
Definition addr_id (enc : Encoder) (address : string) : N * Encoder :=
  match addr_ids enc !! address with
  | Some id => (id, enc)
  | None =>
      let id := (N.of_nat (size (addr_ids enc)) mod 2 ^ 32 + 1) mod 2 ^ 32 in
      (id, {| addr_ids := <[address := id]> (addr_ids enc); arg_indexes := arg_indexes enc |})
  end.

Definition conj_term (parts : list string) : string :=
  match parts with
  | [] => "true"
  | [p] => p
  | _ => "(and " +:+ join " " parts +:+ ")"
  end.
Definition disj (parts : list string) : string :=
  match parts with
  | [] => "false"
  | [p] => p
  | _ => "(or " +:+ join " " parts +:+ ")"
  end.

(** [s.replace] doubles the quotes. *)
Definition smt_string (s : string) : string :=
  String quote "" +:+ double_quotes s +:+ String quote "".

(** [arg{i}_{field}]. *)
Definition arg_var (i : N) (field : string) : string :=
  "arg" +:+ u_to_string i +:+ "_" +:+ field.

Definition pred_holds (enc : Encoder) (i : N) (pred : ArgPred) : string * Encoder :=
  let enc := {| addr_ids := addr_ids enc; arg_indexes := btree_insert i (arg_indexes enc) |} in
  let present := "(< " +:+ u_to_string i +:+ " arg_count)" in
  let '(body, enc) :=
    match pred with
    | IsSelf =>
        ("(and (= " +:+ arg_var i "type" +:+ " " +:+ u_to_string T_ADDR +:+ ") (= " +:+
         arg_var i "addr" +:+ " 0))", enc)
    | AddressEq address =>
        let '(id, enc) := addr_id enc address in
        ("(and (= " +:+ arg_var i "type" +:+ " " +:+ u_to_string T_ADDR +:+ ") (= " +:+
         arg_var i "addr" +:+ " " +:+ u_to_string id +:+ "))", enc)
    | U32Eq value =>
        ("(and (= " +:+ arg_var i "type" +:+ " " +:+ u_to_string T_U32 +:+ ") (= " +:+
         arg_var i "u32" +:+ " " +:+ u_to_string value +:+ "))", enc)
    | StringIn values =>
        let alts :=
          map (λ v, "(= " +:+ arg_var i "str" +:+ " " +:+ smt_string v +:+ ")")
            (List.filter (λ v, (String.length v <=? MAX_STR_ARG_LEN)%nat) values) in
        ("(and (= " +:+ arg_var i "type" +:+ " " +:+ u_to_string T_STR +:+ ") (<= (str.len " +:+
         arg_var i "str" +:+ ") " +:+ u_to_string (N.of_nat MAX_STR_ARG_LEN) +:+ ") " +:+
         disj alts +:+ ")", enc)
    | StringPrefix pfx =>
        if (MAX_STR_ARG_LEN <? String.length pfx)%nat then ("false", enc)
        else
          ("(and (= " +:+ arg_var i "type" +:+ " " +:+ u_to_string T_STR +:+
           ") (str.prefixof " +:+ smt_string pfx +:+ " " +:+ arg_var i "str" +:+ "))", enc)
    end in
  ("(and " +:+ present +:+ " " +:+ body +:+ ")", enc).

Definition principals_floor (p : Principals) : N :=
  match p with
  | Principals_All signers => N.max (N.of_nat (length signers)) 1
  | Principals_Threshold _ m => N.max m 1
  | Principals_SelfAuthenticating _ _ _ => 1
  end.

(** [for c in args { .. }]. *)
Fixpoint args_allow (enc : Encoder) (args : list ArgConstraint) (conjuncts : list string)
  : list string * Encoder :=
  match args with
  | [] => (conjuncts, enc)
  | c :: args =>
      let '(s, enc) := pred_holds enc (arg_index c) (arg_pred c) in
      args_allow enc args (conjuncts ++ ["ctx_contract"; s])
  end.

(** [Encoder::rule_allows]. *)
Definition enc_rule_allows (enc : Encoder) (rule : Rule) : string * Encoder :=
  let n := principals_floor (rule_principals rule) in
  let conjuncts := ["(>= signer_count " +:+ u_to_string n +:+ ")"] in
  let conjuncts :=
    match rule_functions rule with
    | Some fns =>
        conjuncts ++ ["ctx_contract"; disj (map (λ f, "(= fn_name " +:+ smt_string f +:+ ")") fns)]
    | None => conjuncts
    end in
  let '(conjuncts, enc) :=
    match rule_args rule with
    | Some args => args_allow enc args conjuncts
    | None => (conjuncts, enc)
    end in
  (conj_term conjuncts, enc).

Definition arg_declarations (i : N) : string :=
  "(declare-const " +:+ arg_var i "type" +:+ " Int)" +:+ newline +:+
  "(assert (and (>= " +:+ arg_var i "type" +:+ " 0) (<= " +:+ arg_var i "type" +:+ " " +:+
    u_to_string T_OTHER +:+ ")))" +:+ newline +:+
  "(declare-const " +:+ arg_var i "addr" +:+ " Int)" +:+ newline +:+
  "(declare-const " +:+ arg_var i "u32" +:+ " Int)" +:+ newline +:+
  "(assert (and (>= " +:+ arg_var i "u32" +:+ " 0) (<= " +:+ arg_var i "u32" +:+
    " 4294967295)))" +:+ newline +:+
  "(declare-const " +:+ arg_var i "str" +:+ " String)" +:+ newline.

Definition declarations (enc : Encoder) : string :=
  "(declare-const ctx_contract Bool)" +:+ newline +:+
  "(declare-const fn_name String)" +:+ newline +:+
  "(declare-const signer_count Int)" +:+ newline +:+
  "(assert (>= signer_count 0))" +:+ newline +:+
  "(declare-const arg_count Int)" +:+ newline +:+
  "(assert (>= arg_count 0))" +:+ newline +:+
  fold_right (λ i s, arg_declarations i +:+ s) "" (arg_indexes enc).

Definition witness_query (enc : Encoder) : string :=
  let vars :=
    ["ctx_contract"; "fn_name"; "signer_count"; "arg_count"] ++
    flat_map (λ i, [arg_var i "type"; arg_var i "addr"; arg_var i "u32"; arg_var i "str"])
      (arg_indexes enc) in
  "(get-value (" +:+ join " " vars +:+ "))" +:+ newline.

(** ** Warnings *)

Definition is_ascii (s : string) : bool := all_bytes (λ b, b <? 128) s.
(** [s.chars().count()]: the bytes of a UTF-8 text that start a character. *)
Fixpoint chars_count (s : string) : nat :=
  match s with
  | EmptyString => 0
  | String c s => (if in_range 128 191 (N_of_ascii c) then 0 else 1) + chars_count s
  end.

Definition pred_texts (pred : ArgPred) : list string :=
  match pred with
  | StringIn values => values
  | StringPrefix pfx => [pfx]
  | _ => []
  end.

Definition non_ascii_warning (rule : Rule) : string :=
  "rule `" +:+ rule_name rule +:+
  "`: non-ASCII string constant — SMT char-length vs on-chain byte-length may diverge near the "
  +:+ u_to_string (N.of_nat MAX_STR_ARG_LEN) +:+ " cap".

Definition encode_doc_warnings (doc : PolicyDoc) : list string :=
  flat_map (λ rule,
    flat_map (λ c,
      flat_map (λ t,
        if negb (is_ascii t) && negb (chars_count t =? String.length t)%nat
        then [non_ascii_warning rule] else [])
        (pred_texts (arg_pred c)))
      (default [] (rule_args rule)))
    (doc_rules doc).

(** ** Checks *)

Section checks.
Context `{Z3}.

Record RuleLiveness : Type := {
  rl_rule : string;
  rl_verdict : Z3Verdict;
}.

Definition dead_rules (doc : PolicyDoc) : list RuleLiveness :=
  map (λ rule,
    let '(allow, enc) := enc_rule_allows Encoder_new rule in
    let script :=
      declarations enc +:+ "(assert " +:+ allow +:+ ")" +:+ newline +:+
      "(check-sat)" +:+ newline +:+ witness_query enc in
    {| rl_rule := rule_name rule; rl_verdict := run_z3 script |}) (doc_rules doc).

Record OnlyCallsViolation : Type := {
  oc_rule : string;
  oc_verdict : Z3Verdict;
}.

Definition only_calls_script (rule : Rule) (allowed : list string) : string :=
  let '(allow, enc) := enc_rule_allows Encoder_new rule in
  let outside := map (λ f, "(not (= fn_name " +:+ smt_string f +:+ "))") allowed in
  declarations enc +:+ "(assert " +:+ allow +:+ ")" +:+ newline +:+
  "(assert ctx_contract)" +:+ newline +:+
  "(assert " +:+ conj_term outside +:+ ")" +:+ newline +:+
  "(check-sat)" +:+ newline +:+ witness_query enc.

Definition on_target (contract : string) (rule : Rule) : bool :=
  match rule_scope rule with
  | Scope_Contract address => String.eqb address contract
  | _ => false
  end.

Definition only_calls (doc : PolicyDoc) (contract : string) (allowed : list string)
  : list OnlyCallsViolation :=
  flat_map (λ rule,
    if on_target contract rule then
      match run_z3 (only_calls_script rule allowed) with
      | Unsat => []
      | v => [{| oc_rule := rule_name rule; oc_verdict := v |}]
      end
    else []) (doc_rules doc).

Definition can_call (doc : PolicyDoc) (function : string) : list RuleLiveness :=
  flat_map (λ rule,
    match rule_scope rule with
    | Scope_Contract _ =>
        let '(allow, enc) := enc_rule_allows Encoder_new rule in
        let script :=
          declarations enc +:+ "(assert " +:+ allow +:+ ")" +:+ newline +:+
          "(assert ctx_contract)" +:+ newline +:+
          "(assert (= fn_name " +:+ smt_string function +:+ "))" +:+ newline +:+
          "(check-sat)" +:+ newline +:+ witness_query enc in
        [{| rl_rule := rule_name rule; rl_verdict := run_z3 script |}]
    | _ => []
    end) (doc_rules doc).

Inductive WideningFinding : Type :=
| AddedRule (rule : string)
| ScopeChanged (rule : string)
| SemanticWidening (rule : string) (verdict : Z3Verdict)
| ExpiryExtended (rule : string)
| CapLoosened (rule : string)
| Undecided (rule : string) (verdict : Z3Verdict).

Definition narrows_script (prule crule : Rule) : string :=
  let '(child_allow, enc) := enc_rule_allows Encoder_new crule in
  let '(parent_allow, enc) := enc_rule_allows enc prule in
  declarations enc +:+ "(assert " +:+ child_allow +:+ ")" +:+ newline +:+
  "(assert (not " +:+ parent_allow +:+ "))" +:+ newline +:+
  "(check-sat)" +:+ newline +:+ witness_query enc.

Definition expiry_extended (p c : option N) : bool :=
  match p, c with
  | Some _, None => true
  | Some p, Some c => p <? c
  | None, _ => false
  end.

Definition limit_or_max (limit : string) : Z := default I128_MAX (parse_i128 limit).

Definition cap_loosened (p c : option CapConstraint) : bool :=
  match p, c with
  | Some _, None => true
  | Some p, Some c =>
      negb (bool_decide (cap_token p = cap_token c)) ||
      (limit_or_max (cap_limit p) <? limit_or_max (cap_limit c))%Z ||
      (cap_period_ledgers c <? cap_period_ledgers p)
  | None, _ => false
  end.

Definition narrows_rule (parent : PolicyDoc) (crule : Rule) : list WideningFinding :=
  let name := rule_name crule in
  match find_first (λ r, String.eqb (rule_name r) name) (doc_rules parent) with
  | None => [AddedRule name]
  | Some prule =>
      if negb (bool_decide (rule_scope prule = rule_scope crule)) then [ScopeChanged name]
      else
        match run_z3 (narrows_script prule crule) with
        | Unsat => []
        | Sat w => [SemanticWidening name (Sat w)]
        | Unknown o => [Undecided name (Unknown o)]
        end ++
        (if expiry_extended (rule_not_after_ledger prule) (rule_not_after_ledger crule)
         then [ExpiryExtended name] else []) ++
        (if cap_loosened (rule_cap prule) (rule_cap crule) then [CapLoosened name] else [])
  end.
Definition narrows (parent child : PolicyDoc) : list WideningFinding :=
  flat_map (narrows_rule parent) (doc_rules child).

(** ** The command line (main.rs) *)

Context `{JsonLexer, HexCodec}.
Context (read_to_string : string → option string).

(** The error texts are printed and dropped. *)
Definition load (path : string) : option PolicyDoc :=
  text ← read_to_string path;
  doc ← ok (from_json text);
  match validate doc with Ok _ => Some doc | _ => None end.

Definition SUCCESS : N := 0.
Definition usage : N := 2.

Definition is_sat (v : Z3Verdict) : bool := match v with Sat _ => true | _ => false end.

(** [args] are the arguments after the program's name; the result is the exit
    code. *)
Definition main (z3_available : bool) (args : list string) : N :=
  if negb z3_available then 2
  else
    match args with
    | [] => usage
    | cmd :: rest =>
        if String.eqb cmd "dead-rules" then
          match rest with
          | [path] =>
              match load path with
              | None => 2
              | Some doc =>
                  let dead := existsb (λ r, negb (is_sat (rl_verdict r))) (dead_rules doc) in
                  if dead then 1 else SUCCESS
              end
          | _ => usage
          end
        else if String.eqb cmd "can-call" then
          match rest with
          | [path; function] =>
              match load path with
              | None => 2
              | Some doc =>
                  if existsb (λ r, is_sat (rl_verdict r)) (can_call doc function)
                  then SUCCESS else 1
              end
          | _ => usage
          end
        else if String.eqb cmd "only-calls" then
          match rest with
          | path :: contract :: allowed =>
              if bool_decide (allowed = []) then usage
              else
                match load path with
                | None => 2
                | Some doc =>
                    match only_calls doc contract allowed with [] => SUCCESS | _ => 1 end
                end
          | _ => usage
          end
        else if String.eqb cmd "narrows" then
          match rest with
          | [ppath; cpath] =>
              match load ppath, load cpath with
              | Some parent, Some child =>
                  match narrows parent child with [] => SUCCESS | _ => 1 end
              | _, _ => 2
              end
          | _ => usage
          end
        else usage
    end.
End checks.
