(* ===== verification/AnalyzeFacts.v ===== *)
(** * What the analyzer's scripts say

    The texts of [Analyze] are the texts of SMT terms ([rule_sx],
    [script_sx]), and under the assignment that describes a call the term of
    a rule is true exactly when the rule allows the call ([term_rule]).  With
    a solver that answers [unsat] only for unsatisfiable scripts this makes
    the checks sound ([unsat_refutes]); the theorems on the checks are in
    [AnalyzeSound]. *)

From S2P Require Import Prelude Host Doc Canon Text Parse RoundTrip Validate Program Compile Smt Analyze.
#[local] Open Scope string_scope.
#[local] Open Scope list_scope.
#[local] Open Scope nat_scope.

(** ** The terms behind the texts *)

Definition num (n : N) : sexp := Sym (u_to_string n).
Definition app (op : string) (es : list sexp) : sexp := Lst (Sym op :: es).
Definition var (i : N) (field : string) : sexp := Sym (arg_var i field).

Definition conj_sx (l : list sexp) : sexp :=
  match l with [] => Sym "true" | [e] => e | _ => app "and" l end.
Definition disj_sx (l : list sexp) : sexp :=
  match l with [] => Sym "false" | [e] => e | _ => app "or" l end.

Definition short_values (values : list string) : list string :=
  List.filter (λ v, (String.length v <=? Analyze.MAX_STR_ARG_LEN)) values.

(** [ids] numbers every address literal. *)
Definition pred_body_sx (ids : gmap string N) (i : N) (p : ArgPred) : sexp :=
  match p with
  | IsSelf => app "and" [app "=" [var i "type"; num T_ADDR]; app "=" [var i "addr"; Sym "0"]]
  | AddressEq a =>
      app "and" [app "=" [var i "type"; num T_ADDR];
                 app "=" [var i "addr"; num (default 0%N (ids !! a))]]
  | U32Eq n => app "and" [app "=" [var i "type"; num T_U32]; app "=" [var i "u32"; num n]]
  | StringIn values =>
      app "and" [app "=" [var i "type"; num T_STR];
                 app "<=" [app "str.len" [var i "str"]; num (N.of_nat Analyze.MAX_STR_ARG_LEN)];
                 disj_sx (map (λ v, app "=" [var i "str"; Lit v]) (short_values values))]
  | StringPrefix pfx =>
      if Analyze.MAX_STR_ARG_LEN <? String.length pfx then Sym "false"
      else app "and" [app "=" [var i "type"; num T_STR];
                      app "str.prefixof" [Lit pfx; var i "str"]]
  end.
Definition pred_sx (ids : gmap string N) (c : ArgConstraint) : sexp :=
  app "and" [app "<" [num (arg_index c); Sym "arg_count"];
             pred_body_sx ids (arg_index c) (arg_pred c)].

Definition fn_sx (f : string) : sexp := app "=" [Sym "fn_name"; Lit f].

Definition rule_parts (ids : gmap string N) (rule : Rule) : list sexp :=
  [app ">=" [Sym "signer_count"; num (principals_floor (rule_principals rule))]] ++
  match rule_functions rule with
  | Some fns => [Sym "ctx_contract"; disj_sx (map fn_sx fns)]
  | None => []
  end ++
  flat_map (λ c, [Sym "ctx_contract"; pred_sx ids c]) (default [] (rule_args rule)).
Definition rule_sx (ids : gmap string N) (rule : Rule) : sexp := conj_sx (rule_parts ids rule).

Definition declare (x sort : string) : sexp := Lst [Sym "declare-const"; Sym x; Sym sort].
Definition assert_sx (e : sexp) : sexp := Lst [Sym "assert"; e].
Definition range_sx (i : N) (field : string) (hi : sexp) : sexp :=
  assert_sx (app "and" [app ">=" [var i field; Sym "0"]; app "<=" [var i field; hi]]).

Definition arg_decls_sx (i : N) : list sexp :=
  [declare (arg_var i "type") "Int"; range_sx i "type" (num T_OTHER);
   declare (arg_var i "addr") "Int";
   declare (arg_var i "u32") "Int"; range_sx i "u32" (Sym "4294967295");
   declare (arg_var i "str") "String"].
Definition decls_sx (idxs : list N) : list sexp :=
  [declare "ctx_contract" "Bool"; declare "fn_name" "String";
   declare "signer_count" "Int"; assert_sx (app ">=" [Sym "signer_count"; Sym "0"]);
   declare "arg_count" "Int"; assert_sx (app ">=" [Sym "arg_count"; Sym "0"])] ++
  flat_map arg_decls_sx idxs.
Definition query_sx (idxs : list N) : sexp :=
  Lst [Sym "get-value";
    Lst (map Sym (["ctx_contract"; "fn_name"; "signer_count"; "arg_count"] ++
      flat_map (λ i, [arg_var i "type"; arg_var i "addr"; arg_var i "u32"; arg_var i "str"])
        idxs))].
Definition script_sx (idxs : list N) (asserts : list sexp) : list sexp :=
  decls_sx idxs ++ map assert_sx asserts ++ [Lst [Sym "check-sat"]; query_sx idxs].

(** ** Their text *)

Ltac same_text :=
  unfold app, var, num, declare, assert_sx, arg_var, newline;
  cbn [render map join];
  rewrite ?string_app_assoc; reflexivity.

Lemma conj_text l : conj_term (map render l) = render (conj_sx l).
Proof. destruct l as [|e [|e' l]]; [done..|]. cbn [map conj_term conj_sx]. same_text. Qed.
Lemma disj_text l : disj (map render l) = render (disj_sx l).
Proof. destruct l as [|e [|e' l]]; [done..|]. cbn [map disj disj_sx]. same_text. Qed.

Lemma smt_string_text s : smt_string s = render (Lit s).
Proof. done. Qed.

Lemma fns_text fns :
  disj (map (λ f, "(= fn_name " +:+ smt_string f +:+ ")") fns) = render (disj_sx (map fn_sx fns)).
Proof. rewrite <- disj_text, map_map. reflexivity. Qed.

(** ** Growing the encoder *)

(** Literals have distinct ids, none of them the account's own. *)
Definition ids_ok (ids : gmap string N) : Prop :=
  (∀ s id, ids !! s = Some id → (1 ≤ id ≤ N.of_nat (size ids))%N) ∧
  (∀ s t id, ids !! s = Some id → ids !! t = Some id → s = t).

(** From [e] to [e'] at most [k] literals, all among [lits], are numbered and
    the indexes [idxs] are recorded. *)
Record grows (k : nat) (lits : list string) (idxs : list N) (e e' : Encoder) : Prop := {
  grows_ok : ids_ok (addr_ids e) → (N.of_nat (size (addr_ids e) + k) < 2 ^ 32)%N →
             ids_ok (addr_ids e');
  grows_incl : addr_ids e ⊆ addr_ids e';
  grows_size : size (addr_ids e') ≤ size (addr_ids e) + k;
  grows_lits s : is_Some (addr_ids e' !! s) → is_Some (addr_ids e !! s) ∨ s ∈ lits;
  grows_idxs j : j ∈ arg_indexes e' ↔ j ∈ idxs ∨ j ∈ arg_indexes e;
}.

Lemma grows_refl e : grows 0 [] [] e e.
Proof. split; [done|done|lia|by left|]. intros j. rewrite elem_of_nil. tauto. Qed.

Lemma grows_trans k1 k2 l1 l2 i1 i2 e1 e2 e3 :
  grows k1 l1 i1 e1 e2 → grows k2 l2 i2 e2 e3 → grows (k1 + k2) (l1 ++ l2) (i1 ++ i2) e1 e3.
Proof.
  intros [A1 B1 C1 D1 E1] [A2 B2 C2 D2 E2]. split.
  - intros Hok Hk. apply A2; [apply A1; [done|]|]; lia.
  - by transitivity (addr_ids e2).
  - lia.
  - intros s [Hs|Hs]%D2; [destruct (D1 s Hs)|]; rewrite ?elem_of_app; auto.
  - intros j. rewrite E2, E1, elem_of_app. tauto.
Qed.

Lemma elem_of_btree_insert i j l : j ∈ btree_insert i l ↔ j = i ∨ j ∈ l.
Proof.
  induction l as [|x l IH]; simpl; [set_solver|].
  destruct (N.ltb_spec i x); [set_solver|]. destruct (N.eqb_spec i x); set_solver.
Qed.

Lemma addr_id_grows e a :
  grows 1 [a] [] e (addr_id e a).2 ∧ addr_ids (addr_id e a).2 !! a = Some (addr_id e a).1.
Proof.
  unfold addr_id. destruct (addr_ids e !! a) as [id|] eqn:Ha; simpl.
  - split; [|done]. destruct (grows_refl e). split; auto; lia.
  - split; [|by rewrite lookup_insert_eq]. split; simpl.
    + intros [Hr Hi] Hk.
      assert (∀ s id, addr_ids e !! s = Some id →
        id ≠ (N.of_nat (size (addr_ids e)) mod 2 ^ 32 + 1) mod 2 ^ 32)%N as Hfresh.
      { intros s id Hs. specialize (Hr _ _ Hs). rewrite !N.mod_small by (rewrite ?N.mod_small; lia).
        lia. }
      split.
      * intros s id. rewrite map_size_insert_None by done.
        rewrite lookup_insert_Some. intros [[<- <-]|[_ Hs]].
        -- rewrite !N.mod_small by (rewrite ?N.mod_small; lia). lia.
        -- specialize (Hr _ _ Hs). lia.
      * intros s t id. rewrite !lookup_insert_Some.
        intros [[<- <-]|[Hn Hs]] [[<- Ht]|[Hn' Ht]]; try done.
        -- by destruct (Hfresh _ _ Ht).
        -- subst. by destruct (Hfresh _ _ Hs).
        -- by eapply Hi.
    + by apply insert_subseteq.
    + rewrite map_size_insert_None by done. lia.
    + intros s. rewrite lookup_insert_is_Some'. intros [<-|Hs]; [right; set_solver|by left].
    + intros j. rewrite elem_of_nil. tauto.
Qed.

Definition pred_lits (p : ArgPred) : list string :=
  match p with AddressEq a => [a] | _ => [] end.

(** The text of a predicate is its term's, numbered as the encoder does. *)
Lemma pred_holds_spec e c ids s e' :
  pred_holds e (arg_index c) (arg_pred c) = (s, e') →
  grows 1 (pred_lits (arg_pred c)) [arg_index c] e e' ∧
  (addr_ids e' ⊆ ids → s = render (pred_sx ids c) ∧
     ∀ a, arg_pred c = AddressEq a → is_Some (ids !! a)).
Proof.
  unfold pred_holds, pred_sx. set (i := arg_index c).
  set (e1 := {| addr_ids := addr_ids e; arg_indexes := btree_insert i (arg_indexes e) |}).
  assert (grows 0 [] [i] e e1) as Hg0.
  { split; [done|done|simpl; lia|by left|]. intros j. simpl. rewrite elem_of_btree_insert. set_solver. }
  assert (grows 1 [] [i] e e1) as Hg1.
  { destruct Hg0. split; auto; try lia. }
  destruct (arg_pred c) as [|a|vs|pfx|n]; cbn [pred_lits pred_body_sx].
  - intros [= <- <-]. split; [done|]. intros _. split; [|done]. same_text.
  - destruct (addr_id_grows e1 a) as [Hg Ha]. destruct (addr_id e1 a) as [id e2]. simpl in Hg, Ha.
    intros [= <- <-]. split; [exact (grows_trans _ _ _ _ _ _ _ _ _ Hg0 Hg)|].
    intros Hids. pose proof (lookup_weaken _ _ _ _ Ha Hids) as Hid. rewrite Hid.
    split; [same_text|]. intros ? [= ->]. by rewrite Hid.
  - intros [= <- <-]. split; [done|]. intros _. split; [|done].
    assert (map (λ v, "(= " +:+ arg_var i "str" +:+ " " +:+ smt_string v +:+ ")")
      (short_values vs) = map render (map (λ v, app "=" [var i "str"; Lit v]) (short_values vs))) as Hm.
    { rewrite map_map. apply map_ext. intros v. unfold smt_string. same_text. }
    fold (short_values vs). rewrite Hm, disj_text. same_text.
  - destruct (Analyze.MAX_STR_ARG_LEN <? String.length pfx); intros [= <- <-];
      (split; [done|]); intros _; (split; [|done]); [same_text|]. unfold smt_string. same_text.
  - intros [= <- <-]. split; [done|]. intros _. split; [|done]. same_text.
Qed.

Definition rule_constraints (rule : Rule) : list ArgConstraint := default [] (rule_args rule).
Definition rule_lits (rule : Rule) : list string :=
  flat_map (λ c, pred_lits (arg_pred c)) (rule_constraints rule).
Definition rule_idxs (rule : Rule) : list N := map arg_index (rule_constraints rule).

(** Every address the rule compares with is numbered. *)
Definition numbered (ids : gmap string N) (rule : Rule) : Prop :=
  Forall (λ c, ∀ a, arg_pred c = AddressEq a → is_Some (ids !! a)) (rule_constraints rule).

Lemma args_allow_spec args e parts texts e' ids :
  args_allow e args (map render parts) = (texts, e') →
  grows (length args) (flat_map (λ c, pred_lits (arg_pred c)) args) (map arg_index args) e e' ∧
  (addr_ids e' ⊆ ids →
     texts = map render (parts ++ flat_map (λ c, [Sym "ctx_contract"; pred_sx ids c]) args) ∧
     Forall (λ c, ∀ a, arg_pred c = AddressEq a → is_Some (ids !! a)) args).
Proof.
  revert e parts. induction args as [|c args IH]; intros e parts; simpl.
  - intros [= <- <-]. split; [apply grows_refl|]. intros _. by rewrite app_nil_r.
  - destruct (pred_holds e (arg_index c) (arg_pred c)) as [s e1] eqn:Hp. intros Ha.
    destruct (pred_holds_spec _ _ (addr_ids e1) _ _ Hp) as [_ [Hs _]]; [done|].
    assert (map render parts ++ ["ctx_contract"; s] =
      map render (parts ++ [Sym "ctx_contract"; pred_sx (addr_ids e1) c])) as Hm
      by (rewrite map_app, Hs; done).
    rewrite Hm in Ha. destruct (IH _ _ Ha) as [Hg Ht].
    destruct (pred_holds_spec _ _ ids _ _ Hp) as [Hg1 Ht1].
    split; [exact (grows_trans _ _ _ _ _ _ _ _ _ Hg1 Hg)|]. intros Hids.
    destruct (Ht Hids) as [-> Hn].
    destruct Ht1 as [Hs1 Ha1]; [transitivity (addr_ids e'); [apply Hg|done]|].
    split; [|by constructor]. cbn [flat_map]. rewrite <- app_assoc, !map_app. do 2 f_equal.
    cbn [map]. by rewrite <- Hs, Hs1.
Qed.

Lemma rule_allows_spec e rule s e' ids :
  enc_rule_allows e rule = (s, e') →
  grows (length (rule_constraints rule)) (rule_lits rule) (rule_idxs rule) e e' ∧
  (addr_ids e' ⊆ ids → s = render (rule_sx ids rule) ∧ numbered ids rule).
Proof.
  unfold enc_rule_allows, rule_sx, rule_parts, numbered, rule_lits, rule_idxs, rule_constraints.
  set (floor := app ">=" [Sym "signer_count"; num (principals_floor (rule_principals rule))]).
  set (fparts := match rule_functions rule with
    | Some fns => [Sym "ctx_contract"; disj_sx (map fn_sx fns)] | None => [] end).
  match goal with |- context [args_allow e _ ?c] => set (conjs := c) end.
  assert (conjs = map render ([floor] ++ fparts)) as ->.
  { unfold conjs, fparts, floor. destruct (rule_functions rule) as [fns|].
    - rewrite map_app, fns_text. f_equal.
    - reflexivity. }
  destruct (rule_args rule) as [args|]; simpl default.
  - destruct (args_allow _ _ _) as [texts e1] eqn:Ha. intros [= <- <-].
    destruct (args_allow_spec _ _ _ _ _ ids Ha) as [Hg Ht]. split; [done|]. intros Hids.
    destruct (Ht Hids) as [-> Hn]. rewrite conj_text, <- app_assoc. done.
  - rewrite conj_text. intros [= <- <-]. split; [apply grows_refl|]. intros _.
    cbn [flat_map]. by rewrite !app_nil_r.
Qed.

(** ** Whole scripts *)

Lemma render_script_app a b : render_script (a ++ b) = render_script a +:+ render_script b.
Proof.
  induction a as [|e a IH]; [done|]. simpl.
  fold (render_script (a ++ b)) (render_script a). by rewrite IH, !string_app_assoc.
Qed.

Lemma declarations_text e : declarations e = render_script (decls_sx (arg_indexes e)).
Proof.
  unfold declarations, decls_sx. rewrite render_script_app.
  assert (fold_right (λ i s, arg_declarations i +:+ s) "" (arg_indexes e) =
    render_script (flat_map arg_decls_sx (arg_indexes e))) as ->.
  { induction (arg_indexes e) as [|i l IH]; [done|]. cbn [fold_right flat_map].
    rewrite render_script_app, IH. f_equal. unfold arg_declarations, arg_decls_sx, range_sx.
    cbn [render_script fold_right]. same_text. }
  cbn [render_script fold_right]. generalize (render_script (flat_map arg_decls_sx (arg_indexes e))).
  intros s. same_text.
Qed.

Lemma query_text e : witness_query e = render (query_sx (arg_indexes e)) +:+ newline.
Proof.
  unfold witness_query, query_sx. cbn [render map join].
  rewrite map_map. rewrite (map_ext (λ x, render (Sym x)) id) by done. rewrite map_id.
  same_text.
Qed.

Lemma script_text e asserts :
  declarations e +:+
  fold_right (λ a s, "(assert " +:+ render a +:+ ")" +:+ newline +:+ s)
    ("(check-sat)" +:+ newline +:+ witness_query e) asserts =
  render_script (script_sx (arg_indexes e) asserts).
Proof.
  unfold script_sx. rewrite !render_script_app, declarations_text, query_text. f_equal.
  induction asserts as [|a l IH]; cbn [fold_right map].
  - cbn [render_script fold_right]. rewrite string_app_nil_l. same_text.
  - rewrite IH. cbn [render_script fold_right]. same_text.
Qed.

(** ** Terms that mean a proposition *)

Definition means (m : assignment) (e : sexp) (P : Prop) : Prop :=
  ∃ b, term m e = Some (SBool b) ∧ (b = true ↔ P).

Section means.
Context (m : assignment).

Lemma means_iff e P Q : means m e P → (P ↔ Q) → means m e Q.
Proof. intros (b & Hb & HP) HPQ. exists b. by rewrite <- HPQ. Qed.

Lemma means_bool e b : term m e = Some (SBool b) → means m e (b = true).
Proof. by exists b. Qed.

Lemma means_decide e P `{!Decision P} : term m e = Some (SBool (bool_decide P)) → means m e P.
Proof. exists (bool_decide P). by rewrite bool_decide_eq_true. Qed.

Lemma means_true e P : means m e P → term m e = Some (SBool true) ↔ P.
Proof.
  intros (b & -> & HP). split; [by intros [= ->]; apply HP|]. intros Hp%HP. by subst.
Qed.

Lemma means_collect es Ps :
  Forall2 (means m) es Ps → ∃ bs, collect (term m) es = Some (map SBool bs) ∧
    Forall2 (λ (b : bool) P, b = true ↔ P) bs Ps.
Proof.
  induction 1 as [|e P es Ps (b & Hb & HP) _ (bs & Hbs & Hall)]; [by exists []|].
  exists (b :: bs). split; [|by constructor]. simpl. by rewrite Hb, Hbs.
Qed.

Lemma collect_as_bool bs : collect as_bool (map SBool bs) = Some bs.
Proof. induction bs as [|b bs IH]; [done|]. simpl. by rewrite IH. Qed.

Lemma means_and es Ps :
  Forall2 (means m) es Ps → means m (app "and" es) (Forall (λ P, P) Ps).
Proof.
  intros (bs & Hbs & Hall)%means_collect. exists (forallb id bs). cbn [app term].
  rewrite Hbs. cbn [mbind option_bind]. unfold apply_op. simpl (String.eqb _ _). cbv iota.
  rewrite collect_as_bool. split; [done|]. clear Hbs.
  induction Hall as [|b P bs Ps Hb _ IH]; simpl; [split; constructor|].
  rewrite andb_true_iff, IH, Forall_cons. unfold id. by rewrite Hb.
Qed.

Lemma means_or es Ps :
  Forall2 (means m) es Ps → means m (app "or" es) (Exists (λ P, P) Ps).
Proof.
  intros (bs & Hbs & Hall)%means_collect. exists (existsb id bs). cbn [app term].
  rewrite Hbs. cbn [mbind option_bind]. unfold apply_op. simpl (String.eqb _ _). cbv iota.
  rewrite collect_as_bool. split; [done|]. clear Hbs.
  induction Hall as [|b P bs Ps Hb _ IH]; simpl; [by rewrite Exists_nil|].
  rewrite orb_true_iff, IH, Exists_cons. unfold id. by rewrite Hb.
Qed.

Lemma means_conj es Ps :
  Forall2 (means m) es Ps → means m (conj_sx es) (Forall (λ P, P) Ps).
Proof.
  intros Hall. destruct Hall as [|e P es Ps He Hes].
  - exists true. by rewrite Forall_nil.
  - destruct Hes as [|e' P' es Ps He' Hes]; cbn [conj_sx].
    + apply (means_iff _ _ _ He). by rewrite Forall_singleton.
    + apply means_and. by repeat constructor.
Qed.

Lemma means_disj {A} (f : A → sexp) (P : A → Prop) l :
  (∀ x, x ∈ l → means m (f x) (P x)) → means m (disj_sx (map f l)) (∃ x, x ∈ l ∧ P x).
Proof.
  intros Hl. assert (Forall2 (means m) (map f l) (map P l)) as Hall.
  { induction l as [|x l IH]; constructor; [apply Hl; left|]. apply IH. intros y Hy.
    apply Hl. by right. }
  apply (means_iff _ (Exists (λ Q, Q) (map P l))).
  - destruct Hall as [|e Q es Qs He Hes].
    + exists false. by rewrite Exists_nil.
    + destruct Hes as [|e' Q' es Qs He' Hes]; cbn [disj_sx].
      * apply (means_iff _ _ _ He). rewrite Exists_cons, Exists_nil. tauto.
      * apply means_or. by repeat constructor.
  - change (map P l) with (P <$> l). rewrite Exists_exists. setoid_rewrite list_elem_of_fmap.
    naive_solver.
Qed.

Lemma means_not e P : means m e P → means m (app "not" [e]) (¬ P).
Proof.
  intros (b & Hb & HP). exists (negb b). simpl. rewrite Hb. simpl. split; [done|].
  destruct b; simpl; intuition congruence.
Qed.

Lemma means_eq_int e f a b :
  term m e = Some (SInt a) → term m f = Some (SInt b) → means m (app "=" [e; f]) (a = b).
Proof.
  intros He Hf. apply (means_iff _ (SInt a = SInt b)); [|split; congruence].
  apply (means_decide _ _). simpl. by rewrite He, Hf.
Qed.
Lemma means_eq_text e f a b :
  term m e = Some (SText a) → term m f = Some (SText b) → means m (app "=" [e; f]) (a = b).
Proof.
  intros He Hf. apply (means_iff _ (SText a = SText b)); [|split; congruence].
  apply (means_decide _ _). simpl. by rewrite He, Hf.
Qed.
Lemma means_lt e f a b :
  term m e = Some (SInt a) → term m f = Some (SInt b) → means m (app "<" [e; f]) (a < b)%Z.
Proof. intros He Hf. exists (a <? b)%Z. simpl. rewrite He, Hf. split; [done|]. apply Z.ltb_lt. Qed.
Lemma means_le e f a b :
  term m e = Some (SInt a) → term m f = Some (SInt b) → means m (app "<=" [e; f]) (a ≤ b)%Z.
Proof. intros He Hf. exists (a <=? b)%Z. simpl. rewrite He, Hf. split; [done|]. apply Z.leb_le. Qed.
Lemma means_ge e f a b :
  term m e = Some (SInt a) → term m f = Some (SInt b) → means m (app ">=" [e; f]) (b ≤ a)%Z.
Proof. intros He Hf. exists (b <=? a)%Z. simpl. rewrite He, Hf. split; [done|]. apply Z.leb_le. Qed.
Lemma term_len e t :
  term m e = Some (SText t) → term m (app "str.len" [e]) = Some (SInt (Z.of_nat (length t))).
Proof. intros He. simpl. by rewrite He. Qed.
Lemma means_prefix e f p t :
  term m e = Some (SText p) → term m f = Some (SText t) →
  means m (app "str.prefixof" [e; f]) (p `prefix_of` t).
Proof.
  intros He Hf. exists (is_prefix_of p t). simpl. rewrite He, Hf. split; [done|].
  clear. revert t. induction p as [|a p IH]; intros [|b t]; simpl.
  - split; [intros; apply prefix_nil|done].
  - split; [intros; apply prefix_nil|done].
  - split; [done|]. intros Hp. by apply prefix_nil_inv in Hp.
  - rewrite andb_true_iff, N.eqb_eq, IH. split.
    + intros [-> Hp]. by apply prefix_cons.
    + intros Hp. split; [by eapply prefix_cons_inv_1|by eapply prefix_cons_inv_2].
Qed.

Lemma numeral_u_to_string n : numeral (u_to_string n) = Some (Z.of_N n).
Proof.
  unfold numeral. destruct (u_to_string_spec n) as (Hd & c & r & Hc & _). rewrite Hd.
  rewrite Hc at 1. simpl (negb _). simpl (andb _ _). cbv iota. do 2 f_equal.
  unfold u_to_string. generalize (size_fuel n). generalize (S (N.size_nat n)) as fuel.
  assert (∀ fuel n acc, (n < 10 ^ N.of_nat fuel)%N →
    fold_left (λ a c, a * 10 + (N_of_ascii c - 48))%N (list_ascii_of_string (dec_loop fuel n acc)) 0%N =
    fold_left (λ a c, a * 10 + (N_of_ascii c - 48))%N (list_ascii_of_string acc) n) as Hl;
    [|intros fuel Hf; by rewrite Hl].
  clear. induction fuel as [|fuel IH]; intros n acc Hf.
  { simpl in *. assert (n = 0)%N as -> by lia. done. }
  pose proof (N.mod_lt n 10 ltac:(lia)) as Hmod.
  pose proof (N.div_mod n 10 ltac:(lia)) as Hdm.
  assert (N_of_ascii (digit (n mod 10)) - 48 = n mod 10)%N as Hdig.
  { clear -Hmod. revert Hmod. generalize (n mod 10)%N. intros d Hd. unfold digit. rewrite N_ascii_embedding by lia. lia. }
  cbn [dec_loop]. destruct (N.eqb_spec (n / 10) 0) as [Hz|Hz].
  - cbn [list_ascii_of_string fold_left]. rewrite Hdig. f_equal. lia.
  - rewrite IH.
    + cbn [list_ascii_of_string fold_left]. rewrite Hdig. f_equal. lia.
    + apply N.Div0.div_lt_upper_bound. rewrite Nat2N.inj_succ, N.pow_succ_r' in Hf. lia.
Qed.

Lemma term_num n : term m (num n) = Some (SInt (Z.of_N n)).
Proof.
  unfold num. cbn [term]. unfold symbol_value. rewrite numeral_u_to_string.
  destruct (u_to_string_spec n) as (_ & c & r & -> & Hc).
  assert (c ≠ "t"%char ∧ c ≠ "f"%char) as [Ht Hf] by (split; intros ->; done).
  simpl. apply Ascii.eqb_neq in Ht, Hf. by rewrite Ht, Hf.
Qed.

Lemma term_var i field : term m (var i field) = m (arg_var i field).
Proof. reflexivity. Qed.
End means.

(** ** Strings *)

Definition codes (s : string) : list N := map N_of_ascii (list_ascii_of_string s).

(** Printable ASCII without a backslash, which could start an escape. *)
Definition plain (s : string) : bool :=
  all_chars (λ c, printable c && negb (Ascii.eqb c backslash)) s.

Lemma N_of_ascii_inj a b : N_of_ascii a = N_of_ascii b → a = b.
Proof. intros E. by rewrite <- (ascii_N_embedding a), E, ascii_N_embedding. Qed.

Lemma codes_inj s t : codes s = codes t ↔ s = t.
Proof.
  split; [|by intros ->]. unfold codes. intros E.
  rewrite <- (string_of_list_ascii_of_string s), <- (string_of_list_ascii_of_string t). f_equal.
  revert E. generalize (list_ascii_of_string t) as y. induction (list_ascii_of_string s) as [|a x IH];
    intros [|b y]; simpl; intros E; try done.
  injection E as ?%N_of_ascii_inj ?%IH. by subst.
Qed.

Lemma length_codes s : length (codes s) = String.length s.
Proof. unfold codes. rewrite length_map. induction s; simpl; auto. Qed.

Lemma codes_bytes s : forallb (λ c, c <=? 196607)%N (codes s) = true.
Proof.
  apply forallb_forall. unfold codes. intros n (c & <- & _)%in_map_iff.
  apply N.leb_le. pose proof (N_ascii_bounded c). lia.
Qed.

Lemma prefix_codes p s : codes p `prefix_of` codes s ↔ String.prefix p s = true.
Proof.
  unfold codes. revert s. induction p as [|a p IH]; intros [|b s]; cbn [list_ascii_of_string map String.prefix].
  - split; [done|intros; apply prefix_nil].
  - split; [done|intros; apply prefix_nil].
  - split; [intros Hp; by apply prefix_nil_inv in Hp|done].
  - destruct (ascii_dec a b) as [->|Hne].
    + rewrite <- IH. split; [apply prefix_cons_inv_2|apply prefix_cons].
    + split; [|done]. intros Hp. by apply prefix_cons_inv_1, N_of_ascii_inj in Hp.
Qed.

Lemma unescape_plain s : plain s = true → unescape s = codes s.
Proof.
  unfold plain, unescape, codes. induction s as [|c s IH]; [done|]. simpl.
  rewrite !andb_true_iff, negb_true_iff. intros [[_ Hc] Hs]. rewrite Hc. f_equal. by apply IH.
Qed.

Lemma plain_readable s : plain s = true → readable (Lit s) = true.
Proof.
  unfold plain. cbn [readable]. induction s as [|c s IH]; [done|]. simpl.
  rewrite !andb_true_iff. intros [[Hc _] Hs]. by rewrite Hc, IH.
Qed.

Lemma term_lit m s : plain s = true → term m (Lit s) = Some (SText (codes s)).
Proof. intros Hs. simpl. by rewrite unescape_plain. Qed.

(** Names of argument variables are apart. *)
Lemma digits_then a b x y :
  all_digits a = true → all_digits b = true → a +:+ "_" +:+ x = b +:+ "_" +:+ y → a = b ∧ x = y.
Proof.
  revert b. induction a as [|c a IH]; intros [|d b] Ha Hb; simpl in *.
  - rewrite !string_app_nil_l. intros [= E]. done.
  - rewrite string_app_nil_l, string_app_cons. intros [= <- _]. by rewrite andb_true_iff in Hb; destruct Hb.
  - rewrite string_app_nil_l, string_app_cons. intros [= -> _]. by rewrite andb_true_iff in Ha; destruct Ha.
  - rewrite !string_app_cons. intros [= -> E]. rewrite andb_true_iff in Ha, Hb.
    destruct (IH b) as [-> ->]; tauto.
Qed.

Lemma u_to_string_inj a b : u_to_string a = u_to_string b → a = b.
Proof. intros E. apply (f_equal numeral) in E. rewrite !numeral_u_to_string in E. by injection E as ?%N2Z.inj. Qed.

Lemma arg_var_inj i j f g : arg_var i f = arg_var j g → i = j ∧ f = g.
Proof.
  unfold arg_var. rewrite !string_app_cons, !string_app_nil_l. intros [= E].
  apply digits_then in E as [E ->]; [|apply u_to_string_spec..]. by apply u_to_string_inj in E.
Qed.

(** ** The assignment that describes a call *)

(** A host value has one type, a [u32] is below 2^32, and a strkey is the only
    spelling of its address. *)
Class ValLaws `{Host} : Prop := {
  address_is_only v a : val_address v = Some a → val_u32 v = None ∧ val_string v = None;
  u32_is_only v n : val_u32 v = Some n → val_string v = None;
  u32_range v n : val_u32 v = Some n → (n < 2 ^ 32)%N;
  spelled_once s t a : address_from_str s = Some a → address_from_str t = Some a → s = t;
}.

Section call.
Context {H : Host} (ids : gmap string N) (idxs : list N) (inputs : EvalInputs).

Definition is_contract : bool :=
  match context inputs with Context_Contract _ => true | _ => false end.
Definition call_fn : string :=
  match context inputs with Context_Contract c => fn_name c | _ => "" end.
Definition call_args : list Val :=
  match context inputs with Context_Contract c => args c | _ => [] end.
Definition arg_at (i : N) : option Val := call_args !! N.to_nat i.

Definition type_tag (v : option Val) : N :=
  match v with
  | None => T_OTHER
  | Some v =>
      if val_address v then T_ADDR else if val_u32 v then T_U32
      else if val_string v then T_STR else T_OTHER
  end.

(** The account is 0, a literal its number, any other address -1. *)
Definition addr_value (a : Address) : Z :=
  if decide (a = self_addr inputs) then 0%Z
  else
    match head (omap (λ p, if decide (address_from_str p.1 = Some a) then Some p.2 else None)
                  (map_to_list ids)) with
    | Some id => Z.of_N id
    | None => (-1)%Z
    end.

Definition arg_value (i : N) (name : string) : option sval :=
  let v := arg_at i in
  if String.eqb name (arg_var i "type") then Some (SInt (Z.of_N (type_tag v)))
  else if String.eqb name (arg_var i "addr") then
    Some (SInt (match v ≫= val_address with Some a => addr_value a | None => -1 end)%Z)
  else if String.eqb name (arg_var i "u32") then
    Some (SInt (Z.of_N (default 0%N (v ≫= val_u32))))
  else if String.eqb name (arg_var i "str") then
    Some (SText (codes (default "" (v ≫= val_string))))
  else None.

Definition asg (name : string) : option sval :=
  if String.eqb name "ctx_contract" then Some (SBool is_contract)
  else if String.eqb name "fn_name" then Some (SText (codes call_fn))
  else if String.eqb name "signer_count" then Some (SInt (Z.of_N (signer_count inputs)))
  else if String.eqb name "arg_count" then Some (SInt (Z.of_nat (length call_args)))
  else head (omap (λ i, arg_value i name) idxs).

Lemma head_omap {A B} (f : A → option B) l x y :
  x ∈ l → f x = Some y → (∀ x', x' ∈ l → is_Some (f x') → x' = x) → head (omap f l) = Some y.
Proof.
  induction l as [|z l IH]; intros Hx Hf Hu; [by apply elem_of_nil in Hx|]. simpl.
  destruct (f z) as [w|] eqn:Hz.
  - assert (z = x) as -> by (apply Hu; [left|by rewrite Hz]). simpl. congruence.
  - apply IH; [|done|]; [set_solver|]. intros. apply Hu; [by right|done].
Qed.

Lemma asg_arg i field v :
  i ∈ idxs → arg_value i (arg_var i field) = Some v → asg (arg_var i field) = Some v.
Proof.
  intros Hi Hv. unfold asg.
  assert (∀ s, (∀ r, s ≠ "arg" +:+ r) → String.eqb (arg_var i field) s = false) as Hne.
  { intros s Hs. apply String.eqb_neq. intros E. by apply (Hs (u_to_string i +:+ "_" +:+ field)). }
  rewrite !Hne by done.
  assert (String.eqb (arg_var i field) "arg_count" = false) as ->.
  { apply String.eqb_neq. unfold arg_var. destruct (u_to_string_spec i) as (_ & c & r & -> & Hc).
    intros E. rewrite !string_app_cons in E. injection E as E _. by subst c. }
  apply (head_omap _ _ i); [done|done|]. intros j _ [w Hw]. unfold arg_value in Hw.
  repeat match type of Hw with context [String.eqb ?a ?b] => destruct (String.eqb_spec a b) as [E|_] end;
    try (by apply arg_var_inj in E as [-> _]). done.
Qed.

Lemma arg_arg_at {T} (f : Val → option T) i : arg f (context inputs) i = arg_at i ≫= f.
Proof. unfold arg, arg_at, call_args. by destruct (context inputs). Qed.

Section in_range.
Context {i : N} (Hi : i ∈ idxs).

Lemma term_type : term asg (var i "type") = Some (SInt (Z.of_N (type_tag (arg_at i)))).
Proof. rewrite term_var. apply asg_arg; [done|]. unfold arg_value. by rewrite String.eqb_refl. Qed.

Ltac other_fields :=
  repeat match goal with |- context [String.eqb (arg_var ?i ?f) (arg_var ?i ?g)] =>
    first [ rewrite (String.eqb_refl (arg_var i f))
          | rewrite (proj2 (String.eqb_neq (arg_var i f) (arg_var i g)))
              by (intros [_ ?]%arg_var_inj; done) ] end.

Lemma term_addr : term asg (var i "addr") =
  Some (SInt (match arg_at i ≫= val_address with Some a => addr_value a | None => -1 end)%Z).
Proof. rewrite term_var. apply asg_arg; [done|]. unfold arg_value. by other_fields. Qed.
Lemma term_u32 : term asg (var i "u32") = Some (SInt (Z.of_N (default 0%N (arg_at i ≫= val_u32)))).
Proof. rewrite term_var. apply asg_arg; [done|]. unfold arg_value. by other_fields. Qed.
Lemma term_str : term asg (var i "str") = Some (SText (codes (default "" (arg_at i ≫= val_string)))).
Proof. rewrite term_var. apply asg_arg; [done|]. unfold arg_value. by other_fields. Qed.
End in_range.

(** ** Predicates and rules *)

Context `{!ValLaws}.
Context (Hids : ids_ok ids)
        (Hself : ∀ s, is_Some (ids !! s) → address_from_str s ≠ Some (self_addr inputs)).

Lemma addr_value_self a : addr_value a = 0%Z ↔ a = self_addr inputs.
Proof.
  unfold addr_value. destruct (decide (a = _)) as [|Hne]; [done|].
  split; [|done]. destruct (head _) as [id|] eqn:Hh; [|done]. intros E.
  apply head_Some_elem_of, list_elem_of_omap in Hh as ([s n] & Hs & Hn).
  apply elem_of_map_to_list in Hs. apply Hids in Hs. simpl in Hn. case_decide; simplify_eq. lia.
Qed.

Lemma addr_value_lit s id a :
  ids !! s = Some id → addr_value a = Z.of_N id ↔ address_from_str s = Some a.
Proof.
  intros Hs. unfold addr_value. destruct (decide (a = _)) as [->|Hne].
  - split; [intros E; pose proof (proj1 Hids _ _ Hs); lia|].
    intros E. by destruct (Hself s ltac:(eauto)).
  - split.
    + destruct (head _) as [n|] eqn:Hh; [|lia]. intros E%N2Z.inj. subst n.
      apply head_Some_elem_of, list_elem_of_omap in Hh as ([t n] & Ht & Hn).
      apply elem_of_map_to_list in Ht. simpl in Hn. case_decide as Hd; simplify_eq.
      by rewrite (proj2 Hids _ _ _ Hs Ht).
    + intros E. rewrite (head_omap _ _ (s, id) id); [done|by apply elem_of_map_to_list|..].
      * simpl. by rewrite decide_True.
      * intros [t n] Ht%elem_of_map_to_list. simpl. case_decide as Hd; [|by intros []].
        intros _. assert (t = s) as -> by by eapply spelled_once. congruence.
Qed.

Definition pred_plain (p : ArgPred) : bool := forallb plain (pred_texts p).

Ltac arg_cases i :=
  destruct (arg_at i) as [v|]; cbn [mbind option_bind type_tag default];
  [ destruct (val_address v) as [a|] eqn:Ea;
    [ destruct (address_is_only v a Ea) as [Eu Es]; rewrite ?Eu, ?Es
    | destruct (val_u32 v) as [k|] eqn:Eu;
      [ pose proof (u32_is_only v k Eu) as Es; rewrite ?Es
      | destruct (val_string v) as [t|] eqn:Es ] ]
  | ].

Lemma means_type i T :
  i ∈ idxs → means asg (app "=" [var i "type"; num T]) (type_tag (arg_at i) = T).
Proof.
  intros Hi. eapply means_iff; [apply means_eq_int; [by apply term_type|apply term_num]|].
  split; [apply N2Z.inj|by intros ->].
Qed.

Lemma term_zero : term asg (Sym "0") = Some (SInt 0).
Proof. reflexivity. Qed.

Lemma means_body c :
  arg_index c ∈ idxs → pred_plain (arg_pred c) = true →
  (∀ a, arg_pred c = AddressEq a → is_Some (ids !! a)) →
  means asg (pred_body_sx ids (arg_index c) (arg_pred c)) (arg_holds inputs c).
Proof.
  intros Hi Hp Hn. unfold arg_holds. rewrite !arg_arg_at. set (i := arg_index c) in *.
  destruct (arg_pred c) as [|s|vs|pfx|n]; cbn [pred_body_sx].
  - eapply means_iff.
    { apply means_and. repeat constructor; [by apply means_type|].
      apply means_eq_int; [by apply term_addr|apply term_zero]. }
    rewrite !Forall_cons, Forall_nil. arg_cases i; try naive_solver.
    rewrite addr_value_self. naive_solver.
  - destruct (Hn s eq_refl) as [id Hid]. rewrite Hid. cbn [default]. eapply means_iff.
    { apply means_and. repeat constructor; [by apply means_type|].
      apply means_eq_int; [by apply term_addr|apply term_num]. }
    rewrite !Forall_cons, Forall_nil. arg_cases i; try naive_solver.
    rewrite (addr_value_lit s id a Hid). naive_solver.
  - eapply means_iff.
    { apply means_and. repeat constructor; [by apply means_type|..].
      - apply means_le; [by apply term_len, term_str|apply term_num].
      - apply (means_disj _ _ (λ v, codes (default "" (arg_at i ≫= val_string)) = codes v)).
        intros v [Hv _]%list_elem_of_In%filter_In. apply means_eq_text; [by apply term_str|].
        apply term_lit. unfold pred_plain in Hp. rewrite forallb_forall in Hp. by apply Hp. }
    rewrite !Forall_cons, Forall_nil. setoid_rewrite codes_inj. rewrite length_codes.
    setoid_rewrite list_elem_of_In. unfold short_values. setoid_rewrite filter_In.
    setoid_rewrite <- list_elem_of_In. setoid_rewrite Nat.leb_le.
    change Analyze.MAX_STR_ARG_LEN with 256. change Program.MAX_STR_ARG_LEN with 256.
    arg_cases i; cbn [default]; try naive_solver.
    rewrite nat_N_Z, <- Nat2Z.inj_le. naive_solver.
  - change Analyze.MAX_STR_ARG_LEN with 256. change Program.MAX_STR_ARG_LEN with 256.
    destruct (Nat.ltb_spec 256 (String.length pfx)) as [Hl|Hl].
    { exists false. split; [done|]. split; [done|]. intros (? & _ & _ & ?). lia. }
    unfold pred_plain in Hp. simpl in Hp. rewrite andb_true_r in Hp. eapply means_iff.
    { apply means_and. repeat constructor; [by apply means_type|].
      apply means_prefix; [by apply term_lit|by apply term_str]. }
    rewrite !Forall_cons, Forall_nil, prefix_codes.
    arg_cases i; cbn [default]; naive_solver.
  - eapply means_iff.
    { apply means_and. repeat constructor; [by apply means_type|].
      apply means_eq_int; [by apply term_u32|apply term_num]. }
    rewrite !Forall_cons, Forall_nil. arg_cases i; cbn [default]; naive_solver.
Qed.

Lemma means_pred c :
  arg_index c ∈ idxs → pred_plain (arg_pred c) = true →
  (∀ a, arg_pred c = AddressEq a → is_Some (ids !! a)) →
  means asg (pred_sx ids c) (arg_holds inputs c).
Proof.
  intros Hi Hp Hn. eapply means_iff.
  { apply means_and. repeat constructor; [|by apply means_body].
    by apply means_lt; [apply term_num|]. }
  rewrite !Forall_cons, Forall_nil. split; [tauto|]. intros Hh. split; [|done].
  assert (is_Some (arg_at (arg_index c))) as Hsome.
  { unfold arg_holds in Hh. rewrite !arg_arg_at in Hh.
    destruct (arg_at (arg_index c)); [done|]. by destruct (arg_pred c); naive_solver. }
  apply lookup_lt_is_Some in Hsome. lia.
Qed.

(** What the encoding covers: plain string constants, and fewer signers and
    constraints than a machine can hold. *)
Definition encodable (rule : Rule) : bool :=
  forallb plain (default [] (rule_functions rule)) &&
  forallb (λ c, pred_plain (arg_pred c)) (rule_constraints rule) &&
  (N.of_nat (length (rule_constraints rule)) <? 2 ^ 31)%N &&
  match rule_principals rule with
  | Principals_All signers => (N.of_nat (length signers) <? 2 ^ 32)%N
  | _ => true
  end.

Lemma floor_same rule :
  encodable rule = true →
  principals_floor (rule_principals rule) = signer_floor (rule_principals rule).
Proof.
  unfold encodable. rewrite !andb_true_iff. intros [_ Hs]. destruct (rule_principals rule); [|done..].
  simpl. unfold len_u32. apply N.ltb_lt in Hs. by rewrite N.mod_small.
Qed.

Lemma means_fns fns :
  forallb plain fns = true →
  means asg (disj_sx (map fn_sx fns)) (call_fn ∈ fns).
Proof.
  intros Hf. rewrite forallb_forall in Hf. eapply means_iff.
  { apply (means_disj _ _ (λ f, codes call_fn = codes f)). intros f Hin.
    apply means_eq_text; [done|]. apply term_lit, Hf. by apply list_elem_of_In. }
  setoid_rewrite codes_inj. naive_solver.
Qed.

(** Under the assignment of a call, the term of a rule is true exactly when
    the rule allows the call. *)
Lemma means_rule rule :
  encodable rule = true → numbered ids rule → (∀ i, i ∈ rule_idxs rule → i ∈ idxs) →
  means asg (rule_sx ids rule) (rule_allows rule inputs).
Proof.
  intros He Hn Hi. pose proof (floor_same _ He) as Hfl. unfold encodable in He.
  rewrite !andb_true_iff in He. destruct He as [[[Hf Hp] _] _].
  unfold numbered in Hn. unfold rule_idxs in Hi. rewrite Forall_forall in Hn.
  rewrite forallb_forall in Hp. setoid_rewrite <- list_elem_of_In in Hp.
  assert (means asg (Sym "ctx_contract") (is_contract = true)) as Hctx
    by by apply means_bool.
  assert (∀ l, (∀ c, c ∈ l → c ∈ rule_constraints rule) → Forall2 (means asg)
    (flat_map (λ c, [Sym "ctx_contract"; pred_sx ids c]) l)
    (flat_map (λ c, [is_contract = true; arg_holds inputs c]) l)) as Hargs.
  { induction l as [|c l IH]; intros Hl; [constructor|]. simpl.
    assert (c ∈ rule_constraints rule) as Hc by (apply Hl; left).
    constructor; [done|]. constructor; [|apply IH; intros; apply Hl; by right].
    apply means_pred; [|by apply Hp|by apply Hn]. apply Hi. by apply list_elem_of_fmap_2. }
  assert (Forall2 (means asg)
    match rule_functions rule with
    | Some fns => [Sym "ctx_contract"; disj_sx (map fn_sx fns)] | None => [] end
    match rule_functions rule with
    | Some fns => [is_contract = true; call_fn ∈ fns] | None => [] end) as Hfns.
  { destruct (rule_functions rule); [|constructor]. repeat constructor; [done|by apply means_fns]. }
  eapply means_iff.
  { apply means_conj. unfold rule_parts. apply Forall2_app; [|apply Forall2_app].
    - repeat constructor. apply means_ge; [done|apply term_num].
    - exact Hfns.
    - by apply (Hargs (rule_constraints rule)). }
  unfold rule_allows. rewrite !Forall_app, Forall_singleton, <- N2Z.inj_le, Hfl.
  apply and_iff_compat_l. apply Morphisms_Prop.and_iff_morphism.
  - destruct (rule_functions rule) as [fns|].
    + rewrite !Forall_cons, Forall_nil. unfold is_contract, call_fn.
      destruct (context inputs); naive_solver.
    + rewrite Forall_nil. naive_solver.
  - unfold rule_constraints. destruct (rule_args rule) as [l|]; cbn [default].
    + transitivity (Forall (arg_holds inputs) l); [|naive_solver].
      clear. induction l as [|c l IH]; simpl; [by rewrite !Forall_nil|].
      rewrite !Forall_cons, IH. split; [tauto|]. intros [Hc Hl]. split; [|done].
      revert Hc. unfold arg_holds. rewrite !arg_arg_at. unfold arg_at, call_args, is_contract.
      destruct (context inputs); [done|..]; destruct (arg_pred c); naive_solver.
    + simpl. rewrite Forall_nil. naive_solver.
Qed.

(** ** The scripts *)

Lemma satisfies_declare m x sort v cmds :
  m x = Some v → has_sort v sort = true →
  satisfies m (declare x sort :: cmds) = satisfies m cmds.
Proof. intros Hx Hs. unfold declare. simpl. by rewrite Hx, Hs. Qed.

Lemma satisfies_assert m e P cmds :
  means m e P → P → satisfies m (assert_sx e :: cmds) = satisfies m cmds.
Proof.
  intros He HP. pose proof (bool_decide_eq_true_2 _ (proj2 (means_true _ _ _ He) HP)) as Hb.
  unfold assert_sx. clear He. destruct e; cbn [satisfies]; by rewrite Hb.
Qed.

Lemma satisfies_range i field hi z n cmds :
  term asg (var i field) = Some (SInt z) → term asg hi = Some (SInt n) → (0 ≤ z ≤ n)%Z →
  satisfies asg (range_sx i field hi :: cmds) = satisfies asg cmds.
Proof.
  intros Hv Hh Hz. apply (satisfies_assert _ _ (Forall (λ P, P) [0 ≤ z; z ≤ n]%Z)).
  - apply means_and. repeat constructor; [by apply means_ge|by apply means_le].
  - repeat constructor; lia.
Qed.

Lemma satisfies_arg_decls i cmds :
  i ∈ idxs → satisfies asg (arg_decls_sx i ++ cmds) = satisfies asg cmds.
Proof.
  intros Hi. cbn [arg_decls_sx List.app].
  pose proof (term_type Hi) as Ht. pose proof (term_addr Hi) as Ha.
  pose proof (term_u32 Hi) as Hu. pose proof (term_str Hi) as Hs.
  rewrite (satisfies_declare asg _ _ _ _ Ht) by done.
  rewrite (satisfies_range _ _ _ _ _ _ Ht (term_num _ _)).
  2:{ split; [lia|]. apply N2Z.inj_le. unfold type_tag.
      repeat (case_match; try done). }
  rewrite (satisfies_declare asg _ _ _ _ Ha) by done.
  rewrite (satisfies_declare asg _ _ _ _ Hu) by done.
  rewrite (satisfies_range _ _ (Sym "4294967295") _ 4294967295 _ Hu eq_refl).
  2:{ split; [lia|]. destruct (arg_at i) as [v|]; simpl; [|lia].
      destruct (val_u32 v) as [n|] eqn:Hn; simpl; [|lia]. apply u32_range in Hn. lia. }
  by rewrite (satisfies_declare asg _ _ _ _ Hs) by apply codes_bytes.
Qed.

Lemma satisfies_script asserts :
  Forall (λ e, term asg e = Some (SBool true)) asserts →
  satisfies asg (script_sx idxs asserts) = true.
Proof.
  intros Ha. unfold script_sx, decls_sx. rewrite <- app_assoc. cbn [List.app].
  rewrite (satisfies_declare _ _ _ (SBool is_contract)) by done.
  rewrite (satisfies_declare _ _ _ (SText (codes call_fn))) by (done || apply codes_bytes).
  rewrite (satisfies_declare _ _ _ (SInt (Z.of_N (signer_count inputs)))) by done.
  rewrite (satisfies_assert _ _ (0 ≤ Z.of_N (signer_count inputs))%Z)
    by ((by apply means_ge) || lia).
  rewrite (satisfies_declare _ _ _ (SInt (Z.of_nat (length call_args)))) by done.
  rewrite (satisfies_assert _ _ (0 ≤ Z.of_nat (length call_args))%Z)
    by ((by apply means_ge) || lia).
  assert (∀ l cmds, (∀ i, i ∈ l → i ∈ idxs) →
    satisfies asg (flat_map arg_decls_sx l ++ cmds) = satisfies asg cmds) as Hdecls.
  { induction l as [|i l IH]; intros cmds Hl; [done|]. cbn [flat_map]. rewrite <- app_assoc.
    rewrite satisfies_arg_decls by (apply Hl; left). apply IH. intros; apply Hl; by right. }
  rewrite Hdecls by done. induction Ha as [|e l He _ IH]; [done|]. cbn [map List.app].
  by rewrite (satisfies_assert _ _ True) by (done || by exists true).
Qed.
End call.

(** *** Readable *)

Lemma digits_symbol s : all_digits s = true → all_chars symbol_char s = true.
Proof.
  induction s as [|c s IH]; [done|]. simpl. rewrite !andb_true_iff. intros [Hc Hs].
  split; [|auto]. unfold is_digit, digit_value in Hc. unfold symbol_char, between.
  apply bool_decide_eq_true in Hc. destruct (_ && _); [done|by destruct Hc].
Qed.

Lemma readable_num n : readable (num n) = true.
Proof.
  unfold num. cbn [readable]. destruct (u_to_string_spec n) as (Hd & c & r & Hc & _).
  rewrite (digits_symbol _ Hd), Hc. done.
Qed.

Lemma all_chars_app f a b : all_chars f (a +:+ b) = all_chars f a && all_chars f b.
Proof.
  induction a as [|c a IH]; [done|]. rewrite string_app_cons. simpl. by rewrite IH, andb_assoc.
Qed.

Lemma readable_var i field :
  all_chars symbol_char field = true → readable (var i field) = true.
Proof.
  intros Hf. unfold var, arg_var. cbn [readable]. rewrite !all_chars_app, Hf.
  rewrite (digits_symbol (u_to_string i)) by apply u_to_string_spec. done.
Qed.

Lemma readable_app op es :
  readable (app op es) = readable (Sym op) && forallb readable es.
Proof. done. Qed.

Create HintDb readable.
#[export] Hint Rewrite readable_app readable_num : readable.
#[export] Hint Rewrite readable_var using reflexivity : readable.
Ltac readable := repeat (progress autorewrite with readable || cbn [forallb]); try done.

Lemma readable_conj l : forallb readable l = true → readable (conj_sx l) = true.
Proof. intros Hl. destruct l as [|e [|e' l]]; simpl in *; [done|by rewrite andb_true_r in Hl|done]. Qed.
Lemma readable_disj l : forallb readable l = true → readable (disj_sx l) = true.
Proof. intros Hl. destruct l as [|e [|e' l]]; simpl in *; [done|by rewrite andb_true_r in Hl|done]. Qed.

Lemma readable_fn f : plain f = true → readable (fn_sx f) = true.
Proof. intros Hf. unfold fn_sx. readable. by rewrite plain_readable. Qed.

Lemma forallb_map_impl {A B} (f : A → B) (p : A → bool) (q : B → bool) l :
  (∀ x, p x = true → q (f x) = true) → forallb p l = true → forallb q (map f l) = true.
Proof.
  intros Hpq. induction l as [|x l IH]; [done|]. simpl. rewrite !andb_true_iff. naive_solver.
Qed.

Lemma readable_pred ids c : pred_plain (arg_pred c) = true → readable (pred_sx ids c) = true.
Proof.
  unfold pred_sx, pred_plain. intros Hp. readable.
  destruct (arg_pred c) as [|s|vs|pfx|n]; cbn [pred_body_sx pred_texts] in *; readable.
  - rewrite readable_disj; [done|]. unfold short_values.
    apply (forallb_map_impl _ plain).
    + intros v Hv. readable. by rewrite plain_readable.
    + rewrite forallb_forall in *. intros v [Hv _]%filter_In. by apply Hp.
  - cbn [forallb] in Hp. rewrite andb_true_r in Hp. case_match; [done|]. readable.
    by rewrite plain_readable.
Qed.

Lemma readable_rule ids rule : encodable rule = true → readable (rule_sx ids rule) = true.
Proof.
  unfold encodable. rewrite !andb_true_iff. intros [[[Hf Hp] _] _]. apply readable_conj.
  unfold rule_parts. rewrite !forallb_app. apply andb_true_iff. split; [readable|].
  apply andb_true_iff. split.
  - destruct (rule_functions rule) as [fns|]; [|done]. cbn [forallb].
    rewrite readable_disj; [done|]. apply (forallb_map_impl _ plain); [apply readable_fn|done].
  - fold (rule_constraints rule). induction (rule_constraints rule) as [|c l IH]; [done|].
    simpl in Hp. apply andb_true_iff in Hp as [Hc Hl]. cbn [flat_map]. rewrite forallb_app.
    rewrite IH by done. cbn [forallb]. by rewrite readable_pred.
Qed.

Lemma readable_declare i field sort :
  all_chars symbol_char field = true → readable (Sym sort) = true →
  readable (declare (arg_var i field) sort) = true.
Proof.
  intros Hf Hs. pose proof (readable_var i field Hf) as Hv. unfold var in Hv.
  change (true && (readable (Sym (arg_var i field)) && (readable (Sym sort) && true)) = true).
  by rewrite Hv, Hs.
Qed.

Lemma readable_range i field hi :
  all_chars symbol_char field = true → readable hi = true → readable (range_sx i field hi) = true.
Proof.
  intros Hf Hh. unfold range_sx. change (assert_sx ?e) with (app "assert" [e]). readable.
  by rewrite readable_var, Hh.
Qed.

Lemma readable_arg_decls i : forallb readable (arg_decls_sx i) = true.
Proof.
  unfold arg_decls_sx. cbn [forallb].
  rewrite !readable_declare, !readable_range by (done || apply readable_num). done.
Qed.

Lemma readable_query idxs : readable (query_sx idxs) = true.
Proof.
  unfold query_sx. change (true && (forallb readable (map Sym (["ctx_contract"; "fn_name"; "signer_count"; "arg_count"] ++
      flat_map (λ i, [arg_var i "type"; arg_var i "addr"; arg_var i "u32"; arg_var i "str"])
        idxs)) && true) = true).
  rewrite map_app, forallb_app. cbn [andb]. rewrite andb_true_r. apply andb_true_iff. split; [done|].
  induction idxs as [|i l IH]; [done|]. cbn [flat_map]. rewrite map_app, forallb_app, IH, andb_true_r.
  change (forallb readable [var i "type"; var i "addr"; var i "u32"; var i "str"] = true).
  readable.
Qed.

Lemma readable_script idxs asserts :
  forallb readable asserts = true → forallb readable (script_sx idxs asserts) = true.
Proof.
  intros Ha. unfold script_sx, decls_sx. rewrite !forallb_app.
  assert (forallb readable (flat_map arg_decls_sx idxs) = true) as ->.
  { induction idxs as [|i l IH]; [done|]. cbn [flat_map].
    by rewrite forallb_app, IH, readable_arg_decls. }
  assert (forallb readable (map assert_sx asserts) = true) as ->.
  { apply (forallb_map_impl _ readable); [|done]. intros e He.
    change (assert_sx e) with (app "assert" [e]). readable. by rewrite He. }
  cbn [forallb]. by rewrite readable_query.
Qed.

(** ** What an answer of [unsat] proves *)

(** z3 answers [unsat] only for scripts no assignment satisfies. *)
Class Z3Sound `{Z3} : Prop :=
  z3_unsat s cmds : head (lines (z3_output s).1) = Some "unsat" →
    read_script s = Some cmds → ∀ m, satisfies m cmds = false.

Lemma run_z3_Unsat `{Z3} s : run_z3 s = Unsat → head (lines (z3_output s).1) = Some "unsat".
Proof.
  unfold run_z3. destruct (z3_output s) as [out err]. simpl.
  destruct (lines out) as [|first rest]; [done|].
  destruct (String.eqb_spec first "unsat") as [->|]; [done|]. by destruct (String.eqb _ _).
Qed.

Section sound.
Context {H : Host} `{!ValLaws} `{Z3} `{!Z3Sound}.

(** The account's address is none of the rule's literals: the assumption the
    analyzer states. *)
Definition self_apart (rule : Rule) (inputs : EvalInputs) : Prop :=
  ∀ s, s ∈ rule_lits rule → address_from_str s ≠ Some (self_addr inputs).

Lemma unsat_refutes idxs asserts ids inputs :
  run_z3 (render_script (script_sx idxs asserts)) = Unsat →
  forallb readable asserts = true →
  ¬ Forall (λ e, term (asg ids idxs inputs) e = Some (SBool true)) asserts.
Proof.
  intros Hz Hr Hall. pose proof (z3_unsat _ _ (run_z3_Unsat _ Hz)
    (read_render_script _ (readable_script _ _ Hr)) (asg ids idxs inputs)) as Hf.
  by rewrite satisfies_script in Hf.
Qed.
End sound.
