(* ===== verification/AnalyzeSound.v ===== *)
(** * What the analyzer's answers prove

    Soundness of the four checks of [perch-analyze] for a solver that answers
    [unsat] only for unsatisfiable scripts: a rule reported dead allows no
    call, a function [can_call] rules out is never authorized, [only_calls]
    without violations confines the policy, and [narrows] without findings is
    a narrowing, down to the programs the rules lower to.  The last section
    shows why string constants with a backslash are excluded. *)

From S2P Require Import Prelude Host Doc Canon Text Parse RoundTrip Validate Program Compile Smt Analyze AnalyzeFacts.
#[local] Open Scope string_scope.
#[local] Open Scope list_scope.
#[local] Open Scope nat_scope.

Section checks.
Context {H : Host} `{!ValLaws} `{Z3} `{!Z3Sound}.

Lemma ids_ok_new : ids_ok (addr_ids Encoder_new).
Proof. split; simpl; intros ? ?; rewrite lookup_empty; done. Qed.

Lemma encodable_few rule :
  encodable rule = true → (N.of_nat (length (rule_constraints rule)) < 2 ^ 31)%N.
Proof. unfold encodable. rewrite !andb_true_iff. intros [[_ Hn] _]. by apply N.ltb_lt. Qed.

(** Encoding one rule on a fresh encoder. *)
Lemma encoded_one rule s e inputs :
  enc_rule_allows Encoder_new rule = (s, e) → encodable rule = true → self_apart rule inputs →
  s = render (rule_sx (addr_ids e) rule) ∧
  means (asg (addr_ids e) (arg_indexes e) inputs) (rule_sx (addr_ids e) rule)
    (rule_allows rule inputs).
Proof.
  intros He Henc Hself. destruct (rule_allows_spec _ _ _ _ (addr_ids e) He) as [[A _ _ D E] Ht].
  destruct Ht as [Hs Hn]; [done|]. split; [done|]. apply means_rule; [done| | |done|done|].
  - apply A; [apply ids_ok_new|]. pose proof (encodable_few _ Henc).
    change (size (addr_ids Encoder_new)) with 0. lia.
  - intros t Ht. destruct (D t Ht) as [Hn0|Hl]; [|by apply Hself].
    simpl in Hn0. rewrite lookup_empty in Hn0. by destruct Hn0.
  - intros i Hi. apply E. by left.
Qed.

(** Encoding two rules one after the other. *)
Lemma encoded_two c p sc sp e1 e2 inputs :
  enc_rule_allows Encoder_new c = (sc, e1) → enc_rule_allows e1 p = (sp, e2) →
  encodable c = true → encodable p = true → self_apart c inputs → self_apart p inputs →
  (sc = render (rule_sx (addr_ids e2) c) ∧ sp = render (rule_sx (addr_ids e2) p)) ∧
  means (asg (addr_ids e2) (arg_indexes e2) inputs) (rule_sx (addr_ids e2) c)
    (rule_allows c inputs) ∧
  means (asg (addr_ids e2) (arg_indexes e2) inputs) (rule_sx (addr_ids e2) p)
    (rule_allows p inputs).
Proof.
  intros E1 E2 Hc Hp Sc Sp.
  destruct (rule_allows_spec _ _ _ _ (addr_ids e2) E1) as [G1 T1].
  destruct (rule_allows_spec _ _ _ _ (addr_ids e2) E2) as [G2 T2].
  destruct T1 as [Ec Nc]; [apply G2|]. destruct T2 as [Ep Np]; [done|].
  pose proof (grows_trans _ _ _ _ _ _ _ _ _ G1 G2) as [A _ _ D E].
  assert (ids_ok (addr_ids e2)) as Hok.
  { apply A; [apply ids_ok_new|]. pose proof (encodable_few _ Hc).
    pose proof (encodable_few _ Hp).
    change (size (addr_ids Encoder_new)) with 0. lia. }
  assert (∀ t, is_Some (addr_ids e2 !! t) → address_from_str t ≠ Some (self_addr inputs)) as Hself.
  { intros t Ht. destruct (D t Ht) as [Hn0|Hl].
    - simpl in Hn0. rewrite lookup_empty in Hn0. by destruct Hn0.
    - apply elem_of_app in Hl as [?|?]; [by apply Sc|by apply Sp]. }
  split; [done|]. split; apply means_rule; try done;
    intros i Hi; apply E; left; apply elem_of_app; auto.
Qed.

(** A script with the assertions [asserts] was refuted: they do not all hold
    of any call. *)
Lemma refuted e asserts Ps inputs :
  run_z3 (render_script (script_sx (arg_indexes e) asserts)) = Unsat →
  forallb readable asserts = true →
  Forall2 (means (asg (addr_ids e) (arg_indexes e) inputs)) asserts Ps →
  ¬ Forall (λ P, P) Ps.
Proof.
  intros Hz Hr Hm HP. apply (unsat_refutes _ _ (addr_ids e) inputs Hz Hr). clear Hz Hr.
  induction Hm as [|a P asserts Ps Ha _ IH]; constructor.
  - apply (means_true _ _ _ Ha). by inversion HP.
  - apply IH. by inversion HP.
Qed.

(** ** Dead rules *)

(** A rule [dead_rules] answers [Unsat] for allows no call at all. *)
Theorem dead_rules_sound doc k r rule inputs :
  dead_rules doc !! k = Some r → rl_verdict r = Unsat → doc_rules doc !! k = Some rule →
  encodable rule = true → self_apart rule inputs → ¬ rule_allows rule inputs.
Proof.
  unfold dead_rules. change (map ?f ?l) with (f <$> l). rewrite list_lookup_fmap.
  intros Hr Hv Hk Henc Hself Hallow. rewrite Hk in Hr. simpl in Hr.
  destruct (enc_rule_allows Encoder_new rule) as [s e] eqn:He. injection Hr as <-. simpl in Hv.
  destruct (encoded_one _ _ _ inputs He Henc Hself) as [-> Hm].
  pose proof (script_text e [rule_sx (addr_ids e) rule]) as Ht. cbn [fold_right] in Ht.
  rewrite Ht in Hv. apply (refuted e _ [rule_allows rule inputs] inputs Hv).
  - cbn [forallb]. by rewrite readable_rule.
  - by apply Forall2_cons_2.
  - by apply Forall_singleton.
Qed.

(** ** Intent conformance *)

Lemma only_calls_refuted rule allowed inputs c :
  run_z3 (only_calls_script rule allowed) = Unsat → forallb plain allowed = true →
  encodable rule = true → self_apart rule inputs →
  rule_allows rule inputs → context inputs = Context_Contract c → fn_name c ∈ allowed.
Proof.
  unfold only_calls_script. destruct (enc_rule_allows Encoder_new rule) as [s e] eqn:He.
  intros Hz Hp Henc Hself Hallow Hc. destruct (encoded_one _ _ _ inputs He Henc Hself) as [-> Hm].
  set (outside := map (λ f, app "not" [fn_sx f]) allowed).
  assert (map (λ f, "(not (= fn_name " +:+ smt_string f +:+ "))") allowed = map render outside) as Ho.
  { unfold outside. rewrite map_map. apply map_ext. intros f. unfold smt_string, fn_sx. same_text. }
  rewrite Ho, conj_text in Hz.
  pose proof (script_text e [rule_sx (addr_ids e) rule; Sym "ctx_contract"; conj_sx outside]) as Ht.
  cbn [fold_right] in Ht.
  match type of Hz with run_z3 ?x = _ => match type of Ht with ?y = _ =>
    assert (x = y) as Hxy by (cbn [render]; rewrite ?string_app_assoc; reflexivity) end end.
  rewrite Hxy, Ht in Hz. clear Hxy Ht Ho.
  assert (forallb readable outside = true) as Hro.
  { apply (forallb_map_impl _ plain); [|done]. intros f Hf. rewrite readable_app.
    cbn [forallb]. by rewrite readable_fn. }
  destruct (decide (fn_name c ∈ allowed)) as [|Hout]; [done|]. exfalso.
  rewrite forallb_forall in Hp.
  apply (refuted e _ [rule_allows rule inputs; is_contract inputs = true;
    Forall (λ P, P) (map (λ f, ¬ (codes (call_fn inputs) = codes f)) allowed)] inputs Hz).
  - cbn [forallb]. by rewrite readable_rule, readable_conj.
  - apply Forall2_cons_2; [done|]. apply Forall2_cons_2; [by apply means_bool|].
    apply Forall2_cons_2; [|constructor]. apply means_conj. unfold outside.
    clear Hz Hro Hout. induction allowed as [|f l IH]; constructor.
    + apply means_not, means_eq_text; [done|]. apply term_lit, Hp. by left.
    + apply IH. intros x Hx. apply Hp. by right.
  - rewrite !Forall_cons, Forall_nil. 
    split; [done|]. split; [|split; [|done]].
    + unfold is_contract. by rewrite Hc.
    + apply Forall_map, Forall_forall. intros f Hf. rewrite codes_inj. unfold call_fn.
      rewrite Hc. intros E. by subst f.
Qed.

(** ** Reachability *)

(** When [can_call] does not answer [Sat] for a rule because z3 refuted it, the
    rule authorizes no call of the function. *)
Theorem can_call_sound doc function inputs c rule :
  Forall (λ r, rl_verdict r = Unsat) (can_call doc function) → plain function = true →
  rule ∈ doc_rules doc → (∃ a, rule_scope rule = Scope_Contract a) →
  encodable rule = true → self_apart rule inputs →
  context inputs = Context_Contract c → fn_name c = function → ¬ rule_allows rule inputs.
Proof.
  intros Hall Hp Hr [a Ha] Henc Hself Hc Hf Hallow. unfold can_call in Hall.
  rewrite Forall_forall in Hall.
  destruct (enc_rule_allows Encoder_new rule) as [s e] eqn:He.
  destruct (encoded_one _ _ _ inputs He Henc Hself) as [-> Hm].
  match type of Hall with ∀ x, x ∈ flat_map ?g _ → _ =>
    assert (∀ x, x ∈ g rule → rl_verdict x = Unsat) as Hz end.
  { intros x Hx. apply Hall, list_elem_of_In, in_flat_map. exists rule.
    by rewrite <- !list_elem_of_In. }
  cbv beta in Hz. rewrite Ha, He in Hz. specialize (Hz _ (list_elem_of_here _ _)). simpl rl_verdict in Hz.
  pose proof (script_text e [rule_sx (addr_ids e) rule; Sym "ctx_contract"; fn_sx function]) as Ht.
  cbn [fold_right] in Ht.
  match type of Hz with run_z3 ?x = _ => match type of Ht with ?y = _ =>
    assert (x = y) as Hxy by
      (unfold fn_sx, smt_string, app; cbn [render map join]; rewrite ?string_app_assoc; reflexivity)
  end end.
  rewrite Hxy, Ht in Hz. clear Hxy Ht.
  apply (refuted e _ [rule_allows rule inputs; is_contract inputs = true;
    codes (call_fn inputs) = codes function] inputs Hz).
  - cbn [forallb]. by rewrite readable_rule, readable_fn.
  - apply Forall2_cons_2; [done|]. apply Forall2_cons_2; [by apply means_bool|].
    apply Forall2_cons_2; [|constructor]. apply means_eq_text; [done|by apply term_lit].
  - rewrite !Forall_cons, Forall_nil. unfold is_contract, call_fn. rewrite Hc, Hf. done.
Qed.

(** ** Narrowing *)

Lemma narrows_refuted prule crule inputs :
  run_z3 (narrows_script prule crule) = Unsat →
  encodable crule = true → encodable prule = true →
  self_apart crule inputs → self_apart prule inputs →
  rule_allows crule inputs → rule_allows prule inputs.
Proof.
  unfold narrows_script. destruct (enc_rule_allows Encoder_new crule) as [sc e1] eqn:E1.
  destruct (enc_rule_allows e1 prule) as [sp e] eqn:E2. intros Hz Hc Hp Sc Sp Hallow.
  destruct (encoded_two _ _ _ _ _ _ inputs E1 E2 Hc Hp Sc Sp) as [[-> ->] [Mc Mp]].
  pose proof (script_text e [rule_sx (addr_ids e) crule; app "not" [rule_sx (addr_ids e) prule]]) as Ht.
  cbn [fold_right] in Ht.
  match type of Hz with run_z3 ?x = _ => match type of Ht with ?y = _ =>
    assert (x = y) as Hxy by
      (unfold app; cbn [render map join]; rewrite ?string_app_assoc; reflexivity) end end.
  rewrite Hxy, Ht in Hz. clear Hxy Ht.
  destruct Mp as (b & Hb & HP). destruct b; [by apply HP|]. exfalso.
  apply (refuted e _ [rule_allows crule inputs; ¬ rule_allows prule inputs] inputs Hz).
  - cbn [forallb]. rewrite readable_app. cbn [forallb]. by rewrite !readable_rule.
  - apply Forall2_cons_2; [done|]. apply Forall2_cons_2; [|constructor]. apply means_not.
    by exists false.
  - rewrite !Forall_cons, Forall_nil. split; [done|]. split; [|done]. by rewrite <- HP.
Qed.
End checks.

(** ** The command line *)

Section command_line.
Context {H : Host} `{!ValLaws, !SymbolLaw} `{Z3} `{!Z3Sound} `{JsonLexer, HexCodec}.
Context (read_to_string : string → option string).

(** A rule is in force on the ledgers before its expiry. *)
Definition in_force (rule : Rule) (ledger : N) : Prop :=
  match rule_not_after_ledger rule with Some x => (ledger < x)%N | None => True end.

(** Every cap of the parent is kept, on the same token, with no more to spend
    over no shorter a window. *)
Definition cap_kept (prule crule : Rule) : Prop :=
  ∀ p, rule_cap prule = Some p → ∃ c, rule_cap crule = Some c ∧
    cap_token c = cap_token p ∧ (limit_or_max (cap_limit c) ≤ limit_or_max (cap_limit p))%Z ∧
    (cap_period_ledgers p ≤ cap_period_ledgers c)%N.

Lemma expiry_extended_false prule crule :
  expiry_extended (rule_not_after_ledger prule) (rule_not_after_ledger crule) = false →
  ∀ ledger, in_force crule ledger → in_force prule ledger.
Proof.
  unfold in_force. destruct (rule_not_after_ledger prule) as [p|], (rule_not_after_ledger crule) as [c|];
    simpl; intros Hx ledger; [|done..]. apply N.ltb_ge in Hx. lia.
Qed.

Lemma cap_loosened_false prule crule :
  cap_loosened (rule_cap prule) (rule_cap crule) = false → cap_kept prule crule.
Proof.
  unfold cap_kept. destruct (rule_cap prule) as [p|], (rule_cap crule) as [c|]; simpl; try done.
  rewrite !orb_false_iff, negb_false_iff, bool_decide_eq_true, Z.ltb_ge, N.ltb_ge.
  intros [[Ht Hl] Hw] ? [= <-]. eauto.
Qed.

Lemma narrows_rule_nil parent crule :
  narrows_rule parent crule = [] →
  ∃ prule, prule ∈ doc_rules parent ∧ rule_name prule = rule_name crule ∧
    rule_scope prule = rule_scope crule ∧ run_z3 (narrows_script prule crule) = Unsat ∧
    (∀ ledger, in_force crule ledger → in_force prule ledger) ∧ cap_kept prule crule.
Proof.
  unfold narrows_rule. destruct (find_first _ _) as [prule|] eqn:Hf; [|done].
  apply find_first_Some in Hf as [Hin Hname]. apply String.eqb_eq in Hname.
  destruct (bool_decide (rule_scope prule = _)) eqn:Hs; [|done]. simpl.
  apply bool_decide_eq_true in Hs. intros [Hz [Hx Hc]%app_eq_nil]%app_eq_nil.
  exists prule. split_and!; [done|done|done|..].
  - by destruct (run_z3 _).
  - apply expiry_extended_false. by destruct (expiry_extended _ _).
  - apply cap_loosened_false. by destruct (cap_loosened _ _).
Qed.

(** C21: The narrowing check of the command line is sound down to the
    programs.  When [perch-analyze narrows parent child] exits with success,
    both files hold valid documents and every rule of the child has a rule of
    the parent with its name and scope that is in force whenever it is, keeps
    its cap, and allows every call it allows; and where both rules lower to
    interpreter programs, every call the child's program evaluates to [True]
    the parent's does too.  Assumed are the solver's soundness and, for the
    last two, that the two rules are [encodable] (string constants of printable
    ASCII without a backslash, fewer than [2^31] constraints) and [self_apart]
    (the calling account's address is none of their literals); without the
    first the claim is false, as [AnalyzeDemo.narrows_reads_escapes] shows. *)
Theorem narrows_exit_code_sound z3_available ppath cpath :
  main read_to_string z3_available ["narrows"; ppath; cpath] = SUCCESS →
  ∃ parent child, load read_to_string ppath = Some parent ∧ load read_to_string cpath = Some child ∧
  ∀ crule, crule ∈ doc_rules child →
  ∃ prule, prule ∈ doc_rules parent ∧ rule_name prule = rule_name crule ∧
    rule_scope prule = rule_scope crule ∧
    (∀ ledger, in_force crule ledger → in_force prule ledger) ∧ cap_kept prule crule ∧
    ∀ inputs, encodable crule = true → encodable prule = true →
      self_apart crule inputs → self_apart prule inputs →
      (rule_allows crule inputs → rule_allows prule inputs) ∧
      ∀ e lc lp pc pp,
        lower_rule child crule = Ok lc → lr_install lc = Some pc →
        lower_rule parent prule = Ok lp → lr_install lp = Some pp →
        eval e (program pc) inputs = Ok VTrue → eval e (program pp) inputs = Ok VTrue.
Proof.
  unfold main. destruct z3_available; [|done]. simpl.
  destruct (load read_to_string ppath) as [parent|]; [|done].
  destruct (load read_to_string cpath) as [child|]; [|done].
  destruct (narrows parent child) as [|f l] eqn:Hn; [|done]. intros _.
  exists parent, child. split_and!; [done..|]. intros crule Hc.
  assert (narrows_rule parent crule = []) as Hr.
  { unfold narrows in Hn. revert Hn Hc. clear. generalize (doc_rules child) as rules.
    induction rules as [|r rules IH]; simpl; [set_solver|].
    intros [Hr Hrest]%app_eq_nil [->|Hc]%elem_of_cons; auto. }
  destruct (narrows_rule_nil _ _ Hr) as (prule & Hp & Hname & Hscope & Hz & Hx & Hcap).
  exists prule. split_and!; [done..|]. intros inputs Ec Ep Sc Sp.
  pose proof (narrows_refuted _ _ inputs Hz Ec Ep Sc Sp) as Hnarrow. split; [done|].
  intros e lc lp pc pp Hlc Hic Hlp Hip.
  rewrite (lowered_meaning _ _ _ _ _ _ Hlc Hic), (lowered_meaning _ _ _ _ _ _ Hlp Hip). done.
Qed.

(** Intent conformance.  When [perch-analyze only-calls doc contract
    functions] exits with success, the file holds a valid document and on that
    contract none of its rules allows a call to a function outside the list,
    nor does the program any of them lowers to evaluate such a call to
    [True]. *)
Theorem only_calls_exit_code_sound z3_available path contract allowed :
  main read_to_string z3_available ("only-calls" :: path :: contract :: allowed) = SUCCESS →
  ∃ doc, load read_to_string path = Some doc ∧
  ∀ rule inputs c, rule ∈ doc_rules doc → rule_scope rule = Scope_Contract contract →
    forallb plain allowed = true → encodable rule = true → self_apart rule inputs →
    context inputs = Context_Contract c →
    (rule_allows rule inputs → fn_name c ∈ allowed) ∧
    ∀ e lr params, lower_rule doc rule = Ok lr → lr_install lr = Some params →
      eval e (program params) inputs = Ok VTrue → fn_name c ∈ allowed.
Proof.
  unfold main. destruct z3_available; [|done]. simpl.
  destruct (bool_decide (allowed = [])); [done|].
  destruct (load read_to_string path) as [doc|]; [|done].
  destruct (only_calls doc contract allowed) as [|v l] eqn:Hn; [|done]. intros _.
  exists doc. split; [done|]. intros rule inputs c Hr Hscope Hp He Hself Hc.
  assert (run_z3 (only_calls_script rule allowed) = Unsat) as Hz.
  { unfold only_calls in Hn. revert Hn Hr. clear -Hscope. generalize (doc_rules doc) as rules.
    induction rules as [|r rules IH]; simpl; [set_solver|].
    intros [Hr Hrest]%app_eq_nil [->|Hin]%elem_of_cons; [|auto]. unfold on_target in Hr.
    rewrite Hscope, String.eqb_refl in Hr. by destruct (run_z3 _). }
  pose proof (λ Ha, only_calls_refuted _ _ inputs c Hz Hp He Hself Ha Hc) as Hin.
  split; [done|]. intros e lr params Hl Hi. by rewrite (lowered_meaning _ _ _ _ _ _ Hl Hi).
Qed.
End command_line.
