(* ===== verification/AnalyzeDemo.v ===== *)
(** * The analyzer on concrete documents

    Scripts that are unsatisfiable, a solver that knows them, the analyzer run
    on two documents with it, and why constants with a backslash have to be
    kept out. *)

From S2P Require Import Prelude Host Doc Canon Text Parse RoundTrip Validate Program Compile Smt Analyze AnalyzeFacts AnalyzeSound.
#[local] Open Scope string_scope.
#[local] Open Scope list_scope.
#[local] Open Scope nat_scope.

(** ** Unsatisfiable scripts *)

Lemma satisfies_declare_inv m x sort cmds :
  satisfies m (declare x sort :: cmds) = true → satisfies m cmds = true.
Proof. unfold declare. cbn [satisfies]. by rewrite !andb_true_iff; intros [_ ?]. Qed.

Lemma satisfies_assert_inv m e cmds :
  satisfies m (assert_sx e :: cmds) = true →
  term m e = Some (SBool true) ∧ satisfies m cmds = true.
Proof.
  intros Hs. assert (bool_decide (term m e = Some (SBool true)) = true ∧
    satisfies m cmds = true) as [?%bool_decide_eq_true ?]; [|done].
  unfold assert_sx in Hs. destruct e; cbn [satisfies] in Hs;
    rewrite !andb_true_iff in Hs; by destruct Hs as [[_ Hb] Hc].
Qed.

(** An assignment that satisfies a script makes its assertions true. *)
Lemma satisfies_script_inv m idxs asserts :
  satisfies m (script_sx idxs asserts) = true →
  Forall (λ e, term m e = Some (SBool true)) asserts.
Proof.
  unfold script_sx, decls_sx. rewrite <- app_assoc. cbn [List.app]. intros Hs.
  repeat first [apply satisfies_declare_inv in Hs | apply satisfies_assert_inv in Hs as [_ Hs]].
  assert (∀ l cmds, satisfies m (flat_map arg_decls_sx l ++ cmds) = true →
    satisfies m cmds = true) as Hdecls.
  { induction l as [|i l IH]; intros cmds Hl; [done|]. cbn [flat_map] in Hl.
    rewrite <- app_assoc in Hl. unfold arg_decls_sx, range_sx in Hl. cbn [List.app] in Hl.
    repeat first [apply satisfies_declare_inv in Hl | apply satisfies_assert_inv in Hl as [_ Hl]].
    by apply IH. }
  apply Hdecls in Hs. clear Hdecls. induction asserts as [|e l IH]; [constructor|].
  apply satisfies_assert_inv in Hs as [He Hs]. constructor; [done|by apply IH].
Qed.

Lemma term_and_inv m es :
  term m (app "and" es) = Some (SBool true) ↔ Forall (λ e, term m e = Some (SBool true)) es.
Proof.
  unfold app. cbn [term]. unfold apply_op. simpl (String.eqb _ _). cbv iota.
  induction es as [|e es IH]; [by split; [constructor|]|].
  rewrite Forall_cons, <- IH. clear IH. cbn [collect].
  destruct (term m e) as [v|]; [|by split; [|intros [? _]]]. cbn [mbind option_bind].
  destruct (collect (term m) es) as [vs|]; cbn [mbind option_bind]; [|by split; [|intros [_ ?]]].
  cbn [collect]. destruct v as [b| |]; cbn [as_bool mbind option_bind];
    [|by split; [|intros [? _]]..].
  destruct (collect as_bool vs) as [bs|]; cbn [mbind option_bind]; [|by split; [|intros [_ ?]]].
  cbn [forallb]. destruct b; [by split; [intros|intros [_ ?]]|by split; [|intros [? _]]].
Qed.

Lemma term_not_inv m e : term m (app "not" [e]) = Some (SBool true) → term m e ≠ Some (SBool true).
Proof. unfold app. simpl. intros Hn He. rewrite He in Hn. done. Qed.

Lemma unsatisfiable idxs asserts :
  (∀ m, ¬ Forall (λ e, term m e = Some (SBool true)) asserts) →
  ∀ m, satisfies m (script_sx idxs asserts) = false.
Proof.
  intros Hu m. apply not_true_iff_false. intros Hs. by apply (Hu m), (satisfies_script_inv m idxs).
Qed.

(** A solver that knows a list of unsatisfiable scripts and gives up on every
    other. *)
Definition knows (scripts : list string) : Z3 :=
  λ s, if contains scripts s then ("unsat" +:+ newline, "") else ("unknown" +:+ newline, "").

Lemma knows_sound scripts :
  Forall (λ s, ∀ cmds, read_script s = Some cmds → ∀ m, satisfies m cmds = false) scripts →
  Z3Sound (H := knows scripts).
Proof.
  intros Hall s cmds. unfold z3_output, knows. destruct (contains scripts s) eqn:Hc; [|done].
  intros _. apply contains_true in Hc. rewrite Forall_forall in Hall. by apply Hall.
Qed.

(** ** Two documents *)

Definition AnalyzeHost : Host := {|
  Address := string;
  address_from_str s := Some s;
  address_to_xdr s := s;
  symbol_new s := Some s;
  Val := demo_val;
  val_address v := match v with DVAddress s => Some s | _ => None end;
  val_symbol v := match v with DVSymbol s => Some s | _ => None end;
  val_string v := match v with DVString s => Some s | _ => None end;
  val_bytes v := match v with DVBytes s => Some s | _ => None end;
  val_u32 v := match v with DVU32 n => if (n <? 2 ^ 32)%N then Some n else None | _ => None end;
  val_i128 v := match v with DVI128 z => Some z | _ => None end;
  sha256 s := s;
|}.
#[local] Existing Instance AnalyzeHost.
#[local] Existing Instance DemoHex.
#[local] Existing Instance canonical_lexer.
Import CompileDemo.

#[local] Instance demo_val_laws : ValLaws.
Proof.
  split; simpl.
  - intros [] a; by intros [= ->].
  - intros [] k; try done.
  - intros [] k; try done. destruct (N.ltb_spec n (2 ^ 32)); [|done]. by intros [= <-].
  - congruence.
Qed.

#[local] Instance analyze_symbol_law : SymbolLaw.
Proof. intros s t [= <-]. done. Qed.

(** The parent lets one of alice and bob call [transfer]; the child also wants
    the account itself to be the sender. *)
Definition files (path : string) : option string :=
  if String.eqb path "parent.json" then Some (canonical_json (pay_doc None))
  else if String.eqb path "child.json" then Some (canonical_json (pay_doc from_self))
  else None.

Definition child_terms : list sexp :=
  [rule_sx ∅ (pay_rule from_self); app "not" [rule_sx ∅ (pay_rule None)]].
Definition only_terms : list sexp :=
  [rule_sx ∅ (pay_rule None); Sym "ctx_contract"; app "not" [fn_sx "transfer"]].

Definition demo_scripts : list string :=
  [narrows_script (pay_rule None) (pay_rule from_self);
   only_calls_script (pay_rule None) ["transfer"]].

Lemma demo_scripts_read :
  read_script (narrows_script (pay_rule None) (pay_rule from_self)) =
    Some (script_sx [0%N] child_terms) ∧
  read_script (only_calls_script (pay_rule None) ["transfer"]) = Some (script_sx [] only_terms).
Proof. split; vm_compute; reflexivity. Qed.

#[local] Instance demo_z3 : Z3 := knows demo_scripts.
#[local] Instance demo_z3_sound : Z3Sound.
Proof.
  destruct demo_scripts_read as [R1 R2].
  apply knows_sound. constructor; [|constructor; [|constructor]].
  - intros cmds. rewrite R1. intros [= <-]. apply unsatisfiable. intros m Hall.
    inversion_clear Hall as [|? ? Hc Hp]. inversion_clear Hp as [|? ? Hn _].
    apply term_not_inv in Hn. apply Hn, term_and_inv. apply term_and_inv in Hc.
    by apply (Forall_take _ 3) in Hc.
  - intros cmds. rewrite R2. intros [= <-]. apply unsatisfiable. intros m Hall.
    inversion_clear Hall as [|? ? Hc Hp]. inversion_clear Hp as [|? ? _ Ho].
    inversion_clear Ho as [|? ? Hn _]. apply term_not_inv in Hn. apply Hn.
    apply term_and_inv in Hc. by apply (Forall_lookup_1 _ _ 2 _ Hc).
Qed.

Lemma demo_self_apart rule inputs : rule_lits rule = [] → self_apart rule inputs.
Proof. intros Hl s. rewrite Hl. intros Hs. by apply elem_of_nil in Hs. Qed.

Lemma demo_narrows_exit : main files true ["narrows"; "parent.json"; "child.json"] = SUCCESS.
Proof. vm_compute. reflexivity. Qed.
Lemma demo_only_calls_exit :
  main files true ["only-calls"; "parent.json"; token; "transfer"] = SUCCESS.
Proof. vm_compute. reflexivity. Qed.

(** [main] fails closed when z3 does not decide. *)
Example demo_narrows_undecided :
  main files true ["narrows"; "child.json"; "parent.json"] = 1%N.
Proof. vm_compute. reflexivity. Qed.

(** A transfer of the account's own funds. *)
Definition own_transfer : EvalInputs := {|
  context := Context_Contract {|
    contract := token; fn_name := "transfer"; args := [DVAddress "CACC"] |};
  signer_count := 1; self_addr := "CACC" |}.

Lemma own_transfer_allowed : rule_allows (pay_rule from_self) own_transfer.
Proof.
  split; [by vm_compute|]. split.
  - intros fns [= <-]. eexists. split; [reflexivity|]. by left.
  - intros l [= <-]. by repeat constructor.
Qed.

Lemma own_transfer_allowed_unconstrained : rule_allows (pay_rule None) own_transfer.
Proof. destruct own_transfer_allowed as (Hs & Hf & _). done. Qed.

Lemma narrows_exit_code_sound_witness : rule_allows (pay_rule None) own_transfer.
Proof.
  destruct (narrows_exit_code_sound files true "parent.json" "child.json" demo_narrows_exit)
    as (parent & child & Hp & Hc & Hall).
  assert (parent = pay_doc None) as -> by (vm_compute in Hp; by injection Hp as <-).
  assert (child = pay_doc from_self) as -> by (vm_compute in Hc; by injection Hc as <-).
  destruct (Hall (pay_rule from_self)) as (prule & Hin & _ & _ & _ & _ & Hn); [by left|].
  apply list_elem_of_singleton in Hin as ->.
  apply (Hn own_transfer); [reflexivity|reflexivity|by apply demo_self_apart..|].
  apply own_transfer_allowed.
Defined.

Lemma only_calls_exit_code_sound_witness : fn_name (H := AnalyzeHost)
  {| contract := token; fn_name := "transfer"; args := [DVAddress "CACC"] |} ∈ ["transfer"].
Proof.
  destruct (only_calls_exit_code_sound files true "parent.json" token ["transfer"]
    demo_only_calls_exit) as (doc & Hd & Hall).
  assert (doc = pay_doc None) as -> by (vm_compute in Hd; by injection Hd as <-).
  apply (Hall (pay_rule None) own_transfer _); try reflexivity.
  - by left.
  - by apply demo_self_apart.
  - exact own_transfer_allowed_unconstrained.
Defined.

(** ** Constants with a backslash *)

Definition escaped_a : string := String backslash "u{61}".
Definition memo_rule (memo : string) : Rule := {|
  rule_name := "memo"; rule_scope := Scope_Contract token;
  rule_principals := Principals_All ["alice"];
  rule_functions := None;
  rule_args := Some [{| arg_index := 0; arg_pred := StringIn [memo] |}];
  rule_not_after_ledger := None; rule_cap := None |}.
Definition memo_doc (memo : string) : PolicyDoc := {|
  doc_version := 1; doc_network := None;
  doc_signers := [{| signer_id := "alice"; signer_method := Delegated alice_key |}];
  doc_rules := [memo_rule memo]; doc_recovery := None |}.
Definition memo_call (memo : string) : EvalInputs := {|
  context := Context_Contract {|
    contract := token; fn_name := "pay"; args := [DVString memo] |};
  signer_count := 1; self_addr := "CACC" |}.

Lemma memo_rule_allows memo text :
  String.length text ≤ 256 → rule_allows (memo_rule memo) (memo_call text) ↔ text = memo.
Proof.
  intros Hl. split.
  - intros (_ & _ & Ha). specialize (Ha _ eq_refl). apply Forall_singleton in Ha as (s & Hs & Hin & _).
    vm_compute in Hs. injection Hs as <-. by apply list_elem_of_singleton in Hin.
  - intros ->. split; [by vm_compute|]. split; [done|]. intros l [= <-]. apply Forall_singleton.
    exists memo. split_and!; [done|by left|exact Hl].
Qed.

(** SMT-LIB reads [\u{61}] in a literal as the letter a, and [smt_string] does
    not escape the backslash: both documents are valid, the script that
    compares them is unsatisfiable, so a correct solver makes [narrows] report
    no finding, and yet the child allows a call the parent refuses. *)
Lemma narrows_reads_escapes (z3 : Z3) :
  (∀ s cmds, read_script s = Some cmds → (∀ m, satisfies m cmds = false) → run_z3 (H := z3) s = Unsat) →
  Validate.validate (memo_doc "a") = Ok tt ∧ Validate.validate (memo_doc escaped_a) = Ok tt ∧
  narrows (H := z3) (memo_doc "a") (memo_doc escaped_a) = [] ∧
  rule_allows (memo_rule escaped_a) (memo_call escaped_a) ∧
  ¬ rule_allows (memo_rule "a") (memo_call escaped_a).
Proof.
  intros Hcomplete. split_and!.
  - by vm_compute.
  - by vm_compute.
  - assert (run_z3 (H := z3) (narrows_script (memo_rule "a") (memo_rule escaped_a)) = Unsat) as Hz.
    { apply (Hcomplete _ (script_sx [0%N]
        [rule_sx ∅ (memo_rule escaped_a); app "not" [rule_sx ∅ (memo_rule "a")]])).
      - vm_compute. reflexivity.
      - apply unsatisfiable. intros m Hall. inversion_clear Hall as [|? ? Hc Hp].
        inversion_clear Hp as [|? ? Hn _]. apply term_not_inv in Hn. apply Hn. exact Hc. }
    unfold narrows, memo_doc. cbn [doc_rules flat_map]. unfold narrows_rule.
    cbn [find_first doc_rules rule_name]. simpl (String.eqb _ _). cbv iota.
    rewrite bool_decide_eq_true_2 by done. cbn [negb]. rewrite Hz. reflexivity.
  - apply memo_rule_allows; [vm_compute; lia|done].
  - rewrite memo_rule_allows by (vm_compute; lia). done.
Qed.
