(* ===== verification/Conformance.v ===== *)
(** * perch-conformance: the evaluation vectors

    The table of [perch-conformance/src/lib.rs], whose expectations are written
    by hand from the specification and not from the evaluator, and the runner
    that builds a program and an invocation from a case.  The model of the
    validator and of the evaluator answers every case as the table expects.
    The JSON writer of the crate is not modelled. *)

From S2P Require Import Prelude Host Validate Program.
#[local] Open Scope string_scope.
#[local] Open Scope list_scope.
#[local] Open Scope N_scope.

Inductive ValSpec : Type :=
| VS_U32 (n : N)
| VS_I128 (n : Z)
| VS_Address (name : string)
| VS_Symbol (sym : string)
| VS_Str (text : string)
| VS_Bytes (b : bytes)
| VS_Void.

Inductive OpSpec : Type :=
| O_All (n : N)
| O_Any (n : N)
| O_Not
| O_MinSigners (n : N)
| O_FnIn (fns : list string)
| O_ArgAddrEq (i : N) (name : string)
| O_ArgAddrIsSelf (i : N)
| O_ArgSymEq (i : N) (sym : string)
| O_ArgStrIn (i : N) (values : list string)
| O_ArgStrPrefix (i : N) (prefix : string)
| O_ArgBytesEq (i : N) (b : bytes)
| O_ArgI128Eq (i : N) (n : Z)
| O_ArgU32Eq (i n : N)
| O_ArgCount (n : N)
| O_LedgerBefore (n : N)
| O_LedgerAtOrAfter (n : N).

Inductive CtxKind : Type := Contract | NonContract.

Record InvSpec : Type := {
  inv_ctx : CtxKind;
  inv_fn_name : string;
  inv_args : list ValSpec;
  inv_signer_count : N;
  inv_ledger : N;
}.

Record Case : Type := {
  case_name : string;
  case_pins : string;
  case_version : N;
  case_ops : list OpSpec;
  case_inv : InvSpec;
  expect_valid : result string unit;
  expect_verdict : Verdict;
}.

Definition validation_error_name (err : Program.ValidationError) : string :=
  match err with
  | UnknownVersion => "unknown-version"
  | Empty => "empty"
  | TooLarge => "too-large"
  | ArityMismatch => "arity-mismatch"
  | StackUnderflow => "stack-underflow"
  | StackOverflow => "stack-overflow"
  | NotSingleResult => "not-single-result"
  end.

(** ** The curated table *)

Fixpoint long (n : nat) : string :=
  match n with O => "" | S n => String "a" (long n) end.
Definition bytes_of (l : list N) : bytes := string_of_list_ascii (map ascii_of_N l).

Definition inv : InvSpec := {|
  inv_ctx := Contract; inv_fn_name := "publish";
  inv_args := [VS_U32 7; VS_Address "self"; VS_Symbol "kind"; VS_Str "hello";
               VS_Bytes (bytes_of [1; 2]); VS_I128 (-42); VS_Void];
  inv_signer_count := 1; inv_ledger := 100 |}.

Definition non_contract : InvSpec := {|
  inv_ctx := NonContract; inv_fn_name := ""; inv_args := [];
  inv_signer_count := 1; inv_ledger := 100 |}.

Definition case (name pins : string) (ops : list OpSpec) (inv : InvSpec)
    (valid : result string unit) (verdict : Verdict) : Case := {|
  case_name := name; case_pins := pins; case_version := PROGRAM_VERSION; case_ops := ops;
  case_inv := inv; expect_valid := valid; expect_verdict := verdict |}.

Definition with_args (i : InvSpec) (l : list ValSpec) : InvSpec := {|
  inv_ctx := inv_ctx i; inv_fn_name := inv_fn_name i; inv_args := l;
  inv_signer_count := inv_signer_count i; inv_ledger := inv_ledger i |}.
Definition sc0 : InvSpec := {|
  inv_ctx := inv_ctx inv; inv_fn_name := inv_fn_name inv; inv_args := inv_args inv;
  inv_signer_count := 0; inv_ledger := inv_ledger inv |}.
Definition arg1_alice : InvSpec := with_args inv (<[1%nat := VS_Address "alice"]> (inv_args inv)).
Definition arg3_overlong : InvSpec := with_args inv (<[3%nat := VS_Str (long 257)]> (inv_args inv)).
Definition arg3_max : InvSpec := with_args inv (<[3%nat := VS_Str (long 256)]> (inv_args inv)).

Definition signer_and_function_cases : list Case := [
  case "min-signers-met"
    "MinSigners is >= on the authenticated-signer count"
    [O_MinSigners 1] inv (Ok tt) VTrue;
  case "min-signers-unmet"
    "one signer does not meet a floor of two"
    [O_MinSigners 2] inv (Ok tt) VFalse;
  case "min-signers-zero-floor"
    "MinSigners(0) is vacuously true even with zero signers"
    [O_MinSigners 0] sc0 (Ok tt) VTrue;
  case "min-signers-non-contract"
    "MinSigners is context-independent: definite under a non-contract context"
    [O_MinSigners 1] non_contract (Ok tt) VTrue;
  case "fn-in-hit"
    "invoked function inside the allowlist"
    [O_FnIn ["publish"; "other"]] inv (Ok tt) VTrue;
  case "fn-in-miss"
    "invoked function outside the allowlist"
    [O_FnIn ["other"]] inv (Ok tt) VFalse;
  case "fn-in-empty-is-false"
    "an empty allowlist is vacuously False (definite), not Unknown"
    [O_FnIn []] inv (Ok tt) VFalse;
  case "fn-in-non-contract"
    "context leaf fails closed to Unknown outside a contract call"
    [O_FnIn ["publish"]] non_contract (Ok tt) VUnknown
].

Definition address_and_symbol_cases : list Case := [
  case "arg-addr-eq-hit"
    "address equality on a matching argument"
    [O_ArgAddrEq 1 "self"] inv (Ok tt) VTrue;
  case "arg-addr-eq-miss"
    "address equality on a differing argument"
    [O_ArgAddrEq 1 "alice"] inv (Ok tt) VFalse;
  case "arg-addr-eq-wrong-type"
    "decode failure (u32 argument read as address) is Unknown, never False"
    [O_ArgAddrEq 0 "alice"] inv (Ok tt) VUnknown;
  case "arg-addr-eq-missing-index"
    "missing argument index is a decode failure"
    [O_ArgAddrEq 9 "alice"] inv (Ok tt) VUnknown;
  case "arg-addr-is-self-hit"
    "argument is the protected account"
    [O_ArgAddrIsSelf 1] inv (Ok tt) VTrue;
  case "arg-addr-is-self-miss"
    "argument is some other address"
    [O_ArgAddrIsSelf 1] arg1_alice (Ok tt) VFalse;
  case "arg-sym-eq-hit"
    "symbol equality hit"
    [O_ArgSymEq 2 "kind"] inv (Ok tt) VTrue;
  case "arg-sym-eq-miss"
    "symbol equality miss"
    [O_ArgSymEq 2 "other"] inv (Ok tt) VFalse;
  case "arg-sym-eq-wrong-type"
    "string argument read as symbol is a decode failure"
    [O_ArgSymEq 3 "hello"] inv (Ok tt) VUnknown
].

Definition string_cases : list Case := [
  case "arg-str-in-hit"
    "string set membership hit"
    [O_ArgStrIn 3 ["hello"; "x"]] inv (Ok tt) VTrue;
  case "arg-str-in-miss"
    "string set membership miss"
    [O_ArgStrIn 3 ["x"]] inv (Ok tt) VFalse;
  case "arg-str-in-overlong-arg"
    "argument longer than MAX_STR_ARG_LEN fails closed even if the set matches textually"
    [O_ArgStrIn 3 [(long 257)]] arg3_overlong (Ok tt) VUnknown;
  case "arg-str-in-overlong-candidate-skipped"
    "an over-long *candidate* is skipped, not fatal — a later match still hits"
    [O_ArgStrIn 3 [(long 257); "hello"]] inv (Ok tt) VTrue;
  case "arg-str-in-only-overlong-candidates"
    "a set of only over-long candidates simply never matches: definite False"
    [O_ArgStrIn 3 [(long 257)]] inv (Ok tt) VFalse;
  case "arg-str-in-256-boundary"
    "exactly MAX_STR_ARG_LEN (256) bytes is still comparable"
    [O_ArgStrIn 3 [(long 256)]] arg3_max (Ok tt) VTrue;
  case "arg-str-prefix-hit"
    "prefix hit"
    [O_ArgStrPrefix 3 "he"] inv (Ok tt) VTrue;
  case "arg-str-prefix-exact-equal"
    "a prefix equal to the whole argument matches (pn == sn)"
    [O_ArgStrPrefix 3 "hello"] inv (Ok tt) VTrue;
  case "arg-str-prefix-longer-than-arg"
    "a prefix longer than the argument is a definite miss, not Unknown"
    [O_ArgStrPrefix 3 "hello!"] inv (Ok tt) VFalse;
  case "arg-str-prefix-miss"
    "prefix miss"
    [O_ArgStrPrefix 3 "x"] inv (Ok tt) VFalse;
  case "arg-str-prefix-empty-prefix"
    "the empty prefix matches any decodable string argument"
    [O_ArgStrPrefix 3 ""] inv (Ok tt) VTrue;
  case "arg-str-prefix-overlong-arg"
    "over-long argument is still matched on its prefix: only the first prefix-length bytes are read, not the whole argument"
    [O_ArgStrPrefix 3 "a"] arg3_overlong (Ok tt) VTrue;
  case "arg-str-prefix-overlong-prefix"
    "an over-long *prefix* constant also fails closed (both sides are bounded)"
    [O_ArgStrPrefix 3 (long 257)] inv (Ok tt) VUnknown
].

Definition value_cases : list Case := [
  case "arg-bytes-eq-hit"
    "bytes equality hit"
    [O_ArgBytesEq 4 (bytes_of [1; 2])] inv (Ok tt) VTrue;
  case "arg-bytes-eq-miss"
    "bytes equality miss"
    [O_ArgBytesEq 4 (bytes_of [9; 9])] inv (Ok tt) VFalse;
  case "arg-bytes-eq-wrong-type"
    "u32 argument read as bytes is a decode failure"
    [O_ArgBytesEq 0 (bytes_of [1; 2])] inv (Ok tt) VUnknown;
  case "arg-i128-eq-hit"
    "i128 equality hit (negative value)"
    [O_ArgI128Eq 5 (-42)] inv (Ok tt) VTrue;
  case "arg-i128-eq-miss"
    "i128 equality miss"
    [O_ArgI128Eq 5 42] inv (Ok tt) VFalse;
  case "arg-i128-eq-wrong-type"
    "u32 argument is NOT implicitly widened to i128 — strict decode, Unknown"
    [O_ArgI128Eq 0 7] inv (Ok tt) VUnknown;
  case "arg-u32-eq-hit"
    "u32 equality hit"
    [O_ArgU32Eq 0 7] inv (Ok tt) VTrue;
  case "arg-u32-eq-miss"
    "u32 equality miss"
    [O_ArgU32Eq 0 8] inv (Ok tt) VFalse;
  case "arg-u32-eq-wrong-type"
    "i128 argument read as u32 is a decode failure"
    [O_ArgU32Eq 5 7] inv (Ok tt) VUnknown;
  case "arg-u32-eq-void-arg"
    "an undecodable (void) argument is a decode failure"
    [O_ArgU32Eq 6 0] inv (Ok tt) VUnknown
].

Definition count_and_ledger_cases : list Case := [
  case "arg-count-exact"
    "ArgCount is exact equality on the argument count"
    [O_ArgCount 7] inv (Ok tt) VTrue;
  case "arg-count-miss"
    "ArgCount misses on any other count"
    [O_ArgCount 3] inv (Ok tt) VFalse;
  case "arg-count-non-contract"
    "ArgCount inspects the context: Unknown outside a contract call"
    [O_ArgCount 0] non_contract (Ok tt) VUnknown;
  case "ledger-before-true"
    "strictly-below window is open below the bound"
    [O_LedgerBefore 101] inv (Ok tt) VTrue;
  case "ledger-before-boundary-false"
    "LedgerBefore is strict: closed exactly at the bound"
    [O_LedgerBefore 100] inv (Ok tt) VFalse;
  case "ledger-at-or-after-boundary-true"
    "LedgerAtOrAfter is inclusive at the bound"
    [O_LedgerAtOrAfter 100] inv (Ok tt) VTrue;
  case "ledger-at-or-after-false"
    "LedgerAtOrAfter below the bound is False"
    [O_LedgerAtOrAfter 101] inv (Ok tt) VFalse;
  case "ledger-non-contract"
    "ledger leaves read the env, not the context: definite under non-contract"
    [O_LedgerBefore 101] non_contract (Ok tt) VTrue
].

Definition composition_cases : list Case := [
  case "all-true"
    "All folds True over definite-true leaves"
    [O_MinSigners 0; O_FnIn ["publish"]; O_All 2] inv (Ok tt) VTrue;
  case "all-false-wins"
    "All with one False is False"
    [O_MinSigners 2; O_FnIn ["publish"]; O_All 2] inv (Ok tt) VFalse;
  case "all-unknown-poisons-true"
    "All(Unknown, True) is Unknown — a decode failure can never help authorize"
    [O_ArgU32Eq 6 0; O_MinSigners 0; O_All 2] inv (Ok tt) VUnknown;
  case "all-false-beats-unknown"
    "All(Unknown, False) is False — min under False < Unknown < True"
    [O_ArgU32Eq 6 0; O_MinSigners 2; O_All 2] inv (Ok tt) VFalse;
  case "any-true-beats-unknown"
    "Any(Unknown, True) is True — max under the same order"
    [O_ArgU32Eq 6 0; O_MinSigners 0; O_Any 2] inv (Ok tt) VTrue;
  case "any-all-false"
    "Any over definite-false leaves is False"
    [O_MinSigners 2; O_FnIn ["other"]; O_Any 2] inv (Ok tt) VFalse;
  case "any-unknown-beats-false"
    "Any(Unknown, False) is Unknown — an undecodable branch cannot be assumed False"
    [O_ArgU32Eq 6 0; O_MinSigners 2; O_Any 2] inv (Ok tt) VUnknown;
  case "not-true"
    "Not(True) is False"
    [O_MinSigners 0; O_Not] inv (Ok tt) VFalse;
  case "not-false"
    "Not(False) is True"
    [O_MinSigners 2; O_Not] inv (Ok tt) VTrue;
  case "not-unknown-stays-unknown"
    "THE fail-open trap: a decode failure under Not must deny, not satisfy the guardrail"
    [O_ArgU32Eq 6 0; O_Not] inv (Ok tt) VUnknown;
  case "double-not"
    "Not is an involution on definite verdicts"
    [O_MinSigners 0; O_Not; O_Not] inv (Ok tt) VTrue;
  case "ci-publish-shape-allows"
    "the motivating program: MinSigners + FnIn + ArgAddrIsSelf under All"
    [O_MinSigners 1; O_FnIn ["publish"; "publish_hash"]; O_ArgAddrIsSelf 1; O_All 3] inv (Ok tt) VTrue;
  case "ci-publish-shape-denies-zero-signers"
    "the same program fails closed with zero authenticated signers (INV-1)"
    [O_MinSigners 1; O_FnIn ["publish"; "publish_hash"]; O_ArgAddrIsSelf 1; O_All 3] sc0 (Ok tt) VFalse
].

Definition structural_cases : list Case := [
  case "empty-program"
    "no ops: rejected at install; eval yields no root verdict"
    [] inv (Err "empty") VUnknown;
  case "underflow-not"
    "Not with an empty stack underflows"
    [O_Not] inv (Err "stack-underflow") VUnknown;
  case "underflow-all"
    "All(2) over a single pushed verdict underflows"
    [O_MinSigners 0; O_All 2] inv (Err "stack-underflow") VUnknown;
  case "zero-arity-all"
    "All(0) has no identity element on purpose — rejected, and eval fails closed"
    [O_All 0] inv (Err "arity-mismatch") VUnknown;
  case "zero-arity-any"
    "Any(0) likewise"
    [O_Any 0] inv (Err "arity-mismatch") VUnknown;
  case "multi-result"
    "two verdicts left on the stack is not a program"
    [O_MinSigners 0; O_MinSigners 0] inv (Err "not-single-result") VUnknown;
  case "partial-consume-multi-result"
    "a fold that consumes only part of the stack still ends multi-result"
    [O_MinSigners 0; O_MinSigners 0; O_MinSigners 0; O_Any 2] inv (Err "not-single-result") VUnknown
].

Definition with_version (c : Case) (v : N) : Case := {|
  case_name := case_name c; case_pins := case_pins c; case_version := v; case_ops := case_ops c;
  case_inv := case_inv c; expect_valid := expect_valid c; expect_verdict := expect_verdict c |}.

Definition limit_cases : list Case := [
  with_version (case "wrong-version-eval-is-version-blind"
    "validate rejects version 2; eval itself never reads the version field"
    [O_MinSigners 0] inv (Err "unknown-version") VTrue) 2;
  case "depth-at-cap-ok"
    "a simulated depth of exactly MAX_STACK_DEPTH validates and evaluates"
    (replicate 128 (O_MinSigners 0) ++ [O_All 128]) inv (Ok tt) VTrue;
  case "depth-overflow"
    "MAX_STACK_DEPTH + 1 unfolded leaves overflow the verdict stack"
    (replicate 129 (O_MinSigners 0)) inv (Err "stack-overflow") VUnknown;
  case "program-too-large"
    "MAX_PROGRAM_LEN + 1 ops are rejected at install"
    (replicate 257 (O_MinSigners 0)) inv (Err "too-large") VUnknown
].

Definition cases : list Case :=
  signer_and_function_cases ++ address_and_symbol_cases ++ string_cases ++ value_cases ++
  count_and_ledger_cases ++ composition_cases ++ structural_cases ++ limit_cases.

(** ** Building real values *)

Section build.
Context {H : Host}.

(** What [into_val] turns into a host value. *)
Inductive Typed : Type :=
| Typed_u32 (n : N)
| Typed_i128 (n : Z)
| Typed_Address (a : Address)
| Typed_Symbol (s : string)
| Typed_String (s : string)
| Typed_Bytes (b : bytes)
| Typed_unit.

(** [into_val], and the [n]-th [Address::generate] of a run. *)
Class HostValues : Type := {
  into_val : Typed → Val;
  generate : nat → Address;
}.
Context `{HV : !HostValues}.

(** The addresses generated so far, by name. *)
Abbreviation AddrBook := (list (string * Address)).

Definition get (book : AddrBook) (name : string) : Address * AddrBook :=
  match find_first (λ p, String.eqb p.1 name) book with
  | Some p => (p.2, book)
  | None => let a := generate (length book) in (a, book ++ [(name, a)])
  end.

(** [Symbol::new]. *)
Definition symbol (s : string) : string := default "" (symbol_new s).

Definition val (book : AddrBook) (spec : ValSpec) : Val * AddrBook :=
  match spec with
  | VS_U32 n => (into_val (Typed_u32 n), book)
  | VS_I128 n => (into_val (Typed_i128 n), book)
  | VS_Address name => let '(a, book) := get book name in (into_val (Typed_Address a), book)
  | VS_Symbol sym => (into_val (Typed_Symbol (symbol sym)), book)
  | VS_Str text => (into_val (Typed_String text), book)
  | VS_Bytes b => (into_val (Typed_Bytes b), book)
  | VS_Void => (into_val Typed_unit, book)
  end.

Definition op (book : AddrBook) (spec : OpSpec) : Op * AddrBook :=
  match spec with
  | O_All n => (Op_All n, book)
  | O_Any n => (Op_Any n, book)
  | O_Not => (Op_Not, book)
  | O_MinSigners n => (Op_MinSigners n, book)
  | O_FnIn fns => (Op_FnIn (map symbol fns), book)
  | O_ArgAddrEq i name => let '(a, book) := get book name in (Op_ArgAddrEq i a, book)
  | O_ArgAddrIsSelf i => (Op_ArgAddrIsSelf i, book)
  | O_ArgSymEq i sym => (Op_ArgSymEq i (symbol sym), book)
  | O_ArgStrIn i values => (Op_ArgStrIn i values, book)
  | O_ArgStrPrefix i prefix => (Op_ArgStrPrefix i prefix, book)
  | O_ArgBytesEq i b => (Op_ArgBytesEq i b, book)
  | O_ArgI128Eq i n => (Op_ArgI128Eq i n, book)
  | O_ArgU32Eq i n => (Op_ArgU32Eq i n, book)
  | O_ArgCount n => (Op_ArgCount n, book)
  | O_LedgerBefore n => (Op_LedgerBefore n, book)
  | O_LedgerAtOrAfter n => (Op_LedgerAtOrAfter n, book)
  end.

(** A loop that pushes what [f] builds of each element. *)
Fixpoint build {A B} (f : AddrBook → A → B * AddrBook) (book : AddrBook) (l : list A)
  : list B * AddrBook :=
  match l with
  | [] => ([], book)
  | x :: l =>
      let '(y, book) := f book x in
      let '(ys, book) := build f book l in (y :: ys, book)
  end.

Definition program (book : AddrBook) (c : Case) : RpnProgram * AddrBook :=
  let '(ops, book) := build op book (case_ops c) in
  ({| version := case_version c; ops := ops |}, book).

Definition non_contract_context : Context := Context_CreateContractHostFn.

Definition set_sequence (e : Env) (n : N) : Env := {|
  sequence := n; network_id := network_id e;
  current_contract_address := current_contract_address e; authorized := authorized e;
  authorized_for_args := authorized_for_args e; max_ttl := max_ttl e;
  min_persistent_ttl := min_persistent_ttl e; min_temp_ttl := min_temp_ttl e |}.

Definition materialize (e : Env) (book : AddrBook) (c : Case)
  : Env * (RpnProgram * Context * N * Address) * AddrBook :=
  let e := set_sequence e (inv_ledger (case_inv c)) in
  let '(p, book) := program book c in
  let '(self, book) := get book "self" in
  match inv_ctx (case_inv c) with
  | Contract =>
      let '(l, book) := build val book (inv_args (case_inv c)) in
      let '(target, book) := get book "target-contract" in
      let ctx := Context_Contract
        {| contract := target; fn_name := symbol (inv_fn_name (case_inv c)); args := l |} in
      (e, (p, ctx, inv_signer_count (case_inv c), self), book)
  | NonContract => (e, (p, non_contract_context, inv_signer_count (case_inv c), self), book)
  end.

Definition run (e : Env) (book : AddrBook) (c : Case)
  : result Program.ValidationError unit * result Empty_set Verdict * AddrBook :=
  let '(e, (p, ctx, n, self), book) := materialize e book c in
  let inputs := {| context := ctx; signer_count := n; self_addr := self |} in
  (Program.validate p, eval e p inputs, book).

(** The outcome a case expects. *)
Definition passes (e : Env) (book : AddrBook) (c : Case) : Prop :=
  let '(valid, verdict, _) := run e book c in
  map_err validation_error_name valid = expect_valid c ∧ verdict = Ok (expect_verdict c).

(** A value decodes as its own type and no other, generated addresses are
    distinct, and [Symbol::new] takes the symbols it is documented to take. *)
Class HostValueLaws : Prop := {
  into_u32 v : val_u32 (into_val v) = match v with Typed_u32 n => Some n | _ => None end;
  into_i128 v : val_i128 (into_val v) = match v with Typed_i128 n => Some n | _ => None end;
  into_address v :
    val_address (into_val v) = match v with Typed_Address a => Some a | _ => None end;
  into_symbol v :
    val_symbol (into_val v) = match v with Typed_Symbol s => Some s | _ => None end;
  into_string v :
    val_string (into_val v) = match v with Typed_String s => Some s | _ => None end;
  into_bytes v : val_bytes (into_val v) = match v with Typed_Bytes b => Some b | _ => None end;
  generate_inj m n : generate m = generate n → m = n;
  symbol_new_valid s : is_valid_symbol s = true → symbol_new s = Some s;
}.
Context `{HL : !HostValueLaws}.

(** Computes a case, the host's functions excepted, and rewrites what they
    return. *)
Ltac run_case :=
  repeat first
    [ progress cbv -[val_u32 val_i128 val_address val_symbol val_string val_bytes into_val
        generate symbol_new Address_eq_dec str_bytes str_head str_in_loop long zero_buf]
    | rewrite symbol_new_valid by reflexivity
    | rewrite into_u32 | rewrite into_i128 | rewrite into_address
    | rewrite into_symbol | rewrite into_string | rewrite into_bytes
    | match goal with |- context [Address_eq_dec (generate ?m) (generate ?n)] =>
        let E := fresh in
        destruct (Address_eq_dec (generate m) (generate n)) as [E|E];
        [try (apply generate_inj in E; discriminate) | try (by destruct E)]
      end ];
  split; vm_compute; reflexivity.

Lemma signer_and_function_pass e : Forall (passes e []) signer_and_function_cases.
Proof. repeat (apply Forall_cons; split); [run_case..|constructor]. Qed.
Lemma address_and_symbol_pass e : Forall (passes e []) address_and_symbol_cases.
Proof. repeat (apply Forall_cons; split); [run_case..|constructor]. Qed.
Lemma string_pass e : Forall (passes e []) string_cases.
Proof. repeat (apply Forall_cons; split); [run_case..|constructor]. Qed.
Lemma value_pass e : Forall (passes e []) value_cases.
Proof. repeat (apply Forall_cons; split); [run_case..|constructor]. Qed.
Lemma count_and_ledger_pass e : Forall (passes e []) count_and_ledger_cases.
Proof. repeat (apply Forall_cons; split); [run_case..|constructor]. Qed.
Lemma composition_pass e : Forall (passes e []) composition_cases.
Proof. repeat (apply Forall_cons; split); [run_case..|constructor]. Qed.
Lemma structural_pass e : Forall (passes e []) structural_cases.
Proof. repeat (apply Forall_cons; split); [run_case..|constructor]. Qed.
Lemma limit_pass e : Forall (passes e []) limit_cases.
Proof. repeat (apply Forall_cons; split); [run_case..|constructor]. Qed.

(** The evaluation vectors pass.  On every host whose values decode as
    documented, building each case of the hand-written table with a fresh
    address book and running it, the validator answers with exactly the
    expected acceptance or error and the evaluator with exactly the expected
    verdict. *)
Theorem conformance_vectors_pass e : Forall (passes e []) cases.
Proof.
  unfold cases. rewrite !Forall_app. split_and!; [apply signer_and_function_pass|
    apply address_and_symbol_pass|apply string_pass|apply value_pass|apply count_and_ledger_pass|
    apply composition_pass|apply structural_pass|apply limit_pass].
Qed.
End build.

(** ** A host for the table *)

Module ConformanceDemo.
Inductive demo_value : Type :=
| DU32 (n : N) | DI128 (n : Z) | DAddress (a : nat) | DSymbol (s : string)
| DString (s : string) | DBytes (b : bytes) | DVoid.

Definition VectorHost : Host := {|
  Address := nat;
  address_from_str s := Some (String.length s);
  address_to_xdr a := long a;
  symbol_new s := Some s;
  Val := demo_value;
  val_address v := match v with DAddress a => Some a | _ => None end;
  val_symbol v := match v with DSymbol s => Some s | _ => None end;
  val_string v := match v with DString s => Some s | _ => None end;
  val_bytes v := match v with DBytes b => Some b | _ => None end;
  val_u32 v := match v with DU32 n => Some n | _ => None end;
  val_i128 v := match v with DI128 n => Some n | _ => None end;
  sha256 s := s;
|}.
#[local] Existing Instance VectorHost.

#[local] Instance vector_values : HostValues := {|
  into_val v := match v with
    | Typed_u32 n => DU32 n | Typed_i128 n => DI128 n | Typed_Address a => DAddress a
    | Typed_Symbol s => DSymbol s | Typed_String s => DString s | Typed_Bytes b => DBytes b
    | Typed_unit => DVoid end;
  generate n := n;
|}.
#[local] Instance vector_laws : HostValueLaws.
Proof. split; try (by intros []); done. Qed.

Definition vector_env : Env := {|
  sequence := 1; network_id := ""; current_contract_address := 0%nat;
  authorized := λ _, true; authorized_for_args := λ _ _, true; max_ttl := 3110400;
  min_persistent_ttl := 120960; min_temp_ttl := 17280 |}.

Lemma conformance_vectors_pass_witness : length cases = 72%nat ∧ Forall (passes vector_env []) cases.
Proof. split; [reflexivity|exact (conformance_vectors_pass vector_env)]. Defined.
End ConformanceDemo.
