(* ===== verification/MlDsa.v ===== *)
(** * perch-mldsa-verifier: the post-quantum signature verifier

    The contract of [perch-mldsa-verifier/src/lib.rs] around the [fips204]
    crate: the order of its refusals, the key commitment and the canonical
    form of a key.  The crate and the XDR decoder of the host are
    parameters. *)

From S2P Require Import Prelude Host.
#[local] Open Scope string_scope.
#[local] Open Scope nat_scope.

(** [ml_dsa_65::PK_LEN] and [SIG_LEN], FIPS 204's sizes. *)
Definition PUBLIC_KEY_LEN : nat := 1952.
Definition SIGNATURE_LEN : nat := 3309.
Definition PAYLOAD_LEN : nat := 32.
Definition SIG_CONTEXT : bytes := "nido-mldsa-v1".

Record MlDsaSigData : Type := {
  public_key : bytes;
  signature : bytes;
}.

Inductive MlDsaVerifierError : Type :=
| PayloadLength
| SigDataEncoding
| PublicKeyLength
| SignatureLength.

Section verifier.
Context {H : Host}.

(** [fips204], and [MlDsaSigData::from_xdr]: bytes that are no XDR trap, XDR of
    another type is an error. *)
Class MlDsa65 : Type := {
  PublicKey : Type;
  try_from_bytes : bytes → option PublicKey;
  ml_dsa_verify : PublicKey → bytes → bytes → bytes → bool;
  sig_data_from_xdr : bytes → result unit MlDsaSigData;
}.
Context {M : MlDsa65}.

Definition key_commitment (public_key : bytes) : bytes := sha256 public_key.

Definition verify_signature (public_key message ctx signature : bytes) : bool :=
  match try_from_bytes public_key with
  | Some key => ml_dsa_verify key message signature ctx
  | None => false
  end.

(** [Err] is [panic_with_error!]; [key_data] is a [BytesN<32>]. *)
Definition verify (signature_payload key_data sig_data : bytes)
  : result MlDsaVerifierError bool :=
  refuse_if (negb (String.length signature_payload =? PAYLOAD_LEN)) PayloadLength ;;;
  let* sig := map_err (λ _, SigDataEncoding) (sig_data_from_xdr sig_data) in
  refuse_if (negb (String.length (public_key sig) =? PUBLIC_KEY_LEN)) PublicKeyLength ;;;
  refuse_if (negb (String.length (signature sig) =? SIGNATURE_LEN)) SignatureLength ;;;
  if negb (String.eqb (key_commitment (public_key sig)) key_data) then Ok false
  else Ok (verify_signature (public_key sig) signature_payload SIG_CONTEXT (signature sig)).

Definition canonicalize_key (key_data : bytes) : bytes := key_data.
Definition batch_canonicalize_key (keys_data : list bytes) : list bytes :=
  map canonicalize_key keys_data.

(** A signature is accepted exactly when every length is right, the submitted
    key is the committed one and it verifies the payload. *)
Lemma verify_accepts payload key sig_data :
  verify payload key sig_data = Ok true ↔
  String.length payload = PAYLOAD_LEN ∧
  ∃ d pk, sig_data_from_xdr sig_data = Ok d ∧
    String.length (public_key d) = PUBLIC_KEY_LEN ∧ String.length (signature d) = SIGNATURE_LEN ∧
    sha256 (public_key d) = key ∧ try_from_bytes (public_key d) = Some pk ∧
    ml_dsa_verify pk payload (signature d) SIG_CONTEXT = true.
Proof.
  unfold verify, verify_signature, key_commitment. split.
  - intros Hv. apply rbind_Ok in Hv as (? & Hp%refuse_if_Ok & Hv).
    apply rbind_Ok in Hv as (d & Hd%map_err_Ok & Hv).
    apply rbind_Ok in Hv as (? & Hk%refuse_if_Ok & Hv).
    apply rbind_Ok in Hv as (? & Hs%refuse_if_Ok & Hv).
    apply negb_false_iff, Nat.eqb_eq in Hp, Hk, Hs.
    destruct (String.eqb_spec (sha256 (public_key d)) key); [|done]. simpl in Hv.
    destruct (try_from_bytes (public_key d)) as [pk|] eqn:Hpk; [|done]. injection Hv as Hv.
    split; [done|]. exists d, pk. done.
  - intros (Hp & d & pk & Hd & Hk & Hs & Hc & Hpk & Hv).
    rewrite Hp, Nat.eqb_refl, Hd. simpl. rewrite Hk, Nat.eqb_refl. simpl.
    rewrite Hs, Nat.eqb_refl. simpl. by rewrite Hc, String.eqb_refl, Hpk, Hv.
Qed.

(** A commitment names one key: whatever two submissions a signer's key
    accepts, they carry the same public key. *)
Lemma accepted_key_unique (collision_free : ∀ x y : bytes, sha256 x = sha256 y → x = y)
    p p' key s s' d d' :
  verify p key s = Ok true → verify p' key s' = Ok true →
  sig_data_from_xdr s = Ok d → sig_data_from_xdr s' = Ok d' → public_key d = public_key d'.
Proof.
  intros (_ & x & ? & Hx & _ & _ & Hk & _)%verify_accepts
    (_ & y & ? & Hy & _ & _ & Hk' & _)%verify_accepts Hd Hd'.
  rewrite Hd in Hx. rewrite Hd' in Hy. injection Hx as <-. injection Hy as <-.
  apply collision_free. congruence.
Qed.
End verifier.
