(* ===== verification/Deploy.v ===== *)
(** * perch-deploy: composing, signing and verifying

    The parts of [perch-deploy] that decide something: [scv.rs], the digests of
    [auth.rs], [compose.rs], the publish preflight, and [verify.rs], which
    compares an account on the network with the composed document.  The
    network, the file of composed rules and the XDR, strkey and base64
    libraries are parameters; a read names the moment it is made at, since the
    account may change between two reads.  Texts printed or put into error
    messages are left out. *)

From S2P Require Import Prelude Host Doc Canon Text Parse Validate Program Compile RecoveryIface Account.
#[local] Open Scope string_scope.
#[local] Open Scope list_scope.

(** ** ScVal *)

Inductive ScAddress : Type :=
| ScAddress_Account (key : bytes)
| ScAddress_Contract (id : bytes).
Global Instance ScAddress_eq_dec : EqDecision ScAddress.
Proof. solve_decision. Defined.

(** [stellar_xdr::ScVal]: the variants the tool builds or inspects; any other
    is its discriminant and content. *)
Inductive ScVal : Type :=
| Sc_Void
| Sc_Bool (b : bool)
| Sc_U32 (n : N)
| Sc_U64 (n : N)
| Sc_Bytes (b : bytes)
| Sc_String (s : string)
| Sc_Symbol (s : string)
| Sc_Address (a : ScAddress)
| Sc_Vec (l : option (list ScVal))
| Sc_Map (l : option (list (ScVal * ScVal)))
| Sc_Other (tag : N) (content : bytes).

Lemma ScVal_nested_ind (P : ScVal → Prop) :
  P Sc_Void → (∀ b, P (Sc_Bool b)) → (∀ n, P (Sc_U32 n)) → (∀ n, P (Sc_U64 n)) → (∀ b, P (Sc_Bytes b)) →
  (∀ s, P (Sc_String s)) → (∀ s, P (Sc_Symbol s)) → (∀ a, P (Sc_Address a)) →
  P (Sc_Vec None) → (∀ l, Forall P l → P (Sc_Vec (Some l))) →
  P (Sc_Map None) → (∀ l, Forall (λ p, P p.1 ∧ P p.2) l → P (Sc_Map (Some l))) →
  (∀ t c, P (Sc_Other t c)) → ∀ v, P v.
Proof.
  intros Hv Hf Hu Hw Hb Hs Hy Ha Hn Hl Hm Hp Ho. fix IH 1.
  intros [|f|n|n|b|s|s|a|[l|]|[l|]|t c];
    [apply Hv|apply Hf|apply Hu|apply Hw|apply Hb|apply Hs|apply Hy|apply Ha| |apply Hn| |apply Hm|apply Ho].
  - apply Hl. induction l; constructor; [apply IH|done].
  - apply Hp. induction l as [|[a b] l IHl]; constructor; [split; apply IH|done].
Qed.

Fixpoint list_eqb {A} (eqb : A → A → bool) (l l' : list A) : bool :=
  match l, l' with
  | [], [] => true
  | x :: l, y :: l' => eqb x y && list_eqb eqb l l'
  | _, _ => false
  end.

Lemma list_eqb_eq {A} (eqb : A → A → bool) l l' :
  Forall (λ x, ∀ y, eqb x y = true ↔ x = y) l → list_eqb eqb l l' = true ↔ l = l'.
Proof.
  intros Hl. revert l'. induction Hl as [|x l Hx _ IH]; intros [|y l']; simpl; try done.
  rewrite andb_true_iff, Hx, IH. naive_solver.
Qed.

(** [PartialEq]. *)
Fixpoint sc_eqb (x y : ScVal) : bool :=
  match x, y with
  | Sc_Void, Sc_Void => true
  | Sc_Bool b, Sc_Bool c => Bool.eqb b c
  | Sc_U32 n, Sc_U32 m | Sc_U64 n, Sc_U64 m => (n =? m)%N
  | Sc_Bytes b, Sc_Bytes c => String.eqb b c
  | Sc_String b, Sc_String c => String.eqb b c
  | Sc_Symbol b, Sc_Symbol c => String.eqb b c
  | Sc_Address a, Sc_Address b => bool_decide (a = b)
  | Sc_Vec None, Sc_Vec None | Sc_Map None, Sc_Map None => true
  | Sc_Vec (Some l), Sc_Vec (Some l') => list_eqb sc_eqb l l'
  | Sc_Map (Some l), Sc_Map (Some l') =>
      list_eqb (λ p q, match p, q with (a, b), (c, d) => sc_eqb a c && sc_eqb b d end) l l'
  | Sc_Other t c, Sc_Other u d => (t =? u)%N && String.eqb c d
  | _, _ => false
  end.

Lemma sc_eqb_eq x y : sc_eqb x y = true ↔ x = y.
Proof.
  revert y. induction x as [|f|n|n|b|s|s|a| |l IH| |l IH|t c] using ScVal_nested_ind;
    intros [|f'|m|m|b'|s'|s'|a'|[l'|]|[l'|]|t' c']; cbn [sc_eqb]; try (by split; congruence).
  - rewrite eqb_true_iff. split; congruence.
  - rewrite N.eqb_eq. split; congruence.
  - rewrite N.eqb_eq. split; congruence.
  - rewrite String.eqb_eq. split; congruence.
  - rewrite String.eqb_eq. split; congruence.
  - rewrite String.eqb_eq. split; congruence.
  - rewrite bool_decide_eq_true. split; congruence.
  - rewrite (list_eqb_eq sc_eqb) by done. split; congruence.
  - rewrite list_eqb_eq; [split; congruence|]. eapply Forall_impl; [exact IH|].
    intros [u v] [Hu Hv] [u' v']. simpl in *. rewrite andb_true_iff, Hu, Hv.
    split; [by intros [-> ->]|by intros [= -> ->]].
  - rewrite andb_true_iff, N.eqb_eq, String.eqb_eq.
    split; [by intros [-> ->]|by intros [= -> ->]].
Qed.

Global Instance ScVal_eq_dec : EqDecision ScVal.
Proof.
  intros x y. destruct (sc_eqb x y) eqn:E; [left|right].
  - by apply sc_eqb_eq.
  - intros ->. assert (sc_eqb y y = true) as Hy by by apply sc_eqb_eq. congruence.
Defined.

(** ** Constructors (scv.rs) *)

(** [try_into] of a bounded XDR array. *)
Definition bounded {A} (max len : N) (a : A) : option A := if (len <=? max)%N then Some a else None.
Definition XDR_MAX : N := 4294967295.

Definition sym (s : string) : option ScVal := bounded 32 (slen s) (Sc_Symbol s).
Definition scv_string (s : string) : option ScVal := bounded XDR_MAX (slen s) (Sc_String s).
Definition scv_bytes (b : bytes) : option ScVal := bounded XDR_MAX (slen b) (Sc_Bytes b).
Definition scv_vec (items : list ScVal) : option ScVal :=
  bounded XDR_MAX (N.of_nat (length items)) (Sc_Vec (Some items)).

Definition scv_map (entries : list (ScVal * ScVal)) : option ScVal :=
  bounded XDR_MAX (N.of_nat (length entries)) (Sc_Map (Some entries)).

Fixpoint map_get (map : list (ScVal * ScVal)) (key : string) : option ScVal :=
  match map with
  | [] => None
  | (Sc_Symbol s, v) :: map => if String.eqb s key then Some v else map_get map key
  | _ :: map => map_get map key
  end.

Section deploy.
Context {H : Host} `{JL : JsonLexer, HC : HexCodec}.

(** The strkey, XDR, base64, hex and serde libraries. *)
Class DeployLibs : Type := {
  strkey_contract : string → option bytes;
  strkey_account : string → option bytes;
  scval_to_xdr : ScVal → bytes;
  to_xdr_base64 : ScVal → string;
  from_xdr_base64 : string → option ScVal;
  Json : Type;
  serde_to_value : ScVal → option Json;
  install_to_scval : InstallParams → option ScVal;
  hex_of_bytes : bytes → string;
}.
Context {L : DeployLibs}.

Definition scv_contract (strkey : string) : option ScAddress :=
  ScAddress_Contract <$> strkey_contract strkey.
Definition scv_address (strkey : string) : option ScVal := Sc_Address <$> scv_contract strkey.
Definition any_address (strkey : string) : option ScVal :=
  match strkey_contract strkey with
  | Some id => Some (Sc_Address (ScAddress_Contract id))
  | None => Sc_Address ∘ ScAddress_Account <$> strkey_account strkey
  end.

(** ** Digests (auth.rs) *)

Definition deploy_network_id (passphrase : string) : bytes := sha256 passphrase.

Definition oz_auth_digest (signature_payload : bytes) (rule_ids : list N) : option bytes :=
  ids ← scv_vec (map Sc_U32 rule_ids);
  Some (sha256 (signature_payload +:+ scval_to_xdr ids)).

Definition DEPLOY_AUTH_ADDR_DOMAIN : bytes := "perch/account/auth-addr-v1".

Definition perch_auth_digest (account_id signature_payload : bytes) (rule_ids : list N)
  : option bytes :=
  let bound := sha256 (DEPLOY_AUTH_ADDR_DOMAIN +:+ account_id +:+ signature_payload) in
  oz_auth_digest bound rule_ids.

Definition external_signer (verifier : string) (key : bytes) : option ScVal :=
  t ← sym "External"; v ← scv_address verifier; k ← scv_bytes key; scv_vec [t; v; k].
Definition call_contract_context (addr : string) : option ScVal :=
  t ← sym "CallContract"; a ← scv_address addr; scv_vec [t; a].
Definition delegated_signer (addr : string) : option ScVal :=
  t ← sym "Delegated"; a ← any_address addr; scv_vec [t; a].

(** ** Composing a document (compose.rs) *)

Inductive SignerJson : Type :=
| SignerJson_External (verifier key_hex : string)
| SignerJson_Delegated (address : string).

Record InstallJson : Type := {
  scval_base64 : string;
  scval_json : Json;
}.
Record CapJson : Type := {
  cj_token : option string;
  cj_limit : string;
  cj_period_ledgers : N;
}.
Record RuleEntry : Type := {
  expected_rule_id : N;
  re_name : string;
  call_contract : string;
  re_valid_until : option N;
  re_signers : list SignerJson;
  re_install : option InstallJson;
  re_cap : option CapJson;
}.
Record ComposeOutput : Type := {
  co_doc_hash : string;
  co_account : string;
  co_interpreter : string;
  co_interpreter_wasm_hash : string;
  genesis_rule : option RuleEntry;
  co_apply : list RuleEntry;
}.

Definition parse_hash32 (hex64 : string) : option bytes :=
  b ← hex_decode (trim hex64);
  if (String.length b =? 32)%nat then Some b else None.

(** [i128::to_string]. *)
Definition i128_to_string (z : Z) : string :=
  if (z <? 0)%Z then "-" +:+ u_to_string (Z.to_N (- z)) else u_to_string (Z.to_N z).

Definition signer_json (s : SignerSpec) : SignerJson :=
  match s with
  | SignerSpec_External verifier key_hex => SignerJson_External verifier key_hex
  | SignerSpec_Delegated address => SignerJson_Delegated address
  end.

Definition rule_entry (id : N) (rule : LoweredRule) (contract : string) : option RuleEntry :=
  install ←
    match lr_install rule with
    | None => Some None
    | Some ip =>
        scval ← install_to_scval ip;
        json ← serde_to_value scval;
        Some (Some {| scval_base64 := to_xdr_base64 scval; scval_json := json |})
    end;
  Some {| expected_rule_id := id; re_name := lr_name rule; call_contract := contract;
          re_valid_until := lr_valid_until rule; re_signers := map signer_json (lr_signers rule);
          re_install := install;
          re_cap := (λ c, {| cj_token := spec_token c; cj_limit := i128_to_string (spec_limit c);
                             cj_period_ledgers := spec_period_ledgers c |}) <$> lr_cap rule |}.

Fixpoint compose_rules (account : string) (rules : list LoweredRule)
    (genesis : option RuleEntry) (apply : list RuleEntry)
  : option (option RuleEntry * list RuleEntry) :=
  match rules with
  | [] => Some (genesis, apply)
  | rule :: rules =>
      match lr_scope rule with
      | ScopeSpec_SelfAdmin =>
          if negb (is_none (lr_install rule)) || negb (is_none (lr_cap rule)) then None
          else if negb (is_none genesis) then None
          else
            entry ← rule_entry 0 rule account;
            compose_rules account rules (Some entry) apply
      | ScopeSpec_Contract addr =>
          (* [apply.len() as u32 + 1] panics on overflow. *)
          id ← (if (len_u32 apply =? U32_MAX)%N then None else Some (len_u32 apply + 1)%N);
          entry ← rule_entry id rule addr;
          compose_rules account rules genesis (apply ++ [entry])
      end
  end.

Definition compose (doc_json account interpreter interpreter_wasm_hash_hex : string)
  : option ComposeOutput :=
  doc ← ok (from_json doc_json);
  _ ← ok (Validate.validate doc);
  wasm_hash ← parse_hash32 interpreter_wasm_hash_hex;
  plan ← ok (compile doc wasm_hash);
  _ ← ok (verify_plan_matches_doc doc plan);
  '(genesis, apply) ← compose_rules account (plan_rules plan) None [];
  Some {| co_doc_hash := hex_of_bytes (doc_hash_onchain doc); co_account := account;
          co_interpreter := interpreter; co_interpreter_wasm_hash := interpreter_wasm_hash_hex;
          genesis_rule := genesis; co_apply := apply |}.

(** ** Reading the network *)

Inductive ReadOutcome : Type :=
| ReadValue (v : ScVal)
| ContractError (code : option N) (message : string).

(** What [simulate_read] answers when it is called at a moment; [None] is a
    failed read. *)
Class Network : Type :=
  simulate_read : nat → string → string → list ScVal → option ReadOutcome.
Context {NW : Network}.

(** A computation that reads the network: each read advances the clock. *)
Definition R (T : Type) : Type := nat → option (T * nat).
#[export] Instance R_ret : MRet R := λ T a t, Some (a, t).
#[export] Instance R_bind : MBind R := λ T U k c t,
  match c t with Some (a, t) => k a t | None => None end.
Definition read (contract func : string) (args : list ScVal) : R ReadOutcome := λ t,
  o ← simulate_read t contract func args; Some (o, S t).
Definition try {T} (o : option T) : R T := λ t, (λ a, (a, t)) <$> o.
Definition bail {T} : R T := λ _, None.

(** ** Publishing (publish.rs, tx.rs) *)

Definition NO_SUCH_WASM_PUBLISHED : N := 1.
Definition NO_SUCH_VERSION : N := 2.

Inductive PreflightDecision : Type :=
| AlreadyPublished
| Proceed
| HashMismatch (onchain : bytes)
| UnexpectedTrap.

(** [split_once], the digits that follow and [parse::<u32>]. *)
Fixpoint after_first (pat s : string) : option string :=
  if String.prefix pat s then Some (substring (String.length pat) (String.length s) s)
  else match s with EmptyString => None | String _ s => after_first pat s end.
Fixpoint leading_digits (s : string) : string :=
  match s with
  | String c r => if in_range 48 57 (N_of_ascii c) then String c (leading_digits r) else ""
  | EmptyString => ""
  end.
Definition contract_error_code (message : string) : option N :=
  rest ← after_first "Error(Contract, #" message;
  parse_uint 4294967295 (leading_digits rest).

Definition preflight_decision (outcome : ReadOutcome) (local : bytes) : PreflightDecision :=
  match outcome with
  | ContractError (Some code) _ =>
      if (code =? NO_SUCH_WASM_PUBLISHED)%N || (code =? NO_SUCH_VERSION)%N then Proceed
      else UnexpectedTrap
  | ContractError None _ => UnexpectedTrap
  | ReadValue (Sc_Bytes b) =>
      if (String.length b =? 32)%nat then
        if String.eqb b local then AlreadyPublished else HashMismatch b
      else UnexpectedTrap
  | ReadValue _ => UnexpectedTrap
  end.

(** ** Verifying an account (verify.rs) *)

(** A row of the report; the reason of a mismatch is left out. *)
Record Row : Type := {
  row_rule_id : option N;
  row_name : string;
  row_check : string;
  row_mismatch : bool;
}.

Fixpoint configuration_rules (rules : list ScVal) : option (list (N * list (ScVal * ScVal))) :=
  match rules with
  | [] => Some []
  | Sc_Map (Some r) :: rules =>
      match map_get r "id" with
      | Some (Sc_U32 id) => found ← configuration_rules rules; Some ((id, r) :: found)
      | _ => None
      end
  | _ => None
  end.

Definition read_configuration (account : string)
  : R (N * list (N * list (ScVal * ScVal))) :=
  o ← read account "configuration" [];
  match o with
  | ReadValue (Sc_Map (Some m)) =>
      match map_get m "revision" with
      | Some (Sc_U64 revision) =>
          match map_get m "rules" with
          | Some (Sc_Vec (Some rules)) =>
              found ← try (configuration_rules rules); mret (revision, found)
          | _ => bail
          end
      | _ => bail
      end
  | _ => bail
  end.

Definition read_revision (account : string) : R N :=
  o ← read account "revision" [];
  match o with ReadValue (Sc_U64 r) => mret r | _ => bail end.

Definition check_applied_hash (account doc_hash_hex : string) : R Row :=
  h ← try (parse_hash32 doc_hash_hex);
  want ← try (scv_bytes h);
  o ← read account "applied_doc_hash" [];
  let mismatch :=
    match o with
    | ReadValue Sc_Void => true
    | ReadValue v => negb (bool_decide (v = want))
    | ContractError _ _ => true
    end in
  mret {| row_rule_id := None; row_name := "(document)"; row_check := "applied hash";
          row_mismatch := mismatch |}.

Definition check_program (account interpreter : string) (expected : option ScVal) (name : string)
    (rule_id : N) : R Row :=
  a ← try (scv_address account);
  o ← read interpreter "get_program" [a; Sc_U32 rule_id];
  let mismatch :=
    match o with
    | ContractError _ _ => true
    | ReadValue Sc_Void => negb (is_none expected)
    | ReadValue (Sc_Map (Some m)) =>
        match expected with
        | None => true
        | Some want => negb (bool_decide (want = Sc_Map (Some m)))
        end
    | ReadValue _ => true
    end in
  mret {| row_rule_id := Some rule_id; row_name := name; row_check := "program hash";
          row_mismatch := mismatch |}.

Definition named (want : ScVal) (p : N * list (ScVal * ScVal)) : bool :=
  bool_decide (map_get p.2 "name" = Some want).

Definition check_rule (onchain : list (N * list (ScVal * ScVal))) (expected : RuleEntry)
  : option (Row * option N) :=
  want_name ← scv_string (re_name expected);
  want_ctx ← call_contract_context (call_contract expected);
  let '(rule_id, mismatch) :=
    match find_first (named want_name) onchain with
    | None => (None, true)
    | Some (id, m) =>
        (Some id, negb (bool_decide (map_get m "context_type" = Some want_ctx)))
    end in
  Some ({| row_rule_id := rule_id; row_name := re_name expected; row_check := "context+name";
           row_mismatch := mismatch |}, rule_id).

Fixpoint check_rules (account interpreter : string) (onchain : list (N * list (ScVal * ScVal)))
    (entries : list RuleEntry) (rows : list Row) : R (list Row) :=
  match entries with
  | [] => mret rows
  | expected :: entries =>
      r ← try (check_rule onchain expected);
      let '(row, rule_id) := r in
      want ←
        match re_install expected with
        | Some install => w ← try (from_xdr_base64 (scval_base64 install)); mret (Some w)
        | None => mret None
        end;
      row' ←
        match rule_id with
        | Some id => check_program account interpreter want (re_name expected) id
        | None => mret {| row_rule_id := None; row_name := re_name expected;
                          row_check := "program hash"; row_mismatch := true |}
        end;
      check_rules account interpreter onchain entries (rows ++ [row; row'])
  end.

Definition composed_rules (c : ComposeOutput) : list RuleEntry :=
  match genesis_rule c with Some g => [g] | None => [] end ++ co_apply c.

(** [verify::run] on the composed rules read from the file. *)
Definition verify_run (account interpreter : string) (compose : ComposeOutput) : R unit :=
  if negb (String.eqb (co_account compose) account) then bail
  else if negb (String.eqb (co_interpreter compose) interpreter) then bail
  else
    snapshot ← read_configuration account;
    let '(revision, onchain) := snapshot in
    row ← check_applied_hash account (co_doc_hash compose);
    rows ← check_rules account interpreter onchain (composed_rules compose) [row];
    let rows := rows ++
      [{| row_rule_id := None; row_name := "(rule count)"; row_check := "exact count";
          row_mismatch := negb (length onchain =? length (composed_rules compose))%nat |}] in
    after ← read_revision account;
    if negb (after =? revision)%N then bail
    else if existsb row_mismatch rows then bail
    else mret tt.
End deploy.
