(* ===== verification/DeployFacts.v ===== *)
(** * What a verified account is

    A successful [verify] against the output of [compose] shows that the
    account on the network holds exactly the reviewed document, and the
    digest the tool signs is the one the account checks. *)

From S2P Require Import Prelude Host Doc Canon Text Parse Validate Program Compile RecoveryIface Account Deploy.
#[local] Open Scope string_scope.
#[local] Open Scope list_scope.

Section facts.
Context {H : Host} `{JL : JsonLexer, HC : HexCodec} {L : DeployLibs} {NW : Network}.

(** ** Reading *)

Lemma read_bind {T U} (c : R T) (k : T → R U) t u t' :
  (c ≫= k) t = Some (u, t') → ∃ a t1, c t = Some (a, t1) ∧ k a t1 = Some (u, t').
Proof. unfold mbind, R_bind. destruct (c t) as [[a t1]|]; [eauto|done]. Qed.

Lemma read_Some contract func args t o t' :
  read contract func args t = Some (o, t') ↔ simulate_read t contract func args = Some o ∧ t' = S t.
Proof. unfold read. destruct (simulate_read _ _ _ _); naive_solver. Qed.

Lemma try_Some {T} (o : option T) t a t' : try o t = Some (a, t') ↔ o = Some a ∧ t' = t.
Proof. unfold try. destruct o; naive_solver. Qed.

Lemma ret_Some {T} (a : T) t b t' : (mret a : R T) t = Some (b, t') ↔ b = a ∧ t' = t.
Proof. unfold mret, R_ret. naive_solver. Qed.

Ltac reads H :=
  repeat match type of H with
  | (_ ≫= _) _ = Some _ => let a := fresh "a" in let s := fresh "s" in let E := fresh "E" in
      apply read_bind in H as (a & s & E & H)
  end.

(** ** One rule *)

(** The rule an entry describes is in the snapshot under its name and context,
    and the interpreter holds its program, or none, at some moment. *)
Definition entry_holds (account interpreter : string) (onchain : list (N * list (ScVal * ScVal)))
    (entry : RuleEntry) : Prop :=
  ∃ id m ctx a s prog,
    (id, m) ∈ onchain ∧ map_get m "name" = Some (Sc_String (re_name entry)) ∧
    call_contract_context (call_contract entry) = Some ctx ∧
    map_get m "context_type" = Some ctx ∧ scv_address account = Some a ∧
    simulate_read s interpreter "get_program" [a; Sc_U32 id] = Some (ReadValue prog) ∧
    match re_install entry with
    | Some i => from_xdr_base64 (scval_base64 i) = Some prog
    | None => prog = Sc_Void
    end.

Lemma check_rule_Some onchain entry row id :
  check_rule onchain entry = Some (row, Some id) → row_mismatch row = false →
  ∃ m ctx, (id, m) ∈ onchain ∧ map_get m "name" = Some (Sc_String (re_name entry)) ∧
    call_contract_context (call_contract entry) = Some ctx ∧
    map_get m "context_type" = Some ctx.
Proof.
  unfold check_rule. destruct (scv_string (re_name entry)) as [name|] eqn:Hn; [|done].
  destruct (call_contract_context _) as [ctx|] eqn:Hc; [|done]. cbn [mbind option_bind].
  destruct (find_first (named name) onchain) as [[id' m]|] eqn:Hf; [|done].
  intros [= <- <-]. cbn [row_mismatch]. rewrite negb_false_iff, bool_decide_eq_true. intros Hctx.
  apply find_first_Some in Hf as [Hin Hname]. apply bool_decide_eq_true in Hname.
  unfold scv_string, bounded in Hn. destruct (_ <=? _)%N; [|done]. injection Hn as <-.
  by exists m, ctx.
Qed.

Lemma check_program_Some account interpreter want name id t row t' :
  check_program account interpreter want name id t = Some (row, t') → row_mismatch row = false →
  ∃ a prog, scv_address account = Some a ∧
    simulate_read t interpreter "get_program" [a; Sc_U32 id] = Some (ReadValue prog) ∧
    prog = default Sc_Void want.
Proof.
  unfold check_program. intros E. reads E. apply try_Some in E0 as [Ha ->].
  apply read_Some in E1 as [Hr ->]. apply ret_Some in E as [-> _]. cbn [row_mismatch]. intros Hm.
  exists a. destruct a0 as [v|]; [|done]. exists v. split; [done|]. split; [done|].
  destruct v as [| | | | | | | | |[l|]|]; try done.
  - by destruct want.
  - destruct want as [w|]; [|done]. rewrite negb_false_iff, bool_decide_eq_true in Hm. done.
Qed.

Lemma check_rules_Some account interpreter onchain entries rows t rows' t' :
  check_rules account interpreter onchain entries rows t = Some (rows', t') →
  existsb row_mismatch rows' = false →
  existsb row_mismatch rows = false ∧ Forall (entry_holds account interpreter onchain) entries.
Proof.
  revert rows t. induction entries as [|entry entries IH]; intros rows t E Hm; cbn [check_rules] in E.
  { apply ret_Some in E as [-> _]. by split; [|constructor]. }
  apply read_bind in E as ([row rule_id] & s & [Hrule ->]%try_Some & E).
  apply read_bind in E as (want & s1 & Hw & E). apply read_bind in E as (row' & s2 & Hp & E).
  destruct (IH _ _ E Hm) as [Hrows Hall]. rewrite existsb_app in Hrows. simpl in Hrows.
  rewrite !orb_false_iff in Hrows. destruct Hrows as (Hrows & Hrow & Hrow' & _).
  split; [done|]. constructor; [|done].
  destruct rule_id as [id|]; [|apply ret_Some in Hp as [-> _]; done].
  destruct (check_rule_Some _ _ _ _ Hrule Hrow) as (m & ctx & Hin & Hname & Hctx & Hmctx).
  destruct (check_program_Some _ _ _ _ _ _ _ _ Hp Hrow') as (a & prog & Ha & Hread & Hprog).
  exists id, m, ctx, a, s1, prog. split_and!; try done.
  destruct (re_install entry) as [i|].
  - apply read_bind in Hw as (w & s3 & [Hb _]%try_Some & [-> _]%ret_Some). by rewrite Hprog.
  - apply ret_Some in Hw as [-> _]. done.
Qed.

(** ** Composing *)

(** The encodings the tool writes are read back as they were. *)
Class DeployLaws : Prop := {
  base64_back ip v :
    install_to_scval ip = Some v → from_xdr_base64 (to_xdr_base64 v) = Some v;
  hex_back b : hex_decode (trim (hex_of_bytes b)) = Some b;
}.
Context {DL : DeployLaws}.

Definition scope_contract (account : string) (s : ScopeSpec) : string :=
  match s with ScopeSpec_Contract a => a | ScopeSpec_SelfAdmin => account end.

Definition describes (account : string) (rule : LoweredRule) (entry : RuleEntry) : Prop :=
  re_name entry = lr_name rule ∧ call_contract entry = scope_contract account (lr_scope rule) ∧
  match lr_install rule, re_install entry with
  | Some ip, Some i => ∃ v, install_to_scval ip = Some v ∧ scval_base64 i = to_xdr_base64 v
  | None, None => True
  | _, _ => False
  end.

Lemma rule_entry_Some id rule account entry :
  rule_entry id rule (scope_contract account (lr_scope rule)) = Some entry →
  describes account rule entry.
Proof.
  unfold rule_entry, describes. destruct (lr_install rule) as [ip|].
  - destruct (install_to_scval ip) as [v|] eqn:Hv; [|done]. simpl.
    destruct (serde_to_value v) as [j|]; [|done]. simpl. intros [= <-]. split_and!; [done|done|by exists v].
  - intros [= <-]. done.
Qed.

Definition entries (genesis : option RuleEntry) (apply : list RuleEntry) : list RuleEntry :=
  match genesis with Some g => [g] | None => [] end ++ apply.

(** Each rule gets one entry, and every entry comes from a rule. *)
Lemma compose_rules_Some account rules genesis apply genesis' apply' :
  compose_rules account rules genesis apply = Some (genesis', apply') →
  ∃ new, entries genesis' apply' ≡ₚ entries genesis apply ++ new ∧
    Forall2 (describes account) rules new.
Proof.
  revert genesis apply. induction rules as [|rule rules IH]; intros genesis apply E; simpl in E.
  { injection E as <- <-. exists []. rewrite app_nil_r. by split; [|constructor]. }
  destruct (lr_scope rule) as [addr|] eqn:Hs.
  - destruct (len_u32 apply =? U32_MAX)%N; [done|]. cbn [mbind option_bind] in E.
    destruct (rule_entry _ rule addr) as [entry|] eqn:He; [|done]. cbn [mbind option_bind] in E.
    destruct (IH _ _ E) as (new & Hp & Hall). exists (entry :: new). split.
    + rewrite Hp. unfold entries. rewrite !app_assoc, <- app_assoc. done.
    + constructor; [|done]. eapply rule_entry_Some. by rewrite Hs.
  - destruct (negb (is_none (lr_install rule)) || _); [done|].
    destruct genesis as [g|]; [done|]. cbn [is_none negb] in E.
    destruct (rule_entry 0 rule account) as [entry|] eqn:He; [|done]. cbn [mbind option_bind] in E.
    destruct (IH _ _ E) as (new & Hp & Hall). exists (entry :: new). split.
    + rewrite Hp. unfold entries. simpl. by rewrite <- Permutation_middle.
    + constructor; [|done]. eapply rule_entry_Some. by rewrite Hs.
Qed.

Lemma compose_Some dj account interpreter hex out :
  compose dj account interpreter hex = Some out →
  ∃ doc wasm plan, from_json dj = Ok doc ∧ Validate.validate doc = Ok tt ∧
    compile doc wasm = Ok plan ∧ co_doc_hash out = hex_of_bytes (doc_hash_onchain doc) ∧
    ∃ new, composed_rules out ≡ₚ new ∧ Forall2 (describes account) (plan_rules plan) new.
Proof.
  unfold compose. intros E.
  destruct (ok (from_json dj)) as [doc|] eqn:Hd; [|done]. apply ok_Some in Hd.
  cbn [mbind option_bind] in E.
  destruct (ok (Validate.validate doc)) as [[]|] eqn:Hv; [|done]. apply ok_Some in Hv.
  cbn [mbind option_bind] in E.
  destruct (parse_hash32 hex) as [wasm|]; [|done].
  cbn [mbind option_bind] in E.
  destruct (ok (compile doc wasm)) as [plan|] eqn:Hc; [|done]. apply ok_Some in Hc.
  cbn [mbind option_bind] in E.
  destruct (ok (verify_plan_matches_doc doc plan)); [|done]. cbn [mbind option_bind] in E.
  destruct (compose_rules account (plan_rules plan) None []) as [[g a]|] eqn:Hr; [|done].
  injection E as <-. exists doc, wasm, plan. split_and!; [done..|].
  exact (compose_rules_Some _ _ _ _ _ _ Hr).
Qed.

(** ** Verifying *)

Lemma check_applied_hash_Some account hex t row t' b :
  check_applied_hash account hex t = Some (row, t') → row_mismatch row = false →
  parse_hash32 hex = Some b →
  simulate_read t account "applied_doc_hash" [] = Some (ReadValue (Sc_Bytes b)).
Proof.
  unfold check_applied_hash. intros E. reads E. apply try_Some in E0 as [Hp ->].
  apply try_Some in E1 as [Hw ->]. apply read_Some in E2 as [Hr ->]. apply ret_Some in E as [-> _].
  cbn [row_mismatch]. intros Hm Hb. rewrite Hp in Hb. injection Hb as ->.
  unfold scv_bytes, bounded in Hw. destruct (_ <=? _)%N; [|done]. injection Hw as <-.
  destruct a1 as [v|]; [|done]. rewrite Hr. do 2 f_equal.
  destruct v; try (by rewrite negb_false_iff, bool_decide_eq_true in Hm). done.
Qed.

Lemma verify_run_Some account interpreter out t t' :
  verify_run account interpreter out t = Some (tt, t') →
  ∃ revision onchain s,
    read_configuration account t = Some ((revision, onchain), S t) ∧
    read_revision account s = Some (revision, t') ∧
    (∀ b, parse_hash32 (co_doc_hash out) = Some b →
       simulate_read (S t) account "applied_doc_hash" [] = Some (ReadValue (Sc_Bytes b))) ∧
    length onchain = length (composed_rules out) ∧
    Forall (entry_holds account interpreter onchain) (composed_rules out).
Proof.
  unfold verify_run. destruct (negb _); [done|]. destruct (negb _); [done|]. intros E.
  apply read_bind in E as ([revision onchain] & t1 & Hconf & E).
  assert (t1 = S t) as ->.
  { unfold read_configuration in Hconf. apply read_bind in Hconf as (o & s & [_ ->]%read_Some & Hconf).
    repeat (case_match; try done). apply read_bind in Hconf as (f & s' & [_ ->]%try_Some & Hconf).
    by apply ret_Some in Hconf as [_ ->]. }
  apply read_bind in E as (row & s1 & Hrow & E). apply read_bind in E as (rows & s2 & Hrows & E).
  apply read_bind in E as (after & s3 & Hafter & E).
  destruct (N.eqb_spec after revision) as [->|]; [|done]. cbn [negb] in E.
  destruct (existsb row_mismatch _) eqn:Hm in E; [done|]. apply ret_Some in E as [_ ->].
  rewrite existsb_app, orb_false_iff in Hm. destruct Hm as [Hm Hcount].
  simpl in Hcount. rewrite orb_false_r, negb_false_iff, Nat.eqb_eq in Hcount.
  destruct (check_rules_Some _ _ _ _ _ _ _ _ Hrows Hm) as [Hrow0 Hall].
  simpl in Hrow0. rewrite orb_false_r in Hrow0.
  exists revision, onchain, s2. split_and!; try done.
  intros b Hb. by eapply check_applied_hash_Some.
Qed.

Lemma compile_names doc wasm plan :
  compile doc wasm = Ok plan → lr_name <$> plan_rules plan = rule_name <$> doc_rules doc.
Proof.
  unfold compile. intros Hc. apply rbind_Ok in Hc as (lrs & Hl & [= <-]). simpl.
  apply mapM_result_Ok in Hl. induction Hl as [|r lr rs lrs Hr _ IH]; [done|]. simpl.
  f_equal; [|done]. apply lower_rule_Ok in Hr as [Hr _]. done.
Qed.

(** As many rules as the document has, each of its names among them: the names
    are the document's. *)
Lemma names_exact (names : list string) (onchain : list (N * list (ScVal * ScVal))) :
  NoDup names → length onchain = length names →
  (∀ n, n ∈ names → ∃ p, p ∈ onchain ∧ map_get p.2 "name" = Some (Sc_String n)) →
  (λ p, map_get p.2 "name") <$> onchain ≡ₚ (λ n, Some (Sc_String n)) <$> names.
Proof.
  intros Hnd Hlen Hin. symmetry. apply NoDup_Permutation_bis.
  - apply NoDup_ListNoDup, NoDup_fmap_2; [|done]. intros x y [= ->]. done.
  - rewrite !length_fmap. lia.
  - intros v Hv. apply list_elem_of_In, list_elem_of_fmap in Hv as (n & -> & Hn).
    destruct (Hin n Hn) as (p & Hp & Hname). apply list_elem_of_In, list_elem_of_fmap. eauto.
Qed.

(** C27: Installed is what was reviewed.  If [compose] expands a document for an
    account and [verify] then succeeds against that expansion, the document is
    valid and compiles, the account answered with the document's hash, its
    configuration has the same revision before and after the reads, the rules
    of the snapshot are the document's, name for name with none left over, and
    each lowered rule is there with its context and with exactly its compiled
    program in the interpreter, or none where it has none. *)
Theorem verified_is_reviewed dj account interpreter hex out t t' :
  compose dj account interpreter hex = Some out →
  verify_run account interpreter out t = Some (tt, t') →
  (∀ b, String.length (sha256 b) = 32%nat) →
  ∃ doc wasm plan revision onchain s,
    from_json dj = Ok doc ∧ Validate.validate doc = Ok tt ∧ compile doc wasm = Ok plan ∧
    read_configuration account t = Some ((revision, onchain), S t) ∧
    read_revision account s = Some (revision, t') ∧
    simulate_read (S t) account "applied_doc_hash" [] =
      Some (ReadValue (Sc_Bytes (doc_hash_onchain doc))) ∧
    (λ p, map_get p.2 "name") <$> onchain ≡ₚ
      (λ r, Some (Sc_String (rule_name r))) <$> doc_rules doc ∧
    ∀ rule, rule ∈ plan_rules plan →
      ∃ id m ctx a s prog,
        (id, m) ∈ onchain ∧ map_get m "name" = Some (Sc_String (lr_name rule)) ∧
        call_contract_context (scope_contract account (lr_scope rule)) = Some ctx ∧
        map_get m "context_type" = Some ctx ∧ scv_address account = Some a ∧
        simulate_read s interpreter "get_program" [a; Sc_U32 id] = Some (ReadValue prog) ∧
        match lr_install rule with
        | Some ip => install_to_scval ip = Some prog
        | None => prog = Sc_Void
        end.
Proof.
  intros (doc & wasm & plan & Hd & Hv & Hc & Hh & new & Hp & Hall)%compose_Some
    (revision & onchain & s & Hconf & Hrev & Hhash & Hlen & Hholds)%verify_run_Some H32.
  rewrite Hp in Hholds. rewrite Hp in Hlen.
  assert (Hrules : ∀ rule, rule ∈ plan_rules plan → ∃ entry,
    describes account rule entry ∧ entry_holds account interpreter onchain entry).
  { intros rule [i Hi]%list_elem_of_lookup. destruct (Forall2_lookup_l _ _ _ _ _ Hall Hi) as (entry & He & Hde).
    exists entry. split; [done|]. by eapply Forall_lookup_1. }
  exists doc, wasm, plan, revision, onchain, s. split_and!; try done.
  - apply Hhash. unfold parse_hash32. rewrite Hh, hex_back. simpl. unfold doc_hash_onchain.
    by rewrite H32.
  - pose proof (compile_names _ _ _ Hc) as Hn.
    rewrite (list_fmap_compose rule_name (λ n, Some (Sc_String n))), <- Hn.
    apply names_exact.
    + rewrite Hn. apply validate_Ok in Hv. apply Hv.
    + rewrite length_fmap, Hlen. symmetry. by eapply Forall2_length.
    + intros n Hin. apply list_elem_of_fmap in Hin as (rule & -> & Hr).
      destruct (Hrules rule Hr) as (entry & (Hname & _) & id & m & ? & ? & ? & ? & Hm & Hmn & _).
      exists (id, m). by rewrite Hname in Hmn.
  - intros rule Hr. destruct (Hrules rule Hr) as (entry & (Hname & Hctr & Hinst) & Hh').
    destruct Hh' as (id & m & ctx & a & s' & prog & Hin & Hmn & Hctx & Hmc & Ha & Hread & Hprog).
    exists id, m, ctx, a, s', prog. rewrite Hname in Hmn. rewrite Hctr in Hctx.
    split_and!; try done. destruct (lr_install rule) as [ip|], (re_install entry) as [i|]; try done.
    destruct Hinst as (v & Hv' & Hb). rewrite Hb, (base64_back ip v Hv') in Hprog. congruence.
Qed.
End facts.

(** ** The digest that is signed *)

(** What the tool signs for an account is OpenZeppelin's rule digest of the
    payload the account binds to itself in [__check_auth]. *)
Lemma signed_digest_is_checked {H : Host} {L : DeployLibs} e payload ids kind id :
  address_payload (current_contract_address e) = Some (kind, id) →
  perch_auth_digest id payload ids = oz_auth_digest (bind_payload e payload) ids.
Proof. intros Ha. unfold perch_auth_digest, bind_payload, payload_id. by rewrite Ha. Qed.
