(* ===== verification/DeployDemo.v ===== *)
(** * A document composed and verified

    A network that holds the document of [Compile.CompileDemo], and the tool
    run against it. *)

From S2P Require Import Prelude Host Doc Canon Text Parse RoundTrip Validate Program Compile RecoveryIface Account Deploy DeployFacts.
#[local] Open Scope string_scope.
#[local] Open Scope list_scope.
Import CompileDemo.

(** A digest is its input, cut or filled to 32 bytes. *)
Definition DeployHost : Host := {|
  Address := string;
  address_from_str s := Some s;
  address_to_xdr s := s;
  symbol_new s := Some s;
  Val := unit;
  val_address _ := None; val_symbol _ := None; val_string _ := None; val_bytes _ := None;
  val_u32 _ := None; val_i128 _ := None;
  sha256 s := substring 0 32 (s +:+ zeros 32);
|}.
#[local] Existing Instance DeployHost.
#[local] Existing Instance DemoHex.
#[local] Existing Instance canonical_lexer.

(** ** Lowercase hex reads back *)

Fixpoint hex_pairs (b : bytes) : string :=
  match b with
  | EmptyString => ""
  | String c b =>
      let n := N_of_ascii c in
      String (hex_digit (N.shiftr n 4)) (String (hex_digit (N.land n 15)) (hex_pairs b))
  end.

Lemma hex_pairs_back b : demo_hex_decode (hex_pairs b) = Some b.
Proof.
  induction b as [|c b IH]; [done|]. cbn [hex_pairs demo_hex_decode]. rewrite IH.
  destruct c as [[] [] [] [] [] [] [] []]; vm_compute; reflexivity.
Qed.


Lemma hex_pairs_plain b :
  forallb plain_code (map N_of_ascii (list_ascii_of_string (hex_pairs b))) = true.
Proof.
  induction b as [|c b IH]; [done|]. cbn [hex_pairs list_ascii_of_string map forallb].
  rewrite IH. destruct c as [[] [] [] [] [] [] [] []]; vm_compute; reflexivity.
Qed.

(** ** The libraries *)

Definition demo_scval (hash : bytes) : ScVal :=
  Sc_Map (Some [(Sc_Symbol "doc_hash", Sc_Bytes hash)]).

#[local] Instance DemoDeployLibs : DeployLibs := {|
  strkey_contract s := Some s; strkey_account _ := None;
  scval_to_xdr _ := "";
  to_xdr_base64 v := match v with Sc_Map (Some [(_, Sc_Bytes b)]) => b | _ => "" end;
  from_xdr_base64 s := Some (demo_scval s);
  Json := unit; serde_to_value _ := Some tt;
  install_to_scval p := Some (demo_scval (Program.doc_hash p));
  hex_of_bytes := hex_pairs |}.

#[local] Instance demo_deploy_laws : DeployLaws.
Proof.
  split.
  - by intros ip v [= <-].
  - intros b. cbn [hex_of_bytes DemoDeployLibs hex_decode DemoHex].
    rewrite trim_plain by apply hex_pairs_plain. apply hex_pairs_back.
Qed.

(** ** The network *)

Definition reviewed : PolicyDoc := pay_doc from_self.
Definition pay_on_chain : ScVal :=
  Sc_Map (Some [(Sc_Symbol "context_type",
                  Sc_Vec (Some [Sc_Symbol "CallContract"; Sc_Address (ScAddress_Contract token)]));
                (Sc_Symbol "id", Sc_U32 4);
                (Sc_Symbol "name", Sc_String "pay")]).
#[local] Instance DemoNetwork : Network := λ _ contract func args,
  if String.eqb func "configuration" then
    Some (ReadValue (Sc_Map (Some [(Sc_Symbol "revision", Sc_U64 3);
                                   (Sc_Symbol "rules", Sc_Vec (Some [pay_on_chain]))])))
  else if String.eqb func "revision" then Some (ReadValue (Sc_U64 3))
  else if String.eqb func "applied_doc_hash" then
    Some (ReadValue (Sc_Bytes (doc_hash_onchain reviewed)))
  else if String.eqb func "get_program" then Some (ReadValue (demo_scval (rule_hash_onchain (pay_rule from_self))))
  else None.

Definition demo_wasm_hex : string :=
  "abababababababababababababababababababababababababababababababab".

Definition output_of (o : option ComposeOutput) : ComposeOutput :=
  default {| co_doc_hash := ""; co_account := ""; co_interpreter := "";
             co_interpreter_wasm_hash := ""; genesis_rule := None; co_apply := [] |} o.
Definition demo_output : ComposeOutput :=
  output_of (compose (canonical_json reviewed) token "CINTERPRETER" demo_wasm_hex).

Lemma demo_composed :
  compose (canonical_json reviewed) token "CINTERPRETER" demo_wasm_hex = Some demo_output.
Proof. vm_compute. reflexivity. Qed.

Lemma demo_verified : verify_run token "CINTERPRETER" demo_output 0 = Some (tt, 4).
Proof. vm_compute. reflexivity. Qed.

Lemma length_substring_0 n t : String.length (substring 0 n t) = Nat.min n (String.length t).
Proof. revert t. induction n as [|n IH]; intros [|c t]; simpl; [done..|]. by rewrite IH. Qed.

Lemma demo_digest_length b : String.length (sha256 b) = 32%nat.
Proof.
  cbn [sha256 DeployHost]. rewrite length_substring_0, length_string_app.
  change (String.length (zeros 32)) with 32%nat. lia.
Qed.

Lemma verified_is_reviewed_witness :
  ∃ doc revision onchain, from_json (canonical_json reviewed) = Ok doc ∧
    read_configuration token 0 = Some ((revision, onchain), 1) ∧
    (λ p, map_get p.2 "name") <$> onchain ≡ₚ
      (λ r, Some (Sc_String (rule_name r))) <$> doc_rules doc.
Proof.
  destruct (verified_is_reviewed (canonical_json reviewed) token "CINTERPRETER" demo_wasm_hex
    demo_output 0 4 demo_composed demo_verified demo_digest_length)
    as (doc & wasm & plan & revision & onchain & s & Hd & _ & _ & Hc & _ & _ & Hn & _).
  exists doc, revision, onchain. split; [exact Hd|]. split; [exact Hc|exact Hn].
Defined.

(** Only the registry's two not-published errors let a publication proceed. *)
Example demo_preflight :
  preflight_decision (ContractError (contract_error_code "HostError: Error(Contract, #2) ..") "") "x" =
  Proceed.
Proof. vm_compute. reflexivity. Qed.
