(* ===== verification/DeployTx.v ===== *)
(** * perch-deploy: signing and submitting transactions

    Models the rest of [perch-deploy]: [keys.rs], the JSON-RPC client
    [rpc.rs], the auth entries of [auth.rs], the write path [tx.rs],
    [apply.rs], [publish.rs] and [main.rs].  A run keeps what cannot be taken
    back: the envelopes it has sent and the receipts it has written stay when
    a later step fails.  The RPC server, its delays, the shell and the XDR,
    strkey and ed25519 libraries are parameters; an error or a panic ends the
    run.  Printed texts are left out. *)

From S2P Require Import Prelude Host Doc Canon Text Parse Validate Program Compile RecoveryIface Account Deploy.
#[local] Open Scope string_scope.
#[local] Open Scope list_scope.

(** ** XDR types *)

(** Carried around, never looked into. *)
Definition SorobanAuthorizedInvocation := bytes.
Definition SorobanTransactionData := bytes.

Record SorobanAddressCredentials : Type := {
  sac_address : ScAddress;
  nonce : Z;
  signature_expiration_ledger : N;
  signature : ScVal;
}.
(** [nested_delegates] is always empty. *)
Record SorobanDelegateSignature : Type := {
  sds_address : ScAddress;
  sds_signature : ScVal;
}.
Inductive SorobanCredentials : Type :=
| SourceAccount
| CredAddress (c : SorobanAddressCredentials)
| CredAddressV2 (c : SorobanAddressCredentials)
| AddressWithDelegates (c : SorobanAddressCredentials) (delegates : list SorobanDelegateSignature).
Record SorobanAuthorizationEntry : Type := {
  credentials : SorobanCredentials;
  root_invocation : SorobanAuthorizedInvocation;
}.

Inductive HostFunction : Type :=
| InvokeContract (contract_address : ScAddress) (function_name : string) (args : list ScVal)
| UploadContractWasm (wasm : bytes).
Inductive OperationBody : Type :=
| InvokeHostFunction (host_function : HostFunction) (auth : list SorobanAuthorizationEntry)
| OtherOperation (content : bytes).
(** No preconditions, no memo, and operations without a source of their own. *)
Record Transaction : Type := {
  source_account : bytes;
  fee : N;
  seq_num : Z;
  operations : list OperationBody;
  ext : option SorobanTransactionData;
}.
Record DecoratedSignature : Type := {
  hint : bytes;
  ds_signature : bytes;
}.
Record TransactionEnvelope : Type := {
  env_tx : Transaction;
  signatures : list DecoratedSignature;
}.

Inductive HashIdPreimage : Type :=
| SorobanAuthorization (network_id : bytes) (nonce : Z) (expiration : N)
    (invocation : SorobanAuthorizedInvocation)
| SorobanAuthorizationWithAddress (network_id : bytes) (nonce : Z) (expiration : N)
    (invocation : SorobanAuthorizedInvocation) (address : ScAddress).

(** ** JSON answers ([serde_json::Value], whose objects repeat no key) *)

Definition json_get (key : string) (v : Value) : option Value :=
  match v with
  | Object ms => snd <$> find_first (λ m, String.eqb m.1 key) ms
  | _ => None
  end.
Definition json_str (v : Value) : option string :=
  match v with JString s => Some s | _ => None end.
Definition json_array (v : Value) : option (list Value) :=
  match v with Array l => Some l | _ => None end.
Definition json_u64 (v : Value) : option N :=
  match v with Number d true => parse_uint U64_MAX d | _ => None end.
Definition str_at (key : string) (v : Value) : option string := x ← json_get key v; json_str x.
Definition u64_at (key : string) (v : Value) : option N := x ← json_get key v; json_u64 x.
(** [as u32]. *)
Definition to_u32 (n : N) : N := (n mod 2 ^ 32)%N.

Fixpoint filter_map {A B} (f : A → option B) (l : list A) : list B :=
  match l with
  | [] => []
  | x :: l => match f x with Some y => y :: filter_map f l | None => filter_map f l end
  end.

(** ** Keys (keys.rs) *)

Record SeedKey : Type := {
  signing : bytes;
  public : bytes;
}.

(** *** The libraries *)

Class TxLibs : Type := {
  entry_from_base64 : string → option SorobanAuthorizationEntry;
  data_from_base64 : string → option SorobanTransactionData;
  envelope_to_base64 : TransactionEnvelope → option string;
  (** [TransactionSignaturePayload] and [HashIdPreimage] as XDR. *)
  tx_payload_to_xdr : bytes → Transaction → option bytes;
  preimage_to_xdr : HashIdPreimage → option bytes;
  (** A classic account's ledger key, and the sequence number of the account
      entry a text encodes. *)
  account_key_base64 : bytes → option string;
  account_entry_seq : string → option Z;
  ed25519_public : bytes → bytes;
  ed25519_sign : bytes → bytes → bytes;
  strkey_seed : string → option bytes;
  account_to_strkey : bytes → string;
  contract_to_strkey : bytes → string;
}.

(** What the RPC server answers to the request made after so many others, how
    long (in milliseconds) the request takes and by how much a sleep before
    it overruns. *)
Class RpcServer : Type := {
  post : nat → string → Value → option Value;
  latency : nat → N;
  overrun : nat → N;
}.

(** ** Runs *)

Record Receipt : Type := {
  rc_tx_hash : string;
  rc_wasm_hash : string;
  rc_wasm_name : string;
  rc_version : string;
  rc_registry : string;
  rc_ledger : N;
}.
Record TxState : Type := {
  moment : nat;
  clock : N;
  sent : list string;
  receipts : list (string * Receipt);
}.
Definition T (A : Type) : Type := TxState → option A * TxState.
Global Instance T_ret : MRet T := λ A a st, (Some a, st).
Global Instance T_bind : MBind T := λ A B k c st,
  match c st with (Some a, st) => k a st | (None, st) => (None, st) end.
Definition lift {A} (o : option A) : T A := λ st, (o, st).
Definition stop {A} : T A := lift None.
(** [anyhow::bail] behind a condition. *)
Definition bail_if (b : bool) : T unit := if b then stop else mret tt.

(** A computation that only reads. *)
Definition reading {A} (c : R A) : T A := λ st,
  match c (moment st) with
  | Some (a, t) =>
      (Some a, {| moment := t; clock := clock st; sent := sent st; receipts := receipts st |})
  | None => (None, st)
  end.
Definition now : T N := λ st, (Some (clock st), st).

(** Additions that panic where they would wrap. *)
Definition i64_succ (z : Z) : option Z :=
  if (z <? 9223372036854775807)%Z then Some (z + 1)%Z else None.
Definition add_u32 (a b : N) : option N := if (a + b <=? U32_MAX)%N then Some (a + b)%N else None.
Definition mul_u64 (a b : N) : option N := if (a * b <=? U64_MAX)%N then Some (a * b)%N else None.

Section tx.
Context {H : Host} `{JL : JsonLexer, HC : HexCodec} {L : DeployLibs} {X : TxLibs}.

Definition account (k : SeedKey) : string := account_to_strkey (public k).
Definition from_seed (seed : bytes) : SeedKey := {| signing := seed; public := ed25519_public seed |}.
Definition key_sign (k : SeedKey) (msg : bytes) : bytes := ed25519_sign (signing k) msg.

Definition address_to_string (v : ScVal) : option string :=
  match v with Sc_Address (ScAddress_Contract h) => Some (contract_to_strkey h) | _ => None end.

(** ** Auth entries (auth.rs) *)

Definition auth_payload_scval (verifier : string) (pubkey sig : bytes) (rule_id : N) : option ScVal :=
  ids ← scv_vec [Sc_U32 rule_id];
  s ← external_signer verifier pubkey;
  b ← scv_bytes sig;
  signers ← scv_map [(s, b)];
  k1 ← sym "context_rule_ids"; k2 ← sym "signers";
  scv_map [(k1, ids); (k2, signers)].

Definition signature_payload (passphrase : string) (nonce : Z) (expiration : N)
    (invocation : SorobanAuthorizedInvocation) : option bytes :=
  p ← preimage_to_xdr (SorobanAuthorization (deploy_network_id passphrase) nonce expiration invocation);
  Some (sha256 p).
Definition signature_payload_with_address (passphrase : string) (nonce : Z) (expiration : N)
    (invocation : SorobanAuthorizedInvocation) (address : ScAddress) : option bytes :=
  p ← preimage_to_xdr (SorobanAuthorizationWithAddress (deploy_network_id passphrase) nonce
        expiration invocation address);
  Some (sha256 p).

Definition account_signature_scval (pubkey sig : bytes) : option ScVal :=
  k1 ← sym "public_key"; b1 ← scv_bytes pubkey;
  k2 ← sym "signature"; b2 ← scv_bytes sig;
  m ← scv_map [(k1, b1); (k2, b2)];
  scv_vec [m].

Definition delegated_auth_payload_scval (delegate : string) (rule_id : N) : option ScVal :=
  ids ← scv_vec [Sc_U32 rule_id];
  s ← delegated_signer delegate;
  b ← scv_bytes "";
  signers ← scv_map [(s, b)];
  k1 ← sym "context_rule_ids"; k2 ← sym "signers";
  scv_map [(k1, ids); (k2, signers)].

Definition g_address (strkey : string) : option ScAddress :=
  v ← any_address strkey;
  match v with Sc_Address a => Some a | _ => None end.

Definition sign_delegated_auth_entry (entry : SorobanAuthorizationEntry) (passphrase : string)
    (expiration : N) (key : SeedKey) (rule_id : N) : option SorobanAuthorizationEntry :=
  match credentials entry with
  | CredAddress creds =>
      let delegate_g := account key in
      payload ← signature_payload_with_address passphrase (nonce creds) expiration
                  (root_invocation entry) (sac_address creds);
      let sig := key_sign key payload in
      s ← delegated_auth_payload_scval delegate_g rule_id;
      g ← g_address delegate_g;
      a ← account_signature_scval (public key) sig;
      Some {| credentials := AddressWithDelegates
                {| sac_address := sac_address creds; nonce := nonce creds;
                   signature_expiration_ledger := expiration; signature := s |}
                [{| sds_address := g; sds_signature := a |}];
              root_invocation := root_invocation entry |}
  | _ => None
  end.

Definition sign_auth_entry (entry : SorobanAuthorizationEntry) (passphrase : string)
    (expiration : N) (key : SeedKey) (verifier : string) (rule_id : N)
  : option SorobanAuthorizationEntry :=
  match credentials entry with
  | CredAddress creds =>
      match sac_address creds with
      | ScAddress_Contract account_id =>
          payload ← signature_payload passphrase (nonce creds) expiration (root_invocation entry);
          digest ← perch_auth_digest account_id payload [rule_id];
          let sig := key_sign key digest in
          s ← auth_payload_scval verifier (public key) sig rule_id;
          Some {| credentials := CredAddress
                    {| sac_address := sac_address creds; nonce := nonce creds;
                       signature_expiration_ledger := expiration; signature := s |};
                  root_invocation := root_invocation entry |}
      | _ => None
      end
  | _ => None
  end.

(** ** The RPC client (rpc.rs) *)

Record Simulation : Type := {
  sim_error : option string;
  transaction_data : option string;
  min_resource_fee : N;
  sim_auth : list string;
  result_xdr : option string;
  latest_ledger : N;
  cpu_insns : option N;
  mem_bytes : option N;
}.
Inductive TxStatus : Type :=
| NotFound
| Success (ledger : N) (result_xdr : string)
| Failed (result_xdr : string).

Context {RS : RpcServer}.

(** [Rpc::call] at a moment, and as a step of a run. *)
Definition call_at (t : nat) (method : string) (params : Value) : option Value :=
  resp ← post t method params;
  match json_get "error" resp with
  | Some _ => None
  | None => json_get "result" resp
  end.
Definition call (method : string) (params : Value) : T Value := λ st,
  (call_at (moment st) method params,
   {| moment := S (moment st); clock := (clock st + latency (moment st))%N;
      sent := sent st; receipts := receipts st |}).

Definition account_seq (pubkey : bytes) : T Z :=
  key_b64 ← lift (account_key_base64 pubkey);
  r ← call "getLedgerEntries" (Object [("keys", Array [JString key_b64])]);
  xdr ← lift (es ← json_get "entries" r; l ← json_array es; e ← head l;
              str_at "xdr" e);
  lift (account_entry_seq xdr).

Definition cost (r : Value) (field : string) : option N :=
  c ← json_get "cost" r; s ← str_at field c; parse_uint U64_MAX s.

Definition simulation (r : Value) : option Simulation :=
  let first_result : option Value := a ← json_get "results" r; l ← json_array a; head l in
  ledger ← u64_at "latestLedger" r;
  Some {|
    sim_error := str_at "error" r;
    transaction_data :=
      s ← str_at "transactionData" r;
      if String.eqb s "" then None else Some s;
    min_resource_fee := default 0%N (s ← str_at "minResourceFee" r; parse_uint U64_MAX s);
    sim_auth := match (f ← first_result; a ← json_get "auth" f; json_array a) with
                | Some a => filter_map json_str a
                | None => []
                end;
    result_xdr := f ← first_result; str_at "xdr" f;
    latest_ledger := to_u32 ledger;
    cpu_insns := cost r "cpuInsns";
    mem_bytes := cost r "memBytes" |}.
Definition simulate_params (envelope_b64 : string) : Value :=
  Object [("transaction", JString envelope_b64)].
Definition simulate (envelope_b64 : string) : T Simulation :=
  r ← call "simulateTransaction" (simulate_params envelope_b64); lift (simulation r).

Definition get_latest_ledger : T N :=
  r ← call "getLatestLedger" (Object []);
  lift (to_u32 <$> (u64_at "sequence" r)).

(** The request counts as sent whatever the answer. *)
Definition leaves (envelope_b64 : string) : T unit := λ st,
  (Some tt, {| moment := moment st; clock := clock st; sent := sent st ++ [envelope_b64];
               receipts := receipts st |}).
Definition send (envelope_b64 : string) : T string :=
  leaves envelope_b64;;
  r ← call "sendTransaction" (Object [("transaction", JString envelope_b64)]);
  bail_if (String.eqb (default "" (str_at "status" r)) "ERROR");;
  lift (str_at "hash" r).

Definition tx_status (r : Value) : TxStatus :=
  match str_at "status" r with
  | Some "SUCCESS" =>
      Success (to_u32 (default 0%N (u64_at "ledger" r)))
        (default "" (str_at "resultXdr" r))
  | Some "FAILED" => Failed (default "(no resultXdr)" (str_at "resultXdr" r))
  | _ => NotFound
  end.
Definition get_transaction (hash_hex : string) : T TxStatus :=
  r ← call "getTransaction" (Object [("hash", JString hash_hex)]); mret (tx_status r).

(** ** Transactions (tx.rs) *)

Record InvokeSpec : Type := {
  is_contract : string;
  func : string;
  is_args : list ScVal;
}.
Inductive AuthMode : Type :=
| External (verifier : string)
| Delegated.
Record AuthSpec : Type := {
  as_mode : AuthMode;
  rule_id : N;
  as_account : string;
}.
Record Submitted : Type := {
  tx_hash : string;
  sub_ledger : N;
}.

Definition one_operation (source_pubkey : bytes) (seq : Z) (f : HostFunction) : Transaction := {|
  source_account := source_pubkey; fee := 100; seq_num := seq;
  operations := [InvokeHostFunction f []]; ext := None |}.

Definition build_tx (source_pubkey : bytes) (seq : Z) (spec : InvokeSpec) : option Transaction :=
  c ← scv_contract (is_contract spec);
  f ← bounded 32 (slen (func spec)) (func spec);
  args ← bounded XDR_MAX (N.of_nat (length (is_args spec))) (is_args spec);
  Some (one_operation source_pubkey seq (InvokeContract c f args)).

Definition set_auth (tx : Transaction) (auth : list SorobanAuthorizationEntry) : option Transaction :=
  op ← head (operations tx);
  match op with
  | InvokeHostFunction f _ =>
      a ← bounded XDR_MAX (N.of_nat (length auth)) auth;
      Some {| source_account := source_account tx; fee := fee tx; seq_num := seq_num tx;
              operations := [InvokeHostFunction f a]; ext := ext tx |}
  | OtherOperation _ => None
  end.

Definition envelope_b64 (tx : Transaction) : option string :=
  envelope_to_base64 {| env_tx := tx; signatures := [] |}.

Definition sign_envelope (tx : Transaction) (passphrase : string) (payer : SeedKey)
  : option (string * string) :=
  payload ← tx_payload_to_xdr (deploy_network_id passphrase) tx;
  let hash := sha256 payload in
  sig ← bounded 64 (slen (key_sign payer hash)) (key_sign payer hash);
  b64 ← envelope_to_base64
          {| env_tx := tx; signatures := [{| hint := substring 28 4 (public payer);
                                             ds_signature := sig |}] |};
  Some (b64, hex_of_bytes hash).

(** The entries of a simulation by credential: the address ones, then the
    source-account ones. *)
Fixpoint sort_entries (auth : list string)
  : option (list SorobanAuthorizationEntry * list SorobanAuthorizationEntry) :=
  match auth with
  | [] => Some ([], [])
  | b64 :: auth =>
      entry ← entry_from_base64 b64;
      match credentials entry with
      | CredAddress _ => '(a, s) ← sort_entries auth; Some (entry :: a, s)
      | SourceAccount => '(a, s) ← sort_entries auth; Some (a, entry :: s)
      | CredAddressV2 _ | AddressWithDelegates _ _ => None
      end
  end.

Definition single {A} (l : list A) : option A := match l with [x] => Some x | _ => None end.

(** 15% over the simulated resource fee, rounded up. *)
Definition padded_fee (min_resource_fee : N) : option N :=
  m ← mul_u64 min_resource_fee 115;
  let fee := (100 + (m + 99) / 100)%N in
  if (fee <=? U32_MAX)%N then Some fee else None.

Definition set_resources (tx : Transaction) (fee : N) (data : SorobanTransactionData) : Transaction := {|
  source_account := source_account tx; fee := fee; seq_num := seq_num tx;
  operations := operations tx; ext := Some data |}.

Definition has_address (entry : SorobanAuthorizationEntry) (a : ScAddress) : bool :=
  match credentials entry with
  | CredAddress c => bool_decide (sac_address c = a)
  | _ => true
  end.

Definition sign_entry (entry : SorobanAuthorizationEntry) (passphrase : string) (expiration : N)
    (payer : SeedKey) (auth_spec : AuthSpec) : option SorobanAuthorizationEntry :=
  match as_mode auth_spec with
  | External verifier => sign_auth_entry entry passphrase expiration payer verifier (rule_id auth_spec)
  | Delegated => sign_delegated_auth_entry entry passphrase expiration payer (rule_id auth_spec)
  end.

(** The fee and the footprint of a simulation. *)
Definition resources (tx : Transaction) (sim : Simulation) : T Transaction :=
  bail_if (negb (is_none (sim_error sim)));;
  td ← lift (transaction_data sim);
  data ← lift (data_from_base64 td);
  f ← lift (padded_fee (min_resource_fee sim));
  mret (set_resources tx f data).

(** [run_signed] up to the signed transaction. *)
Definition prepare (passphrase : string) (payer : SeedKey) (auth_spec : AuthSpec)
    (spec : InvokeSpec) : T Transaction :=
  seq ← account_seq (public payer);
  next ← lift (i64_succ seq);
  tx ← lift (build_tx (public payer) next spec);
  e1 ← lift (envelope_b64 tx);
  sim1 ← simulate e1;
  bail_if (negb (is_none (sim_error sim1)));;
  entries ← lift (sort_entries (sim_auth sim1));
  entry ← lift (single entries.1);
  expected_addr ← lift (scv_contract (as_account auth_spec));
  bail_if (negb (has_address entry expected_addr));;
  expiration ← lift (add_u32 (latest_ledger sim1) 120);
  entry ← lift (sign_entry entry passphrase expiration payer auth_spec);
  tx ← lift (set_auth tx (entry :: entries.2));
  e2 ← lift (envelope_b64 tx);
  sim2 ← simulate e2;
  resources tx sim2.

(** [thread::sleep(2s)]. *)
Definition sleep : T unit := λ st,
  (Some tt, {| moment := moment st; clock := (clock st + 2000 + overrun (moment st))%N;
               sent := sent st; receipts := receipts st |}).

(** The polling loop of [submit].  Every turn but the last sleeps two of the
    sixty seconds, so [POLLS] turns are enough. *)
Definition POLLS : nat := 31.
Fixpoint poll (fuel : nat) (deadline : N) (hash : string) : T Submitted :=
  match fuel with
  | O => stop
  | S fuel =>
      status ← get_transaction hash;
      match status with
      | Success ledger _ => mret {| tx_hash := hash; sub_ledger := ledger |}
      | Failed _ => stop
      | NotFound =>
          t ← now;
          bail_if (deadline <=? t)%N;;
          sleep;;
          poll fuel deadline hash
      end
  end.

Definition submit (tx : Transaction) (passphrase : string) (payer : SeedKey) : T Submitted :=
  signed ← lift (sign_envelope tx passphrase payer);
  hash ← send signed.1;
  t ← now;
  poll POLLS (t + 60000)%N hash.

Definition run_signed (passphrase : string) (payer : SeedKey) (auth_spec : AuthSpec)
    (spec : InvokeSpec) (dry_run : bool) : T (option Submitted) :=
  tx ← prepare passphrase payer auth_spec spec;
  if dry_run then mret None
  else s ← submit tx passphrase payer; mret (Some s).

Definition build_upload_tx (source_pubkey : bytes) (seq : Z) (wasm : bytes) : option Transaction :=
  w ← bounded XDR_MAX (slen wasm) wasm;
  Some (one_operation source_pubkey seq (UploadContractWasm w)).

Definition run_upload (passphrase : string) (payer : SeedKey) (wasm : bytes) (dry_run : bool)
  : T (option bytes) :=
  let hash := sha256 wasm in
  seq ← account_seq (public payer);
  next ← lift (i64_succ seq);
  tx ← lift (build_upload_tx (public payer) next wasm);
  e ← lift (envelope_b64 tx);
  sim ← simulate e;
  tx ← resources tx sim;
  if dry_run then mret (Some hash)
  else submit tx passphrase payer;; mret (Some hash).

(** [simulate_read] on the server, which is the network [verify] and the
    readers below read. *)
Definition rpc_read (t : nat) (contract func : string) (args : list ScVal) : option ReadOutcome :=
  tx ← build_tx (zeros 32) 0 {| is_contract := contract; func := func; is_args := args |};
  e ← envelope_b64 tx;
  r ← call_at t "simulateTransaction" (simulate_params e);
  sim ← simulation r;
  match sim_error sim with
  | Some e =>
      match after_first "Error(Contract" e with
      | Some _ => Some (ContractError (contract_error_code e) e)
      | None => None
      end
  | None => xdr ← result_xdr sim; v ← from_xdr_base64 xdr; Some (ReadValue v)
  end.
#[export] Instance rpc_network : Network := rpc_read.

(** ** The commands *)

(** The shell: variables, the files that can be read, the rule files, and the
    paths that can be written. *)
Class Shell : Type := {
  getenv : string → option string;
  read_doc : string → option string;
  read_wasm : string → option bytes;
  read_rules : string → option ComposeOutput;
  can_write : string → bool;
}.
Context {SH : Shell}.

Definition from_env (var : string) : option SeedKey :=
  seed ← getenv var;
  sk ← strkey_seed (trim seed);
  Some (from_seed sk).

(** *** apply.rs *)

Definition is_admin (me name : ScVal) (p : N * list (ScVal * ScVal)) : bool :=
  bool_decide (map_get p.2 "name" = Some name) &&
  bool_decide (map_get p.2 "recovery" = Some (Sc_Bool false)) &&
  match map_get p.2 "context_type" with
  | Some (Sc_Vec (Some ctx)) => bool_decide (ctx !! 1 = Some me)
  | _ => false
  end.

Fixpoint find_signer (pubkey : bytes) (signers : list ScVal) : option string :=
  match signers with
  | [] => None
  | Sc_Vec (Some (Sc_Symbol tag :: verifier :: Sc_Bytes key :: _)) :: signers =>
      if String.eqb tag "External" && String.eqb key pubkey then address_to_string verifier
      else find_signer pubkey signers
  | _ :: signers => find_signer pubkey signers
  end.

Definition onchain_admin (account : string) (pubkey : bytes) : T (N * string * N) :=
  c ← reading (read_configuration account);
  let '(revision, rules) := c in
  me ← lift (scv_address account);
  name ← lift (scv_string "admin");
  admin ← lift (find_first (is_admin me name) rules);
  signers ← lift (map_get admin.2 "signers");
  match signers with
  | Sc_Vec (Some l) =>
      verifier ← lift (find_signer pubkey l);
      mret (admin.1, verifier, revision)
  | _ => stop
  end.

Definition apply_spec (account : string) (doc_json : bytes) (revision : N) : InvokeSpec := {|
  is_contract := account; func := "apply_doc";
  is_args := [Sc_Bytes doc_json; Sc_U32 0; Sc_U64 revision] |}.

Definition apply_run (passphrase account doc_path : string) (dry_run : bool) : T unit :=
  doc_json ← lift (read_doc doc_path);
  doc ← lift (ok (from_json doc_json));
  lift (ok (Validate.validate doc));;
  net ← lift (doc_network doc);
  bail_if (negb (String.eqb net passphrase));;
  key ← lift (from_env "PERCH_ADMIN_KEY");
  admin ← onchain_admin account (public key);
  let '(rule_id, verifier, revision) := admin in
  b ← lift (bounded XDR_MAX (slen doc_json) doc_json);
  run_signed passphrase key
    {| as_mode := External verifier; rule_id := rule_id; as_account := account |}
    (apply_spec account b revision) dry_run;;
  mret tt.

(** *** publish.rs *)

Record PublishArgs : Type := {
  pa_wasm : string;
  wasm_name : string;
  binver : string;
  pa_registry : string;
  author : string;
  pa_verifier : option string;
  pa_rule_id : N;
  pa_dry_run : bool;
  receipt : string;
  inline_max_bytes : N;
}.

Definition publish_auth (args : PublishArgs) : AuthSpec := {|
  as_mode := match pa_verifier args with Some v => External v | None => Delegated end;
  rule_id := pa_rule_id args; as_account := author args |}.

Definition publish_call (args : PublishArgs) (f : string) (content : bytes) : option InvokeSpec :=
  n ← scv_string (wasm_name args); a ← scv_address (author args);
  c ← scv_bytes content; v ← scv_string (binver args);
  Some {| is_contract := pa_registry args; func := f; is_args := [n; a; c; v] |}.

Definition write_receipt (path : string) (r : Receipt) : T unit := λ st,
  if can_write path then
    (Some tt, {| moment := moment st; clock := clock st; sent := sent st;
                 receipts := receipts st ++ [(path, r)] |})
  else (None, st).

Definition publish_receipt (args : PublishArgs) (local_hash : bytes) (s : Submitted) : Receipt := {|
  rc_tx_hash := tx_hash s; rc_wasm_hash := hex_of_bytes local_hash;
  rc_wasm_name := wasm_name args; rc_version := binver args;
  rc_registry := pa_registry args; rc_ledger := sub_ledger s |}.

Definition publish_run (passphrase : string) (args : PublishArgs) : T unit :=
  wasm ← lift (read_wasm (pa_wasm args));
  let local_hash := sha256 wasm in
  n ← lift (scv_string (wasm_name args));
  v ← lift (scv_string (binver args));
  outcome ← reading (read (pa_registry args) "fetch_hash" [n; v]);
  match preflight_decision outcome local_hash with
  | AlreadyPublished => mret tt
  | HashMismatch _ | UnexpectedTrap => stop
  | Proceed =>
      key ← lift (from_env "PERCH_CI_KEY");
      let auth := publish_auth args in
      spec ←
        (if (slen wasm <=? inline_max_bytes args)%N then lift (publish_call args "publish" wasm)
         else
           run_upload passphrase key wasm (pa_dry_run args);;
           lift (publish_call args "publish_hash" local_hash));
      submitted ← run_signed passphrase key auth spec (pa_dry_run args);
      match submitted with
      | None => mret tt
      | Some s =>
          write_receipt (receipt args) (publish_receipt args local_hash s)
      end
  end.

(** *** main.rs *)

Inductive Cmd : Type :=
| Cmd_Compose (doc account interpreter interpreter_wasm_hash : string)
| Cmd_Apply (account doc : string) (dry_run : bool)
| Cmd_Publish (args : PublishArgs)
| Cmd_Verify (account interpreter rules : string).
Record Cli : Type := {
  rpc_url : option string;
  network_passphrase : option string;
  cmd : Cmd;
}.

(** The composed worklist is what [compose] prints. *)
Definition deploy_main (cli : Cli) : T (option ComposeOutput) :=
  match cmd cli with
  | Cmd_Compose doc account interpreter wasm_hash =>
      doc_json ← lift (read_doc doc);
      out ← lift (compose doc_json account interpreter wasm_hash);
      mret (Some out)
  | Cmd_Apply account doc dry_run =>
      lift (rpc_url cli);;
      p ← lift (network_passphrase cli);
      apply_run p account doc dry_run;; mret None
  | Cmd_Publish args =>
      lift (rpc_url cli);;
      p ← lift (network_passphrase cli);
      publish_run p args;; mret None
  | Cmd_Verify account interpreter rules =>
      lift (rpc_url cli);;
      c ← lift (read_rules rules);
      reading (verify_run account interpreter c);; mret None
  end.
End tx.
