(* ===== verification/DeployTxFacts.v ===== *)
(** * What the deployment tool sends

    A run is judged by the envelopes it hands to the network, whatever the
    server answers: [apply_sends_the_review] and [publish_sends_once] say
    which transactions [apply] and [publish] can send, in which order and
    signed over what; [polling_ends] that a submission is decided. *)

From S2P Require Import Prelude Host Doc Canon Text Parse Validate Program Compile RecoveryIface Account Deploy DeployFacts DeployTx.
#[local] Open Scope string_scope.
#[local] Open Scope list_scope.

(** ** Runs *)

(** A step that sends and writes nothing. *)
Definition quiet {A} (c : T A) : Prop := ∀ st,
  sent (c st).2 = sent st ∧ receipts (c st).2 = receipts st.

Lemma T_bind_Some {A B} (c : T A) (k : A → T B) st b st' :
  (c ≫= k) st = (Some b, st') ↔ ∃ a st1, c st = (Some a, st1) ∧ k a st1 = (Some b, st').
Proof.
  unfold mbind, T_bind. destruct (c st) as [[a|] st1]; [|naive_solver].
  split; [by intros; exists a, st1|]. by intros (? & ? & [= <- <-] & ?).
Qed.
Lemma lift_bind {A B} (o : option A) (k : A → T B) st :
  (lift o ≫= k) st = match o with Some a => k a st | None => (None, st) end.
Proof. by destruct o. Qed.
Lemma lift_Some {A} (o : option A) st a st' : lift o st = (Some a, st') ↔ o = Some a ∧ st' = st.
Proof. unfold lift. split; [by intros [= -> ->]|by intros [-> ->]]. Qed.
Lemma bail_if_Some b st u st' : bail_if b st = (Some u, st') ↔ b = false ∧ st' = st.
Proof. destruct b, u; cbn; (split; [by intros [= ->]|by intros [? ->]]). Qed.

Lemma quiet_bind {A B} (c : T A) (k : A → T B) : quiet c → (∀ a, quiet (k a)) → quiet (c ≫= k).
Proof.
  intros Hc Hk st. unfold mbind, T_bind. specialize (Hc st). destruct (c st) as [[a|] st1]; [|done].
  cbn in Hc. destruct (Hk a st1) as [-> ->]. done.
Qed.
Lemma quiet_ret {A} (a : A) : quiet (mret a : T A).
Proof. done. Qed.
Lemma quiet_lift {A} (o : option A) : quiet (lift o).
Proof. done. Qed.
Lemma quiet_bail b : quiet (bail_if b).
Proof. by destruct b. Qed.
Lemma quiet_now : quiet now.
Proof. done. Qed.
Lemma quiet_reading {A} (c : R A) : quiet (reading c).
Proof. intros st. unfold reading. by destruct (c _) as [[a t]|]. Qed.

Create HintDb quiet.
#[export] Hint Resolve quiet_ret quiet_lift quiet_bail quiet_now quiet_reading : quiet.
Ltac quietly := repeat (first [progress eauto with quiet | apply quiet_bind; [|intros]]).

(** Inverts a run that came to its end. *)
Ltac runs H :=
  repeat match type of H with
  | (_ ≫= _) _ = (Some _, _) =>
      let a := fresh "a" in let s := fresh "s" in let E := fresh "E" in
      apply T_bind_Some in H as (a & s & E & H);
      try (apply lift_Some in E as [E ->]); try (apply bail_if_Some in E as [E ->]); cbv beta in H
  end.

Section tx.
Context {H : Host} `{JL : JsonLexer, HC : HexCodec} {L : DeployLibs} {X : TxLibs} {RS : RpcServer}.

Lemma quiet_call m p : quiet (call m p).
Proof. done. Qed.
Lemma quiet_sleep : quiet sleep.
Proof. done. Qed.
#[local] Hint Resolve quiet_call quiet_sleep : quiet.
Lemma quiet_simulate e : quiet (simulate e).
Proof. unfold simulate. quietly. Qed.
Lemma quiet_account_seq k : quiet (account_seq k).
Proof. unfold account_seq. quietly. Qed.
Lemma quiet_resources tx sim : quiet (resources tx sim).
Proof. unfold resources. quietly. Qed.
Lemma quiet_poll n d h : quiet (poll n d h).
Proof.
  induction n as [|n IH]; cbn [poll]; [quietly|]. unfold get_transaction.
  apply quiet_bind; [quietly|]. intros []; unfold stop; quietly.
Qed.
#[local] Hint Resolve quiet_simulate quiet_account_seq quiet_resources quiet_poll : quiet.
Lemma quiet_prepare pp k a s : quiet (prepare pp k a s).
Proof. unfold prepare. quietly. Qed.
#[local] Hint Resolve quiet_prepare : quiet.

(** ** Polling ends *)

(** One turn of the loop. *)
Lemma poll_S f d hash st :
  let params := Object [("hash", JString hash)] in
  let st1 := (call "getTransaction" params st).2 in
  poll (S f) d hash st =
  match call_at (moment st) "getTransaction" params with
  | None => (None, st1)
  | Some r =>
      match tx_status r with
      | Success l _ => (Some {| tx_hash := hash; sub_ledger := l |}, st1)
      | Failed _ => (None, st1)
      | NotFound => if (d <=? clock st1)%N then (None, st1) else poll f d hash (sleep st1).2
      end
  end.
Proof.
  cbv zeta. cbn [poll]. unfold get_transaction, mbind, T_bind, call. cbn [fst snd].
  destruct (call_at _ _ _) as [r|]; [|done]. cbn [mret T_ret]. unfold mret, T_ret.
  destruct (tx_status r); try done. unfold now, bail_if, stop, lift, mret, T_ret. cbn [clock].
  by destruct (d <=? _)%N.
Qed.

Lemma poll_fuel n d hash fuel fuel' st :
  (d <= clock st + 2000 * N.of_nat n)%N → (n < fuel)%nat → (n < fuel')%nat →
  poll fuel d hash st = poll fuel' d hash st.
Proof.
  revert fuel fuel' st. induction n as [|n IH]; intros [|f] [|f'] st Hd Hf Hf'; try lia;
    rewrite !poll_S; cbv zeta; destruct (call_at _ _ _) as [r|]; try done;
    destruct (tx_status r); try done; cbn [call snd clock];
    destruct (N.leb_spec d (clock st + latency (moment st))); try done; [lia|].
  apply IH; [|lia..]. cbn [sleep snd clock]. lia.
Qed.

Lemma poll_moments fuel d hash st :
  (moment (poll fuel d hash st).2 ≤ moment st + fuel)%nat.
Proof.
  revert st. induction fuel as [|f IH]; intros st; [cbn; lia|].
  rewrite poll_S. cbv zeta. destruct (call_at _ _ _) as [r|]; [|cbn; lia].
  destruct (tx_status r); try (cbn; lia). destruct (d <=? _)%N; [cbn; lia|].
  etransitivity; [apply IH|]. cbn. lia.
Qed.

(** C40: A submission is decided: more turns than [POLLS] of the polling loop
    change nothing, because the sixty seconds are over by then, and the
    server is asked at most [POLLS] times. *)
Theorem polling_ends fuel hash st :
  (POLLS ≤ fuel)%nat →
  poll fuel (clock st + 60000) hash st = poll POLLS (clock st + 60000) hash st ∧
  (moment (poll fuel (clock st + 60000) hash st).2 ≤ moment st + POLLS)%nat.
Proof.
  intros Hf. assert (poll fuel (clock st + 60000) hash st = poll POLLS (clock st + 60000) hash st) as ->.
  { unfold POLLS in *. apply (poll_fuel 30); lia. }
  split; [done|]. apply poll_moments.
Qed.

(** ** The transaction that is signed *)

(** The smart account's entry: the account's own address, and a signature
    over the digest [__check_auth] computes for the rule (or, for a delegate,
    over the payload that names the account). *)
Definition signs (pp : string) (key : SeedKey) (a : AuthSpec) (entry : SorobanAuthorizationEntry)
  : Prop :=
  match as_mode a with
  | External verifier => ∃ c id payload digest,
      credentials entry = CredAddress c ∧
      scv_contract (as_account a) = Some (ScAddress_Contract id) ∧
      sac_address c = ScAddress_Contract id ∧
      signature_payload pp (nonce c) (signature_expiration_ledger c) (root_invocation entry) =
        Some payload ∧
      perch_auth_digest id payload [rule_id a] = Some digest ∧
      (∀ e kind, address_payload (current_contract_address e) = Some (kind, id) →
         oz_auth_digest (bind_payload e payload) [rule_id a] = Some digest) ∧
      auth_payload_scval verifier (public key) (key_sign key digest) (rule_id a) = Some (signature c)
  | Delegated => ∃ c d payload,
      credentials entry = AddressWithDelegates c [d] ∧
      scv_contract (as_account a) = Some (sac_address c) ∧
      signature_payload_with_address pp (nonce c) (signature_expiration_ledger c)
        (root_invocation entry) (sac_address c) = Some payload ∧
      delegated_auth_payload_scval (account key) (rule_id a) = Some (signature c) ∧
      g_address (account key) = Some (sds_address d) ∧
      account_signature_scval (public key) (key_sign key payload) = Some (sds_signature d)
  end.

(** One call, paid by the key, authorized by the account for that rule and
    otherwise only by the payer. *)
Definition invokes (pp : string) (key : SeedKey) (a : AuthSpec) (spec : InvokeSpec)
    (tx : Transaction) : Prop :=
  ∃ contract entry sources,
    scv_contract (is_contract spec) = Some contract ∧ source_account tx = public key ∧
    operations tx =
      [InvokeHostFunction (InvokeContract contract (func spec) (is_args spec)) (entry :: sources)] ∧
    signs pp key a entry ∧ Forall (λ s, credentials s = SourceAccount) sources.

Lemma bounded_Some {A} max len (a b : A) : bounded max len a = Some b → b = a.
Proof. unfold bounded. destruct (len <=? max)%N; congruence. Qed.

Lemma sort_entries_Some auth a s :
  sort_entries auth = Some (a, s) →
  Forall (λ e, ∃ c, credentials e = CredAddress c) a ∧ Forall (λ e, credentials e = SourceAccount) s.
Proof.
  revert a s. induction auth as [|b auth IH]; intros a s; cbn [sort_entries]; [by intros [= <- <-]|].
  destruct (entry_from_base64 b) as [e|]; [|done]. cbn.
  destruct (credentials e) eqn:Hc; try done;
    destruct (sort_entries auth) as [[a' s']|]; try done; intros [= <- <-];
    destruct (IH _ _ eq_refl); eauto.
Qed.

Lemma single_Some {A} (l : list A) x : single l = Some x → l = [x].
Proof. destruct l as [|y [|z l]]; try done. by intros [= ->]. Qed.

Lemma sign_entry_Some pp exp key a addr e e' :
  (∃ c, credentials e = CredAddress c) → has_address e addr = true →
  scv_contract (as_account a) = Some addr →
  sign_entry e pp exp key a = Some e' → signs pp key a e'.
Proof.
  intros [c Hc] Ha Hac. unfold has_address in Ha. rewrite Hc, bool_decide_eq_true in Ha. subst addr.
  unfold sign_entry, signs, sign_auth_entry, sign_delegated_auth_entry. rewrite Hc.
  destruct (as_mode a) as [v|].
  - destruct (sac_address c) as [k|id] eqn:Hid; [done|].
    destruct (signature_payload _ _ _ _) as [p|] eqn:Hp; [|done]. cbn.
    destruct (perch_auth_digest _ _ _) as [d|] eqn:Hd; [|done]. cbn.
    destruct (auth_payload_scval _ _ _ _) as [s|] eqn:Hs; [|done]. cbn. intros [= <-].
    eexists _, id, p, d. cbn. do 5 (split; [done|]). split; [|done].
    intros env kind Hk. by rewrite <- (signed_digest_is_checked env p [rule_id a] kind id Hk).
  - cbv zeta. destruct (signature_payload_with_address _ _ _ _ _) as [p|] eqn:Hp; [|done]. cbn.
    destruct (delegated_auth_payload_scval _ _) as [s|] eqn:Hs; [|done]. cbn.
    destruct (g_address _) as [g|] eqn:Hg; [|done]. cbn.
    destruct (account_signature_scval _ _) as [q|] eqn:Hq; [|done]. cbn. intros [= <-].
    eexists _, _, p. cbn. split_and!; try reflexivity; done.
Qed.

Lemma resources_Some tx sim st tx' st' :
  resources tx sim st = (Some tx', st') →
  source_account tx' = source_account tx ∧ operations tx' = operations tx.
Proof. unfold resources. intros E. runs E. by injection E as <- _. Qed.

Lemma build_tx_Some k seq spec tx :
  build_tx k seq spec = Some tx → ∃ c, scv_contract (is_contract spec) = Some c ∧
    source_account tx = k ∧ operations tx = [InvokeHostFunction (InvokeContract c (func spec) (is_args spec)) []].
Proof.
  unfold build_tx. destruct (scv_contract _) as [c|]; [|done]. cbn.
  destruct (bounded 32 _ _) as [f|] eqn:Hf; [|done]. cbn.
  destruct (bounded XDR_MAX _ _) as [l|] eqn:Hl; [|done]. cbn.
  apply bounded_Some in Hf, Hl. subst. intros [= <-]. by exists c.
Qed.

Lemma set_auth_Some tx f a0 auth tx' :
  operations tx = [InvokeHostFunction f a0] → set_auth tx auth = Some tx' →
  source_account tx' = source_account tx ∧ operations tx' = [InvokeHostFunction f auth].
Proof.
  unfold set_auth. intros ->. cbn. destruct (bounded _ _ _) as [l|] eqn:Hl; [|done].
  apply bounded_Some in Hl. subst l. by intros [= <-].
Qed.

Lemma prepare_Some pp key a spec st tx st' :
  prepare pp key a spec st = (Some tx, st') → invokes pp key a spec tx.
Proof.
  unfold prepare. intros E. runs E.
  match goal with Hb : build_tx _ _ _ = Some _ |- _ => apply build_tx_Some in Hb as (c & Hc & Hsrc & Hop) end.
  match goal with Hs : sort_entries _ = Some ?p |- _ => destruct p as [al sl]; apply sort_entries_Some in Hs as [Hal Hsl] end.
  cbn [fst snd] in *.
  match goal with Hs : single _ = Some ?x |- _ => apply single_Some in Hs; subst al end.
  match goal with Hs : set_auth _ _ = Some _ |- _ => eapply set_auth_Some in Hs as [Hsrc' Hop']; [|exact Hop] end.
  apply resources_Some in E as [Hsrc'' Hop''].
  eexists c, _, sl. split; [done|]. split; [congruence|]. split; [rewrite Hop''; exact Hop'|].
  split; [|done]. eapply sign_entry_Some; try eassumption.
  - by apply Forall_cons in Hal as [? _].
  - match goal with Hb : negb _ = false |- _ => by apply negb_false_iff in Hb end.
Qed.

(** ** What is sent *)

(** An envelope of a transaction, signed by its payer. *)
Definition sealed (pp : string) (key : SeedKey) (tx : Transaction) (e : string) : Prop :=
  ∃ h, sign_envelope tx pp key = Some (e, h).

(** What a step adds to the envelopes sent. *)
Definition sends {A} (c : T A) (st : TxState) (l : list string) : Prop :=
  sent (c st).2 = sent st ++ l ∧ receipts (c st).2 = receipts st.

Lemma quiet_sends {A} (c : T A) st : quiet c → sends c st [].
Proof. intros Hq. unfold sends. rewrite app_nil_r. apply Hq. Qed.

(** A step after another that came to its end. *)
Lemma sends_bind {A B} (c : T A) (k : A → T B) st a st1 l l' :
  c st = (Some a, st1) → sends c st l → sends (k a) st1 l' → sends (c ≫= k) st (l ++ l').
Proof.
  intros Hc [Hs Hr] [Hs' Hr']. unfold sends, mbind, T_bind. rewrite Hc in Hs, Hr |- *.
  cbn [snd] in Hs, Hr. by rewrite Hs', Hr', Hs, Hr, app_assoc.
Qed.
Lemma sends_stopped {A B} (c : T A) (k : A → T B) st st1 l :
  c st = (None, st1) → sends c st l → sends (c ≫= k) st l ∧ ((c ≫= k) st).1 = None.
Proof. intros Hc. unfold sends, mbind, T_bind. rewrite Hc. done. Qed.

Lemma submit_sends tx pp key st :
  (sends (submit tx pp key) st [] ∧ (submit tx pp key st).1 = None) ∨
  ∃ e, sealed pp key tx e ∧ sends (submit tx pp key) st [e].
Proof.
  unfold submit. unfold sends at 1. rewrite lift_bind.
  destruct (sign_envelope tx pp key) as [[e h]|] eqn:He; cbn [fst]; [right|left].
  - exists e. split; [by exists h|]. unfold sends. rewrite lift_bind. cbn [fst].
    unfold send.
    assert (∀ (k : unit → T string) (j : string → T Submitted), (∀ u, quiet (k u)) → (∀ a, quiet (j a)) →
      sends ((leaves e ≫= k) ≫= j) st [e]) as Hq.
    { intros k j Hk Hj. unfold mbind, T_bind, leaves, sends.
      match goal with |- context [k tt ?s] => pose proof (Hk tt s) as Hks;
        destruct (k tt s) as [[x|] s1]; cbn in Hks; destruct Hks as [Hs1 Hr1] end; [|done].
      destruct (Hj x s1) as [-> ->]. done. }
    apply Hq; intros; quietly.
  - by rewrite app_nil_r.
Qed.

Lemma run_signed_sends pp key a spec dry st :
  let c := run_signed pp key a spec dry in
  (sends c st [] ∧ ((c st).1 = None ∨ dry = true ∧ (c st).1 = Some None)) ∨
  dry = false ∧ ∃ tx e, invokes pp key a spec tx ∧ sealed pp key tx e ∧ sends c st [e].
Proof.
  cbv zeta. unfold run_signed.
  pose proof (quiet_sends (prepare pp key a spec) st (quiet_prepare _ _ _ _)) as Hp.
  destruct (prepare pp key a spec st) as [[tx|] st1] eqn:E.
  2:{ left. destruct (sends_stopped _ (λ tx, if dry then mret None else
        (submit tx pp key ≫= λ s, mret (Some s))) _ _ _ E Hp). auto. }
  destruct dry.
  - left. split; [exact (sends_bind _ (λ _, mret None) _ _ _ [] [] E Hp (quiet_sends _ _ (quiet_ret _)))|].
    right. split; [done|]. unfold mbind, T_bind. by rewrite E.
  - assert (∀ l, sends (submit tx pp key) st1 l → sends (submit tx pp key ≫= λ s, mret (Some s)) st1 l) as Hs.
    { intros l Hl. destruct (submit tx pp key st1) as [[s|] st2] eqn:Es.
      - rewrite <- (app_nil_r l). by eapply sends_bind; [exact Es|done|apply quiet_sends, quiet_ret].
      - by eapply sends_stopped. }
    destruct (submit_sends tx pp key st1) as [[Hn Hnone]|(e & He & Hse)]; [left|right].
    + split; [exact (sends_bind _ (λ tx, submit tx pp key ≫= λ s, mret (Some s)) _ _ _ [] [] E Hp (Hs _ Hn))|].
      left. unfold mbind, T_bind. rewrite E. destruct (submit tx pp key st1) as [[s|] st2]; done.
    + split; [done|]. exists tx, e. split; [by eapply prepare_Some|]. split; [done|].
      exact (sends_bind _ (λ tx, submit tx pp key ≫= λ s, mret (Some s)) _ _ _ [] [e] E Hp (Hs _ Hse)).
Qed.

Context {SH : Shell}.

(** ** apply *)

(** A self-administration rule named [admin] that recovery did not install. *)
Definition admin_rule (acct : string) (rule : list (ScVal * ScVal)) : Prop :=
  map_get rule "name" = Some (Sc_String "admin") ∧
  map_get rule "recovery" = Some (Sc_Bool false) ∧
  ∃ ctx, map_get rule "context_type" = Some (Sc_Vec (Some ctx)) ∧ ctx !! 1 = scv_address acct.
(** The rule lists the key behind the verifier. *)
Definition lists_key (rule : list (ScVal * ScVal)) (verifier : string) (key : bytes) : Prop :=
  ∃ signers v rest, map_get rule "signers" = Some (Sc_Vec (Some signers)) ∧
    Sc_Vec (Some (Sc_Symbol "External" :: v :: Sc_Bytes key :: rest)) ∈ signers ∧
    address_to_string v = Some verifier.

Lemma find_signer_Some pk l v :
  find_signer pk l = Some v → ∃ ver rest,
    Sc_Vec (Some (Sc_Symbol "External" :: ver :: Sc_Bytes pk :: rest)) ∈ l ∧ address_to_string ver = Some v.
Proof.
  induction l as [|s l IH]; [done|]. intros Hf.
  assert (find_signer pk l = Some v → ∃ ver rest,
    Sc_Vec (Some (Sc_Symbol "External" :: ver :: Sc_Bytes pk :: rest)) ∈ s :: l ∧
    address_to_string ver = Some v) as Hrec.
  { intros (ver & rest & ? & ?)%IH. exists ver, rest. split; [by right|done]. }
  cbn [find_signer] in Hf. repeat (case_match; try (by apply Hrec)); subst.
  match goal with Hb : _ && _ = true |- _ => apply andb_true_iff in Hb as [Ht%String.eqb_eq Hk%String.eqb_eq] end.
  subst. eexists _, _. split; [by left|done].
Qed.

Lemma onchain_admin_Some acct pk st id v rev st1 :
  onchain_admin acct pk st = (Some (id, v, rev), st1) →
  ∃ rules t rule, read_configuration acct (moment st) = Some ((rev, rules), t) ∧
    (id, rule) ∈ rules ∧ admin_rule acct rule ∧ lists_key rule v pk.
Proof.
  unfold onchain_admin. intros E. apply T_bind_Some in E as ([rev' rules] & s & Hr & E).
  unfold reading in Hr. destruct (read_configuration acct (moment st)) as [[c t]|]; [|done].
  injection Hr as -> <-. runs E.
  match goal with Hf : find_first _ _ = Some ?p |- _ => destruct p as [id' rule]; apply find_first_Some in Hf as [Hin Hadm] end.
  match type of E with (match ?sg with _ => _ end) _ = _ => destruct sg as [| | | | | | | |[sl|]| |] end; try done.
  runs E. injection E as <- <- <- _. exists rules, t, rule. split; [done|]. split; [done|].
  cbn [fst snd] in *. unfold is_admin in Hadm. cbn [fst snd] in Hadm.
  rewrite !andb_true_iff, !bool_decide_eq_true in Hadm. destruct Hadm as [[Hn Hrec] Hctx].
  split.
  - split; [|split; [done|]].
    + match goal with Hs : scv_string _ = Some _ |- _ => apply bounded_Some in Hs; subst end. done.
    + repeat case_match; try done. rewrite bool_decide_eq_true in Hctx. eexists. split; [done|congruence].
  - match goal with Hs : find_signer _ _ = Some _ |- _ => apply find_signer_Some in Hs as (ver & rest & ? & ?) end.
    by exists sl, ver, rest.
Qed.

Lemma quiet_onchain_admin acct pk : quiet (onchain_admin acct pk).
Proof.
  unfold onchain_admin. apply quiet_bind; [quietly|]. intros [rev rules]. quietly.
  repeat case_match; unfold stop; quietly.
Qed.

(** A run that sent one envelope for a call the account authorized. *)
Definition sent_call {A} (c : T A) (st : TxState) (pp : string) (key : SeedKey) (a : AuthSpec)
    (spec : InvokeSpec) : Prop :=
  ∃ tx e, invokes pp key a spec tx ∧ sealed pp key tx e ∧ sends c st [e].

(** Steps before the one that sends. *)
Lemma sends_after {A B} (c : T A) (k : A → T B) st a st1 l :
  quiet c → c st = (Some a, st1) → sends (k a) st1 l → sends (c ≫= k) st l.
Proof. intros Hq Hc Hk. exact (sends_bind _ _ _ _ _ [] l Hc (quiet_sends _ _ Hq) Hk). Qed.

Lemma bind_result {A B} (c : T A) (k : A → T B) st a st1 :
  c st = (Some a, st1) → (c ≫= k) st = k a st1.
Proof. unfold mbind, T_bind. by intros ->. Qed.

(** The last steps of [apply], from the read of the administration rule. *)
Lemma apply_tail pp acct doc_json key dry st :
  let c := admin ← onchain_admin acct (public key);
           let '(rid, v, rev) := admin in
           b ← lift (bounded XDR_MAX (slen doc_json) doc_json);
           run_signed pp key {| as_mode := External v; rule_id := rid; as_account := acct |}
             (apply_spec acct b rev) dry;; mret tt in
  (sends c st [] ∧ ((c st).1 = None ∨ dry = true)) ∨
  dry = false ∧ ∃ rules t rid rule v rev,
    read_configuration acct (moment st) = Some ((rev, rules), t) ∧ (rid, rule) ∈ rules ∧
    admin_rule acct rule ∧ lists_key rule v (public key) ∧
    sent_call c st pp key {| as_mode := External v; rule_id := rid; as_account := acct |}
      (apply_spec acct doc_json rev).
Proof.
  cbv zeta. pose proof (quiet_onchain_admin acct (public key)) as Hq.
  destruct (onchain_admin acct (public key) st) as [[[[rid v] rev]|] st1] eqn:E.
  2:{ left. split; [|left]; eapply sends_stopped; try exact E; by apply quiet_sends. }
  apply onchain_admin_Some in E as Hadm. destruct Hadm as (rules & t & rule & Hr & Hin & Ha & Hl).
  rewrite (bind_result _ _ _ _ _ E).
  assert (∀ l, sends (b ← lift (bounded XDR_MAX (slen doc_json) doc_json);
     run_signed pp key {| as_mode := External v; rule_id := rid; as_account := acct |}
       (apply_spec acct b rev) dry;; mret tt) st1 l → sends (admin ← onchain_admin acct (public key);
           let '(rid, v, rev) := admin in
           b ← lift (bounded XDR_MAX (slen doc_json) doc_json);
           run_signed pp key {| as_mode := External v; rule_id := rid; as_account := acct |}
             (apply_spec acct b rev) dry;; mret tt) st l) as Hup.
  { intros l Hl'. eapply sends_after; [done|exact E|done]. }
  destruct (bounded XDR_MAX (slen doc_json) doc_json) as [b|] eqn:Hb.
  2:{ left. split; [apply Hup; by apply quiet_sends|by left]. }
  apply bounded_Some in Hb as Hb'. subst b.
  pose proof (run_signed_sends pp key {| as_mode := External v; rule_id := rid; as_account := acct |}
    (apply_spec acct doc_json rev) dry st1) as Hrs. cbv zeta in Hrs.
  set (c := run_signed _ _ _ _ _) in *.
  assert (∀ l, sends c st1 l → sends (c;; (mret tt : T unit)) st1 l) as Hret.
  { intros l Hc. destruct (c st1) as [[x|] st2] eqn:Ec.
    - rewrite <- (app_nil_r l). by eapply sends_bind; [exact Ec|done|apply quiet_sends, quiet_ret].
    - by eapply sends_stopped. }
  destruct Hrs as [[Hs Hn]|[-> (tx & e & Hi & He & Hs)]]; [left|right].
  - split; [apply Hup, Hret, Hs|]. destruct Hn as [Hn|[Hn _]]; [left|by right].
    change (((c;; (mret tt : T unit)) st1).1 = None). unfold mbind, T_bind.
    by destruct (c st1) as [[x|] st2].
  - split; [done|]. exists rules, t, rid, rule, v, rev. do 4 (split; [done|]).
    exists tx, e. split; [done|]. split; [done|]. by apply Hup, Hret.
Qed.

(** C38: [apply] sends at most one transaction, and none on a dry run.  What it
    sends is the reviewed file: the document parses, is valid and names this
    network; the call is the account's [apply_doc] with the file's bytes and
    the revision the account's configuration was read at; it is signed for
    the rule that, in that same configuration, is the self-administration
    rule and lists the key.  Whatever the server answers, nothing else
    leaves. *)
Theorem apply_sends_the_review pp acct path dry st :
  let c := apply_run pp acct path dry in
  (sends c st [] ∧ ((c st).1 = None ∨ dry = true)) ∨
  dry = false ∧ ∃ doc_json doc key rules t rid rule v rev,
    read_doc path = Some doc_json ∧ from_json doc_json = Ok doc ∧
    Validate.validate doc = Ok tt ∧ doc_network doc = Some pp ∧
    from_env "PERCH_ADMIN_KEY" = Some key ∧
    read_configuration acct (moment st) = Some ((rev, rules), t) ∧ (rid, rule) ∈ rules ∧
    admin_rule acct rule ∧ lists_key rule v (public key) ∧
    sent_call c st pp key {| as_mode := External v; rule_id := rid; as_account := acct |}
      (apply_spec acct doc_json rev).
Proof.
  cbv zeta.
  assert (∀ l, sends (apply_run pp acct path dry) st l ↔
    sent (apply_run pp acct path dry st).2 = sent st ++ l ∧
    receipts (apply_run pp acct path dry st).2 = receipts st) as Hsends by done.
  unfold sent_call. setoid_rewrite Hsends. clear Hsends.
  unfold apply_run. rewrite lift_bind.
  destruct (read_doc path) as [dj|] eqn:Hf; [|left; rewrite app_nil_r; auto]. rewrite lift_bind.
  destruct (from_json dj) as [doc|?|] eqn:Hj; [|left; rewrite app_nil_r; auto..]. cbn [ok]. rewrite lift_bind.
  destruct (Validate.validate doc) as [[]|?|] eqn:Hv; [|left; rewrite app_nil_r; auto..]. cbn [ok]. rewrite lift_bind.
  destruct (doc_network doc) as [net|] eqn:Hn; [|left; rewrite app_nil_r; auto].
  destruct (String.eqb_spec net pp) as [->|Hne]; [|left; rewrite app_nil_r; auto].
  cbn [negb bail_if]. rewrite (bind_result (mret tt) _ st tt st eq_refl), lift_bind.
  destruct (from_env "PERCH_ADMIN_KEY") as [key|] eqn:Hk; [|left; rewrite app_nil_r; auto].
  destruct (apply_tail pp acct dj key dry st) as [Hl|(-> & rules & t & rid & rule & v & rev & Hrest)];
    [by left|right].
  split; [done|]. exists dj, doc, key, rules, t, rid, rule, v, rev.
  split_and!; try done; apply Hrest.
Qed.

(** ** publish *)

Definition uploads (key : SeedKey) (wasm : bytes) (tx : Transaction) : Prop :=
  source_account tx = public key ∧
  operations tx = [InvokeHostFunction (UploadContractWasm wasm) []].
(** The network reported the transaction's success. *)
Definition landed (pp : string) (key : SeedKey) (tx : Transaction) : Prop :=
  ∃ st s st', submit tx pp key st = (Some s, st').

(** [run_upload] up to the transaction. *)
Definition prepare_upload (key : SeedKey) (wasm : bytes) : T Transaction :=
  seq ← account_seq (public key);
  next ← lift (i64_succ seq);
  tx ← lift (build_upload_tx (public key) next wasm);
  e ← lift (envelope_b64 tx);
  sim ← simulate e;
  resources tx sim.

Lemma T_bind_assoc {A B C} (c : T A) (k : A → T B) (j : B → T C) st :
  ((c ≫= k) ≫= j) st = (c ≫= (λ a, k a ≫= j)) st.
Proof. unfold mbind, T_bind. by destruct (c st) as [[a|] s]. Qed.

Lemma run_upload_prepared pp key wasm dry st :
  run_upload pp key wasm dry st =
  (tx ← prepare_upload key wasm;
   if dry then mret (Some (sha256 wasm)) else submit tx pp key;; mret (Some (sha256 wasm))) st.
Proof.
  unfold run_upload, prepare_upload. cbv zeta. unfold mbind, T_bind.
  destruct (account_seq _ st) as [[seq|] s1]; [|done].
  destruct (lift _ s1) as [[next|] s2]; [|done]. destruct (lift _ s2) as [[tx|] s3]; [|done].
  destruct (lift _ s3) as [[e|] s4]; [|done]. by destruct (simulate e s4) as [[sim|] s5].
Qed.

Lemma prepare_upload_Some key wasm st tx st' :
  prepare_upload key wasm st = (Some tx, st') → uploads key wasm tx.
Proof.
  unfold prepare_upload. intros E. runs E. apply resources_Some in E as [Hs Ho].
  match goal with Hb : build_upload_tx _ _ _ = Some ?x |- _ =>
    unfold build_upload_tx in Hb; destruct (bounded _ _ _) as [w|] eqn:Hw; [|done];
    apply bounded_Some in Hw; subst w; injection Hb as <- end.
  by split.
Qed.

Lemma quiet_prepare_upload key wasm : quiet (prepare_upload key wasm).
Proof. unfold prepare_upload. quietly. Qed.

(** A step followed by an answer sends what the step sends. *)
Lemma sends_ret {A B} (c : T A) (k : A → T B) st l :
  (∀ a, quiet (k a)) → sends c st l → sends (c ≫= k) st l.
Proof.
  intros Hk Hc. destruct (c st) as [[x|] st2] eqn:Ec.
  - rewrite <- (app_nil_r l). by eapply sends_bind; [exact Ec|done|apply quiet_sends, Hk].
  - by eapply sends_stopped.
Qed.

Lemma run_upload_sends pp key wasm dry st :
  let c := run_upload pp key wasm dry in
  (sends c st [] ∧ ((c st).1 = None ∨ dry = true)) ∨
  dry = false ∧ ∃ tx e, uploads key wasm tx ∧ sealed pp key tx e ∧ sends c st [e] ∧
    ((c st).1 = None ∨ landed pp key tx).
Proof.
  cbv zeta. unfold sends. rewrite run_upload_prepared.
  pose proof (quiet_prepare_upload key wasm) as Hq.
  destruct (prepare_upload key wasm st) as [[tx|] st1] eqn:E.
  2:{ left. destruct (sends_stopped (prepare_upload key wasm) (λ tx,
        if dry then mret (Some (sha256 wasm)) else submit tx pp key;; mret (Some (sha256 wasm)))
        _ _ _ E (quiet_sends _ _ Hq)). auto. }
  destruct dry.
  { left. split; [|by right].
    apply (sends_after _ (λ _, mret (Some (sha256 wasm))) _ _ _ _ Hq E (quiet_sends _ _ (quiet_ret _))). }
  set (k := λ tx, submit tx pp key;; (mret (Some (sha256 wasm)) : T (option bytes))).
  change ((sends (prepare_upload key wasm ≫= k) st [] ∧
      (((prepare_upload key wasm ≫= k) st).1 = None ∨ false = true)) ∨
    false = false ∧ ∃ tx e, uploads key wasm tx ∧ sealed pp key tx e ∧
      sends (prepare_upload key wasm ≫= k) st [e] ∧
      (((prepare_upload key wasm ≫= k) st).1 = None ∨ landed pp key tx)).
  assert (∀ l, sends (submit tx pp key) st1 l → sends (prepare_upload key wasm ≫= k) st l) as Hup.
  { intros l Hl. eapply sends_after; [done|exact E|]. by apply sends_ret. }
  rewrite (bind_result _ k _ _ _ E).
  destruct (submit_sends tx pp key st1) as [[Hs Hn]|(e & He & Hs)].
  - left. split; [by apply Hup|]. left. subst k. cbv beta. unfold mbind, T_bind.
    by destruct (submit tx pp key st1) as [[s|] st2].
  - right. split; [done|]. exists tx, e. split; [by eapply prepare_upload_Some|].
    split; [done|]. split; [by apply Hup|]. subst k. cbv beta. unfold mbind, T_bind.
    destruct (submit tx pp key st1) as [[s|] st2] eqn:Es; [|by left].
    right. by exists st1, s, st2.
Qed.

(** The last step of [publish]: the call and its receipt. *)
Definition publish_end (pp : string) (args : PublishArgs) (key : SeedKey) (hash : bytes)
    (spec : InvokeSpec) : T unit :=
  submitted ← run_signed pp key (publish_auth args) spec (pa_dry_run args);
  match submitted with
  | None => mret tt
  | Some s => write_receipt (receipt args) (publish_receipt args hash s)
  end.

(** What a step that publishes adds to the state. *)
Definition published {A} (c : T A) (st : TxState) (args : PublishArgs) (hash : bytes)
    (l : list string) : Prop :=
  sent (c st).2 = sent st ++ l ∧
  (receipts (c st).2 = receipts st ∨
   ∃ s, receipts (c st).2 = receipts st ++ [(receipt args, publish_receipt args hash s)]).

Lemma published_bind {A B} (c : T A) (k : A → T B) st a st1 args hash l l' :
  c st = (Some a, st1) → sends c st l → published (k a) st1 args hash l' →
  published (c ≫= k) st args hash (l ++ l').
Proof.
  intros Hc [Hs Hr] [Hs' Hr']. unfold published. rewrite (bind_result _ _ _ _ _ Hc).
  rewrite Hc in Hs, Hr. cbn [snd] in Hs, Hr. by rewrite Hs', <- Hr, Hs, app_assoc.
Qed.

Lemma publish_end_spec pp args key hash spec st :
  let c := publish_end pp args key hash spec in
  (sends c st [] ∧ ((c st).1 = None ∨ pa_dry_run args = true)) ∨
  pa_dry_run args = false ∧ ∃ tx e, invokes pp key (publish_auth args) spec tx ∧
    sealed pp key tx e ∧ published c st args hash [e].
Proof.
  cbv zeta. unfold publish_end.
  pose proof (run_signed_sends pp key (publish_auth args) spec (pa_dry_run args) st) as Hrs.
  cbv zeta in Hrs. set (c := run_signed _ _ _ _ _) in *.
  destruct Hrs as [[Hs Hn]|[Hd (tx & e & Hi & He & Hs)]].
  - left. destruct (c st) as [o st1] eqn:Ec. cbn [fst] in Hn.
    assert (o = None ∨ pa_dry_run args = true ∧ o = Some None) as [->|[Hd ->]] by exact Hn.
    + destruct (sends_stopped c (λ submitted, match submitted with
        | None => mret tt | Some s => write_receipt (receipt args) (publish_receipt args hash s) end)
        st st1 [] Ec Hs). auto.
    + split; [|auto]. apply (sends_bind c _ _ _ _ [] [] Ec Hs). by apply quiet_sends, quiet_ret.
  - right. split; [done|]. exists tx, e. split; [done|]. split; [done|].
    destruct (c st) as [[o|] st1] eqn:Ec.
    + apply (published_bind c _ _ _ _ _ _ [e] [] Ec Hs). unfold published. rewrite app_nil_r.
      destruct o as [s|]; [|by split; [|left]]. unfold write_receipt.
      destruct (can_write (receipt args)); cbn [snd sent receipts]; [|by split; [|left]].
      split; [done|]. right. by exists s.
    + destruct (sends_stopped c (λ submitted, match submitted with
        | None => mret tt | Some s => write_receipt (receipt args) (publish_receipt args hash s) end)
        st st1 [e] Ec Hs) as [[H1 H2] _]. split; [exact H1|by left].
Qed.

(** The transactions a publication may send: a small wasm rides in the call, a
    large one is uploaded, and only once that landed is its hash recorded. *)
Definition publication {A} (c : T A) (st : TxState) (pp : string) (args : PublishArgs)
    (key : SeedKey) (wasm : bytes) : Prop :=
  let call f content l := ∃ spec tx e, publish_call args f content = Some spec ∧
    invokes pp key (publish_auth args) spec tx ∧ sealed pp key tx e ∧
    published c st args (sha256 wasm) (l ++ [e]) in
  if (slen wasm <=? inline_max_bytes args)%N then call "publish" wasm []
  else ∃ up eu, uploads key wasm up ∧ sealed pp key up eu ∧
    (sends c st [eu] ∨ landed pp key up ∧ call "publish_hash" (sha256 wasm) [eu]).

(** Recording the hash of a large wasm, after its upload. *)
Definition publish_large (pp : string) (args : PublishArgs) (key : SeedKey) (wasm : bytes) : T unit :=
  run_upload pp key wasm (pa_dry_run args);;
  spec ← lift (publish_call args "publish_hash" (sha256 wasm));
  publish_end pp args key (sha256 wasm) spec.

(** What follows the upload. *)
Lemma publish_record_spec pp args key wasm st :
  let c := spec ← lift (publish_call args "publish_hash" (sha256 wasm));
           publish_end pp args key (sha256 wasm) spec in
  (sends c st [] ∧ ((c st).1 = None ∨ pa_dry_run args = true)) ∨
  pa_dry_run args = false ∧ ∃ spec tx e, publish_call args "publish_hash" (sha256 wasm) = Some spec ∧
    invokes pp key (publish_auth args) spec tx ∧ sealed pp key tx e ∧
    published c st args (sha256 wasm) [e].
Proof.
  cbv zeta. destruct (publish_call args "publish_hash" (sha256 wasm)) as [spec|] eqn:Hp.
  2:{ left. split; [by apply quiet_sends|by left]. }
  destruct (publish_end_spec pp args key (sha256 wasm) spec st) as [Hl|(Hd & tx & e & ? & ? & ?)];
    [by left|right]. split; [done|]. by exists spec, tx, e.
Qed.

Lemma publish_large_spec pp args key wasm st :
  let c := publish_large pp args key wasm in
  (sends c st [] ∧ ((c st).1 = None ∨ pa_dry_run args = true)) ∨
  pa_dry_run args = false ∧ ∃ up eu, uploads key wasm up ∧ sealed pp key up eu ∧
    (sends c st [eu] ∨ landed pp key up ∧ ∃ spec tx e,
       publish_call args "publish_hash" (sha256 wasm) = Some spec ∧
       invokes pp key (publish_auth args) spec tx ∧ sealed pp key tx e ∧
       published c st args (sha256 wasm) [eu; e]).
Proof.
  cbv zeta. unfold publish_large.
  pose proof (run_upload_sends pp key wasm (pa_dry_run args) st) as Hup. cbv zeta in Hup.
  set (up := run_upload _ _ _ _) in *. set (k := λ _ : option bytes, _).
  destruct (up st) as [[o|] st1] eqn:Eu; cbn [fst] in Hup.
  2:{ destruct Hup as [[Hs _]|(Hd & tx & e & Hu & He & Hs & _)];
        destruct (sends_stopped up k st st1 _ Eu Hs); [by auto|].
      right. split; [done|]. exists tx, e. auto. }
  pose proof (publish_record_spec pp args key wasm st1) as Hrec. cbv zeta in Hrec.
  rewrite (bind_result up k st o st1 Eu).
  destruct Hrec as [[Hn Hr]|(Hd' & spec & tx' & e' & Hp & Hi & He' & Hpub)].
  - destruct Hup as [[Hs _]|(Hd & tx & e & Hu & He & Hs & _)]; [left|right].
    + split; [exact (sends_bind up k st o st1 [] [] Eu Hs Hn)|exact Hr].
    + split; [done|]. exists tx, e. split; [done|]. split; [done|]. left.
      exact (sends_bind up k st o st1 [e] [] Eu Hs Hn).
  - destruct Hup as [[Hs [Hn|Hn]]|(Hd & tx & e & Hu & He & Hs & [Hn|Hland])]; [done|congruence|done|].
    right. split; [done|]. exists tx, e. split; [done|]. split; [done|]. right. split; [done|].
    exists spec, tx', e'. split; [done|]. split; [done|]. split; [done|].
    exact (published_bind up k st o st1 args (sha256 wasm) [e] [e'] Eu Hs Hpub).
Qed.

(** Everything after the preflight. *)
Definition publish_body (pp : string) (args : PublishArgs) (key : SeedKey) (wasm : bytes) : T unit :=
  spec ←
    (if (slen wasm <=? inline_max_bytes args)%N then lift (publish_call args "publish" wasm)
     else
       run_upload pp key wasm (pa_dry_run args);;
       lift (publish_call args "publish_hash" (sha256 wasm)));
  publish_end pp args key (sha256 wasm) spec.

Lemma publish_body_spec pp args key wasm st :
  let c := publish_body pp args key wasm in
  (sends c st [] ∧ ((c st).1 = None ∨ pa_dry_run args = true)) ∨
  pa_dry_run args = false ∧ publication c st pp args key wasm.
Proof.
  cbv zeta. unfold publication, publish_body. cbv zeta.
  destruct (slen wasm <=? inline_max_bytes args)%N.
  - destruct (publish_call args "publish" wasm) as [spec|] eqn:Hc.
    2:{ left. split; [by apply quiet_sends|by left]. }
    destruct (publish_end_spec pp args key (sha256 wasm) spec st) as [Hl|(Hd & tx & e & ? & ? & ?)];
      [by left|right]. split; [done|]. by exists spec, tx, e.
  - unfold sends, published. rewrite T_bind_assoc.
    exact (publish_large_spec pp args key wasm st).
Qed.

Lemma preflight_proceed outcome local :
  preflight_decision outcome local = Proceed → ∃ code msg,
    outcome = ContractError (Some code) msg ∧ (code = NO_SUCH_WASM_PUBLISHED ∨ code = NO_SUCH_VERSION).
Proof.
  unfold preflight_decision. destruct outcome as [[]|[code|] msg]; try done.
  - destruct (_ =? _)%nat; [|done]. by destruct (String.eqb _ _).
  - destruct (orb_true_iff (code =? NO_SUCH_WASM_PUBLISHED)%N (code =? NO_SUCH_VERSION)%N) as [Hor _].
    destruct (_ || _); [|done]. intros _. exists code, msg. split; [done|].
    destruct (Hor eq_refl) as [->%N.eqb_eq| ->%N.eqb_eq]; auto.
Qed.
Lemma preflight_published outcome local :
  preflight_decision outcome local = AlreadyPublished → outcome = ReadValue (Sc_Bytes local).
Proof.
  unfold preflight_decision. destruct outcome as [[]|[code|] msg]; try done.
  - destruct (_ =? _)%nat; [|done]. by destruct (String.eqb_spec b local) as [->|].
  - by destruct (_ || _).
Qed.

(** A run that goes on as another one. *)
Lemma publication_from {A} (c d : T A) st st1 pp args key wasm :
  c st = d st1 → sent st1 = sent st → receipts st1 = receipts st →
  publication d st1 pp args key wasm → publication c st pp args key wasm.
Proof.
  intros Hc Hs Hr. unfold publication, published, sends. cbv zeta. by rewrite Hc, Hs, Hr.
Qed.

(** A run after one more read. *)
Definition step (st : TxState) : TxState := {|
  moment := S (moment st); clock := clock st; sent := sent st; receipts := receipts st |}.

Lemma publish_run_eq pp args st :
  publish_run pp args st =
  match read_wasm (pa_wasm args), scv_string (wasm_name args), scv_string (binver args) with
  | Some wasm, Some n, Some v =>
      match simulate_read (moment st) (pa_registry args) "fetch_hash" [n; v] with
      | Some o =>
          match preflight_decision o (sha256 wasm) with
          | AlreadyPublished => (Some tt, step st)
          | HashMismatch _ | UnexpectedTrap => (None, step st)
          | Proceed =>
              match from_env "PERCH_CI_KEY" with
              | Some key => publish_body pp args key wasm (step st)
              | None => (None, step st)
              end
          end
      | None => (None, st)
      end
  | _, _, _ => (None, st)
  end.
Proof.
  unfold publish_run. rewrite lift_bind. destruct (read_wasm _) as [wasm|]; [|done]. cbv zeta.
  rewrite lift_bind. destruct (scv_string (wasm_name args)) as [n|]; [|done].
  rewrite lift_bind. destruct (scv_string (binver args)) as [v|]; [|done].
  unfold mbind at 1, T_bind, reading, read.
  destruct (simulate_read _ _ _ _) as [o|]; [|done]. cbn [mbind option_bind].
  by destruct (preflight_decision o (sha256 wasm)).
Qed.

(** C39: [publish] never publishes over anything.  It sends only when the
    registry, asked first, answered one of its two not-published errors for
    that name and version, and never on a dry run; a small wasm is one call
    with the bytes, a large one an upload followed, only once the upload
    landed, by a call with its hash; each call is signed for the chosen rule
    of the author's account.  A run that ends well without sending is a dry
    run or found these very bytes published. *)
Theorem publish_sends_once pp args st :
  let c := publish_run pp args in
  (sends c st [] ∧
   ((c st).1 = None ∨ pa_dry_run args = true ∨
    ∃ wasm n v, read_wasm (pa_wasm args) = Some wasm ∧
      simulate_read (moment st) (pa_registry args) "fetch_hash" [n; v] =
        Some (ReadValue (Sc_Bytes (sha256 wasm))))) ∨
  pa_dry_run args = false ∧ ∃ wasm n v code msg key,
    read_wasm (pa_wasm args) = Some wasm ∧
    scv_string (wasm_name args) = Some n ∧ scv_string (binver args) = Some v ∧
    simulate_read (moment st) (pa_registry args) "fetch_hash" [n; v] =
      Some (ContractError (Some code) msg) ∧
    (code = NO_SUCH_WASM_PUBLISHED ∨ code = NO_SUCH_VERSION) ∧
    from_env "PERCH_CI_KEY" = Some key ∧
    publication c st pp args key wasm.
Proof.
  cbv zeta. unfold sends at 1. pose proof (publish_run_eq pp args st) as Heq.
  destruct (read_wasm (pa_wasm args)) as [wasm|]; [|left; rewrite Heq, app_nil_r; auto].
  destruct (scv_string (wasm_name args)) as [n|]; [|left; rewrite Heq, app_nil_r; auto].
  destruct (scv_string (binver args)) as [v|]; [|left; rewrite Heq, app_nil_r; auto].
  destruct (simulate_read _ _ _ [n; v]) as [o|] eqn:Hr; [|left; rewrite Heq, app_nil_r; auto].
  destruct (preflight_decision o (sha256 wasm)) eqn:Hd; try (left; rewrite Heq, app_nil_r; by auto).
  - apply preflight_published in Hd. subst o. left. rewrite Heq, app_nil_r. split; [done|].
    right; right. by exists wasm, n, v.
  - apply preflight_proceed in Hd as (code & msg & -> & Hcode).
    destruct (from_env "PERCH_CI_KEY") as [key|]; [|left; rewrite Heq, app_nil_r; auto].
    destruct (publish_body_spec pp args key wasm (step st)) as [[[Hs Hrc] Hn]|[Hdry Hp]].
    + left. rewrite Heq. split; [done|]. destruct Hn; auto.
    + right. split; [done|]. exists wasm, n, v, code, msg, key. do 6 (split; [done|]).
      by apply (publication_from _ (publish_body pp args key wasm) st (step st)).
Qed.
End tx.
