(* ===== verification/DeployTxDemo.v ===== *)
(** * A document applied and a wasm published

    The tool against a small server: a dry run, an apply that is polled three
    times, a server that never finds the transaction, and the publications of
    a small and a large wasm. *)

From S2P Require Import Prelude Host Doc Canon Text Parse RoundTrip Validate Program Compile RecoveryIface Account Deploy DeployTx DeployTxFacts DeployDemo.
#[local] Open Scope string_scope.
#[local] Open Scope list_scope.
Import CompileDemo.

#[local] Existing Instance DeployHost.
#[local] Existing Instance DemoHex.
#[local] Existing Instance canonical_lexer.

(** ** Libraries *)

Definition passphrase : string := "net".
Definition demo_pubkey : bytes := zeros 32.

(** The account's configuration, as it is read. *)
Definition demo_configuration : ScVal :=
  Sc_Map (Some [
    (Sc_Symbol "revision", Sc_U64 7);
    (Sc_Symbol "rules", Sc_Vec (Some [
       Sc_Map (Some [
         (Sc_Symbol "context_type",
           Sc_Vec (Some [Sc_Symbol "CallContract"; Sc_Address (ScAddress_Contract token)]));
         (Sc_Symbol "id", Sc_U32 2);
         (Sc_Symbol "name", Sc_String "admin");
         (Sc_Symbol "recovery", Sc_Bool false);
         (Sc_Symbol "signers", Sc_Vec (Some [
            Sc_Vec (Some [Sc_Symbol "External"; Sc_Address (ScAddress_Contract "CVERIFIER");
                          Sc_Bytes demo_pubkey])]))])]))]).

#[local] Instance SmallLibs : DeployLibs := {|
  strkey_contract s := Some s; strkey_account s := Some s;
  scval_to_xdr _ := "v"; to_xdr_base64 _ := "v";
  from_xdr_base64 s := if String.eqb s "configuration" then Some demo_configuration else None;
  Json := unit; serde_to_value _ := Some tt; install_to_scval _ := None;
  hex_of_bytes := hex_pairs |}.

(** An envelope in base64 is the function it calls, marked when it carries an
    authorization and when it is signed. *)
Definition demo_envelope (e : TransactionEnvelope) : option string :=
  match operations (env_tx e) with
  | [InvokeHostFunction f auth] =>
      Some ((if bool_decide (signatures e = []) then "" else "signed ") +:+
            (match auth with [] => "" | _ => "authorized " end) +:+
            match f with InvokeContract _ n _ => n | UploadContractWasm _ => "upload" end)
  | _ => None
  end.

#[local] Instance SmallTxLibs : TxLibs := {|
  entry_from_base64 _ := Some {|
    credentials := CredAddress {| sac_address := ScAddress_Contract token; nonce := 5;
      signature_expiration_ledger := 0; signature := Sc_Void |};
    root_invocation := "apply" |};
  data_from_base64 s := Some s;
  envelope_to_base64 := demo_envelope;
  tx_payload_to_xdr n tx := Some n;
  preimage_to_xdr p := match p with
    | SorobanAuthorization n _ _ i | SorobanAuthorizationWithAddress n _ _ i _ => Some (n +:+ i) end;
  account_key_base64 k := Some k; account_entry_seq _ := Some 41%Z;
  ed25519_public _ := demo_pubkey; ed25519_sign k m := substring 0 8 (k +:+ m);
  strkey_seed s := Some s; account_to_strkey k := k; contract_to_strkey h := h |}.

(** ** The server *)

Definition answer (v : Value) : option Value := Some (Object [("jsonrpc", JString "2.0"); ("result", v)]).
Definition simulated (result : list (string * Value)) : Value :=
  Object [("latestLedger", Number "1000" true); ("minResourceFee", JString "101");
          ("transactionData", JString "data"); ("results", Array [Object result])].

(** Answers by method and transaction; the transaction is found at moment
    [found]. *)
Definition server (found : nat) : RpcServer := {|
  post t method params :=
    let tx := default "" (str_at "transaction" params) in
    if String.eqb method "getLedgerEntries" then
      answer (Object [("entries", Array [Object [("xdr", JString "entry")]])])
    else if String.eqb method "simulateTransaction" then
      if String.eqb tx "configuration" then answer (simulated [("xdr", JString "configuration")])
      else if String.eqb tx "fetch_hash" then
        answer (Object [("latestLedger", Number "1000" true);
                        ("error", JString "HostError: Error(Contract, #2)")])
      else answer (simulated [("auth", Array [JString "entry"])])
    else if String.eqb method "sendTransaction" then
      answer (Object [("status", JString "PENDING"); ("hash", JString "h")])
    else if (t <? found)%nat then answer (Object [("status", JString "NOT_FOUND")])
    else answer (Object [("status", JString "SUCCESS"); ("ledger", Number "1002" true)]);
  latency _ := 10%N;
  overrun _ := 0%N |}.

Definition demo_doc : PolicyDoc := {|
  doc_version := 1; doc_network := Some passphrase; doc_signers := doc_signers (pay_doc from_self);
  doc_rules := [pay_rule from_self]; doc_recovery := None |}.

#[local] Instance demo_shell : Shell := {|
  getenv v := Some "SEED"; read_doc _ := Some (canonical_json demo_doc);
  read_wasm p := Some p; read_rules _ := None; can_write _ := true |}.

Definition start : TxState := {| moment := 0; clock := 0; sent := []; receipts := [] |}.

(** ** Runs *)

Example apply_dry_run :
  let r := @apply_run DeployHost _ _ _ _ (server 0) _ passphrase token "doc.json" true start in
  (r.1, sent r.2, moment r.2) = (Some tt, [], 4%nat).
Proof. vm_compute. reflexivity. Qed.

Example apply_lands :
  let r := @apply_run DeployHost _ _ _ _ (server 7) _ passphrase token "doc.json" false start in
  (r.1, sent r.2, moment r.2, clock r.2) =
  (Some tt, ["signed authorized apply_doc"], 8%nat, 4070%N).
Proof. vm_compute. reflexivity. Qed.

Example apply_times_out :
  let r := @apply_run DeployHost _ _ _ _ (server 1000) _ passphrase token "doc.json" false start in
  (r.1, sent r.2, moment r.2) = (None, ["signed authorized apply_doc"], 36%nat).
Proof. vm_compute. reflexivity. Qed.

(** A document of another network is not sent. *)
Example apply_wrong_network :
  let r := @apply_run DeployHost _ _ _ _ (server 7) _ "other" token "doc.json" false start in
  (r.1, sent r.2) = (None, []).
Proof. vm_compute. reflexivity. Qed.

Definition demo_args (max : N) : PublishArgs := {|
  pa_wasm := "wasm"; wasm_name := "perch-account"; binver := "0.1.0"; pa_registry := token;
  author := token; pa_verifier := None; pa_rule_id := 3; pa_dry_run := false;
  receipt := "receipt.json"; inline_max_bytes := max |}.

Example publish_inline :
  let r := @publish_run DeployHost _ _ (server 0) _ passphrase (demo_args 100) start in
  (r.1, sent r.2, rc_ledger ∘ snd <$> receipts r.2) =
  (Some tt, ["signed authorized publish"], [1002%N]).
Proof. vm_compute. reflexivity. Qed.

Example publish_large_wasm :
  let r := @publish_run DeployHost _ _ (server 0) _ passphrase (demo_args 3) start in
  (r.1, sent r.2) = (Some tt, ["signed upload"; "signed authorized publish_hash"]).
Proof. vm_compute. reflexivity. Qed.

(** An upload that never lands is the last thing sent. *)
Example publish_upload_lost :
  let r := @publish_run DeployHost _ _ (server 1000) _ passphrase (demo_args 3) start in
  (r.1, sent r.2, receipts r.2) = (None, ["signed upload"], []).
Proof. vm_compute. reflexivity. Qed.

(** ** Witness *)

Lemma polling_ends_witness :
  let p fuel := @poll (server 1000) fuel 60000 "h" start in
  p 500%nat = p POLLS ∧ (moment (p 500%nat).2 ≤ 31)%nat.
Proof.
  assert (POLLS ≤ 500)%nat as Hle by (unfold POLLS; lia).
  exact (@polling_ends (server 1000) 500 "h" start Hle).
Defined.
