(* ===== verification/Regex.v ===== *)
(** * Patterns of the policy schema

    The [pattern] keyword of JSON Schema holds a regular expression in ECMA
    syntax.  This file reads the fragment the policy schema uses (anchors,
    literals, escapes, classes with ranges, groups and the quantifiers) into
    an expression, and matches by derivatives.  A class here only names
    characters below 128, so matching the bytes of a UTF-8 text is matching
    its characters.  The second half gives the meaning of the shapes the
    schema's patterns have, as plain conditions on the text. *)

From S2P Require Import Prelude Canon Validate.
#[local] Open Scope string_scope.
#[local] Open Scope list_scope.
#[local] Open Scope nat_scope.

(** [Rep r lo hi] is [lo] to [hi] copies of [r], [None] for no upper bound. *)
Inductive rx : Type :=
| Void
| Eps
| Cls (ranges : list (N * N))
| Seq (a b : rx)
| Alt (a b : rx)
| Rep (r : rx) (lo : nat) (hi : option nat).

(** ** Matching *)

Definition in_class (ranges : list (N * N)) (b : N) : bool :=
  existsb (λ r, in_range r.1 r.2 b) ranges.

Definition seq (a b : rx) : rx :=
  match a, b with
  | Void, _ => Void
  | _, Void => Void
  | Eps, b => b
  | a, b => Seq a b
  end.
Definition alt (a b : rx) : rx :=
  match a, b with
  | Void, b => b
  | a, Void => a
  | a, b => Alt a b
  end.

Fixpoint nullable (r : rx) : bool :=
  match r with
  | Void | Cls _ => false
  | Eps => true
  | Seq a b => nullable a && nullable b
  | Alt a b => nullable a || nullable b
  | Rep r lo _ => (lo =? 0) || nullable r
  end.

(** What is left to match once [c] has been read. *)
Fixpoint der (c : ascii) (r : rx) : rx :=
  match r with
  | Void | Eps => Void
  | Cls ranges => if in_class ranges (N_of_ascii c) then Eps else Void
  | Seq a b =>
      if nullable a then alt (seq (der c a) b) (der c b) else seq (der c a) b
  | Alt a b => alt (der c a) (der c b)
  | Rep r lo hi =>
      match hi with
      | Some O => Void
      | Some (S hi) => seq (der c r) (Rep r (pred lo) (Some hi))
      | None => seq (der c r) (Rep r (pred lo) None)
      end
  end.

Fixpoint matches (r : rx) (s : string) : bool :=
  match s with
  | EmptyString => nullable r
  | String c s => matches (der c r) s
  end.

(** ** Reading a pattern *)

Definition literal (c : ascii) : rx := Cls [(N_of_ascii c, N_of_ascii c)].

Definition hex_of (c : ascii) : option N :=
  let b := N_of_ascii c in
  if in_range 48 57 b then Some (b - 48)%N
  else if in_range 97 102 b then Some (b - 87)%N
  else if in_range 65 70 b then Some (b - 55)%N
  else None.

(** One character of a class or a literal: itself, [\xHH], or [\c] for [c]. *)
Definition read_char (s : string) : option (N * string) :=
  match s with
  | EmptyString => None
  | String c s =>
      if Ascii.eqb c "\" then
        match s with
        | String x (String h (String l s')) =>
            if Ascii.eqb x "x" then
              match hex_of h, hex_of l with
              | Some h, Some l => Some (16 * h + l, s')%N
              | _, _ => None
              end
            else Some (N_of_ascii x, String h (String l s'))
        | String x s' => Some (N_of_ascii x, s')
        | EmptyString => None
        end
      else Some (N_of_ascii c, s)
  end.

Fixpoint read_class (fuel : nat) (s : string) : option (list (N * N) * string) :=
  match fuel with
  | O => None
  | S fuel =>
      match s with
      | String "]" s => Some ([], s)
      | _ =>
          match read_char s with
          | None => None
          | Some (lo, String "-" s) =>
              match read_char s with
              | Some (hi, s) =>
                  match read_class fuel s with
                  | Some (rs, s) => Some ((lo, hi) :: rs, s)
                  | None => None
                  end
              | None => None
              end
          | Some (lo, s) =>
              match read_class fuel s with
              | Some (rs, s) => Some ((lo, lo) :: rs, s)
              | None => None
              end
          end
      end
  end.

Fixpoint read_number (acc : nat) (s : string) : nat * string :=
  match s with
  | String c s' =>
      let b := N_of_ascii c in
      if in_range 48 57 b then read_number (10 * acc + N.to_nat (b - 48)) s' else (acc, s)
  | EmptyString => (acc, s)
  end.

(** The quantifier after an atom, if there is one. *)
Definition read_quantifier (r : rx) (s : string) : option (rx * string) :=
  match s with
  | String "*" s => Some (Rep r 0 None, s)
  | String "+" s => Some (Rep r 1 None, s)
  | String "?" s => Some (Rep r 0 (Some 1), s)
  | String "{" s =>
      let '(lo, s) := read_number 0 s in
      match s with
      | String "}" s => Some (Rep r lo (Some lo), s)
      | String "," (String "}" s) => Some (Rep r lo None, s)
      | String "," s =>
          let '(hi, s) := read_number 0 s in
          match s with String "}" s => Some (Rep r lo (Some hi), s) | _ => None end
      | _ => None
      end
  | _ => Some (r, s)
  end.

(** A sequence of quantified atoms, up to a closing parenthesis, [$] or the
    end. *)
Fixpoint read_seq (fuel : nat) (s : string) : option (rx * string) :=
  match fuel with
  | O => None
  | S fuel =>
      let continue (r : rx) (s : string) :=
        match read_quantifier r s with
        | Some (r, s) =>
            match read_seq fuel s with
            | Some (Eps, s) => Some (r, s)
            | Some (rest, s) => Some (Seq r rest, s)
            | None => None
            end
        | None => None
        end in
      match s with
      | EmptyString | String ")" _ | String "$" _ => Some (Eps, s)
      | String "(" s =>
          match read_seq fuel s with
          | Some (r, String ")" s) => continue r s
          | _ => None
          end
      | String "[" s =>
          match read_class fuel s with
          | Some (rs, s) => continue (Cls rs) s
          | None => None
          end
      | s =>
          match read_char s with
          | Some (b, s) => continue (Cls [(b, b)]) s
          | None => None
          end
      end
  end.

Definition anything : rx := Rep (Cls [(0, 255)%N]) 0 None.

(** A pattern matches anywhere in the text unless it is anchored. *)
Definition read_pattern (p : string) : option rx :=
  let '(before, p) := match p with String "^" p => (Eps, p) | p => (anything, p) end in
  match read_seq (S (String.length p)) p with
  | Some (r, EmptyString) => Some (seq before (seq r anything))
  | Some (r, String "$" EmptyString) => Some (seq before r)
  | _ => None
  end.

(** An unreadable pattern matches nothing. *)
Definition pattern_match (p s : string) : bool :=
  match read_pattern p with Some r => matches r s | None => false end.

(** ** What the expressions match *)

Lemma matches_Void s : matches Void s = false.
Proof. induction s; simpl; auto. Qed.

Lemma matches_alt a b s : matches (alt a b) s = matches a s || matches b s.
Proof.
  revert a b. induction s as [|c s IH]; intros a b.
  - destruct a, b; simpl; rewrite ?orb_false_r; auto.
  - assert (∀ x y, matches (Alt x y) (String c s) = matches x (String c s) || matches y (String c s))
      as Halt by (intros; simpl; apply IH).
    destruct a; unfold alt; try (rewrite matches_Void; done);
      destruct b; rewrite ?Halt, ?(matches_Void (String c s)), ?orb_false_r; auto.
Qed.

Lemma matches_Eps s : matches Eps s = String.eqb s "".
Proof. destruct s; simpl; [done|apply matches_Void]. Qed.

Lemma seq_Void r : seq r Void = Void.
Proof. by destruct r. Qed.
Lemma seq_Eps r : seq Eps r = r.
Proof. by destruct r. Qed.

Lemma matches_Seq_Cls R r c s :
  matches (Seq (Cls R) r) (String c s) = in_class R (N_of_ascii c) && matches r s.
Proof.
  simpl. destruct (in_class _ _); [by rewrite seq_Eps|]. apply matches_Void.
Qed.

Definition up_to (hi : option nat) (n : nat) : bool :=
  match hi with Some hi => n <=? hi | None => true end.

(** A repeated class: a condition on the bytes and one on the length. *)
Lemma matches_Rep_Cls R lo hi s :
  matches (Rep (Cls R) lo hi) s =
  all_bytes (in_class R) s && (lo <=? String.length s) && up_to hi (String.length s).
Proof.
  revert lo hi. induction s as [|c s IH]; intros lo hi; simpl.
  - rewrite orb_false_r. destruct lo; simpl; [by destruct hi|done].
  - destruct (in_class R (N_of_ascii c)); simpl.
    + destruct hi as [[|hi]|]; rewrite ?seq_Eps, ?matches_Void, ?IH; simpl.
      * by rewrite andb_false_r.
      * by destruct lo.
      * by destruct lo.
    + by destruct hi as [[|hi]|]; apply matches_Void.
Qed.

(** Repeated pairs of a class: whole bytes written in hex. *)
Lemma matches_pair R lo hi c d s :
  matches (Rep (Rep (Cls R) 2 (Some 2)) lo hi) (String c (String d s)) =
  match hi with
  | Some O => false
  | Some (S hi) =>
      in_class R (N_of_ascii c) && in_class R (N_of_ascii d) &&
      matches (Rep (Rep (Cls R) 2 (Some 2)) (pred lo) (Some hi)) s
  | None =>
      in_class R (N_of_ascii c) && in_class R (N_of_ascii d) &&
      matches (Rep (Rep (Cls R) 2 (Some 2)) (pred lo) None) s
  end.
Proof.
  assert (∀ r s, matches (Seq (Rep (Cls R) 0 (Some 0)) r) s = matches r s) as H0.
  { by intros r [|x t]. }
  destruct hi as [[|hi]|]; simpl; [apply matches_Void|..];
    (destruct (in_class R (N_of_ascii c)); simpl; [|apply matches_Void]);
    (destruct (in_class R (N_of_ascii d)); simpl; [|apply matches_Void]);
    by apply H0.
Qed.

Lemma matches_Rep_pair R lo hi s :
  matches (Rep (Rep (Cls R) 2 (Some 2)) lo hi) s =
  all_bytes (in_class R) s && Nat.even (String.length s) &&
  (2 * lo <=? String.length s) && up_to (Nat.mul 2 <$> hi) (String.length s).
Proof.
  revert lo hi. induction s as [|c|c d s IH] using two_step_ind; intros lo hi.
  - simpl. rewrite orb_false_r. destruct lo; simpl; [by destruct hi|done].
  - simpl. rewrite andb_false_r. destruct hi as [[|hi]|]; simpl; [done|..];
      by destruct (in_class R _).
  - rewrite matches_pair. cbn [all_bytes String.length].
    change (Nat.even (S (S (String.length s)))) with (Nat.even (String.length s)).
    destruct hi as [[|hi]|]; simpl; rewrite ?andb_false_r; [done|..]; rewrite IH;
      (destruct (in_class R (N_of_ascii c)); simpl; [|done]);
      (destruct (in_class R (N_of_ascii d)); simpl; [|done]);
      f_equal; [f_equal|..|f_equal].
    all: destruct lo; simpl; rewrite ?Nat.add_0_r, ?Nat.add_succ_r; done.
Qed.

(** Optional [+], leading zeros, then a non-zero digit and at most [n] more. *)
Fixpoint drop_zeros (s : string) : string :=
  match s with
  | String c r => if Ascii.eqb c "0" then drop_zeros r else s
  | EmptyString => s
  end.
Definition strip_plus (s : string) : string :=
  match s with
  | String c r => if Ascii.eqb c "+" then r else s
  | EmptyString => s
  end.
Definition positive_digits (n : nat) (s : string) : bool :=
  let d := drop_zeros (strip_plus s) in
  all_bytes (in_range 48 57) d && (1 <=? String.length d) && (String.length d <=? S n).

Definition significant (n : nat) : rx :=
  Seq (Cls [(49, 57)]%N) (Rep (Cls [(48, 57)]%N) 0 (Some n)).
Definition zeros_then (r : rx) : rx := Seq (Rep (Cls [(48, 48)]%N) 0 None) r.

Lemma in_class_one lo hi b : in_class [(lo, hi)] b = in_range lo hi b.
Proof. unfold in_class. simpl. by rewrite orb_false_r. Qed.

Lemma in_class_char c d :
  in_class [(N_of_ascii c, N_of_ascii c)] (N_of_ascii d) = Ascii.eqb d c.
Proof.
  rewrite in_class_one. unfold in_range.
  destruct (Ascii.eqb_spec d c) as [->|Hne]; [by rewrite N.leb_refl|].
  apply not_true_is_false. intros [H1%N.leb_le H2%N.leb_le]%andb_true_iff. apply Hne.
  rewrite <- (ascii_N_embedding d), <- (ascii_N_embedding c). f_equal. lia.
Qed.

Lemma all_bytes_ext f g s : (∀ b, f b = g b) → all_bytes f s = all_bytes g s.
Proof. intros H. induction s; simpl; [done|]. by rewrite H, IHs. Qed.

Lemma matches_significant n c s :
  matches (significant n) (String c s) =
  in_range 49 57 (N_of_ascii c) && (all_bytes (in_range 48 57) s && (String.length s <=? n)).
Proof.
  unfold significant. rewrite matches_Seq_Cls, matches_Rep_Cls, in_class_one. simpl.
  rewrite andb_true_r. do 2 f_equal. apply all_bytes_ext, in_class_one.
Qed.

(** Leading zeros are read by the repetition, as no other part takes them. *)
Lemma matches_zeros n s :
  matches (zeros_then (significant n)) s =
  match drop_zeros s with
  | EmptyString => false
  | d => matches (significant n) d
  end.
Proof.
  induction s as [|c s IH]; [done|]. cbn [drop_zeros].
  destruct (Ascii.eqb_spec c "0") as [->|Hne]; [apply IH|].
  change (matches (zeros_then (significant n)) (String c s)) with
    (matches (alt (seq (seq (if in_class [(48, 48)]%N (N_of_ascii c) then Eps else Void)
      (Rep (Cls [(48, 48)]%N) 0 None)) (significant n)) (der c (significant n))) s).
  change 48%N with (N_of_ascii "0"). rewrite in_class_char.
  by destruct (Ascii.eqb_spec c "0").
Qed.

Lemma matches_positive n s :
  matches (Seq (Rep (Cls [(43, 43)]%N) 0 (Some 1)) (zeros_then (significant n))) s =
  positive_digits n s.
Proof.
  transitivity (matches (zeros_then (significant n)) (strip_plus s)).
  - destruct s as [|c s]; [done|]. unfold strip_plus.
    change (matches (alt (seq (seq (if in_class [(43, 43)]%N (N_of_ascii c) then Eps else Void)
      (Rep (Cls [(43, 43)]%N) 0 (Some 0))) (zeros_then (significant n)))
      (der c (zeros_then (significant n)))) s =
      matches (zeros_then (significant n)) (if Ascii.eqb c "+" then s else String c s)).
    change 43%N with (N_of_ascii "+"). rewrite in_class_char.
    destruct (Ascii.eqb_spec c "+") as [->|]; [|done]. by destruct s.
  - rewrite matches_zeros. unfold positive_digits. generalize (strip_plus s) as t. clear s.
    induction t as [|c t IH]; [done|]. cbn [drop_zeros].
    destruct (Ascii.eqb_spec c "0") as [->|Hne]; [done|].
    rewrite matches_significant. cbn [all_bytes String.length].
    change (S (String.length t) <=? S n) with (String.length t <=? n). rewrite andb_true_r.
    rewrite <- andb_assoc. f_equal. unfold in_range.
    assert (N_of_ascii c ≠ 48%N) as Hc.
    { intros H. apply Hne. rewrite <- (ascii_N_embedding c), H. done. }
    f_equal. apply eq_iff_eq_true. rewrite !N.leb_le. lia.
Qed.
