(* ===== verification/JsonSchema.v ===== *)
(** * What a JSON Schema accepts

    The meaning of the draft 2020-12 keywords the policy schema uses, as an
    evaluator over JSON values: a schema is a JSON value, an instance is a
    JSON value, and [valid] is the verdict a conforming validator gives.
    Keywords that only annotate ([title], [description], [examples], ...) do
    not affect it.  [valid_same] says that the verdict depends on the data of
    the instance only, not on the order of members or the spelling of
    numbers. *)

From S2P Require Import Prelude Doc Canon Parse ParseFacts RoundTrip Regex.
#[local] Open Scope string_scope.
#[local] Open Scope list_scope.
#[local] Open Scope Z_scope.

(** ** Numbers

    A JSON number denotes mantissa times a power of ten. *)

Fixpoint read_dec (acc : Z) (n : Z) (s : string) : Z * Z * string :=
  match s with
  | String c s' =>
      match digit_value c with
      | Some d => read_dec (acc * 10 + Z.of_N d) (n + 1) s'
      | None => (acc, n, s)
      end
  | EmptyString => (acc, n, s)
  end.

Definition read_sign (s : string) : Z * string :=
  match s with
  | String c s' =>
      if Ascii.eqb c "-" then (-1, s') else if Ascii.eqb c "+" then (1, s') else (1, s)
  | EmptyString => (1, s)
  end.

(** The exponent part, [0] when there is none. *)
Definition read_exponent (s : string) : option Z :=
  match s with
  | EmptyString => Some 0
  | String c s =>
      if Ascii.eqb c "e" || Ascii.eqb c "E" then
        let '(sign, s) := read_sign s in
        match read_dec 0 0 s with
        | (e, n, EmptyString) => if n =? 0 then None else Some (sign * e)
        | _ => None
        end
      else None
  end.

Definition number_value (s : string) : option (Z * Z) :=
  let '(sign, s) := read_sign s in
  let '(m, n, s) := read_dec 0 0 s in
  if n =? 0 then None
  else
    let '(m, shift, s) :=
      match s with
      | String c s' => if Ascii.eqb c "." then read_dec m 0 s' else (m, 0, s)
      | EmptyString => (m, 0, s)
      end in
    (λ e, (sign * m, e - shift)) <$> read_exponent s.

(** Two values at a common exponent. *)
Definition scale (e : Z) (x : Z * Z) : Z := x.1 * 10 ^ (x.2 - e).
Definition num_leb (x y : Z * Z) : bool :=
  let e := Z.min x.2 y.2 in scale e x <=? scale e y.
Definition num_eqb (x y : Z * Z) : bool := num_leb x y && num_leb y x.
Definition is_integer (x : Z * Z) : bool :=
  (0 <=? x.2) || (x.1 mod 10 ^ (- x.2) =? 0).

Definition number_of (v : Value) : option (Z * Z) :=
  match v with Number d _ => number_value d | _ => None end.

(** ** Values *)

Definition member {A} (k : string) (ms : list (string * A)) : option A :=
  snd <$> find_first (λ m, String.eqb m.1 k) ms.
Definition has_member {A} (k : string) (ms : list (string * A)) : bool :=
  match member k ms with Some _ => true | None => false end.

(** Equality of JSON values: numbers by value, objects by members in any
    order. *)
Fixpoint json_eq (a b : Value) : bool :=
  match a, b with
  | Null, Null => true
  | Bool x, Bool y => Bool.eqb x y
  | Number x _, Number y _ =>
      match number_value x, number_value y with
      | Some x, Some y => num_eqb x y
      | _, _ => false
      end
  | JString x, JString y => String.eqb x y
  | Array xs, Array ys =>
      (fix items (xs ys : list Value) : bool :=
         match xs, ys with
         | [], [] => true
         | x :: xs, y :: ys => json_eq x y && items xs ys
         | _, _ => false
         end) xs ys
  | Object xs, Object ys =>
      (length xs =? length ys)%nat &&
      forallb (λ m, match member m.1 ys with Some y => json_eq m.2 y | None => false end) xs
  | _, _ => false
  end.

Fixpoint unique_items (l : list Value) : bool :=
  match l with
  | [] => true
  | x :: l => negb (existsb (json_eq x) l) && unique_items l
  end.

(** The length of a string is counted in characters: every byte of a UTF-8
    text that is not a continuation byte starts one. *)
Fixpoint code_points (s : string) : Z :=
  match s with
  | EmptyString => 0
  | String c s => (if cont c then 0 else 1) + code_points s
  end.

(** ** Keywords *)

Definition has_type (t : string) (v : Value) : bool :=
  match v with
  | Null => String.eqb t "null"
  | Bool _ => String.eqb t "boolean"
  | Number d _ =>
      String.eqb t "number" ||
      (String.eqb t "integer" &&
       match number_value d with Some x => is_integer x | None => false end)
  | JString _ => String.eqb t "string"
  | Array _ => String.eqb t "array"
  | Object _ => String.eqb t "object"
  end.

(** A bound keyword: the quantity of the instance it limits, if it has one. *)
Definition bounded (below : bool) (limit : Value) (quantity : option (Z * Z)) : bool :=
  match number_of limit, quantity with
  | Some l, Some q => if below then num_leb q l else num_leb l q
  | None, _ => false
  | _, None => true
  end.
Definition length_of (v : Value) : option (Z * Z) :=
  match v with JString s => Some (code_points s, 0) | _ => None end.
Definition items_of (v : Value) : option (Z * Z) :=
  match v with Array l => Some (Z.of_nat (length l), 0) | _ => None end.

Definition on_object (v : Value) (f : Members → bool) : bool :=
  match v with Object ms => f ms | _ => true end.
Definition on_array (v : Value) (f : list Value → bool) : bool :=
  match v with Array l => f l | _ => true end.
Definition subschemas (a : Value) : Members :=
  match a with Object ss => ss | _ => [] end.
Definition schema_list (a : Value) : list Value :=
  match a with Array ss => ss | _ => [] end.

Definition DEFS_PREFIX : string := "#/$defs/".
Definition resolve (root : Value) (r : string) : option Value :=
  if String.prefix DEFS_PREFIX r then
    match root with
    | Object kws =>
        member "$defs" kws ≫= λ ds,
        member (substring (String.length DEFS_PREFIX) (String.length r) r) (subschemas ds)
    | _ => None
    end
  else None.

Section keyword.
Context (sub : Value → Value → bool) (root : Value) (kws : Members) (v : Value).

Definition kw_ref (a : Value) : bool :=
  match a with
  | JString r => match resolve root r with Some s => sub s v | None => false end
  | _ => false
  end.
Definition kw_properties (a : Value) : bool :=
  on_object v (λ ms, forallb (λ p, match member p.1 ms with
                                   | Some u => sub p.2 u
                                   | None => true
                                   end) (subschemas a)).
Definition kw_additional (a : Value) : bool :=
  on_object v (λ ms, forallb (λ m,
    match member "properties" kws with
    | Some ps => has_member m.1 (subschemas ps)
    | None => false
    end || sub a m.2) ms).
Definition kw_required (a : Value) : bool :=
  on_object v (λ ms, forallb (λ r, match r with JString k => has_member k ms | _ => false end)
    (schema_list a)).
Definition kw_items (a : Value) : bool := on_array v (forallb (sub a)).
Definition kw_unique (a : Value) : bool :=
  match a with Bool true => on_array v unique_items | _ => true end.
Definition kw_one_of (a : Value) : bool :=
  (length (filter (λ s, sub s v = true) (schema_list a)) =? 1)%nat.
Definition kw_all_of (a : Value) : bool := forallb (λ s, sub s v) (schema_list a).
Definition kw_if (a : Value) : bool :=
  if sub a v then match member "then" kws with Some t => sub t v | None => true end
  else match member "else" kws with Some t => sub t v | None => true end.
Definition kw_pattern (a : Value) : bool :=
  match a, v with
  | JString p, JString s => pattern_match p s
  | JString _, _ => true
  | _, _ => false
  end.

Definition keyword (kv : string * Value) : bool :=
  let '(k, a) := kv in
  if String.eqb k "$ref" then kw_ref a
  else if String.eqb k "type" then
    match a with JString t => has_type t v | _ => false end
  else if String.eqb k "const" then json_eq a v
  else if String.eqb k "enum" then existsb (λ x, json_eq x v) (schema_list a)
  else if String.eqb k "properties" then kw_properties a
  else if String.eqb k "additionalProperties" then kw_additional a
  else if String.eqb k "required" then kw_required a
  else if String.eqb k "items" then kw_items a
  else if String.eqb k "uniqueItems" then kw_unique a
  else if String.eqb k "minItems" then bounded false a (items_of v)
  else if String.eqb k "maxItems" then bounded true a (items_of v)
  else if String.eqb k "minLength" then bounded false a (length_of v)
  else if String.eqb k "maxLength" then bounded true a (length_of v)
  else if String.eqb k "minimum" then bounded false a (number_of v)
  else if String.eqb k "maximum" then bounded true a (number_of v)
  else if String.eqb k "pattern" then kw_pattern a
  else if String.eqb k "oneOf" then kw_one_of a
  else if String.eqb k "allOf" then kw_all_of a
  else if String.eqb k "if" then kw_if a
  else true.
End keyword.

(** [fuel] bounds the nesting of schemas; running out of it rejects. *)
Fixpoint valid (root : Value) (fuel : nat) (schema v : Value) : bool :=
  match fuel with
  | O => false
  | S fuel =>
      match schema with
      | Bool b => b
      | Object kws => forallb (keyword (valid root fuel) root kws v) kws
      | _ => false
      end
  end.
Global Arguments valid : simpl never.

(** ** The verdict depends on the data only *)

Fixpoint distinct_keys (c : Cv) : bool :=
  match c with
  | Str _ | U32 _ => true
  | Arr items => forallb distinct_keys items
  | Obj es => bool_decide (NoDup es.*1) && forallb (λ e, distinct_keys e.2) es
  end.

Lemma Value_nested_ind (P : Value → Prop) :
  P Null → (∀ b, P (Bool b)) → (∀ d i, P (Number d i)) → (∀ s, P (JString s)) →
  (∀ l, Forall P l → P (Array l)) → (∀ ms, Forall (λ m, P m.2) ms → P (Object ms)) →
  ∀ v, P v.
Proof.
  intros Hn Hb Hd Hs Ha Ho. fix IH 1. intros [|b|d i|s|l|ms]; [done|apply Hb|apply Hd|apply Hs|..].
  - apply Ha. induction l; constructor; [apply IH|done].
  - apply Ho. induction ms as [|[k v]]; constructor; [apply IH|done].
Qed.

Lemma forallb_pointwise {A} (f g : A → bool) l : (∀ x, f x = g x) → forallb f l = forallb g l.
Proof. intros H. induction l; simpl; [done|]. by rewrite H, IHl. Qed.
Lemma existsb_pointwise {A} (f g : A → bool) l : (∀ x, f x = g x) → existsb f l = existsb g l.
Proof. intros H. induction l; simpl; [done|]. by rewrite H, IHl. Qed.

Lemma forallb_perm {A} (f : A → bool) l k : l ≡ₚ k → forallb f l = forallb f k.
Proof.
  intros Hp. apply eq_iff_eq_true. rewrite !forallb_forall.
  setoid_rewrite <- list_elem_of_In. by setoid_rewrite Hp.
Qed.

Lemma read_dec_digits b s acc n m :
  parse_digits b acc s = Some m →
  read_dec (Z.of_N acc) n s = (Z.of_N m, n + Z.of_nat (String.length s), "").
Proof.
  revert acc n. induction s as [|c s IH]; intros acc n; simpl.
  - intros [= ->]. by rewrite Z.add_0_r.
  - destruct (digit_value c) as [d|]; [|done]. destruct (N.leb_spec (acc * 10 + d) b); [|done].
    intros Hm. rewrite <- N2Z.inj_mul with (m := 10%N), <- N2Z.inj_add.
    rewrite (IH _ _ Hm). do 2 f_equal. lia.
Qed.

Lemma digit_value_sign c d :
  digit_value c = Some d → Ascii.eqb c "-" = false ∧ Ascii.eqb c "+" = false.
Proof.
  intros H. split; apply Ascii.eqb_neq; intros ->; by vm_compute in H.
Qed.

(** A number the parser reads as [n] denotes [n]. *)
Lemma number_value_uint b s n : parse_uint b s = Some n → number_value s = Some (Z.of_N n, 0).
Proof.
  unfold parse_uint, number_value, read_sign. destruct s as [|c s]; [done|].
  destruct (Ascii.eqb_spec c "+") as [->|Hp]; [simpl (Ascii.eqb "+" "-")|]; cbn [andb].
  - destruct s as [|c s]; [done|]. intros H. apply (read_dec_digits _ _ 0%N 0) in H.
    change (Z.of_N 0) with 0 in H. rewrite H. cbn [String.length].
    destruct (Z.eqb_spec (0 + Z.of_nat (S (String.length s))) 0); [lia|].
    cbn. by rewrite Z.mul_1_l.
  - intros H. destruct (digit_value c) as [d|] eqn:Hd; [|by simpl in H; rewrite Hd in H].
    destruct (digit_value_sign _ _ Hd) as [-> _].
    apply (read_dec_digits _ _ 0%N 0) in H. change (Z.of_N 0) with 0 in H. rewrite H.
    cbn [String.length]. destruct (Z.eqb_spec (0 + Z.of_nat (S (String.length s))) 0); [lia|].
    cbn. by rewrite Z.mul_1_l.
Qed.

Lemma same_number d i n : same (Number d i) (U32 n) → number_value d = Some (Z.of_N n, 0).
Proof. inversion 1; subst. by eapply number_value_uint. Qed.

Section same_data.
Context (vs ws : list Value) (ms ns : Members) (cs : list Cv) (es : list (string * Cv)).

Lemma same_items_forallb (f g : Value → bool) :
  Forall2 same vs cs → Forall2 same ws cs →
  (∀ v w c, c ∈ cs → same v c → same w c → f v = g w) → forallb f vs = forallb g ws.
Proof.
  intros H. revert ws. induction H as [|v c vs' cs' Hv _ IH]; intros ws' Hw Hfg;
    inversion Hw as [|w ? ws'' ? Hwc Hws]; subst; simpl; [done|].
  f_equal; [eapply Hfg; [|done..]; set_solver|].
  apply IH; [done|]. intros v' w' c' Hin. apply Hfg. set_solver.
Qed.

Lemma same_members_forallb (f g : string * Value → bool) :
  same (Object ms) (Obj es) → same (Object ns) (Obj es) →
  (∀ k v w c, (k, c) ∈ es → same v c → same w c → f (k, v) = g (k, w)) →
  forallb f ms = forallb g ns.
Proof.
  intros H1 H2 Hfg. inversion H1 as [| | |? ms' ? Hp1 Hf1]; inversion H2 as [| | |? ns' ? Hp2 Hf2]; subst.
  rewrite (forallb_perm _ _ _ Hp1), (forallb_perm _ _ _ Hp2). clear Hp1 Hp2 H1 H2 ms ns.
  revert ns' Hf2. induction Hf1 as [|[k v] [k' c] ms'' es' [Hk Hv] _ IH]; intros ns' Hf2;
    inversion Hf2 as [|[j w] ? ns'' ? [Hj Hw] Hns]; simpl in *; subst; simpl; [done|].
  f_equal; [eapply Hfg; [|done..]; set_solver|].
  apply IH; [|done]. intros k v' w' c' Hin. apply Hfg. set_solver.
Qed.
End same_data.

Lemma member_Some {A} k (ms : list (string * A)) v : member k ms = Some v → (k, v) ∈ ms.
Proof.
  unfold member. destruct (find_first _ ms) as [[j w]|] eqn:H; [|done]. intros [= <-].
  apply find_first_Some in H as [Hin Hk]. simpl in *. by apply String.eqb_eq in Hk as ->.
Qed.

Lemma member_None {A} k (ms : list (string * A)) : member k ms = None ↔ k ∉ ms.*1.
Proof.
  unfold member. rewrite fmap_None, find_first_None, Forall_forall. split.
  - intros H ([j w] & -> & Hin)%list_elem_of_fmap.
    specialize (H _ Hin). simpl in H. by rewrite String.eqb_refl in H.
  - intros H [j w] Hin. apply String.eqb_neq. simpl. intros ->. apply H, list_elem_of_fmap.
    by exists (k, w).
Qed.

Lemma member_NoDup {A} k (ms : list (string * A)) v :
  NoDup ms.*1 → (k, v) ∈ ms → member k ms = Some v.
Proof.
  intros Hnd Hin. destruct (member k ms) as [w|] eqn:Hm.
  - apply member_Some in Hm. apply list_elem_of_lookup in Hin as [i Hi].
    apply list_elem_of_lookup in Hm as [j Hj].
    assert (i = j) as <-; [|congruence].
    apply (NoDup_lookup _ i j k Hnd); by rewrite list_lookup_fmap, ?Hi, ?Hj.
  - apply member_None in Hm. destruct Hm. apply list_elem_of_fmap. by exists (k, v).
Qed.

(** A member and the canonical entry of the same key. *)
Lemma same_member k ms es :
  NoDup es.*1 → same (Object ms) (Obj es) →
  match member k es with
  | Some c => (k, c) ∈ es ∧ ∃ v, member k ms = Some v ∧ same v c
  | None => member k ms = None
  end.
Proof.
  intros Hnd Hs. inversion Hs as [| | |? ms' ? Hp Hf]; subst.
  pose proof (same_members_keys _ _ Hf) as Hk.
  destruct (member k es) as [c|] eqn:Hm.
  - apply member_Some in Hm. split; [done|].
    destruct (same_members_elem _ _ _ _ Hf Hm) as (v & Hv & Hvc). exists v. split; [|done].
    apply member_NoDup; [by rewrite Hp, Hk|]. by rewrite Hp.
  - apply member_None. rewrite Hp, Hk. by apply member_None.
Qed.

Lemma same_member_case {B} (f g : option Value → B) k ms ns es :
  NoDup es.*1 → same (Object ms) (Obj es) → same (Object ns) (Obj es) →
  f None = g None →
  (∀ v w c, (k, c) ∈ es → same v c → same w c → f (Some v) = g (Some w)) →
  f (member k ms) = g (member k ns).
Proof.
  intros Hnd H1 H2 Hnone Hsome.
  pose proof (same_member k _ _ Hnd H1). pose proof (same_member k _ _ Hnd H2).
  destruct (member k es) as [c|].
  - destruct H as (Hin & v & -> & ?), H0 as (_ & w & -> & ?). eauto.
  - by rewrite H, H0.
Qed.

Lemma same_length_members ms es : same (Object ms) (Obj es) → length ms = length es.
Proof.
  inversion 1 as [| | |? ms' ? Hp Hf]; subst. rewrite Hp. by eapply Forall2_length.
Qed.

Lemma distinct_obj es :
  distinct_keys (Obj es) = true →
  NoDup es.*1 ∧ ∀ k c, (k, c) ∈ es → distinct_keys c = true.
Proof.
  simpl. rewrite andb_true_iff, bool_decide_eq_true, forallb_forall. intros [? H].
  split; [done|]. intros k c Hin%list_elem_of_In. by apply (H (k, c)).
Qed.
Lemma distinct_arr cs c : distinct_keys (Arr cs) = true → c ∈ cs → distinct_keys c = true.
Proof. simpl. rewrite forallb_forall. intros H Hin%list_elem_of_In. auto. Qed.

(** Case analysis on two instances with the same data. *)
Ltac same_cases Hv Hw :=
  inversion Hv; subst; inversion Hw; subst;
  repeat match goal with H : parse_uint _ ?d = Some ?n |- _ =>
    lazymatch goal with
    | _ : number_value d = _ |- _ => fail
    | _ => pose proof (number_value_uint _ _ _ H)
    end end.

Ltac use_numbers :=
  repeat match goal with H : number_value _ = _ |- _ => rewrite H; clear H end.

Lemma json_eq_same_r a : ∀ v w c, distinct_keys c = true → same v c → same w c →
  json_eq a v = json_eq a w.
Proof.
  induction a as [| |x i|s|l IH|ms IH] using Value_nested_ind;
    intros v w c Hc Hv Hw; same_cases Hv Hw; try done; cbn [json_eq].
  - by use_numbers.
  - clear Hv Hw. rename H into Hv, H2 into Hw. revert vs vs0 cs Hc Hv Hw.
    induction IH as [|a l Ha _ IHl]; intros vs ws cs Hc Hv Hw;
      destruct Hv as [|v c vs cs Hvc Hv]; inversion Hw; subst; try done.
    simpl in Hc. apply andb_true_iff in Hc as [Hc Hcs].
    f_equal; [by eapply Ha|by eapply (IHl _ _ cs)].
  - apply distinct_obj in Hc as [Hnd Hd].
    rewrite (same_length_members _ _ Hv), (same_length_members _ _ Hw). f_equal.
    apply eq_iff_eq_true. rewrite !forallb_forall. rewrite Forall_forall in IH.
    assert (∀ m, In m ms → match member m.1 ms0 with Some y => json_eq m.2 y | None => false end =
      match member m.1 ms1 with Some y => json_eq m.2 y | None => false end) as Heq.
    { intros m Hm%list_elem_of_In.
      eapply (same_member_case (λ o, match o with Some y => json_eq m.2 y | None => false end)
        (λ o, match o with Some y => json_eq m.2 y | None => false end)); [done..|].
      intros. eapply IH; eauto. }
    split; intros Hall m Hm; [rewrite <- Heq|rewrite Heq]; auto.
Qed.

Lemma json_eq_same_l c : ∀ v w u, same v c → same w c → json_eq v u = json_eq w u.
Proof.
  induction c as [s|n|l IH|es IH] using Cv_nested_ind; intros v w u Hv Hw; same_cases Hv Hw.
  - done.
  - destruct u; cbn [json_eq]; by use_numbers.
  - destruct u as [| | | |ys|]; try done. cbn [json_eq].
    clear Hv Hw. rename H1 into Hv, H2 into Hw. revert ys vs vs0 Hv Hw.
    induction IH as [|c l Hc _ IHl]; intros ys vs ws Hv Hw;
      inversion Hv; subst; inversion Hw; subst; destruct ys; try done.
    f_equal; [by apply Hc|by apply IHl].
  - destruct u as [| | | | |ys]; try done. cbn [json_eq].
    rewrite (same_length_members _ _ Hv), (same_length_members _ _ Hw). f_equal.
    eapply same_members_forallb; [done..|]. intros k v w c Hin ? ?. simpl.
    rewrite Forall_forall in IH. destruct (member k ys); [|done]. by apply (IH _ Hin).
Qed.

Lemma unique_items_same vs ws cs :
  (∀ c, c ∈ cs → distinct_keys c = true) → Forall2 same vs cs → Forall2 same ws cs →
  unique_items vs = unique_items ws.
Proof.
  intros Hd Hv. revert ws. induction Hv as [|v c vs cs Hvc Hvs IH]; intros ws Hw;
    inversion Hw as [|w ? ws' ? Hwc Hws]; subst; [done|]. cbn [unique_items]. f_equal.
  - f_equal. clear IH Hw. revert ws' Hws. induction Hvs as [|v' c' vs cs Hv' _ IH]; intros ws Hws;
      inversion Hws as [|w' ? ws' ? Hwc' Hws']; subst; [done|]. cbn [existsb]. f_equal.
    + rewrite (json_eq_same_l _ _ _ _ Hvc Hwc).
      apply (json_eq_same_r _ _ _ c'); [apply Hd; set_solver|done..].
    + apply IH; [|done]. intros x Hx. apply Hd. set_solver.
  - apply IH; [|done]. intros x Hx. apply Hd. set_solver.
Qed.

Lemma same_quantities v w c : same v c → same w c →
  number_of v = number_of w ∧ length_of v = length_of w ∧ items_of v = items_of w ∧
  ∀ t, has_type t v = has_type t w.
Proof.
  intros Hv Hw. same_cases Hv Hw; simpl; try done.
  - use_numbers. done.
  - repeat match goal with H : Forall2 _ _ _ |- _ => apply Forall2_length in H; rewrite H end. done.
Qed.

Section keyword_same.
Context (sub : Value → Value → bool) (root : Value) (kws : Members).
Hypothesis sub_same : ∀ s v w c,
  distinct_keys c = true → same v c → same w c → sub s v = sub s w.

Lemma object_keywords_same v w c a :
  distinct_keys c = true → same v c → same w c →
  kw_properties sub v a = kw_properties sub w a ∧
  kw_additional sub kws v a = kw_additional sub kws w a ∧
  kw_required v a = kw_required w a.
Proof.
  intros Hc Hv Hw. unfold kw_properties, kw_additional, kw_required, on_object.
  destruct c as [| | |es]; same_cases Hv Hw; try done.
  apply distinct_obj in Hc as [Hnd Hd]. split; [|split].
  - apply forallb_pointwise. intros p.
    apply (same_member_case (λ o, match o with Some u => sub p.2 u | None => true end)
      (λ o, match o with Some u => sub p.2 u | None => true end) _ _ _ es); eauto.
  - eapply same_members_forallb; [done..|]. intros k v w c Hin ? ?. simpl. f_equal. eauto.
  - apply forallb_pointwise. intros []; try done. unfold has_member.
    by apply (same_member_case (λ o, match o with Some _ => true | None => false end)
      (λ o, match o with Some _ => true | None => false end) _ _ _ es).
Qed.

Lemma array_keywords_same v w c a :
  distinct_keys c = true → same v c → same w c →
  kw_items sub v a = kw_items sub w a ∧ kw_unique v a = kw_unique w a.
Proof.
  intros Hc Hv Hw. unfold kw_items, kw_unique, on_array.
  destruct c as [| |cs|]; same_cases Hv Hw; try done. split.
  - eapply same_items_forallb; [done..|]. intros v w c Hin ? ?.
    eapply sub_same; [|done..]. by eapply distinct_arr.
  - destruct a as [|[]| | | |]; try done. eapply unique_items_same; [|done..].
    intros c. by apply distinct_arr.
Qed.

Lemma keyword_same v w c kv :
  distinct_keys c = true → same v c → same w c →
  keyword sub root kws v kv = keyword sub root kws w kv.
Proof.
  intros Hc Hv Hw. destruct kv as [k a].
  destruct (same_quantities _ _ _ Hv Hw) as (Hn & Hl & Hi & Ht).
  destruct (object_keywords_same _ _ _ a Hc Hv Hw) as (Hp & Ha & Hr).
  destruct (array_keywords_same _ _ _ a Hc Hv Hw) as (Hit & Hu).
  assert (∀ s, sub s v = sub s w) as Hs by eauto.
  assert (∀ x, json_eq x v = json_eq x w) as Hj by (intros; by eapply json_eq_same_r).
  unfold keyword.
  destruct (String.eqb k "$ref").
  { unfold kw_ref. destruct a as [| | |r| |]; [done..| |done|done]. by destruct (resolve root r). }
  destruct (String.eqb k "type"); [by destruct a|].
  destruct (String.eqb k "const"); [done|].
  destruct (String.eqb k "enum"); [by apply existsb_pointwise|].
  do 5 (destruct (String.eqb k _); [done|]).
  do 6 (destruct (String.eqb k _); [by rewrite ?Hi, ?Hl, ?Hn|]).
  destruct (String.eqb k "pattern"); [unfold kw_pattern; by same_cases Hv Hw|].
  destruct (String.eqb k "oneOf").
  { unfold kw_one_of. do 2 f_equal. apply list_filter_iff. intros s. by rewrite Hs. }
  destruct (String.eqb k "allOf"); [by apply forallb_pointwise|].
  destruct (String.eqb k "if"); [|done].
  unfold kw_if. rewrite Hs. by destruct (sub a w), (member "then" kws), (member "else" kws).
Qed.
End keyword_same.

(** Two instances with the same data, whatever the order of their members
    and the spelling of their numbers, get the same verdict. *)
Lemma valid_same root n s v w c :
  distinct_keys c = true → same v c → same w c → valid root n s v = valid root n s w.
Proof.
  revert s v w c. induction n as [|n IH]; intros s v w c Hc Hv Hw; [done|].
  destruct s as [| | | | |kws]; [done..|]. unfold valid; fold valid.
  apply forallb_pointwise. intros kv. by eapply keyword_same.
Qed.
