(* ===== verification/Schema.v ===== *)
(** * perch-schema: the policy document's JSON Schema

    Models [crates/perch-schema/src/lib.rs]: the generator of
    [policy.schema.json], value by value, with the limits taken from the
    definitions of [Validate] and [DocCompiler] as the source takes them from
    the constants of [perch-ir] and [perch-doc-compiler].  Writing the value
    out as text is [serde_json]'s and is left out.  [SchemaFacts] compares
    what the schema accepts with the parser and the validator. *)

From S2P Require Import Prelude Host Canon Parse Validate DocCompiler JsonSchema.
#[local] Open Scope string_scope.
#[local] Open Scope list_scope.
#[local] Open Scope N_scope.

Definition num (n : N) : Value := Number (u_to_string n) true.

Definition SCHEMA_ID : string :=
  "https://unpkg.com/@stellar-registry/perch/schemas/policy.schema.json".
Definition SCHEMA_DIALECT : string := "https://json-schema.org/draft/2020-12/schema".
Definition CONTRACT_STRKEY_PATTERN : string := "^C[A-Z2-7]{55}$".
Definition ADDRESS_STRKEY_PATTERN : string := "^[CG][A-Z2-7]{55}$".
Definition SHA256_HEX_PATTERN : string := "^[0-9a-f]{64}$".
Definition RULE_NAME_PATTERN : string := "^[\x00-\x7F]*$".

Definition signer_key_pattern : string :=
  "^([0-9a-fA-F]{2}){1," +:+ u_to_string (N.of_nat MAX_SIGNER_KEY_LEN) +:+ "}$".
Definition limit_pattern : string :=
  let max_digits := String.length (u_to_string (Z.to_N I128_MAX)) in
  "^\+?0*[1-9][0-9]{0," +:+ u_to_string (N.of_nat (max_digits - 1)) +:+ "}$".

(** One [if]/[then] per list length up to [cap]. *)
Definition count_bound_chain (list_field bound_field : string) (cap : N) : Value :=
  Array (map (λ len : nat, Object [
      ("if", Object [
          ("required", Array (map JString [list_field; bound_field]));
          ("properties", Object [
              (list_field, Object [("minItems", num (N.of_nat len));
                                   ("maxItems", num (N.of_nat len))])])]);
      ("then", Object [
          ("properties", Object [(bound_field, Object [("maximum", num (N.of_nat len))])])])])
    (seq 1 (N.to_nat cap))).

Definition u32_field (description : string) (min : N) : Value := Object [
  ("type", JString "integer");
  ("minimum", num min);
  ("maximum", num U32_MAX);
  ("description", JString description)].
Definition contract_address (description : string) : Value := Object [
  ("type", JString "string"); ("pattern", JString CONTRACT_STRKEY_PATTERN);
  ("description", JString description)].
Definition address (description : string) : Value := Object [
  ("type", JString "string"); ("pattern", JString ADDRESS_STRKEY_PATTERN);
  ("description", JString description)].
Definition sha256_hex (description : string) : Value := Object [
  ("type", JString "string"); ("pattern", JString SHA256_HEX_PATTERN);
  ("description", JString description)].

(** ** The definitions

    The rule-name cap is OpenZeppelin's constant, a field of [CompilerLibs]. *)

Section schema.
Context {H : Host} {CL : CompilerLibs}.

Definition def_signerDecl : Value := Object [
    ("description", JString "A declared signer: a document-local id plus how it authenticates. The method is discriminated by field shape, not a `type` tag — `verifier`+`key` is an external signer checked by a verifier contract, `address` is a CAP-0071 delegated address. A mixed or incomplete shape matches neither and fails closed.");
    ("type", JString "object");
    ("oneOf", Array [
        Object [
          ("title", JString "External signer");
          ("type", JString "object");
          ("additionalProperties", Bool false);
          ("required", Array (map JString ["id"; "verifier"; "key"]));
          ("properties", Object [
              ("id", Object [
                  ("type", JString "string");
                  ("description", JString "Document-local id rules reference. Uniqueness is a semantic check (outside this schema).")]);
              ("verifier", contract_address "Verifier contract (C-address) that checks this signer's signatures.");
              ("key", Object [
                  ("type", JString "string");
                  ("pattern", JString signer_key_pattern);
                  ("description", JString "Hex-encoded key material, opaque to perch. Decoded length must be 1..=MAX_SIGNER_KEY_LEN bytes (the pattern encodes that window and the even-length hex requirement).")])])];
        Object [
          ("title", JString "Delegated signer");
          ("type", JString "object");
          ("additionalProperties", Bool false);
          ("required", Array (map JString ["id"; "address"]));
          ("properties", Object [
              ("id", Object [
                  ("type", JString "string");
                  ("description", JString "Document-local id rules reference.")]);
              ("address", address "Delegate address (G… account or C… contract) the host authenticates via CAP-0071.")])]])].

Definition def_rule : Value := Object [
    ("description", JString "A single policy rule: who (`principals`) may do what (`functions`, `args`) where (`scope`) until when (`not-after-ledger`), with an optional cumulative spend `cap`.");
    ("type", JString "object");
    ("additionalProperties", Bool false);
    ("required", Array (map JString ["name"; "scope"; "principals"]));
    ("properties", Object [
        ("name", Object [
            ("type", JString "string");
            ("pattern", JString RULE_NAME_PATTERN);
            ("maxLength", num MAX_RULE_NAME_BYTES);
            ("description", JString "Human-readable rule name. Capped at MAX_RULE_NAME_BYTES bytes by the compiler; the ASCII pattern makes one character one byte so maxLength encodes that byte cap (a non-ASCII name is schema- rejected — see `docs/schema.md`). Uniqueness across rules is a semantic check (outside this schema).")]);
        ("scope", Object [
            ("$ref", JString "#/$defs/scope")]);
        ("principals", Object [
            ("$ref", JString "#/$defs/principals")]);
        ("functions", Object [
            ("type", JString "array");
            ("minItems", num 1);
            ("uniqueItems", Bool true);
            ("items", Object [
                ("type", JString "string");
                ("minLength", num 1)]);
            ("description", JString "Allowlist of function names. Omit the field for `all functions`; an explicit empty list is rejected as ambiguous, and an explicit null is rejected (it would silently authorize every function).")]);
        ("args", Object [
            ("type", JString "array");
            ("minItems", num 1);
            ("items", Object [
                ("$ref", JString "#/$defs/argConstraint")]);
            ("description", JString "Constraints on call arguments, keyed by index. Omit for unconstrained; an explicit empty list or null is rejected. Argument-index uniqueness is a semantic check (outside this schema).")]);
        ("not-after-ledger", u32_field "Ledger SEQUENCE (not a Unix timestamp) at or after which the rule stops authorizing. Must be non-zero; omit for no expiry." 1);
        ("cap", Object [
            ("$ref", JString "#/$defs/capConstraint")])])].

Definition def_scope : Value := Object [
    ("description", JString "Where a rule applies, tagged by `type`.");
    ("type", JString "object");
    ("oneOf", Array [
        Object [
          ("title", JString "Contract scope");
          ("type", JString "object");
          ("additionalProperties", Bool false);
          ("required", Array (map JString ["type"; "address"]));
          ("properties", Object [
              ("type", Object [
                  ("const", JString "contract")]);
              ("address", contract_address "The contract (C-address) the rule scopes to.")])];
        Object [
          ("title", JString "Self-admin scope");
          ("type", JString "object");
          ("additionalProperties", Bool false);
          ("required", Array (map JString ["type"]));
          ("properties", Object [
              ("type", Object [
                  ("const", JString "self-admin")])]);
          ("description", JString "Administrative operations on the smart account itself (signer/rule changes, upgrades).")]])].

Definition def_principals : Value := Object [
    ("description", JString "Who a rule authorizes, tagged by `type`.");
    ("type", JString "object");
    ("allOf", count_bound_chain "signers" "m" MAX_DOC_SIGNERS);
    ("oneOf", Array [
        Object [
          ("title", JString "All (N-of-N)");
          ("type", JString "object");
          ("additionalProperties", Bool false);
          ("required", Array (map JString ["type"; "signers"]));
          ("properties", Object [
              ("type", Object [
                  ("const", JString "all")]);
              ("signers", Object [
                  ("type", JString "array");
                  ("minItems", num 1);
                  ("uniqueItems", Bool true);
                  ("items", Object [
                      ("type", JString "string")]);
                  ("description", JString "Declared signer ids, all of which must authorize. That each id is declared is a cross-reference check (outside this schema).")])])];
        Object [
          ("title", JString "Threshold (M-of-N)");
          ("type", JString "object");
          ("additionalProperties", Bool false);
          ("required", Array (map JString ["type"; "signers"; "m"]));
          ("properties", Object [
              ("type", Object [
                  ("const", JString "threshold")]);
              ("signers", Object [
                  ("type", JString "array");
                  ("minItems", num 1);
                  ("uniqueItems", Bool true);
                  ("items", Object [
                      ("type", JString "string")]);
                  ("description", JString "Declared signer ids the quorum draws from (the N).")]);
              ("m", u32_field "How many of `signers` must authorize (the M). Must satisfy 1 <= m <= N, where N is this rule's referenced signer count; the upper bound is encoded by the principals `allOf` if/then chain (`docs/schema.md`)." 1)])];
        Object [
          ("title", JString "Self-authenticating (no signature check)");
          ("type", JString "object");
          ("additionalProperties", Bool false);
          ("required", Array (map JString ["type"; "policy"; "install-param-hex"; "ack"]));
          ("properties", Object [
              ("type", Object [
                  ("const", JString "self-authenticating")]);
              ("policy", contract_address "Policy contract (C-address) that authenticates invocations.");
              ("install-param-hex", Object [
                  ("type", JString "string");
                  ("pattern", JString "^([0-9a-fA-F]{2})*$");
                  ("description", JString "Hex-encoded install parameter passed to the policy (may be empty).")]);
              ("ack", Object [
                  ("const", JString ACK_SENTINEL);
                  ("description", JString "Acknowledgement that this rule carries no signature check of its own. Must equal the sentinel verbatim or validation fails.")])])]])].

Definition def_argConstraint : Value := Object [
    ("description", JString "A constraint on one call argument.");
    ("type", JString "object");
    ("additionalProperties", Bool false);
    ("required", Array (map JString ["index"; "pred"]));
    ("properties", Object [
        ("index", u32_field "Zero-based argument index. Unique within a rule's args (a semantic check)." 0);
        ("pred", Object [
            ("$ref", JString "#/$defs/argPred")])])].

Definition def_argPred : Value := Object [
    ("description", JString "A stateless predicate over a single call argument (never a running total across calls), tagged by `type`.");
    ("type", JString "object");
    ("oneOf", Array [
        Object [
          ("title", JString "is-self");
          ("type", JString "object");
          ("additionalProperties", Bool false);
          ("required", Array (map JString ["type"]));
          ("properties", Object [
              ("type", Object [
                  ("const", JString "is-self")])]);
          ("description", JString "The argument must be the smart account's own address.")];
        Object [
          ("title", JString "address-eq");
          ("type", JString "object");
          ("additionalProperties", Bool false);
          ("required", Array (map JString ["type"; "address"]));
          ("properties", Object [
              ("type", Object [
                  ("const", JString "address-eq")]);
              ("address", address "The address (C- or G-address) the argument must equal.")])];
        Object [
          ("title", JString "string-in");
          ("type", JString "object");
          ("additionalProperties", Bool false);
          ("required", Array (map JString ["type"; "values"]));
          ("properties", Object [
              ("type", Object [
                  ("const", JString "string-in")]);
              ("values", Object [
                  ("type", JString "array");
                  ("minItems", num 1);
                  ("uniqueItems", Bool true);
                  ("items", Object [
                      ("type", JString "string")]);
                  ("description", JString "The allowed string values (non-empty, no duplicates).")])])];
        Object [
          ("title", JString "string-prefix");
          ("type", JString "object");
          ("additionalProperties", Bool false);
          ("required", Array (map JString ["type"; "prefix"]));
          ("properties", Object [
              ("type", Object [
                  ("const", JString "string-prefix")]);
              ("prefix", Object [
                  ("type", JString "string");
                  ("description", JString "The required string prefix.")])])];
        Object [
          ("title", JString "u32-eq");
          ("type", JString "object");
          ("additionalProperties", Bool false);
          ("required", Array (map JString ["type"; "value"]));
          ("properties", Object [
              ("type", Object [
                  ("const", JString "u32-eq")]);
              ("value", u32_field "The exact u32 value the argument must equal." 0)])]])].

Definition def_capConstraint : Value := Object [
    ("description", JString "A cumulative spend cap over a rolling window. Lowers to OpenZeppelin's stateful `spending_limit` policy (perch itself is stateless).");
    ("type", JString "object");
    ("additionalProperties", Bool false);
    ("required", Array (map JString ["limit"; "period-ledgers"]));
    ("properties", Object [
        ("token", contract_address "Token contract (C-address) the cap is denominated in. Defaults to the rule's contract scope when omitted; cap/scope agreement is a cross-reference check (outside this schema).");
        ("limit", Object [
            ("type", JString "string");
            ("pattern", JString limit_pattern);
            ("description", JString "Maximum cumulative amount as a decimal string (a string, not a number, because an i128 amount does not fit a JSON number safely). Must be a POSITIVE integer: the pattern rejects `0`, all-zero spellings, a sign-minus, and any value with more significant digits than an i128 can hold. A leading `+` and leading zeros are accepted (the parser accepts them; a single canonical spelling is CANON v2, `docs/schema.md`). Only the EXACT i128 upper bound remains a semantic check in perch-ir's validator.")]);
        ("period-ledgers", u32_field "Rolling-window length in ledgers. Must be non-zero." 1)])].

Definition def_recoveryConfig : Value := Object [
    ("description", JString "Opt-in account-recovery enrollment — who may recover this account and how. Reviewable configuration only, never the recovery attempt itself (see `docs/recovery/spec.md`).");
    ("type", JString "object");
    ("additionalProperties", Bool false);
    ("required", Array (map JString ["profile"; "mode"; "controller"; "replaceable"; "delay-ledgers"; "expiry-ledgers"; "max-cancels"]));
    ("properties", Object [
        ("profile", Object [
            ("enum", Array (map JString ["loss"; "protected"]));
            ("description", JString "`loss`: the owner may reconfigure/remove recovery and cancel any attempt alone, keeping activity while an attempt is authorized. `protected`: reconfiguration/removal/upgrades also need the enrolled condition, and the account freezes while an attempt is authorized.")]);
        ("mode", Object [
            ("$ref", JString "#/$defs/recoveryMode")]);
        ("controller", contract_address "The adopted recovery controller instance (C-address).");
        ("baseline", Object [
            ("$ref", JString "#/$defs/baselineCommitment");
            ("description", JString "Commitment to the baseline document compromise recovery restores. Omit to restrict the account to lost-key recovery.")]);
        ("replaceable", Object [
            ("type", JString "array");
            ("minItems", num 1);
            ("uniqueItems", Bool true);
            ("items", Object [
                ("type", JString "string")]);
            ("description", JString "Declared signer ids a recovery attempt may replace (non-empty, no duplicates). That each id is declared is a cross-reference check (outside this schema).")]);
        ("delay-ledgers", u32_field "Ledgers between an attempt becoming authorized and completable. Must be non-zero." 1);
        ("expiry-ledgers", u32_field "Evidence/completion window and the furthest a reconfiguration or upgrade approval may reach. Must be non-zero." 1);
        ("max-cancels", u32_field "Cap on evidence-based cancellations of authorized attempts. Must be non-zero." 1)])].

Definition def_recoveryMode : Value := Object [
    ("description", JString "How a recovery attempt is authorized, tagged by `type`. `combined` requires BOTH a valid proof and a guardian quorum against the same statement.");
    ("type", JString "object");
    ("allOf", count_bound_chain "guardians" "quorum" MAX_DOC_SIGNERS);
    ("oneOf", Array [
        Object [
          ("title", JString "guardian-only");
          ("type", JString "object");
          ("additionalProperties", Bool false);
          ("required", Array (map JString ["type"; "guardians"; "quorum"]));
          ("properties", Object [
              ("type", Object [
                  ("const", JString "guardian-only")]);
              ("guardians", Object [
                  ("$ref", JString "#/$defs/guardians")]);
              ("quorum", Object [
                  ("$ref", JString "#/$defs/quorum")])])];
        Object [
          ("title", JString "zk-only");
          ("type", JString "object");
          ("additionalProperties", Bool false);
          ("required", Array (map JString ["type"; "adapter"; "circuit-id"; "pool"; "enrollment-id"; "commitment"]));
          ("properties", Object [
              ("type", Object [
                  ("const", JString "zk-only")]);
              ("adapter", Object [
                  ("$ref", JString "#/$defs/zkAdapter")]);
              ("circuit-id", Object [
                  ("$ref", JString "#/$defs/circuitId")]);
              ("pool", Object [
                  ("$ref", JString "#/$defs/zkPool")]);
              ("enrollment-id", Object [
                  ("$ref", JString "#/$defs/enrollmentId")]);
              ("commitment", Object [
                  ("$ref", JString "#/$defs/commitment")])])];
        Object [
          ("title", JString "combined");
          ("type", JString "object");
          ("additionalProperties", Bool false);
          ("required", Array (map JString ["type"; "guardians"; "quorum"; "adapter"; "circuit-id"; "pool"; "enrollment-id"; "commitment"]));
          ("properties", Object [
              ("type", Object [
                  ("const", JString "combined")]);
              ("guardians", Object [
                  ("$ref", JString "#/$defs/guardians")]);
              ("quorum", Object [
                  ("$ref", JString "#/$defs/quorum")]);
              ("adapter", Object [
                  ("$ref", JString "#/$defs/zkAdapter")]);
              ("circuit-id", Object [
                  ("$ref", JString "#/$defs/circuitId")]);
              ("pool", Object [
                  ("$ref", JString "#/$defs/zkPool")]);
              ("enrollment-id", Object [
                  ("$ref", JString "#/$defs/enrollmentId")]);
              ("commitment", Object [
                  ("$ref", JString "#/$defs/commitment")])])]])].

Definition def_guardians : Value := Object [
    ("type", JString "array");
    ("minItems", num 1);
    ("uniqueItems", Bool true);
    ("items", address "A guardian address (C- or G-address).");
    ("description", JString "The guardian set: independent principals (not document signers). Non-empty, no duplicates.")].

Definition def_quorum : Value := u32_field "How many guardians must authorize. Must satisfy 1 <= quorum <= guardian count; the upper bound is encoded by the recoveryMode `allOf` if/then chain, up to MAX_DOC_SIGNERS guardians (`docs/schema.md`)." 1.

Definition def_zkAdapter : Value := contract_address "The ZK adapter the controller calls (C-address).".

Definition def_zkPool : Value := contract_address "The membership pool whose roots proofs must use (C-address).".

Definition def_circuitId : Value := sha256_hex "sha256 of the verifier's verification key (64 lowercase hex).".

Definition def_enrollmentId : Value := sha256_hex "32 random bytes naming the enrolled credential (64 lowercase hex).".

Definition def_commitment : Value := sha256_hex "The credential's inner commitment (64 lowercase hex). That it encodes a CANONICAL BN254 field element (below the scalar modulus) is a semantic range check enforced by perch-ir's validator, outside this schema.".

Definition def_baselineCommitment : Value := Object [
    ("type", JString "object");
    ("additionalProperties", Bool false);
    ("required", Array (map JString ["doc-hash"]));
    ("properties", Object [
        ("doc-hash", sha256_hex "Canonical doc_hash (64 lowercase hex) of the baseline document.")])].

Definition policy_defs : Value := Object [
  ("signerDecl", def_signerDecl);
  ("rule", def_rule);
  ("scope", def_scope);
  ("principals", def_principals);
  ("argConstraint", def_argConstraint);
  ("argPred", def_argPred);
  ("capConstraint", def_capConstraint);
  ("recoveryConfig", def_recoveryConfig);
  ("recoveryMode", def_recoveryMode);
  ("guardians", def_guardians);
  ("quorum", def_quorum);
  ("zkAdapter", def_zkAdapter);
  ("zkPool", def_zkPool);
  ("circuitId", def_circuitId);
  ("enrollmentId", def_enrollmentId);
  ("commitment", def_commitment);
  ("baselineCommitment", def_baselineCommitment)].

Definition example_doc : Value := Object [
    ("version", num 1);
    ("network", JString "Test SDF Network ; September 2015");
    ("signers", Array [
        Object [
          ("id", JString "admin");
          ("verifier", JString "CD4IF75DNQJKCT35PAJAQDPW3K337EK6SJZDMQEVLXAH65K7ZVZMLXYN");
          ("key", JString "045e2a7589b73c19d5341cf12ac0c5f6c45c298d4c20002c794daadafdb83f35f5be23963648d7aaccf5e273803f2fec7a8f0eb4d4845c9b89a972b4a09298b17e")]]);
    ("rules", Array [
        Object [
          ("name", JString "admin");
          ("scope", Object [
              ("type", JString "self-admin")]);
          ("principals", Object [
              ("type", JString "all");
              ("signers", Array (map JString ["admin"]))])]])].

Definition policy_schema : Value := Object [
    ("$schema", JString SCHEMA_DIALECT);
    ("$id", JString SCHEMA_ID);
    ("title", JString "Perch Policy Document");
    ("description", JString "The reviewable artifact at the center of perch: a smart account's signers, rules, scopes, constraints, and optional recovery enrollment. This schema describes document format `version: 1` as perch-ir's strict parser (`from_json`) accepts it and its validator (`validate`) accepts the representable rules. Schema-valid is NOT the same as authorized or canonically encoded: duplicate raw keys, canonical (RFC 8785) encoding, cross-reference and semantic invariants, aggregate resource bounds, signatures, and authorization are all enforced elsewhere — see `docs/schema.md`.");
    ("type", JString "object");
    ("additionalProperties", Bool false);
    ("required", Array (map JString ["version"; "signers"; "rules"]));
    ("properties", Object [
        ("version", Object [
            ("const", num 1);
            ("description", JString "Document format version. The only supported value is 1; perch-ir rejects anything else before looking at the rest of the document. A future wire format gets a new document version and a new schema (versioning policy: `docs/schema.md`).")]);
        ("network", Object [
            ("type", JString "string");
            ("description", JString "Optional network identifier (a passphrase or short name). Omitted from the canonical form when absent; an explicit JSON null is rejected, so leave the key out rather than setting it null.")]);
        ("signers", Object [
            ("type", JString "array");
            ("items", Object [
                ("$ref", JString "#/$defs/signerDecl")]);
            ("maxItems", num MAX_DOC_SIGNERS);
            ("description", JString "Declared signers that rules reference by id. At most MAX_DOC_SIGNERS (the compiler's per-document signer cap). The canonical-byte budget is a separate aggregate bound the schema cannot express — see `docs/schema.md`.")]);
        ("rules", Object [
            ("type", JString "array");
            ("items", Object [
                ("$ref", JString "#/$defs/rule")]);
            ("maxItems", num MAX_DOC_RULES);
            ("description", JString "The policy rules. Order is preserved and significant to the hash. At most MAX_DOC_RULES (the compiler's per-document rule cap).")]);
        ("recovery", Object [
            ("$ref", JString "#/$defs/recoveryConfig");
            ("description", JString "Optional account-recovery enrollment (reviewable configuration, never a recovery attempt). Omitted from the canonical form when absent, so a document that never enrolls recovery hashes exactly as before this field existed.")])]);
    ("$defs", policy_defs);
    ("examples", Array [
        example_doc])].


(** ** What the schema accepts

    The schemas nest twelve deep at most; 16 leaves room. *)

Definition SCHEMA_DEPTH : nat := 16.
Definition schema_accepts (v : Value) : bool :=
  valid policy_schema SCHEMA_DEPTH policy_schema v.
End schema.
