(* ===== verification/SchemaFacts.v ===== *)
(** * What the policy schema accepts

    [rep_doc] says on a parsed document what the schema checks: shapes,
    ranges, distinct lists and the per-document caps.  On every tree the
    strict parser reads, the schema accepts exactly when [rep_doc] holds of
    the document read. *)

From Stdlib Require Import Btauto.
From S2P Require Import Prelude Host Doc Canon Parse ParseFacts RoundTrip Utf8 Validate DocCompiler Regex JsonSchema Schema.
#[local] Open Scope string_scope.
#[local] Open Scope list_scope.
#[local] Open Scope nat_scope.

(** ** Shapes *)

Definition base32_byte (b : N) : bool := in_range 65 90 b || in_range 50 55 b.
Definition hex_byte (b : N) : bool := in_range 48 57 b || in_range 97 102 b || in_range 65 70 b.

(** A strkey but for its checksum. *)
Definition strkey_form (leads : list N) (s : string) : bool :=
  match s with
  | String c r =>
      contains leads (N_of_ascii c) && all_bytes base32_byte r && (String.length r =? 55)
  | EmptyString => false
  end.
Definition contract_form (s : string) : bool := strkey_form [67%N] s.
Definition address_form (s : string) : bool := strkey_form [67; 71]%N s.
Definition hex_form (s : string) : bool :=
  all_bytes hex_byte s && Nat.even (String.length s).
Definition key_form (s : string) : bool :=
  hex_form s && (2 <=? String.length s) && (String.length s <=? 2 * MAX_SIGNER_KEY_LEN).
Definition ascii_form (s : string) : bool := all_bytes (in_range 0 127) s.
Definition limit_form (s : string) : bool := positive_digits 38 s.

(** ** Documents *)

Definition rep_u32 (min n : N) : bool := (min <=? n)%N && (n <=? U32_MAX)%N.
Definition rep_list (l : list string) : bool :=
  negb (bool_decide (l = [])) && bool_decide (NoDup l).

(** The bound a chain puts on [m] beside a list of [len] items. *)
Definition chain_ok (len : nat) (m : N) : bool :=
  (len =? 0) || (MAX_DOC_SIGNERS <? N.of_nat len)%N || (m <=? N.of_nat len)%N.

Definition rep_signer (s : SignerDecl) : bool :=
  match signer_method s with
  | External verifier key => contract_form verifier && key_form key
  | Delegated a => address_form a
  end.
Definition rep_scope (s : Scope) : bool :=
  match s with Scope_Contract a => contract_form a | Scope_SelfAdmin => true end.
Definition rep_principals (p : Principals) : bool :=
  match p with
  | Principals_All signers => rep_list signers
  | Principals_Threshold signers m =>
      rep_list signers && rep_u32 1 m && chain_ok (length signers) m
  | Principals_SelfAuthenticating policy param ack =>
      contract_form policy && hex_form param && String.eqb ack ACK_SENTINEL
  end.
Definition rep_pred (p : ArgPred) : bool :=
  match p with
  | IsSelf | StringPrefix _ => true
  | AddressEq a => address_form a
  | StringIn values => rep_list values
  | U32Eq n => rep_u32 0 n
  end.
Definition rep_arg (a : ArgConstraint) : bool :=
  rep_u32 0 (arg_index a) && rep_pred (arg_pred a).
Definition rep_cap (c : CapConstraint) : bool :=
  match cap_token c with Some t => contract_form t | None => true end &&
  limit_form (cap_limit c) && rep_u32 1 (cap_period_ledgers c).
Definition rep_functions (l : list string) : bool :=
  rep_list l && forallb (λ f, (1 <=? code_points f)%Z) l.
Definition rep_args (l : list ArgConstraint) : bool :=
  negb (bool_decide (l = [])) && forallb rep_arg l.
Definition rep_opt {A} (f : A → bool) (o : option A) : bool :=
  match o with Some x => f x | None => true end.
Definition rep_guardians (g : GuardianSet) : bool :=
  rep_list (guardians g) && forallb address_form (guardians g) && rep_u32 1 (quorum g) &&
  chain_ok (length (guardians g)) (quorum g).
Definition rep_zk (z : ZkFactor) : bool :=
  contract_form (adapter z) && is_sha256_hex (circuit_id z) && contract_form (pool z) &&
  is_sha256_hex (enrollment_id z) && is_sha256_hex (commitment z).
Definition rep_mode (m : RecoveryMode) : bool :=
  match m with
  | GuardianOnly g => rep_guardians g
  | ZkOnly z => rep_zk z
  | Combined g z => rep_guardians g && rep_zk z
  end.
Definition rep_recovery (r : RecoveryConfig) : bool :=
  rep_mode (mode r) && contract_form (controller r) &&
  rep_opt (λ b, is_sha256_hex (baseline_doc_hash b)) (baseline r) &&
  rep_list (replaceable r) && rep_u32 1 (delay_ledgers r) &&
  rep_u32 1 (expiry_ledgers r) && rep_u32 1 (max_cancels r).

Section rep.
Context {H : Host} {CL : CompilerLibs}.

Definition rep_rule (r : Rule) : bool :=
  (ascii_form (rule_name r) && (slen (rule_name r) <=? MAX_RULE_NAME_BYTES)%N) &&
  rep_scope (rule_scope r) && rep_principals (rule_principals r) &&
  rep_opt rep_functions (rule_functions r) && rep_opt rep_args (rule_args r) &&
  rep_opt (rep_u32 1) (rule_not_after_ledger r) && rep_opt rep_cap (rule_cap r).

Definition rep_doc (d : PolicyDoc) : bool :=
  (doc_version d =? 1)%N &&
  (forallb rep_signer (doc_signers d) &&
   (N.of_nat (length (doc_signers d)) <=? MAX_DOC_SIGNERS)%N) &&
  (forallb rep_rule (doc_rules d) && (N.of_nat (length (doc_rules d)) <=? MAX_DOC_RULES)%N) &&
  rep_opt rep_recovery (doc_recovery d).
End rep.

(** ** The patterns *)

Lemma pattern_of p r s : read_pattern p = Some r → pattern_match p s = matches r s.
Proof. unfold pattern_match. by intros ->. Qed.

Lemma class_base32 b : in_class [(65, 90); (50, 55)]%N b = base32_byte b.
Proof. unfold in_class, base32_byte. simpl. by rewrite orb_false_r. Qed.
Lemma class_hex b : in_class [(48, 57); (97, 102); (65, 70)]%N b = hex_byte b.
Proof. unfold in_class, hex_byte. simpl. by rewrite orb_false_r, orb_assoc. Qed.

Lemma length_exactly n m : (m <=? n) && (n <=? m) = (n =? m).
Proof. apply eq_iff_eq_true. rewrite andb_true_iff, !Nat.leb_le, Nat.eqb_eq. lia. Qed.

Lemma strkey_matches R leads s :
  (∀ b, in_class R b = contains leads b) →
  matches (Regex.Seq (Cls R) (Rep (Cls [(65, 90); (50, 55)]%N) 55 (Some 55))) s =
  strkey_form leads s.
Proof.
  intros HR. destruct s as [|c s]; [done|]. rewrite matches_Seq_Cls, matches_Rep_Cls, HR.
  cbn [up_to]. rewrite <- andb_assoc, length_exactly. simpl. rewrite <- andb_assoc.
  do 2 f_equal. apply all_bytes_ext, class_base32.
Qed.

Lemma contains_cons (x : N) l b : contains (x :: l) b = in_range x x b || contains l b.
Proof.
  apply eq_iff_eq_true. unfold in_range.
  rewrite orb_true_iff, andb_true_iff, !contains_true, elem_of_cons, !N.leb_le.
  assert (b = x ↔ (x ≤ b ∧ b ≤ x)%N) by lia. tauto.
Qed.

Lemma contract_pattern s : pattern_match CONTRACT_STRKEY_PATTERN s = contract_form s.
Proof.
  erewrite pattern_of by (vm_compute; reflexivity). apply strkey_matches.
  intros b. by rewrite contains_cons.
Qed.
Lemma address_pattern s : pattern_match ADDRESS_STRKEY_PATTERN s = address_form s.
Proof.
  erewrite pattern_of by (vm_compute; reflexivity). apply strkey_matches.
  intros b. by rewrite !contains_cons.
Qed.
Lemma sha256_pattern s : pattern_match SHA256_HEX_PATTERN s = is_sha256_hex s.
Proof.
  erewrite pattern_of by (vm_compute; reflexivity). rewrite matches_Rep_Cls.
  cbn [up_to]. rewrite <- andb_assoc, length_exactly, andb_comm. unfold is_sha256_hex.
  f_equal. apply all_bytes_ext. intros b. unfold in_class. simpl. by rewrite orb_false_r.
Qed.
Lemma name_pattern s : pattern_match RULE_NAME_PATTERN s = ascii_form s.
Proof.
  erewrite pattern_of by (vm_compute; reflexivity). rewrite matches_Rep_Cls.
  simpl. rewrite !andb_true_r. apply all_bytes_ext. intros b. apply in_class_one.
Qed.
Lemma limit_pattern_form s : pattern_match limit_pattern s = limit_form s.
Proof. erewrite pattern_of by (vm_compute; reflexivity). apply matches_positive. Qed.
Lemma hex_pattern s : pattern_match "^([0-9a-fA-F]{2})*$" s = hex_form s.
Proof.
  erewrite pattern_of by (vm_compute; reflexivity). rewrite matches_Rep_pair.
  simpl. rewrite !andb_true_r. unfold hex_form. f_equal. apply all_bytes_ext, class_hex.
Qed.
Lemma key_pattern s : pattern_match signer_key_pattern s = key_form s.
Proof.
  erewrite pattern_of by (vm_compute; reflexivity). rewrite matches_Rep_pair.
  unfold key_form, hex_form. do 3 f_equal. apply all_bytes_ext, class_hex.
Qed.

(** ** One tree per canonical value *)

Fixpoint tree (c : Cv) : Value :=
  match c with
  | Str s => JString s
  | U32 n => num n
  | Arr items => Array (map tree items)
  | Obj es => Object (map (λ e, (e.1, tree e.2)) es)
  end.

Lemma tree_same c : nums_ok c = true → same (tree c) c.
Proof.
  induction c as [s|n|l IH|es IH] using Cv_nested_ind; simpl; intros Hok.
  - constructor.
  - constructor. apply parse_u_to_string. by apply N.leb_le.
  - constructor. rewrite forallb_forall in Hok. rewrite Forall_forall in IH.
    apply Forall2_fmap_l, Forall_Forall2_diag, Forall_forall. intros c Hc.
    apply IH; [done|]. by apply Hok, list_elem_of_In.
  - eapply same_obj; [done|]. rewrite forallb_forall in Hok. rewrite Forall_forall in IH.
    apply Forall2_fmap_l, Forall_Forall2_diag, Forall_forall. intros e He.
    split; [done|]. simpl. apply IH; [done|]. by apply Hok, list_elem_of_In.
Qed.

Lemma same_nums_ok c : ∀ v, same v c → nums_ok c = true.
Proof.
  induction c as [s|n|l IH|es IH] using Cv_nested_ind; intros v Hs;
    inversion Hs as [|d ? Hd|vs ? Hf|? ms ? Hp Hf]; subst; simpl.
  - done.
  - apply N.leb_le. by eapply parse_uint_bound.
  - rewrite Forall_forall in IH. apply forallb_forall. intros c Hc%list_elem_of_In.
    apply list_elem_of_lookup in Hc as [i Hi].
    destruct (Forall2_lookup_r _ _ _ _ _ Hf Hi) as (w & _ & Hw).
    eapply IH; [|done]. by eapply list_elem_of_lookup_2.
  - rewrite Forall_forall in IH. apply forallb_forall. intros e He%list_elem_of_In.
    apply list_elem_of_lookup in He as [i Hi].
    destruct (Forall2_lookup_r _ _ _ _ _ Hf Hi) as (w & _ & _ & Hw).
    eapply IH; [|done]. by eapply list_elem_of_lookup_2.
Qed.

Lemma valid_tree root n s v c :
  distinct_keys c = true → same v c → valid root n s v = valid root n s (tree c).
Proof.
  intros Hd Hs. eapply valid_same; [done..|]. by eapply tree_same, same_nums_ok.
Qed.

(** ** Numbers and bounds of the schema *)

Lemma number_num n : number_value (u_to_string n) = Some (Z.of_N n, 0%Z).
Proof. eapply number_value_uint, (parse_u_to_string n). lia. Qed.

Lemma num_leb_int a b : num_leb (a, 0%Z) (b, 0%Z) = (a <=? b)%Z.
Proof. unfold num_leb, scale. simpl. by rewrite !Z.mul_1_r. Qed.

Lemma bounded_num below l q :
  bounded below (num l) (Some (q, 0%Z)) =
  if below then (q <=? Z.of_N l)%Z else (Z.of_N l <=? q)%Z.
Proof.
  unfold bounded, num. cbn [number_of]. rewrite number_num.
  by destruct below; rewrite num_leb_int.
Qed.
Lemma leb_of_N a b : (Z.of_N a <=? Z.of_N b)%Z = (a <=? b)%N.
Proof. apply eq_iff_eq_true. rewrite Z.leb_le, N.leb_le. lia. Qed.
Lemma leb_of_nat a b : (Z.of_nat a <=? Z.of_N b)%Z = (N.of_nat a <=? b)%N.
Proof. apply eq_iff_eq_true. rewrite Z.leb_le, N.leb_le. lia. Qed.
Lemma leb_of_nat' a b : (Z.of_N b <=? Z.of_nat a)%Z = (b <=? N.of_nat a)%N.
Proof. apply eq_iff_eq_true. rewrite Z.leb_le, N.leb_le. lia. Qed.

Lemma json_eq_num a b : json_eq (num a) (num b) = (b =? a)%N.
Proof.
  unfold num. cbn [json_eq]. rewrite !number_num. unfold num_eqb. rewrite !num_leb_int.
  apply eq_iff_eq_true. rewrite andb_true_iff, !Z.leb_le, N.eqb_eq. lia.
Qed.
Lemma integer_num n : has_type "integer" (num n) = true.
Proof. unfold num, has_type. by rewrite number_num. Qed.
Lemma number_of_num n : number_of (num n) = Some (Z.of_N n, 0%Z).
Proof. apply number_num. Qed.

Lemma unique_strings l : unique_items (map JString l) = bool_decide (NoDup l).
Proof.
  induction l as [|s l IH]; [done|]. cbn [map unique_items]. rewrite IH. assert (existsb (json_eq (JString s)) (map JString l) = contains l s) as ->.
  { clear IH. unfold contains. induction l as [|t l IH]; [done|].
    change (existsb _ _) with (String.eqb s t || existsb (json_eq (JString s)) (map JString l)).
    rewrite IH. destruct (String.eqb_spec s t) as [->|Hne]; cbn [orb].
    - by rewrite bool_decide_eq_true_2 by set_solver.
    - apply bool_decide_ext. set_solver. }
  unfold contains. apply eq_iff_eq_true.
  rewrite andb_true_iff, negb_true_iff, bool_decide_eq_false, !bool_decide_eq_true, NoDup_cons.
  done.
Qed.

Lemma code_points_ascii s : ascii_form s = true → code_points s = Z.of_N (slen s).
Proof.
  unfold ascii_form, slen. induction s as [|c s IH]; [done|]. cbn [all_bytes code_points String.length].
  intros [Hc Hs]%andb_true_iff. rewrite (IH Hs). unfold in_range in Hc.
  apply andb_true_iff in Hc as [_ Hc%N.leb_le]. unfold cont.
  destruct (N.leb_spec 128 (N_of_ascii c)); [lia|]. simpl (false && _). lia.
Qed.

(** ** Evaluating the schema's definitions *)

Fixpoint count_true (l : list bool) : nat :=
  match l with [] => 0 | b :: l => if b then S (count_true l) else count_true l end.

Lemma one_of_count sub v l :
  kw_one_of sub v (Array l) = (count_true (map (λ s, sub s v) l) =? 1).
Proof.
  unfold kw_one_of. cbn [schema_list]. f_equal. induction l as [|s l IH]; [done|].
  rewrite filter_cons. cbn [map count_true].
  destruct (sub s v) eqn:Hs; [rewrite decide_True by done|rewrite decide_False by done]; simpl; auto.
Qed.

Lemma valid_S root n kws v :
  valid root (S n) (Object kws) v = forallb (keyword (valid root n) root kws v) kws.
Proof. done. Qed.

Section accepts.
Context {H : Host} {CL : CompilerLibs}.
Abbreviation P := policy_schema.

#[local] Arguments num : simpl never.
#[local] Arguments pattern_match : simpl never.
#[local] Arguments bounded : simpl never.
#[local] Arguments kw_one_of : simpl never.
#[local] Arguments kw_ref : simpl never.
#[local] Arguments json_eq : simpl nomatch.

Lemma valid_ref n k d v :
  resolve P k = Some d → kw_ref (valid P n) P v (JString k) = valid P n d v.
Proof. unfold kw_ref. by intros ->. Qed.

Lemma valid_false n v : valid P (S n) (Bool false) v = false.
Proof. done. Qed.
Lemma count_one (b : bool) : ((if b then 1 else 0) =? 1) = b.
Proof. by destruct b. Qed.
Lemma tree_strs l : tree (strs l) = Array (map JString l).
Proof. unfold strs. simpl. by rewrite map_map. Qed.
Lemma one_item (l : list string) : (1 <=? N.of_nat (length l))%N = negb (bool_decide (l = [])).
Proof. destruct l; [done|]. rewrite bool_decide_eq_false_2 by done. apply N.leb_le. simpl. lia. Qed.
Lemma forallb_map_true {A B} (f : B → bool) (g : A → B) l :
  (∀ x, f (g x) = true) → forallb f (map g l) = true.
Proof. intros Hf. induction l; simpl; [done|]. by rewrite Hf. Qed.

#[local] Arguments strs : simpl never.
#[local] Arguments unique_items : simpl never.
#[local] Arguments code_points : simpl never.
#[local] Arguments has_type : simpl nomatch.
Create Rewrite HintDb schema.
#[local] Hint Rewrite tree_strs integer_num number_of_num bounded_num leb_of_N leb_of_nat
  leb_of_nat' contract_pattern address_pattern sha256_pattern name_pattern limit_pattern_form
  hex_pattern key_pattern unique_strings (@length_map string Value) one_item json_eq_num
  count_one andb_true_r : schema.

(** Evaluate one schema; [schema_eval] evaluates the nested ones too and
    replaces the leaf checks by the conditions they stand for. *)
Ltac schema_step :=
  first [rewrite valid_false | rewrite one_of_count | rewrite tree_strs | rewrite valid_S];
  cbn; rewrite ?andb_false_r; cbn.
Ltac schema_eval := repeat schema_step; autorewrite with schema; cbn.
Ltac schema_done := schema_eval; first [done | unfold rep_list; btauto].

Lemma valid_u32 n d min m :
  valid P (S n) (u32_field d min) (num m) = rep_u32 min m.
Proof. unfold u32_field. by schema_eval. Qed.
Lemma valid_contract n d s : valid P (S n) (contract_address d) (JString s) = contract_form s.
Proof. unfold contract_address. by schema_eval. Qed.
Lemma valid_address n d s : valid P (S n) (Schema.address d) (JString s) = address_form s.
Proof. unfold Schema.address. by schema_eval. Qed.
Lemma valid_sha256 n d s : valid P (S n) (sha256_hex d) (JString s) = is_sha256_hex s.
Proof. unfold sha256_hex. by schema_eval. Qed.
#[local] Hint Rewrite valid_u32 valid_contract valid_address valid_sha256 : schema.

Lemma valid_signer n s :
  valid P (S (S (S n))) def_signerDecl (tree (signer_to_cv s)) = rep_signer s.
Proof.
  unfold rep_signer, signer_to_cv, def_signerDecl. destruct (signer_method s) as [v k|a]; by schema_eval.
Qed.
Lemma valid_scope n s :
  valid P (S (S (S n))) def_scope (tree (scope_to_cv s)) = rep_scope s.
Proof. unfold def_scope. destruct s; by schema_eval. Qed.
Lemma valid_strings n l :
  forallb (valid P (S n) (Object [("type", JString "string")])) (map JString l) = true.
Proof. by apply forallb_map_true. Qed.
#[local] Hint Rewrite valid_strings : schema.

Lemma valid_pred n p :
  valid P (S (S (S (S n)))) def_argPred (tree (pred_to_cv p)) = rep_pred p.
Proof. unfold def_argPred. destruct p; by schema_eval. Qed.
Lemma valid_arg n a :
  valid P (S (S (S (S (S (S n)))))) def_argConstraint (tree (arg_constraint_to_cv a)) = rep_arg a.
Proof.
  unfold def_argConstraint, rep_arg. rewrite valid_S. cbn. rewrite valid_u32, valid_S. cbn.
  rewrite (valid_ref _ _ def_argPred), valid_pred by done. by autorewrite with schema.
Qed.
Lemma valid_cap n c :
  valid P (S (S n)) def_capConstraint (tree (cap_to_cv c)) = rep_cap c.
Proof.
  unfold def_capConstraint, rep_cap, cap_to_cv. destruct (cap_token c); simpl tree; schema_done.
Qed.

(** ** The chains *)

Definition chain_item (lf bf : string) (len : nat) : Value := Object [
  ("if", Object [
      ("required", Array (map JString [lf; bf]));
      ("properties", Object [
          (lf, Object [("minItems", num (N.of_nat len)); ("maxItems", num (N.of_nat len))])])]);
  ("then", Object [
      ("properties", Object [(bf, Object [("maximum", num (N.of_nat len))])])])].

Lemma valid_chain_item n lf bf len ms :
  valid P (S (S (S n))) (chain_item lf bf len) (Object ms) =
  (if has_member lf ms && (has_member bf ms && true) &&
      ((match member lf ms with
        | Some u => bounded false (num (N.of_nat len)) (items_of u) &&
                    (bounded true (num (N.of_nat len)) (items_of u) && true)
        | None => true
        end && true) && true)
   then (match member bf ms with
         | Some u => bounded true (num (N.of_nat len)) (number_of u) && true
         | None => true
         end && true) && true
   else true) && (true && true).
Proof. reflexivity. Qed.

Lemma chain_absent n lf bf ms :
  has_member lf ms && has_member bf ms = false →
  kw_all_of (valid P (S (S (S n)))) (Object ms) (count_bound_chain lf bf MAX_DOC_SIGNERS) = true.
Proof.
  intros Hm. apply forallb_map_true. intros len. fold (chain_item lf bf len).
  by rewrite valid_chain_item, !andb_true_r, Hm.
Qed.

Lemma chain_eval n lf bf ms items m :
  member lf ms = Some (Array items) → member bf ms = Some (num m) →
  kw_all_of (valid P (S (S (S n)))) (Object ms) (count_bound_chain lf bf MAX_DOC_SIGNERS) =
  chain_ok (length items) m.
Proof.
  intros Hl Hb.
  assert (∀ len, valid P (S (S (S n))) (chain_item lf bf len) (Object ms) =
    if length items =? len then (m <=? N.of_nat len)%N else true) as Hitem.
  { intros len. rewrite valid_chain_item. unfold has_member. rewrite Hl, Hb. cbn [items_of].
    rewrite number_of_num, !bounded_num, leb_of_N, !andb_true_r.
    assert ((Z.of_N (N.of_nat len) <=? Z.of_nat (length items))%Z &&
            (Z.of_nat (length items) <=? Z.of_N (N.of_nat len))%Z = (length items =? len)) as ->; [|done].
    apply eq_iff_eq_true. rewrite andb_true_iff, !Z.leb_le, Nat.eqb_eq. lia. }
  apply eq_iff_eq_true. unfold kw_all_of, count_bound_chain. cbn [schema_list].
  rewrite forallb_forall. unfold chain_ok.
  rewrite !orb_true_iff, Nat.eqb_eq, N.ltb_lt, N.leb_le. split.
  - intros Hall. destruct (decide (length items = 0 ∨ (MAX_DOC_SIGNERS < N.of_nat (length items))%N));
      [tauto|]. right. unfold MAX_DOC_SIGNERS in *.
    specialize (Hall (chain_item lf bf (length items))). rewrite Hitem, Nat.eqb_refl, N.leb_le in Hall.
    apply Hall, (in_map (chain_item lf bf)), in_seq. lia.
  - intros Hok x (len & <- & Hin%in_seq)%in_map_iff. fold (chain_item lf bf len). rewrite Hitem.
    destruct (Nat.eqb_spec (length items) len); [|done]. apply N.leb_le.
    unfold MAX_DOC_SIGNERS in *. lia.
Qed.

#[local] Arguments kw_all_of : simpl never.
#[local] Arguments count_bound_chain : simpl never.

Lemma valid_principals n p :
  valid P (S (S (S (S n)))) def_principals (tree (principals_to_cv p)) = rep_principals p.
Proof.
  unfold def_principals. destruct p; schema_eval.
  - by rewrite chain_absent.
  - erewrite chain_eval by done. rewrite length_map. unfold rep_list. btauto.
  - rewrite chain_absent by done. rewrite String.eqb_sym. cbn [json_eq]. btauto.
Qed.
Lemma forallb_map_eq {A B} (f : B → bool) (g : A → B) (h : A → bool) l :
  (∀ x, f (g x) = h x) → forallb f (map g l) = forallb h l.
Proof. intros Hf. induction l; simpl; [done|]. by rewrite Hf, IHl. Qed.

Lemma ref_guardians n l :
  kw_ref (valid P (S (S n))) P (Array (map JString l)) (JString "#/$defs/guardians") =
  rep_list l && forallb address_form l.
Proof.
  rewrite (valid_ref _ _ def_guardians) by done. unfold def_guardians. schema_step.
  autorewrite with schema. unfold rep_list. rewrite <- andb_assoc. do 2 f_equal.
  apply forallb_map_eq. intros. apply valid_address.
Qed.
Lemma ref_quorum n q :
  kw_ref (valid P (S (S n))) P (num q) (JString "#/$defs/quorum") = rep_u32 1 q.
Proof. rewrite (valid_ref _ _ def_quorum) by done. apply valid_u32. Qed.
Lemma ref_adapter n s :
  kw_ref (valid P (S (S n))) P (JString s) (JString "#/$defs/zkAdapter") = contract_form s.
Proof. rewrite (valid_ref _ _ def_zkAdapter) by done. apply valid_contract. Qed.
Lemma ref_pool n s :
  kw_ref (valid P (S (S n))) P (JString s) (JString "#/$defs/zkPool") = contract_form s.
Proof. rewrite (valid_ref _ _ def_zkPool) by done. apply valid_contract. Qed.
Lemma ref_circuit n s :
  kw_ref (valid P (S (S n))) P (JString s) (JString "#/$defs/circuitId") = is_sha256_hex s.
Proof. rewrite (valid_ref _ _ def_circuitId) by done. apply valid_sha256. Qed.
Lemma ref_enrollment n s :
  kw_ref (valid P (S (S n))) P (JString s) (JString "#/$defs/enrollmentId") = is_sha256_hex s.
Proof. rewrite (valid_ref _ _ def_enrollmentId) by done. apply valid_sha256. Qed.
Lemma ref_commitment n s :
  kw_ref (valid P (S (S n))) P (JString s) (JString "#/$defs/commitment") = is_sha256_hex s.
Proof. rewrite (valid_ref _ _ def_commitment) by done. apply valid_sha256. Qed.
#[local] Hint Rewrite ref_guardians ref_quorum ref_adapter ref_pool ref_circuit ref_enrollment
  ref_commitment : schema.

Lemma valid_mode n m :
  valid P (S (S (S (S (S n))))) def_recoveryMode (tree (recovery_mode_to_cv m)) = rep_mode m.
Proof.
  unfold def_recoveryMode. destruct m as [g|z|g z]; schema_eval; unfold rep_guardians, rep_zk.
  - erewrite chain_eval by done. rewrite length_map. btauto.
  - rewrite chain_absent by done. btauto.
  - erewrite chain_eval by done. rewrite length_map. btauto.
Qed.

Lemma ref_mode n m :
  kw_ref (valid P (S (S (S (S (S n)))))) P (tree (recovery_mode_to_cv m))
    (JString "#/$defs/recoveryMode") = rep_mode m.
Proof. rewrite (valid_ref _ _ def_recoveryMode) by done. apply valid_mode. Qed.
Lemma ref_baseline n s :
  kw_ref (valid P (S (S n))) P (Object [("doc-hash", JString s)])
    (JString "#/$defs/baselineCommitment") = is_sha256_hex s.
Proof.
  rewrite (valid_ref _ _ def_baselineCommitment) by done. unfold def_baselineCommitment.
  by schema_eval.
Qed.
#[local] Hint Rewrite ref_mode ref_baseline : schema.

#[local] Arguments recovery_mode_to_cv : simpl never.
#[local] Arguments scope_to_cv : simpl never.
#[local] Arguments principals_to_cv : simpl never.

Lemma valid_recovery n r :
  valid P (S (S (S (S (S (S (S n))))))) def_recoveryConfig (tree (recovery_to_cv r)) =
  rep_recovery r.
Proof.
  unfold def_recoveryConfig, rep_recovery, recovery_to_cv.
  destruct (baseline r), (profile r); schema_done.
Qed.

#[local] Arguments cap_to_cv : simpl never.
#[local] Arguments arg_constraint_to_cv : simpl never.
#[local] Arguments MAX_RULE_NAME_BYTES : simpl never.

Lemma valid_names n l :
  forallb (valid P (S n) (Object [("type", JString "string"); ("minLength", num 1)]))
    (map JString l) = forallb (λ f, (1 <=? code_points f)%Z) l.
Proof. apply forallb_map_eq. intros f. by schema_eval. Qed.
Lemma name_cap s :
  ascii_form s && (code_points s <=? Z.of_N MAX_RULE_NAME_BYTES)%Z =
  ascii_form s && (slen s <=? MAX_RULE_NAME_BYTES)%N.
Proof.
  destruct (ascii_form s) eqn:Ha; [|done]. cbn [andb].
  by rewrite (code_points_ascii _ Ha), leb_of_N.
Qed.
Lemma ref_scope n x :
  kw_ref (valid P (S (S (S n)))) P (tree (scope_to_cv x)) (JString "#/$defs/scope") = rep_scope x.
Proof. rewrite (valid_ref _ _ def_scope) by done. apply valid_scope. Qed.
Lemma ref_principals n x :
  kw_ref (valid P (S (S (S (S n))))) P (tree (principals_to_cv x)) (JString "#/$defs/principals") =
  rep_principals x.
Proof. rewrite (valid_ref _ _ def_principals) by done. apply valid_principals. Qed.
Lemma ref_cap n x :
  kw_ref (valid P (S (S n))) P (tree (cap_to_cv x)) (JString "#/$defs/capConstraint") = rep_cap x.
Proof. rewrite (valid_ref _ _ def_capConstraint) by done. apply valid_cap. Qed.
Lemma valid_args n l :
  forallb (valid P (S (S (S (S (S (S (S n))))))) (Object [("$ref", JString "#/$defs/argConstraint")]))
    (map tree (map arg_constraint_to_cv l)) = forallb rep_arg l.
Proof.
  rewrite map_map. apply forallb_map_eq. intros a. rewrite valid_S. cbn.
  rewrite (valid_ref _ _ def_argConstraint), valid_arg by done. apply andb_true_r.
Qed.
Lemma one_arg (l : list ArgConstraint) :
  (1 <=? N.of_nat (length (map tree (map arg_constraint_to_cv l))))%N =
  negb (bool_decide (l = [])).
Proof. destruct l; [done|]. rewrite bool_decide_eq_false_2 by done. apply N.leb_le. simpl. lia. Qed.
#[local] Hint Rewrite valid_names name_cap ref_scope ref_principals ref_cap valid_args one_arg : schema.

Lemma valid_rule n r :
  valid P (S (S (S (S (S (S (S (S (S n))))))))) def_rule (tree (rule_to_cv r)) = rep_rule r.
Proof.
  unfold def_rule, rep_rule, rule_to_cv.
  destruct (rule_functions r), (rule_args r), (rule_not_after_ledger r), (rule_cap r);
    schema_eval; unfold rep_functions, rep_args, rep_list; btauto.
Qed.

Lemma valid_signers n l :
  forallb (valid P (S (S (S (S n)))) (Object [("$ref", JString "#/$defs/signerDecl")]))
    (map tree (map signer_to_cv l)) = forallb rep_signer l.
Proof.
  rewrite map_map. apply forallb_map_eq. intros x. rewrite valid_S. cbn -[tree].
  rewrite (valid_ref _ _ def_signerDecl), valid_signer by done. apply andb_true_r.
Qed.
Lemma valid_rules n l :
  forallb (valid P (S (S (S (S (S (S (S (S (S (S n))))))))))
      (Object [("$ref", JString "#/$defs/rule")]))
    (map tree (map rule_to_cv l)) = forallb rep_rule l.
Proof.
  rewrite map_map. apply forallb_map_eq. intros x. rewrite valid_S. cbn -[tree].
  rewrite (valid_ref _ _ def_rule), valid_rule by done. apply andb_true_r.
Qed.
Lemma ref_recovery n r :
  kw_ref (valid P (S (S (S (S (S (S (S n)))))))) P (tree (recovery_to_cv r))
    (JString "#/$defs/recoveryConfig") = rep_recovery r.
Proof. rewrite (valid_ref _ _ def_recoveryConfig) by done. apply valid_recovery. Qed.
#[local] Hint Rewrite valid_signers valid_rules ref_recovery (@length_map Cv Value)
  (@length_map SignerDecl Cv) (@length_map Rule Cv) : schema.
#[local] Arguments recovery_to_cv : simpl never.
#[local] Arguments policy_defs : simpl never.
#[local] Arguments example_doc : simpl never.

Lemma accepts_tree d : schema_accepts (tree (doc_to_cv d)) = rep_doc d.
Proof.
  unfold schema_accepts, SCHEMA_DEPTH, rep_doc, doc_to_cv. unfold policy_schema at 2.
  destruct (doc_network d), (doc_recovery d); schema_eval; btauto.
Qed.

(** ** Trees the parser reads *)

Lemma strs_distinct l : distinct_keys (strs l) = true.
Proof. unfold strs. simpl. by apply forallb_map_true. Qed.
Lemma scope_distinct x : distinct_keys (scope_to_cv x) = true.
Proof. by destruct x. Qed.
Lemma pred_distinct x : distinct_keys (pred_to_cv x) = true.
Proof. destruct x; cbn; rewrite ?strs_distinct; done. Qed.
Lemma arg_distinct x : distinct_keys (arg_constraint_to_cv x) = true.
Proof. unfold arg_constraint_to_cv. cbn. by rewrite pred_distinct. Qed.
Lemma principals_distinct x : distinct_keys (principals_to_cv x) = true.
Proof. unfold principals_to_cv. destruct x; cbn; rewrite ?strs_distinct; done. Qed.
Lemma cap_distinct x : distinct_keys (cap_to_cv x) = true.
Proof. unfold cap_to_cv. by destruct (cap_token x). Qed.
Lemma signer_distinct x : distinct_keys (signer_to_cv x) = true.
Proof. unfold signer_to_cv. by destruct (signer_method x). Qed.
Lemma mode_distinct x : distinct_keys (recovery_mode_to_cv x) = true.
Proof. unfold recovery_mode_to_cv. destruct x; cbn; rewrite ?strs_distinct; done. Qed.
Lemma recovery_distinct x : distinct_keys (recovery_to_cv x) = true.
Proof.
  unfold recovery_to_cv. destruct (baseline x); cbn; by rewrite mode_distinct, strs_distinct.
Qed.
Lemma rule_distinct x : distinct_keys (rule_to_cv x) = true.
Proof.
  unfold rule_to_cv.
  destruct (rule_functions x), (rule_args x), (rule_not_after_ledger x), (rule_cap x); cbn;
    by rewrite scope_distinct, principals_distinct, ?strs_distinct, ?cap_distinct,
      ?(forallb_map_true _ _ _ arg_distinct).
Qed.
Lemma doc_distinct x : distinct_keys (doc_to_cv x) = true.
Proof.
  unfold doc_to_cv. destruct (doc_network x), (doc_recovery x); cbn;
    by rewrite (forallb_map_true _ _ _ signer_distinct), (forallb_map_true _ _ _ rule_distinct),
      ?recovery_distinct.
Qed.

(** On a tree the parser reads, the schema's verdict is [rep_doc]. *)
Lemma parsed_accepts v d : doc_from_value v = Ok d → schema_accepts v = rep_doc d.
Proof.
  intros Hs. apply codec in Hs. rewrite <- accepts_tree. unfold schema_accepts.
  by eapply valid_tree, Hs; apply doc_distinct.
Qed.
End accepts.
