(* ===== verification/SchemaSound.v ===== *)
(** * Schema-valid documents parse

    The converse of [SchemaFacts]: a tree the schema accepts is one the strict
    parser reads, provided it is [plain], that is, no object repeats a key (a
    validator never sees the duplicates, the parser refuses them) and numbers
    are written as bare digits (the schema's integers include spellings such
    as [1.0] and [1e0]).  With [SchemaFacts] this makes the schema's verdict
    exact; the last part relates it to the validator and the compiler. *)

From S2P Require Import Prelude Host Doc Canon Parse ParseFacts RoundTrip Validate DocCompiler DocCompilerFacts Regex JsonSchema Schema SchemaFacts.
#[local] Open Scope string_scope.
#[local] Open Scope list_scope.
#[local] Open Scope nat_scope.

Fixpoint plain (v : Value) : bool :=
  match v with
  | Null | Bool _ | JString _ => true
  | Number d i => i && all_digits d && negb (String.eqb d "")
  | Array l => forallb plain l
  | Object ms => bool_decide (NoDup ms.*1) && forallb (λ m, plain m.2) ms
  end.

Definition reads {A} (f : Value → parsed A) (v : Value) : Prop := ∃ x, f v = Ok x.

(** ** Running the parser *)

Section parser.
Context (ms : Members).
Hypothesis keys : NoDup ms.*1.

Lemma field_member k : field ms k = Ok (member k ms).
Proof.
  destruct (member k ms) as [v|] eqn:Hm.
  - apply field_NoDup; [done|]. by apply member_Some.
  - by apply field_None, member_None.
Qed.

Lemma req_reads {A B} (f : Value → parsed A) k (K : A → parsed B) u :
  member k ms = Some u → reads f u → (∀ x, f u = Ok x → ∃ y, K x = Ok y) →
  ∃ y, (let* v := req_field ms k in let* x := f v in K x) = Ok y.
Proof.
  intros Hm [x Hx] HK. unfold req_field. rewrite field_member, Hm. simpl. rewrite Hx. simpl. eauto.
Qed.

Lemma opt_reads {A B} (f : Value → parsed A) k (K : option A → parsed B) :
  (∀ x, f Null ≠ Ok x) → (∀ u, member k ms = Some u → reads f u) → (∀ o, ∃ y, K o = Ok y) →
  ∃ y, (let* o := opt_with f ms k in K o) = Ok y.
Proof.
  intros Hnull Hf HK. unfold opt_with, opt_field. rewrite field_member.
  destruct (member k ms) as [u|]; [|apply HK].
  destruct (Hf u eq_refl) as [x Hx].
  destruct u; [by destruct (Hnull x)|..]; simpl; rewrite Hx; simpl; apply HK.
Qed.

Lemma deny_reads {B} declared known (K : unit → parsed B) :
  (∀ k, k ∈ ms.*1 → k ∈ declared) → forallb (contains known) declared = true →
  (∃ y, K tt = Ok y) → ∃ y, rbind (deny_unknown ms known) K = Ok y.
Proof.
  intros Hk Hall [y Hy]. exists y. apply rbind_Ok. exists tt. rewrite (deny_unknown_Ok _ _ tt).
  split; [|done]. rewrite forallb_forall in Hall. intros k Hin%Hk%list_elem_of_In.
  by apply contains_true, Hall.
Qed.

Lemma tag_reads {B} ctx t (K : string → parsed B) :
  member "type" ms = Some (JString t) → (∃ y, K t = Ok y) →
  ∃ y, (let* t := tag ms ctx in K t) = Ok y.
Proof.
  intros Hm HK. unfold tag, req_field. rewrite field_member, Hm. done.
Qed.
End parser.

Lemma bind_reads {A B} (c : parsed A) (K : A → parsed B) :
  (∃ x, c = Ok x) → (∀ x, ∃ y, K x = Ok y) → ∃ y, rbind c K = Ok y.
Proof. intros [x ->] HK. apply HK. Qed.

Lemma array_reads {A} (f : Value → parsed A) ctx l :
  (∀ u, u ∈ l → reads f u) → reads (array_of f ctx) (Array l).
Proof.
  intros Hf. unfold reads, array_of. simpl. induction l as [|u l IH]; [by exists []|].
  destruct (Hf u) as [x Hx]; [set_solver|]. destruct IH as [xs Hxs]; [set_solver|].
  exists (x :: xs). simpl. by rewrite Hx, Hxs.
Qed.

(** ** What a valid tree satisfies *)

Lemma plain_object ms : plain (Object ms) = true →
  NoDup ms.*1 ∧ ∀ k u, member k ms = Some u → plain u = true.
Proof.
  simpl. rewrite andb_true_iff, bool_decide_eq_true, forallb_forall. intros [? Hp].
  split; [done|]. intros k u Hm%member_Some%list_elem_of_In. by apply (Hp (k, u)).
Qed.

Section sound.
Context {H : Host} {CL : CompilerLibs}.
Abbreviation P := policy_schema.

Lemma valid_keyword n kws v k a :
  member k kws = Some a → valid P (S n) (Object kws) v = true →
  keyword (valid P n) P kws v (k, a) = true.
Proof.
  rewrite valid_S, forallb_forall. intros Hm%member_Some%list_elem_of_In Hall. by apply Hall.
Qed.

(** A closed object schema. *)
Lemma object_valid n kws props req v :
  valid P (S n) (Object kws) v = true →
  member "type" kws = Some (JString "object") →
  member "additionalProperties" kws = Some (Bool false) →
  member "required" kws = Some (Array (map JString req)) →
  member "properties" kws = Some (Object props) →
  ∃ ms, v = Object ms ∧ (∀ k, k ∈ ms.*1 → k ∈ props.*1) ∧
    (∀ k, contains req k = true → ∃ u, member k ms = Some u) ∧
    (∀ k s u, member k props = Some s → member k ms = Some u → valid P n s u = true).
Proof.
  intros Hv Ht Ha Hr Hp.
  pose proof (valid_keyword _ _ _ _ _ Ht Hv) as Kt. pose proof (valid_keyword _ _ _ _ _ Ha Hv) as Ka.
  pose proof (valid_keyword _ _ _ _ _ Hr Hv) as Kr. pose proof (valid_keyword _ _ _ _ _ Hp Hv) as Kp.
  clear Hv. destruct v as [| | | | |ms]; try discriminate Kt.
  exists ms. split; [done|]. cbn in Ka, Kr, Kp.
  unfold kw_additional, kw_required, kw_properties, on_object in *. rewrite forallb_forall in Ka, Kr, Kp.
  split; [|split].
  - intros k ([k' u] & -> & Hin)%list_elem_of_fmap. apply list_elem_of_In in Hin.
    specialize (Ka _ Hin). rewrite Hp in Ka. simpl in Ka.
    assert (valid P n (Bool false) u = false) as Hf by by destruct n. rewrite Hf, orb_false_r in Ka.
    unfold has_member in Ka. destruct (member k' props) as [s|] eqn:Hm; [|done].
    apply member_Some in Hm. apply list_elem_of_fmap. by exists (k', s).
  - intros k Hk%contains_true. specialize (Kr (JString k)). cbn in Kr.
    unfold has_member in Kr. destruct (member k ms) as [u|]; [by exists u|].
    discriminate Kr. by apply in_map, list_elem_of_In.
  - intros k s u Hs Hm. apply member_Some, list_elem_of_In in Hs. specialize (Kp _ Hs).
    simpl in Kp. by rewrite Hm in Kp.
Qed.

(** One of the alternatives holds. *)
Lemma one_of_valid n kws alts v :
  valid P (S n) (Object kws) v = true → member "oneOf" kws = Some (Array alts) →
  ∃ s, s ∈ alts ∧ valid P n s v = true.
Proof.
  intros Hv Hm. pose proof (valid_keyword _ _ _ _ _ Hm Hv) as Ko. clear Hv.
  change (kw_one_of (valid P n) v (Array alts) = true) in Ko. unfold kw_one_of in Ko.
  cbn [schema_list] in Ko. destruct (filter _ alts) as [|s l] eqn:Hf; [done|].
  assert (s ∈ filter (λ s, valid P n s v = true) alts) as Hs by (rewrite Hf; set_solver).
  apply list_elem_of_filter in Hs as [? ?]. eauto.
Qed.

Lemma ref_valid n kws k d v :
  valid P (S n) (Object kws) v = true →
  member "$ref" kws = Some (JString k) → resolve P k = Some d → valid P n d v = true.
Proof.
  intros Hv Hm Hr. pose proof (valid_keyword _ _ _ _ _ Hm Hv) as Kr.
  rewrite <- (valid_ref _ _ _ _ Hr). exact Kr.
Qed.

(** ** Leaves *)

#[local] Opaque valid.

Lemma string_reads n kws u ctx :
  valid P (S n) (Object kws) u = true → member "type" kws = Some (JString "string") →
  reads (as_str ctx) u.
Proof.
  intros Hv Hm. pose proof (valid_keyword _ _ _ _ _ Hm Hv) as Kt.
  destruct u as [| | |s| |]; try discriminate Kt. by exists s.
Qed.

Lemma const_valid n kws t u :
  valid P (S n) (Object kws) u = true → member "const" kws = Some (JString t) → u = JString t.
Proof.
  intros Hv Hm. pose proof (valid_keyword _ _ _ _ _ Hm Hv) as Kc.
  change (json_eq (JString t) u = true) in Kc.
  destruct u as [| | |s| |]; try discriminate Kc. by apply String.eqb_eq in Kc as ->.
Qed.

Lemma const_reads n kws t u ctx :
  valid P (S n) (Object kws) u = true → member "const" kws = Some (JString t) →
  reads (as_str ctx) u.
Proof. intros Hv Hm. rewrite (const_valid _ _ _ _ Hv Hm). by exists t. Qed.

Lemma array_valid n kws s u :
  member "type" kws = Some (JString "array") → member "items" kws = Some s →
  valid P (S n) (Object kws) u = true →
  ∃ l, u = Array l ∧ ∀ x, x ∈ l → valid P n s x = true.
Proof.
  intros Ht Hi Hv. pose proof (valid_keyword _ _ _ _ _ Ht Hv) as Kt.
  pose proof (valid_keyword _ _ _ _ _ Hi Hv) as Ki.
  destruct u as [| | | |l|]; try discriminate Kt. exists l. split; [done|].
  change (forallb (valid P n s) l = true) in Ki. rewrite forallb_forall in Ki.
  intros x Hx%list_elem_of_In. auto.
Qed.

Lemma strings_reads n kws kws' u c c' :
  valid P (S (S n)) (Object kws) u = true →
  member "type" kws = Some (JString "array") → member "items" kws = Some (Object kws') →
  member "type" kws' = Some (JString "string") → reads (array_of (as_str c) c') u.
Proof.
  intros Hv Ht Hi Hs. destruct (array_valid _ _ _ _ Ht Hi Hv) as (l & -> & Hl). apply array_reads.
  intros x Hx. by eapply string_reads; [apply Hl|].
Qed.

Lemma items_reads {A} (f : Value → parsed A) n kws s v c :
  valid P (S n) (Object kws) v = true → plain v = true →
  member "type" kws = Some (JString "array") → member "items" kws = Some s →
  (∀ u, valid P n s u = true → plain u = true → reads f u) →
  reads (array_of f c) v.
Proof.
  intros Hv Hp Ht Hi Hf. destruct (array_valid _ _ _ _ Ht Hi Hv) as (l & -> & Hl).
  apply array_reads. intros u Hin. apply Hf; [auto|].
  simpl in Hp. rewrite forallb_forall in Hp. by apply Hp, list_elem_of_In.
Qed.

Lemma parse_digits_all s acc :
  all_digits s = true → ∃ m, (acc ≤ m)%N ∧ ∀ b, (m ≤ b)%N → parse_digits b acc s = Some m.
Proof.
  revert acc. induction s as [|c s IH]; intros acc; simpl.
  - intros _. exists acc. done.
  - intros [Hc Hs]%andb_true_iff. unfold is_digit in Hc. apply bool_decide_eq_true in Hc as [d Hd].
    destruct (IH (acc * 10 + d)%N Hs) as (m & Hle & Hm). exists m. split; [lia|].
    intros b Hb. rewrite Hd, (proj2 (N.leb_le _ _)) by lia. auto.
Qed.

Lemma parse_uint_all s :
  all_digits s = true → s ≠ "" → ∃ m, ∀ b, (m ≤ b)%N → parse_uint b s = Some m.
Proof.
  intros Hd Hne. destruct (parse_digits_all s 0 Hd) as (m & _ & Hm). exists m. intros b Hb.
  destruct s as [|c s]; [done|]. unfold parse_uint. destruct (Ascii.eqb_spec c "+") as [->|]; auto.
  discriminate Hd.
Qed.

Lemma u32_reads n d min u ctx :
  valid P (S n) (u32_field d min) u = true → plain u = true → reads (as_u32 ctx) u.
Proof.
  intros Hv Hp. unfold u32_field in Hv.
  unshelve epose proof (valid_keyword _ _ _ "type" _ _ Hv) as Kt; [..|reflexivity|].
  unshelve epose proof (valid_keyword _ _ _ "maximum" _ _ Hv) as Km; [..|reflexivity|]. clear Hv.
  destruct u as [| |s i| | |]; try discriminate Kt. simpl in Hp.
  apply andb_true_iff in Hp as [[Hi Hd]%andb_true_iff Hne%negb_true_iff%String.eqb_neq]. destruct i; [|done].
  destruct (parse_uint_all s Hd Hne) as [m Hm].
  change (bounded true (num U32_MAX) (number_value s) = true) in Km.
  rewrite (number_value_uint _ _ _ (Hm m (N.le_refl m))), bounded_num in Km.
  apply Z.leb_le in Km. exists m. unfold as_u32. rewrite (Hm U32_MAX) by lia. done.
Qed.

(** ** Objects *)

(** Open a closed object schema: its members [ms], with [keys] distinct,
    [sub] the value schema of each member, [pl] plainness of the values. *)
Ltac open_object Hv Hp :=
  let req := fresh "req" in
  destruct (object_valid _ _ _ _ _ Hv eq_refl eq_refl eq_refl eq_refl)
    as (ms & -> & known & req & sub);
  destruct (plain_object _ Hp) as [keys pl]; clear Hv Hp;
  repeat match type of req with
  | ∀ k, contains ?r k = true → _ =>
      lazymatch r with
      | [] => clear req
      | ?x :: ?l =>
          let u := fresh "u" in let Hu := fresh "Hu" in let Hs := fresh "Hs" in
          destruct (req x eq_refl) as [u Hu];
          pose proof (sub x _ u eq_refl Hu) as Hs;
          assert (∀ k, contains l k = true → ∃ u, member k ms = Some u) as req'
            by (intros ? Hk; apply req, contains_true, elem_of_cons; right; by apply contains_true);
          clear req; rename req' into req
      end
  end.


(** Take the alternatives of a [oneOf] one by one. *)
Ltac open_alternatives Hv Hp :=
  let s := fresh "s" in let Hs := fresh "Hs" in let Hv' := fresh "Hv" in
  destruct (one_of_valid _ _ _ _ Hv eq_refl) as (s & Hs & Hv'); clear Hv;
  repeat (apply elem_of_cons in Hs as [->|Hs]); [..|by apply not_elem_of_nil in Hs];
  open_object Hv' Hp;
  match goal with Hu : member "type" _ = Some ?u, Ht : valid _ _ _ ?u = true |- _ =>
    pose proof (const_valid _ _ _ _ Ht eq_refl); subst u; clear Ht end.

Ltac by_plain :=
  match goal with K : ∀ k u, _ → plain u = true |- _ => eapply K; eassumption end.

(** The value under a member is read by its parser. *)
Ltac leaf_by Hs :=
  lazymatch type of Hs with
  | context [u32_field] => eapply (u32_reads _ _ _ _ _ Hs); by_plain
  | _ =>
      first
        [ exact (string_reads _ _ _ _ Hs eq_refl)
        | exact (const_reads _ _ _ _ _ Hs eq_refl)
        | exact (strings_reads _ _ _ _ _ _ Hs eq_refl eq_refl eq_refl) ]
  end.
Ltac leaf_ref Hs d :=
  let Hr := fresh "Hr" in
  pose proof (ref_valid _ _ _ d _ Hs eq_refl eq_refl) as Hr; unfold d in Hr; leaf_by Hr.
Ltac read_leaf :=
  lazymatch goal with Hs : valid _ _ ?s ?u = true |- reads _ ?u =>
    lazymatch s with
    | context ["$ref"] =>
        lazymatch s with
        | context ["#/$defs/guardians"] => leaf_ref Hs def_guardians
        | context ["#/$defs/quorum"] => leaf_ref Hs def_quorum
        | context ["#/$defs/zkAdapter"] => leaf_ref Hs def_zkAdapter
        | context ["#/$defs/circuitId"] => leaf_ref Hs def_circuitId
        | context ["#/$defs/zkPool"] => leaf_ref Hs def_zkPool
        | context ["#/$defs/enrollmentId"] => leaf_ref Hs def_enrollmentId
        | context ["#/$defs/commitment"] => leaf_ref Hs def_commitment
        end
    | _ => leaf_by Hs
    end
  end.
Ltac follow_ref := eapply ref_valid; [eassumption|reflexivity|reflexivity].
Ltac read_step :=
  match goal with
  | |- ∃ y, rbind (deny_unknown _ _) _ = Ok y =>
      eapply deny_reads;
      [match goal with K : ∀ k, k ∈ _ → _ |- _ => exact K end|reflexivity|]
  | |- ∃ y, rbind (tag _ _) _ = Ok y =>
      eapply tag_reads; [eassumption|eassumption|cbn]
  | |- ∃ y, rbind (req_field _ _) _ = Ok y =>
      eapply req_reads; [eassumption|eassumption|try read_leaf|intros ? _]
  | |- ∃ y, Ok _ = Ok y => by eexists
  end.

Lemma scope_reads n v :
  valid P (S (S (S n))) def_scope v = true → plain v = true → reads scope_from_value v.
Proof.
  intros Hv Hp. open_alternatives Hv Hp; unfold reads, scope_from_value; cbn; repeat read_step.
Qed.
Lemma pred_reads n v :
  valid P (S (S (S (S n)))) def_argPred v = true → plain v = true → reads pred_from_value v.
Proof.
  intros Hv Hp. open_alternatives Hv Hp; unfold reads, pred_from_value; cbn; repeat read_step.
Qed.

Lemma principals_reads n v :
  valid P (S (S (S (S n)))) def_principals v = true → plain v = true →
  reads principals_from_value v.
Proof.
  intros Hv Hp. open_alternatives Hv Hp; unfold reads, principals_from_value; cbn; repeat read_step.
Qed.

Lemma arg_reads n v :
  valid P (S (S (S (S (S (S n)))))) def_argConstraint v = true → plain v = true →
  reads arg_constraint_from_value v.
Proof.
  intros Hv Hp. open_object Hv Hp. unfold reads, arg_constraint_from_value. cbn. repeat read_step.
  eapply pred_reads; [|by_plain]. by follow_ref.
Qed.

(** An optional member: absent, or valid under its schema. *)
Ltac read_opt :=
  eapply opt_reads; [eassumption|done| |intros ?];
  [let u := fresh "u" in let Hu := fresh "Hu" in let Hs := fresh "Hs" in
   intros u Hu;
   match goal with
   | Hu : member ?k _ = Some u, K : ∀ _ _ _, _ = _ → _ = _ → valid _ _ _ _ = true |- _ =>
       pose proof (K k _ u eq_refl Hu) as Hs
   end;
   try read_leaf|].

Lemma cap_reads n v :
  valid P (S (S n)) def_capConstraint v = true → plain v = true → reads cap_from_value v.
Proof.
  intros Hv Hp. open_object Hv Hp. unfold reads, cap_from_value. cbn. read_step. read_opt.
  repeat read_step.
Qed.

Lemma signer_reads n v :
  valid P (S (S (S n))) def_signerDecl v = true → plain v = true → reads signer_from_value v.
Proof.
  intros Hv Hp. destruct (one_of_valid _ _ _ _ Hv eq_refl) as (s & Hs & Hv'). clear Hv.
  repeat (apply elem_of_cons in Hs as [->|Hs]); [..|by apply not_elem_of_nil in Hs];
    open_object Hv' Hp; unfold reads, signer_from_value; cbn; rewrite (field_member _ keys).
  - rewrite (proj2 (member_None "address" ms)).
    + rewrite rbind_ok_l. apply bind_reads; [|intros ?]; repeat read_step.
    + intros Hk%known. cbn in Hk. set_solver.
  - rewrite Hu0, rbind_ok_l. apply bind_reads; [|intros ?]; repeat read_step.
Qed.

Lemma rule_reads n v :
  valid P (S (S (S (S (S (S (S (S (S n))))))))) def_rule v = true → plain v = true →
  reads rule_from_value v.
Proof.
  intros Hv Hp. open_object Hv Hp. unfold reads, rule_from_value. cbn.
  read_step. read_step. read_step. { eapply scope_reads; [by follow_ref|by_plain]. }
  read_step. { eapply principals_reads; [by follow_ref|by_plain]. }
  read_opt. read_opt.
  { eapply items_reads; [eassumption|by_plain|reflexivity|reflexivity|].
    intros w Hw ?. eapply arg_reads; [by follow_ref|done]. }
  read_opt. read_opt. { eapply cap_reads; [by follow_ref|by_plain]. }
  read_step.
Qed.

Lemma mode_reads n v :
  valid P (S (S (S (S (S n))))) def_recoveryMode v = true → plain v = true →
  reads recovery_mode_from_value v.
Proof.
  intros Hv Hp. open_alternatives Hv Hp; unfold reads, recovery_mode_from_value; cbn;
    repeat first
      [ read_step
      | match goal with
        | |- ∃ y, rbind (guardian_set_from_fields _) _ = Ok y =>
            apply bind_reads; [unfold guardian_set_from_fields|intros ?]
        | |- ∃ y, rbind (zk_factor_from_fields _) _ = Ok y =>
            apply bind_reads; [unfold zk_factor_from_fields|intros ?]
        end ].
Qed.

Lemma profile_reads n kws v :
  valid P (S n) (Object kws) v = true →
  member "enum" kws = Some (Array (map JString ["loss"; "protected"])) →
  reads recovery_profile_from_value v.
Proof.
  intros Hv Hm. pose proof (valid_keyword _ _ _ _ _ Hm Hv) as Ke.
  change (json_eq (JString "loss") v || (json_eq (JString "protected") v || false) = true) in Ke.
  destruct v as [| | |s| |]; try discriminate Ke. unfold reads, recovery_profile_from_value.
  cbn [as_str rbind]. cbn [json_eq] in Ke. rewrite !(String.eqb_sym _ s) in Ke.
  destruct (String.eqb s "loss"), (String.eqb s "protected"); try discriminate Ke; by eexists.
Qed.

Lemma baseline_reads n v :
  valid P (S (S n)) def_baselineCommitment v = true → plain v = true →
  reads baseline_commitment_from_value v.
Proof.
  intros Hv Hp. open_object Hv Hp. unfold reads, baseline_commitment_from_value. cbn.
  repeat read_step.
Qed.

Lemma recovery_reads n v :
  valid P (S (S (S (S (S (S (S n))))))) def_recoveryConfig v = true → plain v = true →
  reads recovery_from_value v.
Proof.
  intros Hv Hp. open_object Hv Hp. unfold reads, recovery_from_value. cbn.
  read_step. read_step. { eapply profile_reads; [eassumption|reflexivity]. }
  read_step. { eapply mode_reads; [by follow_ref|by_plain]. }
  read_step. read_opt. { eapply baseline_reads; [by follow_ref|by_plain]. }
  repeat read_step.
Qed.

Lemma version_reads n kws u ctx :
  valid P (S n) (Object kws) u = true → plain u = true → member "const" kws = Some (num 1) →
  as_u32 ctx u = Ok 1%N.
Proof.
  intros Hv Hp Hm. pose proof (valid_keyword _ _ _ _ _ Hm Hv) as Kc. clear Hv.
  change (json_eq (num 1) u = true) in Kc. destruct u as [| |s i| | |]; try discriminate Kc.
  simpl in Hp.
  apply andb_true_iff in Hp as [[Hi Hd]%andb_true_iff Hne%negb_true_iff%String.eqb_neq]. destruct i; [|done].
  destruct (parse_uint_all s Hd Hne) as [m Hu].
  unfold num in Kc. cbn [json_eq] in Kc.
  rewrite number_num, (number_value_uint _ _ _ (Hu m (N.le_refl m))) in Kc.
  unfold num_eqb in Kc. rewrite !num_leb_int in Kc.
  apply andb_true_iff in Kc as [?%Z.leb_le ?%Z.leb_le]. assert (m = 1%N) as -> by lia.
  unfold as_u32. by rewrite Hu.
Qed.

Lemma doc_reads v : schema_accepts v = true → plain v = true → reads doc_from_value v.
Proof.
  unfold schema_accepts, SCHEMA_DEPTH. intros Hv Hp. open_object Hv Hp.
  unfold reads, doc_from_value. cbn.
  read_step. read_step. { eexists. eapply version_reads; [eassumption|by_plain|reflexivity]. }
  read_opt. read_step.
  { eapply items_reads; [eassumption|by_plain|reflexivity|reflexivity|].
    intros w Hw ?. eapply signer_reads; [by follow_ref|done]. }
  read_step.
  { eapply items_reads; [eassumption|by_plain|reflexivity|reflexivity|].
    intros w Hw ?. eapply rule_reads; [by follow_ref|done]. }
  read_opt. { eapply recovery_reads; [by follow_ref|by_plain]. }
  read_step.
Qed.

(** C34: The published schema is exact.  On any JSON tree without repeated keys
    and with numbers written as bare digits, the schema accepts if and only if
    the strict parser reads the tree as a document that satisfies the
    representable rules: address, digest, key and amount shapes, number
    ranges, non-empty lists without duplicates, quorums within their counts,
    the acknowledgement sentinel and the per-document caps. *)
Theorem schema_exact v :
  plain v = true →
  schema_accepts v = true ↔ ∃ d, from_value v = Ok d ∧ rep_doc d = true.
Proof.
  intros Hp. split.
  - intros Hv. destruct (doc_reads v Hv Hp) as [d Hd].
    pose proof (parsed_accepts v d Hd) as Hr. rewrite Hv in Hr. symmetry in Hr. exists d.
    split; [|done]. apply from_value_iff. split; [by apply codec|].
    unfold rep_doc in Hr. rewrite !andb_true_iff, N.eqb_eq in Hr. tauto.
  - intros (d & Hd%from_value_iff & Hr). rewrite (parsed_accepts v d); [done|].
    apply codec. apply Hd.
Qed.
End sound.
