(* ===== verification/SchemaAgree.v ===== *)
(** * What compiles is schema-valid

    Every document the on-chain compiler accepts is accepted by the published
    schema, when its rule names are ASCII (the one place the schema is
    stricter on purpose).  [SchemaSound.schema_exact] gives the verdict as
    [rep_doc]; here each rule of the validator is shown to imply the
    corresponding check. *)

From S2P Require Import Prelude Host Doc Canon Parse ParseFacts RoundTrip Validate DocCompiler Regex JsonSchema Schema SchemaFacts SchemaSound.
#[local] Open Scope string_scope.
#[local] Open Scope list_scope.
#[local] Open Scope nat_scope.

(** The [hex] crate decodes whole pairs of hex digits, one byte each. *)
Class HexStrict `{HexCodec} : Prop :=
  hex_strict s d : hex_decode s = Some d → hex_form s = true ∧ String.length s = 2 * String.length d.

(** ** Shapes *)

Lemma strkey_shape_form s leads : is_strkey_shape s leads = true → strkey_form leads s = true.
Proof.
  unfold is_strkey_shape, strkey_form, base32_byte. rewrite !andb_true_iff, Nat.eqb_eq.
  intros [[[Hl Hc] Ha] _]. destruct s as [|c s]; [done|]. simpl in *.
  apply andb_true_iff in Ha as [_ Ha]. rewrite Hc, Ha. simpl. apply Nat.eqb_eq. lia.
Qed.
Lemma contract_shape_form s : is_contract_address_shape s = true → contract_form s = true.
Proof. apply strkey_shape_form. Qed.
Lemma address_shape_form s : is_address_shape s = true → address_form s = true.
Proof. apply strkey_shape_form. Qed.

Lemma code_points_nonneg s : (0 ≤ code_points s)%Z.
Proof. induction s as [|c s IH]; simpl; [done|]. destruct (cont c); lia. Qed.

Lemma symbol_code_points s : is_valid_symbol s = true → (1 <=? code_points s)%Z = true.
Proof.
  unfold is_valid_symbol. destruct s as [|c s]; [done|]. rewrite !andb_true_iff. cbn [all_bytes].
  intros [_ [Hc _]%andb_true_iff]. apply Z.leb_le. cbn [code_points].
  pose proof (code_points_nonneg s). unfold cont, in_range in *.
  destruct (N.leb_spec 128 (N_of_ascii c)); [|simpl; lia].
  assert (∀ a b, (b < 128)%N → (a <=? N_of_ascii c)%N && (N_of_ascii c <=? b)%N = false) as Hr.
  { intros a b Hb. apply andb_false_iff. right. apply N.leb_gt. lia. }
  rewrite !Hr in Hc by lia. simpl in Hc. apply N.eqb_eq in Hc. lia.
Qed.

(** ** Amounts *)

Lemma i128_loop_neg acc s v : parse_i128_loop true acc s = Some v → (acc ≤ 0)%Z → (v ≤ 0)%Z.
Proof.
  revert acc. induction s as [|c s IH]; intros acc; simpl; [intros [= ->]; done|].
  unfold digit_of. destruct (in_range 48 57 (N_of_ascii c)) eqn:Hr; [|done].
  unfold in_range in Hr. apply andb_true_iff in Hr as [?%N.leb_le ?%N.leb_le].
  destruct (_ && _); [|done]. intros Hv Hacc. eapply IH; [done|]. lia.
Qed.

Lemma i128_loop_pos acc s v :
  parse_i128_loop false acc s = Some v → (0 ≤ acc ≤ I128_MAX)%Z →
  all_bytes (in_range 48 57) s = true ∧ (acc * 10 ^ Z.of_nat (String.length s) ≤ v ≤ I128_MAX)%Z.
Proof.
  revert acc. induction s as [|c s IH]; intros acc; cbn [parse_i128_loop all_bytes].
  - intros [= ->]. simpl. lia.
  - unfold digit_of. destruct (in_range 48 57 (N_of_ascii c)) eqn:Hr; [|done].
    unfold in_range in Hr. apply andb_true_iff in Hr as [?%N.leb_le ?%N.leb_le].
    destruct (Z.leb_spec I128_MIN (acc * 10 + (Z.of_N (N_of_ascii c) - 48))); [|done].
    destruct (Z.leb_spec (acc * 10 + (Z.of_N (N_of_ascii c) - 48)) I128_MAX); [|done].
    simpl (true && true). cbn iota. intros Hv Hacc. destruct (IH _ Hv) as [Ha Hb]; [lia|].
    split; [done|]. split; [|lia]. etransitivity; [|apply Hb]. cbn [String.length].
    rewrite Nat2Z.inj_succ, Z.pow_succ_r by lia.
    assert (0 < 10 ^ Z.of_nat (String.length s))%Z by (apply Z.pow_pos_nonneg; lia). nia.
Qed.

Lemma i128_loop_zeros s v :
  parse_i128_loop false 0 s = Some v → parse_i128_loop false 0 (drop_zeros s) = Some v.
Proof.
  induction s as [|c s IH]; [done|]. cbn [drop_zeros].
  destruct (Ascii.eqb_spec c "0") as [->|]; [|done]. intros Hv. by apply IH.
Qed.

Lemma drop_zeros_head s c r : drop_zeros s = String c r → c ≠ "0"%char.
Proof.
  induction s as [|x s IH]; [done|]. cbn [drop_zeros].
  destruct (Ascii.eqb_spec x "0") as [->|]; [done|]. by intros [= -> ->].
Qed.

Lemma positive_loop_form s v :
  parse_i128_loop false 0 s = Some v → (0 < v)%Z →
  let d := drop_zeros s in
  all_bytes (in_range 48 57) d && (1 <=? String.length d) && (String.length d <=? 39) = true.
Proof.
  intros Hv%i128_loop_zeros Hpos. simpl. destruct (drop_zeros s) as [|c r] eqn:Hd.
  { simpl in Hv. injection Hv as <-. lia. }
  apply drop_zeros_head in Hd. destruct (i128_loop_pos _ _ _ Hv) as [Ha _]; [done|]. rewrite Ha.
  cbn [parse_i128_loop] in Hv. unfold digit_of in Hv.
  destruct (in_range 48 57 (N_of_ascii c)) eqn:Hr; [|done].
  assert (N_of_ascii c ≠ 48%N) as Hne.
  { intros Hc. apply Hd. by rewrite <- (ascii_N_embedding c), Hc. }
  unfold in_range in Hr. apply andb_true_iff in Hr as [?%N.leb_le ?%N.leb_le].
  destruct (_ && _); [|done]. apply i128_loop_pos in Hv as [_ [Hlo Hhi]]; [|unfold I128_MAX; lia].
  apply andb_true_iff. split; [done|]. apply Nat.leb_le. cbn [String.length].
  enough (¬ 39 ≤ String.length r) by lia. intros Hlen.
  assert (10 ^ 39 ≤ 10 ^ Z.of_nat (String.length r))%Z by (apply Z.pow_le_mono_r; lia).
  change (10 ^ 39)%Z with 1000000000000000000000000000000000000000%Z in *. unfold I128_MAX in *. nia.
Qed.

Lemma parse_i128_form s v : parse_i128 s = Some v → (0 < v)%Z → limit_form s = true.
Proof.
  unfold parse_i128, limit_form, positive_digits, strip_plus. destruct s as [|c s]; [done|].
  destruct (Ascii.eqb_spec c "-") as [->|].
  - destruct s; [done|]. intros Hv%i128_loop_neg; lia.
  - destruct (Ascii.eqb_spec c "+"); [destruct s; [done|]|]; apply positive_loop_form.
Qed.

(** ** Documents *)

Lemma rep_u32_intro min n : (min ≤ n)%N → (n <=? U32_MAX)%N = true → rep_u32 min n = true.
Proof. unfold rep_u32. intros H ->. rewrite andb_true_r. by apply N.leb_le. Qed.
Lemma rep_list_intro l : l ≠ [] → NoDup l → rep_list l = true.
Proof.
  intros Hne Hnd. unfold rep_list. by rewrite bool_decide_eq_false_2, bool_decide_eq_true_2.
Qed.
Lemma rep_refs l declared : wf_refs l declared → rep_list l = true.
Proof. intros (? & ? & _). by apply rep_list_intro. Qed.
Lemma chain_ok_intro len m : (m ≤ N.of_nat len)%N → chain_ok len m = true.
Proof. intros H. unfold chain_ok. rewrite (proj2 (N.leb_le _ _) H). by rewrite orb_true_r. Qed.
Lemma forallb_Forall {A} (f : A → bool) l : Forall (λ x, f x = true) l → forallb f l = true.
Proof. induction 1 as [|x l Hx _ IH]; simpl; [done|]. by rewrite Hx. Qed.
Lemma forallb_entries {A} (f : Cv → bool) (g : A → Cv) l :
  forallb f (map g l) = true → ∀ x, x ∈ l → f (g x) = true.
Proof. rewrite forallb_forall. intros Hf x Hx%list_elem_of_In. apply Hf, in_map, Hx. Qed.

(** Decompose a hypothesis [nums_ok (T_to_cv x)] into its numbers. *)
Ltac numbers H :=
  cbn in H; repeat (let Hn := fresh "Hn" in apply andb_true_iff in H as [Hn H]).

Section agree.
Context {H : Host} {HC : HexCodec} {CL : CompilerLibs} {HS : HexStrict}.

Lemma signer_agrees s : wf_signer s → rep_signer s = true.
Proof.
  unfold wf_signer, rep_signer. intros [_ Hs]. destruct (signer_method s) as [v k|a].
  - destruct Hs as (Hv & d & Hd & Hlen). apply contract_shape_form in Hv. rewrite Hv.
    destruct (hex_strict _ _ Hd) as [Hf Hl]. unfold key_form. rewrite Hf. cbn [andb].
    apply andb_true_iff. split; apply Nat.leb_le; lia.
  - by apply address_shape_form.
Qed.

Lemma principals_agree p declared :
  wf_principals p declared → nums_ok (principals_to_cv p) = true → rep_principals p = true.
Proof.
  destruct p as [l|l m|policy param ack]; cbn [wf_principals rep_principals].
  - intros Hw _. by eapply rep_refs.
  - intros [Hw Hm] Hn. numbers Hn. rewrite (rep_refs _ _ Hw), rep_u32_intro, chain_ok_intro; try done; lia.
  - intros (-> & Hp & [d Hd]) _. rewrite (contract_shape_form _ Hp).
    destruct (hex_strict _ _ Hd) as [-> _]. by rewrite String.eqb_refl.
Qed.

Lemma pred_agrees p : wf_pred p → nums_ok (pred_to_cv p) = true → rep_pred p = true.
Proof.
  destruct p as [|a|l|x|m]; cbn [wf_pred rep_pred]; intros Hw Hn; try done.
  - by apply address_shape_form.
  - destruct Hw. by apply rep_list_intro.
  - numbers Hn. apply rep_u32_intro; [lia|done].
Qed.

Lemma arg_agrees a :
  wf_pred (arg_pred a) → nums_ok (arg_constraint_to_cv a) = true → rep_arg a = true.
Proof.
  intros Hw Hn. cbn in Hn. rewrite andb_true_r in Hn. apply andb_true_iff in Hn as [Hi Hn].
  unfold rep_arg. rewrite rep_u32_intro, pred_agrees; try done. lia.
Qed.

Lemma cap_agrees scope c :
  wf_cap scope c → (∀ a, scope = Scope_Contract a → is_contract_address_shape a = true) →
  nums_ok (cap_to_cv c) = true → rep_cap c = true.
Proof.
  intros ((v & Hv & Hpos) & Hper & a & -> & Ht) Hs Hn. unfold rep_cap.
  rewrite (parse_i128_form _ _ Hv Hpos).
  assert (match cap_token c with Some t => contract_form t | None => true end = true) as ->.
  { destruct Ht as [->| ->]; [done|]. by apply contract_shape_form, Hs. }
  rewrite rep_u32_intro; [done|lia|].
  unfold cap_to_cv in Hn. destruct (cap_token c); cbn in Hn; by rewrite andb_true_r in Hn.
Qed.

Lemma guardians_agree g :
  wf_guardian_set g → (quorum g <=? U32_MAX)%N = true → rep_guardians g = true.
Proof.
  intros (Hne & Hnd & Ha & Hq) Hn. unfold rep_guardians.
  rewrite rep_list_intro, rep_u32_intro, chain_ok_intro; try done; try lia.
  rewrite forallb_Forall; [done|]. eapply Forall_impl; [done|]. apply address_shape_form.
Qed.
Lemma zk_agrees z : wf_zk_factor z → rep_zk z = true.
Proof.
  intros (Ha & Hc & Hp & He & Hm & _). unfold rep_zk.
  by rewrite (contract_shape_form _ Ha), (contract_shape_form _ Hp), Hc, He, Hm.
Qed.
Lemma mode_agrees m : wf_mode m → nums_ok (recovery_mode_to_cv m) = true → rep_mode m = true.
Proof.
  destruct m as [g|z|g z]; cbn [wf_mode rep_mode].
  - intros Hw Hn. numbers Hn. by apply guardians_agree.
  - intros Hw _. by apply zk_agrees.
  - intros [Hg Hz] Hn. numbers Hn. rewrite guardians_agree, zk_agrees; done.
Qed.

Lemma recovery_agrees r declared :
  wf_recovery declared r → nums_ok (recovery_to_cv r) = true → rep_recovery r = true.
Proof.
  intros (Hr & Hd & He & Hm & Hc & Hb & Hmode) Hn. unfold rep_recovery.
  assert (nums_ok (recovery_mode_to_cv (mode r)) = true ∧ (delay_ledgers r <=? U32_MAX)%N = true ∧
    (expiry_ledgers r <=? U32_MAX)%N = true ∧ (max_cancels r <=? U32_MAX)%N = true) as (? & ? & ? & ?).
  { unfold recovery_to_cv in Hn. destruct (baseline r); cbn in Hn;
      rewrite !andb_true_iff in Hn; tauto. }
  rewrite mode_agrees, (contract_shape_form _ Hc), (rep_refs _ _ Hr), !rep_u32_intro; try done; try lia.
  destruct (baseline r) as [b|]; [|done]. simpl. by rewrite (Hb b eq_refl).
Qed.

Lemma functions_agree l :
  l ≠ [] ∧ NoDup l ∧ Forall (λ f, is_valid_symbol f = true) l → rep_functions l = true.
Proof.
  intros (Hne & Hnd & Hs). unfold rep_functions. rewrite rep_list_intro by done.
  apply forallb_Forall. eapply Forall_impl; [done|]. apply symbol_code_points.
Qed.

Lemma args_agree l :
  l ≠ [] → Forall (λ a, wf_pred (arg_pred a)) l →
  forallb nums_ok (map arg_constraint_to_cv l) = true → rep_args l = true.
Proof.
  intros Hne Hw Hn. unfold rep_args. rewrite bool_decide_eq_false_2 by done.
  apply forallb_Forall, Forall_forall. intros a Ha. rewrite Forall_forall in Hw.
  apply arg_agrees; [auto|]. by eapply (forallb_entries nums_ok).
Qed.

(** The numbers of a rule, field by field. *)
Lemma rule_numbers r : nums_ok (rule_to_cv r) = true →
  nums_ok (principals_to_cv (rule_principals r)) = true ∧
  (∀ l, rule_args r = Some l → forallb nums_ok (map arg_constraint_to_cv l) = true) ∧
  (∀ n, rule_not_after_ledger r = Some n → (n <=? U32_MAX)%N = true) ∧
  (∀ c, rule_cap r = Some c → nums_ok (cap_to_cv c) = true).
Proof.
  unfold rule_to_cv. intros Hn.
  destruct (rule_functions r), (rule_args r), (rule_not_after_ledger r), (rule_cap r);
    cbn in Hn; rewrite !andb_true_iff in Hn;
    repeat split; intros; simplify_eq; tauto.
Qed.

Lemma rule_agrees r declared :
  wf_rule declared r → nums_ok (rule_to_cv r) = true → ascii_form (rule_name r) = true →
  (slen (rule_name r) ≤ MAX_RULE_NAME_BYTES)%N → rep_rule r = true.
Proof.
  intros (Hs & Hp & Hf & Ha & Hna & Hc) (Np & Na & Nl & Nc)%rule_numbers Hascii Hlen.
  unfold rep_rule. rewrite Hascii, (proj2 (N.leb_le _ _) Hlen), (principals_agree _ _ Hp Np).
  assert (rep_scope (rule_scope r) = true) as ->.
  { destruct (rule_scope r) as [a|]; [|done]. by apply contract_shape_form, Hs. }
  assert (rep_opt rep_functions (rule_functions r) = true) as ->.
  { destruct (rule_functions r); [|done]. by apply functions_agree, Hf. }
  assert (rep_opt rep_args (rule_args r) = true) as ->.
  { destruct (rule_args r) as [l|]; [|done]. destruct (Ha l eq_refl) as (? & _ & ?).
    apply args_agree; auto. }
  assert (rep_opt (rep_u32 1) (rule_not_after_ledger r) = true) as ->.
  { destruct (rule_not_after_ledger r) as [n|]; [|done]. apply rep_u32_intro; [|by apply Nl].
    assert (n ≠ 0%N) by congruence. lia. }
  destruct (rule_cap r) as [c|]; [|done]. simpl. eapply cap_agrees; eauto.
Qed.

Lemma doc_numbers d : nums_ok (doc_to_cv d) = true →
  forallb nums_ok (map rule_to_cv (doc_rules d)) = true ∧
  (∀ r, doc_recovery d = Some r → nums_ok (recovery_to_cv r) = true).
Proof.
  unfold doc_to_cv. intros Hn.
  destruct (doc_network d), (doc_recovery d); cbn -[recovery_to_cv] in Hn; rewrite !andb_true_iff in Hn;
    repeat split; intros; simplify_eq; tauto.
Qed.

Lemma doc_agrees d :
  wf_doc d → too_large d = false → nums_ok (doc_to_cv d) = true →
  forallb (λ r, ascii_form (rule_name r)) (doc_rules d) = true → rep_doc d = true.
Proof.
  intros (Hv & Hs & _ & _ & Hr & _ & Hrec) Hsize (Nr & Nrec)%doc_numbers Hascii.
  unfold too_large in Hsize. rewrite !orb_false_iff, !N.ltb_ge in Hsize.
  destruct Hsize as [[H1 H2] H3]. unfold rep_doc.
  rewrite (proj2 (N.eqb_eq _ _) Hv), (proj2 (N.leb_le _ _) H1), (proj2 (N.leb_le _ _) H2).
  rewrite (forallb_Forall rep_signer) by (eapply Forall_impl; [done|apply signer_agrees]).
  rewrite (forallb_Forall rep_rule).
  - destruct (doc_recovery d) as [r|]; [|done]. destruct (Hrec r eq_refl) as [Hw _].
    simpl. eapply recovery_agrees; eauto.
  - rewrite Forall_forall in *. rewrite forallb_forall in Hascii. intros r Hin.
    destruct (Hr r Hin) as [_ Hw]. eapply rule_agrees; [done|..].
    + by eapply (forallb_entries nums_ok).
    + by apply Hascii, list_elem_of_In.
    + apply N.nlt_ge. intros Hlt. apply not_true_iff_false in H3. apply H3, existsb_exists.
      exists r. split; [by apply list_elem_of_In|]. by apply N.ltb_lt.
Qed.

Context {JL : JsonLexer} {VF : Verifiers}.

(** C35: The schema never refuses what the chain accepts.  If the on-chain
    compiler compiles a document whose rule names are ASCII, the published
    schema accepts the same text's JSON tree; no hypothesis on how members
    are ordered or numbers spelled. *)
Theorem compiled_is_schema_valid e doc_json c v d :
  compile_doc e doc_json = Ok c →
  exactly_one MAX_DEPTH doc_json = Some v → from_value v = Ok d →
  forallb (λ r, ascii_form (rule_name r)) (doc_rules d) = true →
  schema_accepts v = true.
Proof.
  intros Hc Hlex Hd Hascii. unfold compile_doc, parse, from_json in Hc. rewrite Hlex, Hd in Hc.
  inv_result. unfold compile_parsed in *. inv_result.
  apply from_value_iff in Hd as [Hs _]. rewrite (parsed_accepts v x) by by apply codec.
  apply doc_agrees; [by apply validate_Ok|done|by eapply same_nums_ok|done].
Qed.
End agree.
