(* ===== verification/SchemaDemo.v ===== *)
(** * The policy schema on concrete documents

    The schema on the example it ships, on a document that compiles, and on
    inputs at its boundaries, with the witnesses of its theorems. *)

From S2P Require Import Prelude Host Doc Canon Parse RoundTrip Validate DocCompiler Regex JsonSchema Schema SchemaFacts SchemaSound SchemaAgree RulesDemo CompilerDemo.
#[local] Open Scope string_scope.
#[local] Open Scope list_scope.

#[local] Existing Instances ReadableHost ValidLexer DemoHex DemoLibs DemoVerifiers.

Lemma nibble_hex c n : nibble c = Some n → hex_byte (N_of_ascii c) = true.
Proof.
  unfold nibble, hex_byte, in_range. cbv zeta. repeat case_match; try done; intros _;
    repeat match goal with H : (_ && _)%bool = true |- _ => apply andb_true_iff in H as [? ?] end;
    repeat match goal with H : (_ <=? _)%N = true |- _ => rewrite H end; cbn; rewrite ?orb_true_r; done.
Qed.

#[local] Instance demo_hex_strict : HexStrict.
Proof.
  intros s. cbn [hex_decode DemoHex]. unfold hex_form.
  induction s as [|c|c d s IH] using two_step_ind; intros r Hr.
  - by injection Hr as <-.
  - done.
  - cbn [demo_hex_decode] in Hr.
    destruct (nibble c) as [x|] eqn:Hc; [|done]. destruct (nibble d) as [y|] eqn:Hd; [|done].
    destruct (demo_hex_decode s) as [q|] eqn:Hs; [|done]. injection Hr as <-.
    destruct (IH q eq_refl) as [[Ha He]%andb_true_iff Hl].
    cbn [all_bytes String.length]. rewrite (nibble_hex _ _ Hc), (nibble_hex _ _ Hd), Ha.
    change (Nat.even (S (S (String.length s)))) with (Nat.even (String.length s)).
    rewrite He. split; [done|]. lia.
Qed.

Definition owner_tree : Value := value_of (doc_to_cv (owner_doc owner_key)).

Example example_accepted : schema_accepts example_doc = true.
Proof. vm_compute. reflexivity. Qed.
Example owner_accepted : schema_accepts owner_tree = true.
Proof. vm_compute. reflexivity. Qed.

(** A document that spells its version [1.0] is schema-valid, as JSON Schema's
    numbers are values; the parser refuses the spelling. *)
Definition respell (d : string) (i : bool) (v : Value) : Value :=
  match v with
  | Object ms =>
      Object (map (λ m, if String.eqb m.1 "version" then (m.1, Number d i) else m) ms)
  | v => v
  end.
Lemma number_spelling_outside_schema :
  schema_accepts (respell "1.0" false example_doc) = true ∧
  (∃ e, from_value (respell "1.0" false example_doc) = Err e) ∧
  schema_accepts (respell "1e0" false example_doc) = true ∧
  ∃ e, from_value (respell "1e0" false example_doc) = Err e.
Proof. vm_compute. repeat split; by eexists. Qed.

(** ** Witnesses *)

Lemma schema_exact_witness :
  plain example_doc = true ∧
  (schema_accepts example_doc = true ↔ ∃ d, from_value example_doc = Ok d ∧ rep_doc d = true).
Proof.
  assert (plain example_doc = true) as Hp by (vm_compute; reflexivity).
  split; [exact Hp|]. exact (schema_exact example_doc Hp).
Defined.

Lemma compiled_is_schema_valid_witness : schema_accepts owner_tree = true.
Proof.
  apply (compiled_is_schema_valid on_testnet owner_json compiled owner_tree (owner_doc owner_key)).
  - exact compiled_is.
  - vm_compute. reflexivity.
  - vm_compute. reflexivity.
  - vm_compute. reflexivity.
Defined.
