(* ===== verification/Registry.v ===== *)
(** * Registry resolution

    Models [perch-registry-resolve-macro/src/lib.rs], the macro that bakes
    the pins and the registry path of a build into a module, with the
    functions the module exposes; [perch-registry-resolve/src/lib.rs]; and
    [perch-derive-id/src/main.rs], which derives the same addresses for the
    deploy scripts.  Build inputs (files, strkey decoding, identifier rules)
    and the host's address derivation are parameters.  Error texts are left
    out: an error says which check refused.

    [RegistryFacts] proves what an accepted path file says and that every way
    to name a contract leads to the same address. *)

From S2P Require Import Prelude Host Canon Text Validate.
#[local] Open Scope string_scope.
#[local] Open Scope list_scope.

(** ** Text *)

(** Lowercase ASCII, underscores to hyphens. *)
Definition to_ascii_lowercase (c : ascii) : ascii :=
  let b := N_of_ascii c in if in_range 65 90 b then ascii_of_N (b + 32) else c.
Fixpoint normalize_name (s : string) : string :=
  match s with
  | EmptyString => ""
  | String c s =>
      String (if Ascii.eqb c "_" then "-"%char else to_ascii_lowercase c) (normalize_name s)
  end.

Fixpoint replace_char (from to : ascii) (s : string) : string :=
  match s with
  | EmptyString => ""
  | String c s => String (if Ascii.eqb c from then to else c) (replace_char from to s)
  end.

(** [str::split_once] on a character, and [str::split]. *)
Fixpoint split_once (sep : ascii) (s : string) : option (string * string) :=
  match s with
  | EmptyString => None
  | String c s =>
      if Ascii.eqb c sep then Some ("", s)
      else '(a, b) ← split_once sep s; Some (String c a, b)
  end.
Fixpoint split (sep : ascii) (s : string) : list string :=
  match s with
  | EmptyString => [""]
  | String c s =>
      if Ascii.eqb c sep then "" :: split sep s
      else match split sep s with
           | a :: l => String c a :: l
           | [] => [String c ""]
           end
  end.
Definition last_part (sep : ascii) (s : string) : string := default s (last (split sep s)).

(** [str::trim_matches] on a character. *)
Fixpoint trim_start_char (c : ascii) (s : string) : string :=
  match s with
  | String d r => if Ascii.eqb d c then trim_start_char c r else s
  | EmptyString => s
  end.
Fixpoint trim_end_char (c : ascii) (s : string) : string :=
  match s with
  | String d r =>
      match trim_end_char c r with
      | EmptyString => if Ascii.eqb d c then "" else String d ""
      | r' => String d r'
      end
  | EmptyString => s
  end.
Definition trim_matches (c : ascii) (s : string) : string := trim_end_char c (trim_start_char c s).

(** [split_once(char::is_whitespace)]: at the first white-space character. *)
Fixpoint split_ws_codes (l : list N) : option (list N * list N) :=
  match skip_any white_space l with
  | Some rest => Some ([], rest)
  | None =>
      match l with
      | [] => None
      | n :: l => '(a, b) ← split_ws_codes l; Some (n :: a, b)
      end
  end.
Definition codes (s : string) : list N := map N_of_ascii (list_ascii_of_string s).
Definition of_codes (l : list N) : string := string_of_list_ascii (map ascii_of_N l).
Definition split_whitespace_once (s : string) : option (string * string) :=
  '(a, b) ← split_ws_codes (codes s); Some (of_codes a, of_codes b).

(** ** Hashes as hex *)

Definition hex_val (c : ascii) : option N :=
  let b := N_of_ascii c in
  if in_range 48 57 b then Some (b - 48)%N
  else if in_range 97 102 b then Some (b - 97 + 10)%N
  else if in_range 65 70 b then Some (b - 65 + 10)%N
  else None.

Definition strip_0x (s : string) : string :=
  match s with String "0" (String "x" r) => r | s => s end.

Inductive HashError : Type := WrongLength (len : nat) | NonHex.

Fixpoint decode_pairs (s : string) : result HashError bytes :=
  match s with
  | String h (String l s) =>
      let* hi := ok_or (hex_val h) NonHex in
      let* lo := ok_or (hex_val l) NonHex in
      let* rest := decode_pairs s in
      Ok (String (ascii_of_N (N.lor (N.shiftl hi 4) lo)) rest)
  | _ => Ok ""
  end.
Definition decode_hash (raw : string) : result HashError bytes :=
  let hex := strip_0x raw in
  refuse_if (negb (String.length hex =? 64)%nat) (WrongLength (String.length hex)) ;;;
  decode_pairs hex.

(** ** The build *)

(** The files of the invoking crate, [None] for one that cannot be read;
    whether the crate's directory is known; [Strkey::from_string] restricted
    to account and contract keys, giving the canonical text; whether a text
    is an identifier that is not a keyword. *)
Class Build : Type := {
  manifest_dir_set : bool;
  read_file : string → option bytes;
  strkey_canonical : string → option string;
  is_ident : string → bool;
}.

Section registry.
Context {H : Host} {B : Build}.

(** [RegistryPath]: [segments] pairs each normalized name with its digest. *)
Record RegistryPath : Type := {
  root_deployer : string;
  root_salt : bytes;
  segments : list (string * bytes);
}.

Inductive PathError : Type :=
| ExpectedKeyValue (line : nat)
| NotStrkey (line : nat)
| NotCanonicalStrkey (line : nat)
| NotRegistryName (line : nat) (segment : string)
| GivenTwice (line : nat) (key : string)
| UnknownKey (line : nat) (key : string)
| MissingRootDeployer
| MissingRootSalt
| MissingPath.

Definition REGISTRY_FILE : string := "wasm/registry.path".

Definition registry_name_byte (b : N) : bool :=
  in_range 97 122 b || in_range 48 57 b || (b =? 45)%N.

Fixpoint parse_segments (n : nat) (l : list string) : result PathError (list (string * bytes)) :=
  match l with
  | [] => Ok []
  | segment :: l =>
      let name := normalize_name segment in
      refuse_if (String.eqb name "" || negb (all_bytes registry_name_byte name))
        (NotRegistryName n segment) ;;;
      let* rest := parse_segments n l in
      Ok ((name, sha256 name) :: rest)
  end.

(** What the loop has read so far. *)
Record PathState : Type := {
  ps_deployer : option string;
  ps_salt : option bytes;
  ps_segments : option (list (string * bytes));
}.
Definition no_keys : PathState := {|
  ps_deployer := None; ps_salt := None; ps_segments := None |}.

(** [slot.replace(v).map_or(Ok(()), |_| Err(duplicate()))]. *)
Definition put_once {A} (n : nat) (key : string) (slot : option A) (v : A)
  : result PathError (option A) :=
  match slot with Some _ => Err (GivenTwice n key) | None => Ok (Some v) end.

Definition path_entry (n : nat) (key value : string) (st : PathState) : result PathError PathState :=
  if String.eqb key "root-deployer" then
    let* canonical := ok_or (strkey_canonical value) (NotStrkey n) in
    refuse_if (negb (String.eqb canonical value)) (NotCanonicalStrkey n) ;;;
    let* d := put_once n key (ps_deployer st) value in
    Ok {| ps_deployer := d; ps_salt := ps_salt st; ps_segments := ps_segments st |}
  else if String.eqb key "root-salt" then
    let* s := put_once n key (ps_salt st) (sha256 value) in
    Ok {| ps_deployer := ps_deployer st; ps_salt := s; ps_segments := ps_segments st |}
  else if String.eqb key "path" then
    let trimmed := trim_matches "/" value in
    let* parsed := if String.eqb trimmed "" then Ok [] else parse_segments n (split "/" trimmed) in
    let* p := put_once n key (ps_segments st) parsed in
    Ok {| ps_deployer := ps_deployer st; ps_salt := ps_salt st; ps_segments := p |}
  else Err (UnknownKey n key).

Definition starts_with_hash (s : string) : bool :=
  match s with String c _ => Ascii.eqb c "#" | EmptyString => false end.

Definition path_line (n : nat) (line : string) (st : PathState) : result PathError PathState :=
  let line := trim line in
  if String.eqb line "" || starts_with_hash line then Ok st
  else
    let* kv := ok_or (split_whitespace_once line) (ExpectedKeyValue n) in
    path_entry n kv.1 (trim kv.2) st.

Fixpoint path_lines (n : nat) (l : list string) (st : PathState) : result PathError PathState :=
  match l with
  | [] => Ok st
  | line :: l => let* st := path_line n line st in path_lines (S n) l st
  end.

Definition from_str (text : string) : result PathError RegistryPath :=
  let* st := path_lines 1 (lines text) no_keys in
  let* d := ok_or (ps_deployer st) MissingRootDeployer in
  let* s := ok_or (ps_salt st) MissingRootSalt in
  let* p := ok_or (ps_segments st) MissingPath in
  Ok {| root_deployer := d; root_salt := s; segments := p |}.

(** *** Files *)

Inductive SpecError : Type :=
| ManifestDirUnset
| FileNotFound (rel : string)
| BadHash (why : HashError)
| BadPath (why : PathError)
| Duplicate (key : string)
| UnknownSpecKey (key : string)
| Syntax
| MissingMod
| BothSaltSources
| NoSaltSource
| PinWithDeployName
| PinsExclusive
| NotSingleName
| EmptyWasmName
| NotModuleName (name : string).

Definition manifest_path (rel : string) : result SpecError string :=
  if manifest_dir_set then Ok rel else Err ManifestDirUnset.
Definition read_bytes (rel : string) : result SpecError bytes :=
  let* path := manifest_path rel in ok_or (read_file path) (FileNotFound rel).
(** [read_to_string] also fails on a file that is not UTF-8. *)
Definition read_text (rel : string) : result SpecError string :=
  let* text := read_bytes rel in
  refuse_if (negb (utf8_valid text)) (FileNotFound rel) ;;; Ok text.

Definition read_registry_path : result SpecError RegistryPath :=
  let* text := read_text REGISTRY_FILE in map_err BadPath (from_str text).
Definition read_hash_at (rel : string) : result SpecError bytes :=
  let* text := read_text rel in map_err BadHash (decode_hash (trim text)).
Definition hash_wasm_at (rel : string) : result SpecError bytes :=
  let* wasm := read_bytes rel in Ok (sha256 wasm).
Definition parse_hash (lit : string) : result SpecError bytes :=
  map_err BadHash (decode_hash lit).

(** ** The macro's input *)

(** [mod] and the other keywords lex as identifiers here. *)
Inductive Token : Type :=
| TIdent (s : string)
| TStr (s : string)
| TColon
| TPathSep
| TComma
| TOther.

Inductive Mode : Type :=
| Content (wasm_name : string) (hash : option bytes) (registry_path : option RegistryPath)
    (pin_file : option string)
| Named (deploy_name : string).

(** [client] is the path's segments. *)
Record RegistrySpec : Type := {
  module : string;
  mode : Mode;
  client : option (list string);
}.

Record Fields : Type := {
  f_module : option string;
  f_wasm_name : option string;
  f_deploy_name : option string;
  f_client : option (list string);
  f_hash : option bytes;
  f_wasm_file : option string;
  f_hash_file : option string;
}.
Definition no_fields : Fields := {|
  f_module := None; f_wasm_name := None; f_deploy_name := None; f_client := None;
  f_hash := None; f_wasm_file := None; f_hash_file := None |}.

Definition spec := (result SpecError).

Definition parse_ident_any (ts : list Token) : spec (string * list Token) :=
  match ts with TIdent s :: ts => Ok (s, ts) | _ => Err Syntax end.
Definition parse_lit_str (ts : list Token) : spec (string * list Token) :=
  match ts with TStr s :: ts => Ok (s, ts) | _ => Err Syntax end.
Definition parse_colon (ts : list Token) : spec (list Token) :=
  match ts with TColon :: ts => Ok ts | _ => Err Syntax end.

(** [syn::Path]: identifiers joined by [::], optionally led by one. *)
Fixpoint path_rest (acc : list string) (ts : list Token) : spec (list string * list Token) :=
  match ts with
  | TPathSep :: TIdent s :: ts => path_rest (acc ++ [s]) ts
  | TPathSep :: _ => Err Syntax
  | ts => Ok (acc, ts)
  end.
Definition parse_path (ts : list Token) : spec (list string * list Token) :=
  let ts := match ts with TPathSep :: ts => ts | ts => ts end in
  let* st := parse_ident_any ts in
  path_rest [st.1] st.2.

(** [if slot.is_some() { return Err(duplicate) } slot = Some(parse(input)?)]. *)
Definition fill {A} (key : string) (slot : option A) (parse : list Token → spec (A * list Token))
    (ts : list Token) : spec (option A * list Token) :=
  match slot with
  | Some _ => Err (Duplicate key)
  | None => let* r := parse ts in Ok (Some r.1, r.2)
  end.

Definition parse_hash_lit (ts : list Token) : spec (bytes * list Token) :=
  let* lit := parse_lit_str ts in
  let* h := parse_hash lit.1 in
  Ok (h, lit.2).

(** One [key: value]. *)
Definition parse_field (key : string) (f : Fields) (ts : list Token) : spec (Fields * list Token) :=
  if String.eqb key "mod" then
    let* r := fill key (f_module f) parse_ident_any ts in
    Ok ({| f_module := r.1; f_wasm_name := f_wasm_name f; f_deploy_name := f_deploy_name f;
           f_client := f_client f; f_hash := f_hash f; f_wasm_file := f_wasm_file f;
           f_hash_file := f_hash_file f |}, r.2)
  else if String.eqb key "wasm_name" then
    let* r := fill key (f_wasm_name f) parse_lit_str ts in
    Ok ({| f_module := f_module f; f_wasm_name := r.1; f_deploy_name := f_deploy_name f;
           f_client := f_client f; f_hash := f_hash f; f_wasm_file := f_wasm_file f;
           f_hash_file := f_hash_file f |}, r.2)
  else if String.eqb key "deploy_name" then
    let* r := fill key (f_deploy_name f) parse_lit_str ts in
    Ok ({| f_module := f_module f; f_wasm_name := f_wasm_name f; f_deploy_name := r.1;
           f_client := f_client f; f_hash := f_hash f; f_wasm_file := f_wasm_file f;
           f_hash_file := f_hash_file f |}, r.2)
  else if String.eqb key "client" then
    let* r := fill key (f_client f) parse_path ts in
    Ok ({| f_module := f_module f; f_wasm_name := f_wasm_name f;
           f_deploy_name := f_deploy_name f; f_client := r.1; f_hash := f_hash f;
           f_wasm_file := f_wasm_file f; f_hash_file := f_hash_file f |}, r.2)
  else if String.eqb key "hash" then
    let* r := fill key (f_hash f) parse_hash_lit ts in
    Ok ({| f_module := f_module f; f_wasm_name := f_wasm_name f;
           f_deploy_name := f_deploy_name f; f_client := f_client f; f_hash := r.1;
           f_wasm_file := f_wasm_file f; f_hash_file := f_hash_file f |}, r.2)
  else if String.eqb key "wasm_file" then
    let* r := fill key (f_wasm_file f) parse_lit_str ts in
    Ok ({| f_module := f_module f; f_wasm_name := f_wasm_name f;
           f_deploy_name := f_deploy_name f; f_client := f_client f; f_hash := f_hash f;
           f_wasm_file := r.1; f_hash_file := f_hash_file f |}, r.2)
  else if String.eqb key "hash_file" then
    let* r := fill key (f_hash_file f) parse_lit_str ts in
    Ok ({| f_module := f_module f; f_wasm_name := f_wasm_name f;
           f_deploy_name := f_deploy_name f; f_client := f_client f; f_hash := f_hash f;
           f_wasm_file := f_wasm_file f; f_hash_file := r.1 |}, r.2)
  else Err (UnknownSpecKey key).

(** The field loop; what follows the last field is left to the caller, which
    refuses it.  Every turn reads at least a key, so the input's length is
    fuel enough; [Panic] stands for running out. *)
Fixpoint parse_fields (fuel : nat) (f : Fields) (ts : list Token) : spec (Fields * list Token) :=
  match ts with
  | [] => Ok (f, [])
  | _ =>
      match fuel with
      | O => Panic
      | S fuel =>
          let* k := parse_ident_any ts in
          let* ts := parse_colon k.2 in
          let* r := parse_field k.1 f ts in
          match r.2 with
          | TComma :: ts => parse_fields fuel r.1 ts
          | ts => Ok (r.1, ts)
          end
      end
  end.

Definition content_mode (wasm_name : string) (hash : option bytes)
    (hash_file wasm_file : option string) : spec Mode :=
  match hash, hash_file, wasm_file with
  | hash, None, None => Ok (Content wasm_name hash None None)
  | None, Some f, None => let* h := read_hash_at f in Ok (Content wasm_name (Some h) None (Some f))
  | None, None, Some f => let* h := hash_wasm_at f in Ok (Content wasm_name (Some h) None (Some f))
  | _, _, _ => Err PinsExclusive
  end.

Definition is_some {A} (o : option A) : bool := match o with Some _ => true | None => false end.

Definition parse_keyed (ts : list Token) : spec RegistrySpec :=
  let* r := parse_fields (length ts) no_fields ts in
  let f := r.1 in
  let* m := ok_or (f_module f) MissingMod in
  let* mode :=
    match f_wasm_name f, f_deploy_name f with
    | Some _, Some _ => Err BothSaltSources
    | None, None => Err NoSaltSource
    | Some wasm_name, None => content_mode wasm_name (f_hash f) (f_hash_file f) (f_wasm_file f)
    | None, Some deploy_name =>
        refuse_if (is_some (f_hash f) || is_some (f_hash_file f) || is_some (f_wasm_file f))
          PinWithDeployName ;;;
        Ok (Named (normalize_name deploy_name))
    end in
  refuse_if (negb (bool_decide (r.2 = []))) Syntax ;;;
  Ok {| module := m; mode := mode; client := f_client f |}.

(** The name-only form. *)
Definition parse_named (ts : list Token) : spec RegistrySpec :=
  let* named :=
    match ts with
    | TStr lit :: ts =>
        let '(np, ver) := match split_once "@" lit with
                          | Some (n, v) => (n, Some v)
                          | None => (lit, None)
                          end in
        Ok (np, ver, replace_char "-" "_" (last_part "/" np), ts)
    | TIdent id :: ts =>
        refuse_if (negb (is_ident id)) Syntax ;;;
        Ok (replace_char "_" "-" id, None, id, ts)
    | _ => Err Syntax
    end in
  let '(name_part, version, mod_name, ts) := named in
  let ts := match ts with TComma :: ts => ts | ts => ts end in
  refuse_if (negb (bool_decide (ts = []))) NotSingleName ;;;
  refuse_if (String.eqb name_part "") EmptyWasmName ;;;
  refuse_if (negb (is_ident mod_name)) (NotModuleName mod_name) ;;;
  let leaf := last_part "/" name_part in
  let file := match version with
              | Some v => "wasm/" +:+ leaf +:+ "_" +:+ replace_char "." "_" v +:+ ".sha256"
              | None => "wasm/" +:+ leaf +:+ ".sha256"
              end in
  let* hash := read_hash_at file in
  let* path := read_registry_path in
  Ok {| module := mod_name; mode := Content name_part (Some hash) (Some path) (Some file);
        client := None |}.

Definition registry_spec_parse (ts : list Token) : spec RegistrySpec :=
  match ts with
  | TIdent "mod" :: _ => parse_keyed ts
  | _ => parse_named ts
  end.
End registry.

(** ** The generated module *)

(** The address a contract deploys at on a network with a salt, and the
    registry's [fetch_hash] at a moment of its state, [None] when the call
    fails. *)
Class Resolution `{H : Host} : Type := {
  deployed_address : bytes → Address → bytes → Address;
  RegistryState : Type;
  fetch_hash : RegistryState → Address → string → option string → option bytes;
}.

Inductive Generated : Type :=
| G_named (deploy_name : string)
| G_path (wasm_name : string) (wasm_hash : bytes) (path : RegistryPath)
| G_pinned (wasm_name : string) (wasm_hash : bytes)
| G_runtime (wasm_name : string).

Definition expand (s : RegistrySpec) : Generated * option (list string) :=
  (match mode s with
   | Named deploy_name => G_named deploy_name
   | Content wasm_name (Some h) (Some p) _ => G_path wasm_name h p
   | Content wasm_name (Some h) None _ => G_pinned wasm_name h
   | Content wasm_name None _ _ => G_runtime wasm_name
   end, client s).

Section resolve.
Context {H : Host} {R : Resolution}.

(** [perch_registry_resolve::address]. *)
Definition address (e : Env) (registry : Address) (wasm_hash : bytes) : Address :=
  deployed_address (network_id e) registry wasm_hash.

Definition named_address (e : Env) (registry : Address) (deploy_name : string) : Address :=
  deployed_address (network_id e) registry (sha256 deploy_name).

(** [registry(env)]: the root, then one named deploy per segment. *)
Definition registry_below (e : Env) (root : Address) (segs : list (string * bytes)) : Address :=
  foldl (λ a seg, deployed_address (network_id e) a seg.2) root segs.
Definition path_registry (e : Env) (p : RegistryPath) : option Address :=
  d ← address_from_str (root_deployer p);
  Some (registry_below e (deployed_address (network_id e) d (root_salt p)) (segments p)).
Definition path_address (e : Env) (p : RegistryPath) (wasm_hash : bytes) : option Address :=
  r ← path_registry e p; Some (deployed_address (network_id e) r wasm_hash).

Definition runtime_hash (w : RegistryState) (registry : Address) (wasm_name : string) : option bytes :=
  fetch_hash w registry wasm_name None.
Definition runtime_address (e : Env) (w : RegistryState) (registry : Address) (wasm_name : string)
  : option Address :=
  h ← runtime_hash w registry wasm_name; Some (deployed_address (network_id e) registry h).

(** The invoking contract's instance storage, as far as the memo uses it. *)
Definition Memo := gmap string Address.
Definition address_memoized (e : Env) (w : RegistryState) (registry : Address) (wasm_name : string)
    (memo : Memo) : option (Address * Memo) :=
  match memo !! wasm_name with
  | Some a => Some (a, memo)
  | None => a ← runtime_address e w registry wasm_name; Some (a, <[wasm_name := a]> memo)
  end.
Definition clear_memo (wasm_name : string) (memo : Memo) : Memo := delete wasm_name memo.

(** [address(..)] of a generated module; [registry] is its argument, which
    the name-only form does not take. *)
Definition module_address (g : Generated) (e : Env) (w : RegistryState) (registry : Address)
  : option Address :=
  match g with
  | G_named name => Some (named_address e registry name)
  | G_path _ h p => path_address e p h
  | G_pinned _ h => Some (address e registry h)
  | G_runtime name => runtime_address e w registry name
  end.

(** *** The account's infra: [perch_smart_account::infra] *)

Context {B : Build}.

(** The module [registry_contract!(name)] generates, and the functions of the
    account crate that call it; [None] is a build error or a panic. *)
Definition infra_module (name : string) : option (bytes * RegistryPath) :=
  match registry_spec_parse [TIdent name] with
  | Ok s => match (expand s).1 with G_path _ h p => Some (h, p) | _ => None end
  | _ => None
  end.
Definition infra_address (name : string) (e : Env) : option Address :=
  '(h, p) ← infra_module name; path_address e p h.
Definition constructorless_registry (e : Env) : option Address :=
  '(_, p) ← infra_module "perch_doc_compiler"; path_registry e p.

(** ** perch-derive-id *)

(** [Err] is the usage message and exit code 2. *)
Inductive Exit : Type := Usage.

(** [u8::from_str_radix(_, 16)] on two bytes: an optional [+], then digits. *)
Definition radix16_pair (a b : ascii) : option N :=
  if Ascii.eqb a "+" then hex_val b
  else hi ← hex_val a; lo ← hex_val b; Some (16 * hi + lo)%N.

(** A slice that ends inside a character panics. *)
Fixpoint derive_pairs (s : string) : result Exit bytes :=
  match s with
  | String a (String b s) =>
      demand (negb match s with String c _ => cont c | EmptyString => false end) ;;;
      let* x := ok_or (radix16_pair a b) Usage in
      let* rest := derive_pairs s in
      Ok (String (ascii_of_N x) rest)
  | _ => Ok ""
  end.
Definition derive_parse_hash (hex : string) : result Exit bytes :=
  let hex := strip_0x hex in
  refuse_if (negb (String.length hex =? 64)%nat) Usage ;;;
  derive_pairs hex.

(** [on(passphrase)]: only the network of the environment matters. *)
Definition derive_id (mode parent value passphrase : string) : result Exit Address :=
  let net := sha256 passphrase in
  let* parent := or_panic (address_from_str parent) in
  let* salt := if String.eqb mode "content" then derive_parse_hash value else Ok (sha256 value) in
  Ok (deployed_address net parent salt).

(** [main], up to printing the address; [on] gives the environment bound to a
    network. *)
Definition derive_main (on : bytes → Env) (args : list string) : result Exit Address :=
  match args with
  | [m; passphrase] =>
      if String.eqb m "registry" then or_panic (constructorless_registry (on (sha256 passphrase)))
      else Err Usage
  | [m; p; v; n] =>
      if String.eqb m "content" || String.eqb m "name" then derive_id m p v n else Err Usage
  | [p; v; n] => derive_id "name" p v n
  | _ => Err Usage
  end.
End resolve.
