(* ===== verification/RegistryFacts.v ===== *)
(** * What a build resolves to

    [path_file_exact] says which texts are path files and what they mean;
    [registry_spec_parse_safe] that every macro input is accepted or refused;
    [resolvers_agree] that the module a name-only invocation generates, a chain
    of named modules and the deploy scripts' tool derive one address;
    [infra_binds_pins] that an account's infra addresses commit to the text of
    the pin and path files of its build, collisions apart. *)

From S2P Require Import Prelude Host Program Canon Text Validate Registry Rules Account CompilerTotal.
#[local] Open Scope string_scope.
#[local] Open Scope list_scope.

(** ** Path files *)

Section path.
Context {H : Host} {B : Build}.

(** The lines that say something, as key and value; [None] when one of them
    has no value. *)
Fixpoint significant (l : list string) : option (list (string * string)) :=
  match l with
  | [] => Some []
  | line :: l =>
      let line := trim line in
      if String.eqb line "" || starts_with_hash line then significant l
      else
        kv ← split_whitespace_once line;
        rest ← significant l;
        Some ((kv.1, trim kv.2) :: rest)
  end.

(** The names a [path] value lists. *)
Definition path_names (value : string) : list string :=
  let trimmed := trim_matches "/" value in
  if String.eqb trimmed "" then [] else map normalize_name (split "/" trimmed).
Definition registry_name (s : string) : bool :=
  negb (String.eqb s "") && all_bytes registry_name_byte s.
Definition named_segments (names : list string) : list (string * bytes) :=
  map (λ n, (n, sha256 n)) names.

Definition entry_ok (kv : string * string) : Prop :=
  (kv.1 = "root-deployer" ∧ strkey_canonical kv.2 = Some kv.2) ∨
  kv.1 = "root-salt" ∨
  (kv.1 = "path" ∧ forallb registry_name (path_names kv.2) = true).
Definition unset (st : PathState) (key : string) : Prop :=
  (key = "root-deployer" → ps_deployer st = None) ∧
  (key = "root-salt" → ps_salt st = None) ∧
  (key = "path" → ps_segments st = None).
Definition set_entry (st : PathState) (kv : string * string) : PathState := {|
  ps_deployer := if String.eqb kv.1 "root-deployer" then Some kv.2 else ps_deployer st;
  ps_salt := if String.eqb kv.1 "root-salt" then Some (sha256 kv.2) else ps_salt st;
  ps_segments := if String.eqb kv.1 "path" then Some (named_segments (path_names kv.2))
                 else ps_segments st |}.

Lemma parse_segments_Ok n l segs :
  parse_segments n l = Ok segs ↔
  forallb registry_name (map normalize_name l) = true ∧
  segs = named_segments (map normalize_name l).
Proof.
  revert segs. induction l as [|s l IH]; intros segs; simpl.
  - split; [intros [= <-]; done|]. by intros [_ ->].
  - assert (∀ a b, a || negb b = negb (negb a && b)) as -> by by intros [] [].
    fold (registry_name (normalize_name s)). destruct (registry_name (normalize_name s)); simpl.
    + rewrite rbind_Ok. setoid_rewrite IH. split.
      * intros (rest & [? ->] & [= <-]). done.
      * intros [? ->]. by eexists.
    + split; [done|]. by intros [? _].
Qed.

Lemma path_entry_Ok n k v st st' :
  path_entry n k v st = Ok st' ↔ entry_ok (k, v) ∧ unset st k ∧ st' = set_entry st (k, v).
Proof.
  unfold path_entry, entry_ok, unset, set_entry. cbn [fst snd].
  destruct (String.eqb_spec k "root-deployer") as [->|Hd].
  { cbn. rewrite rbind_Ok. setoid_rewrite ok_or_Ok. split.
    - intros (c & Hc & Hr). destruct (String.eqb_spec c v) as [->|]; [|done]. simpl in Hr.
      unfold put_once in Hr. destruct (ps_deployer st) eqn:Hs; [done|]. simpl in Hr.
      injection Hr as <-. naive_solver.
    - intros ([[_ Hv]|[?|[? _]]] & (Hs & _ & _) & ->); try done. exists v. split; [done|].
      rewrite String.eqb_refl. simpl. unfold put_once. by rewrite Hs. }
  destruct (String.eqb_spec k "root-salt") as [->|Hs].
  { cbn. unfold put_once. destruct (ps_salt st) eqn:E; simpl; [naive_solver|].
    split; [intros [= <-]; naive_solver|]. by intros (_ & _ & ->). }
  destruct (String.eqb_spec k "path") as [->|Hp]; [|naive_solver].
  rewrite rbind_Ok.
  assert (∀ parsed, (if String.eqb (trim_matches "/" v) "" then Ok [] else
      parse_segments n (split "/" (trim_matches "/" v))) = Ok parsed ↔
    forallb registry_name (path_names v) = true ∧ parsed = named_segments (path_names v)) as Hseg.
  { intros parsed. unfold path_names. destruct (String.eqb_spec (trim_matches "/" v) "").
    - split; [by intros [= <-]|]. by intros [_ ->].
    - apply parse_segments_Ok. }
  setoid_rewrite Hseg. unfold put_once. destruct (ps_segments st) eqn:E.
  - split; [naive_solver|]. intros (_ & (_ & _ & Hx) & _). by discriminate Hx.
  - simpl. split.
    + intros (parsed & [? ->] & [= <-]). naive_solver.
    + intros ([[? _]|[?|[_ ?]]] & _ & ->); try done. eexists. split; [split; [done|reflexivity]|done].
Qed.

(** The keys of [es] are new to [st] and to each other. *)
Definition fresh_keys (st : PathState) (es : list (string * string)) : Prop :=
  NoDup es.*1 ∧ ∀ k, k ∈ es.*1 → unset st k.

Lemma unset_set st k v k' :
  entry_ok (k, v) → unset (set_entry st (k, v)) k' ↔ unset st k' ∧ k' ≠ k.
Proof.
  unfold entry_ok, unset, set_entry. cbn [fst snd ps_deployer ps_salt ps_segments].
  destruct (String.eqb_spec k "root-deployer"), (String.eqb_spec k "root-salt"),
    (String.eqb_spec k "path"); subst; naive_solver.
Qed.

Lemma path_lines_Ok n l st st' :
  path_lines n l st = Ok st' ↔
  ∃ es, significant l = Some es ∧ Forall entry_ok es ∧ fresh_keys st es ∧
    st' = foldl set_entry st es.
Proof.
  revert n st. induction l as [|line l IH]; intros n st; cbn [path_lines significant].
  { split.
    - intros [= <-]. exists []. repeat split; try constructor; set_solver.
    - by intros (es & [= <-] & _ & _ & ->). }
  unfold path_line. destruct (String.eqb (trim line) "" || starts_with_hash (trim line)).
  { simpl. apply IH. }
  destruct (split_whitespace_once (trim line)) as [kv|]; simpl; [|naive_solver].
  rewrite rbind_Ok. setoid_rewrite path_entry_Ok. setoid_rewrite IH. split.
  - intros (st1 & (Hok & Hun & ->) & es & Hes & Hall & [Hnd Hf] & ->). rewrite Hes.
    exists ((kv.1, trim kv.2) :: es). simpl. split; [done|]. split; [by constructor|]. split; [|done].
    assert (∀ k, k ∈ es.*1 → unset st k ∧ k ≠ kv.1) as Hf'.
    { intros k Hk. by apply (unset_set _ _ _ _ Hok), Hf. }
    split; [constructor; [|done]; intros Hin; by apply Hf' in Hin as []|].
    intros k [->|Hk]%elem_of_cons; [done|]. by apply Hf'.
  - intros (es & Hes & Hall & [Hnd Hf] & ->). destruct (significant l) as [rest|]; [|done].
    injection Hes as <-. apply Forall_cons in Hall as [Hok Hall]. simpl in Hnd, Hf.
    apply NoDup_cons in Hnd as [Hnin Hnd]. eexists. split; [split; [done|split; [|done]]|].
    { apply Hf. set_solver. }
    exists rest. split; [done|]. split; [done|]. split; [|done]. split; [done|].
    intros k Hk. apply (unset_set _ _ _ _ Hok). split; [apply Hf; set_solver|]. by intros ->.
Qed.

(** One slot of the state after all entries. *)
Lemma fold_slot {A} (slot : PathState → option A) key (f : string → A) st es :
  (∀ st kv, slot (set_entry st kv) = if String.eqb kv.1 key then Some (f kv.2) else slot st) →
  NoDup es.*1 →
  (∀ v, (key, v) ∈ es → slot (foldl set_entry st es) = Some (f v)) ∧
  (key ∉ es.*1 → slot (foldl set_entry st es) = slot st).
Proof.
  intros Hslot. revert st. induction es as [|[k w] es IH]; intros st Hnd; simpl.
  { split; [set_solver|done]. }
  simpl in Hnd. apply NoDup_cons in Hnd as [Hk Hnd]. destruct (IH (set_entry st (k, w)) Hnd) as [IH1 IH2].
  split.
  - intros v [[= <- <-]|Hin]%elem_of_cons; [|auto].
    rewrite IH2 by done. rewrite Hslot. simpl. by rewrite String.eqb_refl.
  - intros Hn. rewrite IH2 by set_solver. rewrite Hslot. simpl.
    destruct (String.eqb_spec k key); [set_solver|done].
Qed.

Lemma slot_present {A} (slot : PathState → option A) key (f : string → A) es :
  (∀ st kv, slot (set_entry st kv) = if String.eqb kv.1 key then Some (f kv.2) else slot st) →
  slot no_keys = None → NoDup es.*1 → ∀ x, slot (foldl set_entry no_keys es) = Some x ↔
  ∃ v, (key, v) ∈ es ∧ x = f v.
Proof.
  intros Hslot Hnone Hnd x. destruct (fold_slot slot key f no_keys es Hslot Hnd) as [H1 H2]. split.
  - intros Hx. destruct (decide (key ∈ es.*1)) as [Hin|Hout].
    + apply list_elem_of_fmap in Hin as ([k v] & -> & Hin). exists v. split; [done|].
      rewrite (H1 v Hin) in Hx. by injection Hx.
    + rewrite H2, Hnone in Hx by done. done.
  - intros (v & Hin & ->). auto.
Qed.

(** A path file with its three entries, in any order. *)
Definition names_registry (text d s q : string) : Prop :=
  ∃ es, significant (lines text) = Some es ∧
    es ≡ₚ [("root-deployer", d); ("root-salt", s); ("path", q)] ∧
    strkey_canonical d = Some d ∧ forallb registry_name (path_names q) = true.

Lemma keys_elem {A} (es : list (string * A)) k v v' :
  NoDup es.*1 → (k, v) ∈ es → (k, v') ∈ es → v = v'.
Proof.
  intros Hnd [i Hi]%list_elem_of_lookup [j Hj]%list_elem_of_lookup.
  assert (i = j) as <-; [|congruence].
  apply (NoDup_lookup _ i j k Hnd); by rewrite list_lookup_fmap, ?Hi, ?Hj.
Qed.

Lemma path_file_exact_lemma text p :
  from_str text = Ok p ↔
  ∃ d s q, names_registry text d s q ∧
    p = {| root_deployer := d; root_salt := sha256 s; segments := named_segments (path_names q) |}.
Proof.
  unfold from_str. rewrite rbind_Ok. setoid_rewrite path_lines_Ok.
  setoid_rewrite rbind_Ok. setoid_rewrite ok_or_Ok.
  setoid_rewrite rbind_Ok. setoid_rewrite ok_or_Ok.
  setoid_rewrite rbind_Ok. setoid_rewrite ok_or_Ok.
  assert (∀ es, NoDup es.*1 →
    (∀ x, ps_deployer (foldl set_entry no_keys es) = Some x ↔ ∃ v, ("root-deployer", v) ∈ es ∧ x = v) ∧
    (∀ x, ps_salt (foldl set_entry no_keys es) = Some x ↔ ∃ v, ("root-salt", v) ∈ es ∧ x = sha256 v) ∧
    (∀ x, ps_segments (foldl set_entry no_keys es) = Some x ↔
       ∃ v, ("path", v) ∈ es ∧ x = named_segments (path_names v))) as Hslots.
  { intros es Hnd. split; [|split]; intros x; by apply slot_present. }
  split.
  - intros (st & (es & Hes & Hok & [Hnd _] & ->) & d & Hd & s & Hs & q & Hq & [= <-]).
    destruct (Hslots es Hnd) as (S1 & S2 & S3).
    apply S1 in Hd as (d' & Hd & ->). apply S2 in Hs as (s' & Hs & ->). apply S3 in Hq as (q' & Hq & ->).
    exists d', s', q'. split; [|done]. exists es. rewrite Forall_forall in Hok.
    split; [done|]. split; [|split].
    + apply NoDup_Permutation; [by eapply NoDup_fmap_1|by apply (bool_decide_unpack _)|].
      intros [k v]. split; [|set_solver].
      intros Hin. destruct (Hok _ Hin) as [[Hk _]|[Hk|[Hk _]]]; simpl in Hk; subst k;
        [pose proof (keys_elem _ _ _ _ Hnd Hin Hd)|pose proof (keys_elem _ _ _ _ Hnd Hin Hs)
        |pose proof (keys_elem _ _ _ _ Hnd Hin Hq)]; set_solver.
    + destruct (Hok _ Hd) as [[_ ?]|[?|[? _]]]; done.
    + destruct (Hok _ Hq) as [[? _]|[?|[_ ?]]]; done.
  - intros (d & s & q & (es & Hes & Hp & Hd & Hq) & ->).
    assert (NoDup es.*1) as Hnd by (rewrite Hp; by apply (bool_decide_unpack _)).
    destruct (Hslots es Hnd) as (S1 & S2 & S3).
    eexists. split.
    { exists es. split; [done|]. split; [|split; [split; [done|]|reflexivity]].
      - rewrite Hp. repeat (apply Forall_cons; split); [by left|by right; left|by right; right|done].
      - intros k _. by repeat split. }
    exists d. split; [apply S1; exists d; rewrite Hp; set_solver|].
    exists (sha256 s). split; [apply S2; exists s; rewrite Hp; set_solver|].
    exists (named_segments (path_names q)).
    split; [apply S3; exists q; rewrite Hp; set_solver|done].
Qed.
(** A path file is accepted exactly when it has one [root-deployer], one
    [root-salt] and one [path] line and nothing else but blank lines and
    comments, in any order; the deployer is a canonical account or contract
    key and every segment a registry name.  What is read is the deployer, the
    digest of the salt's text, and per segment its normalized name and the
    name's digest. *)
Theorem path_file_exact text p :
  from_str text = Ok p ↔
  ∃ d s q, names_registry text d s q ∧
    p = {| root_deployer := d; root_salt := sha256 s; segments := named_segments (path_names q) |}.
Proof. apply path_file_exact_lemma. Qed.
End path.

(** ** The macro's input is always read to its end *)

Section total.
Context {H : Host} {B : Build}.

Lemma decode_pairs_safe s : safe (decode_pairs s).
Proof.
  induction s as [|c|c d s IH] using two_step_ind; cbn [decode_pairs]; [done..|]. by safely.
Qed.
Lemma decode_hash_safe s : safe (decode_hash s).
Proof. unfold decode_hash. cbv zeta. pose proof decode_pairs_safe. safely. Qed.
Lemma parse_segments_safe n l : safe (parse_segments n l).
Proof. induction l as [|s l IH]; cbn [parse_segments]; cbv zeta; safely. Qed.
Lemma path_line_safe n s st : safe (path_line n s st).
Proof.
  unfold path_line, path_entry, put_once. pose proof parse_segments_safe.
  cbv zeta. repeat (case_match; safely).
Qed.
Lemma from_str_safe text : safe (from_str text).
Proof.
  unfold from_str. apply safe_bind; [|intros; safely].
  generalize 1, no_keys. induction (lines text) as [|x l IH]; intros n st; cbn [path_lines]; [done|].
  apply safe_bind; [apply path_line_safe|auto].
Qed.

Lemma read_text_safe rel : safe (read_text rel).
Proof. unfold read_text, read_bytes, manifest_path. destruct manifest_dir_set; safely. Qed.
Lemma read_hash_at_safe rel : safe (read_hash_at rel).
Proof.
  unfold read_hash_at. apply safe_bind; [apply read_text_safe|]. intros t _.
  apply safe_map_err, decode_hash_safe.
Qed.

(** A reader leaves no more than it was given. *)
Definition reads {A} (parse : list Token → spec (A * list Token)) : Prop :=
  ∀ ts, safe (parse ts) ∧ ∀ r, parse ts = Ok r → (length r.2 ≤ length ts)%nat.

Lemma reads_ident : reads parse_ident_any.
Proof. intros [|[] ts]; split; try done; intros r [= <-]; cbn; lia. Qed.
Lemma reads_str : reads parse_lit_str.
Proof. intros [|[] ts]; split; try done; intros r [= <-]; cbn; lia. Qed.
Lemma reads_rest acc : reads (path_rest acc).
Proof.
  intros ts. remember (length ts) as n eqn:Hn. revert ts Hn acc.
  induction n as [n IH] using lt_wf_ind. intros ts -> acc. destruct ts as [|[] ts]; try (split; [done|]; intros r [= <-]; cbn; lia).
  destruct ts as [|[] ts]; try (split; [done|]; intros r [=]). cbn [path_rest].
  destruct (IH (length ts) ltac:(cbn; lia) ts eq_refl (acc ++ [s])) as [Hs Hl]. split; [done|].
  intros r Hr%Hl. cbn. lia.
Qed.
Lemma reads_path : reads parse_path.
Proof.
  intros ts. unfold parse_path. cbv zeta.
  set (ts' := match ts with TPathSep :: t => t | t => t end).
  assert (length ts' ≤ length ts)%nat as Hle by (unfold ts'; destruct ts as [|[] ?]; cbn; lia).
  destruct (reads_ident ts') as [Hs Hl]. split.
  - apply safe_bind; [done|]. intros a _. apply reads_rest.
  - intros r (st & Hst%Hl & Hr)%rbind_Ok. apply reads_rest in Hr. lia.
Qed.
Lemma reads_hash : reads parse_hash_lit.
Proof.
  intros ts. unfold parse_hash_lit. destruct (reads_str ts) as [Hs Hl]. split.
  - apply safe_bind; [done|]. intros a _. apply safe_bind; [apply safe_map_err, decode_hash_safe|done].
  - intros r (st & Hst%Hl & Hr)%rbind_Ok. inv_result. done.
Qed.
Lemma reads_fill {A} key slot (parse : list Token → spec (A * list Token)) :
  reads parse → reads (fill key slot parse).
Proof.
  intros Hp ts. destruct (Hp ts) as [Hs Hl]. unfold fill. destruct slot; [done|]. split.
  - by apply safe_bind.
  - intros r (st & Hst%Hl & [= <-])%rbind_Ok. done.
Qed.
Lemma reads_map {A C} (parse : list Token → spec (A * list Token)) (k : A * list Token → C) :
  reads parse → reads (λ ts, let* r := parse ts in Ok (k r, r.2)).
Proof.
  intros Hp ts. destruct (Hp ts) as [Hs Hl]. split.
  - by apply safe_bind.
  - intros r (st & Hst%Hl & [= <-])%rbind_Ok. done.
Qed.
#[local] Hint Resolve reads_ident reads_str reads_path reads_hash reads_fill : core.

Lemma reads_field key f : reads (parse_field key f).
Proof.
  intros ts. unfold parse_field.
  repeat (case_match; [apply (reads_map (fill key _ _)); auto|]). done.
Qed.

Lemma parse_fields_safe fuel f ts : (length ts ≤ fuel)%nat → safe (parse_fields fuel f ts).
Proof.
  revert f ts. induction fuel as [|fuel IH]; intros f [|t ts] Hle; try done; [cbn in Hle; lia|].
  cbn [parse_fields]. destruct (reads_ident (t :: ts)) as [Hs Hl].
  apply safe_bind; [done|]. intros k Hk. assert ((length k.2 ≤ length ts)%nat) as Hk2.
  { destruct t; try done. injection Hk as <-. done. }
  apply safe_bind; [by destruct k.2 as [|[] ?]|]. intros ts1 Hc.
  assert ((length ts1 ≤ length k.2)%nat) by (destruct k.2 as [|[] ?]; try done; injection Hc as <-; cbn; lia).
  apply safe_bind; [apply reads_field|]. intros r Hr%reads_field.
  destruct r.2 as [|[] ?] eqn:E; try done. apply IH. cbn in *. lia.
Qed.

Lemma content_mode_safe name h hf wf : safe (content_mode name h hf wf).
Proof.
  pose proof read_hash_at_safe. unfold content_mode, hash_wasm_at, read_bytes, manifest_path.
  destruct h, hf, wf, manifest_dir_set; safely.
Qed.

(** Every invocation is accepted or refused with an error. *)
Lemma registry_spec_parse_safe ts : safe (registry_spec_parse ts).
Proof.
  assert (safe (parse_keyed ts)) as Hk.
  { unfold parse_keyed. cbv zeta. apply safe_bind; [by apply parse_fields_safe|]. intros r _.
    apply safe_bind; [safely|]. intros m _. apply safe_bind; [|intros; safely].
    pose proof content_mode_safe. repeat case_match; safely. }
  assert (safe (parse_named ts)) as Hn.
  { unfold parse_named. apply safe_bind.
    - repeat case_match; safely.
    - intros [[[np ver] mn] ts'] _. cbv zeta. do 3 (apply safe_bind; [safely|]; intros _ _).
      apply safe_bind; [apply read_hash_at_safe|]. intros h _. apply safe_bind; [|intros; safely].
      unfold read_registry_path. apply safe_bind; [apply read_text_safe|]. intros t _.
      apply safe_map_err, from_str_safe. }
  unfold registry_spec_parse. repeat case_match; done.
Qed.
End total.

(** ** One address, however it is named *)

Section resolve.
Context {H : Host} {R : Resolution} {B : Build}.

(** A normalized name is its own normalization. *)
Lemma normalize_ascii c :
  (if Ascii.eqb (if Ascii.eqb c "_" then "-"%char else to_ascii_lowercase c) "_" then "-"%char
   else to_ascii_lowercase (if Ascii.eqb c "_" then "-"%char else to_ascii_lowercase c)) =
  (if Ascii.eqb c "_" then "-"%char else to_ascii_lowercase c).
Proof. by destruct c as [[] [] [] [] [] [] [] []]. Qed.
Lemma normalize_idempotent s : normalize_name (normalize_name s) = normalize_name s.
Proof. induction s as [|c s IH]; [done|]. cbn [normalize_name]. by rewrite normalize_ascii, IH. Qed.

Lemma path_names_normal q n : n ∈ path_names q → normalize_name n = n.
Proof.
  unfold path_names. destruct (String.eqb _ ""); [set_solver|].
  intros (m & -> & _)%list_elem_of_fmap. apply normalize_idempotent.
Qed.

(** The registry at the end of a path: one named module per segment. *)
Lemma registry_below_named e root names :
  registry_below e root (named_segments names) = foldl (named_address e) root names.
Proof.
  unfold registry_below, named_segments. revert root.
  induction names as [|n names IH]; intros root; [done|]. apply IH.
Qed.

#[local] Arguments named_segments : simpl never.
#[local] Arguments registry_below : simpl never.

Lemma named_segments_names names : (named_segments names).*1 = names.
Proof. unfold named_segments. induction names; simpl; [done|]. by f_equal. Qed.

Lemma path_registry_named e text p d :
  from_str text = Ok p → address_from_str (root_deployer p) = Some d →
  path_registry e p =
  Some (foldl (named_address e) (deployed_address (network_id e) d (root_salt p)) (segments p).*1).
Proof.
  intros (dd & s & q & _ & ->)%path_file_exact_lemma Hd. unfold path_registry. cbn in Hd |- *. rewrite Hd.
  cbn. by rewrite registry_below_named, named_segments_names.
Qed.

(** *** The deploy scripts' tool *)

Lemma hex_val_bound c n : hex_val c = Some n → (n < 16)%N.
Proof.
  unfold hex_val, in_range. cbv zeta. repeat case_match; intros [= <-];
    repeat match goal with H : _ && _ = true |- _ => apply andb_true_iff in H as [? ?] end;
    repeat match goal with H : (_ <=? _)%N = true |- _ => apply N.leb_le in H end; lia.
Qed.

Lemma hex_val_ascii c n : hex_val c = Some n → cont c = false ∧ Ascii.eqb c "+" = false.
Proof. destruct c as [[] [] [] [] [] [] [] []]; vm_compute; naive_solver. Qed.

(** Decoded hex has no [+] and no character of more than a byte. *)
Lemma decode_pairs_head c s h :
  decode_pairs (String c s) = Ok h → s ≠ "" → cont c = false.
Proof.
  destruct s as [|d s]; [done|]. cbn [decode_pairs]. intros Hh _. inv_result.
  match goal with Hc : hex_val c = Some _ |- _ => by apply hex_val_ascii in Hc as [? _] end.
Qed.

Lemma derive_pairs_decode s h :
  decode_pairs s = Ok h → Nat.Even (String.length s) → derive_pairs s = Ok h.
Proof.
  revert h. induction s as [|c|c d s IH] using two_step_ind; intros h Hh Hev.
  { cbn in *. by injection Hh as <-. }
  { by destruct Hev as [[|n] ?]; simpl in *; lia. }
  assert (Nat.Even (String.length s)) as Hev' by (destruct Hev as [[|n] ?]; simpl in *; [lia|exists n; lia]).
  cbn [decode_pairs derive_pairs] in Hh |- *. inv_result.
  assert (match s with String c _ => cont c | EmptyString => false end = false) as ->.
  { destruct s as [|c' s]; [done|]. eapply decode_pairs_head; [eassumption|].
    intros ->. by destruct Hev' as [[|n] ?]; simpl in *; lia. }
  repeat match goal with Hc : hex_val ?c = Some _ |- _ =>
    let Hb := fresh in let Ha := fresh in
    pose proof (hex_val_bound _ _ Hc) as Hb; pose proof (proj2 (hex_val_ascii _ _ Hc)) as Ha; revert Hc end.
  intros Hd Hc. unfold radix16_pair. rewrite Hc, Hd. cbn [negb demand rbind option_bind mbind].
  match goal with Ha : Ascii.eqb c "+" = false |- _ => rewrite Ha end. cbn.
  rewrite (IH _ ltac:(eassumption) Hev'). cbn. by rewrite nibbles_byte.
Qed.

(** What the macro decodes, the tool decodes to the same bytes. *)
Lemma derive_parse_hash_decode raw h : decode_hash raw = Ok h → derive_parse_hash raw = Ok h.
Proof.
  unfold decode_hash, derive_parse_hash. cbv zeta. intros Hh. inv_result.
  match goal with Hl : negb _ = false |- _ => rewrite Hl; apply negb_false_iff, Nat.eqb_eq in Hl end.
  cbn. apply derive_pairs_decode; [done|]. exists 32. lia.
Qed.

Lemma decode_pairs_length s h :
  decode_pairs s = Ok h → String.length h = Nat.div2 (String.length s).
Proof.
  revert h. induction s as [|c|c d s IH] using two_step_ind; intros h Hh; cbn [decode_pairs] in Hh;
    inv_result; [done..|]. cbn. f_equal. by apply IH.
Qed.
Lemma decode_hash_length raw h : decode_hash raw = Ok h → String.length h = 32.
Proof.
  unfold decode_hash. cbv zeta. intros Hh. inv_result.
  match goal with Hl : negb _ = false |- _ => apply negb_false_iff, Nat.eqb_eq in Hl; rename Hl into Hlen end.
  erewrite decode_pairs_length by eassumption. by rewrite Hlen.
Qed.

(** *** What the name-only form bakes *)

Lemma read_text_Ok rel text :
  read_text rel = Ok text → read_file rel = Some text ∧ utf8_valid text = true.
Proof.
  unfold read_text, read_bytes, manifest_path. destruct manifest_dir_set; [|done].
  cbn [rbind]. intros Ht. inv_result.
  match goal with Hu : negb _ = false |- _ => by apply negb_false_iff in Hu end.
Qed.

Lemma content_mode_path name h hf wf m :
  content_mode name h hf wf = Ok m → ∃ h' f, m = Content name h' None f.
Proof.
  unfold content_mode. destruct h, hf, wf; intros Hm; inv_result; try done; by repeat eexists.
Qed.

Lemma parse_keyed_path ts s : parse_keyed ts = Ok s →
  ∀ name h p f, mode s ≠ Content name h (Some p) f.
Proof.
  unfold parse_keyed. cbv zeta. intros Hs name h p f Hm. inv_result. cbn in Hm. subst.
  repeat case_match; try done; inv_result; try done.
  match goal with Hc : content_mode _ _ _ _ = Ok _ |- _ =>
    by apply content_mode_path in Hc as (? & ? & ?) end.
Qed.

(** The pin file of an infra contract. *)
Definition pin_file (name : string) : string :=
  "wasm/" +:+ last_part "/" (replace_char "_" "-" name) +:+ ".sha256".

Lemma infra_module_files name h p :
  infra_module name = Some (h, p) →
  ∃ pin text, read_file (pin_file name) = Some pin ∧ decode_hash (trim pin) = Ok h ∧
    read_file REGISTRY_FILE = Some text ∧ from_str text = Ok p.
Proof.
  unfold infra_module. destruct (registry_spec_parse _) as [s| |] eqn:Hs; try done.
  destruct (expand s) as [g c] eqn:He. destruct g; intros [= <- <-].
  assert (∃ n f, mode s = Content n (Some wasm_hash) (Some path) f) as (n & f & Hm).
  { revert He. unfold expand. destruct (mode s) as [? [?|] [?|] ?|]; intros [=]; subst; eauto. }
  assert (parse_named [TIdent name] = Ok s) as Hn.
  { revert Hs. unfold registry_spec_parse. repeat case_match; try done; intros Hk;
      by destruct (parse_keyed_path _ _ Hk _ _ _ _ Hm). }
  clear Hs He. unfold parse_named in Hn. apply rbind_Ok in Hn as (named & Hnamed & Hn).
  apply rbind_Ok in Hnamed as (u & _ & [= <-]). cbv zeta in Hn. inv_result. cbn in Hm.
  injection Hm as _ -> -> _. unfold read_hash_at, read_registry_path in *. inv_result.
  repeat match goal with Ht : read_text _ = Ok _ |- _ => apply read_text_Ok in Ht as [? _] end.
  match goal with Hd : decode_hash (trim ?pin) = Ok _, Hf : from_str ?text = Ok _ |- _ =>
    by exists pin, text end.
Qed.

(** One path file per crate. *)
Lemma infra_module_path n n' h h' p p' :
  infra_module n = Some (h, p) → infra_module n' = Some (h', p') → p = p'.
Proof.
  intros (? & text & _ & _ & Hr & Hp)%infra_module_files
    (? & text' & _ & _ & Hr' & Hp')%infra_module_files. congruence.
Qed.

(** The keyed invocation that names a deploy. *)
Definition named_invocation (m n : string) : list Token :=
  [TIdent "mod"; TColon; TIdent m; TComma; TIdent "deploy_name"; TColon; TStr n].

Lemma named_invocation_spec m n :
  registry_spec_parse (named_invocation m n) =
  Ok {| module := m; mode := Named (normalize_name n); client := None |}.
Proof. done. Qed.

Lemma segments_normal text p n :
  from_str text = Ok p → n ∈ (segments p).*1 → normalize_name n = n.
Proof.
  intros (d & s & q & _ & ->)%path_file_exact_lemma. cbn [segments].
  rewrite named_segments_names. apply path_names_normal.
Qed.

Lemma derive_name on text n passphrase parent :
  address_from_str text = Some parent →
  derive_main on ["name"; text; n; passphrase] =
  Ok (deployed_address (sha256 passphrase) parent (sha256 n)).
Proof. intros Ht. cbn. unfold derive_id. cbn. by rewrite Ht. Qed.

Lemma derive_content on text raw h passphrase reg :
  address_from_str text = Some reg → decode_hash raw = Ok h →
  derive_main on ["content"; text; raw; passphrase] =
  Ok (deployed_address (sha256 passphrase) reg h).
Proof.
  intros Ht Hh. cbn. unfold derive_id. cbn. rewrite Ht. cbn.
  by rewrite (derive_parse_hash_decode _ _ Hh).
Qed.

Section one_network.
Context (on : bytes → Env) (e : Env) (passphrase : string).
Context (Hon : network_id (on (sha256 passphrase)) = sha256 passphrase).
Context (He : network_id e = sha256 passphrase).

(** The registry every derivation starts from. *)
Definition chain_registry (p : RegistryPath) (d : Address) : Address :=
  foldl (named_address e) (deployed_address (network_id e) d (root_salt p)) (segments p).*1.

Lemma path_registry_network p :
  path_registry (on (sha256 passphrase)) p = path_registry e p.
Proof. unfold path_registry, registry_below. by rewrite Hon, He. Qed.

Lemma infra_registry name h p h0 p0 d :
  infra_module "perch_doc_compiler" = Some (h0, p0) → infra_module name = Some (h, p) →
  address_from_str (root_deployer p) = Some d →
  constructorless_registry e = Some (chain_registry p d) ∧
  path_registry e p = Some (chain_registry p d) ∧
  infra_address name e = Some (address e (chain_registry p d) h).
Proof.
  intros H0 Hm Hd. rewrite (infra_module_path _ _ _ _ _ _ H0 Hm) in H0.
  destruct (infra_module_files _ _ _ Hm) as (_ & text & _ & _ & _ & Hp).
  pose proof (path_registry_named e text p d Hp Hd) as Hr.
  unfold constructorless_registry, infra_address. rewrite H0, Hm. cbn. split; [done|]. split; [done|].
  unfold path_address. by rewrite Hr.
Qed.

(** C36: One address for an infra contract, however it is derived.  When the
    account crate builds with a path file and a pin file for [name], then on
    any network the address the account bakes in, the one the keyed resolver
    derives from the registry's address, and what the deploy scripts' tool
    prints for the registry and the text of the contract's pin file are the
    same; the
    registry is the root deploy followed by one name-salted deploy per path
    segment, and the tool and a [deploy_name] module derive each hop alike. *)
Theorem resolvers_agree name h p h0 p0 d :
  infra_module "perch_doc_compiler" = Some (h0, p0) → infra_module name = Some (h, p) →
  address_from_str (root_deployer p) = Some d →
  let reg := chain_registry p d in
  derive_main on ["registry"; passphrase] = Ok reg ∧
  infra_address name e = Some (address e reg h) ∧
  (∃ pin, read_file (pin_file name) = Some pin ∧ ∀ text, address_from_str text = Some reg →
     derive_main on ["content"; text; trim pin; passphrase] = Ok (address e reg h)) ∧
  (∀ n m s w text parent, n ∈ (segments p).*1 → address_from_str text = Some parent →
     registry_spec_parse (named_invocation m n) = Ok s →
     derive_main on ["name"; text; n; passphrase] = Ok (named_address e parent n) ∧
     module_address (expand s).1 e w parent = Some (named_address e parent n)).
Proof.
  intros H0 Hm Hd reg. destruct (infra_registry _ _ _ _ _ _ H0 Hm Hd) as (Hc & Hr & Ha).
  destruct (infra_module_files _ _ _ Hm) as (pin & text & Hf & Hh & _ & Hp).
  split; [|split; [done|split]].
  - cbn. unfold constructorless_registry in Hc |- *. rewrite H0 in Hc |- *. cbn in Hc |- *.
    by rewrite path_registry_network, Hc.
  - exists pin. split; [done|]. intros txt Ht.
    rewrite (derive_content on txt _ h passphrase reg Ht Hh). by unfold address; rewrite He.
  - intros n m s w txt parent Hn Ht. rewrite named_invocation_spec. intros [= <-]. split.
    + rewrite (derive_name on txt n passphrase parent Ht). by unfold named_address; rewrite He.
    + cbn. by rewrite (segments_normal _ _ _ Hp Hn).
Qed.
End one_network.
End resolve.

(** ** Pins and addresses *)

(** *** Hex digits up to case *)

Fixpoint lowercase (s : string) : string :=
  match s with EmptyString => "" | String c s => String (to_ascii_lowercase c) (lowercase s) end.

(** The digits a pin file spells: without the white space around them, a
    leading [0x] and their case. *)
Definition pin_digits (pin : string) : string := lowercase (strip_0x (trim pin)).

Lemma hex_val_lower c n : hex_val c = Some n → to_ascii_lowercase c = hex_digit n.
Proof.
  assert (match hex_val c with
          | Some n => Ascii.eqb (to_ascii_lowercase c) (hex_digit n)
          | None => true
          end = true) as Hc by (destruct c as [[] [] [] [] [] [] [] []]; reflexivity).
  intros Hn. rewrite Hn in Hc. by apply Ascii.eqb_eq.
Qed.
Lemma hex_val_of_lower c : hex_val (to_ascii_lowercase c) = hex_val c.
Proof. destruct c as [[] [] [] [] [] [] [] []]; reflexivity. Qed.

(** Decoding looks at the lowercase digits only, and forgets nothing. *)
Lemma decode_pairs_lowercase s : decode_pairs (lowercase s) = decode_pairs s.
Proof.
  induction s as [|c|c d s IH] using two_step_ind; cbn [decode_pairs lowercase]; [done..|].
  by rewrite !hex_val_of_lower, IH.
Qed.

Lemma nibbles_inj x y x' y' :
  (x < 16)%N → (y < 16)%N → (x' < 16)%N → (y' < 16)%N →
  ascii_of_N (N.lor (N.shiftl x 4) y) = ascii_of_N (N.lor (N.shiftl x' 4) y') → x = x' ∧ y = y'.
Proof.
  intros ????. rewrite !nibbles_byte by done. intros E%(f_equal N_of_ascii).
  rewrite !N_ascii_embedding in E by lia. lia.
Qed.

Lemma decode_pairs_inj s : ∀ t h,
  decode_pairs s = Ok h → decode_pairs t = Ok h → Nat.Even (String.length s) →
  String.length s = String.length t → lowercase s = lowercase t.
Proof.
  induction s as [|c|c d s IH] using two_step_ind; intros [|c' [|d' t]] h Hs Ht Hev Hl; try done;
    try discriminate Hl.
  { destruct Hev as [[|n] Hn]; simpl in Hn; lia. }
  cbn [decode_pairs] in Hs, Ht. inv_result.
  repeat match goal with Hc : hex_val _ = Some _ |- _ =>
    let Hb := fresh in pose proof (hex_val_bound _ _ Hc) as Hb; apply hex_val_lower in Hc end.
  match goal with E : ascii_of_N _ = ascii_of_N _ |- _ => apply nibbles_inj in E as [-> ->]; try done end.
  cbn [lowercase]. f_equal; [congruence|]. f_equal; [congruence|].
  simpl in Hl. injection Hl as Hl.
  eapply IH; [done|done| |done]. destruct Hev as [[|n] Hn]; simpl in Hn; [lia|]. exists n. lia.
Qed.

Lemma decode_hash_digits pin pin' h h' :
  decode_hash (trim pin) = Ok h → decode_hash (trim pin') = Ok h' →
  h = h' ↔ pin_digits pin = pin_digits pin'.
Proof.
  unfold decode_hash, pin_digits. cbv zeta.
  generalize (strip_0x (trim pin)) (strip_0x (trim pin')). intros s t Hs Ht.
  apply rbind_Ok in Hs as (u & Hls%refuse_if_Ok%negb_false_iff%Nat.eqb_eq & Hs).
  apply rbind_Ok in Ht as (u' & Hlt%refuse_if_Ok%negb_false_iff%Nat.eqb_eq & Ht). split.
  - intros <-. eapply decode_pairs_inj; [done..| |congruence]. rewrite Hls. by exists 32.
  - intros E. rewrite <- decode_pairs_lowercase, E, decode_pairs_lowercase in Hs. congruence.
Qed.

Section pins.
Context {H : Host} {R : Resolution}.

(** *** Collisions *)

Definition sha256_collides : Prop := ∃ x y : bytes, x ≠ y ∧ sha256 x = sha256 y.

(** A salt is a digest, or 32 bytes read from a pin. *)
Definition is_salt (s : bytes) : Prop := String.length s = 32 ∨ ∃ x, s = sha256 x.

Definition deploys_collide (net : bytes) : Prop := ∃ a s a' s',
  is_salt s ∧ is_salt s' ∧ (a, s) ≠ (a', s') ∧
  deployed_address net a s = deployed_address net a' s'.

(** An address that is not a contract's: nothing deploys at it. *)
Definition is_account (a : Address) : Prop := ∀ net d s, deployed_address net d s ≠ a.

(** Deploys from accounts that end at one address took the same steps. *)
Lemma chain_inj net a b l : ∀ k,
  is_account a → is_account b → Forall is_salt l → Forall is_salt k →
  foldl (deployed_address net) a l = foldl (deployed_address net) b k →
  (a = b ∧ l = k) ∨ deploys_collide net.
Proof.
  induction l as [|x l IH] using rev_ind; intros k Ha Hb Hl Hk E;
    induction k as [|y k _] using rev_ind; rewrite ?foldl_app in E; simpl in E.
  - by left.
  - by destruct (Ha net (foldl (deployed_address net) b k) y).
  - by destruct (Hb net (foldl (deployed_address net) a l) x).
  - apply Forall_app in Hl as [Hl Hx], Hk as [Hk Hy].
    apply Forall_cons in Hx as [Hx _], Hy as [Hy _].
    destruct (decide ((foldl (deployed_address net) a l, x) = (foldl (deployed_address net) b k, y)))
      as [[= E' ->]|Hne].
    + destruct (IH k Ha Hb Hl Hk E') as [[-> ->]|]; [by left|by right].
    + right. exists (foldl (deployed_address net) a l), x, (foldl (deployed_address net) b k), y.
      split_and!; [exact Hx|exact Hy|exact Hne|exact E].
Qed.

Lemma map_sha256_inj l : ∀ k, map sha256 l = map sha256 k → l = k ∨ sha256_collides.
Proof.
  induction l as [|x l IH]; intros [|y k]; simpl; try done; [by left|]. intros [= Exy E].
  destruct (IH k E) as [->|]; [|by right]. destruct (decide (x = y)) as [->|]; [by left|].
  right. by exists x, y.
Qed.

(** *** What a build says *)

Definition infra_names : list string :=
  ["perch_doc_compiler"; "perch_interpreter"; "perch_spending_limit"].

(** The addresses the account calls are those its build bakes in. *)
Definition baked (B : Build) (I : Infra) : Prop := ∀ e,
  infra_address "perch_doc_compiler" e = Some (perch_doc_compiler e) ∧
  infra_address "perch_interpreter" e = Some (perch_interpreter e) ∧
  infra_address "perch_spending_limit" e = Some (perch_spending_limit e).

(** The build's path file: the root deployer, the text of the root salt and
    the names of the path, from an account. *)
Definition path_says (B : Build) (root : Address) (salt : string) (names : list string) : Prop :=
  ∃ text d q, read_file REGISTRY_FILE = Some text ∧ names_registry text d salt q ∧
    names = path_names q ∧ address_from_str d = Some root ∧ is_account root.

(** The steps to a contract: the root salt, a name per segment, the pin. *)
Definition chain_salts (salt : string) (names : list string) (h : bytes) : list bytes :=
  map sha256 (salt :: names) ++ [h].

Lemma infra_address_chain (B : Build) name e a root salt names :
  infra_address name e = Some a → path_says B root salt names →
  ∃ pin h, read_file (pin_file name) = Some pin ∧ decode_hash (trim pin) = Ok h ∧
    a = foldl (deployed_address (network_id e)) root (chain_salts salt names h).
Proof.
  unfold infra_address. destruct (infra_module name) as [[h p]|] eqn:Hm; [|done].
  intros Ha (text & d & q & Ht & Hn & -> & Hd & _).
  destruct (infra_module_files _ _ _ Hm) as (pin & text' & Hpin & Hh & Ht' & Hp).
  rewrite Ht in Ht'. injection Ht' as <-. exists pin, h. split_and!; [done..|].
  assert (p = {| root_deployer := d; root_salt := sha256 salt;
                 segments := named_segments (path_names q) |}) as ->.
  { assert (from_str text = Ok {| root_deployer := d; root_salt := sha256 salt;
                 segments := named_segments (path_names q) |}); [|congruence].
    apply path_file_exact_lemma. by exists d, salt, q. }
  cbn in Ha. unfold path_address, path_registry in Ha. cbn [root_deployer root_salt segments] in Ha.
  rewrite Hd in Ha. cbn in Ha. rewrite registry_below_named in Ha. injection Ha as <-.
  unfold chain_salts. rewrite foldl_app. simpl. f_equal.
  generalize (deployed_address (network_id e) root (sha256 salt)). clear.
  induction (path_names q) as [|n l IH]; intros a; [done|]. apply IH.
Qed.

Lemma chain_salts_salts salt names h :
  String.length h = 32 → Forall is_salt (chain_salts salt names h).
Proof.
  intros Hh. unfold chain_salts. apply Forall_app. split; [|by constructor; [left|constructor]].
  apply Forall_forall. intros x Hx. apply list_elem_of_In, in_map_iff in Hx as (y & <- & _).
  right. by eexists.
Qed.

(** Two builds' files agree on a contract. *)
Definition same_pin (B1 B2 : Build) (name : string) : Prop :=
  ∃ pin1 pin2, @read_file B1 (pin_file name) = Some pin1 ∧
    @read_file B2 (pin_file name) = Some pin2 ∧ pin_digits pin1 = pin_digits pin2.

Lemma same_address_iff (B1 B2 : Build) name e a1 a2 root1 salt1 names1 root2 salt2 names2 :
  @infra_address H R B1 name e = Some a1 → @infra_address H R B2 name e = Some a2 →
  path_says B1 root1 salt1 names1 → path_says B2 root2 salt2 names2 →
  (a1 = a2 → (root1 = root2 ∧ salt1 = salt2 ∧ names1 = names2 ∧ same_pin B1 B2 name) ∨
     sha256_collides ∨ deploys_collide (network_id e)) ∧
  (root1 = root2 ∧ salt1 = salt2 ∧ names1 = names2 ∧ same_pin B1 B2 name → a1 = a2).
Proof.
  intros E1 E2 S1 S2.
  destruct (infra_address_chain _ _ _ _ _ _ _ E1 S1) as (pin1 & h1 & Hp1 & Hh1 & ->).
  destruct (infra_address_chain _ _ _ _ _ _ _ E2 S2) as (pin2 & h2 & Hp2 & Hh2 & ->).
  pose proof (decode_hash_digits _ _ _ _ Hh1 Hh2) as Hdigits.
  apply decode_hash_length in Hh1, Hh2. destruct S1 as (? & ? & ? & _ & _ & _ & _ & A1).
  destruct S2 as (? & ? & ? & _ & _ & _ & _ & A2). split.
  - intros [[-> E]|]%chain_inj; try (by apply chain_salts_salts); [|by right; right|done..].
    unfold chain_salts in E. apply app_inj_tail in E as [E Eh].
    destruct (map_sha256_inj _ _ E) as [[= -> ->]|]; [|by right; left].
    left. split_and!; [done..|]. exists pin1, pin2. split_and!; [done..|by apply Hdigits].
  - intros (-> & -> & -> & pin & pin' & Hp & Hp' & Hd). rewrite Hp1 in Hp. rewrite Hp2 in Hp'.
    injection Hp as <-. injection Hp' as <-. apply Hdigits in Hd. by subst.
Qed.

End pins.
