(* ===== verification/RegistryDemo.v ===== *)
(** * A concrete build

    The path file and the pin files of the account crate, with the modules
    they generate, inputs at the edges of the readers, and the witnesses of
    the theorems on resolution. *)

From S2P Require Import Prelude Host Canon Text Validate Registry Rules Account RegistryFacts RulesDemo.
#[local] Open Scope string_scope.
#[local] Open Scope list_scope.

#[local] Existing Instance DemoHost.

Definition newline : string := String (ascii_of_N 10) "".

Definition demo_path_file : string :=
  "root-deployer GAMPJROHOAW662FINQ4XQOY2ULX5IEGYXCI4SMZYE75EHQBR6PSTJG3M" +:+ newline +:+
  "root-salt 2026-04-24T13:41:00" +:+ newline +:+ "path perch/constructorless" +:+ newline.

Definition compiler_pin : string :=
  "2730a7d39d619579bb7873818900fa5f9150d69d49fa1ee3b4a38f61ba768a16" +:+ newline.
Definition interpreter_pin : string :=
  "f884913eba4a9491f8bcf89d1a687381c7c0699b148f98f8dc344e9a6223b26e" +:+ newline.
Definition limit_pin : string :=
  "8c043dcc24f944d7c3e349fb5fd83cedba4a9124b5791b625bd76b520b0f4a80" +:+ newline.

(** The crate with a given pin of the spending limit. *)
Definition demo_build (limit : string) : Build := {|
  manifest_dir_set := true;
  read_file f :=
    if String.eqb f "wasm/registry.path" then Some demo_path_file
    else if String.eqb f "wasm/perch-doc-compiler.sha256" then Some compiler_pin
    else if String.eqb f "wasm/perch-interpreter.sha256" then Some interpreter_pin
    else if String.eqb f "wasm/perch-spending-limit.sha256" then Some limit
    else None;
  strkey_canonical s := Some s;
  is_ident s := negb (String.eqb s "") |}.

#[local] Instance DemoResolution : Resolution := {|
  deployed_address net a salt := "C" +:+ salt +:+ net +:+ a;
  RegistryState := unit;
  fetch_hash _ _ _ _ := None |}.

#[local] Instance PinnedBuild : Build := demo_build limit_pin.

(** ** The readers on concrete inputs *)

Example crate_builds :
  map (λ n, fst <$> infra_module n) infra_names = map (λ t,
    match decode_hash (trim t) with Ok h => Some h | _ => None end)
    [compiler_pin; interpreter_pin; limit_pin].
Proof. vm_compute. reflexivity. Qed.

Example names_are_normalized :
  match from_str ("# c" +:+ newline +:+ newline +:+ "path perch/Constructor_Less" +:+ newline +:+
    "  root-salt   x " +:+ newline +:+ "root-deployer G") with
  | Ok p => (segments p).*1 = ["perch"; "constructor-less"] ∧ root_salt p = sha256 "x"
  | _ => False
  end.
Proof. vm_compute. done. Qed.

Example the_root_itself :
  match from_str ("root-deployer G" +:+ newline +:+ "root-salt x" +:+ newline +:+ "path /") with
  | Ok p => segments p = []
  | _ => False
  end.
Proof. vm_compute. done. Qed.

Example refused_paths :
  map from_str [demo_path_file +:+ "path c"; demo_path_file +:+ "network testnet";
    demo_path_file +:+ "path"; "root-deployer G" +:+ newline +:+ "root-salt s" +:+ newline +:+ "path a//b"; ""]
  = [Err (GivenTwice 4 "path"); Err (UnknownKey 4 "network"); Err (ExpectedKeyValue 4);
     Err (NotRegistryName 3 ""); Err MissingRootDeployer].
Proof. vm_compute. reflexivity. Qed.

(** ** The tool and the macro where they differ *)

Definition env_on (net : bytes) : Env := {|
  sequence := 100; network_id := net; current_contract_address := "CACCOUNT";
  authorized _ := true; authorized_for_args _ _ := true;
  max_ttl := 1000; min_persistent_ttl := 10; min_temp_ttl := 10 |}.

(** A name with an underscore or a capital: the macro hashes the normalized
    name, the tool the name as typed. *)
Lemma tool_keeps_the_name_as_typed :
  derive_main env_on ["name"; "CPARENT"; "Constructor_Less"; "net"] ≠
  Ok (named_address (env_on (sha256 "net")) "CPARENT" (normalize_name "Constructor_Less")).
Proof. vm_compute. discriminate. Qed.

(** A sign in a pair of digits passes the tool's reader and not the macro's. *)
Lemma tool_reads_signed_pairs :
  let raw := "+f30a7d39d619579bb7873818900fa5f9150d69d49fa1ee3b4a38f61ba768a16" in
  (∃ h, derive_parse_hash raw = Ok h) ∧ decode_hash raw = Err NonHex.
Proof. split; [eexists|]; vm_compute; reflexivity. Qed.

(** ** Witnesses *)

Lemma resolvers_agree_witness :
  ∃ h p, infra_module "perch_interpreter" = Some (h, p) ∧
  derive_main env_on ["registry"; "net"] =
    Ok (chain_registry (env_on (sha256 "net")) p "GAMPJROHOAW662FINQ4XQOY2ULX5IEGYXCI4SMZYE75EHQBR6PSTJG3M").
Proof.
  destruct (infra_module "perch_interpreter") as [[h p]|] eqn:Hm; [|vm_compute in Hm; discriminate].
  destruct (infra_module "perch_doc_compiler") as [[h0 p0]|] eqn:H0; [|vm_compute in H0; discriminate].
  exists h, p. split; [reflexivity|].
  assert (address_from_str (root_deployer p) =
    Some "GAMPJROHOAW662FINQ4XQOY2ULX5IEGYXCI4SMZYE75EHQBR6PSTJG3M") as Hd.
  { vm_compute in Hm. injection Hm as <- <-. vm_compute. reflexivity. }
  exact (proj1 (resolvers_agree env_on (env_on (sha256 "net")) "net" eq_refl eq_refl
    "perch_interpreter" h p h0 p0 _ H0 Hm Hd)).
Defined.

(** The addresses a build bakes in. *)
Definition baked_infra (B : Build) : Infra := {|
  perch_doc_compiler e := default "" (infra_address "perch_doc_compiler" e);
  perch_interpreter e := default "" (infra_address "perch_interpreter" e);
  perch_spending_limit e := default "" (infra_address "perch_spending_limit" e) |}.

(** The same hash in capitals after [0x], and another one. *)
Definition spelled_build : Build := demo_build
  ("  0x8C043DCC24F944D7C3E349FB5FD83CEDBA4A9124B5791B625BD76B520B0F4A80" +:+ newline).
Definition other_build : Build := demo_build interpreter_pin.

Lemma pinned_baked : baked PinnedBuild (baked_infra PinnedBuild).
Proof. intros e. vm_compute. done. Qed.
Lemma spelled_baked : baked spelled_build (baked_infra spelled_build).
Proof. intros e. vm_compute. done. Qed.
Lemma other_baked : baked other_build (baked_infra other_build).
Proof. intros e. vm_compute. done. Qed.

Definition root_account : string := "GAMPJROHOAW662FINQ4XQOY2ULX5IEGYXCI4SMZYE75EHQBR6PSTJG3M".
Lemma demo_path_says limit :
  path_says (demo_build limit) root_account "2026-04-24T13:41:00" ["perch"; "constructorless"].
Proof.
  exists demo_path_file, root_account, "perch/constructorless". split_and!; try reflexivity.
  - eexists. split; [vm_compute; reflexivity|]. by split_and!.
  - intros net d s E. discriminate E.
Qed.

Lemma demo_same_pin limit limit' name :
  pin_digits limit = pin_digits limit' → name ∈ infra_names →
  same_pin (demo_build limit) (demo_build limit') name.
Proof.
  intros Hd Hin. unfold infra_names in Hin.
  repeat (apply elem_of_cons in Hin as [->|Hin]; [by eexists _, _|]). by apply elem_of_nil in Hin.
Qed.

